(* ===== verification/_CoqProject ===== *)
-Q . S2P
Prelude.v
Errors.v
Sha256.v
Hashing.v
Node.v
Smt.v
Proofs.v
Backend.v
Pebble.v
Cache.v
Lru.v
Aead.v
AesGcm.v
Store.v
Tree.v
StoreRead.v
Update.v
StoreWrite.v
Records.v
StoreCommit.v
StoreFrame.v
StoreOpen.v
StoreProof.v
Fork.v
Prune.v
History.v
Diff.v
Snapshot.v
Tamper.v
Absence.v
Ledger.v
GoNum.v
SqlCodec.v
SqlIndex.v
SqlTxn.v
SqlOverlay.v
SqlStore.v
Json.v
SqlCatalog.v
SqlScan.v
SqlScanOk.v
SqlCommit.v
SqlTorn.v
SqlRefine.v
SqlTable.v
SqlEdit.v
SqlUnique.v
SqlSession.v
SqlRelease.v
SqlRemove.v
SqlDdl.v
SqlSchema.v
SqlIndexBuild.v
SqlCat.v
SqlDdlOk.v
SqlDbCommit.v
SqlTableDdl.v
SqlDdlSpec.v
SqlReopen.v
SqlRebuild.v
SqlWorld.v
SqlQuery.v
SqlVerify.v
SqlHeap.v
Demo.v
SqlDemo.v
SqlDdlDemo.v
ThmStore.v
ThmAuth.v
ThmHistory.v
ThmCodec.v
ThmSql.v
ThmDdl.v
