(* ===== verification/Prelude.v ===== *)
(** * A verification of the immutable ledger

    The program is an authenticated, versioned key-value store (package [ledger])
    with an SQL storage engine on top of it (package [sqlledger]).  Keys and values
    are committed to under a secret commitment key: a key becomes the 256-bit path
    [HMAC(ck, "p" || key)], a value the commitment [HMAC(ck, "v" || path || value)].
    The commitments are the leaves of a sparse Merkle tree, stored as sixteen-ary
    nodes with one version number per commit; a root hash commits to a whole state.
    Storage is not trusted: every record read is checked against the root in memory.

    ** The parts, and where they are modelled

    - [ledger/hash.go], [errors.go]: [Sha256] (SHA-256 after FIPS 180-4 and HMAC,
      behind the class [Hasher]), [Hashing] (the tagged hashes, and
      [no_collision], the only cryptographic assumption used: that two given finite
      lists of messages do not collide), [Errors] (error values, outcomes with
      errors and panics apart, the state monad [M] in which methods are written).
    - [ledger/node.go]: [Node] (node keys, nodes, the record codec).  [Smt] is the
      specification: the binary sparse Merkle hash [smt] of a set of leaves, and its
      binding property.  [Tree] relates the two: canonical radix trees [twf] and
      [t_hash_smt].
    - [ledger/proof.go]: [Proofs] (verifier and wire codec), [StoreProof] (prover).
    - [ledger/backend.go]: [Backend] (the interface as the class [Backend] with the
      laws [BackendSpec], liveness [BackendReliable], and [MemBackend] as an
      instance).  Theorems about behaviour under faults use the laws only.
      [backend/pebble/pebble.go]: [Pebble] (the adapter as a further instance, over
      the class [Pebble] with the laws [PebbleSpec] that Pebble documents).
    - [ledger/cache.go]: [Cache], and [Lru] (the reference list of a least-recently-used
      cache, and that the cache is one).  [ledger/aead.go]: [Aead] (record format over the
      classes [GCM] and [Entropy]) and [AesGcm] (AES-256-GCM as the instance).
    - [ledger/store.go]: [Store] holds the state and every operation.  [StoreRead]
      gives the representation invariant ([store_ok], [view], [repr]) and the read
      path; [Update], [StoreWrite] the batch apply; [Records], [StoreCommit],
      [StoreFrame] the commit and what it leaves alone; [StoreOpen] creating and
      opening; [Prune] garbage collection over a [timeline] of versions.
    - [ledger/fork.go]: [Fork].  [ledger/audit.go]: [History] (chain and audit) and
      [Diff] (transition extraction).  [ledger/snapshot.go]: [Snapshot].
    - [Tamper] is the read path with nothing assumed of storage, [Absence] the way
      storage can hide a key from it.  [Ledger] is the abstract ledger (a map from versions to states) and the refinement of it.
    - [Demo] holds the concrete store the theorems are instantiated at.
    - [sqlledger/codec.go]: [GoNum] (machine integers, IEEE 754 widening and
      narrowing, varints, times) and [SqlCodec] (values with their Go types, the key
      and row encodings).
    - [sqlledger/index.go]: [SqlIndex] (keyspaces, index entries, lookup bounds).
    - [sqlledger/store.go], [txn.go]: [SqlTxn] (buffers, row operations, the read
      overlay), [SqlStore] (the store over a ledger, reads, validation, commit,
      rebuilding the derived keyspaces), [SqlCatalog] (the catalog, its JSON form
      over [Json], opening a database), [SqlHeap] (savepoints, in a model with the
      pointers that buffers share), [SqlSession] (sessions, TRUNCATE).
    - [sqlledger/table.go]: [SqlScan] (partitions and iterators), [SqlTable] (row
      editors, unique checks, AUTO_INCREMENT).  [sqlledger/verify.go]: [SqlVerify].
      [sqlledger/database.go] and the DDL entry points: [SqlDdl].  [SqlSchema] is
      what the engine is shown: schemas, index descriptions, databases ([engine.go]).
    - The proofs: [SqlOverlay] and [SqlScanOk] (a merged scan is a scan of the
      changed keyspace), [SqlCommit], [SqlTorn] (commits on storage that fails),
      [SqlRefine] ([sql_ok]: the store holds a [database], a map from tables and keys
      to rows; queries and commits against it), [SqlEdit] (statements), [SqlUnique]
      and [SqlRelease] (the check of unique indexes, and where it is not enough),
      [SqlWorld] (interleaved sessions and their invariant [world_ok]), [SqlQuery].  [SqlDemo] is a concrete store.
    - The proofs on the catalog: [SqlCat] ([db_ok]: ledger, catalog and derived
      keyspaces agree), [SqlRemove] (removing rows in chunks), [SqlIndexBuild],
      [SqlDdlOk] and [SqlTableDdl] (every DDL operation), [SqlDdlSpec] (the abstract
      DDL [ddl_spec] and the refinement), [SqlDbCommit] (transactions keep [db_ok]),
      [SqlReopen] (opening), [SqlRebuild] (opening with stale keyspaces).
      [SqlDdlDemo] is a concrete database.

    ** What is proved

    - [ThmStore]: refinement of the abstract ledger by every trace of operations;
      the root commits to the state; commits mark exactly the garbage; pruning is
      correct and terminates; failed batches change nothing; previews never write.
    - [ThmAuth]: values read are authentic whatever storage answers; answers of
      absence are not, for any key whose leaf can be moved inside a range of slots it
      has to itself (a defect); proofs are sound and complete.
    - [ThmHistory]: the audit of the chain is sound and complete, except at the last
      64-bit version (a defect); transitions are exact and replay, the reserved history
      leaf apart; forks announce what they commit and read the state it leads to, for
      every key but [HistoryKey]; export and restore.
    - [ThmCodec]: the node hash equals the specification; codecs are bijections;
      record keys are disjoint; the cache is a least-recently-used cache of bounded
      size; the Pebble adapter is a backend; the checkpoint.  The published vectors of
      the reference implementation are run as an example.
    - [ThmSql]: queries of a session that no other commit has overtaken return exactly
      the rows it sees, and index lookups miss none; statements are all or nothing, and
      so are commits on storage whose calls succeed; on failing storage a commit can be
      torn between the ledger and the derived keyspaces, and in no other way (a
      defect); interleaved sessions are serialised by their commits; uniqueness is
      kept, up to a case in which the check is not enough (a defect); savepoints are a
      stack of saved tables, in the model with pointers; verified reads are sound and
      complete; keys sort as SQL sorts their values, -0.0, NaN and times beyond the
      64-bit nanosecond count apart; rows round trip up to what the row format keeps
      (times beyond that count come back as others, a defect) and decode type-safely.
    - [ThmDdl]: the DDL refines operations on a map of definitions; a database is
      found again when it is opened; opening after a crash rebuilds the row keyspace
      exactly and the index entries up to stale ones, which stay (a defect).

    ** Conventions, bounds and fuel

    A [uint64] is an [N] with its wrap-around ([wrap64]) written out and [is_u64]
    where it matters; a [byte] is [Byte.byte]; [Hash] is a list of 32 bytes with
    its length.  Iteration over a Go map visits the entries in an arbitrary order:
    the class [MapRange] stands for that order (one for each map value), and every
    theorem holds for any.
    Recursions down the tree recurse on the nibbles left, 64 at the root: a 65th
    is Go's index panic, which the theorems exclude on stored trees.  The loops of
    [Prune] and [VerifyHistory] take a number of rounds; the theorems state how
    many are enough (one per stored record, one per version) and that spare ones
    change nothing; the loops of the SQL layer over a keyspace take one round per
    chunk of 512 entries.  Mutexes make each method one step.

    ** Not modelled

    Pebble itself, which stands behind its documented laws; the operands of
    formatted error messages; the partial statistics [Prune] returns along with an
    error; zeroisation and timing.
    Of the SQL layer: the engine itself (parsing, planning, filters), which is
    third-party, with the context objects and the statement execution of [engine.go]
    that hand over to it; the constant answers of its interfaces.  Unicode case
    folding is the class [CaseFold]; the catalog's JSON is modelled with every escape,
    its round trip proved for names and comments in ASCII.  The theorems on statements
    and sessions are about statements inside a transaction, on tables whose rows the
    engine has read in that transaction; the interleavings of sessions are those of
    BEGIN, statements, COMMIT and ROLLBACK, and savepoints are treated per session; those on the DDL and on opening are about a
    database no other session uses meanwhile, the store's lock being held.
*)

From stdpp Require Export base tactics list gmap sorting strings.
From Stdlib Require Export NArith Lia.
From Stdlib Require Import Strings.Byte.

(** * Bytes

    Go's [byte]/[uint8] is [Byte.byte]: 256 values, no range side conditions.
    Arithmetic on a byte goes through [N] with the wrap-around of [uint8(n)]
    written out in [u8]. *)

Abbreviation byte := Init.Byte.byte.
Abbreviation bytes := (list byte).

Declare Scope ledger_scope.
Delimit Scope ledger_scope with ledger.
Open Scope ledger_scope.

Definition bn (b : byte) : N := Byte.to_N b.

(** [uint8(n)]: truncation modulo 256. *)
Definition u8 (n : N) : byte :=
  match Byte.of_N (n mod 256) with Some b => b | None => Init.Byte.x00 end.

Lemma bn_lt b : (bn b < 256)%N.
Proof. unfold bn. pose proof (Byte.to_N_bounded b). lia. Qed.

Lemma bn_u8 n : bn (u8 n) = (n mod 256)%N.
Proof.
  unfold bn, u8. destruct (Byte.of_N (n mod 256)) as [b|] eqn:E.
  - by apply Byte.to_of_N.
  - apply Byte.of_N_None_iff in E.
    pose proof (N.mod_lt n 256 ltac:(lia)). lia.
Qed.

Lemma u8_bn b : u8 (bn b) = b.
Proof.
  unfold u8. rewrite N.mod_small by apply bn_lt.
  unfold bn. by rewrite Byte.of_to_N.
Qed.

#[export] Instance bn_inj : Inj (=) (=) bn.
Proof. intros a b H. by rewrite <-(u8_bn a), <-(u8_bn b), H. Qed.

Lemma bn_u8_small n : (n < 256)%N -> bn (u8 n) = n.
Proof. intros. rewrite bn_u8. by apply N.mod_small. Qed.

#[export] Instance byte_eq_dec : EqDecision byte.
Proof.
  refine (λ a b, match N.eq_dec (bn a) (bn b) with left H => left _ | right H => right _ end).
  - by apply (inj bn).
  - congruence.
Defined.

#[export] Instance byte_countable : Countable byte.
Proof.
  refine (inj_countable' bn u8 _). intros b. apply u8_bn.
Defined.

#[export] Instance byte_inhabited : Inhabited byte := populate Init.Byte.x00.

(** The bytes of an ASCII literal, as in [[]byte("...")]. *)
Definition str (s : string) : bytes := String.list_byte_of_string s.

(** * Fixed-width integers

    A [uint64] is an [N]; [wrap64] is written out wherever the code adds.
    [be]/[unbe] are [binary.BigEndian.AppendUint64]/[Uint64] (width 8),
    [le]/[unle] are [binary.LittleEndian.AppendUint16]/[Uint16] (width 2). *)

Definition max64 : N := 18446744073709551616.
Definition wrap64 (n : N) : N := n mod max64.
Definition is_u64 (n : N) : Prop := (n < max64)%N.

#[export] Instance is_u64_dec n : Decision (is_u64 n).
Proof. unfold is_u64. apply _. Defined.

Fixpoint be (k : nat) (n : N) : bytes :=
  match k with
  | O => []
  | S k' => u8 (n / 256 ^ N.of_nat k') :: be k' n
  end.

Definition unbe (l : bytes) : N := foldl (λ a b, (a * 256 + bn b)%N) 0%N l.

Fixpoint le (k : nat) (n : N) : bytes :=
  match k with
  | O => []
  | S k' => u8 n :: le k' (n / 256)
  end.

Fixpoint unle (l : bytes) : N :=
  match l with [] => 0%N | b :: l' => (bn b + 256 * unle l')%N end.

Lemma length_be k n : length (be k n) = k.
Proof. revert n. induction k; intros; simpl; auto. Qed.

Lemma length_le k n : length (le k n) = k.
Proof. revert n. induction k; intros; simpl; auto. Qed.

Lemma foldl_unbe a l :
  foldl (λ a b, (a * 256 + bn b)%N) a l = (a * 256 ^ N.of_nat (length l) + unbe l)%N.
Proof.
  unfold unbe. revert a. induction l as [|b l IH]; intros a.
  - cbn. lia.
  - cbn [foldl length]. rewrite IH, (IH (0 * 256 + bn b)%N).
    rewrite Nat2N.inj_succ, N.pow_succ_r'. lia.
Qed.

Lemma unbe_cons b l : unbe (b :: l) = (bn b * 256 ^ N.of_nat (length l) + unbe l)%N.
Proof. unfold unbe at 1. cbn [foldl]. rewrite foldl_unbe. lia. Qed.

Lemma pow256_pos k : (256 ^ k ≠ 0)%N.
Proof. by apply N.pow_nonzero. Qed.

Lemma unbe_be k n : unbe (be k n) = (n mod 256 ^ N.of_nat k)%N.
Proof.
  induction k as [|k IH]; cbn [be].
  - cbn. by rewrite N.mod_1_r.
  - rewrite unbe_cons, length_be, IH, bn_u8.
    rewrite Nat2N.inj_succ, N.pow_succ_r', N.mul_comm.
    rewrite (N.mul_comm 256), N.Div0.mod_mul_r. lia.
Qed.

Lemma unbe_lt l : (unbe l < 256 ^ N.of_nat (length l))%N.
Proof.
  induction l as [|b l IH]; [done|].
  rewrite unbe_cons. cbn [length]. rewrite Nat2N.inj_succ, N.pow_succ_r'.
  pose proof (bn_lt b). nia.
Qed.

Lemma be_add_high k j c n :
  k ≤ j -> be k (c * 256 ^ N.of_nat j + n) = be k n.
Proof.
  intros Hk. induction k as [|k IH]; [done|]. cbn [be]. f_equal; [|apply IH; lia].
  replace (N.of_nat j) with (N.of_nat (S (j - S k)) + N.of_nat k)%N by lia.
  rewrite N.pow_add_r, N.mul_assoc, N.div_add_l by apply pow256_pos.
  apply (inj bn). rewrite !bn_u8, Nat2N.inj_succ, N.pow_succ_r'.
  rewrite N.mul_assoc, (N.mul_comm c 256), <-!N.mul_assoc.
  rewrite N.add_comm, N.mul_comm. apply N.Div0.mod_add.
Qed.

Lemma be_unbe l : be (length l) (unbe l) = l.
Proof.
  induction l as [|b l IH]; [done|].
  cbn [length be]. rewrite unbe_cons, be_add_high, IH by done. f_equal.
  rewrite N.div_add_l by apply pow256_pos.
  rewrite N.div_small by apply unbe_lt. rewrite N.add_0_r. apply u8_bn.
Qed.

Lemma unle_le k n : unle (le k n) = (n mod 256 ^ N.of_nat k)%N.
Proof.
  revert n. induction k as [|k IH]; intros n; cbn [le unle].
  - by rewrite N.mod_1_r.
  - rewrite IH, bn_u8, Nat2N.inj_succ, N.pow_succ_r', N.Div0.mod_mul_r. lia.
Qed.

Lemma le_unle l : le (length l) (unle l) = l.
Proof.
  induction l as [|b l IH]; [done|]. cbn [length le unle]. f_equal.
  - apply (inj bn). rewrite bn_u8, N.mul_comm, N.Div0.mod_add.
    apply N.mod_small, bn_lt.
  - rewrite N.mul_comm, N.div_add by done.
    rewrite N.div_small by apply bn_lt. done.
Qed.

Lemma unbe_be8 n : is_u64 n -> unbe (be 8 n) = n.
Proof. intros H. rewrite unbe_be. by apply N.mod_small. Qed.

Lemma be8_unbe l : length l = 8 -> be 8 (unbe l) = l.
Proof. intros <-. apply be_unbe. Qed.

Lemma unbe_u64 l : length l = 8 -> is_u64 (unbe l).
Proof. intros H. pose proof (unbe_lt l) as Hl. rewrite H in Hl. done. Qed.

Lemma be8_inj n m : is_u64 n -> is_u64 m -> be 8 n = be 8 m -> n = m.
Proof. intros Hn Hm H. by rewrite <-(unbe_be8 n), <-(unbe_be8 m), H. Qed.

Lemma testbit_high n k i : (n < 2 ^ k)%N -> (k ≤ i)%N -> N.testbit n i = false.
Proof.
  intros Hn Hi. destruct (decide (n = 0%N)) as [->|Hz]; [apply N.bits_0|].
  apply N.bits_above_log2. apply N.log2_lt_pow2 in Hn; lia.
Qed.

Lemma wrap64_small n : is_u64 n -> wrap64 n = n.
Proof. intros H. by apply N.mod_small. Qed.

Lemma wrap64_u64 n : is_u64 (wrap64 n).
Proof. by apply N.mod_lt. Qed.

(** * Byte-string order: [bytes.Compare], and [<] on Go strings *)

Fixpoint bytes_cmp (a b : bytes) : comparison :=
  match a, b with
  | [], [] => Eq
  | [], _ :: _ => Lt
  | _ :: _, [] => Gt
  | x :: a', y :: b' =>
      match N.compare (bn x) (bn y) with Eq => bytes_cmp a' b' | c => c end
  end.

Definition bytes_lt (a b : bytes) : Prop := bytes_cmp a b = Lt.
Definition bytes_le (a b : bytes) : Prop := bytes_cmp a b ≠ Gt.
Definition bytes_ltb (a b : bytes) : bool :=
  match bytes_cmp a b with Lt => true | _ => false end.

#[export] Instance bytes_lt_dec : RelDecision bytes_lt.
Proof. intros a b. unfold bytes_lt. apply _. Defined.
#[export] Instance bytes_le_dec : RelDecision bytes_le.
Proof. intros a b. unfold bytes_le. apply _. Defined.

Lemma bytes_cmp_refl a : bytes_cmp a a = Eq.
Proof. induction a as [|x a IH]; [done|]. cbn. by rewrite N.compare_refl. Qed.

Lemma bytes_cmp_eq a b : bytes_cmp a b = Eq ↔ a = b.
Proof.
  split; [|intros ->; apply bytes_cmp_refl].
  revert b. induction a as [|x a IH]; intros [|y b]; cbn; try done.
  destruct (N.compare_spec (bn x) (bn y)) as [H| |]; try done.
  apply (inj bn) in H as ->. intros ?. f_equal. auto.
Qed.

Lemma bytes_cmp_antisym a b : bytes_cmp b a = CompOpp (bytes_cmp a b).
Proof.
  revert b. induction a as [|x a IH]; intros [|y b]; cbn; try done.
  rewrite N.compare_antisym. by destruct (N.compare (bn x) (bn y)); cbn.
Qed.

Lemma bytes_lt_trans a b c : bytes_lt a b -> bytes_lt b c -> bytes_lt a c.
Proof.
  unfold bytes_lt. revert b c. induction a as [|x a IH]; intros [|y b] [|z c]; cbn; try done.
  destruct (N.compare_spec (bn x) (bn y)) as [H1|H1|H1], (N.compare_spec (bn y) (bn z)) as [H2|H2|H2],
    (N.compare_spec (bn x) (bn z)) as [H3|H3|H3]; try done; try lia; eauto.
Qed.

#[export] Instance bytes_lt_so : StrictOrder bytes_lt.
Proof.
  split.
  - intros a. unfold complement, bytes_lt. by rewrite bytes_cmp_refl.
  - exact bytes_lt_trans.
Qed.

Lemma bytes_le_lt_eq a b : bytes_le a b ↔ bytes_lt a b ∨ a = b.
Proof.
  unfold bytes_le, bytes_lt. rewrite <-bytes_cmp_eq. destruct (bytes_cmp a b); intuition congruence.
Qed.

Lemma bytes_lt_total a b : bytes_lt a b ∨ a = b ∨ bytes_lt b a.
Proof.
  unfold bytes_lt. rewrite <-bytes_cmp_eq, (bytes_cmp_antisym a b).
  destruct (bytes_cmp a b); intuition congruence.
Qed.

#[export] Instance bytes_le_trans : Transitive bytes_le.
Proof.
  intros a b c. rewrite !bytes_le_lt_eq.
  intros [?| ->] [?| ->]; auto. left. by eapply bytes_lt_trans.
Qed.

#[export] Instance bytes_le_total : Total bytes_le.
Proof. intros a b. rewrite !bytes_le_lt_eq. pose proof (bytes_lt_total a b). intuition congruence. Qed.

#[export] Instance bytes_le_antisymm : AntiSymm (=) bytes_le.
Proof.
  intros a b. rewrite !bytes_le_lt_eq. intros [H| ->] [H'| H']; try done.
  exfalso. apply (irreflexivity bytes_lt a). by eapply bytes_lt_trans.
Qed.

Lemma bytes_cmp_app_l p a b : bytes_cmp (p ++ a) (p ++ b) = bytes_cmp a b.
Proof. induction p as [|x p IH]; cbn; [done|]. by rewrite N.compare_refl. Qed.

(** Comparison of strings of equal length is decided by the first difference,
    whatever follows. *)
Lemma bytes_cmp_app_eqlen a b c d :
  length a = length b -> a ≠ b -> bytes_cmp (a ++ c) (b ++ d) = bytes_cmp a b.
Proof.
  revert b. induction a as [|x a IH]; intros [|y b] Hl Hne; try done.
  cbn. destruct (N.compare_spec (bn x) (bn y)) as [H|H|H]; try done.
  apply (inj bn) in H as ->. apply IH; [by injection Hl|congruence].
Qed.

(** Big-endian encoding turns numeric order into byte order. *)
Lemma be_cmp k n m :
  (n < 256 ^ N.of_nat k)%N -> (m < 256 ^ N.of_nat k)%N ->
  bytes_cmp (be k n) (be k m) = N.compare n m.
Proof.
  revert n m. induction k as [|k IH]; intros n m Hn Hm.
  - cbn in *. assert (n = 0%N) as -> by lia. assert (m = 0%N) as -> by lia. done.
  - rewrite Nat2N.inj_succ, N.pow_succ_r' in Hn, Hm. cbn [be bytes_cmp].
    set (P := (256 ^ N.of_nat k)%N) in *.
    assert (P ≠ 0%N) as HP by apply pow256_pos.
    pose proof (N.div_mod n P HP) as En. pose proof (N.div_mod m P HP) as Em.
    pose proof (N.mod_lt n P HP) as Ln. pose proof (N.mod_lt m P HP) as Lm.
    assert (n / P < 256)%N by (apply N.Div0.div_lt_upper_bound; rewrite N.mul_comm; exact Hn).
    assert (m / P < 256)%N by (apply N.Div0.div_lt_upper_bound; rewrite N.mul_comm; exact Hm).
    rewrite !bn_u8_small by done.
    assert (∀ x, be k x = be k (x mod P)) as Hmod.
    { intros x. rewrite (N.div_mod x P HP) at 1. rewrite N.mul_comm. by apply be_add_high. }
    destruct (N.compare_spec (n / P) (m / P)) as [E|E|E].
    + rewrite (Hmod n), (Hmod m), IH by done.
      destruct (N.compare_spec (n mod P) (m mod P)); symmetry;
        [apply N.compare_eq_iff|apply N.compare_lt_iff|apply N.compare_gt_iff]; nia.
    + symmetry. apply N.compare_lt_iff.
      destruct (N.lt_ge_cases n m) as [|Hge]; [done|].
      pose proof (N.Div0.div_le_mono m n P Hge). lia.
    + symmetry. apply N.compare_gt_iff.
      destruct (N.lt_ge_cases m n) as [|Hge]; [done|].
      pose proof (N.Div0.div_le_mono n m P Hge). lia.
Qed.

#[global] Arguments be : simpl never.
#[global] Arguments le : simpl never.

(** * 32-byte arrays

    Go's [[32]byte] ([Hash], and the key arrays): the length is part of the
    type.  The length evidence is a boolean equation in [Is_true] form, so it is
    unique and equality of arrays is equality of their bytes. *)

Record bytes32 : Type := mk32 { b32 : bytes; b32_len : Is_true (length b32 =? 32) }.

Lemma length_b32 h : length (b32 h) = 32.
Proof. destruct h as [l H]; cbn. by apply Nat.eqb_eq, Is_true_true. Qed.

#[export] Instance b32_inj : Inj (=) (=) b32.
Proof.
  intros [l Hl] [l' Hl'] H; cbn in H; subst l'. f_equal. apply proof_irrel.
Qed.

#[export] Instance bytes32_eq_dec : EqDecision bytes32.
Proof.
  refine (λ a b, match decide (b32 a = b32 b) with left H => left _ | right H => right _ end).
  - by apply (inj b32).
  - congruence.
Defined.

(** [copy(dst[:], src)] into a zeroed 32-byte array: extra source bytes are
    dropped, a short source leaves the tail zero. *)
Definition pad32 (l : bytes) : bytes := take 32 (l ++ replicate 32 Init.Byte.x00).

Lemma pad32_len l : Is_true (length (pad32 l) =? 32).
Proof.
  unfold pad32. apply Is_true_true, Nat.eqb_eq.
  rewrite length_take, length_app, length_replicate. lia.
Qed.

Definition copy32 (l : bytes) : bytes32 := mk32 (pad32 l) (pad32_len l).

Lemma b32_copy32 l : length l = 32 -> b32 (copy32 l) = l.
Proof. intros H. cbn. unfold pad32. rewrite <-H at 1. by rewrite take_app_length. Qed.

Lemma copy32_b32 h : copy32 (b32 h) = h.
Proof. apply (inj b32). apply b32_copy32, length_b32. Qed.

#[export] Instance bytes32_countable : Countable bytes32.
Proof. refine (inj_countable' b32 copy32 copy32_b32). Defined.

#[export] Instance bytes32_inhabited : Inhabited bytes32 := populate (copy32 []).

(** Evaluating a 32-byte array to its bytes inside a witness. *)
Lemma bytes32_eq_by a b : b32 a = b32 b -> a = b.
Proof. apply (inj b32). Qed.

(** * Map iteration

    Go's [range] over a map visits every entry once in an unspecified order.
    [MapRange] makes the order a parameter: every theorem below holds for any
    iteration order, and executable witnesses fix one of them. *)

Class MapRange := {
  range_map : ∀ {K : Type} `{Countable K} {A : Type}, gmap K A -> list (K * A);
  range_perm : ∀ {K : Type} `{Countable K} {A : Type} (m : gmap K A),
    range_map m ≡ₚ map_to_list m
}.

Definition canonical_range : MapRange :=
  {| range_map _ _ _ _ m := map_to_list m; range_perm _ _ _ _ m := reflexivity _ |}.

Section map_range.
Context `{MR : MapRange} {K : Type} `{Countable K} {A : Type}.
Implicit Types m : gmap K A.

Lemma elem_of_range k x m : (k, x) ∈ range_map m ↔ m !! k = Some x.
Proof. rewrite range_perm. apply elem_of_map_to_list. Qed.

Lemma NoDup_range_fst m : NoDup (range_map m).*1.
Proof. rewrite range_perm. apply NoDup_fst_map_to_list. Qed.

Lemma length_range m : length (range_map m) = size m.
Proof. rewrite range_perm. apply length_map_to_list. Qed.

Lemma list_to_map_range m : list_to_map (range_map m) = m.
Proof.
  rewrite (list_to_map_proper _ (map_to_list m)) by
    first [apply NoDup_range_fst | apply range_perm].
  apply list_to_map_to_list.
Qed.
End map_range.

(** * Generic list lemmas *)

Lemma app_inj_len {A} (a b c d : list A) :
  length a = length b -> a ++ c = b ++ d -> a = b ∧ c = d.
Proof. intros. by apply app_inj_1. Qed.

Lemma take_app_ge_len {A} (a b : list A) n : length a = n -> take n (a ++ b) = a.
Proof. intros <-. apply take_app_length. Qed.

Lemma drop_app_ge_len {A} (a b : list A) n : length a = n -> drop n (a ++ b) = b.
Proof. intros <-. apply drop_app_length. Qed.

(** Two sorted lists without duplicate keys and with the same elements are the
    same list: the result of sorting does not depend on the input order. *)
Lemma StronglySorted_perm_unique {A} (R : relation A) (l1 l2 : list A) :
  (∀ x, ¬ R x x) -> (∀ x y, R x y -> R y x -> False) ->
  StronglySorted R l1 -> StronglySorted R l2 -> l1 ≡ₚ l2 -> l1 = l2.
Proof.
  intros Hirr Hasym. revert l2. induction l1 as [|x l1 IH]; intros l2 H1 H2 Hp.
  { by apply Permutation_nil_l in Hp as ->. }
  destruct l2 as [|y l2]; [by apply Permutation_nil_r in Hp|].
  inversion H1 as [|?? H1s H1f]; inversion H2 as [|?? H2s H2f]; subst.
  assert (x = y) as ->.
  { assert (x ∈ y :: l2) as Hx by (rewrite <-Hp; left).
    assert (y ∈ x :: l1) as Hy by (rewrite Hp; left).
    apply elem_of_cons in Hx as [->|Hx]; [done|].
    apply elem_of_cons in Hy as [->|Hy]; [done|].
    rewrite Forall_forall in H1f, H2f. exfalso. eauto. }
  f_equal. apply IH; [done..|]. by eapply Permutation_cons_inv.
Qed.

Lemma StronglySorted_filter {A} (R : relation A) (P : A -> Prop) `{∀ x, Decision (P x)} l :
  StronglySorted R l -> StronglySorted R (filter P l).
Proof.
  induction 1 as [|x l Hs IH Hf]; [constructor|].
  rewrite filter_cons. case_decide; [|done]. constructor; [done|].
  rewrite Forall_forall in *. intros y [_ Hy]%list_elem_of_filter. auto.
Qed.

Lemma NoDup_fst_filter {A B} (P : A * B -> Prop) `{∀ x, Decision (P x)} (l : list (A * B)) :
  NoDup l.*1 -> NoDup (filter P l).*1.
Proof.
  induction l as [|x l IH]; [done|]. cbn [fmap list_fmap]. intros [Hn Hd]%NoDup_cons.
  rewrite filter_cons. case_decide; [|auto]. cbn. constructor; [|auto].
  intros (y & E & [_ Hy]%list_elem_of_filter)%list_elem_of_fmap. apply Hn.
  rewrite E. by apply list_elem_of_fmap_2.
Qed.

Lemma elem_of_concat {A} (x : A) (ls : list (list A)) : x ∈ concat ls ↔ ∃ l, x ∈ l ∧ l ∈ ls.
Proof.
  induction ls as [|l ls IH]; cbn [concat].
  - split; [by intros ?%not_elem_of_nil|]. by intros (l & _ & ?%not_elem_of_nil).
  - rewrite elem_of_app, IH. split.
    + intros [Hx|(l' & Hx & Hl)]; [exists l; split; [done|left]|exists l'; split; [done|by right]].
    + intros (l' & Hx & [->|Hl]%elem_of_cons); [by left|right; eauto].
Qed.

(** * Tactics shared by the development *)

(** Split conjunctions and existentials in the context. *)
Ltac destr :=
  repeat match goal with
  | H : ∃ _, _ |- _ => destruct H
  | H : _ ∧ _ |- _ => destruct H
  end.

Create HintDb ledger discriminated.
#[export] Hint Resolve length_b32 wrap64_u64 bn_lt : ledger.
Create Rewrite HintDb lens.
#[export] Hint Rewrite @length_app @length_cons length_be length_le length_b32 : lens.
Ltac lens := autorewrite with lens in *; cbn [length] in *.

(** * Deciding injectivity on lists

    [f] maps no element of [xs] and different element of [ys] to the same image;
    every image is computed once. *)
Definition apartb {A B} `{EqDecision A, EqDecision B} (f : A -> B) (xs ys : list A) : bool :=
  let fys := (λ y, (y, f y)) <$> ys in
  forallb (λ x, let fx := f x in
    forallb (λ y, negb (bool_decide (fx = y.2)) || bool_decide (x = y.1)) fys) xs.

Lemma apartb_sound {A B} `{EqDecision A, EqDecision B} (f : A -> B) xs ys x y :
  apartb f xs ys = true -> x ∈ xs -> y ∈ ys -> f x = f y -> x = y.
Proof.
  unfold apartb. intros Hb Hx Hy E. rewrite forallb_forall in Hb.
  apply list_elem_of_In in Hx. specialize (Hb x Hx). cbn zeta in Hb. rewrite forallb_forall in Hb.
  specialize (Hb (y, f y)). cbn in Hb.
  assert (In (y, f y) ((λ y, (y, f y)) <$> ys)) as Hin
    by (apply list_elem_of_In, list_elem_of_fmap; eauto).
  apply Hb, orb_true_iff in Hin as [Hn|He].
  - by apply negb_true_iff, bool_decide_eq_false in Hn.
  - by apply bool_decide_eq_true in He.
Qed.
