(* ===== verification/Errors.v ===== *)
(** Errors and effects: [ledger/errors.go] and the monad of the model.

    Every fallible operation of the ledger package returns a Go [error]; the
    package's own errors carry a [Kind].  [outcome] is the result of running
    code: a value, a returned error, or a run-time panic (an index out of range),
    which the code does not handle and the model therefore keeps apart.
    [M S] is the state-and-error monad in which the methods of a receiver of
    type [S] are written. *)

From S2P Require Import Prelude.

(** The classification of [errors.go], with its [iota + 1] codes. *)
Inductive Kind := KindBackend | KindCorrupted | KindMissing | KindInvalid.

#[export] Instance Kind_eq_dec : EqDecision Kind.
Proof. solve_decision. Defined.

Definition kind_code (k : Kind) : N :=
  match k with KindBackend => 1 | KindCorrupted => 2 | KindMissing => 3 | KindInvalid => 4 end.

(** A returned error: one of the package's own, with its kind and its message
    (the format string, without the formatted operands); one of kind
    [KindBackend], which carries the storage error instead of a message; an error
    value made elsewhere (by storage, or by [fmt.Errorf]); or one that [fmt.Errorf]
    wraps, behind ("...: %w") or before ("%w: ...") a message of its own. *)
Inductive error :=
| LedgerError (kind : Kind) (msg : string)
| BackendError (err : error)
| RawError (msg : string)
| WrapError (msg : string) (err : error)
| NoteError (err : error) (msg : string).

#[export] Instance error_eq_dec : EqDecision error.
Proof. solve_decision. Defined.

(** The rendering of [Error()]. *)
Fixpoint error_string (e : error) : string :=
  match e with
  | BackendError e' => "backend error: " +:+ error_string e'
  | LedgerError KindBackend _ => "backend error: <nil>"
  | LedgerError KindCorrupted m => "corrupted record: " +:+ m
  | LedgerError KindMissing m => "missing record: " +:+ m
  | LedgerError KindInvalid m => "invalid input: " +:+ m
  | RawError m => m
  | WrapError m e' => m +:+ ": " +:+ error_string e'
  | NoteError e' m => error_string e' +:+ ": " +:+ m
  end.

Definition errBackend (err : error) : error := BackendError err.
Definition errCorrupted (msg : string) : error := LedgerError KindCorrupted msg.
Definition errMissing (msg : string) : error := LedgerError KindMissing msg.
Definition errInvalid (msg : string) : error := LedgerError KindInvalid msg.

(** The kind [errors.As] finds, through wrapping. *)
Fixpoint error_kind (e : error) : option Kind :=
  match e with
  | LedgerError k _ => Some k
  | BackendError _ => Some KindBackend
  | RawError _ => None
  | WrapError _ e' | NoteError e' _ => error_kind e'
  end.

(** [errors.Is]: the target itself, or one it wraps. *)
Fixpoint error_is (target e : error) : bool :=
  bool_decide (e = target) ||
  match e with
  | WrapError _ e' | NoteError e' _ | BackendError e' => error_is target e'
  | _ => false
  end.

(** * Outcomes and the effect monad *)

Inductive outcome (A : Type) :=
| Ok (a : A)
| Err (e : error)
| Panic (why : string).
Arguments Ok {A} a.
Arguments Err {A} e.
Arguments Panic {A} why.

#[export] Instance outcome_eq_dec {A} `{EqDecision A} : EqDecision (outcome A).
Proof. solve_decision. Defined.

Definition is_ok {A} (o : outcome A) : bool :=
  match o with Ok _ => true | _ => false end.

#[export] Instance outcome_ret : MRet outcome := λ A a, Ok a.
#[export] Instance outcome_bind : MBind outcome := λ A B f o,
  match o with Ok a => f a | Err e => Err e | Panic w => Panic w end.

Definition M (S A : Type) : Type := S -> outcome A * S.

#[export] Instance M_ret {S} : MRet (M S) := λ A a s, (Ok a, s).
#[export] Instance M_bind {S} : MBind (M S) := λ A B f m s,
  match m s with
  | (Ok a, s') => f a s'
  | (Err e, s') => (Err e, s')
  | (Panic w, s') => (Panic w, s')
  end.

Definition fail {S A} (e : error) : M S A := λ s, (Err e, s).
Definition panic {S A} (w : string) : M S A := λ s, (Panic w, s).
Definition gets {S A} (f : S -> A) : M S A := λ s, (Ok (f s), s).
Definition modify {S} (f : S -> S) : M S unit := λ s, (Ok tt, f s).
Definition lift {S A} (o : outcome A) : M S A := λ s, (o, s).

(** [if err != nil { return fmt.Errorf("...: %w", err) }]. *)
Definition wrapping {S A} (msg : string) (m : M S A) : M S A := λ s,
  match m s with
  | (Err e, s') => (Err (WrapError msg e), s')
  | r => r
  end.

Fixpoint foldM {S A B} (f : A -> B -> M S A) (a : A) (l : list B) : M S A :=
  match l with
  | [] => mret a
  | b :: l' => a' ← f a b; foldM f a' l'
  end.

Lemma bind_ok {S A B} (m : M S A) (f : A -> M S B) s a s' :
  m s = (Ok a, s') -> (m ≫= f) s = f a s'.
Proof. unfold mbind, M_bind. by intros ->. Qed.

Lemma bind_gets {S A B} (f : S -> A) (g : A -> M S B) s : (gets f ≫= g) s = g (f s) s.
Proof. done. Qed.

Lemma bind_ret {S A B} (a : A) (g : A -> M S B) s : (mret a ≫= g) s = g a s.
Proof. done. Qed.

Lemma bind_modify {S B} (f : S -> S) (g : unit -> M S B) s : (modify f ≫= g) s = g tt (f s).
Proof. done. Qed.

Lemma bind_err {S A B} (m : M S A) (f : A -> M S B) s e s' :
  m s = (Err e, s') -> (m ≫= f) s = (Err e, s').
Proof. unfold mbind, M_bind. by intros ->. Qed.

Lemma bind_inv_ok {S A B} (m : M S A) (f : A -> M S B) s b s2 :
  (m ≫= f) s = (Ok b, s2) -> ∃ a s1, m s = (Ok a, s1) ∧ f a s1 = (Ok b, s2).
Proof. unfold mbind, M_bind. destruct (m s) as [[a|e|w] s1]; naive_solver. Qed.

Lemma wrapping_ok {S A} msg (m : M S A) s a s' : wrapping msg m s = (Ok a, s') ↔ m s = (Ok a, s').
Proof. unfold wrapping. by destruct (m s) as [[a'|e|w] s1]. Qed.

Lemma foldM_app {S A B} (f : A -> B -> M S A) a l1 l2 s :
  foldM f a (l1 ++ l2) s = (a' ← foldM f a l1; foldM f a' l2) s.
Proof.
  revert a s. induction l1 as [|b l1 IH]; intros a s; [done|].
  cbn. unfold mbind, M_bind. destruct (f a b s) as [[a'|e|w] s']; [|done|done].
  rewrite IH. done.
Qed.

(** Peel one successful bind off a hypothesis. *)
Ltac inv_bind H :=
  let a := fresh "a" in let s := fresh "s" in let E := fresh "E" in
  apply bind_inv_ok in H as (a & s & E & H).
