(* ===== verification/Sha256.v ===== *)
(** SHA-256 and HMAC-SHA-256, as the Go standard library provides them
    ([crypto/sha256], [crypto/hmac]).

    The ledger uses a hash function only through [sha256.New]/[Write]/[Sum], so
    the ledger's model is written against the class [Hasher]; [sha256_hasher] is
    the instance the program runs with: the function of FIPS 180-4, executable,
    and checked below on the published test vectors.  HMAC is defined over the
    class, as [crypto/hmac] is over [hash.Hash]. *)

From S2P Require Import Prelude.

(** One-shot hashing of a byte string to 32 bytes. *)
Class Hasher := sha256 : bytes -> bytes32.

(** * The compression function *)

Module FIPS180.
Local Open Scope N_scope.

Definition m32 : N := 0xFFFFFFFF.
Definition add32 (x y : N) : N := N.land (x + y) m32.
Definition rotr (n x : N) : N :=
  N.lor (N.shiftr x n) (N.land (N.shiftl x (32 - n)) m32).
Definition not32 (x : N) : N := N.lxor x m32.

Definition ch x y z := N.lxor (N.land x y) (N.land (not32 x) z).
Definition maj x y z := N.lxor (N.lxor (N.land x y) (N.land x z)) (N.land y z).
Definition bsig0 x := N.lxor (N.lxor (rotr 2 x) (rotr 13 x)) (rotr 22 x).
Definition bsig1 x := N.lxor (N.lxor (rotr 6 x) (rotr 11 x)) (rotr 25 x).
Definition ssig0 x := N.lxor (N.lxor (rotr 7 x) (rotr 18 x)) (N.shiftr x 3).
Definition ssig1 x := N.lxor (N.lxor (rotr 17 x) (rotr 19 x)) (N.shiftr x 10).

(** The constants: the first 32 bits of the fractional parts of the cube roots (the
    rounds) and of the square roots (the initial value) of the first primes. *)
Fixpoint cube_root (bits : nat) (r n : N) : N :=
  match bits with
  | O => r
  | S b =>
      let r' := r + 2 ^ N.of_nat b in
      cube_root b (if (r' * r' * r' <=? n)%N then r' else r) n
  end.

Definition primes (limit : nat) : list N :=
  filter (λ p, forallb (λ d, negb (p mod N.of_nat d =? 0)%N) (seq 2 (N.to_nat p - 2)) = true)
    (N.of_nat <$> seq 2 limit).

Definition round_constants : list N :=
  Eval vm_compute in (λ p, N.land (cube_root 36 0 (p * 2 ^ 96)) m32) <$> take 64 (primes 310).

(** The eight working variables. *)
Record hstate := HState { ha : N; hb : N; hc : N; hd : N; he : N; hf : N; hg : N; hh : N }.

Definition iv : hstate :=
  Eval vm_compute in
  match (λ p, N.land (N.sqrt (p * 2 ^ 64)) m32) <$> take 8 (primes 20) with
  | [a; b; c; d; e; f; g; h] => HState a b c d e f g h
  | _ => HState 0 0 0 0 0 0 0 0
  end.

(** [schedule n w acc]: [w] is the sliding window of the last sixteen schedule
    words, oldest first; [n] more words are produced. *)
Fixpoint schedule (n : nat) (w : list N) : list N :=
  match n with
  | O => w
  | S n' =>
      match w with
      | w0 :: rest =>
          let w1 := nth 0 rest 0 in
          let w9 := nth 8 rest 0 in
          let w14 := nth 13 rest 0 in
          let x := add32 (add32 (ssig1 w14) w9) (add32 (ssig0 w1) w0) in
          w0 :: schedule n' (rest ++ [x])
      | [] => []
      end
  end.

Definition round (s : hstate) (kw : N * N) : hstate :=
  let t1 := add32 (add32 (hh s) (bsig1 (he s)))
                  (add32 (ch (he s) (hf s) (hg s)) (add32 kw.1 kw.2)) in
  let t2 := add32 (bsig0 (ha s)) (maj (ha s) (hb s) (hc s)) in
  HState (add32 t1 t2) (ha s) (hb s) (hc s) (add32 (hd s) t1) (he s) (hf s) (hg s).

Definition compress (s : hstate) (block : list N) : hstate :=
  let r := foldl round s (zip round_constants (schedule 48 block)) in
  HState (add32 (ha s) (ha r)) (add32 (hb s) (hb r)) (add32 (hc s) (hc r))
         (add32 (hd s) (hd r)) (add32 (he s) (he r)) (add32 (hf s) (hf r))
         (add32 (hg s) (hg r)) (add32 (hh s) (hh r)).

(** Padding: [0x80], zeros up to 56 modulo 64, the bit length in eight bytes. *)
Definition padding (len : nat) : bytes :=
  let z := Nat.modulo (119 - Nat.modulo len 64) 64 in
  u8 0x80 :: replicate z Init.Byte.x00 ++ be 8 (8 * N.of_nat len).

Fixpoint words (l : bytes) : list N :=
  match l with
  | a :: b :: c :: d :: l' => unbe [a; b; c; d] :: words l'
  | _ => []
  end.

Fixpoint blocks (n : nat) (s : hstate) (ws : list N) : hstate :=
  match n with
  | O => s
  | S n' => blocks n' (compress s (take 16 ws)) (drop 16 ws)
  end.

Definition digest (s : hstate) : bytes :=
  be 4 (ha s) ++ be 4 (hb s) ++ be 4 (hc s) ++ be 4 (hd s) ++
  be 4 (he s) ++ be 4 (hf s) ++ be 4 (hg s) ++ be 4 (hh s).

Definition hash (msg : bytes) : bytes :=
  let ws := words (msg ++ padding (length msg)) in
  digest (blocks (Nat.div (length ws) 16) iv ws).
End FIPS180.

(** The hash function the program runs with. *)
Definition sha256_hasher : Hasher := λ msg, copy32 (FIPS180.hash msg).

(** * HMAC ([crypto/hmac] over a 64-byte block hash) *)

Section hmac.
Context `{H : Hasher}.

Definition hmac_key (key : bytes) : bytes :=
  let k := if decide (64 < length key) then b32 (sha256 key) else key in
  k ++ replicate (64 - length k) Init.Byte.x00.

Definition xor_with (c : N) (l : bytes) : bytes := (λ b, u8 (N.lxor (bn b) c)) <$> l.

Definition hmac (key msg : bytes) : bytes32 :=
  let k := hmac_key key in
  sha256 (xor_with 0x5c k ++ b32 (sha256 (xor_with 0x36 k ++ msg))).
End hmac.

(** * Hexadecimal literals, as the published vectors are written *)

Definition hexval (c : Ascii.ascii) : N :=
  let n := Ascii.N_of_ascii c in
  if (n <? 58)%N then n - 48 else n - 87.

Fixpoint hex (s : string) : bytes :=
  match s with
  | String a (String b s') => u8 (16 * hexval a + hexval b) :: hex s'
  | _ => []
  end.

(** FIPS 180-4 test vectors: the empty message, one block, two blocks. *)
Example sha256_empty :
  FIPS180.hash [] = hex "e3b0c44298fc1c149afbf4c8996fb92427ae41e4649b934ca495991b7852b855".
Proof. vm_compute. reflexivity. Qed.

Example sha256_abc :
  FIPS180.hash (str "abc") =
  hex "ba7816bf8f01cfea414140de5dae2223b00361a396177a9cb410ff61f20015ad".
Proof. vm_compute. reflexivity. Qed.

Example sha256_two_blocks :
  FIPS180.hash (str "abcdbcdecdefdefgefghfghighijhijkijkljklmklmnlmnomnopnopq") =
  hex "248d6a61d20638b8e5c026930c3e6039a33ce45964ff2167f6ecedd419db06c1".
Proof. vm_compute. reflexivity. Qed.

(** RFC 4231 test cases 2 and 6 (a key longer than the block). *)
Example hmac_rfc4231_2 :
  b32 (hmac (H := sha256_hasher) (str "Jefe") (str "what do ya want for nothing?")) =
  hex "5bdcc146bf60754e6a042426089575c75a003f089d2739839dec58b964ec3843".
Proof. vm_compute. reflexivity. Qed.

Example hmac_rfc4231_6 :
  b32 (hmac (H := sha256_hasher) (replicate 131 (u8 0xaa))
         (str "Test Using Larger Than Block-Size Key - Hash Key First")) =
  hex "60e431591ee0b67f0d8a26aacbf5b77f8e0bc6213728c5140546040f0ee37f54".
Proof. vm_compute. reflexivity. Qed.
