(* ===== verification/Hashing.v ===== *)
(** Node hashing: [ledger/hash.go].

    Every node hash is SHA-256 of a domain-separation tag followed by a payload
    of fixed width.  The messages themselves are exposed ([leaf_msg],
    [internal_msg], [placeholder_msg]) because the security statements of the
    development quantify over the messages that were hashed: they say what
    follows when two specified finite sets of messages contain no collision. *)

From S2P Require Import Prelude Sha256.

Definition HashSize : nat := 32.
Abbreviation Hash := bytes32.

Definition tagLeaf : bytes := str "enclave-os-merkle:leaf:v1".
Definition tagInternal : bytes := str "enclave-os-merkle:node:v1".
Definition tagPlaceholder : bytes := str "ENCLAVE_OS_MERKLE_PLACEHOLDER".

Definition leaf_msg (path vh : Hash) : bytes := tagLeaf ++ b32 path ++ b32 vh.
Definition internal_msg (left right : Hash) : bytes := tagInternal ++ b32 left ++ b32 right.
Definition placeholder_msg : bytes := tagPlaceholder.

(** Domain separation: the three kinds of message never coincide, and a message
    determines its payload. *)
Lemma leaf_msg_inj p v p' v' : leaf_msg p v = leaf_msg p' v' -> p = p' ∧ v = v'.
Proof.
  unfold leaf_msg. intros [_ H]%app_inj_len; [|done].
  apply app_inj_len in H as [H1 H2]; [|by rewrite !length_b32].
  by apply (inj b32) in H1 as ->; apply (inj b32) in H2 as ->.
Qed.

Lemma internal_msg_inj l r l' r' :
  internal_msg l r = internal_msg l' r' -> l = l' ∧ r = r'.
Proof.
  unfold internal_msg. intros [_ H]%app_inj_len; [|done].
  apply app_inj_len in H as [H1 H2]; [|by rewrite !length_b32].
  by apply (inj b32) in H1 as ->; apply (inj b32) in H2 as ->.
Qed.

Lemma leaf_internal_msg p v l r : leaf_msg p v ≠ internal_msg l r.
Proof. unfold leaf_msg, internal_msg. intros [H _]%app_inj_len; [|done]. done. Qed.

Lemma leaf_placeholder_msg p v : leaf_msg p v ≠ placeholder_msg.
Proof. done. Qed.

Lemma internal_placeholder_msg l r : internal_msg l r ≠ placeholder_msg.
Proof. done. Qed.

Section hashing.
Context `{H : Hasher}.

(** Writing the parts one after the other hashes their concatenation. *)
Definition sha256Parts (parts : list bytes) : Hash := sha256 (concat parts).

Definition placeholderHash : Hash := sha256Parts [tagPlaceholder].
Definition Placeholder : Hash := placeholderHash.

Definition leafHash (path vh : Hash) : Hash := sha256Parts [tagLeaf; b32 path; b32 vh].
Definition internalHash (left right : Hash) : Hash :=
  sha256Parts [tagInternal; b32 left; b32 right].

Lemma placeholderHash_msg : placeholderHash = sha256 placeholder_msg.
Proof. unfold placeholderHash, sha256Parts. cbn [concat]. by rewrite app_nil_r. Qed.

Lemma leafHash_msg p v : leafHash p v = sha256 (leaf_msg p v).
Proof. unfold leafHash, sha256Parts, leaf_msg. cbn [concat]. by rewrite app_nil_r. Qed.

Lemma internalHash_msg l r : internalHash l r = sha256 (internal_msg l r).
Proof. unfold internalHash, sha256Parts, internal_msg. cbn [concat]. by rewrite app_nil_r. Qed.

(** No message of [xs] collides with a different message of [ys]. *)
Definition no_collision (xs ys : list bytes) : Prop :=
  ∀ x y, x ∈ xs -> y ∈ ys -> sha256 x = sha256 y -> x = y.

(** A decision procedure for it, used by the witnesses. *)
Definition no_collisionb (xs ys : list bytes) : bool := apartb sha256 xs ys.

Lemma no_collisionb_sound xs ys : no_collisionb xs ys = true -> no_collision xs ys.
Proof. intros Hb x y. by apply apartb_sound. Qed.

Lemma no_collision_sub xs ys xs' ys' :
  no_collision xs ys -> xs' ⊆ xs -> ys' ⊆ ys -> no_collision xs' ys'.
Proof. intros Hc Hx Hy x y Ex Ey. apply Hc; auto. Qed.
End hashing.

#[global] Arguments leaf_msg : simpl never.
#[global] Arguments internal_msg : simpl never.
#[global] Arguments placeholder_msg : simpl never.
Arguments placeholderHash {_} : simpl never.
Arguments leafHash {_} _ _ : simpl never.
Arguments internalHash {_} _ _ : simpl never.
