(* ===== verification/Node.v ===== *)
(** Tree nodes: [ledger/node.go].

    Node keys, internal and leaf nodes, their binary codecs and node hashing.
    The sixteen child slots [[16]*child] are a list of options (a nil pointer is
    [None]); [node_wf] says it has sixteen entries.  The recursion of
    [subtreeHash] halves a power-of-two range, so its width is given by its
    binary logarithm. *)

From S2P Require Import Prelude Errors Sha256 Hashing.

Definition nibbles : nat := 64.

(** Nibble [i] of a path, most significant first.  An index of 64 or more is out
    of range (a panic in Go); the callers of the model treat that case before
    calling. *)
Definition nibble (path : Hash) (i : nat) : N :=
  let b := bn (nth (Nat.div i 2) (b32 path) Init.Byte.x00) in
  if Nat.even i then N.shiftr b 4 else N.land b 0x0F.

Record nodeKey := NodeKey { nk_version : N; nk_prefix : list N }.

#[export] Instance nodeKey_eq_dec : EqDecision nodeKey.
Proof. solve_decision. Defined.

Definition rootNodeKey (version : N) : nodeKey := NodeKey version [].

(** The packing loop of [nodeKey.encode]: two nibbles per byte, the last low
    nibble zero when the count is odd. *)
Fixpoint pack_nibbles (l : list N) : bytes :=
  match l with
  | [] => []
  | [hi] => [u8 (N.lor (N.shiftl hi 4 mod 256) 0)]
  | hi :: lo :: l' => u8 (N.lor (N.shiftl hi 4 mod 256) lo) :: pack_nibbles l'
  end.

Definition nodeKey_encode (nk : nodeKey) : bytes :=
  be 8 (nk_version nk) ++ [u8 (N.of_nat (length (nk_prefix nk)))] ++ pack_nibbles (nk_prefix nk).

Record child := Child { c_version : N; c_hash : Hash; c_isLeaf : bool }.

#[export] Instance child_eq_dec : EqDecision child.
Proof. solve_decision. Defined.

Record leafNode := LeafNode { l_path : Hash; l_vh : Hash; l_valueVersion : N }.

#[export] Instance leafNode_eq_dec : EqDecision leafNode.
Proof. solve_decision. Defined.

(** Exactly one of the two pointers of the Go struct is set. *)
Inductive node :=
| NInternal (children : list (option child))
| NLeaf (leaf : leafNode).

#[export] Instance node_eq_dec : EqDecision node.
Proof. solve_decision. Defined.

Definition nodeTagInternal : byte := u8 1.
Definition nodeTagLeaf : byte := u8 2.

Definition node_isLeaf (n : node) : bool :=
  match n with NLeaf _ => true | NInternal _ => false end.

(** * Record encoding *)

Fixpoint bitmap_from (i : N) (cs : list (option child)) : N :=
  match cs with
  | [] => 0
  | c :: cs' =>
      N.lor (match c with Some _ => N.shiftl 1 i | None => 0 end) (bitmap_from (N.succ i) cs')
  end.

Definition child_encode (c : child) : bytes :=
  be 8 (c_version c) ++ b32 (c_hash c) ++ [if c_isLeaf c then u8 1 else u8 0].

Definition node_encode (n : node) : bytes :=
  match n with
  | NLeaf l =>
      nodeTagLeaf :: b32 (l_path l) ++ b32 (l_vh l) ++ be 8 (l_valueVersion l)
  | NInternal cs =>
      nodeTagInternal :: le 2 (bitmap_from 0 cs) ++
      concat (child_encode <$> omap id cs)
  end.

(** The decoding loop over the sixteen bitmap positions, from position [i], with
    [data] the bytes from the current offset on. *)
Fixpoint decode_children (bits : list bool) (data : bytes) : outcome (list (option child)) :=
  match bits with
  | [] => Ok []
  | false :: bits' => cs ← decode_children bits' data; Ok (None :: cs)
  | true :: bits' =>
      flag ← (match drop (8 + HashSize) data with
              | b :: _ =>
                  if decide (b = u8 0) then Ok false
                  else if decide (b = u8 1) then Ok true
                  else Err (errCorrupted "node decode: bad is_leaf flag")
              | [] => Panic "slice bounds out of range"
              end);
      let c := Child (unbe (take 8 data)) (copy32 (take HashSize (drop 8 data))) flag in
      cs ← decode_children bits' (drop (8 + HashSize + 1) data);
      Ok (Some c :: cs)
  end.

Definition bitmap_bits (bitmap : N) : list bool :=
  (λ i, N.testbit bitmap (N.of_nat i)) <$> seq 0 16.

Definition count_bits (bits : list bool) : nat := length (filter (λ b, b = true) bits).

Definition decodeNode (data : bytes) : outcome node :=
  match data with
  | [] => Err (errCorrupted "node decode: unknown tag")
  | tag :: body =>
      if decide (tag = nodeTagLeaf) then
        if decide (length data = 1 + 2 * HashSize + 8) then
          Ok (NLeaf (LeafNode (copy32 (take HashSize body))
                              (copy32 (take HashSize (drop HashSize body)))
                              (unbe (drop (2 * HashSize) body))))
        else Err (errCorrupted "node decode: bad leaf length")
      else if decide (tag = nodeTagInternal) then
        if decide (length data < 3) then Err (errCorrupted "node decode: internal too short")
        else
          let bits := bitmap_bits (unle (take 2 body)) in
          let count := count_bits bits in
          if decide (count = 0) then Err (errCorrupted "node decode: internal with no children")
          else if decide (length data = 3 + count * (8 + HashSize + 1)) then
            cs ← decode_children bits (drop 2 body);
            Ok (NInternal cs)
          else Err (errCorrupted "node decode: bad internal length")
      else Err (errCorrupted "node decode: unknown tag")
  end.

(** * Node hashing *)

Section node_hash.
Context `{H : Hasher}.

(** [subtreeHash k cs start] folds the [2^k] slots from [start]. *)
Fixpoint subtreeHash (k : nat) (cs : list (option child)) (start : nat) : Hash :=
  match omap id (take (2 ^ k) (drop start cs)) with
  | [] => placeholderHash
  | only :: rest =>
      match k with
      | O => c_hash only
      | S k' =>
          if decide (rest = [] ∧ c_isLeaf only = true) then c_hash only
          else internalHash (subtreeHash k' cs start) (subtreeHash k' cs (start + 2 ^ k'))
      end
  end.

Definition node_hash (n : node) : Hash :=
  match n with
  | NLeaf l => leafHash (l_path l) (l_vh l)
  | NInternal cs => subtreeHash 4 cs 0
  end.
End node_hash.

(** Well-formed nodes: what the codec can represent. *)
Definition child_wf (c : child) : Prop := is_u64 (c_version c).

Definition node_wf (n : node) : Prop :=
  match n with
  | NLeaf l => is_u64 (l_valueVersion l)
  | NInternal cs => length cs = 16 ∧ omap id cs ≠ [] ∧ Forall child_wf (omap id cs)
  end.

Definition nk_wf (nk : nodeKey) : Prop :=
  is_u64 (nk_version nk) ∧ length (nk_prefix nk) ≤ nibbles ∧
  Forall (λ x, (x < 16)%N) (nk_prefix nk).

(** * Codec lemmas *)

Abbreviation somes cs := ((λ c, bool_decide (is_Some c)) <$> cs) (only parsing).

Lemma testbit_bitmap_from i cs j :
  N.testbit (bitmap_from i cs) j =
  bool_decide (i ≤ j)%N && match cs !! N.to_nat (j - i) with Some (Some _) => true | _ => false end.
Proof.
  revert i. induction cs as [|c cs IH]; intros i; cbn [bitmap_from].
  { rewrite N.bits_0, lookup_nil. by rewrite andb_false_r. }
  rewrite N.lor_spec, IH.
  destruct (N.lt_trichotomy i j) as [Hlt|[->|Hgt]].
  - rewrite !bool_decide_eq_true_2 by lia.
    replace (N.to_nat (j - i)) with (S (N.to_nat (j - N.succ i))) by lia. cbn.
    destruct c; [rewrite N.shiftl_spec_high' by lia|by rewrite N.bits_0].
    replace (N.testbit 1 (j - i)) with false; [done|].
    symmetry. apply N.bits_above_log2. cbn. lia.
  - rewrite (bool_decide_eq_false_2 (N.succ j ≤ j)%N) by lia.
    rewrite bool_decide_eq_true_2, N.sub_diag by lia. cbn. rewrite orb_false_r.
    destruct c; [|apply N.bits_0].
    rewrite N.shiftl_spec_high' by lia. by rewrite N.sub_diag.
  - rewrite !bool_decide_eq_false_2 by lia. cbn. rewrite orb_false_r.
    destruct c; [|apply N.bits_0]. rewrite N.shiftl_spec_low by lia. done.
Qed.

Lemma bitmap_from_lt cs : length cs = 16 -> (bitmap_from 0 cs < 2 ^ 16)%N.
Proof.
  intros Hl. destruct (decide (bitmap_from 0 cs = 0%N)) as [->|Hne]; [done|].
  apply N.log2_lt_pow2; [lia|].
  destruct (N.lt_ge_cases (N.log2 (bitmap_from 0 cs)) 16) as [|Hge]; [done|].
  pose proof (N.bit_log2 _ Hne) as Hb. rewrite testbit_bitmap_from in Hb.
  rewrite (lookup_ge_None_2 cs) in Hb by (rewrite Hl; lia).
  by rewrite andb_false_r in Hb.
Qed.

Lemma bitmap_bits_from cs : length cs = 16 -> bitmap_bits (bitmap_from 0 cs) = somes cs.
Proof.
  intros Hl. apply list_eq. intros i. unfold bitmap_bits.
  rewrite !list_lookup_fmap.
  destruct (decide (i < 16)) as [Hi|Hi].
  - rewrite lookup_seq_lt by done. cbn. rewrite testbit_bitmap_from, N.sub_0_r, Nat2N.id.
    rewrite bool_decide_eq_true_2 by lia. cbn.
    destruct (lookup_lt_is_Some_2 cs i ltac:(lia)) as [c ->]. by destruct c.
  - rewrite lookup_seq_ge by lia. rewrite (lookup_ge_None_2 cs) by lia. done.
Qed.

Lemma bitmap_bits_inj x cs :
  (x < 2 ^ 16)%N -> length cs = 16 -> bitmap_bits x = somes cs -> bitmap_from 0 cs = x.
Proof.
  intros Hx Hl Hb. rewrite <-(bitmap_bits_from cs Hl) in Hb.
  apply N.bits_inj. intros j. destruct (N.lt_ge_cases j 16) as [Hj|Hj].
  - apply (f_equal (λ l, l !! N.to_nat j)) in Hb. unfold bitmap_bits in Hb.
    rewrite !list_lookup_fmap, lookup_seq_lt in Hb by lia. cbn in Hb.
    rewrite N2Nat.id in Hb. by injection Hb.
  -
    rewrite !(testbit_high _ 16 j); [done|done|done|by apply bitmap_from_lt|done].
Qed.

Lemma length_child_encode c : length (child_encode c) = 41.
Proof. unfold child_encode. by lens. Qed.

Lemma count_bits_somes (cs : list (option child)) :
  count_bits (somes cs) = length (omap id cs).
Proof.
  unfold count_bits. induction cs as [|[c|] cs IH]; [done| |]; rewrite fmap_cons.
  - rewrite filter_cons_True by done. cbn. f_equal. exact IH.
  - rewrite filter_cons_False by done. exact IH.
Qed.

Lemma length_concat_children (cs : list child) :
  length (concat (child_encode <$> cs)) = length cs * 41.
Proof.
  induction cs as [|c cs IH]; [done|]. cbn [fmap list_fmap concat length].
  rewrite length_app, length_child_encode, IH. lia.
Qed.

Lemma child_encode_fields c data :
  child_wf c ->
  unbe (take 8 (child_encode c ++ data)) = c_version c ∧
  copy32 (take HashSize (drop 8 (child_encode c ++ data))) = c_hash c ∧
  drop (8 + HashSize) (child_encode c ++ data) = (if c_isLeaf c then u8 1 else u8 0) :: data ∧
  drop (8 + HashSize + 1) (child_encode c ++ data) = data.
Proof.
  intros Hwf. unfold child_encode. rewrite <-!app_assoc. split_and!.
  - rewrite take_app_ge_len by apply length_be. by apply unbe_be8.
  - rewrite drop_app_ge_len, take_app_ge_len by auto using length_be, length_b32.
    apply copy32_b32.
  - rewrite app_assoc, drop_app_ge_len by (by lens). done.
  - rewrite !app_assoc, drop_app_ge_len by (by lens). done.
Qed.

Lemma decode_children_encode cs :
  Forall child_wf (omap id cs) ->
  decode_children (somes cs) (concat (child_encode <$> omap id cs)) = Ok cs.
Proof.
  induction cs as [|[c|] cs IH]; intros Hwf; [done| |].
  - cbn in Hwf. apply Forall_cons in Hwf as [Hc Hwf]. cbn [omap list_omap id].
    change (list_omap _ _ id cs) with (omap id cs).
    cbn [fmap list_fmap concat decode_children].
    rewrite bool_decide_eq_true_2 by eauto.
    destruct (child_encode_fields c (concat (child_encode <$> omap id cs)) Hc)
      as (E1 & E2 & E3 & E4).
    change (list_fmap _ _ child_encode (omap id cs)) with (child_encode <$> omap id cs).
    rewrite E3, E1, E2, E4. specialize (IH Hwf).
    destruct c as [v h []]; cbn [c_isLeaf c_version c_hash];
      [rewrite decide_False by done; rewrite decide_True by done
      |rewrite decide_True by done];
      cbn [mbind outcome_bind];
      change (list_fmap _ _ _ cs) with (somes cs); rewrite IH; done.
  - cbn in *. rewrite IH by done. done.
Qed.

Lemma decode_children_inv bits data cs :
  decode_children bits data = Ok cs ->
  length data = count_bits bits * 41 ->
  bits = somes cs ∧ data = concat (child_encode <$> omap id cs) ∧ Forall child_wf (omap id cs).
Proof.
  revert data cs. induction bits as [|[] bits IH]; intros data cs Hd Hl.
  - cbn in *. injection Hd as <-. destruct data; [|done]. cbn. auto.
  - unfold count_bits in Hl. rewrite filter_cons_True in Hl by done. cbn [length] in Hl.
    fold (count_bits bits) in Hl. cbn [decode_children] in Hd.
    destruct (drop (8 + HashSize) data) as [|b rest] eqn:Eb; [done|].
    assert (∃ fl : bool, b = (if fl then u8 1 else u8 0) ∧
      (cs' ← decode_children bits (drop (8 + HashSize + 1) data);
       Ok (Some (Child (unbe (take 8 data)) (copy32 (take HashSize (drop 8 data))) fl) :: cs'))
      = Ok cs) as (fl & -> & Hd').
    { repeat case_decide; cbn in Hd; [exists false|exists true|]; done. }
    clear Hd. destruct (decode_children bits (drop (8 + HashSize + 1) data)) as [cs'| |] eqn:Ec;
      cbn in Hd'; try done. injection Hd' as <-.
    apply IH in Ec as (-> & Hdata & Hf); [|rewrite length_drop; unfold HashSize; lia].
    assert (length (take 8 data) = 8) as L8 by (rewrite length_take; lia).
    split_and!.
    + cbn. done.
    + cbn [omap list_omap id fmap list_fmap concat]. unfold child_encode at 1.
      cbn [c_version c_hash c_isLeaf].
      rewrite be8_unbe by done.
      rewrite b32_copy32 by (rewrite length_take, length_drop; unfold HashSize; lia).
      rewrite <-!app_assoc.
      rewrite <-(take_drop 8 data) at 1. f_equal.
      rewrite <-(take_drop HashSize (drop 8 data)) at 1. f_equal.
      rewrite drop_drop, Eb. cbn. f_equal.
      assert (rest = drop (8 + HashSize + 1) data) as ->.
      { rewrite Nat.add_comm. replace (1 + (8 + HashSize)) with ((8 + HashSize) + 1) by lia.
        rewrite <-drop_drop, Eb. done. }
      exact Hdata.
    + cbn. constructor; [|done]. by apply unbe_u64.
  - unfold count_bits in Hl. rewrite filter_cons_False in Hl by done.
    cbn [decode_children] in Hd.
    destruct (decode_children bits data) as [cs'| |] eqn:Ec; cbn in Hd; try done.
    injection Hd as <-. apply IH in Ec as (-> & -> & Hf); [|done]. cbn. auto.
Qed.

Lemma decodeNode_encode n : node_wf n -> decodeNode (node_encode n) = Ok n.
Proof.
  destruct n as [cs|l]; cbn [node_wf]; intros Hwf.
  - destruct Hwf as (Hl & Hne & Hf). unfold decodeNode, node_encode.
    rewrite decide_False by done. rewrite decide_True by done.
    assert (count_bits (somes cs) ≠ 0) as Hcnt.
    { rewrite count_bits_somes. by destruct (omap id cs). }
    rewrite take_app_ge_len, drop_app_ge_len by apply length_le.
    rewrite unle_le, N.mod_small by (by apply bitmap_from_lt).
    rewrite bitmap_bits_from by done.
    rewrite decide_False by (lens; lia). rewrite decide_False by done.
    rewrite decide_True; [by rewrite decode_children_encode|].
    lens. rewrite length_concat_children, count_bits_somes. unfold HashSize. lia.
  - unfold decodeNode, node_encode.
    rewrite decide_True by done. rewrite decide_True by (by lens).
    rewrite take_app_ge_len, drop_app_ge_len by apply length_b32.
    rewrite take_app_ge_len by apply length_b32.
    rewrite app_assoc, drop_app_ge_len by (by lens).
    rewrite !copy32_b32, unbe_be8 by done. by destruct l.
Qed.

Lemma decodeNode_inv data n :
  decodeNode data = Ok n -> node_wf n ∧ node_encode n = data.
Proof.
  unfold decodeNode. destruct data as [|tag body]; [done|].
  case_decide as Ht.
  - case_decide as Hl; [|done]. intros [= <-]. cbn [length] in Hl. unfold HashSize in *.
    cbn [node_wf node_encode l_path l_vh l_valueVersion]. subst tag. split.
    + apply unbe_u64. rewrite length_drop. lia.
    + f_equal. rewrite !b32_copy32 by (rewrite ?length_take, ?length_drop; lia).
      rewrite be8_unbe by (rewrite length_drop; lia).
      rewrite <-(take_drop 32 body) at 4. f_equal.
      rewrite <-(take_drop 32 (drop 32 body)) at 2. by rewrite drop_drop.
  - case_decide as Ht'; [|done]. case_decide as Hl3; [done|]. cbv zeta.
    case_decide as Hc; [done|]. case_decide as Hl; [|done].
    cbn [length] in Hl, Hl3. unfold HashSize in Hl. subst tag.
    destruct (decode_children _ _) as [cs| |] eqn:E; cbn; try done. intros [= <-].
    apply decode_children_inv in E as (Hb & Hd & Hf); [|rewrite length_drop; lia].
    assert (length cs = 16) as Hl16.
    { apply (f_equal length) in Hb. unfold bitmap_bits in Hb.
      by rewrite !length_fmap, length_seq in Hb. }
    assert (length (take 2 body) = 2) as Hl2 by (rewrite length_take; lia).
    assert (unle (take 2 body) < 2 ^ 16)%N as Hlt.
    { rewrite <-(le_unle (take 2 body)), Hl2, unle_le. by apply N.mod_lt. }
    split.
    + cbn. split_and!; [done| |done]. intros E. apply Hc.
      by rewrite Hb, count_bits_somes, E.
    + cbn [node_encode]. f_equal.
      rewrite (bitmap_bits_inj (unle (take 2 body))) by done.
      rewrite <-Hd. rewrite <-Hl2 at 1. rewrite le_unle. apply take_drop.
Qed.

(** * Nibbles of a path

    [nibs p] lists the 64 nibbles of a path; [nibble p] reads it. *)

Fixpoint flat_nibs (l : bytes) : list N :=
  match l with [] => [] | b :: l' => N.shiftr (bn b) 4 :: N.land (bn b) 0x0F :: flat_nibs l' end.

Definition nibs (p : Hash) : list N := flat_nibs (b32 p).

Lemma lookup_flat_nibs l i :
  flat_nibs l !! i =
  (λ b, if Nat.even i then N.shiftr (bn b) 4 else N.land (bn b) 0x0F) <$> l !! Nat.div i 2.
Proof.
  revert i. induction l as [|b l IH]; intros i; [by rewrite !lookup_nil|].
  destruct i as [|[|i]]; [done|done|]. cbn [flat_nibs lookup list_lookup Nat.even].
  replace (Nat.div (S (S i)) 2) with (S (Nat.div i 2)).
  - apply IH.
  - change (S (S i)) with (1 * 2 + i). by rewrite Nat.div_add_l by lia.
Qed.

Lemma length_flat_nibs l : length (flat_nibs l) = 2 * length l.
Proof. induction l as [|b l IH]; cbn [flat_nibs length]; lia. Qed.

Lemma length_nibs p : length (nibs p) = 64.
Proof. unfold nibs. by rewrite length_flat_nibs, length_b32. Qed.

Lemma nibs_lookup p i : i < 64 -> nibs p !! i = Some (nibble p i).
Proof.
  intros Hi. unfold nibs, nibble. rewrite lookup_flat_nibs.
  assert (Nat.div i 2 < 32) as Hd by (apply Nat.Div0.div_lt_upper_bound; lia).
  destruct (lookup_lt_is_Some_2 (b32 p) (Nat.div i 2)) as [b Hb]; [by rewrite length_b32|].
  rewrite Hb. cbn. by rewrite (nth_lookup_Some _ _ _ _ Hb).
Qed.

Lemma byte_nibbles b :
  (N.shiftr (bn b) 4 < 16)%N ∧ (N.land (bn b) 0x0F < 16)%N ∧
  bn b = (16 * N.shiftr (bn b) 4 + N.land (bn b) 0x0F)%N.
Proof.
  pose proof (bn_lt b).
  change 0x0F%N with (N.ones 4). rewrite N.shiftr_div_pow2, N.land_ones.
  change (2 ^ 4)%N with 16%N.
  pose proof (N.div_mod (bn b) 16 ltac:(lia)). pose proof (N.mod_lt (bn b) 16 ltac:(lia)).
  split_and!; [apply N.Div0.div_lt_upper_bound; lia|lia|lia].
Qed.

Lemma flat_nibs_lt16 l : Forall (λ x, (x < 16)%N) (flat_nibs l).
Proof.
  induction l as [|b l IH]; constructor; [|constructor; [|done]]; apply byte_nibbles.
Qed.

Lemma nibs_lt16 p : Forall (λ x, (x < 16)%N) (nibs p).
Proof. apply flat_nibs_lt16. Qed.

Lemma nibble_lt16 p i : i < 64 -> (nibble p i < 16)%N.
Proof. intros Hi. apply nibs_lookup with (p := p) in Hi. by eapply Forall_lookup_1 in Hi; [|apply nibs_lt16]. Qed.

(** Lexicographic order on nibbles is lexicographic order on bytes. *)
Fixpoint lex_cmp (a b : list N) : comparison :=
  match a, b with
  | [], [] => Eq
  | [], _ :: _ => Lt
  | _ :: _, [] => Gt
  | x :: a', y :: b' => match N.compare x y with Eq => lex_cmp a' b' | c => c end
  end.

Lemma bytes_cmp_nibs a b : bytes_cmp a b = lex_cmp (flat_nibs a) (flat_nibs b).
Proof.
  revert b. induction a as [|x a IH]; intros [|y b]; cbn; [done..|].
  rewrite IH.
  destruct (byte_nibbles x) as (X1 & X2 & X3), (byte_nibbles y) as (Y1 & Y2 & Y3).
  destruct (N.compare_spec (bn x) (bn y)) as [E|E|E],
    (N.compare_spec (N.shiftr (bn x) 4) (N.shiftr (bn y) 4)) as [E1|E1|E1],
    (N.compare_spec (N.land (bn x) 15) (N.land (bn y) 15)) as [E2|E2|E2];
    try done; exfalso; lia.
Qed.

Lemma lex_cmp_app p a b : lex_cmp (p ++ a) (p ++ b) = lex_cmp a b.
Proof. induction p as [|x p IH]; cbn; [done|]. by rewrite N.compare_refl. Qed.

Lemma nibs_inj p q : nibs p = nibs q -> p = q.
Proof.
  intros E. apply (inj b32), bytes_cmp_eq. rewrite bytes_cmp_nibs.
  unfold nibs in E. rewrite E, <-bytes_cmp_nibs. apply bytes_cmp_refl.
Qed.

(** [under pre p]: the path lies in the subtree at prefix [pre]. *)
Definition under (pre : list N) (p : Hash) : Prop := pre `prefix_of` nibs p.

#[export] Instance under_dec pre p : Decision (under pre p).
Proof. unfold under. apply _. Defined.

Lemma under_nil p : under [] p.
Proof. apply prefix_nil. Qed.

Lemma under_snoc pre i p :
  under (pre ++ [i]) p ↔ under pre p ∧ length pre < 64 ∧ nibble p (length pre) = i.
Proof.
  unfold under. split.
  - intros [k Hk]. rewrite <-app_assoc in Hk. cbn in Hk.
    assert (length pre < 64) as Hl.
    { rewrite <-(length_nibs p), Hk, length_app. cbn. lia. }
    split_and!; [by exists (i :: k)|done|].
    pose proof (nibs_lookup p (length pre) Hl) as Hn.
    rewrite Hk, lookup_app_r, Nat.sub_diag in Hn by done. by injection Hn.
  - intros ([k Hk] & Hl & <-).
    pose proof (nibs_lookup p (length pre) Hl) as Hn.
    rewrite Hk, lookup_app_r, Nat.sub_diag in Hn by done.
    destruct k as [|x k]; [done|]. injection Hn as ->.
    exists k. rewrite Hk, <-app_assoc. done.
Qed.

Lemma under_full pre p q : length pre = 64 -> under pre p -> under pre q -> p = q.
Proof.
  intros Hl [k Hk] [k' Hk']. apply nibs_inj.
  assert (∀ r s, nibs r = pre ++ s -> s = []) as Hnil.
  { intros r s E. pose proof (length_nibs r) as Hr. rewrite E, length_app in Hr.
    destruct s; [done|cbn in Hr; lia]. }
  rewrite (Hnil _ _ Hk) in Hk. rewrite (Hnil _ _ Hk') in Hk'. congruence.
Qed.

Lemma under_length pre p : under pre p -> length pre ≤ 64.
Proof. intros H. apply prefix_length in H. by rewrite length_nibs in H. Qed.

Lemma under_lt16 pre p : under pre p -> Forall (λ x, (x < 16)%N) pre.
Proof. intros [k Hk]. pose proof (nibs_lt16 p) as Hf. rewrite Hk in Hf. by apply Forall_app in Hf as [? _]. Qed.

(** Among paths under one prefix, byte order refines the order of the next
    nibble. *)
Lemma path_lt_nibble pre p q :
  under pre p -> under pre q -> length pre < 64 -> bytes_lt (b32 p) (b32 q) ->
  (nibble p (length pre) ≤ nibble q (length pre))%N.
Proof.
  intros [k Hk] [k' Hk'] Hl Hlt. unfold bytes_lt in Hlt.
  rewrite bytes_cmp_nibs in Hlt. change (flat_nibs (b32 p)) with (nibs p) in Hlt.
  change (flat_nibs (b32 q)) with (nibs q) in Hlt.
  pose proof (nibs_lookup p (length pre) Hl) as Hp. pose proof (nibs_lookup q (length pre) Hl) as Hq.
  rewrite Hk in Hp, Hlt. rewrite Hk' in Hq, Hlt. rewrite lex_cmp_app in Hlt.
  rewrite lookup_app_r, Nat.sub_diag in Hp, Hq by done.
  destruct k as [|x k], k' as [|y k']; try done. cbn in Hp, Hq.
  injection Hp as ->. injection Hq as ->. cbn in Hlt.
  destruct (N.compare_spec (nibble p (length pre)) (nibble q (length pre))); [lia|lia|done].
Qed.

(** * Injectivity of node keys *)

Lemma pack_byte_inj h l h' l' :
  (h < 16)%N -> (l < 16)%N -> (h' < 16)%N -> (l' < 16)%N ->
  u8 (N.lor (N.shiftl h 4 mod 256) l) = u8 (N.lor (N.shiftl h' 4 mod 256) l') -> h = h' ∧ l = l'.
Proof.
  assert (∀ a b, (a < 16)%N -> (b < 16)%N -> bn (u8 (N.lor (N.shiftl a 4 mod 256) b)) = (16 * a + b)%N) as Hv.
  { intros a b Ha Hb. rewrite N.shiftl_mul_pow2. change (2 ^ 4)%N with 16%N.
    rewrite (N.mod_small (a * 16)) by lia.
    assert (N.land (a * 16) b = 0%N) as Hz.
    { apply N.bits_inj. intros i. rewrite N.land_spec, N.bits_0.
      change 16%N with (2 ^ 4)%N. destruct (N.lt_ge_cases i 4).
      - by rewrite N.mul_pow2_bits_low.
      - rewrite (testbit_high b 4 i) by (cbn; lia).
        apply andb_false_r. }
    rewrite <-N.lxor_lor, <-N.add_nocarry_lxor by done.
    rewrite bn_u8_small by lia. lia. }
  intros Hh Hl Hh' Hl' E. apply (f_equal bn) in E. rewrite !Hv in E by done. lia.
Qed.

Lemma pack_nibbles_inj l l' :
  length l = length l' -> Forall (λ x, (x < 16)%N) l -> Forall (λ x, (x < 16)%N) l' ->
  pack_nibbles l = pack_nibbles l' -> l = l'.
Proof.
  remember (length l) as n eqn:Hn. revert l l' Hn.
  induction n as [n IH] using lt_wf_ind. intros l l' -> Hl Hf Hf' E.
  destruct l as [|a [|b l]], l' as [|a' [|b' l']]; try done; cbn [pack_nibbles] in E.
  - injection E as E. apply Forall_cons in Hf as [? _], Hf' as [? _].
    apply pack_byte_inj in E; [|lia..]. by destruct E as [-> _].
  - injection E as E E2. repeat (apply Forall_cons in Hf as [? Hf]; apply Forall_cons in Hf' as [? Hf']).
    apply pack_byte_inj in E as [-> ->]; [|done..].
    rewrite (IH (length l)) with (l := l) (l' := l'); [done|cbn; lia|done| |done..].
    cbn in Hl. lia.
Qed.

Lemma nodeKey_encode_inj k k' :
  nk_wf k -> nk_wf k' -> nodeKey_encode k = nodeKey_encode k' -> k = k'.
Proof.
  destruct k as [v p], k' as [v' p']. intros (Hv & Hl & Hf) (Hv' & Hl' & Hf') E.
  cbn in *. unfold nodeKey_encode in E. cbn in E. unfold nibbles in *.
  apply app_inj_len in E as [E1 E2]; [|by rewrite !length_be].
  apply be8_inj in E1 as ->; [|done..]. injection E2 as E2 E3.
  apply (f_equal bn) in E2. rewrite !bn_u8_small in E2 by lia.
  rewrite (pack_nibbles_inj p p'); [done|lia|done..].
Qed.
