(* ===== verification/Smt.v ===== *)
(** The abstract commitment: a binary sparse Merkle tree over a finite map.

    [smt n d ls] is the hash of the key/commitment pairs [ls] that share their
    first [d] path bits, with [n] bits left: an empty set hashes to the
    placeholder, a single pair to its leaf hash wherever it sits, anything else
    to the hash of its two halves.  [spec_root] is the root of a whole map.  This
    is the specification the sixteen-ary store ([node.go], [store.go]) refines and
    the proofs of [proof.go] are about; nothing in it mentions storage, versions
    or sixteen-way nodes.

    [smt_msgs] lists the messages hashed on the way, and the binding theorem says
    that two sets with equal hashes are equal unless those two finite lists of
    messages contain a collision. *)

From S2P Require Import Prelude Errors Sha256 Hashing Node.

(** Bit [i] (most significant first) of a path: [proof.go], [bitAt]. *)
Definition bitAt (path : Hash) (i : nat) : bool :=
  negb (N.land (bn (nth (Nat.div i 8) (b32 path) Init.Byte.x00))
               (N.shiftr 0x80 (N.of_nat (Nat.modulo i 8))) =? 0)%N.

(** The count of leading bits two paths share: [proof.go], [commonPrefixBits]. *)
Fixpoint leading_zeros (fuel : nat) (x : N) : nat :=
  match fuel with
  | O => 0
  | S f => if (N.land x 0x80 =? 0)%N then S (leading_zeros f (N.shiftl x 1 mod 256)) else 0
  end.

Fixpoint common_bits (a b : bytes) : nat :=
  match a, b with
  | x :: a', y :: b' =>
      let z := N.lxor (bn x) (bn y) in
      if (z =? 0)%N then 8 + common_bits a' b' else leading_zeros 8 z
  | _, _ => 0
  end.

Definition commonPrefixBits (a b : Hash) : nat := common_bits (b32 a) (b32 b).

(** * Bits and nibbles *)

Lemma bitAt_nibble p d j :
  d < 64 -> j < 4 -> bitAt p (4 * d + j) = N.testbit (nibble p d) (N.of_nat (3 - j)).
Proof.
  intros Hd Hj. unfold bitAt, nibble.
  assert (Nat.div (4 * d + j) 8 = Nat.div d 2) as ->.
  { replace 8 with (4 * 2) by done. rewrite <-Nat.Div0.div_div, Nat.mul_comm, Nat.div_add_l by lia.
    rewrite (Nat.div_small j 4) by done. f_equal. lia. }
  set (b := nth (Nat.div d 2) (b32 p) Init.Byte.x00).
  assert (Nat.modulo (4 * d + j) 8 = if Nat.even d then j else 4 + j) as ->.
  { destruct (Nat.even d) eqn:E.
    - apply Nat.even_spec in E as [q ->]. replace (4 * (2 * q) + j) with (j + q * 8) by lia.
      rewrite Nat.Div0.mod_add. apply Nat.mod_small. lia.
    - assert (Nat.odd d = true) as [q ->]%Nat.odd_spec by (by rewrite <-Nat.negb_even, E).
      replace (4 * (2 * q + 1) + j) with ((4 + j) + q * 8) by lia.
      rewrite Nat.Div0.mod_add. apply Nat.mod_small. lia. }
  clearbody b. clear Hd p.
  destruct j as [|[|[|[|]]]]; [..|lia]; destruct (Nat.even d); destruct b; reflexivity.
Qed.

Lemma byte_bit b k : k < 8 ->
  negb (N.land (bn b) (N.shiftr 0x80 (N.of_nat k)) =? 0)%N = N.testbit (bn b) (N.of_nat (7 - k)).
Proof. intros Hk. do 8 (destruct k as [|k]; [by destruct b|]). lia. Qed.

Lemma byte_leading_zeros w : bn w ≠ 0%N ->
  leading_zeros 8 (bn w) < 8 ∧ N.testbit (bn w) (N.of_nat (7 - leading_zeros 8 (bn w))) = true.
Proof. intros Hw. destruct w; (by destruct Hw) || (split; [apply Nat.ltb_lt|]; reflexivity). Qed.

Definition bit_of (l : bytes) (i : nat) : bool :=
  negb (N.land (bn (nth (Nat.div i 8) l Init.Byte.x00))
               (N.shiftr 0x80 (N.of_nat (Nat.modulo i 8))) =? 0)%N.

Lemma bit_of_low x l k : k < 8 -> bit_of (x :: l) k = N.testbit (bn x) (N.of_nat (7 - k)).
Proof.
  intros Hk. unfold bit_of. rewrite Nat.div_small, Nat.mod_small by done. by apply byte_bit.
Qed.

Lemma bit_of_high x l k : bit_of (x :: l) (8 + k) = bit_of l k.
Proof.
  unfold bit_of. change (8 + k) with (1 * 8 + k). rewrite Nat.div_add_l by lia.
  replace (1 * 8 + k) with (k + 1 * 8) by lia. by rewrite Nat.Div0.mod_add.
Qed.

Lemma common_bits_ge a b n :
  length a = length b -> n ≤ 8 * length a -> (∀ j, j < n -> bit_of a j = bit_of b j) ->
  n ≤ common_bits a b.
Proof.
  revert b n. induction a as [|x a IH]; intros [|y b] n Hl Hn Hb; cbn [length] in *; try lia.
  cbn [common_bits]. destruct (N.eqb_spec (N.lxor (bn x) (bn y)) 0) as [Hz|Hz].
  - destruct (decide (n ≤ 8)); [lia|].
    enough (n - 8 ≤ common_bits a b) by lia. apply IH; [lia|lia|].
    intros j Hj. rewrite <-(bit_of_high x a), <-(bit_of_high y b). apply Hb. lia.
  - set (z := N.lxor (bn x) (bn y)) in *.
    assert (z < 256)%N as Hz256.
    { destruct (N.lt_ge_cases z 256) as [|Hge]; [done|].
      exfalso. pose proof (N.bit_log2 z Hz) as Ht.
      assert (8 ≤ N.log2 z)%N as H8 by (change 8%N with (N.log2 256); by apply N.log2_le_mono).
      unfold z in Ht at 1. rewrite N.lxor_spec in Ht.
      rewrite !(testbit_high _ 8) in Ht by (apply bn_lt || done). done. }
    destruct (byte_leading_zeros (u8 z)) as [Hlt Ht]; [by rewrite bn_u8_small|].
    rewrite bn_u8_small in Hlt, Ht by done.
    destruct (decide (n ≤ leading_zeros 8 z)) as [|Hgt]; [done|].
    specialize (Hb (leading_zeros 8 z) ltac:(lia)). rewrite !bit_of_low in Hb by done.
    unfold z in Ht at 1. rewrite N.lxor_spec, Hb, xorb_nilpotent in Ht. done.
Qed.

Lemma commonPrefixBits_ge p q n :
  n ≤ 256 -> (∀ j, j < n -> bitAt p j = bitAt q j) -> n ≤ commonPrefixBits p q.
Proof.
  intros Hn Hb. apply common_bits_ge; [by rewrite !length_b32|by rewrite length_b32|exact Hb].
Qed.

Lemma bitAt_inj p q : (∀ j, j < 256 -> bitAt p j = bitAt q j) -> p = q.
Proof.
  intros Hb. apply nibs_inj, list_eq. intros d. destruct (decide (d < 64)) as [Hd|Hd].
  - rewrite !nibs_lookup by done. f_equal. apply N.bits_inj. intros i.
    destruct (N.lt_ge_cases i 4) as [Hi|Hi].
    + set (j := 3 - N.to_nat i). replace i with (N.of_nat (3 - j)) by lia.
      rewrite <-!bitAt_nibble by lia. apply Hb. lia.
    + rewrite !(testbit_high _ 4) by (done || by apply nibble_lt16). done.
  - rewrite !lookup_ge_None_2 by (rewrite length_nibs; lia). done.
Qed.

(** * The specification tree *)

Abbreviation side d b := (λ x : Hash * Hash, bitAt x.1 d = b) (only parsing).

Section smt.
Context `{H : Hasher}.
Implicit Types ls : list (Hash * Hash).

Fixpoint smt (n d : nat) ls : Hash :=
  match ls with
  | [] => placeholderHash
  | [x] => leafHash x.1 x.2
  | _ =>
      match n with
      | O => placeholderHash
      | S n' => internalHash (smt n' (S d) (filter (side d false) ls))
                             (smt n' (S d) (filter (side d true) ls))
      end
  end.

(** The message whose hash [smt] is, and all messages hashed below it. *)
Definition smt_top (n d : nat) ls : bytes :=
  match ls with
  | [] => placeholder_msg
  | [x] => leaf_msg x.1 x.2
  | _ =>
      match n with
      | O => placeholder_msg
      | S n' => internal_msg (smt n' (S d) (filter (side d false) ls))
                             (smt n' (S d) (filter (side d true) ls))
      end
  end.

Fixpoint smt_msgs (n d : nat) ls : list bytes :=
  smt_top n d ls ::
  match ls with
  | [] | [_] => []
  | _ =>
      match n with
      | O => []
      | S n' => smt_msgs n' (S d) (filter (side d false) ls) ++
                smt_msgs n' (S d) (filter (side d true) ls)
      end
  end.

(** The root of a logical state: a map from paths to value commitments. *)
Definition spec_root (m : gmap Hash Hash) : Hash := smt 256 0 (map_to_list m).
Definition spec_msgs (m : gmap Hash Hash) : list bytes := smt_msgs 256 0 (map_to_list m).

Lemma smt_top_hash n d ls : smt n d ls = sha256 (smt_top n d ls).
Proof.
  destruct n, ls as [|x [|y ls]]; cbn [smt smt_top];
    eauto using placeholderHash_msg, leafHash_msg, internalHash_msg.
Qed.

Lemma smt_top_in n d ls : smt_top n d ls ∈ smt_msgs n d ls.
Proof. destruct n, ls as [|x [|y ls]]; cbn [smt_msgs]; left. Qed.

Lemma smt_msgs_side n d x y ls b :
  smt_msgs n (S d) (filter (side d b) (x :: y :: ls)) ⊆ smt_msgs (S n) d (x :: y :: ls).
Proof. cbn [smt_msgs]. intros z Hz. right. apply elem_of_app. destruct b; auto. Qed.

(** ** The hash does not depend on the order of the pairs *)

Lemma smt_perm n d ls ls' : ls ≡ₚ ls' -> smt n d ls = smt n d ls'.
Proof.
  revert d ls ls'. induction n as [|n IH]; intros d ls ls' Hp;
    pose proof (Permutation_length Hp) as Hl;
    destruct ls as [|x [|y ls]], ls' as [|x' [|y' ls']]; try done.
  - by apply Permutation_singleton_r in Hp as [= ->].
  - by apply Permutation_singleton_r in Hp as [= ->].
  - cbn [smt]. f_equal; apply IH; by rewrite Hp.
Qed.

(** Nor do the messages. *)
Lemma smt_msgs_perm n d ls ls' : ls ≡ₚ ls' -> smt_msgs n d ls = smt_msgs n d ls'.
Proof.
  revert d ls ls'. induction n as [|n IH]; intros d ls ls' Hp;
    pose proof (Permutation_length Hp) as Hl;
    destruct ls as [|x [|y ls]], ls' as [|x' [|y' ls']]; try done;
    try (by apply Permutation_singleton_r in Hp as [= ->]).
  cbn [smt_msgs smt_top].
  rewrite (smt_perm n (S d) (filter (side d false) (x :: y :: ls)) (filter (side d false) (x' :: y' :: ls')))
    by by rewrite Hp.
  rewrite (smt_perm n (S d) (filter (side d true) (x :: y :: ls)) (filter (side d true) (x' :: y' :: ls')))
    by by rewrite Hp.
  f_equal. f_equal; apply IH; by rewrite Hp.
Qed.

Lemma smt_msgs_one n d x : smt_msgs n d [x] = [leaf_msg x.1 x.2].
Proof. by destruct n. Qed.

(** ** Sharing a prefix *)

(** All pairs of [ls] agree on their first [d] bits and have distinct paths. *)
Definition agree (d : nat) ls : Prop :=
  NoDup ls.*1 ∧ ∀ x y, x ∈ ls -> y ∈ ls -> ∀ j, j < d -> bitAt x.1 j = bitAt y.1 j.

Lemma agree_side d b ls : agree d ls -> agree (S d) (filter (side d b) ls).
Proof.
  intros [Hnd Ha]. split.
  - by apply NoDup_fst_filter.
  - intros x y [Hx Hxl]%list_elem_of_filter [Hy Hyl]%list_elem_of_filter j Hj.
    destruct (decide (j = d)) as [->|]; [congruence|]. apply Ha; auto. lia.
Qed.

Lemma agree_full ls : agree 256 ls -> length ls ≤ 1.
Proof.
  intros [Hnd Ha]. destruct ls as [|x [|y ls]]; cbn; try lia. exfalso.
  assert (x.1 = y.1) as E by (apply bitAt_inj, Ha; repeat constructor).
  cbn in Hnd. rewrite E in Hnd. apply NoDup_cons in Hnd as [Hn _]. apply Hn. left.
Qed.

Lemma agree_perm d ls ls' : ls ≡ₚ ls' -> agree d ls -> agree d ls'.
Proof. intros Hp [Hnd Ha]. split; [by rewrite <-Hp|]. intros x y. rewrite <-Hp. apply Ha. Qed.

Lemma agree_map_to_list (m : gmap Hash Hash) : agree 0 (map_to_list m).
Proof. split; [apply NoDup_fst_map_to_list|intros; lia]. Qed.

Lemma side_split d ls : ls ≡ₚ filter (side d false) ls ++ filter (side d true) ls.
Proof.
  induction ls as [|x ls IH]; [done|]. rewrite !filter_cons.
  destruct (bitAt x.1 d) eqn:E.
  - rewrite decide_False, decide_True by done. by rewrite <-Permutation_middle, <-IH.
  - rewrite decide_True, decide_False by done. cbn. by rewrite <-IH.
Qed.

(** ** Shape of a set from its hash

    When the top message of [smt n d ls] is known, so is the shape of [ls]. *)

Lemma smt_top_placeholder n d ls :
  n + d = 256 -> agree d ls -> smt_top n d ls = placeholder_msg -> ls = [].
Proof.
  intros Hn Ha. destruct ls as [|x [|y ls]]; [done| |].
  - by intros ?%leaf_placeholder_msg.
  - destruct n; [|by intros ?%internal_placeholder_msg].
    cbn in Hn. subst d. apply agree_full in Ha. cbn in Ha. lia.
Qed.

Lemma smt_top_leaf n d ls p v :
  n + d = 256 -> agree d ls -> smt_top n d ls = leaf_msg p v -> ls = [(p, v)].
Proof.
  intros Hn Ha. destruct ls as [|x [|y ls]].
  - intros E. symmetry in E. by apply leaf_placeholder_msg in E.
  - destruct n; cbn; intros [<- <-]%leaf_msg_inj; by destruct x.
  - destruct n; [intros E; symmetry in E; by apply leaf_placeholder_msg in E|].
    intros E. symmetry in E. by apply leaf_internal_msg in E.
Qed.

Lemma smt_top_internal n d ls l r :
  smt_top n d ls = internal_msg l r ->
  ∃ n' x y ls', n = S n' ∧ ls = x :: y :: ls' ∧
    l = smt n' (S d) (filter (side d false) ls) ∧ r = smt n' (S d) (filter (side d true) ls).
Proof.
  destruct ls as [|x [|y ls]].
  - destruct n; intros E; symmetry in E; by apply internal_placeholder_msg in E.
  - destruct n; by intros E%leaf_internal_msg.
  - destruct n as [|n]; [intros E; symmetry in E; by apply internal_placeholder_msg in E|].
    intros E. cbn [smt_top] in E. apply internal_msg_inj in E as [<- <-]. eauto 10.
Qed.

(** ** Binding: the hash determines the set *)

Lemma smt_binding n d ls ls' :
  n + d = 256 -> agree d ls -> agree d ls' ->
  no_collision (smt_msgs n d ls) (smt_msgs n d ls') ->
  smt n d ls = smt n d ls' -> ls ≡ₚ ls'.
Proof.
  revert d ls ls'. induction n as [|n IH]; intros d ls ls' Hn Ha Ha' Hc E;
    rewrite !smt_top_hash in E; (apply Hc in E; [|apply smt_top_in..]);
    symmetry in E; (destruct ls as [|x [|y ls]];
      [by apply smt_top_placeholder in E as ->
      |apply smt_top_leaf in E as ->; [by destruct x|done..]|]).
  - cbn in Hn. subst d. apply agree_full in Ha. cbn in Ha. lia.
  - cbn [smt_top] in E.
    apply smt_top_internal in E as (n' & x' & y' & ls'' & [= <-] & -> & El & Er).
    rewrite (side_split d (x :: y :: ls)), (side_split d (x' :: y' :: ls'')).
    f_equiv; (apply (IH (S d)); [lia|by apply agree_side..| |done]);
      eapply no_collision_sub; eauto using smt_msgs_side.
Qed.

Lemma spec_root_binding (m m' : gmap Hash Hash) :
  no_collision (spec_msgs m) (spec_msgs m') -> spec_root m = spec_root m' -> m = m'.
Proof.
  unfold spec_msgs, spec_root. intros Hc E. apply map_to_list_inj.
  exact (smt_binding 256 0 _ _ eq_refl (agree_map_to_list m) (agree_map_to_list m') Hc E).
Qed.

(** ** One step down the tree *)

(** [ls'] with [n'] bits left at depth [d'] is a node of the tree over [ls]. *)
Inductive smt_sub : nat -> nat -> list (Hash * Hash) -> nat -> nat -> list (Hash * Hash) -> Prop :=
| smt_sub_refl n d ls : smt_sub n d ls n d ls
| smt_sub_side n d x y ls b n' d' ls' :
    smt_sub n (S d) (filter (side d b) (x :: y :: ls)) n' d' ls' ->
    smt_sub (S n) d (x :: y :: ls) n' d' ls'.

Lemma smt_sub_msgs n d ls n' d' ls' :
  smt_sub n d ls n' d' ls' -> smt_msgs n' d' ls' ⊆ smt_msgs n d ls.
Proof. induction 1; [done|]. etrans; [done|]. apply smt_msgs_side. Qed.

Lemma smt_sub_elem n d ls n' d' ls' x : smt_sub n d ls n' d' ls' -> x ∈ ls' -> x ∈ ls.
Proof.
  induction 1 as [|n d y z ls b n' d' ls' Hs IH]; [done|].
  intros Hx. by apply IH, list_elem_of_filter in Hx as [_ ?].
Qed.

Lemma smt_sub_agree n d ls n' d' ls' :
  smt_sub n d ls n' d' ls' -> agree d ls -> n + d = 256 -> agree d' ls' ∧ n' + d' = 256.
Proof.
  induction 1 as [|n d y z ls b n' d' ls' Hs IH]; [done|].
  intros Ha Hn. apply IH; [by apply agree_side|lia].
Qed.

Lemma smt_sub_trans n d ls n' d' ls' n2 d2 ls2 :
  smt_sub n d ls n' d' ls' -> smt_sub n' d' ls' n2 d2 ls2 -> smt_sub n d ls n2 d2 ls2.
Proof. induction 1; intros Hs; [done|]. econstructor. eauto. Qed.
End smt.

Arguments smt {_} _ _ _ : simpl never.
Arguments smt_msgs {_} _ _ _ : simpl never.
#[global] Strategy 1000 [smt smt_msgs].
