(* ===== verification/Proofs.v ===== *)
(** Inclusion and absence proofs: the pure part of [ledger/proof.go].

    [Verify] is the verifier a client runs with nothing but a root; [Encode] and
    [DecodeProof] are the wire format.  The theorems say what an accepted proof
    means for the logical state committed by the root (soundness), that the
    reference prover [smt_prove] always convinces the verifier (completeness),
    and that the wire format is a bijection with its strict decoder.  The prover
    that walks the stored tree is in [StoreProof.v]. *)

From S2P Require Import Prelude Errors Sha256 Hashing Node Smt.

Definition maxDepth : nat := 256.

Record ProofLeaf := MkProofLeaf { pl_Path : Hash; pl_Vh : Hash }.

#[export] Instance ProofLeaf_eq_dec : EqDecision ProofLeaf.
Proof. solve_decision. Defined.

(** Siblings are listed bottom-up. *)
Record Proof := MkProof { p_Leaf : option ProofLeaf; p_Siblings : list Hash }.

#[export] Instance Proof_eq_dec : EqDecision Proof.
Proof. solve_decision. Defined.

Record Verified := MkVerified { v_Present : bool; v_Vh : Hash }.

#[export] Instance Verified_eq_dec : EqDecision Verified.
Proof. solve_decision. Defined.

(** The zero value [Hash{}]. *)
Definition zeroHash : Hash := copy32 [].

(** What the logical state says about a path. *)
Definition statement_of (m : gmap Hash Hash) (path : Hash) : Verified :=
  match m !! path with Some vh => MkVerified true vh | None => MkVerified false zeroHash end.

Section verify.
Context `{H : Hasher}.

(** The folding loop: with [rest] siblings still to come, the current one sits
    at depth [length rest]. *)
Fixpoint fold_siblings (path : Hash) (siblings : list Hash) (acc : Hash) : Hash :=
  match siblings with
  | [] => acc
  | sib :: rest =>
      fold_siblings path rest
        (if bitAt path (length rest) then internalHash sib acc else internalHash acc sib)
  end.

Definition Verify (root path : Hash) (proof : Proof) : outcome Verified :=
  let n := length (p_Siblings proof) in
  if decide (maxDepth < n) then Err (errInvalid "proof too deep")
  else
    '(acc, statement) ←
      match p_Leaf proof with
      | Some l =>
          if decide (pl_Path l = path) then
            Ok (leafHash (pl_Path l) (pl_Vh l), MkVerified true (pl_Vh l))
          else if decide (commonPrefixBits (pl_Path l) path < n) then
            Err (errInvalid "divergent leaf does not cover the proven path")
          else Ok (leafHash (pl_Path l) (pl_Vh l), MkVerified false zeroHash)
      | None => Ok (placeholderHash, MkVerified false zeroHash)
      end;
    if decide (fold_siblings path (p_Siblings proof) acc = root) then Ok statement
    else Err (errInvalid "proof does not match root").

(** ** The messages the verifier hashes *)

Definition start_msg (proof : Proof) : bytes :=
  match p_Leaf proof with Some l => leaf_msg (pl_Path l) (pl_Vh l) | None => placeholder_msg end.

Fixpoint fold_msgs (path : Hash) (siblings : list Hash) (acc : Hash) : list bytes :=
  match siblings with
  | [] => []
  | sib :: rest =>
      let msg := if bitAt path (length rest) then internal_msg sib acc else internal_msg acc sib in
      msg :: fold_msgs path rest (sha256 msg)
  end.

Definition verify_msgs (path : Hash) (proof : Proof) : list bytes :=
  start_msg proof :: fold_msgs path (p_Siblings proof) (sha256 (start_msg proof)).

Lemma fold_step_msg path sib (rest : list Hash) acc :
  (if bitAt path (length rest) then internalHash sib acc else internalHash acc sib) =
  sha256 (if bitAt path (length rest) then internal_msg sib acc else internal_msg acc sib).
Proof. destruct (bitAt path (length rest)); apply internalHash_msg. Qed.

(** ** Soundness

    A fold that reaches a node of the specification tree started at a node of
    it, on the side of the proven path. *)
Lemma fold_sound path sibs acc n ls :
  let d := 0 in
  n + d = 256 -> agree d ls ->
  no_collision (fold_msgs path sibs acc) (smt_msgs n d ls) ->
  fold_siblings path sibs acc = smt n d ls ->
  ∃ n' ls', smt_sub n d ls n' (length sibs) ls' ∧ acc = smt n' (length sibs) ls' ∧
    ∀ v, (path, v) ∈ ls -> (path, v) ∈ ls'.
Proof.
  intros d Hn Ha. unfold d in *. clear d. revert acc.
  induction sibs as [|sib rest IH]; intros acc Hc E.
  { exists n, ls. split_and!; [constructor|done|done]. }
  cbn [fold_siblings fold_msgs] in E, Hc. rewrite fold_step_msg in E.
  set (msg := if bitAt path (length rest) then _ else _) in *.
  destruct (IH (sha256 msg)) as (n1 & ls1 & Hs & E1 & Hin).
  { intros x y Hx. apply Hc. by right. } { done. }
  pose proof (smt_sub_agree _ _ _ _ _ _ Hs Ha Hn) as [Ha1 Hn1].
  rewrite smt_top_hash in E1. apply Hc in E1;
    [|left|by eapply smt_sub_msgs; [|apply smt_top_in]].
  set (d1 := length rest) in *.
  destruct (bitAt path d1) eqn:Eb; unfold msg in E1; symmetry in E1;
    apply smt_top_internal in E1 as (n2 & x & y & ls2 & -> & -> & El & Er).
  - exists n2, (filter (side d1 true) (x :: y :: ls2)). split_and!; [|done|].
    + eapply smt_sub_trans; [done|]. econstructor. constructor.
    + intros v Hv. apply list_elem_of_filter. auto.
  - exists n2, (filter (side d1 false) (x :: y :: ls2)). split_and!; [|done|].
    + eapply smt_sub_trans; [done|]. econstructor. constructor.
    + intros v Hv. apply list_elem_of_filter. auto.
Qed.

Lemma Verify_sound_aux m root path proof st :
  root = spec_root m ->
  no_collision (verify_msgs path proof) (spec_msgs m) ->
  Verify root path proof = Ok st -> st = statement_of m path.
Proof.
  intros -> Hc HV. unfold Verify in HV. case_decide as Hn; [done|].
  set (acc := sha256 (start_msg proof)).
  assert (fold_siblings path (p_Siblings proof) acc = spec_root m ∧
    match p_Leaf proof with
    | Some l => st = if decide (pl_Path l = path) then MkVerified true (pl_Vh l)
                     else MkVerified false zeroHash
    | None => st = MkVerified false zeroHash
    end) as [Hf Hst].
  { unfold acc, start_msg. destruct (p_Leaf proof) as [l|]; cbn in HV.
    - rewrite <-leafHash_msg. repeat case_decide; cbn in HV; repeat case_decide; naive_solver.
    - rewrite <-placeholderHash_msg. case_decide; naive_solver. }
  clear HV. unfold spec_root, spec_msgs in *.
  destruct (fold_sound path (p_Siblings proof) acc 256 (map_to_list m))
    as (n' & ls' & Hs & E & Hin); [done|apply agree_map_to_list| |done|].
  { eapply no_collision_sub; [exact Hc| |reflexivity]. intros z Hz. by right. }
  pose proof (smt_sub_agree _ _ _ _ _ _ Hs (agree_map_to_list m) eq_refl) as [Ha' Hn'].
  unfold acc in E. rewrite smt_top_hash in E.
  apply Hc in E; [|left|by eapply smt_sub_msgs; [|apply smt_top_in]].
  symmetry in E. unfold start_msg in E. unfold statement_of.
  destruct (p_Leaf proof) as [l|].
  - apply smt_top_leaf in E as ->; [|done..]. subst st. case_decide as Hp.
    + assert ((pl_Path l, pl_Vh l) ∈ map_to_list m) as Hm%elem_of_map_to_list
        by (eapply smt_sub_elem; [done|left]).
      rewrite <-Hp, Hm. done.
    + destruct (m !! path) as [v|] eqn:Em; [|done].
      apply elem_of_map_to_list, Hin, list_elem_of_singleton in Em. congruence.
  - apply smt_top_placeholder in E as ->; [|done..]. subst st.
    destruct (m !! path) as [v|] eqn:Em; [|done].
    apply elem_of_map_to_list, Hin in Em. by apply not_elem_of_nil in Em.
Qed.

(** ** The reference prover *)

(** The proof of [path] in the tree over [ls]: the leaf that covers the path's
    position and the siblings met on the way down, top-down. *)
Fixpoint smt_prove (n d : nat) (ls : list (Hash * Hash)) (path : Hash) :
    option ProofLeaf * list Hash :=
  match ls with
  | [] => (None, [])
  | [x] => (Some (MkProofLeaf x.1 x.2), [])
  | _ =>
      match n with
      | O => (None, [])
      | S n' =>
          let b := bitAt path d in
          let r := smt_prove n' (S d) (filter (side d b) ls) path in
          (r.1, smt n' (S d) (filter (side d (negb b)) ls) :: r.2)
      end
  end.

Definition spec_prove (m : gmap Hash Hash) (path : Hash) : Proof :=
  let r := smt_prove 256 0 (map_to_list m) path in MkProof r.1 (reverse r.2).

Definition start_hash (ol : option ProofLeaf) : Hash :=
  match ol with Some l => leafHash (pl_Path l) (pl_Vh l) | None => placeholderHash end.

Lemma smt_prove_length n d ls path : length (smt_prove n d ls path).2 ≤ n.
Proof.
  revert d ls. induction n as [|n IH]; intros d ls;
    destruct ls as [|x [|y ls]]; cbn [smt_prove snd length]; try lia.
  specialize (IH (S d) (filter (side d (bitAt path d)) (x :: y :: ls))). lia.
Qed.

(** Folding the siblings collected below depth [d] rebuilds the hash there. *)
Lemma fold_smt_prove n d ls path rest :
  length rest = d -> n + d = 256 -> agree d ls ->
  fold_siblings path (reverse (smt_prove n d ls path).2 ++ rest)
    (start_hash (smt_prove n d ls path).1) = fold_siblings path rest (smt n d ls).
Proof.
  revert d ls rest. induction n as [|n IH]; intros d ls rest Hr Hn Ha;
    destruct ls as [|x [|y ls]]; try done.
  cbn [smt_prove fst snd]. rewrite reverse_cons, <-app_assoc. cbn [app].
  rewrite IH by first [by apply agree_side | cbn; lia].
  cbn [fold_siblings]. rewrite Hr. f_equal.
  change (smt (S n) d (x :: y :: ls)) with
    (internalHash (smt n (S d) (filter (side d false) (x :: y :: ls)))
                  (smt n (S d) (filter (side d true) (x :: y :: ls)))).
  by destruct (bitAt path d).
Qed.

(** The covering leaf agrees with the path on every level that has a sibling. *)
Lemma smt_prove_covers n d ls path l :
  (smt_prove n d ls path).1 = Some l ->
  (pl_Path l, pl_Vh l) ∈ ls ∧
  ∀ j, d ≤ j -> j < d + length (smt_prove n d ls path).2 -> bitAt (pl_Path l) j = bitAt path j.
Proof.
  revert d ls. induction n as [|n IH]; intros d ls;
    destruct ls as [|x [|y ls]]; cbn [smt_prove fst snd]; try done.
  - intros [= <-]. split; [destruct x; by left|cbn; lia].
  - intros [= <-]. split; [destruct x; by left|cbn; lia].
  - intros [[Hb Hin]%list_elem_of_filter Hj]%IH. split; [done|].
    intros j Hd Hlt. cbn [length] in Hlt.
    destruct (decide (j = d)) as [->|]; [done|]. apply Hj; lia.
Qed.

Lemma smt_prove_answer n d ls path :
  n + d = 256 -> agree d ls ->
  match (smt_prove n d ls path).1 with
  | Some l => ∀ v, (path, v) ∈ ls -> path = pl_Path l ∧ v = pl_Vh l
  | None => ∀ v, (path, v) ∉ ls
  end.
Proof.
  revert d ls. induction n as [|n IH]; intros d ls Hn Ha; destruct ls as [|x [|y ls]];
    cbn [smt_prove fst snd]; try (intros v; apply not_elem_of_nil);
    try (intros v E%list_elem_of_singleton; subst x; done).
  - cbn in Hn. subst d. apply agree_full in Ha. cbn in Ha. lia.
  - specialize (IH (S d) (filter (side d (bitAt path d)) (x :: y :: ls))
      ltac:(lia) (agree_side _ _ _ Ha)).
    destruct (smt_prove n (S d) _ path).1 as [l|]; intros v Hv; [apply IH|apply (IH v)];
      by apply list_elem_of_filter.
Qed.

(** ** Completeness *)

Lemma Verify_complete_aux m path :
  Verify (spec_root m) path (spec_prove m path) = Ok (statement_of m path).
Proof.
  unfold Verify, spec_prove, spec_root. cbn [p_Leaf p_Siblings].
  pose proof (agree_map_to_list m) as Ha.
  pose proof (smt_prove_length 256 0 (map_to_list m) path) as Hl.
  pose proof (fold_smt_prove 256 0 (map_to_list m) path [] eq_refl eq_refl Ha) as Hf.
  pose proof (smt_prove_answer 256 0 (map_to_list m) path eq_refl Ha) as Han.
  pose proof (smt_prove_covers 256 0 (map_to_list m) path) as Hcov.
  rewrite app_nil_r in Hf. cbn [fold_siblings] in Hf.
  destruct (smt_prove 256 0 (map_to_list m) path) as [ol sibs]. cbn [fst snd] in *.
  rewrite length_reverse. rewrite decide_False by (unfold maxDepth; lia).
  unfold statement_of. destruct ol as [l|]; cbn [start_hash] in Hf.
  - destruct (Hcov l eq_refl) as [Hin Hbits]. apply elem_of_map_to_list in Hin.
    case_decide as Hp.
    + cbn [mbind outcome_bind]. rewrite decide_True by done. by rewrite <-Hp, Hin.
    + rewrite decide_False.
      * cbn [mbind outcome_bind]. rewrite decide_True by done.
        destruct (m !! path) as [v|] eqn:Em; [|done].
        apply elem_of_map_to_list, Han in Em. naive_solver.
      * apply Nat.le_ngt, commonPrefixBits_ge; [lia|]. intros j Hj. apply Hbits; lia.
  - cbn [mbind outcome_bind]. rewrite decide_True by done.
    destruct (m !! path) as [v|] eqn:Em; [|done].
    by apply elem_of_map_to_list, Han in Em.
Qed.
End verify.

(** * The wire format *)

Definition proof_encode (p : Proof) : bytes :=
  match p_Leaf p with
  | Some l => u8 1 :: b32 (pl_Path l) ++ b32 (pl_Vh l)
  | None => [u8 0]
  end ++
  le 2 (N.of_nat (length (p_Siblings p))) ++ concat (b32 <$> p_Siblings p).

Definition malformed : error := errInvalid "malformed proof".

(** The loop that cuts [count] hashes off [data]. *)
Fixpoint decode_siblings (count : nat) (data : bytes) : list Hash :=
  match count with
  | O => []
  | S n => copy32 (take HashSize data) :: decode_siblings n (drop HashSize data)
  end.

(** The part after the optional leaf: count, length check, siblings. *)
Definition decode_tail (data : bytes) (leaf : option ProofLeaf) (off : nat) : outcome Proof :=
  if decide (length data < off + 2) then Err malformed
  else
    let count := N.to_nat (unle (take 2 (drop off data))) in
    let off := off + 2 in
    if decide (maxDepth < count ∨ length data ≠ off + count * HashSize) then Err malformed
    else Ok (MkProof leaf (decode_siblings count (drop off data))).

Definition DecodeProof (data : bytes) : outcome Proof :=
  match data with
  | [] => Err malformed
  | flag :: body =>
      if decide (flag = u8 0) then decode_tail data None 1
      else if decide (flag = u8 1) then
        if decide (length data < 1 + 2 * HashSize) then Err malformed
        else
          let leaf := MkProofLeaf (copy32 (take HashSize body))
                                  (copy32 (take HashSize (drop HashSize body))) in
          decode_tail data (Some leaf) (1 + 2 * HashSize)
      else Err malformed
  end.

Lemma length_concat_b32 (hs : list Hash) : length (concat (b32 <$> hs)) = 32 * length hs.
Proof.
  induction hs as [|h hs IH]; [done|]. cbn [fmap list_fmap concat].
  rewrite length_app, length_b32, IH. cbn [length]. lia.
Qed.

Lemma decode_siblings_encode hs : decode_siblings (length hs) (concat (b32 <$> hs)) = hs.
Proof.
  induction hs as [|h hs IH]; [done|]. cbn [length decode_siblings fmap list_fmap concat].
  rewrite take_app_ge_len, drop_app_ge_len by apply length_b32. rewrite copy32_b32. f_equal. exact IH.
Qed.

Lemma encode_decode_siblings n data :
  length data = n * 32 -> concat (b32 <$> decode_siblings n data) = data ∧ length (decode_siblings n data) = n.
Proof.
  revert data. induction n as [|n IH]; intros data Hl; [by destruct data|].
  cbn [decode_siblings fmap list_fmap concat length].
  destruct (IH (drop HashSize data)) as [E1 E2]; [rewrite length_drop; unfold HashSize; lia|].
  split; [|by rewrite E2].
  rewrite b32_copy32 by (rewrite length_take; unfold HashSize; lia).
  change (list_fmap _ _ b32 ?l) with (b32 <$> l). rewrite E1. apply take_drop.
Qed.

Lemma decode_tail_encode pre leaf sibs :
  length sibs ≤ 256 ->
  decode_tail (pre ++ le 2 (N.of_nat (length sibs)) ++ concat (b32 <$> sibs)) leaf (length pre) =
  Ok (MkProof leaf sibs).
Proof.
  intros Hl. unfold decode_tail.
  rewrite drop_app_ge_len by done. rewrite take_app_ge_len by apply length_le.
  rewrite unle_le, N.mod_small by (cbn; lia). rewrite Nat2N.id.
  lens. rewrite length_concat_b32. rewrite decide_False by lia. cbv zeta.
  rewrite decide_False by (unfold maxDepth, HashSize; lia).
  rewrite app_assoc, drop_app_ge_len by (lens; lia).
  by rewrite decode_siblings_encode.
Qed.

Lemma decode_tail_inv data leaf off p :
  off ≤ length data -> decode_tail data leaf off = Ok p ->
  p_Leaf p = leaf ∧ length (p_Siblings p) ≤ maxDepth ∧
  drop off data = le 2 (N.of_nat (length (p_Siblings p))) ++ concat (b32 <$> p_Siblings p).
Proof.
  intros Hoff. unfold decode_tail. case_decide as H2; [done|]. cbv zeta.
  case_decide as Hc; [done|]. intros [= <-]. cbn [p_Leaf p_Siblings].
  set (count := N.to_nat (unle (take 2 (drop off data)))) in *. unfold HashSize in Hc.
  destruct (encode_decode_siblings count (drop (off + 2) data)) as [E1 E2];
    [rewrite length_drop; lia|].
  rewrite E1, E2. split_and!; [done|lia|].
  assert (length (take 2 (drop off data)) = 2) as L2 by (rewrite length_take, length_drop; lia).
  unfold count. rewrite N2Nat.id. rewrite <-L2 at 1. rewrite le_unle.
  rewrite <-drop_drop. symmetry. apply take_drop.
Qed.

Lemma DecodeProof_encode p :
  length (p_Siblings p) ≤ maxDepth -> DecodeProof (proof_encode p) = Ok p.
Proof.
  intros Hl. destruct p as [[[pa vh]|] sibs]; cbn [p_Siblings] in *; unfold proof_encode;
    cbn [p_Leaf p_Siblings pl_Path pl_Vh].
  - pose proof (decode_tail_encode (u8 1 :: b32 pa ++ b32 vh) (Some (MkProofLeaf pa vh)) sibs Hl)
      as E.
    unfold DecodeProof. rewrite <-E. clear E. cbn [app length].
    rewrite decide_False, decide_True by done.
    rewrite decide_False by (lens; unfold HashSize; lia).
    rewrite <-!app_assoc. rewrite take_app_ge_len by apply length_b32.
    rewrite drop_app_ge_len by apply length_b32. rewrite take_app_ge_len by apply length_b32.
    rewrite !copy32_b32, length_app, !length_b32. done.
  - unfold DecodeProof. cbn [app]. rewrite decide_True by done.
    apply (decode_tail_encode [u8 0] None sibs Hl).
Qed.

Lemma DecodeProof_inv data p :
  DecodeProof data = Ok p -> length (p_Siblings p) ≤ maxDepth ∧ proof_encode p = data.
Proof.
  unfold DecodeProof. destruct data as [|flag body]; [done|].
  case_decide as Hf; [|case_decide as Hf'; [case_decide as Hlen; [done|]|done]].
  - intros (El & Hn & E)%decode_tail_inv; [|cbn; lia]. split; [done|].
    unfold proof_encode. rewrite El, Hf. cbn [app]. f_equal. symmetry. exact E.
  - cbv zeta. cbn [length] in Hlen. unfold HashSize in *.
    intros (El & Hn & E)%decode_tail_inv; [|cbn; lia]. split; [done|].
    subst flag. unfold proof_encode. rewrite El, <-E. cbn [pl_Path pl_Vh].
    rewrite !b32_copy32 by (rewrite ?length_take, ?length_drop; lia).
    assert (drop (1 + 2 * 32) (u8 1 :: body) = drop 32 (drop 32 body)) as -> by (by rewrite drop_drop).
    cbn [app]. by rewrite <-app_assoc, !take_drop.
Qed.
