(* ===== verification/Backend.v ===== *)
(** The storage interface and the in-memory backend: [ledger/backend.go].

    [Backend] is the three-method Go interface as a class of monadic operations
    over an arbitrary storage state: with no law at all it is adversarial storage,
    which is what the fail-closed theorems are proved against.  [BackendSpec] adds
    what an honest backend promises (reads reflect the contents, a batch lands as
    a whole or not at all), and [BackendReliable] that it does not fail; the
    functional theorems of the store are proved against these interfaces and
    [MemBackend] discharges them. *)

From S2P Require Import Prelude Errors.

Record BatchOp := MkBatchOp { bo_Key : bytes; bo_Value : bytes; bo_Delete : bool }.
Definition bput (k v : bytes) : BatchOp := MkBatchOp k v false.
Definition bdel (k : bytes) : BatchOp := MkBatchOp k [] true.

Record KV := MkKV { kv_Key : bytes; kv_Value : bytes }.

#[export] Instance KV_eq_dec : EqDecision KV.
Proof. solve_decision. Defined.

Class Backend (B : Type) := {
  b_get : bytes -> M B (option bytes);
  b_write : list BatchOp -> M B unit;
  b_scan : bytes -> bytes -> N -> M B (list KV)
}.

(** * Specification of storage *)

(** The effect of a batch on the contents, in order. *)
Definition apply_op (m : gmap bytes bytes) (op : BatchOp) : gmap bytes bytes :=
  if bo_Delete op then delete (bo_Key op) m else <[bo_Key op := bo_Value op]> m.
Definition apply_batch (ops : list BatchOp) (m : gmap bytes bytes) : gmap bytes bytes :=
  foldl apply_op m ops.

(** [k] lies in [[start, end)], an empty end being unbounded. *)
Definition in_range (start stop k : bytes) : Prop :=
  bytes_le start k ∧ (stop = [] ∨ bytes_lt k stop).

#[export] Instance in_range_dec start stop k : Decision (in_range start stop k).
Proof. unfold in_range. apply _. Defined.

Definition sorted_keys (m : gmap bytes bytes) : list bytes :=
  merge_sort bytes_le (map_to_list m).*1.

Definition limited {A} (limit : N) (l : list A) : list A :=
  if decide (limit = 0%N) then l else take (N.to_nat limit) l.

Definition scan_spec (m : gmap bytes bytes) (start stop : bytes) (limit : N) : list KV :=
  (λ k, MkKV k (default [] (m !! k))) <$>
  limited limit (filter (in_range start stop) (sorted_keys m)).

Class BackendSpec (B : Type) `{Backend B} := {
  contents : B -> gmap bytes bytes;
  get_spec : ∀ k b o b', b_get k b = (o, b') ->
    contents b' = contents b ∧ ∀ r, o = Ok r -> r = contents b !! k;
  write_spec : ∀ ops b o b', b_write ops b = (o, b') ->
    (o = Ok tt ∧ contents b' = apply_batch ops (contents b)) ∨
    ((∃ e, o = Err e) ∧ contents b' = contents b);
  scan_spec_law : ∀ start stop limit b o b', b_scan start stop limit b = (o, b') ->
    contents b' = contents b ∧ ∀ r, o = Ok r -> r = scan_spec (contents b) start stop limit
}.

Class BackendReliable (B : Type) `{Backend B} := {
  get_live : ∀ k b, ∃ r b', b_get k b = (Ok r, b');
  write_live : ∀ ops b, ∃ b', b_write ops b = (Ok tt, b');
  scan_live : ∀ start stop limit b, ∃ r b', b_scan start stop limit b = (Ok r, b')
}.

Section reliable.
Context {B : Type} `{!Backend B, !BackendSpec B, !BackendReliable B}.

Lemma get_ok k b : ∃ b', b_get k b = (Ok (contents b !! k), b') ∧ contents b' = contents b.
Proof.
  destruct (get_live k b) as (r & b' & E). destruct (get_spec k b _ _ E) as [Hc Hr].
  exists b'. by rewrite <-(Hr r eq_refl).
Qed.

Lemma write_ok ops b :
  ∃ b', b_write ops b = (Ok tt, b') ∧ contents b' = apply_batch ops (contents b).
Proof.
  destruct (write_live ops b) as (b' & E).
  destruct (write_spec ops b _ _ E) as [[_ Hc]|[[e He] _]]; [eauto|done].
Qed.

Lemma scan_ok start stop limit b :
  ∃ b', b_scan start stop limit b = (Ok (scan_spec (contents b) start stop limit), b') ∧
    contents b' = contents b.
Proof.
  destruct (scan_live start stop limit b) as (r & b' & E).
  destruct (scan_spec_law _ _ _ b _ _ E) as [Hc Hr]. exists b'. by rewrite <-(Hr r eq_refl).
Qed.
End reliable.

(** ** Facts about sorted scans *)

Lemma sorted_keys_perm m : sorted_keys m ≡ₚ (map_to_list m).*1.
Proof. apply merge_sort_Permutation. Qed.

Lemma sorted_keys_sorted m : StronglySorted bytes_le (sorted_keys m).
Proof. apply StronglySorted_merge_sort; apply _. Qed.

Lemma elem_of_sorted_keys m k : k ∈ sorted_keys m ↔ is_Some (m !! k).
Proof.
  rewrite sorted_keys_perm, list_elem_of_fmap. split.
  - intros ([k' v] & -> & Hin%elem_of_map_to_list). eauto.
  - intros [v Hv]. exists (k, v). by rewrite elem_of_map_to_list.
Qed.

Lemma NoDup_sorted_keys m : NoDup (sorted_keys m).
Proof. rewrite sorted_keys_perm. apply NoDup_fst_map_to_list. Qed.

Lemma apply_batch_app ops1 ops2 m : apply_batch (ops1 ++ ops2) m = apply_batch ops2 (apply_batch ops1 m).
Proof. apply foldl_app. Qed.

(** A batch touches only its keys. *)
Lemma apply_batch_notin ops m k :
  (∀ op, op ∈ ops -> bo_Key op ≠ k) -> apply_batch ops m !! k = m !! k.
Proof.
  revert m. induction ops as [|op ops IH]; intros m Hk; [done|].
  change (apply_batch (op :: ops) m) with (apply_batch ops (apply_op m op)).
  rewrite IH by (intros; apply Hk; by right). unfold apply_op.
  assert (bo_Key op ≠ k) by (apply Hk; left).
  destruct (bo_Delete op); [by rewrite lookup_delete_ne|by rewrite lookup_insert_ne].
Qed.

(** When all operations of a batch on a key agree, that is its effect. *)
Lemma apply_batch_in ops m k (r : option bytes) :
  (∃ op, op ∈ ops ∧ bo_Key op = k) ->
  (∀ op, op ∈ ops -> bo_Key op = k -> (if bo_Delete op then None else Some (bo_Value op)) = r) ->
  apply_batch ops m !! k = r.
Proof.
  revert m. induction ops as [|op ops IH] using rev_ind; intros m [op0 [Hin Hk]] Hall.
  { by apply not_elem_of_nil in Hin. }
  rewrite apply_batch_app. change (apply_batch [op] ?x) with (apply_op x op). unfold apply_op.
  destruct (decide (bo_Key op = k)) as [E|E].
  - specialize (Hall op ltac:(apply elem_of_app; right; left) E). rewrite E.
    destruct (bo_Delete op); [by rewrite lookup_delete_eq|by rewrite lookup_insert_eq].
  - assert (apply_batch ops m !! k = r) as <-.
    { apply IH; [|intros; apply Hall; [apply elem_of_app; by left|done]].
      apply elem_of_app in Hin as [Hin|Hin%list_elem_of_singleton]; [eauto|congruence]. }
    destruct (bo_Delete op); [by rewrite lookup_delete_ne|by rewrite lookup_insert_ne].
Qed.

(** * The in-memory backend *)

Record MemBackend := MkMem { mb_m : gmap bytes bytes; mb_reads : N }.

Definition NewMemBackend : MemBackend := MkMem ∅ 0.

Section mem.
Context `{MR : MapRange}.

Definition mem_Reads : M MemBackend N := gets mb_reads.
Definition mem_ResetReads : M MemBackend unit := modify (λ b, MkMem (mb_m b) 0).
Definition mem_Len : M MemBackend nat := gets (λ b, size (mb_m b)).

(** The sorted key list both [Keys] and [Scan] start from. *)
Definition mem_sorted (m : gmap bytes bytes) : list bytes :=
  merge_sort bytes_le (range_map m).*1.

Definition mem_Keys : M MemBackend (list bytes) := gets (λ b, mem_sorted (mb_m b)).

(** Flip the low bit of a record's first byte. *)
Definition mem_Tamper (key : bytes) : M MemBackend bool := λ b,
  match mb_m b !! key with
  | Some (x :: v) =>
      (Ok true, MkMem (<[key := u8 (N.lxor (bn x) 1) :: v]> (mb_m b)) (mb_reads b))
  | _ => (Ok false, b)
  end.

Definition mem_Remove (key : bytes) : M MemBackend bool := λ b,
  (Ok (bool_decide (is_Some (mb_m b !! key))), MkMem (delete key (mb_m b)) (mb_reads b)).

Definition mem_Get (key : bytes) : M MemBackend (option bytes) := λ b,
  (Ok (mb_m b !! key), MkMem (mb_m b) (mb_reads b + 1)).

Definition mem_WriteBatch (ops : list BatchOp) : M MemBackend unit := λ b,
  (Ok tt, MkMem (foldl (λ m op, if bo_Delete op then delete (bo_Key op) m
                                else <[bo_Key op := bo_Value op]> m) (mb_m b) ops) (mb_reads b)).

(** The scan loop over the sorted keys; [room] is how many entries may still be
    appended before [len(out) >= max]. *)
Fixpoint scan_loop (m : gmap bytes bytes) (start stop : bytes) (room : nat) (keys : list bytes) : list KV :=
  match keys with
  | [] => []
  | k :: keys' =>
      if decide (bytes_lt k start) then scan_loop m start stop room keys'
      else if decide (stop ≠ [] ∧ ¬ bytes_lt k stop) then []
      else MkKV k (default [] (m !! k)) ::
           match room with
           | S (S r) => scan_loop m start stop (S r) keys'
           | _ => []
           end
  end.

Definition mem_Scan (start stop : bytes) (limit : N) : M MemBackend (list KV) := λ b,
  let keys := mem_sorted (mb_m b) in
  let max := if decide (limit = 0%N) then length keys else N.to_nat limit in
  (Ok (scan_loop (mb_m b) start stop max keys), b).

#[export] Instance mem_backend : Backend MemBackend :=
  {| b_get := mem_Get; b_write := mem_WriteBatch; b_scan := mem_Scan |}.

Lemma mem_sorted_keys m : mem_sorted m = sorted_keys m.
Proof.
  apply (Sorted_unique bytes_le).
  - apply Sorted_merge_sort. apply _.
  - apply Sorted_merge_sort. apply _.
  - unfold mem_sorted. rewrite merge_sort_Permutation, sorted_keys_perm.
    apply fmap_Permutation, range_perm.
Qed.

Lemma scan_loop_spec m start stop room keys :
  StronglySorted bytes_le keys -> 0 < room ∨ keys = [] ->
  scan_loop m start stop room keys =
  (λ k, MkKV k (default [] (m !! k))) <$> take room (filter (in_range start stop) keys).
Proof.
  intros Hs. revert room. induction Hs as [|k keys Hs IH Hf]; intros room Hr.
  { cbn. by rewrite take_nil. }
  destruct Hr as [Hr|]; [|done]. cbn [scan_loop]. rewrite filter_cons.
  case_decide as Hlt.
  { rewrite IH by auto. rewrite decide_False; [done|]. intros [Hle _].
    unfold bytes_le, bytes_lt in *. rewrite bytes_cmp_antisym, Hlt in Hle. done. }
  assert (bytes_le start k) as Hsk.
  { destruct (bytes_lt_total start k) as [?|[->|?]]; [apply bytes_le_lt_eq; auto..|done]. }
  case_decide as Hst.
  - rewrite decide_False by (intros [_ [?|?]]; tauto).
    assert (filter (in_range start stop) keys = []) as ->; [|by rewrite take_nil].
    rewrite Forall_forall in Hf.
    destruct (filter (in_range start stop) keys) as [|k' l] eqn:E; [done|].
    assert (k' ∈ filter (in_range start stop) keys) as [[_ Hk'] Hin]%list_elem_of_filter
      by (rewrite E; left).
    destruct Hst as [Hne Hnlt]. destruct Hk' as [?|Hk']; [done|]. exfalso. apply Hnlt.
    specialize (Hf k' Hin). apply bytes_le_lt_eq in Hf as [?| ->]; [|done].
    by eapply bytes_lt_trans.
  - rewrite decide_True.
    2:{ split; [done|]. destruct (decide (stop = [])); [by left|right].
        destruct (decide (bytes_lt k stop)); [done|tauto]. }
    destruct room as [|[|r]]; [lia|done|]. rewrite IH by (left; lia). done.
Qed.

#[export] Instance mem_spec : BackendSpec MemBackend.
Proof.
  refine {| contents := mb_m |}.
  - intros k b o b' [= <- <-]. cbn. split; [done|]. by intros r [= <-].
  - intros ops b o b' [= <- <-]. left. done.
  - intros start stop limit b o b' [= <- <-]. split; [done|]. intros r [= <-].
    rewrite mem_sorted_keys. unfold scan_spec, limited.
    pose proof (sorted_keys_sorted (mb_m b)) as Hs.
    rewrite scan_loop_spec; [|done|case_decide; [|left; lia]].
    + case_decide; [|done]. rewrite take_ge; [done|]. apply length_filter.
    + destruct (sorted_keys (mb_m b)); [by right|left; cbn; lia].
Defined.

#[export] Instance mem_reliable : BackendReliable MemBackend.
Proof. split; intros; repeat eexists. Qed.
End mem.
