(* ===== verification/Pebble.v ===== *)
(** The Pebble storage adapter: [backend/pebble/pebble.go].

    Pebble itself is third-party: [Pebble] is what the adapter calls of it, over a
    database [D], its write batches [W] and its iterators [I], and [PebbleSpec] what
    Pebble documents of these calls.  The adapter discharges the storage interface
    [BackendSpec], so the theorems about the ledger hold on top of it.  The loop over
    an iterator is bounded by [rounds]; [scan_alive] shows that one more than there
    are entries is enough. *)

From S2P Require Import Prelude Errors Backend.

Class Pebble (D W I O : Type) := {
  ErrNotFound : error;
  p_Open : string -> O -> outcome D;
  p_default : O;
  p_Close : M D unit;
  p_Get : bytes -> M D bytes;
  p_CloseValue : M D unit;
  p_NewBatch : D -> W;
  p_Set : bytes -> bytes -> M W unit;
  p_Delete : bytes -> M W unit;
  p_Commit : bool -> W -> M D unit;
  p_NewIter : bytes -> option bytes -> M D I;
  p_First : I -> bool * I;
  p_Next : I -> bool * I;
  p_Key : I -> bytes;
  p_ValueAndErr : I -> outcome bytes;
  p_Error : I -> outcome unit
}.

Record PebbleBackend (D : Type) := MkPebble { pb_db : D; pb_sync : bool }.
Arguments MkPebble {D}. Arguments pb_db {D}. Arguments pb_sync {D}.

Record PebbleOptions (O : Type) := MkPebbleOptions { po_NoSync : bool; po_Pebble : option O }.
Arguments MkPebbleOptions {O}. Arguments po_NoSync {O}. Arguments po_Pebble {O}.

Section adapter.
Context {D W I O : Type} `{P : Pebble D W I O} (rounds : nat).
Abbreviation MP := (M (PebbleBackend D)).

(** A call of the database, or of a batch, behind the adapter. *)
Definition on_db {A} (m : M D A) : MP A := λ b, let '(o, d) := m (pb_db b) in (o, MkPebble d (pb_sync b)).

Definition PebbleOpen (dir : string) (opts : option (PebbleOptions O)) : outcome (PebbleBackend D) :=
  let o := default (MkPebbleOptions false None) opts in
  d ← p_Open dir (default p_default (po_Pebble o));
  Ok (MkPebble d (negb (po_NoSync o))).

Definition PebbleWrap (d : D) : PebbleBackend D := MkPebble d true.
Definition PebbleClose : MP unit := on_db p_Close.

Definition PebbleGet (key : bytes) : MP (option bytes) := λ b,
  match on_db (p_Get key) b with
  | (Err e, b') => if error_is ErrNotFound e then (Ok None, b') else (Err e, b')
  | (Panic w, b') => (Panic w, b')
  | (Ok v, b') => (on_db p_CloseValue;; mret (Some v)) b'
  end.

Definition batch_op (op : BatchOp) : M W unit :=
  if bo_Delete op then p_Delete (bo_Key op) else p_Set (bo_Key op) (bo_Value op).

Definition PebbleWriteBatch (ops : list BatchOp) : MP unit := λ b,
  match foldM (λ _, batch_op) tt ops (p_NewBatch (pb_db b)) with
  | (Ok _, w) => on_db (p_Commit (pb_sync b) w) b
  | (Err e, _) => (Err e, b)
  | (Panic w, _) => (Panic w, b)
  end.

(** The loop over the iterator, which stops at [max] entries when that is positive. *)
Fixpoint iter_loop (n : nat) (max : Z) (out : list KV) (st : bool * I) : outcome (list KV) :=
  match n with
  | 0 => Panic "scan: round bound"
  | S n' =>
      let '(valid, it) := st in
      if valid then
        v ← p_ValueAndErr it;
        let out := out ++ [MkKV (p_Key it) v] in
        if decide (0 < max ∧ max ≤ Z.of_nat (length out))%Z then (_ ← p_Error it; Ok out)
        else iter_loop n' max out (p_Next it)
      else _ ← p_Error it; Ok out
  end.

Definition PebbleScan (start stop : bytes) (limit : N) : MP (list KV) :=
  it ← on_db (p_NewIter start (if decide (0 < length stop) then Some stop else None));
  let max := if decide (limit = 0%N) then (-1)%Z else Z.of_N limit in
  lift (iter_loop rounds max [] (p_First it)).

#[export] Instance pebble_backend : Backend (PebbleBackend D) :=
  {| b_get := PebbleGet; b_write := PebbleWriteBatch; b_scan := PebbleScan |}.
End adapter.

(** * What Pebble documents *)

Definition in_bounds (lower : bytes) (upper : option bytes) (k : bytes) : Prop :=
  bytes_le lower k ∧ match upper with Some u => bytes_lt k u | None => True end.
#[export] Instance in_bounds_dec lower upper k : Decision (in_bounds lower upper k).
Proof. unfold in_bounds. destruct upper; apply _. Defined.

(** Reads return what is stored; a batch collects its operations and commits as a whole
    or fails without effect; an iterator visits the entries of its bounds in key order,
    as of its creation, and a call that finds no further entry although there is one
    leaves an error. *)
Class PebbleSpec (D W I O : Type) `{Pebble D W I O} := {
  p_contents : D -> gmap bytes bytes;
  w_ops : W -> list BatchOp;
  i_all : I -> list KV;
  i_at : I -> nat;
  p_get_found : ∀ k d v d', p_Get k d = (Ok v, d') -> p_contents d !! k = Some v;
  p_get_missing : ∀ k d e d', p_Get k d = (Err e, d') -> error_is ErrNotFound e = true -> p_contents d !! k = None;
  p_get_frame : ∀ k d, p_contents (p_Get k d).2 = p_contents d;
  p_close_frame : ∀ d, p_contents (p_CloseValue d).2 = p_contents d;
  p_batch_empty : ∀ d, w_ops (p_NewBatch d) = [];
  p_set_ops : ∀ k v w, (∃ e, (p_Set k v w).1 = Err e) ∨ (p_Set k v w).1 = Ok tt ∧ w_ops (p_Set k v w).2 = w_ops w ++ [bput k v];
  p_delete_ops : ∀ k w, (∃ e, (p_Delete k w).1 = Err e) ∨ (p_Delete k w).1 = Ok tt ∧ w_ops (p_Delete k w).2 = w_ops w ++ [bdel k];
  p_commit_all : ∀ sync w d,
    ((p_Commit sync w d).1 = Ok tt ∧ p_contents (p_Commit sync w d).2 = apply_batch (w_ops w) (p_contents d)) ∨
    ((∃ e, (p_Commit sync w d).1 = Err e) ∧ p_contents (p_Commit sync w d).2 = p_contents d);
  p_iter_frame : ∀ lower upper d, p_contents (p_NewIter lower upper d).2 = p_contents d;
  p_iter_all : ∀ lower upper d it d', p_NewIter lower upper d = (Ok it, d') ->
    i_all it = (λ k, MkKV k (default [] (p_contents d !! k))) <$> filter (in_bounds lower upper) (sorted_keys (p_contents d));
  p_first_at : ∀ it, i_all (p_First it).2 = i_all it ∧ ((p_First it).1 = true -> i_at (p_First it).2 = 0);
  p_next_at : ∀ it, i_all (p_Next it).2 = i_all it ∧ ((p_Next it).1 = true -> i_at (p_Next it).2 = S (i_at it));
  p_first_end : ∀ it, (p_First it).1 = false -> is_ok (p_Error (p_First it).2) = true -> i_all it = [];
  p_next_end : ∀ it, (p_Next it).1 = false -> is_ok (p_Error (p_Next it).2) = true -> length (i_all it) ≤ S (i_at it);
  p_first_entry : ∀ it, (p_First it).1 = true -> is_Some (i_all it !! 0);
  p_next_entry : ∀ it, (p_Next it).1 = true -> is_Some (i_all it !! S (i_at it));
  p_key_at : ∀ it kv, i_all it !! i_at it = Some kv -> p_Key it = kv_Key kv;
  p_value_at : ∀ it kv v, i_all it !! i_at it = Some kv -> p_ValueAndErr it = Ok v -> v = kv_Value kv
}.

(** Pebble without failures. *)
Class PebbleLive (D W I O : Type) `{PebbleSpec D W I O} := {
  p_get_live : ∀ k d, (∃ v, (p_Get k d).1 = Ok v) ∨ ∃ e, (p_Get k d).1 = Err e ∧ error_is ErrNotFound e = true;
  p_close_live : ∀ d, (p_CloseValue d).1 = Ok tt;
  p_set_live : ∀ k v w, (p_Set k v w).1 = Ok tt;
  p_delete_live : ∀ k w, (p_Delete k w).1 = Ok tt;
  p_commit_live : ∀ sync w d, (p_Commit sync w d).1 = Ok tt;
  p_iter_live : ∀ lower upper d, is_ok (p_NewIter lower upper d).1 = true;
  p_value_live : ∀ it, is_Some (i_all it !! i_at it) -> is_ok (p_ValueAndErr it) = true;
  p_error_live : ∀ it, p_Error it = Ok tt
}.

(** * The adapter is a storage backend *)

Section adapter_ok.
Context {D W I O : Type} `{P : Pebble D W I O} `{!PebbleSpec D W I O} (rounds : nat).

(** The iterator stands at entry [k] of [l], or past the end. *)
Record stands (l : list KV) (k : nat) (st : bool * I) : Prop := {
  sd_all : i_all st.2 = l;
  sd_at : st.1 = true -> i_at st.2 = k ∧ is_Some (l !! k);
  sd_end : st.1 = false -> is_ok (p_Error st.2) = true -> length l ≤ k
}.

Lemma first_stands it : stands (i_all it) 0 (p_First it).
Proof.
  destruct (p_first_at it) as [Ha Hk]. split; [done| |].
  - intros Hv. split; [by apply Hk|by apply p_first_entry].
  - intros Hv He. by rewrite (p_first_end it Hv He).
Qed.

Lemma next_stands it : stands (i_all it) (S (i_at it)) (p_Next it).
Proof.
  destruct (p_next_at it) as [Ha Hk]. split; [done| |].
  - intros Hv. split; [by apply Hk|by apply p_next_entry].
  - intros Hv He. by apply p_next_end.
Qed.

(** The entries up to a limit, the loop's way. *)
Definition capped (max : Z) (l : list KV) : list KV := if decide (0 < max)%Z then take (Z.to_nat max) l else l.

Lemma iter_loop_ok n max l k st r :
  stands l k st -> (0 < max -> Z.of_nat k < max)%Z -> k ≤ length l ->
  iter_loop n max (take k l) st = Ok r -> r = capped max l.
Proof.
  revert k st. induction n as [|n IH]; intros k [valid it] [Ha Hat Hend] Hk Hle Hr; [done|].
  cbn [iter_loop] in Hr. cbn [fst snd] in *. destruct valid.
  - destruct (Hat eq_refl) as [Hk' [kv Hkv]]. subst k.
    destruct (p_ValueAndErr it) as [v| |] eqn:Ev; cbn [mbind outcome_bind] in Hr; [|done..].
    rewrite (p_value_at it kv v), (p_key_at it kv) in Hr by (rewrite ?Ha; done). replace (MkKV _ _) with kv in Hr by by destruct kv.
    rewrite <-(take_S_r _ _ _ Hkv) in Hr. pose proof (lookup_lt_Some _ _ _ Hkv) as Hlt.
    rewrite length_take_le in Hr by lia. case_decide as Hm.
    + destruct (p_Error it); cbn in Hr; simplify_eq. unfold capped. rewrite decide_True by lia. f_equal. lia.
    + eapply IH; [rewrite <-Ha; apply next_stands|lia|lia|exact Hr].
  - destruct (p_Error it) eqn:Ee; cbn in Hr; simplify_eq. specialize (Hend eq_refl eq_refl).
    unfold capped. case_decide; rewrite !take_ge by lia; done.
Qed.

Lemma filter_bounds start stop (l : list bytes) :
  filter (in_bounds start (if decide (0 < length stop) then Some stop else None)) l = filter (in_range start stop) l.
Proof.
  apply list_filter_iff. intros k. unfold in_bounds, in_range. destruct stop as [|x stop].
  - rewrite decide_False by (cbn; lia). naive_solver.
  - rewrite decide_True by (cbn; lia). naive_solver.
Qed.

Lemma capped_limit limit (l : list KV) :
  capped (if decide (limit = 0%N) then (-1)%Z else Z.of_N limit) l = limited limit l.
Proof. unfold capped, limited. destruct (decide (limit = 0%N)); [done|]. rewrite decide_True by lia. f_equal. lia. Qed.

Lemma scan_entries start stop limit b it d' :
  p_NewIter start (if decide (0 < length stop) then Some stop else None) (pb_db b) = (Ok it, d') ->
  limited limit (i_all it) = scan_spec (p_contents (pb_db b)) start stop limit.
Proof.
  intros Hi. rewrite (p_iter_all _ _ _ _ _ Hi), filter_bounds. unfold scan_spec, limited.
  destruct (decide (limit = 0%N)); [done|]. by rewrite fmap_take.
Qed.

Lemma batch_op_ok op w :
  (∃ e, (batch_op op w).1 = Err e) ∨
  (batch_op op w).1 = Ok tt ∧ ∀ m, apply_batch (w_ops (batch_op op w).2) m = apply_op (apply_batch (w_ops w) m) op.
Proof.
  destruct op as [k v dl]. unfold batch_op. cbn [bo_Delete bo_Key bo_Value]. destruct dl.
  - destruct (p_delete_ops k w) as [?|[-> ->]]; [by left|right]. split; [done|]. intros m. by rewrite apply_batch_app.
  - destruct (p_set_ops k v w) as [?|[-> ->]]; [by left|right]. split; [done|]. intros m. by rewrite apply_batch_app.
Qed.

Lemma batch_ops_ok ops w :
  (∃ e, (foldM (λ _, batch_op) tt ops w).1 = Err e) ∨
  (foldM (λ _, batch_op) tt ops w).1 = Ok tt ∧
    ∀ m, apply_batch (w_ops (foldM (λ _, batch_op) tt ops w).2) m = apply_batch ops (apply_batch (w_ops w) m).
Proof.
  revert w. induction ops as [|op ops IH]; intros w; [by right|]. cbn [foldM]. unfold mbind, M_bind.
  pose proof (batch_op_ok op w) as Hop. destruct (batch_op op w) as [[[]|e|p] w']; cbn [fst snd] in *.
  - destruct Hop as [[? ?]|[_ Hop]]; [done|]. destruct (IH w') as [?|[-> Hm]]; [by left|right]. split; [done|].
    intros m. rewrite Hm, Hop. done.
  - left. eauto.
  - by destruct Hop as [[? ?]|[? _]].
Qed.

#[export] Instance pebble_spec : @BackendSpec (PebbleBackend D) (pebble_backend rounds).
Proof.
  refine {| contents := λ b : PebbleBackend D, p_contents (pb_db b) |}.
  - intros k b o b'. cbn [b_get pebble_backend]. unfold PebbleGet, on_db. pose proof (p_get_frame k (pb_db b)) as Hf.
    destruct (p_Get k (pb_db b)) as [[v|e|w] d] eqn:Eg; cbn [fst snd] in *.
    + unfold mbind, M_bind, mret, M_ret. cbn [pb_db pb_sync]. pose proof (p_close_frame d) as Hc.
      destruct (p_CloseValue d) as [[[]|e|w] d']; intros [= <- <-]; cbn [pb_db snd] in *; (split; [congruence|]); [|done..].
      intros r [= <-]. by rewrite (p_get_found k (pb_db b) v d Eg).
    + destruct (error_is ErrNotFound e) eqn:Ee; intros [= <- <-]; (split; [done|]); [|done].
      intros r [= <-]. by rewrite (p_get_missing k (pb_db b) e d Eg Ee).
    + intros [= <- <-]. done.
  - intros ops b o b'. cbn [b_write pebble_backend]. unfold PebbleWriteBatch, on_db.
    pose proof (batch_ops_ok ops (p_NewBatch (pb_db b))) as Hb.
    destruct (foldM (λ _, batch_op) tt ops (p_NewBatch (pb_db b))) as [[[]|e|p] w]; cbn [fst snd] in *.
    + destruct Hb as [[? ?]|[_ Hm]]; [done|]. specialize (Hm (p_contents (pb_db b))). rewrite p_batch_empty in Hm.
      pose proof (p_commit_all (pb_sync b) w (pb_db b)) as Hc. rewrite Hm in Hc.
      destruct (p_Commit (pb_sync b) w (pb_db b)) as [oc d]. intros [= <- <-]. exact Hc.
    + intros [= <- <-]. right. eauto.
    + by destruct Hb as [[? ?]|[? _]].
  - intros start stop limit b o b'. cbn [b_scan pebble_backend]. unfold PebbleScan, on_db, mbind, M_bind, lift.
    match goal with |- context [p_NewIter start ?u] => pose proof (p_iter_frame start u (pb_db b)) as Hf; destruct (p_NewIter start u (pb_db b)) as [[it|e|w] d] eqn:Ei end;
      intros [= <- <-]; cbn [snd pb_db] in *; (split; [done|]); [|done..].
    intros r Hr. rewrite <-(scan_entries start stop limit b it d Ei), <-capped_limit.
    eapply (iter_loop_ok rounds _ _ 0); [apply first_stands| |lia|exact Hr]. lia.
Defined.

(** ** Without failures *)

Context `{!PebbleLive D W I O}.

Lemma iter_loop_live n max l k out st :
  stands l k st -> k ≤ length l -> length l < k + n -> is_ok (iter_loop n max out st) = true.
Proof.
  revert k out st. induction n as [|n IH]; intros k out [valid it] [Ha Hat Hend] Hk Hn; [lia|].
  cbn [iter_loop]. cbn [fst snd] in *. destruct valid; [|by rewrite p_error_live].
  destruct (Hat eq_refl) as [Hk' Hs]. subst k. pose proof Hs as [? Hlt%lookup_lt_Some]. rewrite <-Ha in Hs.
  pose proof (p_value_live it Hs) as Hv. destruct (p_ValueAndErr it) as [v| |]; [|done..]. cbn [mbind outcome_bind].
  case_decide; [by rewrite p_error_live|]. eapply IH; [rewrite <-Ha; apply next_stands|lia..].
Qed.

Lemma get_alive k (b : PebbleBackend D) : is_ok (PebbleGet k b).1 = true.
Proof.
  unfold PebbleGet, on_db. pose proof (p_get_live k (pb_db b)) as Hl. destruct (p_Get k (pb_db b)) as [[v|e|w] d]; cbn [fst] in *.
  - unfold mbind, M_bind. cbn [pb_db]. pose proof (p_close_live d) as Hc. destruct (p_CloseValue d) as [o d']. cbn in Hc. by subst o.
  - destruct Hl as [[? ?]|(e' & [= <-] & ->)]; done.
  - by destruct Hl as [[? ?]|(? & ? & ?)].
Qed.

Lemma batch_alive ops w : (foldM (λ _, batch_op) tt ops w).1 = Ok tt.
Proof.
  revert w. induction ops as [|op ops IH]; intros w; [done|]. cbn [foldM]. unfold mbind, M_bind.
  assert ((batch_op op w).1 = Ok tt) as Ho.
  { unfold batch_op. destruct (bo_Delete op); [apply p_delete_live|apply p_set_live]. }
  destruct (batch_op op w) as [o w']. cbn in Ho. subst o. apply IH.
Qed.

Lemma write_alive ops (b : PebbleBackend D) : (PebbleWriteBatch ops b).1 = Ok tt.
Proof.
  unfold PebbleWriteBatch, on_db. pose proof (batch_alive ops (p_NewBatch (pb_db b))) as Hb.
  destruct (foldM _ _ _ _) as [o w]. cbn in Hb. subst o. pose proof (p_commit_live (pb_sync b) w (pb_db b)) as Hc.
  destruct (p_Commit _ _ _) as [o d]. exact Hc.
Qed.

Lemma scan_alive start stop limit (b : PebbleBackend D) :
  size (p_contents (pb_db b)) < rounds -> is_ok (PebbleScan rounds start stop limit b).1 = true.
Proof.
  intros Hn. unfold PebbleScan, on_db, mbind, M_bind, lift. cbn [fst].
  match goal with |- context [p_NewIter start ?u] => pose proof (p_iter_live start u (pb_db b)) as Hf; destruct (p_NewIter start u (pb_db b)) as [[it|e|w] d] eqn:Ei end; [|done..].
  eapply iter_loop_live; [apply first_stands|lia|]. rewrite (p_iter_all _ _ _ _ _ Ei), length_fmap.
  eapply Nat.le_lt_trans; [apply length_filter|]. by rewrite sorted_keys_perm, length_fmap, length_map_to_list.
Qed.
End adapter_ok.

(** * A model of Pebble's laws: a map in memory *)

Module MapPebble.
Definition not_found : error := RawError "pebble: not found".

#[export] Instance map_pebble : Pebble (gmap bytes bytes) (list BatchOp) (list KV * nat) unit := {|
  ErrNotFound := not_found;
  p_Open := λ _ _, Ok ∅;
  p_default := tt;
  p_Close := mret tt;
  p_Get := λ k d, (match d !! k with Some v => Ok v | None => Err not_found end, d);
  p_CloseValue := mret tt;
  p_NewBatch := λ _, [];
  p_Set := λ k v w, (Ok tt, w ++ [bput k v]);
  p_Delete := λ k w, (Ok tt, w ++ [bdel k]);
  p_Commit := λ _ w d, (Ok tt, apply_batch w d);
  p_NewIter := λ lower upper d,
    (Ok ((λ k, MkKV k (default [] (d !! k))) <$> filter (in_bounds lower upper) (sorted_keys d), 0), d);
  p_First := λ it, (bool_decide (is_Some (it.1 !! 0)), (it.1, 0));
  p_Next := λ it, (bool_decide (is_Some (it.1 !! S it.2)), (it.1, S it.2));
  p_Key := λ it, from_option kv_Key [] (it.1 !! it.2);
  p_ValueAndErr := λ it, Ok (from_option kv_Value [] (it.1 !! it.2));
  p_Error := λ _, Ok tt
|}.

Lemma no_entry {A} (l : list A) k : bool_decide (is_Some (l !! k)) = false -> length l ≤ k.
Proof. intros Hf%bool_decide_eq_false. by apply lookup_ge_None_1, eq_None_not_Some. Qed.

#[export] Instance map_pebble_spec : PebbleSpec (gmap bytes bytes) (list BatchOp) (list KV * nat) unit.
Proof.
  refine {| p_contents := id; w_ops := id; i_all := fst; i_at := snd |}; try done; cbn.
  - intros k d v d'. destruct (d !! k) eqn:E; naive_solver.
  - intros k d e d'. destruct (d !! k) eqn:E; naive_solver.
  - by right.
  - by right.
  - by left.
  - intros lower upper d it d' [= <- <-]. done.
  - intros it Hf%no_entry _. by apply nil_length_inv; lia.
  - intros it Hf%no_entry _. done.
  - intros it. by rewrite bool_decide_eq_true.
  - intros it. by rewrite bool_decide_eq_true.
  - intros it kv ->. done.
  - intros it kv v -> [= <-]. done.
Defined.

#[export] Instance map_pebble_live : PebbleLive (gmap bytes bytes) (list BatchOp) (list KV * nat) unit.
Proof.
  split; try done. intros k d. cbn. destruct (d !! k); [left; eauto|right]. eexists. split; [done|]. reflexivity.
Qed.
End MapPebble.
