(* ===== verification/Cache.v ===== *)
(** The node cache: [ledger/cache.go].

    A least-recently-used map from encoded node keys to nodes, with a monotonic
    access tick.  The mutex serialises the methods; each is one atomic step
    here. *)

From S2P Require Import Prelude Errors Sha256 Hashing Node.

Record cacheEntry := CacheEntry { ce_node : node; ce_lastUsed : N }.
Record nodeCache := NodeCache { nc_capacity : Z; nc_tick : N; nc_m : gmap bytes cacheEntry }.

Definition newNodeCache (capacity : Z) : nodeCache := NodeCache capacity 0 ∅.

Definition cache_get (nk : nodeKey) (c : nodeCache) : option node * nodeCache :=
  let tick := wrap64 (nc_tick c + 1) in
  let k := nodeKey_encode nk in
  match nc_m c !! k with
  | None => (None, NodeCache (nc_capacity c) tick (nc_m c))
  | Some e =>
      (Some (ce_node e),
       NodeCache (nc_capacity c) tick (<[k := CacheEntry (ce_node e) tick]> (nc_m c)))
  end.

Section cache.
Context `{MR : MapRange}.

(** The eviction scan: the first entry, or a later one used less recently. *)
Definition oldest_step (acc : option (bytes * N)) (kv : bytes * cacheEntry) : option (bytes * N) :=
  match acc with
  | None => Some (kv.1, ce_lastUsed (kv.2))
  | Some (k, t) =>
      if (ce_lastUsed (kv.2) <? t)%N then Some (kv.1, ce_lastUsed (kv.2)) else acc
  end.

(** The key to evict ([""] when the map is empty, as the zero string is). *)
Definition oldest (m : gmap bytes cacheEntry) : bytes :=
  match foldl oldest_step None (range_map m) with Some (k, _) => k | None => [] end.

Definition cache_put (nk : nodeKey) (n : node) (c : nodeCache) : nodeCache :=
  if decide (nc_capacity c = 0%Z) then c
  else
    let k := nodeKey_encode nk in
    let m :=
      if decide (nc_m c !! k = None ∧ (nc_capacity c ≤ Z.of_nat (size (nc_m c)))%Z)
      then delete (oldest (nc_m c)) (nc_m c) else nc_m c in
    let tick := wrap64 (nc_tick c + 1) in
    NodeCache (nc_capacity c) tick (<[k := CacheEntry n tick]> m).

Definition cache_clear (c : nodeCache) : nodeCache := NodeCache (nc_capacity c) (nc_tick c) ∅.
Definition cache_setCapacity (capacity : Z) (c : nodeCache) : nodeCache :=
  NodeCache capacity (nc_tick c) ∅.
Definition cache_len (c : nodeCache) : nat := size (nc_m c).

(** * The eviction scan finds a least recently used entry *)

Lemma oldest_fold l acc k t :
  foldl oldest_step acc l = Some (k, t) ->
  (acc = Some (k, t) ∨ ∃ e, (k, e) ∈ l ∧ ce_lastUsed e = t) ∧
  (∀ k' t', acc = Some (k', t') -> (t ≤ t')%N) ∧
  (∀ k' e, (k', e) ∈ l -> (t ≤ ce_lastUsed e)%N).
Proof.
  revert acc. induction l as [|[k1 e1] l IH]; intros acc; cbn [foldl].
  { intros ->. split_and!; [by left|intros ?? [= <- <-]; lia|].
    by intros ?? ?%not_elem_of_nil. }
  intros (Hsrc & Hacc & Hl)%IH. unfold oldest_step in Hsrc, Hacc.
  destruct acc as [[k0 t0]|]; cbn [fst snd] in *.
  - destruct (N.ltb_spec (ce_lastUsed e1) t0).
    + specialize (Hacc _ _ eq_refl). split_and!.
      * right. destruct Hsrc as [[= <- <-]|(e & ? & ?)]; eexists; (split; [|done]); [left|by right].
      * intros ?? [= <- <-]. lia.
      * intros k' e [[= -> ->]|?]%elem_of_cons; eauto.
    + specialize (Hacc _ _ eq_refl). split_and!.
      * destruct Hsrc as [?|(e & ? & ?)]; [by left|right; eexists; split; [by right|done]].
      * by intros ?? [= <- <-].
      * intros k' e [[= -> ->]|?]%elem_of_cons; [lia|eauto].
  - specialize (Hacc _ _ eq_refl). split_and!.
    * right. destruct Hsrc as [[= <- <-]|(e & ? & ?)]; eexists; (split; [|done]); [left|by right].
    * done.
    * intros k' e [[= -> ->]|?]%elem_of_cons; eauto.
Qed.

Lemma oldest_spec m :
  m ≠ ∅ -> ∃ e, m !! oldest m = Some e ∧ ∀ k' e', m !! k' = Some e' -> (ce_lastUsed e ≤ ce_lastUsed e')%N.
Proof.
  intros Hne. unfold oldest. destruct (foldl oldest_step None (range_map m)) as [[k t]|] eqn:E.
  - apply oldest_fold in E as ([?|(e & Hin & <-)] & _ & Hmin); [done|].
    exists e. apply elem_of_range in Hin. split; [done|].
    intros k' e' Hk'. eapply Hmin. by apply elem_of_range.
  - exfalso. assert (range_map m = []) as Hnil.
    { destruct (range_map m) as [|[k e] l]; [done|]. cbn in E.
      assert (∀ l acc, foldl oldest_step (Some acc) l ≠ None) as Hs.
      { clear. induction l as [|x l IH]; intros [k t]; cbn; [done|]. case_match; apply IH. }
      by apply Hs in E. }
    apply Hne, map_to_list_empty_iff. apply Permutation_nil_r. by rewrite <-range_perm, Hnil.
Qed.

(** * Invariants *)

(** The cache never holds more than its capacity. *)
Definition cache_bounded (c : nodeCache) : Prop :=
  (0 ≤ nc_capacity c -> Z.of_nat (size (nc_m c)) ≤ nc_capacity c)%Z.

Lemma cache_get_dom nk c : dom (nc_m (cache_get nk c).2) = dom (nc_m c).
Proof.
  unfold cache_get. destruct (nc_m c !! nodeKey_encode nk) as [e|] eqn:E; [|done]. cbn.
  rewrite dom_insert_lookup_L; [done|eauto].
Qed.

Lemma cache_get_bounded nk c : cache_bounded c -> cache_bounded (cache_get nk c).2.
Proof.
  unfold cache_bounded. rewrite <-!size_dom, cache_get_dom.
  unfold cache_get. by case_match.
Qed.

Lemma cache_put_bounded nk n c : cache_bounded c -> cache_bounded (cache_put nk n c).
Proof.
  unfold cache_bounded, cache_put. intros Hb. case_decide as Hz; [done|]. cbn. intros Hc.
  specialize (Hb Hc). set (k := nodeKey_encode nk) in *.
  destruct (nc_m c !! k) as [e|] eqn:E.
  - rewrite decide_False by naive_solver. rewrite map_size_insert_Some by eauto. done.
  - case_decide as Hfull.
    + assert (nc_m c ≠ ∅) as Hne by (intros E0; rewrite E0, map_size_empty in Hfull; lia).
      destruct (oldest_spec _ Hne) as (e & Ho & _).
      rewrite map_size_insert_None.
      * rewrite map_size_delete_Some by eauto.
        assert (size (nc_m c) ≠ 0) by (intros ?%map_size_empty_inv; done). lia.
      * apply lookup_delete_None. auto.
    + rewrite map_size_insert_None by done.
      apply not_and_l in Hfull as [?|?]; [done|lia].
Qed.

(** Everything the cache holds satisfies a per-entry predicate: reading keeps
    it, inserting keeps it for an entry that satisfies it. *)
Definition cache_all (P : bytes -> node -> Prop) (c : nodeCache) : Prop :=
  ∀ k e, nc_m c !! k = Some e -> P k (ce_node e).

Lemma cache_get_some P nk c n :
  cache_all P c -> (cache_get nk c).1 = Some n -> P (nodeKey_encode nk) n.
Proof. unfold cache_get. intros Hall. case_match eqn:E; [|done]. intros [= <-]. eauto. Qed.

Lemma cache_get_all P nk c : cache_all P c -> cache_all P (cache_get nk c).2.
Proof.
  unfold cache_get. intros Hall. case_match eqn:E; [|done]. intros k e'. cbn.
  rewrite lookup_insert. case_decide as Hk; [|by apply Hall].
  subst k. intros [= <-]. cbn. eauto.
Qed.

Lemma cache_put_all P nk n c :
  cache_all P c -> P (nodeKey_encode nk) n -> cache_all P (cache_put nk n c).
Proof.
  unfold cache_put. intros Hall Hn. case_decide; [done|]. intros k e. cbn.
  rewrite lookup_insert. case_decide as Hk; [subst k; by intros [= <-]|].
  case_decide; [rewrite lookup_delete; case_decide; [done|]|]; apply Hall.
Qed.

Lemma cache_clear_all P c : cache_all P (cache_clear c).
Proof. intros k e. cbn. by rewrite lookup_empty. Qed.

Lemma cache_get_put nk n c :
  nc_capacity c ≠ 0%Z -> (cache_get nk (cache_put nk n c)).1 = Some n.
Proof.
  intros Hc. unfold cache_put. rewrite decide_False by done. unfold cache_get. cbn.
  by rewrite lookup_insert_eq.
Qed.

(** Insertion evicts nothing but, at capacity, one least recently used entry. *)
Lemma cache_put_keeps nk n c k e :
  nc_m c !! k = Some e -> k ≠ nodeKey_encode nk ->
  nc_m (cache_put nk n c) !! k = Some e ∨
  (nc_m c !! nodeKey_encode nk = None ∧ (nc_capacity c ≤ Z.of_nat (size (nc_m c)))%Z ∧
   ∀ k' e', nc_m c !! k' = Some e' -> (ce_lastUsed e ≤ ce_lastUsed e')%N).
Proof.
  intros Hk Hne. unfold cache_put. case_decide as Hz; [by left|]. cbn.
  rewrite lookup_insert_ne by done. case_decide as Hfull; [|by left].
  destruct (decide (k = oldest (nc_m c))) as [->|Ho].
  - right. split_and!; [apply Hfull..|].
    assert (nc_m c ≠ ∅) as Hne' by (intros E; by rewrite E, lookup_empty in Hk).
    destruct (oldest_spec _ Hne') as (e0 & He0 & Hmin). by simplify_eq.
  - left. by rewrite lookup_delete_ne.
Qed.
End cache.
