(* ===== verification/Lru.v ===== *)
(** The node cache against a reference: a list in order of use.

    The reference keeps the cached nodes in a list, the most recently used first: a hit
    or an insertion moves its entry to the front, and an insertion of a new key into a
    full cache drops the last entry.  [run_cache_lru] says that the cache of
    [ledger/cache.go], with its access ticks and its eviction scan over a map in any
    order, answers every call as the reference does and holds the same nodes, for as
    long as the 64-bit tick does not wrap. *)

From S2P Require Import Prelude Errors Sha256 Hashing Node Cache.

(** * Calls *)

Inductive cache_call :=
| KGet (nk : nodeKey)
| KPut (nk : nodeKey) (n : node)
| KClear
| KSetCapacity (capacity : Z).

Section calls.
Context `{MR : MapRange}.

(** A call and the answer of a lookup. *)
Definition run_cache_call (call : cache_call) (c : nodeCache) : option node * nodeCache :=
  match call with
  | KGet nk => cache_get nk c
  | KPut nk n => (None, cache_put nk n c)
  | KClear => (None, cache_clear c)
  | KSetCapacity z => (None, cache_setCapacity z c)
  end.

Fixpoint run_cache (calls : list cache_call) (c : nodeCache) : list (option node) * nodeCache :=
  match calls with
  | [] => ([], c)
  | call :: calls' =>
      let '(a, c1) := run_cache_call call c in
      let '(answers, c2) := run_cache calls' c1 in (a :: answers, c2)
  end.
End calls.

(** * The reference *)

(** The nodes by key, the most recently used first. *)
Record lru := Lru { lr_capacity : Z; lr_nodes : list (bytes * node) }.

Definition lru_find (k : bytes) (l : list (bytes * node)) : option node := (list_to_map l : gmap bytes node) !! k.
Definition lru_drop (k : bytes) (l : list (bytes * node)) : list (bytes * node) := filter (λ kn, kn.1 ≠ k) l.
Definition drop_last {A} (l : list A) : list A := take (length l - 1) l.

Definition lru_get (k : bytes) (r : lru) : option node * lru :=
  match lru_find k (lr_nodes r) with
  | None => (None, r)
  | Some n => (Some n, Lru (lr_capacity r) ((k, n) :: lru_drop k (lr_nodes r)))
  end.

Definition lru_put (k : bytes) (n : node) (r : lru) : lru :=
  if decide (lr_capacity r = 0%Z) then r
  else
    let l := lr_nodes r in
    let kept :=
      match lru_find k l with
      | Some _ => lru_drop k l
      | None => if decide (lr_capacity r ≤ Z.of_nat (length l))%Z then drop_last l else l
      end in
    Lru (lr_capacity r) ((k, n) :: kept).

Definition run_lru_call (call : cache_call) (r : lru) : option node * lru :=
  match call with
  | KGet nk => lru_get (nodeKey_encode nk) r
  | KPut nk n => (None, lru_put (nodeKey_encode nk) n r)
  | KClear => (None, Lru (lr_capacity r) [])
  | KSetCapacity z => (None, Lru z [])
  end.

Fixpoint run_lru (calls : list cache_call) (r : lru) : list (option node) * lru :=
  match calls with
  | [] => ([], r)
  | call :: calls' =>
      let '(a, r1) := run_lru_call call r in
      let '(answers, r2) := run_lru calls' r1 in (a :: answers, r2)
  end.

(** * Simulation *)

Definition plain_entry (ke : bytes * cacheEntry) : bytes * node := (ke.1, ce_node ke.2).
Definition more_recent (a b : bytes * cacheEntry) : Prop := (ce_lastUsed b.2 < ce_lastUsed a.2)%N.

(** [el] are the entries of the cache in the order of their ticks. *)
Record by_use (c : nodeCache) (r : lru) (el : list (bytes * cacheEntry)) : Prop := {
  bu_capacity : lr_capacity r = nc_capacity c;
  bu_map : nc_m c = list_to_map el;
  bu_keys : NoDup el.*1;
  bu_sorted : StronglySorted more_recent el;
  bu_tick : Forall (λ ke, (ce_lastUsed ke.2 ≤ nc_tick c)%N) el;
  bu_nodes : lr_nodes r = plain_entry <$> el
}.

Lemma list_to_map_plain (el : list (bytes * cacheEntry)) :
  (list_to_map (plain_entry <$> el) : gmap bytes node) = ce_node <$> (list_to_map el : gmap bytes cacheEntry).
Proof. induction el as [|[k e] el IH]; cbn; [by rewrite fmap_empty|]. by rewrite fmap_insert, IH. Qed.

Lemma insert_filter {A} (el : list (bytes * A)) k x :
  <[k := x]> (list_to_map el : gmap bytes A) = <[k := x]> (list_to_map (filter (λ ke, ke.1 ≠ k) el)).
Proof.
  induction el as [|[k' y] el IH]; [done|]. cbn [list_to_map foldr fst snd]. destruct (decide (k' = k)) as [->|Hne].
  - rewrite filter_cons_False by (intros Hx; by apply Hx). by rewrite insert_insert_eq.
  - rewrite filter_cons_True by done. cbn [list_to_map foldr fst snd]. rewrite !(insert_insert_ne _ k k') by done. by f_equal.
Qed.

Lemma filter_plain k el : lru_drop k (plain_entry <$> el) = plain_entry <$> filter (λ ke, ke.1 ≠ k) el.
Proof.
  unfold lru_drop. induction el as [|[k' e] el IH]; [done|]. cbn [fmap list_fmap]. rewrite !filter_cons.
  cbn [plain_entry fst]. case_decide; cbn [fmap list_fmap]; by rewrite <-IH.
Qed.

(** Putting an entry with the next tick in front. *)
Lemma by_use_front (el : list (bytes * cacheEntry)) k t :
  NoDup el.*1 -> k ∉ el.*1 -> StronglySorted more_recent el -> Forall (λ ke, (ce_lastUsed ke.2 ≤ t)%N) el ->
  ∀ n, let el' := (k, CacheEntry n (t + 1)) :: el in
  NoDup el'.*1 ∧ StronglySorted more_recent el' ∧ Forall (λ ke, (ce_lastUsed ke.2 ≤ t + 1)%N) el'.
Proof.
  intros Hnd Hk Hs Ht n el'. split_and!.
  - by constructor.
  - constructor; [done|]. eapply Forall_impl; [exact Ht|]. intros ke Hle. unfold more_recent. cbn in *. lia.
  - constructor; [done|]. eapply Forall_impl; [exact Ht|]. intros ke Hle. cbn in *. lia.
Qed.

Lemma filter_by_use (el : list (bytes * cacheEntry)) k t :
  NoDup el.*1 -> StronglySorted more_recent el -> Forall (λ ke, (ce_lastUsed ke.2 ≤ t)%N) el ->
  let el' := filter (λ ke, ke.1 ≠ k) el in
  NoDup el'.*1 ∧ k ∉ el'.*1 ∧ StronglySorted more_recent el' ∧ Forall (λ ke, (ce_lastUsed ke.2 ≤ t)%N) el'.
Proof.
  intros Hnd Hs Ht el'. split_and!.
  - eapply sublist_NoDup; [exact Hnd|]. apply fmap_sublist, sublist_filter.
  - intros ([k' e] & -> & [Hne _]%list_elem_of_filter)%list_elem_of_fmap. by apply Hne.
  - by apply StronglySorted_filter.
  - rewrite Forall_forall in Ht |- *. intros ke [_ Hin]%list_elem_of_filter. by apply Ht.
Qed.

Section simulation.
Context `{MR : MapRange}.
Implicit Types (c : nodeCache) (r : lru).

(** The scan finds the last entry of the list. *)
Lemma oldest_last c r el x : by_use c r (el ++ [x]) -> oldest (nc_m c) = x.1.
Proof.
  intros [_ Em Hnd Hs _ _].
  assert (nc_m c !! x.1 = Some x.2) as Hx.
  { rewrite Em. apply elem_of_list_to_map_1; [done|]. apply elem_of_app. right. destruct x. left. }
  destruct (oldest_spec (nc_m c)) as (e & He & Hmin); [intros E0; by rewrite E0, lookup_empty in Hx|].
  specialize (Hmin _ _ Hx). rewrite Em in He. apply elem_of_list_to_map_2, elem_of_app in He as [He|He].
  - exfalso. apply StronglySorted_app in Hs as (Hs & _ & _).
    specialize (Hs _ x He ltac:(left)). unfold more_recent in Hs. cbn in Hs. lia.
  - apply list_elem_of_singleton, (f_equal fst) in He. by rewrite Em.
Qed.

Lemma find_by_use c r el k : by_use c r el -> lru_find k (lr_nodes r) = ce_node <$> nc_m c !! k.
Proof. intros [_ Em _ _ _ En]. unfold lru_find. by rewrite En, list_to_map_plain, lookup_fmap, Em. Qed.

Lemma get_by_use nk c r el :
  is_u64 (nc_tick c + 1) -> by_use c r el ->
  (cache_get nk c).1 = (lru_get (nodeKey_encode nk) r).1 ∧
  ∃ el', by_use (cache_get nk c).2 (lru_get (nodeKey_encode nk) r).2 el'.
Proof.
  intros Hu Hb. unfold cache_get, lru_get. rewrite (find_by_use c r el) by done. rewrite (wrap64_small _ Hu).
  set (k := nodeKey_encode nk). destruct Hb as [Ec Em Hnd Hs Ht En].
  destruct (nc_m c !! k) as [e|] eqn:Ek; cbn [fmap option_fmap option_map fst snd]; (split; [done|]).
  - destruct (filter_by_use el k (nc_tick c) Hnd Hs Ht) as (F1 & F2 & F3 & F4).
    destruct (by_use_front _ k (nc_tick c) F1 F2 F3 F4 (ce_node e)) as (G1 & G2 & G3).
    eexists. split; cbn [nc_capacity nc_tick nc_m lr_capacity lr_nodes]; [done| |exact G1|exact G2|exact G3|].
    + rewrite Em, insert_filter. done.
    + rewrite En, filter_plain. done.
  - exists el. split; try done. eapply Forall_impl; [exact Ht|]. cbn. intros; lia.
Qed.

(** Dropping the entry of the oldest tick is dropping the last one. *)
Lemma evict_by_use c r el :
  by_use c r el ->
  delete (oldest (nc_m c)) (nc_m c) = list_to_map (drop_last el) ∧ drop_last (lr_nodes r) = plain_entry <$> drop_last el.
Proof.
  intros Hb. split; [|unfold drop_last; by rewrite (bu_nodes _ _ _ Hb), length_fmap, fmap_take].
  destruct el as [|x el _] using rev_ind.
  { rewrite (bu_map _ _ _ Hb). apply delete_id. done. }
  rewrite (oldest_last c r el x) by done. destruct Hb as [_ Em Hnd _ _ _]. rewrite Em. unfold drop_last.
  rewrite length_app, Nat.add_sub, take_app_length. destruct x as [k e]. cbn [fst]. rewrite fmap_app in Hnd.
  apply NoDup_app in Hnd as (_ & Hx & _). rewrite (list_to_map_snoc (M := gmap bytes)).
  - rewrite delete_insert_id; [done|]. apply not_elem_of_list_to_map_1. intros Hin. apply (Hx k Hin). left.
  - intros Hin. apply (Hx k Hin). left.
Qed.

Lemma put_by_use nk n c r el :
  is_u64 (nc_tick c + 1) -> by_use c r el ->
  ∃ el', by_use (cache_put nk n c) (lru_put (nodeKey_encode nk) n r) el'.
Proof.
  intros Hu Hb. unfold cache_put, lru_put. rewrite (find_by_use c r el) by done. rewrite (wrap64_small _ Hu).
  set (k := nodeKey_encode nk). pose proof (evict_by_use _ _ _ Hb) as [Ev1 Ev2]. destruct Hb as [Ec Em Hnd Hs Ht En]. rewrite Ec.
  assert (length (lr_nodes r) = size (nc_m c)) as El.
  { rewrite En, Em, length_fmap. rewrite (map_size_list_to_map el) by done. done. }
  case_decide; [by exists el|]. destruct (nc_m c !! k) as [e|] eqn:Ek; cbn [fmap option_fmap option_map].
  - rewrite decide_False by naive_solver. destruct (filter_by_use el k (nc_tick c) Hnd Hs Ht) as (F1 & F2 & F3 & F4).
    destruct (by_use_front _ k (nc_tick c) F1 F2 F3 F4 n) as (G1 & G2 & G3).
    eexists. split; cbn [nc_capacity nc_tick nc_m lr_capacity lr_nodes]; [done| |exact G1|exact G2|exact G3|].
    + rewrite Em, insert_filter. done.
    + rewrite En, filter_plain. done.
  - assert (k ∉ el.*1) as Hk by (apply not_elem_of_list_to_map; congruence). rewrite El.
    destruct (decide (nc_capacity c ≤ Z.of_nat (size (nc_m c)))%Z) as [Hfull|Hroom].
    + rewrite decide_True by done.
      assert (drop_last el `sublist_of` el) as Hsub by apply sublist_take.
      destruct (by_use_front (drop_last el) k (nc_tick c)) with (n := n) as (G1 & G2 & G3).
      { eapply sublist_NoDup; [done|by apply fmap_sublist]. }
      { intros Hin. apply Hk. eapply elem_of_submseteq; [exact Hin|]. by apply sublist_submseteq, fmap_sublist. }
      { unfold drop_last. rewrite <-(take_drop (length el - 1) el) in Hs. by apply StronglySorted_app in Hs as (_ & ? & _). }
      { by apply Forall_take. }
      eexists. split; cbn [nc_capacity nc_tick nc_m lr_capacity lr_nodes]; [done| |exact G1|exact G2|exact G3|].
      * by rewrite Ev1.
      * by rewrite Ev2.
    + rewrite decide_False by tauto. destruct (by_use_front el k (nc_tick c) Hnd Hk Hs Ht n) as (G1 & G2 & G3).
      eexists. split; cbn [nc_capacity nc_tick nc_m lr_capacity lr_nodes]; [done| |exact G1|exact G2|exact G3|].
      * by rewrite Em.
      * by rewrite En.
Qed.

Lemma call_by_use call c r el :
  is_u64 (nc_tick c + 1) -> by_use c r el ->
  (run_cache_call call c).1 = (run_lru_call call r).1 ∧
  (∃ el', by_use (run_cache_call call c).2 (run_lru_call call r).2 el') ∧
  (nc_tick (run_cache_call call c).2 ≤ nc_tick c + 1)%N.
Proof.
  intros Hu Hb. destruct call as [nk|nk n| |z]; cbn [run_cache_call run_lru_call fst snd].
  - destruct (get_by_use nk c r el Hu Hb) as [Ea Hb']. split_and!; [done..|].
    unfold cache_get. rewrite (wrap64_small _ Hu). by case_match.
  - split_and!; [done|by eapply put_by_use|]. unfold cache_put. rewrite (wrap64_small _ Hu). case_decide; cbn; lia.
  - split_and!; [done| |cbn; lia]. exists []. split; try done; [apply Hb|constructor..].
  - split_and!; [done| |cbn; lia]. exists []. split; try done; constructor.
Qed.

(** Any number of calls, before the tick wraps. *)
Lemma run_cache_lru calls c r el :
  is_u64 (nc_tick c + N.of_nat (length calls)) -> by_use c r el ->
  (run_cache calls c).1 = (run_lru calls r).1 ∧ ∃ el', by_use (run_cache calls c).2 (run_lru calls r).2 el'.
Proof.
  revert c r el. induction calls as [|call calls IH]; intros c r el Hu Hb; [by split; [|exists el]|].
  cbn [run_cache run_lru length] in *. unfold is_u64 in Hu, IH.
  destruct (call_by_use call c r el ltac:(unfold is_u64; lia) Hb) as (Ea & [el1 Hb1] & Ht).
  destruct (run_cache_call call c) as [a c1], (run_lru_call call r) as [a' r1]. cbn [fst snd] in *. subst a'.
  destruct (IH c1 r1 el1 ltac:(lia) Hb1) as [Eas Hb2].
  destruct (run_cache calls c1) as [as1 c2], (run_lru calls r1) as [as2 r2]. cbn [fst snd] in *. by rewrite Eas.
Qed.

(** ** The bound *)

Lemma run_cache_bounded calls c : cache_bounded c -> cache_bounded (run_cache calls c).2.
Proof.
  revert c. induction calls as [|call calls IH]; intros c Hb; cbn [run_cache]; [done|].
  assert (cache_bounded (run_cache_call call c).2) as Hb1.
  { destruct call as [nk|nk n| |z]; cbn; [by apply cache_get_bounded|by apply cache_put_bounded|intros Hc; exact Hc..]. }
  destruct (run_cache_call call c) as [a c1]. specialize (IH c1 Hb1). by destruct (run_cache calls c1).
Qed.
End simulation.
