(* ===== verification/Aead.v ===== *)
(** Authenticated encryption of records: [ledger/aead.go].

    [GCM] is AES-256-GCM as [crypto/cipher] provides it: sealing appends the
    ciphertext and the 16-byte tag, opening returns the plaintext or fails.
    [GCMSpec] states the two documented facts the ledger relies on: opening what
    was sealed under the same key, nonce and additional data gives the plaintext
    back, and sealing adds exactly the tag.  The instance the program runs with is
    in [AesGcm.v].  [Entropy] is [crypto/rand]: an unpredictable stream of which
    the model only knows that each read has the requested length or fails. *)

From S2P Require Import Prelude Errors Sha256.

Definition KeySize : nat := 32.
Definition aeadNonceSize : nat := 12.
Definition aeadTagSize : nat := 16.

Class GCM := {
  gcm_seal : bytes32 -> bytes -> bytes -> bytes -> bytes;
  gcm_open : bytes32 -> bytes -> bytes -> bytes -> option bytes
}.

Class GCMSpec `{GCM} := {
  gcm_open_seal : ∀ key nonce plaintext aad,
    length nonce = aeadNonceSize ->
    gcm_open key nonce (gcm_seal key nonce plaintext aad) aad = Some plaintext;
  gcm_seal_length : ∀ key nonce plaintext aad,
    length (gcm_seal key nonce plaintext aad) = length plaintext + aeadTagSize
}.

(** The [i]-th read of the entropy source: 12 bytes, or a failure. *)
Class Entropy := rand_read : nat -> option bytes.
(** [crypto/rand] does not fail. *)
Class EntropyLive `{Entropy} := rand_live : ∀ i, is_Some (rand_read i).

Definition pad_nonce (l : bytes) : bytes :=
  take aeadNonceSize (l ++ replicate aeadNonceSize Init.Byte.x00).

Lemma length_pad_nonce l : length (pad_nonce l) = aeadNonceSize.
Proof. unfold pad_nonce. rewrite length_take, length_app, length_replicate. unfold aeadNonceSize. lia. Qed.

Section aead.
Context `{G : GCM} `{E : Entropy}.

(** [nonce ‖ ciphertext ‖ tag] with the nonce of read [i]. *)
Definition aead_encrypt (key : bytes32) (i : nat) (plaintext aad : bytes) : outcome bytes :=
  match rand_read i with
  | None => Err (errCorrupted "aead nonce: %v")
  | Some r => let nonce := pad_nonce r in Ok (nonce ++ gcm_seal key nonce plaintext aad)
  end.

Definition aead_decrypt (key : bytes32) (record aad : bytes) : outcome bytes :=
  if decide (length record < aeadNonceSize + aeadTagSize) then
    Err (errCorrupted "aead record too short")
  else
    match gcm_open key (take aeadNonceSize record) (drop aeadNonceSize record) aad with
    | None => Err (errCorrupted "aead open failed")
    | Some pt => Ok pt
    end.

Lemma aead_decrypt_encrypt `{!GCMSpec} key i pt aad r :
  aead_encrypt key i pt aad = Ok r -> aead_decrypt key r aad = Ok pt.
Proof.
  unfold aead_encrypt. destruct (rand_read i) as [x|]; [|done]. intros [= <-].
  unfold aead_decrypt. rewrite decide_False.
  - rewrite take_app_ge_len, drop_app_ge_len by apply length_pad_nonce.
    by rewrite gcm_open_seal by apply length_pad_nonce.
  - rewrite length_app, length_pad_nonce, gcm_seal_length. lia.
Qed.
End aead.
