(* ===== verification/AesGcm.v ===== *)
(** AES-256-GCM, as [crypto/aes] and [crypto/cipher] provide it to
    [ledger/aead.go]: the block cipher of FIPS 197 with a 256-bit key, counter
    mode and GHASH of NIST SP 800-38D with 96-bit nonces and 128-bit tags.

    Blocks are lists of sixteen bytes as numbers, in the byte order of the
    standards; the field of GHASH is written on 128-bit numbers.  The instance
    satisfies [GCMSpec], which is what the store's theorems assume of the cipher,
    and is checked on published test vectors. *)

From S2P Require Import Prelude Errors Sha256 Aead.

Module AES.
Local Open Scope N_scope.

(** ** The field of the block cipher, modulo x^8 + x^4 + x^3 + x + 1 *)

Definition xtime (a : N) : N :=
  let b := N.shiftl a 1 in if N.testbit b 8 then N.lxor b 0x11b else b.

Fixpoint gmul_bits (n : nat) (a b : N) : N :=
  match n with
  | O => 0
  | S n' => N.lxor (if N.odd b then a else 0) (gmul_bits n' (xtime a) (N.shiftr b 1))
  end.
Definition gmul (a b : N) : N := gmul_bits 8 a b.

(** The inverse is the 254th power; zero maps to zero. *)
Definition ginv (a : N) : N := Nat.iter 253 (gmul a) a.

Definition rotl8 (k a : N) : N := N.land (N.lor (N.shiftl a k) (N.shiftr a (8 - k))) 0xff.
Definition affine (a : N) : N :=
  foldr (λ k acc, N.lxor (rotl8 k a) acc) (N.lxor a 0x63) [1; 2; 3; 4].

Definition sbox_table : list N :=
  Eval vm_compute in (λ i, affine (ginv (N.of_nat i))) <$> seq 0 256.
Definition sub_byte (a : N) : N := nth (N.to_nat a) sbox_table 0.

(** ** Key expansion: sixty words of four bytes *)

Definition xor_list (a b : list N) : list N := zip_with N.lxor a b.

Definition rot_word (w : list N) : list N := match w with [] => [] | x :: r => r ++ [x] end.

(** [window] holds the last eight words, oldest first; [i] is the index of the
    next word. *)
Fixpoint expand (n : nat) (i : nat) (rcon : N) (window : list (list N)) : list (list N) :=
  match n with
  | O => []
  | S n' =>
      let first := default [] (head window) in
      let prev := default [] (last window) in
      let m := Nat.modulo i 8 in
      let t := if (m =? 0)%nat then
                 match sub_byte <$> rot_word prev with
                 | x :: r => N.lxor x rcon :: r
                 | [] => []
                 end
               else if (m =? 4)%nat then sub_byte <$> prev else prev in
      let w := xor_list first t in
      w :: expand n' (S i) (if (m =? 0)%nat then xtime rcon else rcon) (tail window ++ [w])
  end.

Fixpoint words (n : nat) (l : list N) : list (list N) :=
  match n with O => [] | S n' => take 4 l :: words n' (drop 4 l) end.

Definition schedule (key : bytes) : list (list N) :=
  let ws := words 8 (bn <$> key) in ws ++ expand 52 8 1 ws.

(** Round key [r] as sixteen bytes. *)
Definition round_key (ks : list (list N)) (r : nat) : list N := concat (take 4 (drop (4 * r) ks)).

(** ** Rounds on a column-major state *)

Definition shift_rows (s : list N) : list N :=
  (λ i : nat, nth (Nat.modulo (i + 4 * Nat.modulo i 4) 16) s 0) <$> seq 0 16.

Definition mix_column (c : list N) : list N :=
  match c with
  | [a; b; c; d] =>
      let f x y z w := N.lxor (N.lxor (xtime x) (N.lxor (xtime y) y)) (N.lxor z w) in
      [f a b c d; f b c d a; f c d a b; f d a b c]
  | _ => []
  end.
Definition mix_columns (s : list N) : list N := concat (mix_column <$> words 4 s).

Fixpoint rounds (n r : nat) (ks : list (list N)) (s : list N) : list N :=
  match n with
  | O => s
  | S n' =>
      let s := shift_rows (sub_byte <$> s) in
      let s := match n' with O => s | _ => mix_columns s end in
      rounds n' (S r) ks (xor_list s (round_key ks r))
  end.

Definition encrypt_block (ks : list (list N)) (block : list N) : list N :=
  rounds 14 1 ks (xor_list block (round_key ks 0)).
End AES.

Module GCMode.
Local Open Scope N_scope.

(** ** GHASH: the field of 128-bit strings, most significant bit first *)

Definition block_N (l : list N) : N := foldl (λ a b, a * 256 + b) 0 l.
Fixpoint N_block (n : nat) (x : N) : list N :=
  match n with O => [] | S n' => N_block n' (x / 256) ++ [x mod 256] end.

Fixpoint fmul_bits (n : nat) (x v z : N) : N :=
  match n with
  | O => z
  | S n' =>
      let z := if N.testbit x (N.of_nat n') then N.lxor z v else z in
      let v := if N.odd v then N.lxor (N.shiftr v 1) (N.shiftl 0xe1 120) else N.shiftr v 1 in
      fmul_bits n' x v z
  end.
Definition fmul (x y : N) : N := fmul_bits 128 x y 0.

(** Fold sixteen-byte blocks, the last one padded with zeros. *)
Fixpoint ghash_blocks (fuel : nat) (h : N) (l : list N) (acc : N) : N :=
  match fuel, l with
  | S fuel', _ :: _ =>
      let blk := take 16 (take 16 l ++ replicate 16 0) in
      ghash_blocks fuel' h (drop 16 l) (fmul (N.lxor acc (block_N blk)) h)
  | _, _ => acc
  end.

Definition ghash (h : N) (aad ct : list N) : N :=
  let acc := ghash_blocks (length aad) h aad 0 in
  let acc := ghash_blocks (length ct) h ct acc in
  fmul (N.lxor acc (N.lor (N.shiftl (8 * N.of_nat (length aad)) 64) (8 * N.of_nat (length ct)))) h.

(** ** Counter mode *)

Definition counter_block (nonce : list N) (i : N) : list N := nonce ++ N_block 4 (i mod 2 ^ 32).

Fixpoint keystream (blocks : nat) (ks : list (list N)) (nonce : list N) (i : N) : list N :=
  match blocks with
  | O => []
  | S n => AES.encrypt_block ks (counter_block nonce i) ++ keystream n ks nonce (i + 1)
  end.

(** Exactly [n] bytes of key stream, from counter 2. *)
Definition stream (ks : list (list N)) (nonce : list N) (n : nat) : bytes :=
  take n ((u8 <$> keystream (Nat.div (n + 15) 16) ks nonce 2) ++ replicate n Init.Byte.x00).
End GCMode.

Definition xor_bytes (a b : bytes) : bytes := zip_with (λ x y, u8 (N.lxor (bn x) (bn y))) a b.

Section gcm.
Import GCMode.

Definition gctr (ks : list (list N)) (nonce data : bytes) : bytes :=
  xor_bytes data (stream ks (bn <$> nonce) (length data)).

Definition gcm_tag (ks : list (list N)) (nonce aad ct : bytes) : bytes :=
  let h := block_N (AES.encrypt_block ks (replicate 16 0%N)) in
  let mask := block_N (AES.encrypt_block ks (counter_block (bn <$> nonce) 1)) in
  u8 <$> N_block 16 (N.lxor (ghash h (bn <$> aad) (bn <$> ct)) mask).

Definition aes_gcm_seal (key : bytes32) (nonce plaintext aad : bytes) : bytes :=
  let ks := AES.schedule (b32 key) in
  let ct := gctr ks nonce plaintext in ct ++ gcm_tag ks nonce aad ct.

Definition aes_gcm_open (key : bytes32) (nonce record aad : bytes) : option bytes :=
  if decide (length record < aeadTagSize) then None
  else
    let ks := AES.schedule (b32 key) in
    let ct := take (length record - aeadTagSize) record in
    if decide (gcm_tag ks nonce aad ct = drop (length record - aeadTagSize) record)
    then Some (gctr ks nonce ct) else None.
End gcm.

Definition aes_gcm : GCM := {| gcm_seal := aes_gcm_seal; gcm_open := aes_gcm_open |}.

(** * The laws the ledger relies on *)

Lemma length_stream ks nonce n : length (GCMode.stream ks nonce n) = n.
Proof. unfold GCMode.stream. rewrite length_take, length_app, length_replicate. lia. Qed.

Lemma length_xor_bytes a b : length a = length b -> length (xor_bytes a b) = length a.
Proof. intros Hl. unfold xor_bytes. rewrite length_zip_with. lia. Qed.

Lemma xor_bytes_twice a b : length a = length b -> xor_bytes (xor_bytes a b) b = a.
Proof.
  revert b. induction a as [|x a IH]; intros [|y b] Hl; try done. cbn. f_equal.
  - apply (inj bn). rewrite !bn_u8.
    assert (∀ p q, (p < 256)%N -> (q < 256)%N -> (N.lxor p q < 256)%N) as Hx.
    { intros p q Hp Hq. destruct (N.eq_dec (N.lxor p q) 0) as [->|Hne]; [done|].
      change 256%N with (2 ^ 8)%N in *. apply N.log2_lt_pow2; [lia|].
      eapply N.le_lt_trans; [apply N.log2_lxor|].
      destruct (N.eq_dec p 0) as [->|], (N.eq_dec q 0) as [->|]; cbn;
        rewrite ?N.max_0_l, ?N.max_0_r; try (apply N.max_lub_lt); try apply N.log2_lt_pow2; lia. }
    rewrite (N.mod_small (N.lxor (bn x) (bn y))) by (apply Hx; apply bn_lt).
    rewrite N.lxor_assoc, N.lxor_nilpotent, N.lxor_0_r. apply N.mod_small, bn_lt.
  - apply IH. by injection Hl.
Qed.

Lemma length_N_block n x : length (GCMode.N_block n x) = n.
Proof. revert x. induction n as [|n IH]; intros x; [done|]. cbn. rewrite length_app, IH. cbn. lia. Qed.

Lemma length_gctr ks nonce data : length (gctr ks nonce data) = length data.
Proof. unfold gctr. rewrite length_xor_bytes by (by rewrite length_stream). done. Qed.

Lemma length_gcm_tag ks nonce aad ct : length (gcm_tag ks nonce aad ct) = aeadTagSize.
Proof. unfold gcm_tag. by rewrite length_fmap, length_N_block. Qed.

Lemma gctr_twice ks nonce data : gctr ks nonce (gctr ks nonce data) = data.
Proof.
  unfold gctr at 1. rewrite length_gctr. unfold gctr. apply xor_bytes_twice. by rewrite length_stream.
Qed.

#[export] Instance aes_gcm_spec : @GCMSpec aes_gcm.
Proof.
  split; intros key nonce pt aad; cbn [gcm_seal gcm_open aes_gcm]; unfold aes_gcm_seal, aes_gcm_open;
    set (ks := AES.schedule _); rewrite length_app, length_gcm_tag, length_gctr; [|done].
  intros _. rewrite decide_False by lia. replace (length pt + aeadTagSize - aeadTagSize) with (length pt) by lia.
  rewrite take_app_ge_len, drop_app_ge_len by apply length_gctr.
  rewrite decide_True by done. by rewrite gctr_twice.
Qed.

(** * Test vectors *)

Example aes256_fips197 :
  AES.encrypt_block (AES.schedule (u8 <$> (N.of_nat <$> seq 0 32))) ((λ i, N.of_nat i * 17)%N <$> seq 0 16) =
  [0x8e; 0xa2; 0xb7; 0xca; 0x51; 0x67; 0x45; 0xbf; 0xea; 0xfc; 0x49; 0x90; 0x4b; 0x49; 0x60; 0x89]%N.
Proof. vm_compute. reflexivity. Qed.

Example gcm_empty :
  bn <$> aes_gcm_seal (copy32 []) (replicate 12 Init.Byte.x00) [] [] =
  [0x53; 0x0f; 0x8a; 0xfb; 0xc7; 0x45; 0x36; 0xb9; 0xa9; 0x63; 0xb4; 0xf1; 0xc4; 0xcb; 0x73; 0x8b]%N.
Proof. vm_compute. reflexivity. Qed.

Example gcm_one_block :
  bn <$> aes_gcm_seal (copy32 []) (replicate 12 Init.Byte.x00) (replicate 16 Init.Byte.x00) [] =
  [0xce; 0xa7; 0x40; 0x3d; 0x4d; 0x60; 0x6b; 0x6e; 0x07; 0x4e; 0xc5; 0xd3; 0xba; 0xf3; 0x9d; 0x18;
   0xd0; 0xd1; 0xc8; 0xa7; 0x99; 0x99; 0x6b; 0xf0; 0x26; 0x5b; 0x98; 0xb5; 0xd4; 0x8a; 0xb9; 0x19]%N.
Proof. vm_compute. reflexivity. Qed.

Example gcm_with_aad :
  aes_gcm_seal (copy32 (hex "feffe9928665731c6d6a8f9467308308feffe9928665731c6d6a8f9467308308"))
    (hex "cafebabefacedbaddecaf888")
    (hex "d9313225f88406e5a55909c5aff5269a86a7a9531534f7da2e4c303d8a318a721c3c0c95956809532fcf0e2449a6b525b16aedf5aa0de657ba637b39")
    (hex "feedfacedeadbeeffeedfacedeadbeefabaddad2") =
  hex "522dc1f099567d07f47f37a32a84427d643a8cdcbfe5c0c97598a2bd2555d1aa8cb08e48590dbb3da7b08b1056828838c5f61e6393ba7a0abcc9f66276fc6ece0f4e1768cddf8853bb2d551b".
Proof. vm_compute. reflexivity. Qed.
