(* ===== verification/Store.v ===== *)
(** The store: state and operations of [ledger/store.go].

    [Store B] is the Go struct over a storage state [B]; its methods are monadic
    computations [M (Store B)], written in the order of the source, errors
    included.  The recursions of the tree descend one nibble per step from a depth
    of at most 64, so they recurse on the number of nibbles left; the zero case on
    an internal node is Go's index-out-of-range panic on the 65th nibble. *)

From S2P Require Import Prelude Errors Sha256 Hashing Node Aead Backend Cache.

(** * Record keys *)

Definition recNode : byte := u8 110.        (* 'n' *)
Definition recValue : byte := u8 118.       (* 'v' *)
Definition recStale : byte := u8 115.       (* 's' *)
Definition recRoot : byte := u8 114.        (* 'r' *)
Definition recCheckpoint : byte := u8 99.   (* 'c' *)

Definition hmacTagPath : bytes := str "p".
Definition hmacTagValue : bytes := str "v".
Definition valueAADTag : bytes := str "enclave_os_merkle_val".
Definition checkpointAAD : bytes := str "enclave_os_merkle_ckpt".
Definition ckptMACLabel : bytes := str "immutable-ledger:ckpt-mac:v1".
Definition reservedKeyPrefix : bytes := u8 0 :: str "immutable-ledger:".
Definition ckptFlagHistory : N := 1.

(** The reserved key of the history head ([audit.go]). *)
Definition HistoryKey : bytes := u8 0 :: str "immutable-ledger:history-head".
Definition historyChainTag : bytes := str "immutable-ledger:history:v1".

Definition nodeRecordKey (nk : nodeKey) : bytes := recNode :: nodeKey_encode nk.
Definition valueRecordKey (vh : Hash) (valueVersion : N) : bytes :=
  recValue :: b32 vh ++ be 8 valueVersion.
Definition staleRecordKey (staleSince : N) (target : bytes) : bytes :=
  recStale :: be 8 staleSince ++ target.
Definition rootRecordKey (version : N) : bytes := recRoot :: be 8 version.
Definition checkpointRecordKey : bytes := [recCheckpoint].

Definition valueAAD (path : Hash) : bytes := valueAADTag ++ b32 path.

(** * Data *)

Record Op := MkOp { op_Key : bytes; op_Value : bytes; op_Delete : bool }.
Definition Put (key value : bytes) : Op := MkOp key value false.
Definition Del (key : bytes) : Op := MkOp key [] true.

Record PruneStats := MkPruneStats {
  StaleEntries : nat; RecordsDeleted : nat; RootRecordsDeleted : nat }.

Definition defaultCacheCapacity : Z := 1024.
Definition pruneChunk : N := 512.

(** [s_rng] is the number of reads made so far from the process's entropy source;
    every other field is the Go struct's.  [s_cipher] holds the storage key the
    AEAD was built from. *)
Record Store (B : Type) := MkStore {
  s_backend : B;
  s_ck : bytes;
  s_cipher : option bytes32;
  s_ckptMAC : bytes;
  s_root : Hash;
  s_version : N;
  s_rootChild : option child;
  s_cache : nodeCache;
  s_snapshotPin : option N;
  s_history : bool;
  s_wantHistory : bool;
  s_historyHead : Hash;
  s_rng : nat
}.
Arguments MkStore {B}.
Arguments s_backend {B}. Arguments s_ck {B}. Arguments s_cipher {B}. Arguments s_ckptMAC {B}.
Arguments s_root {B}. Arguments s_version {B}. Arguments s_rootChild {B}. Arguments s_cache {B}.
Arguments s_snapshotPin {B}. Arguments s_history {B}. Arguments s_wantHistory {B}.
Arguments s_historyHead {B}. Arguments s_rng {B}.

(** Field updates. *)
Section setters.
Context {B : Type}.
Implicit Types s : Store B.
Definition set_backend (b : B) s : Store B :=
  MkStore b (s_ck s) (s_cipher s) (s_ckptMAC s) (s_root s) (s_version s) (s_rootChild s)
    (s_cache s) (s_snapshotPin s) (s_history s) (s_wantHistory s) (s_historyHead s) (s_rng s).
Definition set_cache (c : nodeCache) s : Store B :=
  MkStore (s_backend s) (s_ck s) (s_cipher s) (s_ckptMAC s) (s_root s) (s_version s) (s_rootChild s)
    c (s_snapshotPin s) (s_history s) (s_wantHistory s) (s_historyHead s) (s_rng s).
Definition set_rng (r : nat) s : Store B :=
  MkStore (s_backend s) (s_ck s) (s_cipher s) (s_ckptMAC s) (s_root s) (s_version s) (s_rootChild s)
    (s_cache s) (s_snapshotPin s) (s_history s) (s_wantHistory s) (s_historyHead s) r.
Definition set_head (root : Hash) (version : N) (rc : option child) s : Store B :=
  MkStore (s_backend s) (s_ck s) (s_cipher s) (s_ckptMAC s) root version rc
    (s_cache s) (s_snapshotPin s) (s_history s) (s_wantHistory s) (s_historyHead s) (s_rng s).
Definition set_pin (p : option N) s : Store B :=
  MkStore (s_backend s) (s_ck s) (s_cipher s) (s_ckptMAC s) (s_root s) (s_version s) (s_rootChild s)
    (s_cache s) p (s_history s) (s_wantHistory s) (s_historyHead s) (s_rng s).
Definition set_history (on : bool) s : Store B :=
  MkStore (s_backend s) (s_ck s) (s_cipher s) (s_ckptMAC s) (s_root s) (s_version s) (s_rootChild s)
    (s_cache s) (s_snapshotPin s) on (s_wantHistory s) (s_historyHead s) (s_rng s).
Definition set_historyHead (h : Hash) s : Store B :=
  MkStore (s_backend s) (s_ck s) (s_cipher s) (s_ckptMAC s) (s_root s) (s_version s) (s_rootChild s)
    (s_cache s) (s_snapshotPin s) (s_history s) (s_wantHistory s) h (s_rng s).
End setters.

Record storeOptions := MkOptions { o_sk : option bytes32; o_history : bool }.
Definition WithStorageKey (sk : bytes32) (o : storeOptions) : storeOptions :=
  MkOptions (Some sk) (o_history o).
Definition WithHistoryChain (o : storeOptions) : storeOptions := MkOptions (o_sk o) true.

(** One deduplicated change: [Some vh] inserts or overwrites, [None] deletes. *)
Record update := Update { u_path : Hash; u_vh : option Hash }.

Record pendingNode := PendingNode { pn_nk : nodeKey; pn_n : node }.

Record commitAcc := CommitAcc {
  a_newVersion : N;
  a_pending : gmap bytes pendingNode;
  a_stale : list bytes;
  a_insertCTs : gmap Hash bytes;
  a_values : gmap Hash bytes;
  a_newHead : option Hash
}.

Definition acc_pending (p : gmap bytes pendingNode) (a : commitAcc) : commitAcc :=
  CommitAcc (a_newVersion a) p (a_stale a) (a_insertCTs a) (a_values a) (a_newHead a).
Definition acc_stale (l : list bytes) (a : commitAcc) : commitAcc :=
  CommitAcc (a_newVersion a) (a_pending a) l (a_insertCTs a) (a_values a) (a_newHead a).
Definition acc_insertCTs (m : gmap Hash bytes) (a : commitAcc) : commitAcc :=
  CommitAcc (a_newVersion a) (a_pending a) (a_stale a) m (a_values a) (a_newHead a).
Definition acc_values (m : gmap Hash bytes) (a : commitAcc) : commitAcc :=
  CommitAcc (a_newVersion a) (a_pending a) (a_stale a) (a_insertCTs a) m (a_newHead a).
Definition acc_newHead (h : Hash) (a : commitAcc) : commitAcc :=
  CommitAcc (a_newVersion a) (a_pending a) (a_stale a) (a_insertCTs a) (a_values a) (Some h).

Definition newAcc (newVersion : N) : commitAcc := CommitAcc newVersion ∅ [] ∅ ∅ None.

(** Retire a node: drop it when this commit wrote it, mark it stale otherwise. *)
Definition staleNode (nk : nodeKey) (acc : commitAcc) : commitAcc :=
  if decide (nk_version nk = a_newVersion acc)
  then acc_pending (delete (nodeKey_encode nk) (a_pending acc)) acc
  else acc_stale (a_stale acc ++ [nodeRecordKey nk]) acc.

(** Add a node this commit writes. *)
Definition add_pending (nk : nodeKey) (n : node) (acc : commitAcc) : commitAcc :=
  acc_pending (<[nodeKey_encode nk := PendingNode nk n]> (a_pending acc)) acc.

Definition childEq (a b : option child) : bool :=
  match a, b with
  | None, None => true
  | Some x, Some y =>
      bool_decide (c_version x = c_version y) && bool_decide (c_hash x = c_hash y) &&
      Bool.eqb (c_isLeaf x) (c_isLeaf y)
  | _, _ => false
  end.

Definition update_le (a b : update) : Prop := bytes_le (b32 (u_path a)) (b32 (u_path b)).
#[export] Instance update_le_dec : RelDecision update_le.
Proof. intros a b. unfold update_le. apply _. Defined.
Definition leaf_le (a b : leafNode) : Prop := bytes_le (b32 (l_path a)) (b32 (l_path b)).
#[export] Instance leaf_le_dec : RelDecision leaf_le.
Proof. intros a b. unfold leaf_le. apply _. Defined.

(** [sortUpdates] ([fork.go]) and the equal [sort.Slice] of [computeBatch]. *)
Definition sortUpdates (l : list update) : list update := merge_sort update_le l.
Definition sortLeaves (l : list leafNode) : list leafNode := merge_sort leaf_le l.

(** The contiguous runs of equal nibble the loops over a path-sorted slice cut
    out, with the nibble of each. *)
Fixpoint group_nibbles {A} (path : A -> Hash) (depth : nat) (l : list A) : list (N * list A) :=
  match l with
  | [] => []
  | x :: l' =>
      match group_nibbles path depth l' with
      | (nib, g) :: gs =>
          if (nibble (path x) depth =? nib)%N then (nib, x :: g) :: gs
          else (nibble (path x) depth, [x]) :: (nib, g) :: gs
      | [] => [(nibble (path x) depth, [x])]
      end
  end.

(** Slot [nib] of the child array. *)
Definition slot (cs : list (option child)) (nib : N) : option child :=
  mjoin (cs !! N.to_nat nib).

(** The zero value [Hash{}]. *)
Definition zero32 : Hash := copy32 [].

(** * Operations *)

Section store.
Context `{H : Hasher} `{G : GCM} `{E : Entropy} `{MR : MapRange} {B : Type} `{BK : Backend B}.
Abbreviation M := (M (Store B)).

(** A backend call, its error returned as it is or wrapped by [errBackend]. *)
Definition raw_backend {A} (m : Errors.M B A) : M A := λ s,
  let '(o, b) := m (s_backend s) in (o, set_backend b s).
Definition backend {A} (m : Errors.M B A) : M A := λ s,
  let '(o, b) := m (s_backend s) in
  (match o with Ok a => Ok a | Err e => Err (errBackend e) | Panic w => Panic w end,
   set_backend b s).

(** ** Commitments *)

Definition pathOf (ck key : bytes) : Hash := hmac ck (hmacTagPath ++ key).
Definition vhOf (ck : bytes) (path : Hash) (plaintext : bytes) : Hash :=
  hmac ck (hmacTagValue ++ b32 path ++ plaintext).

(** ** Value records and the checkpoint (mode-dependent at-rest form) *)

Definition encrypt (key : bytes32) (plaintext aad : bytes) : M bytes := λ s,
  (aead_encrypt key (s_rng s) plaintext aad, set_rng (S (s_rng s)) s).

Definition sealValue (path : Hash) (plaintext : bytes) : M bytes :=
  cipher ← gets s_cipher;
  match cipher with
  | Some key => encrypt key plaintext (valueAAD path)
  | None => mret plaintext
  end.

Definition openValue (path : Hash) (record : bytes) : M bytes :=
  cipher ← gets s_cipher;
  match cipher with
  | Some key =>
      match aead_decrypt key record (valueAAD path) with
      | Ok pt => mret pt
      | Err _ => fail (errCorrupted "value decrypt: %v")
      | Panic w => panic w
      end
  | None => mret record
  end.

Definition sealCheckpoint (root : Hash) (version : N) : M bytes :=
  history ← gets s_history;
  cipher ← gets s_cipher;
  mac ← gets s_ckptMAC;
  let flags := if history : bool then ckptFlagHistory else 0%N in
  let payload := b32 root ++ be 8 version ++ [u8 flags] in
  match cipher with
  | Some key => encrypt key payload checkpointAAD
  | None => mret (payload ++ b32 (hmac mac payload))
  end.

(** The payload of an authenticated checkpoint record. *)
Definition ckpt_payload (record : bytes) : M bytes :=
  cipher ← gets s_cipher;
  mac ← gets s_ckptMAC;
  match cipher with
  | Some key =>
      match aead_decrypt key record checkpointAAD with
      | Ok pt => mret pt
      | Err _ => fail (errCorrupted "checkpoint decrypt: %v")
      | Panic w => panic w
      end
  | None =>
      if decide (length record ≠ HashSize + 8 + 32 ∧ length record ≠ HashSize + 9 + 32) then
        fail (errCorrupted "checkpoint bad length")
      else
        let body := length record - 32 in
        let payload := take body record in
        if decide (b32 (hmac mac payload) = drop body record) then mret payload
        else fail (errCorrupted "checkpoint authentication failed")
  end.

Definition openCheckpoint (record : bytes) : M (Hash * N * N) :=
  payload ← ckpt_payload record;
  flags ← (if decide (length payload = HashSize + 8) then mret 0%N
           else if decide (length payload = HashSize + 9) then
             mret (bn (nth (HashSize + 8) payload Init.Byte.x00))
           else fail (errCorrupted "checkpoint bad length"));
  mret (copy32 (take HashSize payload), unbe (take 8 (drop HashSize payload)), flags).

(** ** Loading *)

Definition cacheGet (nk : nodeKey) : M (option node) := λ s,
  let '(r, c) := cache_get nk (s_cache s) in (Ok r, set_cache c s).
Definition cachePut (nk : nodeKey) (n : node) : M unit :=
  modify (λ s, set_cache (cache_put nk n (s_cache s)) s).

Definition loadNode (nk : nodeKey) (expectedHash : Hash) : M node :=
  cached ← cacheGet nk;
  match cached with
  | Some n =>
      if decide (node_hash n = expectedHash) then mret n
      else fail (errCorrupted "node %v hash mismatch")
  | None =>
      record ← backend (b_get (nodeRecordKey nk));
      match record with
      | None => fail (errMissing "node %v")
      | Some r =>
          n ← lift (decodeNode r);
          if decide (node_hash n = expectedHash) then cachePut nk n;; mret n
          else fail (errCorrupted "node %v hash mismatch")
      end
  end.

Definition loadRootRecord (version : N) : M Hash :=
  rec ← backend (b_get (rootRecordKey version));
  match rec with
  | None => fail (errMissing "root record v%d")
  | Some r =>
      if decide (length r = HashSize) then mret (copy32 r)
      else fail (errCorrupted "root record v%d bad length")
  end.

Definition loadRootChild (root : Hash) (version : N) : M (option child) :=
  if decide (root = placeholderHash) then mret None
  else
    n ← loadNode (rootNodeKey version) root;
    mret (Some (Child version root (node_isLeaf n))).

Definition readValue (path vh : Hash) (valueVersion : N) : M bytes :=
  ct ← backend (b_get (valueRecordKey vh valueVersion));
  match ct with
  | None => fail (errMissing "value record")
  | Some r =>
      pt ← openValue path r;
      ck ← gets s_ck;
      if decide (vhOf ck path pt = vh) then mret pt
      else fail (errCorrupted "value commitment mismatch")
  end.

(** The descent of [walk] from child [c] at [prefix], with [left] nibbles left. *)
Fixpoint walk_from (left : nat) (c : child) (prefix : list N) (path : Hash) : M (option bytes) :=
  n ← loadNode (NodeKey (c_version c) prefix) (c_hash c);
  if decide (node_isLeaf n ≠ c_isLeaf c) then fail (errCorrupted "node %v kind mismatch")
  else
    match n with
    | NLeaf l =>
        if decide (l_path l = path) then
          v ← readValue path (l_vh l) (l_valueVersion l); mret (Some v)
        else mret None
    | NInternal cs =>
        match left with
        | O => panic "index out of range"
        | S left' =>
            let nib := nibble path (length prefix) in
            match slot cs nib with
            | None => mret None
            | Some next => walk_from left' next (prefix ++ [nib]) path
            end
        end
    end.

Definition walk (rootChild : option child) (path : Hash) : M (option bytes) :=
  match rootChild with
  | None => mret None
  | Some c => walk_from nibbles c [] path
  end.

(** ** Reads *)

Definition Root : M (Hash * N) := gets (λ s, (s_root s, s_version s)).

Definition SetCacheCapacity (capacity : Z) : M unit :=
  modify (λ s, set_cache (cache_setCapacity capacity (s_cache s)) s).

Definition Get (key : bytes) : M (option bytes) :=
  ck ← gets s_ck; rc ← gets s_rootChild;
  walk rc (pathOf ck key).

Definition future : error := errInvalid "version %d is in the future (current %d)".

Definition RootAt (version : N) : M Hash :=
  cur ← gets s_version;
  if decide (cur < version)%N then fail future else loadRootRecord version.

Definition GetAt (version : N) (key : bytes) : M (option bytes) :=
  cur ← gets s_version;
  if decide (cur < version)%N then fail future
  else
    root ← loadRootRecord version;
    rootChild ← loadRootChild root version;
    ck ← gets s_ck;
    walk rootChild (pathOf ck key).

(** ** Batch apply *)

Definition putLeaf (acc : commitAcc) (prefix : list N) (leaf : leafNode) : M (option child * commitAcc) :=
  acc ← (if decide (l_valueVersion leaf = a_newVersion acc ∧ a_values acc !! l_vh leaf = None) then
           match a_insertCTs acc !! l_path leaf with
           | Some ct => mret (acc_values (<[l_vh leaf := ct]> (a_values acc)) acc)
           | None => fail (errCorrupted "internal: landed insert without ciphertext")
           end
         else mret acc);
  let n := NLeaf leaf in
  let h := node_hash n in
  let nk := NodeKey (a_newVersion acc) prefix in
  mret (Some (Child (a_newVersion acc) h true), add_pending nk n acc).

Definition takeLeaf (acc : commitAcc) (c : child) (prefix : list N) : M (leafNode * commitAcc) :=
  let nk := NodeKey (c_version c) prefix in
  if decide (c_version c = a_newVersion acc) then
    let k := nodeKey_encode nk in
    match a_pending acc !! k with
    | Some (PendingNode _ (NLeaf l)) => mret (l, acc_pending (delete k (a_pending acc)) acc)
    | _ => fail (errCorrupted "pending leaf %v missing or wrong kind")
    end
  else
    n ← loadNode nk (c_hash c);
    match n with
    | NLeaf l => mret (l, acc_stale (a_stale acc ++ [nodeRecordKey nk]) acc)
    | NInternal _ => fail (errCorrupted "node %v kind mismatch")
    end.

(** Write an internal node of this commit and return its reference. *)
Definition putInternal (acc : commitAcc) (prefix : list N) (cs : list (option child)) :
    option child * commitAcc :=
  let n := NInternal cs in
  (Some (Child (a_newVersion acc) (node_hash n) false),
   add_pending (NodeKey (a_newVersion acc) prefix) n acc).

Definition no_children : list (option child) := replicate 16 None.

Fixpoint buildFromPairs (left : nat) (acc : commitAcc) (prefix : list N) (pairs : list leafNode) :
    M (option child * commitAcc) :=
  match pairs with
  | [] => mret (None, acc)
  | [leaf] => putLeaf acc prefix leaf
  | _ =>
      match left with
      | O => panic "index out of range"
      | S left' =>
          '(cs, acc) ← foldM (λ '(cs, acc) '(nib, group),
              '(c, acc) ← buildFromPairs left' acc (prefix ++ [nib]) group;
              mret (<[N.to_nat nib := c]> cs, acc))
            (no_children, acc) (group_nibbles l_path (length prefix) pairs);
          mret (putInternal acc prefix cs)
      end
  end.

(** Merging the resident leaf with the updates: path to (vh, value version). *)
Definition merge_update (newVersion : N) (leaf : leafNode) (m : gmap Hash (Hash * N)) (u : update) :
    gmap Hash (Hash * N) :=
  match u_vh u with
  | Some vh =>
      let vv := if decide (u_path u = l_path leaf ∧ vh = l_vh leaf)
                then l_valueVersion leaf else newVersion in
      <[u_path u := (vh, vv)]> m
  | None => delete (u_path u) m
  end.
Definition merge_updates (newVersion : N) (leaf : leafNode) (updates : list update) :
    gmap Hash (Hash * N) :=
  foldl (merge_update newVersion leaf)
    {[l_path leaf := (l_vh leaf, l_valueVersion leaf)]} updates.

(** Retire a resident leaf, and its value unless the merge kept it. *)
Definition retireLeaf (acc : commitAcc) (nk : nodeKey) (leaf : leafNode)
    (merged : gmap Hash (Hash * N)) : commitAcc :=
  let acc := staleNode nk acc in
  let kept := match merged !! l_path leaf with
              | Some e => bool_decide (e.1 = l_vh leaf) | None => false end in
  if kept : bool then acc
  else if decide (l_valueVersion leaf = a_newVersion acc)
  then acc_values (delete (l_vh leaf) (a_values acc)) acc
  else acc_stale (a_stale acc ++ [valueRecordKey (l_vh leaf) (l_valueVersion leaf)]) acc.

(** Resolve the node a child reference names: the pending set for this commit's
    own nodes, verified storage otherwise. *)
Definition resolveNode (acc : commitAcc) (old : child) (nk : nodeKey) : M node :=
  if decide (c_version old = a_newVersion acc) then
    match a_pending acc !! nodeKey_encode nk with
    | Some pn => mret (pn_n pn)
    | None => fail (errCorrupted "pending node %v missing")
    end
  else loadNode nk (c_hash old).

(** Normalising a changed internal node: empty, collapsed to its lone leaf, or
    written. *)
Definition finishInternal (acc : commitAcc) (prefix : list N) (cs : list (option child)) :
    M (option child * commitAcc) :=
  match omap id cs with
  | [] => mret (None, acc)
  | only :: rest =>
      if decide (rest = [] ∧ c_isLeaf only = true) then
        let nib := default 0%N (N.of_nat <$> (list_find (λ c, is_Some c) cs ≫= λ ic, Some ic.1)) in
        '(leaf, acc) ← takeLeaf acc only (prefix ++ [nib]);
        putLeaf acc prefix leaf
      else mret (putInternal acc prefix cs)
  end.

Fixpoint applySubtree (left : nat) (acc : commitAcc) (old : option child) (prefix : list N)
    (updates : list update) : M (option child * commitAcc) :=
  match updates, old with
  | [], _ => mret (old, acc)
  | _, None =>
      let pairs := omap (λ u, (λ vh, LeafNode (u_path u) vh (a_newVersion acc)) <$> u_vh u) updates in
      buildFromPairs left acc prefix pairs
  | _, Some oc =>
      let nk := NodeKey (c_version oc) prefix in
      n ← resolveNode acc oc nk;
      if decide (node_isLeaf n ≠ c_isLeaf oc) then fail (errCorrupted "node %v kind mismatch")
      else
        match n with
        | NLeaf leaf =>
            let merged := merge_updates (a_newVersion acc) leaf updates in
            if decide (merged = {[l_path leaf := (l_vh leaf, l_valueVersion leaf)]}) then
              mret (old, acc)
            else
              let acc := retireLeaf acc nk leaf merged in
              let pairs := (λ '(p, e), LeafNode p e.1 e.2) <$> range_map merged in
              buildFromPairs left acc prefix (sortLeaves pairs)
        | NInternal cs0 =>
            match left with
            | O => panic "index out of range"
            | S left' =>
                '(cs, changed, acc) ← foldM (λ '(cs, changed, acc) '(nib, group),
                    '(c, acc) ← applySubtree left' acc (slot cs nib) (prefix ++ [nib]) group;
                    mret (if childEq c (slot cs nib) then (cs, changed, acc)
                          else (<[N.to_nat nib := c]> cs, true, acc)))
                  (cs0, false, acc) (group_nibbles u_path (length prefix) updates);
                if changed : bool then finishInternal (staleNode nk acc) prefix cs
                else mret (old, acc)
            end
        end
  end.

(** ** Batches *)

(** Deduplication (last wins); the reserved namespace is refused. *)
Definition dedupe (ops : list Op) : M (gmap Hash (option bytes)) :=
  ck ← gets s_ck;
  foldM (λ m op,
      if decide (reservedKeyPrefix `prefix_of` op_Key op) then
        fail (errInvalid "key %q uses the reserved system prefix")
      else
        mret (<[pathOf ck (op_Key op) := if op_Delete op then None else Some (op_Value op)]> m))
    ∅ ops.

(** Commitments and stored forms of the inserts, accumulating the updates. *)
Definition seal_updates (acc : commitAcc) (deduped : list (Hash * option bytes)) :
    M (list update * commitAcc) :=
  ck ← gets s_ck;
  foldM (λ '(us, acc) '(path, value),
      match value with
      | None => mret (us ++ [Update path None], acc)
      | Some v =>
          ct ← sealValue path v;
          mret (us ++ [Update path (Some (vhOf ck path v))],
                acc_insertCTs (<[path := ct]> (a_insertCTs acc)) acc)
      end)
    ([], acc) deduped.

(** The chain head written by the commit of [version] ([audit.go]). *)
Definition HistoryLink (prevHead prevRoot : Hash) (version : N) : Hash :=
  sha256 (historyChainTag ++ b32 prevHead ++ b32 prevRoot ++ be 8 version).

Definition appendHistoryLink (acc : commitAcc) (rootChild : option child) :
    M (option child * commitAcc) :=
  prevHead ← gets s_historyHead; prevRoot ← gets s_root; ck ← gets s_ck;
  let head := HistoryLink prevHead prevRoot (a_newVersion acc) in
  let path := pathOf ck HistoryKey in
  let vh := vhOf ck path (b32 head) in
  ct ← sealValue path (b32 head);
  let acc := acc_newHead head (acc_insertCTs (<[path := ct]> (a_insertCTs acc)) acc) in
  applySubtree nibbles acc rootChild [] [Update path (Some vh)].

Definition root_of (c : option child) : Hash :=
  match c with Some c => c_hash c | None => placeholderHash end.

(** [None] is a batch that changes nothing. *)
Definition computeBatch (ops : list Op) : M (option (commitAcc * option child * Hash)) :=
  version ← gets s_version;
  deduped ← dedupe ops;
  if decide (size deduped = 0) then mret None
  else
    '(us, acc) ← seal_updates (newAcc (wrap64 (version + 1))) (range_map deduped);
    oldRoot ← gets s_rootChild;
    '(newRootChild, acc) ← applySubtree nibbles acc oldRoot [] (sortUpdates us);
    if childEq newRootChild oldRoot then mret None
    else
      history ← gets s_history;
      '(newRootChild, acc) ← (if history : bool then appendHistoryLink acc newRootChild
                              else mret (newRootChild, acc));
      mret (Some (acc, newRootChild, root_of newRootChild)).

Definition PreviewBatch (ops : list Op) : M (Hash * N) :=
  r ← computeBatch ops;
  match r with
  | None => Root
  | Some (_, _, newRoot) => version ← gets s_version; mret (newRoot, wrap64 (version + 1))
  end.

(** The operations one commit writes. *)
Definition commit_ops (acc : commitAcc) (newRoot : Hash) (ckpt : bytes) : list BatchOp :=
  ((λ kv, bput (nodeRecordKey (pn_nk kv.2)) (node_encode (pn_n kv.2))) <$> range_map (a_pending acc)) ++
  ((λ kv, bput (valueRecordKey kv.1 (a_newVersion acc)) kv.2) <$> range_map (a_values acc)) ++
  ((λ target, bput (staleRecordKey (a_newVersion acc) target) []) <$> a_stale acc) ++
  [bput (rootRecordKey (a_newVersion acc)) (b32 newRoot); bput checkpointRecordKey ckpt].

(** The atomic tail: write the batch, then swing the in-memory state. *)
Definition commit (acc : commitAcc) (newRootChild : option child) (newRoot : Hash) : M (Hash * N) :=
  ckpt ← sealCheckpoint newRoot (a_newVersion acc);
  backend (b_write (commit_ops acc newRoot ckpt));;
  modify (λ s, set_cache (foldl (λ c kv, cache_put (pn_nk kv.2) (pn_n kv.2) c)
                            (s_cache s) (range_map (a_pending acc))) s);;
  modify (set_head newRoot (a_newVersion acc) newRootChild);;
  modify (λ s, match a_newHead acc with Some h => set_historyHead h s | None => s end);;
  Root.

Definition PutBatch (ops : list Op) : M (Hash * N) :=
  r ← computeBatch ops;
  match r with
  | None => Root
  | Some (acc, newRootChild, newRoot) => commit acc newRootChild newRoot
  end.

(** ** Pruning *)

Definition stale_stop (beforeVersion : N) : bytes :=
  if decide (beforeVersion = max64 - 1)%N then [u8 (bn recStale + 1)]
  else recStale :: be 8 (beforeVersion + 1).

(** Delete every entry of a scanned chunk; [ops] turns an entry into the
    deletions it causes.  [rounds] bounds the scan/delete round trips. *)
Fixpoint prune_loop (rounds : nat) (start stop : bytes)
    (ops : KV -> outcome (list BatchOp)) (count : nat) : M nat :=
  match rounds with
  | O => panic "prune: round bound"
  | S rounds' =>
      entries ← backend (b_scan start stop pruneChunk);
      match entries with
      | [] => mret count
      | _ =>
          batch ← foldM (λ b e, o ← lift (ops e); mret (b ++ o)) [] entries;
          backend (b_write batch);;
          let count := count + length entries in
          if decide (length entries = N.to_nat pruneChunk)
          then prune_loop rounds' start stop ops count
          else mret count
      end
  end.

Definition stale_entry_ops (e : KV) : outcome (list BatchOp) :=
  if decide (length (kv_Key e) < 10) then Err (errCorrupted "stale entry key too short")
  else Ok [bdel (drop 9 (kv_Key e)); bdel (kv_Key e)].
Definition root_entry_ops (e : KV) : outcome (list BatchOp) := Ok [bdel (kv_Key e)].

Definition Prune (rounds : nat) (beforeVersion : N) : M PruneStats :=
  pin ← gets s_snapshotPin;
  version ← gets s_version;
  let beforeVersion := match pin with
                       | Some p => if decide (p < beforeVersion)%N then p else beforeVersion
                       | None => beforeVersion end in
  if decide (version < beforeVersion)%N then
    fail (errInvalid "cannot prune to future version %d (current %d)")
  else
    modify (λ s, set_cache (cache_clear (s_cache s)) s);;
    stale ← prune_loop rounds [recStale] (stale_stop beforeVersion) stale_entry_ops 0;
    roots ← prune_loop rounds [recRoot] (recRoot :: be 8 beforeVersion) root_entry_ops 0;
    mret (MkPruneStats stale stale roots).

Definition RetainRecent (rounds : nat) (window : N) : M PruneStats :=
  version ← gets s_version;
  if decide (version < window)%N then Prune rounds 0 else Prune rounds (version - window).

(** ** Opening *)

Definition newStore (b : B) (commitmentKey : bytes32) (opts : list (storeOptions -> storeOptions)) :
    Store B :=
  let o := foldl (λ o f, f o) (MkOptions None false) opts in
  let ck := b32 commitmentKey in
  MkStore b ck (o_sk o) (match o_sk o with Some _ => [] | None => b32 (hmac ck ckptMACLabel) end)
    placeholderHash 0 None (newNodeCache defaultCacheCapacity) None false (o_history o) zero32 0.

Definition Create (b : B) (commitmentKey : bytes32) (opts : list (storeOptions -> storeOptions)) :
    outcome unit * Store B :=
  (modify (λ s, set_history (s_wantHistory s) s);;
   ckpt ← sealCheckpoint placeholderHash 0;
   raw_backend (b_write [bput (rootRecordKey 0) (b32 placeholderHash);
                         bput checkpointRecordKey ckpt]))
  (newStore b commitmentKey opts).

(** Chain mode at open, cross-checked against the head leaf. *)
Definition initHistory (flagKnown flag : bool) : M unit :=
  val ← Get HistoryKey;
  version ← gets s_version;
  let on := if flagKnown then flag else bool_decide (is_Some val) in
  (if on then
     match val with
     | None =>
         if decide (0 < version)%N then
           fail (errCorrupted "history chain enabled but the head leaf is missing")
         else mret tt
     | Some v =>
         if decide (length v = HashSize) then modify (set_historyHead (copy32 v))
         else fail (errCorrupted "history head leaf malformed")
     end
   else
     match val with
     | Some _ => fail (errCorrupted "history head leaf present but the chain flag is off")
     | None => mret tt
     end);;
  want ← gets s_wantHistory;
  if decide (want = true ∧ on = false) then
    fail (errInvalid "store was not created with the history chain (WithHistoryChain is a Create-time choice)")
  else modify (set_history on).

(** The checkpoint flags [Open] trusts: those of a checkpoint that authenticates. *)
Definition checkpoint_flags : M (option N) := λ s,
  match raw_backend (b_get checkpointRecordKey) s with
  | (Ok (Some record), s1) =>
      match openCheckpoint record s1 with
      | (Ok (_, _, flags), s2) => (Ok (Some flags), s2)
      | (Err _, s2) => (Ok None, s2)
      | (Panic w, s2) => (Panic w, s2)
      end
  | (Ok None, s1) => (Ok None, s1)
  | (Err _, s1) => (Ok None, s1)
  | (Panic w, s1) => (Panic w, s1)
  end.

Definition has_flag (flags : N) : bool := bool_decide (N.land flags ckptFlagHistory ≠ 0%N).

Definition Open (b : B) (commitmentKey : bytes32) (root : Hash) (version : N)
    (opts : list (storeOptions -> storeOptions)) : outcome unit * Store B :=
  (modify (set_head root version None);;
   rc ← loadRootChild root version;
   modify (set_head root version rc);;
   flags ← checkpoint_flags;
   match flags with
   | Some f => initHistory true (has_flag f)
   | None => initHistory false false
   end)
  (newStore b commitmentKey opts).

Definition OpenLatest (b : B) (commitmentKey : bytes32) (opts : list (storeOptions -> storeOptions)) :
    outcome unit * Store B :=
  (record ← backend (b_get checkpointRecordKey);
   match record with
   | None => fail (errMissing "checkpoint record")
   | Some r =>
       '(root, version, flags) ← openCheckpoint r;
       modify (set_head root version None);;
       rc ← loadRootChild root version;
       modify (set_head root version rc);;
       initHistory true (has_flag flags)
   end)
  (newStore b commitmentKey opts).

Definition OpenOrCreate (b : B) (commitmentKey : bytes32) (opts : list (storeOptions -> storeOptions)) :
    outcome unit * Store B :=
  match b_get checkpointRecordKey b with
  | (Err e, b') => (Err (errBackend e), newStore b' commitmentKey opts)
  | (Panic w, b') => (Panic w, newStore b' commitmentKey opts)
  | (Ok (Some _), b') => OpenLatest b' commitmentKey opts
  | (Ok None, b') => Create b' commitmentKey opts
  end.
End store.
