(* ===== verification/Tree.v ===== *)
(** Version trees: the logical content of the stored sixteen-ary tree.

    A [tree] is what a root reference denotes once every record on the way is
    read: leaves and internal nodes, each with the commit version it was written
    at.  [t_node] and [child_of] give the record and the reference the store holds
    for it, so a tree determines all bytes written for it; [leaves] is the state
    it holds.  [twf] is the shape invariant of [store.go]: sixteen slots, every
    leaf below its own nibble prefix, and no internal node that should have been
    collapsed.

    The main result is [t_hash_smt]: the sixteen-ary node hash of a well-formed
    tree is the specification hash of its leaves, whatever its versions and
    however it was built. *)

From S2P Require Import Prelude Errors Sha256 Hashing Node Smt Store.

#[local] Set Warnings "-register-all".

Inductive tree :=
| TLeaf (v : N) (l : leafNode)
| TNode (v : N) (cs : list (option tree)).

Section tree_ind.
Variable P : tree -> Prop.
Hypothesis Hleaf : ∀ v l, P (TLeaf v l).
Hypothesis Hnode : ∀ v cs, (∀ i t, cs !! i = Some (Some t) -> P t) -> P (TNode v cs).

Lemma tree_ind' : ∀ t, P t.
Proof.
  fix IH 1. intros [v l|v cs]; [apply Hleaf|]. apply Hnode.
  induction cs as [|oc cs IHcs]; intros i t Hi;
    [rewrite lookup_nil in Hi; discriminate Hi|].
  destruct i as [|i]; [|exact (IHcs i t Hi)].
  destruct oc as [t'|]; [|discriminate Hi]. injection Hi as <-. apply IH.
Qed.
End tree_ind.

Definition t_version (t : tree) : N := match t with TLeaf v _ | TNode v _ => v end.
Definition t_isLeaf (t : tree) : bool := match t with TLeaf _ _ => true | TNode _ _ => false end.

Fixpoint leaves (t : tree) : list leafNode :=
  match t with
  | TLeaf _ l => [l]
  | TNode _ cs => concat ((λ oc, match oc with Some t' => leaves t' | None => [] end) <$> cs)
  end.

Definition oleaves (ot : option tree) : list leafNode :=
  match ot with Some t => leaves t | None => [] end.

(** The state pairs of the leaves. *)
Definition kv (l : leafNode) : Hash * Hash := (l_path l, l_vh l).

Lemma leaves_node v cs : leaves (TNode v cs) = concat (oleaves <$> cs).
Proof. done. Qed.

(** The subtree at a relative position. *)
Fixpoint tree_at (ot : option tree) (q : list N) : option tree :=
  match q with
  | [] => ot
  | i :: q' =>
      match ot with
      | Some (TNode _ cs) => tree_at (mjoin (cs !! N.to_nat i)) q'
      | _ => None
      end
  end.

(** No node is left that a lone leaf should have replaced. *)
Definition branching (cs : list (option tree)) : Prop :=
  omap id cs ≠ [] ∧ ∀ v l, omap id cs ≠ [TLeaf v l].

(** The shape invariant at a prefix. *)
Inductive twf : list N -> tree -> Prop :=
| twf_leaf pre v l :
    under pre (l_path l) -> is_u64 v -> is_u64 (l_valueVersion l) -> twf pre (TLeaf v l)
| twf_node pre v cs :
    length cs = 16 -> length pre < 64 -> Forall (λ x, (x < 16)%N) pre -> is_u64 v ->
    (∀ i t, cs !! i = Some (Some t) -> twf (pre ++ [N.of_nat i]) t) ->
    branching cs -> twf pre (TNode v cs).

Definition otwf (pre : list N) (ot : option tree) : Prop :=
  match ot with Some t => twf pre t | None => True end.

Section tree.
Context `{H : Hasher}.

Fixpoint t_node (t : tree) : node :=
  match t with
  | TLeaf _ l => NLeaf l
  | TNode _ cs =>
      NInternal ((λ oc, match oc with
                        | Some t' => Some (Child (t_version t') (node_hash (t_node t')) (t_isLeaf t'))
                        | None => None
                        end) <$> cs)
  end.

Definition t_hash (t : tree) : Hash := node_hash (t_node t).
Definition child_of (t : tree) : child := Child (t_version t) (t_hash t) (t_isLeaf t).

Definition ochild (ot : option tree) : option child :=
  match ot with Some t => Some (child_of t) | None => None end.

Lemma t_node_node v cs : t_node (TNode v cs) = NInternal (ochild <$> cs).
Proof. done. Qed.

Lemma t_node_isLeaf t : node_isLeaf (t_node t) = t_isLeaf t.
Proof. by destruct t. Qed.

(** ** Leaves of a well-formed tree *)

Lemma elem_of_leaves_node v cs l :
  l ∈ leaves (TNode v cs) ↔ ∃ i t, cs !! i = Some (Some t) ∧ l ∈ leaves t.
Proof.
  rewrite leaves_node, elem_of_concat. split.
  - intros (x & Hl & (oc & -> & Hin)%list_elem_of_fmap).
    apply list_elem_of_lookup in Hin as [i Hi].
    destruct oc as [t|]; [eauto|by apply not_elem_of_nil in Hl].
  - intros (i & t & Hi & Hl). exists (oleaves (Some t)). split; [done|].
    apply list_elem_of_fmap_2. by eapply list_elem_of_lookup_2.
Qed.

Lemma twf_leaves_under pre t l : twf pre t -> l ∈ leaves t -> under pre (l_path l).
Proof.
  intros Hw. induction Hw as [pre v l' Hu Hv Hvv|pre v cs Hl Hp Hf Hv Hc IH Hb].
  - by intros ->%list_elem_of_singleton.
  - intros (i & t & Hi & Hin)%elem_of_leaves_node.
    specialize (IH i t Hi Hin). by apply under_snoc in IH as [? _].
Qed.

Lemma twf_leaves_length pre t :
  twf pre t -> match t with TLeaf _ l => leaves t = [l] | TNode _ _ => 2 ≤ length (leaves t) end.
Proof.
  intros Hw. induction Hw as [|pre v cs Hl Hp Hf Hv Hc IH Hb]; [done|].
  assert (∀ i t, cs !! i = Some (Some t) -> 1 ≤ length (leaves t)) as Hpos.
  { intros i t Hi. specialize (IH i t Hi). destruct t; [by rewrite IH|lia]. }
  rewrite leaves_node. clear Hl Hc. destruct Hb as [Hne Hone].
  assert (∀ cs', cs' ⊆ cs -> length (omap id cs') ≤ length (concat (oleaves <$> cs'))) as Hge.
  { clear Hne Hone IH. intros cs' Hsub. induction cs' as [|[t|] cs' IH']; [done| |]; cbn.
    - rewrite length_app.
      assert (Some t ∈ cs) as [i Hi]%list_elem_of_lookup by (apply Hsub; left).
      specialize (Hpos i t Hi). specialize (IH' ltac:(set_solver)). cbn in *. lia.
    - apply IH'. set_solver. }
  destruct (omap id cs) as [|t [|t' ts]] eqn:E; [done| |].
  - destruct t as [v' l|v' cs']; [by destruct (Hone v' l)|].
    assert (TNode v' cs' ∈ omap id cs) as Hin by (rewrite E; left).
    apply list_elem_of_omap in Hin as (oc & Hin & Eoc). cbn in Eoc. subst oc.
    apply list_elem_of_lookup in Hin as [i Hi]. specialize (IH i _ Hi).
    change (2 ≤ length (leaves (TNode v' cs'))) in IH.
    apply list_elem_of_split_length in Hi as (l1 & l2 & -> & _).
    rewrite fmap_app, fmap_cons, concat_app, length_app, concat_cons, length_app.
    change (oleaves (Some ?t)) with (leaves t). lia.
  - specialize (Hge cs ltac:(done)). rewrite E in Hge. cbn in Hge. cbn in *. lia.
Qed.

(** ** Distinct paths *)

(** A run of child slots starting at slot [s] of a node at prefix [pre]. *)
Definition slots_wf (pre : list N) (s : nat) (sl : list (option tree)) : Prop :=
  ∀ i t, sl !! i = Some (Some t) -> twf (pre ++ [N.of_nat (s + i)]) t.

Lemma slots_wf_cons pre s oc sl :
  slots_wf pre s (oc :: sl) -> otwf (pre ++ [N.of_nat s]) oc ∧ slots_wf pre (S s) sl.
Proof.
  intros Hs. split.
  - destruct oc as [t|]; [|done]. cbn. specialize (Hs 0 t eq_refl). by rewrite Nat.add_0_r in Hs.
  - intros i t Hi. specialize (Hs (S i) t Hi). by replace (S s + i) with (s + S i) by lia.
Qed.

Lemma slots_leaf pre s sl l :
  slots_wf pre s sl -> l ∈ concat (oleaves <$> sl) ->
  under pre (l_path l) ∧ length pre < 64 ∧
  ∃ i, i < length sl ∧ nibble (l_path l) (length pre) = N.of_nat (s + i).
Proof.
  intros Hs (x & Hl & (oc & -> & [i Hi]%list_elem_of_lookup)%list_elem_of_fmap)%elem_of_concat.
  destruct oc as [t|]; [|by apply not_elem_of_nil in Hl].
  pose proof (twf_leaves_under _ _ _ (Hs i t Hi) Hl) as (? & ? & ?)%under_snoc.
  split_and!; [done..|]. exists i. split; [by eapply lookup_lt_Some|done].
Qed.

Lemma slots_NoDup pre s sl :
  slots_wf pre s sl ->
  (∀ i t, sl !! i = Some (Some t) -> NoDup (l_path <$> leaves t)) ->
  NoDup (l_path <$> concat (oleaves <$> sl)).
Proof.
  revert s. induction sl as [|oc sl IH]; intros s Hs Hnd; [constructor|].
  apply slots_wf_cons in Hs as [Hoc Hs]. rewrite fmap_cons, concat_cons, fmap_app.
  apply NoDup_app. split_and!.
  - destruct oc as [t|]; [by apply (Hnd 0)|constructor].
  - intros p (l & -> & Hl)%list_elem_of_fmap (l' & E & Hl')%list_elem_of_fmap.
    destruct oc as [t|]; [|by apply not_elem_of_nil in Hl].
    apply (twf_leaves_under _ _ _ Hoc), under_snoc in Hl as (_ & _ & Hn).
    destruct (slots_leaf _ _ _ _ Hs Hl') as (_ & _ & i & _ & Hn').
    rewrite <-E, Hn in Hn'. lia.
  - apply (IH (S s)); [done|]. intros i t Hi. by apply (Hnd (S i)).
Qed.

Lemma twf_NoDup pre t : twf pre t -> NoDup (l_path <$> leaves t).
Proof.
  intros Hw. induction Hw as [|pre v cs Hl Hp Hf Hv Hc IH Hb]; [apply NoDup_singleton|].
  rewrite leaves_node. by apply (slots_NoDup pre 0).
Qed.

Lemma fmap_kv_fst (ls : list leafNode) : (kv <$> ls).*1 = l_path <$> ls.
Proof. by rewrite <-list_fmap_compose. Qed.

Lemma under_bits pre p q :
  under pre p -> under pre q -> ∀ j, j < 4 * length pre -> bitAt p j = bitAt q j.
Proof.
  intros Hp Hq j Hj. pose proof (under_length _ _ Hp).
  rewrite (Nat.div_mod_eq j 4). set (d := Nat.div j 4).
  assert (d < length pre) by (apply Nat.Div0.div_lt_upper_bound; lia).
  pose proof (Nat.mod_upper_bound j 4 ltac:(lia)).
  rewrite !bitAt_nibble by lia. f_equal.
  assert (∀ r, under pre r -> pre !! d = Some (nibble r d)) as Hn.
  { intros r Hr. rewrite <-nibs_lookup by lia. by apply prefix_lookup_lt. }
  pose proof (Hn p Hp). pose proof (Hn q Hq). congruence.
Qed.

Lemma twf_agree pre t : twf pre t -> agree (4 * length pre) (kv <$> leaves t).
Proof.
  intros Hw. split.
  - rewrite fmap_kv_fst. by eapply twf_NoDup.
  - intros x y (l & -> & Hl)%list_elem_of_fmap (l' & -> & Hl')%list_elem_of_fmap. cbn.
    apply under_bits; by eapply twf_leaves_under.
Qed.

(** ** The node hash is the specification hash of the leaves *)

(** [subtreeHash] on the slice of slots it folds. *)
Fixpoint slice_hash (k : nat) (sl : list (option child)) : Hash :=
  match omap id sl with
  | [] => placeholderHash
  | only :: rest =>
      match k with
      | O => c_hash only
      | S k' =>
          if decide (rest = [] ∧ c_isLeaf only = true) then c_hash only
          else internalHash (slice_hash k' (take (2 ^ k') sl)) (slice_hash k' (drop (2 ^ k') sl))
      end
  end.

Lemma subtreeHash_slice k cs start :
  subtreeHash k cs start = slice_hash k (take (2 ^ k) (drop start cs)).
Proof.
  revert start. induction k as [|k IH]; intros start; cbn [subtreeHash slice_hash]; [done|].
  destruct (omap id (take (2 ^ S k) (drop start cs))) as [|only rest]; [done|].
  case_decide; [done|]. rewrite !IH. f_equal; f_equal.
  - rewrite take_take. f_equal. cbn. lia.
  - rewrite <-drop_drop, take_drop_commute. do 2 f_equal. cbn. lia.
Qed.

Lemma omap_ochild (sl : list (option tree)) : omap id (ochild <$> sl) = child_of <$> omap id sl.
Proof. induction sl as [|[t|] sl IH]; cbn; [done|by f_equal|done]. Qed.

Lemma concat_oleaves_omap sl : concat (oleaves <$> sl) = concat (leaves <$> omap id sl).
Proof. induction sl as [|[t|] sl IH]; cbn; [done|by f_equal|done]. Qed.

Lemma testbit_slot k a r :
  r < 2 ^ k ->
  N.testbit (N.of_nat (a * 2 ^ S k + r)) (N.of_nat k) = false ∧
  N.testbit (N.of_nat (a * 2 ^ S k + (2 ^ k + r))) (N.of_nat k) = true.
Proof.
  intros Hr. set (P := 2 ^ k) in *.
  assert (2 ^ N.of_nat k = N.of_nat P)%N as HP by (unfold P; by rewrite Nat2N.inj_pow).
  assert (2 ^ S k = 2 * P) as -> by (unfold P; cbn; lia). clearbody P.
  split; rewrite N.testbit_eqb, HP.
  - replace (N.of_nat (a * (2 * P) + r)) with (N.of_nat r + N.of_nat (2 * a) * N.of_nat P)%N by lia.
    rewrite N.div_add by lia. rewrite N.div_small by lia. rewrite N.add_0_l.
    replace (N.of_nat (2 * a)) with (0 + N.of_nat a * 2)%N by lia.
    by rewrite N.Div0.mod_add.
  - replace (N.of_nat (a * (2 * P) + (P + r)))
      with (N.of_nat r + N.of_nat (2 * a + 1) * N.of_nat P)%N by lia.
    rewrite N.div_add by lia. rewrite N.div_small by lia. rewrite N.add_0_l.
    replace (N.of_nat (2 * a + 1)) with (1 + N.of_nat a * 2)%N by lia.
    by rewrite N.Div0.mod_add.
Qed.

(** All leaves of the lower (upper) half of an aligned range have the range's
    deciding bit clear (set). *)
Lemma half_bits pre k a sl (b : bool) l :
  k < 4 -> length sl = 2 ^ k ->
  slots_wf pre (a * 2 ^ S k + (if b then 2 ^ k else 0)) sl ->
  l ∈ concat (oleaves <$> sl) -> bitAt (l_path l) (4 * length pre + (3 - k)) = b.
Proof.
  intros Hk Hl Hs Hin. destruct (slots_leaf _ _ _ _ Hs Hin) as (Hu & Hp & i & Hi & Hn).
  rewrite bitAt_nibble by lia. rewrite Hn. replace (3 - (3 - k)) with k by lia.
  rewrite Hl in Hi. destruct (testbit_slot k a i Hi) as [Hf Ht].
  destruct b; [by rewrite <-Nat.add_assoc|by rewrite Nat.add_0_r].
Qed.

Lemma filter_all {A} (P : A -> Prop) `{∀ x, Decision (P x)} (l : list A) :
  (∀ x, x ∈ l -> P x) -> filter P l = l.
Proof.
  induction l as [|x l IH]; intros HP; [done|].
  rewrite filter_cons_True by (apply HP; left). f_equal. apply IH. intros y Hy. apply HP. by right.
Qed.

Lemma filter_none {A} (P : A -> Prop) `{∀ x, Decision (P x)} (l : list A) :
  (∀ x, x ∈ l -> ¬ P x) -> filter P l = [].
Proof.
  induction l as [|x l IH]; intros HP; [done|].
  rewrite filter_cons_False by (apply HP; left). apply IH. intros y Hy. apply HP. by right.
Qed.

Lemma slots_wf_take pre s sl n : slots_wf pre s sl -> slots_wf pre s (take n sl).
Proof. intros Hs i t [Hi _]%lookup_take_Some. by apply Hs. Qed.

Lemma slots_wf_drop pre s sl n : slots_wf pre s sl -> slots_wf pre (s + n) (drop n sl).
Proof. intros Hs i t Hi. rewrite lookup_drop in Hi. rewrite <-Nat.add_assoc. by apply Hs. Qed.

Lemma slots_length pre s sl :
  slots_wf pre s sl -> length (omap id sl) ≤ length (concat (oleaves <$> sl)).
Proof.
  revert s. induction sl as [|[t|] sl IH]; intros s Hs; [done| |];
    apply slots_wf_cons in Hs as [Ht Hs]; cbn -[leaves].
  - rewrite length_app. specialize (IH _ Hs). apply twf_leaves_length in Ht.
    cbn in *. destruct t; [rewrite Ht; cbn; lia|lia].
  - by apply (IH (S s)).
Qed.

(** A range whose fold does not stop early holds at least two leaves. *)
Lemma slots_two pre s sl only rest :
  slots_wf pre s sl -> omap id sl = only :: rest ->
  ¬ (child_of <$> rest = [] ∧ t_isLeaf only = true) -> 2 ≤ length (concat (oleaves <$> sl)).
Proof.
  intros Hs E Hn. destruct rest as [|t' rest].
  - rewrite concat_oleaves_omap, E. cbn. rewrite app_nil_r.
    assert (only ∈ omap id sl) as (oc & Hin & Eo)%list_elem_of_omap by (rewrite E; left).
    cbn in Eo. subst oc. apply list_elem_of_lookup in Hin as [i Hi].
    pose proof (twf_leaves_length _ _ (Hs i _ Hi)) as Hl. destruct only; [|done].
    exfalso. by apply Hn.
  - pose proof (slots_length _ _ _ Hs) as Hl. rewrite E in Hl. cbn in *. lia.
Qed.

Lemma smt_nil n d : smt n d [] = placeholderHash.
Proof. by destruct n. Qed.

Lemma smt_one n d x : smt n d [x] = leafHash x.1 x.2.
Proof. by destruct n. Qed.

Lemma smt_two n d ls :
  2 ≤ length ls ->
  smt (S n) d ls = internalHash (smt n (S d) (filter (side d false) ls))
                                (smt n (S d) (filter (side d true) ls)).
Proof. by destruct ls as [|x [|y ls]]; cbn; try lia. Qed.

Lemma filter_kv d b (ls : list leafNode) :
  filter (side d b) (kv <$> ls) = kv <$> filter (λ l, bitAt (l_path l) d = b) ls.
Proof.
  induction ls as [|l ls IH]; [done|]. rewrite fmap_cons, !filter_cons. cbn [fst kv].
  case_decide; [|done]. rewrite fmap_cons. by f_equal.
Qed.

(** The deciding bit of an aligned range splits its leaves into its halves. *)
Lemma slice_filter pre k a sl b :
  k < 4 -> length sl = 2 ^ S k -> slots_wf pre (a * 2 ^ S k) sl ->
  filter (side (4 * length pre + (3 - k)) b) (kv <$> concat (oleaves <$> sl)) =
  kv <$> concat (oleaves <$> (if b then drop (2 ^ k) sl else take (2 ^ k) sl)).
Proof.
  intros Hk Hl Hs. rewrite filter_kv.
  set (lo := take (2 ^ k) sl). set (hi := drop (2 ^ k) sl).
  assert (length lo = 2 ^ k) as Llo by (unfold lo; rewrite length_take, Hl; cbn; lia).
  assert (length hi = 2 ^ k) as Lhi by (unfold hi; rewrite length_drop, Hl; cbn; lia).
  assert (slots_wf pre (a * 2 ^ S k + 0) lo) as Slo
    by (rewrite Nat.add_0_r; by apply slots_wf_take).
  assert (slots_wf pre (a * 2 ^ S k + 2 ^ k) hi) as Shi by (by apply slots_wf_drop).
  assert (concat (oleaves <$> sl) = concat (oleaves <$> lo) ++ concat (oleaves <$> hi)) as ->.
  { rewrite <-concat_app, <-fmap_app. unfold lo, hi. by rewrite take_drop. }
  rewrite filter_app. f_equal. destruct b.
  - rewrite (filter_none _ (concat (oleaves <$> lo)))
      by (intros l Hl'; rewrite (half_bits pre k a lo false) by done; done).
    by rewrite (filter_all _ (concat (oleaves <$> hi)))
      by (intros l Hl'; by apply (half_bits pre k a hi true)).
  - rewrite (filter_all _ (concat (oleaves <$> lo)))
      by (intros l Hl'; by apply (half_bits pre k a lo false)).
    rewrite (filter_none _ (concat (oleaves <$> hi)))
      by (intros l Hl'; rewrite (half_bits pre k a hi true) by done; done).
    apply app_nil_r.
Qed.

(** The halves of an aligned range are aligned ranges. *)
Lemma slice_half pre k a sl (b : bool) :
  length sl = 2 ^ S k -> slots_wf pre (a * 2 ^ S k) sl ->
  let half := if b then drop (2 ^ k) sl else take (2 ^ k) sl in
  length half = 2 ^ k ∧ slots_wf pre ((2 * a + (if b then 1 else 0)) * 2 ^ k) half.
Proof.
  intros Hl Hs. destruct b; cbn zeta; rewrite ?length_drop, ?length_take, Hl; (split; [cbn; lia|]).
  - replace ((2 * a + 1) * 2 ^ k) with (a * 2 ^ S k + 2 ^ k) by (cbn; lia). by apply slots_wf_drop.
  - replace ((2 * a + 0) * 2 ^ k) with (a * 2 ^ S k) by (cbn; lia). by apply slots_wf_take.
Qed.

(** Every child of a range has the specification hash of its leaves. *)
Definition slots_hash (pre : list N) (sl : list (option tree)) : Prop :=
  ∀ i t, sl !! i = Some (Some t) ->
    t_hash t = smt (252 - 4 * length pre) (4 + 4 * length pre) (kv <$> leaves t).

Lemma slots_hash_half pre k sl (b : bool) :
  slots_hash pre sl -> slots_hash pre (if b then drop (2 ^ k) sl else take (2 ^ k) sl).
Proof.
  intros Hh i t. destruct b; [rewrite lookup_drop; apply Hh|]. intros [Hi _]%lookup_take_Some. by apply (Hh i).
Qed.

Lemma slice_smt pre k a sl :
  k ≤ 4 -> length pre < 64 -> length sl = 2 ^ k -> slots_wf pre (a * 2 ^ k) sl -> slots_hash pre sl ->
  slice_hash k (ochild <$> sl) =
  smt (252 - 4 * length pre + k) (4 * length pre + (4 - k)) (kv <$> concat (oleaves <$> sl)).
Proof.
  intros Hk Hp. revert a sl. induction k as [|k IH]; intros a sl Hl Hs Hh.
  { destruct sl as [|oc [|]]; try done. clear Hl. cbn [slice_hash]. rewrite omap_ochild.
    destruct oc as [t|]; cbn -[leaves]; [|by rewrite smt_nil]. rewrite app_nil_r.
    rewrite (Hh 0 t eq_refl). f_equal; lia. }
  cbn [slice_hash]. rewrite omap_ochild.
  destruct (omap id sl) as [|only rest] eqn:E.
  { rewrite concat_oleaves_omap, E. cbn. by rewrite smt_nil. }
  cbn [fmap list_fmap]. case_decide as Hd.
  { destruct Hd as [Hr Hlf]. destruct rest; [|done].
    rewrite concat_oleaves_omap, E. destruct only; [|done]. cbn. by rewrite smt_one. }
  assert (2 ≤ length (concat (oleaves <$> sl))) as H2.
  { eapply slots_two; [exact Hs|exact E|exact Hd]. }
  replace (252 - 4 * length pre + S k) with (S (252 - 4 * length pre + k)) by lia.
  rewrite smt_two by (by rewrite length_fmap).
  replace (S (4 * length pre + (4 - S k))) with (4 * length pre + (4 - k)) by lia.
  replace (4 - S k) with (3 - k) by lia. rewrite !(slice_filter pre k a) by (done || lia).
  rewrite <-fmap_take, <-fmap_drop.
  destruct (slice_half pre k a sl false Hl Hs) as [L0 S0], (slice_half pre k a sl true Hl Hs) as [L1 S1].
  f_equal.
  - exact (IH ltac:(lia) _ _ L0 S0 (slots_hash_half pre k sl false Hh)).
  - exact (IH ltac:(lia) _ _ L1 S1 (slots_hash_half pre k sl true Hh)).
Qed.

Theorem t_hash_smt pre t :
  twf pre t -> t_hash t = smt (256 - 4 * length pre) (4 * length pre) (kv <$> leaves t).
Proof.
  intros Hw. induction Hw as [pre v l Hu Hv Hvv|pre v cs Hl Hp Hf Hv Hc IH Hb].
  { cbn [leaves fmap list_fmap]. by rewrite smt_one. }
  unfold t_hash. rewrite t_node_node. cbn [node_hash].
  rewrite subtreeHash_slice, drop_0, take_ge by (rewrite length_fmap, Hl; done).
  rewrite (slice_smt pre 4 0); [|lia|done|done| |].
  - rewrite Nat.add_0_r, leaves_node. f_equal. lia.
  - exact Hc.
  - intros i t Hi. rewrite (IH i t Hi), length_app. cbn [length]. f_equal; lia.
Qed.
End tree.
