(* ===== verification/StoreRead.v ===== *)
(** Reading the stored tree.

    [stored C pre t] says the contents [C] hold the record of every node of [t];
    [store_ok] that the cache agrees with the contents.  Under these, loading a
    node of the tree succeeds and [walk] returns exactly the value of the leaf
    with the wanted path, or absence; reads change nothing but the cache and the
    storage's own bookkeeping ([reads]). *)

From S2P Require Import Prelude Errors Sha256 Hashing Node Smt Aead Backend Cache Store Tree.

(** Positions with a nibble out of range, or too deep, are never used. *)
Lemma twf_node_wf `{Hasher} pre t : twf pre t -> node_wf (t_node t).
Proof.
  intros Hw. destruct Hw as [|pre v cs Hl Hp Hf Hv Hc Hb]; [done|].
  rewrite t_node_node. cbn [node_wf]. rewrite length_fmap, omap_ochild. split_and!; [done| |].
  - destruct Hb as [Hne _]. by destruct (omap id cs).
  - apply Forall_fmap, Forall_forall. intros t (oc & Hin & E)%list_elem_of_omap. cbn in E. subst oc.
    apply list_elem_of_lookup in Hin as [i Hi]. cbn. unfold child_wf. cbn.
    specialize (Hc i t Hi). by inversion Hc.
Qed.

Section read.
Context `{H : Hasher} `{G : GCM} `{E : Entropy} `{MR : MapRange}.
Context {B : Type} `{BK : Backend B} `{!BackendSpec B} `{!BackendReliable B}.
Implicit Types s : Store B.

(** ** Coherence of the cache *)

Definition cached_ok (C : gmap bytes bytes) (k : bytes) (n : node) : Prop :=
  C !! (recNode :: k) = Some (node_encode n) ∧ node_wf n.

Definition store_ok s : Prop := cache_all (cached_ok (contents (s_backend s))) (s_cache s).

(** [s'] is [s] after some reads (and draws of entropy). *)
Definition reads s s' : Prop :=
  contents (s_backend s') = contents (s_backend s) ∧
  s' = set_rng (s_rng s') (set_cache (s_cache s') (set_backend (s_backend s') s)) ∧
  (store_ok s -> store_ok s').

Lemma reads_refl s : reads s s.
Proof. split_and!; [done|by destruct s|done]. Qed.

Lemma reads_trans s1 s2 s3 : reads s1 s2 -> reads s2 s3 -> reads s1 s3.
Proof.
  intros (C1 & E1 & O1) (C2 & E2 & O2). split_and!; [congruence| |auto].
  rewrite E2 at 1. rewrite E1 at 1. by destruct s1.
Qed.

Lemma reads_ok s s' : reads s s' -> store_ok s -> store_ok s'.
Proof. intros (_ & _ & Ho). done. Qed.

Lemma reads_contents s s' : reads s s' -> contents (s_backend s') = contents (s_backend s).
Proof. by intros (? & _ & _). Qed.

(** All other fields are untouched. *)
Lemma reads_fields s s' :
  reads s s' ->
  s_ck s' = s_ck s ∧ s_cipher s' = s_cipher s ∧ s_ckptMAC s' = s_ckptMAC s ∧
  s_root s' = s_root s ∧ s_version s' = s_version s ∧ s_rootChild s' = s_rootChild s ∧
  s_snapshotPin s' = s_snapshotPin s ∧ s_history s' = s_history s ∧
  s_wantHistory s' = s_wantHistory s ∧ s_historyHead s' = s_historyHead s.
Proof. intros (_ & -> & _). by destruct s. Qed.

Lemma backend_get_ok k s :
  ∃ s', backend (b_get k) s = (Ok (contents (s_backend s) !! k), s') ∧ reads s s' ∧
    s_cache s' = s_cache s.
Proof.
  destruct (get_ok k (s_backend s)) as (b' & Eg & Ec). exists (set_backend b' s).
  unfold backend. rewrite Eg. split_and!; [done| |done].
  split_and!; [done|by destruct s|]. unfold store_ok. cbn. by rewrite Ec.
Qed.

Lemma cacheGet_reads nk s :
  ∃ r s', cacheGet nk s = (Ok r, s') ∧ reads s s' ∧
    (store_ok s -> ∀ n, r = Some n -> cached_ok (contents (s_backend s)) (nodeKey_encode nk) n).
Proof.
  unfold cacheGet. destruct (cache_get nk (s_cache s)) as [r c] eqn:Ec.
  exists r, (set_cache c s). split_and!; [done| |].
  - split_and!; [done|by destruct s|]. unfold store_ok. cbn.
    intros Ho. apply (cache_get_all _ nk) in Ho. by rewrite Ec in Ho.
  - intros Ho n ->. apply (cache_get_some _ nk (s_cache s)); [done|]. by rewrite Ec.
Qed.

Lemma cachePut_reads nk n s :
  cached_ok (contents (s_backend s)) (nodeKey_encode nk) n ->
  ∃ s', cachePut nk n s = (Ok tt, s') ∧ reads s s'.
Proof.
  intros Hc. eexists. split; [done|]. split_and!; [done|by destruct s|].
  intros Ho. unfold store_ok. cbn. by apply cache_put_all.
Qed.

(** ** Loading a stored node *)

Lemma node_encode_inj n n' : node_wf n -> node_wf n' -> node_encode n = node_encode n' -> n = n'.
Proof.
  intros Hw Hw' E0. pose proof (decodeNode_encode n Hw) as Hd. rewrite E0 in Hd.
  rewrite (decodeNode_encode n' Hw') in Hd. congruence.
Qed.

Lemma loadNode_ok nk n s :
  store_ok s -> contents (s_backend s) !! nodeRecordKey nk = Some (node_encode n) -> node_wf n ->
  ∃ s', loadNode nk (node_hash n) s = (Ok n, s') ∧ reads s s'.
Proof.
  intros Ho Hrec Hwf. unfold loadNode.
  destruct (cacheGet_reads nk s) as (r & s1 & E1 & R1 & Hr). rewrite (bind_ok _ _ _ _ _ E1).
  destruct r as [n'|].
  - destruct (Hr Ho n' eq_refl) as [Hr' Hw']. unfold nodeRecordKey in Hrec.
    assert (n' = n) as -> by (apply node_encode_inj; congruence).
    rewrite decide_True by done. by exists s1.
  - destruct (backend_get_ok (nodeRecordKey nk) s1) as (s2 & E2 & R2 & _).
    rewrite (bind_ok _ _ _ _ _ E2), (reads_contents _ _ R1), Hrec. unfold lift.
    rewrite decodeNode_encode by done. unfold mbind at 1, M_bind at 1.
    rewrite decide_True by done.
    destruct (cachePut_reads nk n s2) as (s3 & E3 & R3).
    { by rewrite (reads_contents _ _ R2), (reads_contents _ _ R1). }
    exists s3. rewrite (bind_ok _ _ _ _ _ E3). split; [done|]. eauto using reads_trans.
Qed.

(** ** Stored trees *)

Definition stored (C : gmap bytes bytes) (pre : list N) (ot : option tree) : Prop :=
  ∀ q t, tree_at ot q = Some t ->
    C !! nodeRecordKey (NodeKey (t_version t) (pre ++ q)) = Some (node_encode (t_node t)).

Lemma stored_top C pre t :
  stored C pre (Some t) ->
  C !! nodeRecordKey (NodeKey (t_version t) pre) = Some (node_encode (t_node t)).
Proof. intros Hs. specialize (Hs [] t eq_refl). by rewrite app_nil_r in Hs. Qed.

Lemma stored_child C pre v cs i :
  stored C pre (Some (TNode v cs)) -> stored C (pre ++ [i]) (mjoin (cs !! N.to_nat i)).
Proof. intros Hs q t Hq. rewrite <-app_assoc. by apply (Hs (i :: q)). Qed.

(** ** Values *)

(** [rec] is an at-rest form of the value [pt] of [path]. *)
Definition value_form (cipher : option bytes32) (path : Hash) (rec pt : bytes) : Prop :=
  match cipher with
  | Some key => aead_decrypt key rec (valueAAD path) = Ok pt
  | None => rec = pt
  end.

Definition has_value (C : gmap bytes bytes) (cipher : option bytes32) (l : leafNode) (pt : bytes) : Prop :=
  ∃ rec, C !! valueRecordKey (l_vh l) (l_valueVersion l) = Some rec ∧
    value_form cipher (l_path l) rec pt.

Lemma openValue_ok s path rec pt :
  value_form (s_cipher s) path rec pt -> openValue path rec s = (Ok pt, s).
Proof.
  unfold openValue, value_form. intros Hf. rewrite bind_gets.
  destruct (s_cipher s); by rewrite Hf.
Qed.

Lemma readValue_ok s l pt :
  has_value (contents (s_backend s)) (s_cipher s) l pt -> l_vh l = vhOf (s_ck s) (l_path l) pt ->
  ∃ s', readValue (l_path l) (l_vh l) (l_valueVersion l) s = (Ok pt, s') ∧ reads s s'.
Proof.
  intros (rec & Hrec & Hf) Hvh. unfold readValue.
  destruct (backend_get_ok (valueRecordKey (l_vh l) (l_valueVersion l)) s) as (s1 & E1 & R1 & _).
  rewrite (bind_ok _ _ _ _ _ E1), Hrec. pose proof (reads_fields _ _ R1) as (Eck & Eci & _).
  rewrite (bind_ok _ _ _ pt s1) by (apply openValue_ok; by rewrite Eci).
  rewrite bind_gets, Eck, decide_True by done. eauto.
Qed.

(** ** Views: what one retained version of the store holds *)

(** [ot] is the tree and [st] the state (plaintext values by path) that the
    contents [C] hold at [version] under the keys of the store. *)
Record view (C : gmap bytes bytes) (ck : bytes) (cipher : option bytes32) (version : N)
    (ot : option tree) (st : gmap Hash bytes) : Prop := {
  v_root : C !! rootRecordKey version = Some (b32 (root_of (ochild ot)));
  v_twf : otwf [] ot;
  v_version : ∀ t, ot = Some t -> t_version t = version;
  v_le : ∀ q t, tree_at ot q = Some t -> (t_version t ≤ version)%N;
  v_vle : ∀ l, l ∈ oleaves ot -> (l_valueVersion l ≤ version)%N;
  v_stored : stored C [] ot;
  v_leaf : ∀ l, l ∈ oleaves ot -> ∃ pt, st !! l_path l = Some pt ∧
     l_vh l = vhOf ck (l_path l) pt ∧ has_value C cipher l pt;
  v_dom : ∀ p, is_Some (st !! p) -> ∃ l, l ∈ oleaves ot ∧ l_path l = p
}.

Section walk.
Variables (C : gmap bytes bytes) (st : gmap Hash bytes).

Lemma walk_from_ok left pre t path s :
  left + length pre = nibbles -> twf pre t -> under pre path -> store_ok s ->
  contents (s_backend s) = C -> stored C pre (Some t) ->
  (∀ l, l ∈ leaves t -> ∃ pt, st !! l_path l = Some pt ∧
     l_vh l = vhOf (s_ck s) (l_path l) pt ∧ has_value C (s_cipher s) l pt) ->
  (under pre path -> is_Some (st !! path) -> ∃ l, l ∈ leaves t ∧ l_path l = path) ->
  ∃ s', walk_from left (child_of t) pre path s = (Ok (st !! path), s') ∧ reads s s'.
Proof.
  revert pre t s. induction left as [|left IH]; intros pre t s Hn Hw Hu Ho EC Hst Hl Hd.
  all: destruct (loadNode_ok (NodeKey (t_version t) pre) (t_node t) s) as (s1 & E1 & R1);
    [done|rewrite EC; by apply stored_top|by eapply twf_node_wf|].
  all: cbn [walk_from]; rewrite (bind_ok _ _ _ _ _ E1), t_node_isLeaf, decide_False by (cbn; auto).
  all: destruct (reads_fields _ _ R1) as (Eck & Eci & _).
  all: destruct t as [v l|v cs]; cbn [t_node].
  all: try (destruct (Hl l) as (pt & Hpt & Hvh & Hv); [left|];
    case_decide as Hp;
    [subst path; destruct (readValue_ok s1 l pt) as (s2 & E2 & R2);
      [rewrite (reads_contents _ _ R1), EC, Eci; done|by rewrite Eck|];
     exists s2; rewrite (bind_ok _ _ _ _ _ E2), Hpt; split; [done|by eapply reads_trans]
    |exists s1; split; [|done]; destruct (st !! path) eqn:Ep; [|done];
     destruct (Hd Hu) as (l' & ->%list_elem_of_singleton & ?); [by eexists|done]]).
  { inversion Hw. unfold nibbles in *. lia. }
  inversion Hw as [|? ? ? Hlen Hpre Hf Hv Hc Hb]; subst.
  set (nib := nibble path (length pre)).
  assert (under (pre ++ [nib]) path) as Hu' by (apply under_snoc; auto).
  unfold slot. rewrite list_lookup_fmap.
  pose proof (nibble_lt16 path (length pre) Hpre) as Hnib. fold nib in Hnib.
  destruct (lookup_lt_is_Some_2 cs (N.to_nat nib)) as [oc Hoc]; [lia|].
  rewrite Hoc. cbn. pose proof (stored_child _ _ _ _ nib Hst) as Hst'. rewrite Hoc in Hst'. cbn in Hst'.
  assert (∀ l, l ∈ leaves (TNode v cs) -> l_path l = path -> l ∈ oleaves oc) as Hin.
  { intros l' (i & t & Hi & Hlt)%elem_of_leaves_node Hp. specialize (Hc i t Hi).
    pose proof (twf_leaves_under _ _ _ Hc Hlt) as (_ & _ & Hni)%under_snoc.
    rewrite Hp in Hni. fold nib in Hni. rewrite Hni, Nat2N.id in Hoc. by simplify_eq. }
  destruct oc as [t|]; cbn.
  - destruct (IH (pre ++ [nib]) t s1) as (s2 & E2 & R2).
    + rewrite length_app. cbn. lia.
    + specialize (Hc _ _ Hoc). by rewrite N2Nat.id in Hc.
    + done.
    + by eapply reads_ok.
    + by rewrite (reads_contents _ _ R1).
    + done.
    + intros l' Hlt. rewrite Eck, Eci. apply Hl. apply elem_of_leaves_node. eauto.
    + intros _ Hs. destruct (Hd Hu Hs) as (l' & Hlt & Hp). exists l'. auto.
    + exists s2. split; [done|by eapply reads_trans].
  - exists s1. split; [|done]. destruct (st !! path) eqn:Ep; [|done].
    destruct (Hd Hu) as (l' & Hlt & Hp); [by eexists|]. specialize (Hin l' Hlt Hp).
    by apply not_elem_of_nil in Hin.
Qed.
End walk.

Lemma walk_ok s version ot st path :
  store_ok s -> view (contents (s_backend s)) (s_ck s) (s_cipher s) version ot st ->
  ∃ s', walk (ochild ot) path s = (Ok (st !! path), s') ∧ reads s s'.
Proof.
  intros Ho V. destruct V. destruct ot as [t|]; cbn [ochild walk].
  - eapply walk_from_ok; eauto using under_nil.
  - exists s. split; [|apply reads_refl]. destruct (st !! path) eqn:Ep; [|done].
    destruct (v_dom0 path) as (l' & Hl & _); [by eexists|]. by apply not_elem_of_nil in Hl.
Qed.

Lemma loadRootRecord_ok s v h :
  contents (s_backend s) !! rootRecordKey v = Some (b32 h) ->
  ∃ s', loadRootRecord v s = (Ok h, s') ∧ reads s s'.
Proof.
  intros Hr. unfold loadRootRecord.
  destruct (backend_get_ok (rootRecordKey v) s) as (s1 & E1 & R1 & _).
  rewrite (bind_ok _ _ _ _ _ E1), Hr, decide_True by apply length_b32.
  exists s1. by rewrite copy32_b32.
Qed.

Lemma loadRootChild_ok s version ot st :
  store_ok s -> view (contents (s_backend s)) (s_ck s) (s_cipher s) version ot st ->
  (∀ t, ot = Some t -> t_hash t ≠ placeholderHash) ->
  ∃ s', loadRootChild (root_of (ochild ot)) version s = (Ok (ochild ot), s') ∧ reads s s'.
Proof.
  intros Ho V Hne. destruct V. unfold loadRootChild. destruct ot as [t|]; cbn [ochild root_of].
  - change (c_hash (child_of t)) with (t_hash t). rewrite decide_False by (by apply Hne).
    destruct (loadNode_ok (rootNodeKey version) (t_node t) s) as (s1 & E1 & R1).
    + done.
    + rewrite <-(v_version0 t eq_refl). by apply stored_top.
    + exact (twf_node_wf [] t v_twf0).
    + exists s1. unfold t_hash. rewrite (bind_ok _ _ _ _ _ E1), t_node_isLeaf.
      split; [|done]. cbn. do 3 f_equal. unfold child_of. by rewrite (v_version0 t).
  - rewrite decide_True by done. exists s. split; [done|apply reads_refl].
Qed.

(** ** The store against its logical state *)

Record repr s (ot : option tree) (st : gmap Hash bytes) : Prop := {
  r_ok : store_ok s;
  r_view : view (contents (s_backend s)) (s_ck s) (s_cipher s) (s_version s) ot st;
  r_root : s_root s = root_of (ochild ot);
  r_child : s_rootChild s = ochild ot;
  r_u64 : is_u64 (s_version s);
  r_fresh : ∀ nk, nk_wf nk -> (s_version s < nk_version nk)%N ->
    contents (s_backend s) !! nodeRecordKey nk = None
}.

Lemma reads_repr s s' ot st : reads s s' -> repr s ot st -> repr s' ot st.
Proof.
  intros R []. destruct (reads_fields _ _ R) as (Eck & Eci & _ & Er & Ev & Erc & _).
  split; [by eapply reads_ok|rewrite (reads_contents _ _ R), Eck, Eci, Ev; done|congruence..|].
  by rewrite (reads_contents _ _ R), Ev.
Qed.

Lemma Get_ok s ot st key :
  repr s ot st -> ∃ s', Get key s = (Ok (st !! pathOf (s_ck s) key), s') ∧ reads s s'.
Proof. intros []. unfold Get. rewrite !bind_gets, r_child0. by eapply walk_ok. Qed.

Lemma GetAt_ok s ot st v ot' st' key :
  repr s ot st -> (v ≤ s_version s)%N ->
  view (contents (s_backend s)) (s_ck s) (s_cipher s) v ot' st' ->
  (∀ t, ot' = Some t -> t_hash t ≠ placeholderHash) ->
  ∃ s', GetAt v key s = (Ok (st' !! pathOf (s_ck s) key), s') ∧ reads s s'.
Proof.
  intros [] Hv V Hne. unfold GetAt. rewrite bind_gets, decide_False by lia.
  destruct (loadRootRecord_ok s v (root_of (ochild ot'))) as (s1 & E1 & R1); [apply V|].
  rewrite (bind_ok _ _ _ _ _ E1). pose proof (reads_fields _ _ R1) as (Eck & Eci & _).
  destruct (loadRootChild_ok s1 v ot' st') as (s2 & E2 & R2).
  { by eapply reads_ok. }
  { by rewrite (reads_contents _ _ R1), Eck, Eci. }
  { done. }
  rewrite (bind_ok _ _ _ _ _ E2). pose proof (reads_trans _ _ _ R1 R2) as R.
  pose proof (reads_fields _ _ R) as (Eck2 & Eci2 & _). rewrite bind_gets, Eck2.
  destruct (walk_ok s2 v ot' st' (pathOf (s_ck s) key)) as (s3 & E3 & R3).
  { by eapply reads_ok. }
  { by rewrite (reads_contents _ _ R), Eck2, Eci2. }
  exists s3. split; [done|by eapply reads_trans].
Qed.
End read.
