(* ===== verification/Update.v ===== *)
(** Batches of updates on sets of leaves: the pure part of [computeBatch] and
    [applySubtree] ([ledger/store.go]).

    [upd_spec nv us ls ls'] is what a batch [us] committed as version [nv] must
    do to a set of leaves: paths it does not name stay, deletions remove, inserts
    leave one leaf with the new commitment, and re-inserting the same commitment
    keeps the old leaf with its old value version.  The file shows that sorting,
    cutting into nibble groups and merging with a resident leaf respect it. *)

From S2P Require Import Prelude Errors Sha256 Hashing Node Store.

Lemma elem_of_fst {A B} (a : A) (b : B) (l : list (A * B)) : (a, b) ∈ l -> a ∈ l.*1.
Proof. intros Hin. apply list_elem_of_fmap. by exists (a, b). Qed.

(** * Path-sorted lists *)

Section sorted.
Context {A : Type} (path : A -> Hash).

Definition path_sorted (l : list A) : Prop :=
  StronglySorted (λ a b, bytes_lt (b32 (path a)) (b32 (path b))) l.

Lemma path_sorted_NoDup l : path_sorted l -> NoDup (path <$> l).
Proof.
  induction 1 as [|a l Hs IH Hf]; cbn; constructor; [|done].
  intros (b & Eb & Hb)%list_elem_of_fmap. rewrite Forall_forall in Hf. specialize (Hf b Hb).
  rewrite Eb in Hf. by apply irreflexivity in Hf; [|apply _].
Qed.

Lemma path_sorted_filter (P : A -> Prop) `{∀ x, Decision (P x)} l :
  path_sorted l -> path_sorted (filter P l).
Proof. apply StronglySorted_filter. Qed.

Lemma path_sorted_le l :
  StronglySorted (λ a b, bytes_le (b32 (path a)) (b32 (path b))) l -> NoDup (path <$> l) ->
  path_sorted l.
Proof.
  induction 1 as [|a l Hs IH Hf]; intros Hnd; [constructor|]. cbn in Hnd.
  apply NoDup_cons in Hnd as [Hn Hnd]. constructor; [by apply IH|].
  rewrite Forall_forall in Hf |- *. intros b Hb.
  destruct (proj1 (bytes_le_lt_eq _ _) (Hf b Hb)) as [?|E]; [done|].
  apply (inj b32) in E. exfalso. apply Hn. rewrite E. by apply list_elem_of_fmap_2.
Qed.

(** ** Nibble groups *)

Abbreviation at_nibble d nib := (λ x, nibble (path x) d = nib) (only parsing).

Lemma group_nibbles_nil d l : group_nibbles path d l = [] -> l = [].
Proof.
  destruct l as [|x l]; [done|]. cbn. destruct (group_nibbles path d l) as [|[]]; [done|].
  by case_match.
Qed.

(** The runs of a path-sorted list are its nibble classes, each once. *)
Lemma group_nibbles_spec pre l :
  length pre < 64 -> Forall (λ x, under pre (path x)) l -> path_sorted l ->
  StronglySorted N.lt (group_nibbles path (length pre) l).*1 ∧
  (∀ nib g, (nib, g) ∈ group_nibbles path (length pre) l ->
     g = filter (at_nibble (length pre) nib) l ∧ ∃ x, x ∈ l ∧ nibble (path x) (length pre) = nib) ∧
  (∀ x, x ∈ l -> nibble (path x) (length pre) ∈ (group_nibbles path (length pre) l).*1).
Proof.
  intros Hp Hu Hs. set (d := length pre) in *. induction Hs as [|x l Hs IH Hlt].
  { cbn. split_and!; [constructor|..]; by intros * ?%not_elem_of_nil. }
  apply Forall_cons in Hu as [Hx Hu]. specialize (IH Hu). destruct IH as (Hss & Hg & Hc).
  assert (∀ y, y ∈ l -> (nibble (path x) d ≤ nibble (path y) d)%N) as Hle.
  { intros y Hy. rewrite Forall_forall in Hlt, Hu. by apply path_lt_nibble; auto. }
  cbn [group_nibbles]. destruct (group_nibbles path d l) as [|[nib g] gs] eqn:Eg.
  { apply group_nibbles_nil in Eg as ->. cbn. split_and!.
    - repeat constructor.
    - intros nib g [= -> ->]%list_elem_of_singleton. rewrite decide_True by done.
      split; [done|]. exists x. split; [left|done].
    - intros y ->%list_elem_of_singleton. left. }
  assert (∃ y, y ∈ l ∧ nibble (path y) d = nib) as (y & Hy & Ey) by (apply (Hg nib g); left).
  pose proof (Hle y Hy) as Hny. rewrite Ey in Hny.
  cbn in Hss. inversion Hss as [|? ? Hss' Hall]; subst.
  rewrite Forall_forall in Hall.
  destruct (N.eqb_spec (nibble (path x) d) (nibble (path y) d)) as [E|E].
  - split_and!.
    + done.
    + intros nib' g' [[= -> ->]|Hin]%elem_of_cons.
      * rewrite filter_cons, decide_True by done. destruct (Hg (nibble (path y) d) g) as [-> _]; [left|].
        split; [done|]. exists x. split; [left|done].
      * destruct (Hg nib' g') as [-> (z & Hz & Ez)]; [by right|].
        rewrite filter_cons, decide_False.
        -- split; [done|]. exists z. split; [by right|done].
        -- assert (nib' ∈ gs.*1) as Hin' by (by eapply elem_of_fst).
           specialize (Hall nib' Hin'). lia.
    + intros z [->|Hz]%elem_of_cons; cbn; [rewrite E; left|by apply Hc].
  - assert (∀ nib' g', (nib', g') ∈ (nibble (path y) d, g) :: gs -> (nibble (path x) d < nib')%N) as Hlow.
    { intros nib' g' [[= -> ->]|Hin]%elem_of_cons; [lia|].
      assert (nib' ∈ gs.*1) as Hin' by (by eapply elem_of_fst).
      specialize (Hall nib' Hin'). lia. }
    split_and!.
    + cbn. constructor; [done|]. apply Forall_forall.
      intros nib' Hin. change (nib' ∈ ((nibble (path y) d, g) :: gs).*1) in Hin.
      apply list_elem_of_fmap in Hin as ([n' g'] & -> & Hin). by eapply Hlow.
    + intros nib' g' [[= -> ->]|Hin]%elem_of_cons.
      * rewrite filter_cons, decide_True by done.
        assert (filter (at_nibble d (nibble (path x) d)) l = []) as ->.
        { destruct (filter _ l) as [|z zs] eqn:Ez; [done|].
          assert (z ∈ filter (at_nibble d (nibble (path x) d)) l) as [Hz Hzl]%list_elem_of_filter
            by (rewrite Ez; left).
          pose proof (Hc z Hzl) as Hin. apply list_elem_of_fmap in Hin as ([n' g'] & E' & Hin).
          apply Hlow in Hin. cbn in E'. lia. }
        split; [done|]. exists x. split; [left|done].
      * pose proof (Hlow _ _ Hin). destruct (Hg nib' g' Hin) as [-> (z & Hz & Ez)].
        rewrite filter_cons, decide_False by lia. split; [done|]. exists z. split; [by right|done].
    + intros z [->|Hz]%elem_of_cons; [left|right; by apply Hc].
Qed.
End sorted.

#[export] Instance update_le_trans : Transitive update_le.
Proof. intros a b c. unfold update_le. apply bytes_le_trans. Qed.
#[export] Instance update_le_total : Total update_le.
Proof. intros a b. unfold update_le. apply bytes_le_total. Qed.
#[export] Instance leaf_le_trans : Transitive leaf_le.
Proof. intros a b c. unfold leaf_le. apply bytes_le_trans. Qed.
#[export] Instance leaf_le_total : Total leaf_le.
Proof. intros a b. unfold leaf_le. apply bytes_le_total. Qed.

Lemma sortUpdates_perm us : sortUpdates us ≡ₚ us.
Proof. apply merge_sort_Permutation. Qed.

Lemma sortUpdates_sorted us : NoDup (u_path <$> us) -> path_sorted u_path (sortUpdates us).
Proof.
  intros Hnd. apply path_sorted_le.
  - apply (StronglySorted_merge_sort update_le); apply _.
  - by rewrite sortUpdates_perm.
Qed.

Lemma sortLeaves_perm ls : sortLeaves ls ≡ₚ ls.
Proof. apply merge_sort_Permutation. Qed.

Lemma sortLeaves_sorted ls : NoDup (l_path <$> ls) -> path_sorted l_path (sortLeaves ls).
Proof.
  intros Hnd. apply path_sorted_le.
  - apply (StronglySorted_merge_sort leaf_le); apply _.
  - by rewrite sortLeaves_perm.
Qed.

(** * What a batch does to a set of leaves *)

Definition upd_leaf (nv : N) (us : list update) (ls : list leafNode) (l : leafNode) : Prop :=
  (l ∈ ls ∧ ∀ u, u ∈ us -> u_path u ≠ l_path l) ∨
  (Update (l_path l) (Some (l_vh l)) ∈ us ∧
   (l ∈ ls ∨ (l_valueVersion l = nv ∧ ∀ l0, l0 ∈ ls -> l_path l0 = l_path l -> l_vh l0 ≠ l_vh l))).

Definition upd_spec (nv : N) (us : list update) (ls ls' : list leafNode) : Prop :=
  ∀ l, l ∈ ls' ↔ upd_leaf nv us ls l.

Lemma upd_spec_nil nv ls : upd_spec nv [] ls ls.
Proof.
  intros l. unfold upd_leaf. split.
  - left. split; [done|]. by intros u ?%not_elem_of_nil.
  - intros [[? _]|[?%not_elem_of_nil _]]; done.
Qed.

Lemma upd_spec_build nv us :
  upd_spec nv us [] (omap (λ u, (λ vh, LeafNode (u_path u) vh nv) <$> u_vh u) us).
Proof.
  intros l. rewrite list_elem_of_omap. unfold upd_leaf. split.
  - intros ([p [vh|]] & Hu & E); [|done]. injection E as <-. right. cbn. split; [done|].
    right. split; [done|]. by intros l0 ?%not_elem_of_nil.
  - intros [[Hn _]|[Hu [Hn|[Hv _]]]]; [by apply not_elem_of_nil in Hn..|].
    exists (Update (l_path l) (Some (l_vh l))). split; [done|]. cbn. subst nv. by destruct l.
Qed.

Lemma upd_spec_perm nv us us' ls ls' : us ≡ₚ us' -> upd_spec nv us ls ls' -> upd_spec nv us' ls ls'.
Proof.
  intros Hp Hu l. rewrite (Hu l). unfold upd_leaf. setoid_rewrite Hp. done.
Qed.

(** Merging a batch with a resident leaf. *)
Section merge.
Variables (nv : N) (leaf : leafNode).

Definition merge_entry (u : update) : option (Hash * N) :=
  match u_vh u with
  | Some vh => Some (vh, if decide (u_path u = l_path leaf ∧ vh = l_vh leaf)
                         then l_valueVersion leaf else nv)
  | None => None
  end.

Lemma merge_step us m p :
  NoDup (u_path <$> us) ->
  foldl (merge_update nv leaf) m us !! p
  = match list_find (λ u, u_path u = p) us with
    | Some (_, u) => merge_entry u
    | None => m !! p
    end.
Proof.
  revert m. induction us as [|u us IH]; intros m Hnd; [done|]. cbn [foldl].
  cbn in Hnd. apply NoDup_cons in Hnd as [Hn Hnd]. rewrite IH by done. cbn [list_find].
  destruct (decide (u_path u = p)) as [E|E].
  - subst p.
    assert (list_find (λ u0, u_path u0 = u_path u) us = None) as ->.
    { apply list_find_None, Forall_forall. intros u' Hu' E. apply Hn.
      apply list_elem_of_fmap. by exists u'. }
    unfold merge_entry, merge_update. destruct (u_vh u); [by rewrite lookup_insert_eq|by rewrite lookup_delete_eq].
  - destruct (list_find (λ u0, u_path u0 = p) us) as [[i u']|] eqn:Ef; [done|]. cbn. unfold merge_update.
    destruct (u_vh u); [by rewrite lookup_insert_ne|by rewrite lookup_delete_ne].
Qed.

Lemma merge_updates_spec us p vh vv :
  NoDup (u_path <$> us) ->
  merge_updates nv leaf us !! p = Some (vh, vv) ↔ upd_leaf nv us [leaf] (LeafNode p vh vv).
Proof.
  intros Hnd. unfold merge_updates. rewrite merge_step by done. unfold upd_leaf. cbn.
  setoid_rewrite list_elem_of_singleton.
  destruct (list_find (λ u, u_path u = p) us) as [[i u]|] eqn:Ef.
  - apply list_find_Some in Ef as (Hi & Hp & _). apply list_elem_of_lookup_2 in Hi as Hin.
    assert (∀ u', u' ∈ us -> u_path u' = p -> u' = u) as Hun.
    { intros u' Hu' Hp'. apply (list_elem_of_lookup) in Hu' as [j Hj].
      assert (i = j) as ->.
      { eapply (NoDup_lookup (u_path <$> us)); [done|..]; rewrite list_lookup_fmap.
        - rewrite Hi. cbn. by rewrite Hp.
        - rewrite Hj. cbn. by rewrite Hp'. }
      congruence. }
    unfold merge_entry. rewrite Hp. split.
    + destruct u as [p' [vh'|]]; cbn in *; [|done]. subst p'. intros [= <- <-]. right.
      split; [done|]. case_decide as Hd.
      * left. destruct Hd as [-> ->]. by destruct leaf.
      * right. split; [done|]. intros l0 -> ? ?. apply Hd. done.
    + intros [[_ Hno]|[Hu Hc]]; [by destruct (Hno u Hin)|].
      rewrite <-(Hun _ Hu eq_refl). cbn. destruct Hc as [<-|[-> Hne]].
      * cbn. by rewrite decide_True.
      * rewrite decide_False; [done|]. intros [-> ->]. by apply (Hne leaf).
  - apply list_find_None in Ef. rewrite Forall_forall in Ef. split.
    + intros Hl. left. apply lookup_singleton_Some in Hl as [<- [= <- <-]].
      split; [by destruct leaf|]. exact Ef.
    + intros [[<- _]|[Hu _]].
      * apply lookup_insert_eq.
      * by destruct (Ef _ Hu).
Qed.
End merge.
