(* ===== verification/StoreWrite.v ===== *)
(** The batch apply against version trees: [putLeaf], [takeLeaf],
    [buildFromPairs] and [applySubtree] ([ledger/store.go]).

    The recursion of the source works on child references, a pending set of new
    nodes and lists of stale marks.  The simulation lemmas of this file show that
    on a reference to a well-formed tree it computes a reference to another
    well-formed tree whose leaves are those [upd_spec] prescribes, that the
    pending set and the new value records are exactly what that tree needs and
    storage does not have, and that the stale marks are exactly what the old tree
    used and the new one does not.  In particular none of the panics, the
    "missing" or the "corrupted" errors is reached. *)

From S2P Require Import Prelude Errors Sha256 Hashing Node Smt Aead Backend Cache Store Tree StoreRead Update.

Lemma prefix_snoc_ne {A} (p : list A) i j x :
  (p ++ [i]) `prefix_of` x -> (p ++ [j]) `prefix_of` x -> i = j.
Proof.
  intros [k ->] [k' E]. rewrite <-!app_assoc in E. apply app_inv_head in E. by injection E.
Qed.

Section write.
Context `{H : Hasher} `{G : GCM} `{E : Entropy} `{MR : MapRange}.
Context {B : Type} `{BK : Backend B} `{!BackendSpec B} `{!BackendReliable B}.
Implicit Types s : Store B.

(** [C] is the storage before the commit of version [nv]; [owner] says which
    path a value commitment belongs to; [cts] are the sealed inserts. *)
Variables (C : gmap bytes bytes) (owner : Hash -> option Hash) (nv : N) (cts : gmap Hash bytes).
Hypothesis Hnv : is_u64 nv.

Abbreviation new_key pos := (NodeKey nv pos).
Abbreviation pend acc pos := (a_pending acc !! nodeKey_encode (new_key pos)).

(** ** Invariants of the accumulator *)

Definition pend_wf (P : gmap bytes pendingNode) : Prop :=
  ∀ k pn, P !! k = Some pn ->
    k = nodeKey_encode (pn_nk pn) ∧ nk_wf (pn_nk pn) ∧ nk_version (pn_nk pn) = nv ∧ node_wf (pn_n pn).

Definition vals_ok (V : gmap Hash bytes) : Prop :=
  ∀ vh ct, V !! vh = Some ct -> ∃ p, owner vh = Some p ∧ cts !! p = Some ct.

Record acc_ok (acc : commitAcc) : Prop := {
  ao_nv : a_newVersion acc = nv;
  ao_cts : a_insertCTs acc = cts;
  ao_pend : pend_wf (a_pending acc);
  ao_vals : vals_ok (a_values acc)
}.

(** Where the record of a node of the current tree is found: among this
    commit's pending nodes, or in storage. *)
Definition resolved (acc : commitAcc) (pos : list N) (t : tree) : Prop :=
  if decide (t_version t = nv)
  then pend acc pos = Some (PendingNode (new_key pos) (t_node t))
  else C !! nodeRecordKey (NodeKey (t_version t) pos) = Some (node_encode (t_node t)).

Definition leaf_ok (l : leafNode) : Prop :=
  owner (l_vh l) = Some (l_path l) ∧ (l_valueVersion l = nv -> is_Some (cts !! l_path l)) ∧
  is_u64 (l_valueVersion l).

Record inv (acc : commitAcc) (pre : list N) (ot : option tree) : Prop := {
  i_wf : otwf pre ot;
  i_res : ∀ q t, tree_at ot q = Some t -> resolved acc (pre ++ q) t;
  i_leaf : ∀ l, l ∈ oleaves ot -> leaf_ok l;
  i_have : ∀ l, l ∈ oleaves ot -> l_valueVersion l = nv -> is_Some (a_values acc !! l_vh l);
  i_exact : ∀ q, nk_wf (new_key (pre ++ q)) -> is_Some (pend acc (pre ++ q)) ->
    ∃ t, tree_at ot q = Some t ∧ t_version t = nv;
  i_vexact : ∀ vh p, owner vh = Some p -> under pre p -> is_Some (a_values acc !! vh) ->
    ∃ l, l ∈ oleaves ot ∧ l_vh l = vh ∧ l_valueVersion l = nv
}.

(** Nothing outside the positions [R] changed. *)
Record frame (R : list N -> Prop) (acc acc' : commitAcc) : Prop := {
  f_head : a_newHead acc' = a_newHead acc;
  f_pend : ∀ nk, nk_wf nk -> ¬ R (nk_prefix nk) ->
    a_pending acc' !! nodeKey_encode nk = a_pending acc !! nodeKey_encode nk;
  f_val : ∀ vh p, owner vh = Some p -> ¬ R (nibs p) -> a_values acc' !! vh = a_values acc !! vh
}.

Lemma frame_refl R acc : frame R acc acc.
Proof. done. Qed.

Lemma frame_trans R a1 a2 a3 : frame R a1 a2 -> frame R a2 a3 -> frame R a1 a3.
Proof.
  intros [] []. split; [congruence|..].
  - intros nk Hw HR. rewrite f_pend1, f_pend0; done.
  - intros vh p Ho HR. rewrite (f_val1 vh p), (f_val0 vh p); done.
Qed.

Lemma frame_mono (R R' : list N -> Prop) a1 a2 : (∀ x, R x -> R' x) -> frame R a1 a2 -> frame R' a1 a2.
Proof. intros HR []. split; eauto. Qed.

Lemma tree_at_pos pre ot q t :
  otwf pre ot -> tree_at ot q = Some t ->
  twf (pre ++ q) t ∧ length (pre ++ q) ≤ 64 ∧ Forall (λ x, (x < 16)%N) (pre ++ q).
Proof.
  revert pre ot. induction q as [|i q IH]; intros pre ot Hw Ht.
  - cbn in Ht. subst ot. rewrite app_nil_r. cbn in Hw. split; [done|].
    inversion Hw; subst; [eauto using under_length, under_lt16|split; [lia|done]].
  - destruct ot as [[v l|v cs]|]; try done. cbn in Ht.
    replace (pre ++ i :: q) with ((pre ++ [i]) ++ q) by by rewrite <-app_assoc.
    apply (IH _ (mjoin (cs !! N.to_nat i))); [|done].
    inversion Hw as [|? ? ? Hl Hp Hf Hv Hc Hb]; subst.
    destruct (cs !! N.to_nat i) as [[t'|]|] eqn:Ei; cbn; [|done|done].
    specialize (Hc _ _ Ei). by rewrite N2Nat.id in Hc.
Qed.

Lemma new_key_wf pos : length pos ≤ 64 -> Forall (λ x, (x < 16)%N) pos -> nk_wf (new_key pos).
Proof. done. Qed.

Lemma inv_frame R acc acc' pre ot :
  inv acc pre ot -> frame R acc acc' -> (∀ x, pre `prefix_of` x -> ¬ R x) -> inv acc' pre ot.
Proof.
  intros [] [] HR. split; [done|..|done| | |].
  - intros q t Hq. specialize (i_res0 q t Hq). unfold resolved in *. case_decide; [|done].
    destruct (tree_at_pos _ _ _ _ i_wf0 Hq) as (_ & ? & ?).
    rewrite f_pend0; [done|done|]. apply HR. by apply prefix_app_r.
  - intros l Hl Hv. destruct (i_leaf0 l Hl) as (Ho & _ & _).
    rewrite (f_val0 _ _ Ho); [by apply i_have0|]. apply HR.
    assert (under pre (l_path l)); [|done]. destruct ot as [t|]; [|by apply not_elem_of_nil in Hl].
    by eapply twf_leaves_under.
  - intros q Hq Hs. rewrite f_pend0 in Hs; [by apply i_exact0|done|]. apply HR. by apply prefix_app_r.
  - intros vh p Ho Hu Hs. rewrite (f_val0 _ _ Ho) in Hs by (by apply HR). by apply (i_vexact0 vh p).
Qed.

Lemma inv_child acc pre v cs i :
  inv acc pre (Some (TNode v cs)) -> (i < 16)%N -> inv acc (pre ++ [i]) (mjoin (cs !! N.to_nat i)).
Proof.
  intros [] Hi. inversion i_wf0 as [|? ? ? Hl Hp Hf Hv Hc Hb]; subst.
  assert (∀ l, l ∈ oleaves (mjoin (cs !! N.to_nat i)) -> l ∈ leaves (TNode v cs)) as Hsub.
  { intros l Hin. apply elem_of_leaves_node. destruct (cs !! N.to_nat i) as [[t|]|] eqn:Ei;
      cbn in Hin; [|by apply not_elem_of_nil in Hin..]. eauto. }
  split.
  - destruct (cs !! N.to_nat i) as [[t|]|] eqn:Ei; cbn; [|done|done].
    specialize (Hc _ _ Ei). by rewrite N2Nat.id in Hc.
  - intros q t Hq. rewrite <-app_assoc. by apply i_res0.
  - intros l Hin. by apply i_leaf0, Hsub.
  - intros l Hin. by apply i_have0, Hsub.
  - intros q. rewrite <-app_assoc. intros Hq Hs. apply (i_exact0 (i :: q)) in Hs; [|done]. exact Hs.
  - intros vh p Ho Hu Hs. apply under_snoc in Hu as (Hu & _ & Hn).
    destruct (i_vexact0 vh p Ho Hu Hs) as (l & Hin & Evh & Hvv).
    exists l. split; [|done]. apply (elem_of_leaves_node v) in Hin as (j & t & Hj & Hin).
    specialize (Hc _ _ Hj). apply (twf_leaves_under _ _ _ Hc) in Hin as Hn'.
    apply under_snoc in Hn' as (_ & _ & Hn').
    assert (l_path l = p) as Ep.
    { destruct (i_leaf0 l) as (Ho' & _); [apply (elem_of_leaves_node v); eauto|].
      rewrite Evh in Ho'. congruence. }
    rewrite Ep, Hn in Hn'. rewrite Hn', Nat2N.id, Hj. done.
Qed.

Lemma inv_node acc pre v ts :
  length ts = 16 -> length pre < 64 -> Forall (λ x, (x < 16)%N) pre -> is_u64 v ->
  (∀ i, (i < 16)%N -> inv acc (pre ++ [i]) (mjoin (ts !! N.to_nat i))) ->
  branching ts -> resolved acc pre (TNode v ts) -> (is_Some (pend acc pre) -> v = nv) ->
  inv acc pre (Some (TNode v ts)).
Proof.
  intros Hl Hp Hf Hv Hi Hb Hres Hex.
  assert (∀ l, l ∈ leaves (TNode v ts) -> ∃ i, (i < 16)%N ∧ l ∈ oleaves (mjoin (ts !! N.to_nat i))) as Hlv.
  { intros l (i & t & Ht & Hin)%elem_of_leaves_node. exists (N.of_nat i).
    rewrite Nat2N.id, Ht. split; [|done]. apply lookup_lt_Some in Ht. lia. }
  split.
  - constructor; try done. intros i t Ht. pose proof (lookup_lt_Some _ _ _ Ht).
    specialize (Hi (N.of_nat i) ltac:(lia)). rewrite Nat2N.id, Ht in Hi. apply Hi.
  - intros [|i q] t Hq.
    + cbn in Hq. injection Hq as <-. by rewrite app_nil_r.
    + cbn in Hq. assert (i < 16)%N as Hi16.
      { destruct (ts !! N.to_nat i) eqn:Ei; [|destruct q; done]. apply lookup_lt_Some in Ei. lia. }
      specialize (Hi i Hi16). apply (i_res _ _ _ Hi) in Hq. by rewrite <-app_assoc in Hq.
  - intros l (i & Hi16 & Hin)%Hlv. by eapply Hi.
  - intros l (i & Hi16 & Hin)%Hlv. by eapply Hi.
  - intros [|i q] Hw Hs.
    + rewrite app_nil_r in Hs. exists (TNode v ts). split; [done|]. by apply Hex.
    + assert (i < 16)%N as Hi16.
      { destruct Hw as (_ & _ & Hw). cbn in Hw. apply Forall_app in Hw as [_ Hw].
        by apply Forall_cons in Hw as [? _]. }
      specialize (Hi i Hi16). apply (i_exact _ _ _ Hi); by rewrite <-app_assoc.
  - intros vh p Ho Hu Hs. set (i := nibble p (length pre)).
    assert (i < 16)%N as Hi16 by by apply nibble_lt16.
    destruct (i_vexact _ _ _ (Hi i Hi16) vh p Ho) as (l & Hin & ?); [by apply under_snoc|done|].
    exists l. split; [|done]. apply elem_of_leaves_node.
    destruct (ts !! N.to_nat i) as [[t|]|] eqn:Ei; cbn in Hin; [|by apply not_elem_of_nil in Hin..].
    eauto.
Qed.

(** ** Writing new nodes *)

Lemma add_pending_ok acc pos n :
  acc_ok acc -> nk_wf (new_key pos) -> node_wf n -> acc_ok (add_pending (new_key pos) n acc).
Proof.
  intros [] Hw Hn. split; [done..| |done]. intros k pn. cbn. rewrite lookup_insert.
  case_decide as Ek; [|by apply ao_pend0]. intros [= <-]. done.
Qed.

Lemma pend_add acc pos n :
  pend (add_pending (new_key pos) n acc) pos = Some (PendingNode (new_key pos) n).
Proof. cbn. by rewrite lookup_insert_eq. Qed.

Lemma add_pending_frame acc pos n :
  nk_wf (new_key pos) -> frame (λ x, x = pos) acc (add_pending (new_key pos) n acc).
Proof.
  intros Hw. split; [done| |done]. intros nk Hnk Hne. cbn. rewrite lookup_insert_ne; [done|].
  intros Ek%nodeKey_encode_inj; [|done|done]. by subst nk.
Qed.

(** The region below [pre] holds no pending node, and values only of [ls]. *)
Definition no_pend (acc : commitAcc) (pre : list N) : Prop :=
  ∀ q, nk_wf (new_key (pre ++ q)) -> pend acc (pre ++ q) = None.
Definition vals_from (acc : commitAcc) (pre : list N) (ls : list leafNode) : Prop :=
  ∀ vh p, owner vh = Some p -> under pre p -> is_Some (a_values acc !! vh) ->
    ∃ l, l ∈ ls ∧ l_vh l = vh ∧ l_valueVersion l = nv.

(** [ot] was built afresh below [pre] with the leaves [ls]. *)
Record built (acc acc' : commitAcc) (pre : list N) (ls : list leafNode) (ot : option tree) : Prop := {
  b_acc : acc_ok acc';
  b_inv : inv acc' pre ot;
  b_frame : frame (prefix pre) acc acc';
  b_stale : a_stale acc' = a_stale acc;
  b_leaves : ∀ l, l ∈ oleaves ot ↔ l ∈ ls;
  b_new : ∀ q t, tree_at ot q = Some t -> t_version t = nv
}.

Lemma no_pend_child acc pre i : no_pend acc pre -> no_pend acc (pre ++ [i]).
Proof. intros Hn q. rewrite <-app_assoc. apply (Hn (i :: q)). Qed.

Lemma no_pend_frame R acc acc' pre :
  no_pend acc pre -> frame R acc acc' -> (∀ x, pre `prefix_of` x -> ¬ R x) -> no_pend acc' pre.
Proof.
  intros Hn [] HR q Hw. rewrite f_pend0; [by apply Hn|done|]. apply HR. by apply prefix_app_r.
Qed.

Lemma vals_from_frame R acc acc' pre ls :
  vals_from acc pre ls -> frame R acc acc' -> (∀ x, pre `prefix_of` x -> ¬ R x) ->
  vals_from acc' pre ls.
Proof.
  intros Hv [] HR vh p Ho Hu Hs. rewrite (f_val0 _ _ Ho) in Hs by (by apply HR). by apply (Hv vh p).
Qed.

Lemma tree_at_leaf v l q t : tree_at (Some (TLeaf v l)) q = Some t -> q = [] ∧ t = TLeaf v l.
Proof. destruct q; [|done]. cbn. by intros [= <-]. Qed.

Lemma putLeaf_ok acc pre l s :
  acc_ok acc -> leaf_ok l -> under pre (l_path l) -> no_pend acc pre -> vals_from acc pre [l] ->
  ∃ acc', putLeaf acc pre l s = (Ok (ochild (Some (TLeaf nv l)), acc'), s) ∧
    built acc acc' pre [l] (Some (TLeaf nv l)).
Proof.
  intros Ha Hl Hu Hnp Hvf. pose proof Hl as (Ho & Hct & Hvv).
  assert (nk_wf (new_key pre)) as Hw by (split_and!; [done|by eapply under_length|by eapply under_lt16]).
  assert (∃ V, (a_newVersion acc, V) = (nv, V) ∧
    putLeaf acc pre l s = (Ok (ochild (Some (TLeaf nv l)), add_pending (new_key pre) (NLeaf l) (acc_values V acc)), s) ∧
    vals_ok V ∧ (∀ vh, vh ≠ l_vh l -> V !! vh = a_values acc !! vh) ∧
    (l_valueVersion l = nv -> is_Some (V !! l_vh l)) ∧
    (l_valueVersion l ≠ nv -> V = a_values acc)) as (V & _ & EV & HV & Hne & Hhave & Hsame).
  { pose proof Ha as []. unfold putLeaf. rewrite ao_nv0, ao_cts0. case_decide as Hd.
    - destruct Hd as [Hd1 Hd2]. destruct (Hct Hd1) as [ct Ect]. rewrite Ect.
      exists (<[l_vh l := ct]> (a_values acc)). split_and!; [done| | | |by rewrite lookup_insert_eq|done].
      + rewrite bind_ret. cbn. by rewrite ao_nv0.
      + intros vh ct'. rewrite lookup_insert. case_decide as Evh; [|apply ao_vals0].
        intros [= <-]. subst vh. eauto.
      + intros vh Hvh. by rewrite lookup_insert_ne.
    - exists (a_values acc). split_and!; [done| |done..| |done].
      + rewrite bind_ret. rewrite ao_nv0. by destruct acc.
      + intros Hv. destruct (a_values acc !! l_vh l) eqn:Ev; [by eexists|]. exfalso. by apply Hd. }
  exists (add_pending (new_key pre) (NLeaf l) (acc_values V acc)). split; [done|].
  assert (acc_ok (acc_values V acc)) as Ha1 by (destruct Ha; by split).
  assert (frame (prefix pre) acc (acc_values V acc)) as Hf1.
  { split; [done|done|]. intros vh p Ho' HR. cbn. apply Hne. intros ->. rewrite Ho in Ho'; injection Ho' as <-; by apply HR. }
  split.
  - by apply add_pending_ok.
  - split.
    + by constructor.
    + intros q t [-> ->]%tree_at_leaf. unfold resolved. cbn [t_version]. rewrite decide_True by done.
      rewrite app_nil_r. apply pend_add.
    + by intros l' ->%list_elem_of_singleton.
    + intros l' ->%list_elem_of_singleton Hv. by apply Hhave.
    + intros [|i q] Hq Hs; [by eexists|]. exfalso.
      rewrite (f_pend _ _ _ (add_pending_frame _ pre (NLeaf l) Hw)) in Hs; [|done|].
      * cbn in Hs. rewrite Hnp in Hs by done. by destruct Hs.
      * cbn. rewrite <-(app_nil_r pre) at 2. by intros ?%app_inv_head.
    + intros vh p Ho' Hu' Hs. cbn in Hs. destruct (decide (vh = l_vh l)) as [->|Hvh].
      * exists l. split_and!; [left|done|]. destruct (decide (l_valueVersion l = nv)) as [?|Hd]; [done|].
        rewrite (Hsame Hd) in Hs. destruct (Hvf _ _ Ho' Hu' Hs) as (l' & ->%list_elem_of_singleton & _ & ?).
        done.
      * rewrite Hne in Hs by done.
        destruct (Hvf _ _ Ho' Hu' Hs) as (l' & ->%list_elem_of_singleton & ? & ?). by exists l.
  - eapply frame_trans; [done|]. eapply frame_mono; [|by apply add_pending_frame]. by intros x ->.
  - done.
  - done.
  - by intros q t [-> ->]%tree_at_leaf.
Qed.

(** ** Building a subtree from sorted leaves *)

(** Leaves a subtree at [pre] can be built from. *)
Definition pairs_ok (pre : list N) (ls : list leafNode) : Prop :=
  path_sorted l_path ls ∧ Forall (λ l, under pre (l_path l)) ls ∧ Forall leaf_ok ls.

Definition build_pre (acc : commitAcc) (pre : list N) (ls : list leafNode) : Prop :=
  pairs_ok pre ls ∧ no_pend acc pre ∧ vals_from acc pre ls.

(** Positions below one of the slots [sl] of [pre]. *)
Definition in_slots (pre : list N) (sl : list N) (x : list N) : Prop :=
  ∃ i, i ∈ sl ∧ prefix (pre ++ [i]) x.

Lemma in_slots_sub pre sl x : in_slots pre sl x -> prefix pre x.
Proof. intros (i & _ & Hx). etrans; [by apply prefix_app_r|done]. Qed.

Lemma in_slots_top pre sl : ¬ in_slots pre sl pre.
Proof. intros (i & _ & Hx%prefix_length). rewrite length_app in Hx. cbn in Hx. lia. Qed.

Lemma slot_disjoint pre i sl x : i ∉ sl -> prefix (pre ++ [i]) x -> ¬ in_slots pre sl x.
Proof. intros Hi Hx (j & Hj & Hx'). by rewrite (prefix_snoc_ne _ _ _ _ Hx Hx') in Hi. Qed.

Lemma build_pre_frame R acc acc' pre ls :
  build_pre acc pre ls -> frame R acc acc' -> (∀ x, pre `prefix_of` x -> ¬ R x) ->
  build_pre acc' pre ls.
Proof.
  intros (? & ? & ?) ? ?. split_and!; eauto using no_pend_frame, vals_from_frame.
Qed.

Lemma lookup_insert_slot {A} (ts : list (option A)) nib o j :
  length ts = 16 -> (nib < 16)%N ->
  <[N.to_nat nib := o]> ts !! N.to_nat j =
  if decide (nib = j) then Some o else ts !! N.to_nat j.
Proof.
  intros Hl Hn. rewrite list_lookup_insert. case_decide as Hd.
  - destruct Hd as [Hd _]. rewrite decide_True by lia. done.
  - rewrite decide_False; [done|]. intros ->. apply Hd. split; [done|]. lia.
Qed.

Lemma build_fold left pre gs acc ts s :
  (∀ acc nib g s, nib ∈ gs.*1 -> acc_ok acc -> build_pre acc (pre ++ [nib]) g ->
     ∃ ot acc', buildFromPairs left acc (pre ++ [nib]) g s = (Ok (ochild ot, acc'), s) ∧
       built acc acc' (pre ++ [nib]) g ot) ->
  acc_ok acc -> NoDup gs.*1 -> length ts = 16 ->
  (∀ nib g, (nib, g) ∈ gs -> (nib < 16)%N ∧ build_pre acc (pre ++ [nib]) g) ->
  (∀ i, (i < 16)%N -> i ∉ gs.*1 -> inv acc (pre ++ [i]) (mjoin (ts !! N.to_nat i))) ->
  ∃ ts' acc',
    foldM (λ '(cs, acc) '(nib, group),
        '(c, acc) ← buildFromPairs left acc (pre ++ [nib]) group;
        mret (<[N.to_nat nib := c]> cs, acc)) (ochild <$> ts, acc) gs s
    = (Ok (ochild <$> ts', acc'), s) ∧
    length ts' = 16 ∧ acc_ok acc' ∧ frame (in_slots pre gs.*1) acc acc' ∧
    a_stale acc' = a_stale acc ∧
    (∀ i, (i < 16)%N -> inv acc' (pre ++ [i]) (mjoin (ts' !! N.to_nat i))) ∧
    (∀ i, i ∉ gs.*1 -> ts' !! N.to_nat i = ts !! N.to_nat i) ∧
    (∀ i g, (i, g) ∈ gs -> (∀ l, l ∈ oleaves (mjoin (ts' !! N.to_nat i)) ↔ l ∈ g) ∧
       ∀ q t, tree_at (mjoin (ts' !! N.to_nat i)) q = Some t -> t_version t = nv).
Proof.
  revert acc ts. induction gs as [|[nib g] gs IH]; intros acc ts Hb Ha Hnd Hl Hgs Hi.
  { exists ts, acc. cbn. split_and!; [done..|apply frame_refl|done| |done|].
    - intros i Hi16. apply Hi; [done|]. by apply not_elem_of_nil.
    - by intros i g Hg%not_elem_of_nil. }
  cbn in Hnd. apply NoDup_cons in Hnd as [Hn Hnd].
  destruct (Hgs nib g) as [Hnib Hpre]; [left|].
  destruct (Hb acc nib g s ltac:(left) Ha Hpre) as (ot & acc1 & E1 & Hbt).
  cbn [foldM]. unfold mbind at 1, M_bind at 1. rewrite (bind_ok _ _ _ _ _ E1).
  cbn [mret M_ret]. rewrite <-list_fmap_insert.
  assert (∀ i x, i ≠ nib -> prefix (pre ++ [i]) x -> ¬ prefix (pre ++ [nib]) x) as Hdis.
  { intros i x Hne Hx Hx'. by apply Hne, (prefix_snoc_ne pre _ _ x). }
  destruct (IH acc1 (<[N.to_nat nib := ot]> ts)) as (ts' & acc' & E2 & Hl' & Ha' & Hf' & Hst' & Hi' & Hout & Hlv).
  - intros. apply Hb; [by right|done..].
  - apply Hbt.
  - done.
  - by rewrite length_insert.
  - intros j g' Hin. destruct (Hgs j g') as [Hj Hpre']; [by right|]. split; [done|].
    eapply build_pre_frame; [done|apply Hbt|]. intros x. apply Hdis.
    intros ->. by apply elem_of_fst in Hin.
  - intros i Hi16 Hnin. rewrite lookup_insert_slot by done. case_decide as Ein.
    + subst i. apply Hbt.
    + eapply inv_frame; [apply Hi; [done|]|apply Hbt|].
      * by apply not_elem_of_cons.
      * intros x. apply Hdis. done.
  - exists ts', acc'. split_and!; try done.
    + eapply frame_trans; [|eapply frame_mono; [|exact Hf']].
      * eapply frame_mono; [|apply Hbt]. intros x Hx. exists nib. split; [left|done].
      * intros x (i & Hin & Hx). exists i. split; [by right|done].
    + rewrite Hst'. apply Hbt.
    + intros i Hnin. apply not_elem_of_cons in Hnin as [Hne Hnin].
      rewrite Hout by done. rewrite lookup_insert_slot by done. by rewrite decide_False.
    + intros i g' [[= -> ->]|Hin]%elem_of_cons; [|by apply Hlv].
      rewrite Hout by done. rewrite lookup_insert_slot by done. rewrite decide_True by done.
      split; apply Hbt.
Qed.

Lemma built_empty acc pre : acc_ok acc -> build_pre acc pre [] -> built acc acc pre [] None.
Proof.
  intros Ha (_ & Hnp & Hvf). split; [done| |apply frame_refl|done|done|by destruct q].
  split; [done|by intros [|??]|by intros l ?%not_elem_of_nil..| |].
  - intros q Hw [pn Hp]. by rewrite Hnp in Hp.
  - exact Hvf.
Qed.

Lemma inv_none_build acc pre ls : inv acc pre None -> pairs_ok pre ls -> build_pre acc pre ls.
Proof.
  intros [] Hp. split_and!; [done| |].
  - intros q Hw. destruct (pend acc (pre ++ q)) eqn:Ep; [|done].
    destruct (i_exact0 q Hw) as (t & Ht & _); [by eexists|]. by destruct q.
  - intros vh p Ho Hu Hs. destruct (i_vexact0 vh p Ho Hu Hs) as (l & Hl & _).
    by apply not_elem_of_nil in Hl.
Qed.

(** The nibble groups of buildable leaves are buildable below their slots. *)
Lemma groups_build acc pre ls nib g :
  length pre < 64 -> build_pre acc pre ls ->
  (nib, g) ∈ group_nibbles l_path (length pre) ls ->
  (nib < 16)%N ∧ build_pre acc (pre ++ [nib]) g.
Proof.
  intros Hp ((Hs & Hu & Hok) & Hnp & Hvf) Hin.
  destruct (group_nibbles_spec l_path pre ls Hp Hu Hs) as (_ & Hg & _).
  destruct (Hg nib g Hin) as (-> & x & Hx & En). split; [rewrite <-En; by apply nibble_lt16|].
  split_and!; [split_and!| |].
  - by apply path_sorted_filter.
  - apply Forall_forall. intros l [Hl Hin']%list_elem_of_filter. rewrite Forall_forall in Hu.
    apply under_snoc. auto.
  - apply Forall_forall. intros l [_ Hin']%list_elem_of_filter. rewrite Forall_forall in Hok. auto.
  - by apply no_pend_child.
  - intros vh p Ho [Hup [_ Hnp']]%under_snoc Hv. destruct (Hvf vh p Ho Hup Hv) as (l & Hl & Evh & Hvv).
    exists l. split; [|done]. apply list_elem_of_filter. split; [|done].
    rewrite Forall_forall in Hok. destruct (Hok l Hl) as (Ho' & _). rewrite Evh in Ho'.
    by replace (l_path l) with p by congruence.
Qed.

Lemma elem_of_slots (ts : list (option tree)) v l :
  l ∈ leaves (TNode v ts) ↔ ∃ i, l ∈ oleaves (mjoin (ts !! N.to_nat i)).
Proof.
  rewrite elem_of_leaves_node. split.
  - intros (i & t & Hi & Hl). exists (N.of_nat i). by rewrite Nat2N.id, Hi.
  - intros (i & Hl). destruct (ts !! N.to_nat i) as [[t|]|] eqn:Ei; cbn in Hl;
      [|by apply not_elem_of_nil in Hl..]. eauto.
Qed.

Lemma group_elem pre ls l :
  length pre < 64 -> path_sorted l_path ls -> Forall (λ l, under pre (l_path l)) ls -> l ∈ ls ->
  ∃ g, (nibble (l_path l) (length pre), g) ∈ group_nibbles l_path (length pre) ls ∧ l ∈ g.
Proof.
  intros Hp Hs Hu Hl. destruct (group_nibbles_spec l_path pre ls Hp Hu Hs) as (_ & Hg & Hc).
  specialize (Hc l Hl). apply list_elem_of_fmap in Hc as ([nib g] & En & Hin). cbn in En.
  rewrite En. exists g. split; [done|]. destruct (Hg nib g Hin) as [-> _].
  by apply list_elem_of_filter.
Qed.

Lemma N_lt_NoDup (l : list N) : StronglySorted N.lt l -> NoDup l.
Proof.
  induction 1 as [|x l Hs IH Hf]; constructor; [|done].
  intros Hx. rewrite Forall_forall in Hf. specialize (Hf x Hx). lia.
Qed.

(** A node over two different leaves branches. *)
Lemma branching_two v ts a b : a ∈ leaves (TNode v ts) -> b ∈ leaves (TNode v ts) -> a ≠ b -> branching ts.
Proof.
  rewrite leaves_node, concat_oleaves_omap. intros Ha Hb Hne. split.
  - intros E0. rewrite E0 in Ha. by apply not_elem_of_nil in Ha.
  - intros v' l E0. rewrite E0 in Ha, Hb. cbn in Ha, Hb.
    apply list_elem_of_singleton in Ha, Hb. congruence.
Qed.

(** Writing the internal node above finished slots. *)
Lemma putInternal_ok acc pre ts :
  acc_ok acc -> length ts = 16 -> length pre < 64 -> Forall (λ x, (x < 16)%N) pre ->
  (∀ i, (i < 16)%N -> inv acc (pre ++ [i]) (mjoin (ts !! N.to_nat i))) -> branching ts ->
  ∃ acc', putInternal acc pre (ochild <$> ts) = (ochild (Some (TNode nv ts)), acc') ∧
    acc_ok acc' ∧ inv acc' pre (Some (TNode nv ts)) ∧ frame (λ x, x = pre) acc acc' ∧
    a_stale acc' = a_stale acc.
Proof.
  intros Ha Hl Hp Hf Hi Hb. pose proof Ha as [].
  assert (nk_wf (new_key pre)) as Hw by (split_and!; [done|unfold nibbles; cbn; lia|done]).
  pose proof (add_pending_frame acc pre (NInternal (ochild <$> ts)) Hw) as Hfr.
  assert (∀ acc', frame (λ x, x = pre) acc acc' -> ∀ i, (i < 16)%N ->
    inv acc' (pre ++ [i]) (mjoin (ts !! N.to_nat i))) as Hi'.
  { intros acc' Hf' i Hi16. eapply inv_frame; [by apply Hi|exact Hf'|].
    intros x Hx ->. apply prefix_length in Hx. rewrite length_app in Hx. cbn in Hx. lia. }
  assert (twf pre (TNode nv ts)) as Htw.
  { constructor; try done. intros i t Ht. pose proof (lookup_lt_Some _ _ _ Ht).
    specialize (Hi (N.of_nat i) ltac:(lia)). rewrite Nat2N.id, Ht in Hi. apply Hi. }
  eexists. split; [unfold putInternal; by rewrite ao_nv0|]. split_and!; [| |exact Hfr|done].
  - apply add_pending_ok; [done..|]. exact (twf_node_wf _ _ Htw).
  - apply inv_node; try done.
    + by apply Hi'.
    + unfold resolved. rewrite decide_True by done. apply pend_add.
Qed.

Lemma buildFromPairs_ok left acc pre ls s :
  left + length pre = nibbles -> acc_ok acc -> build_pre acc pre ls ->
  ∃ ot acc', buildFromPairs left acc pre ls s = (Ok (ochild ot, acc'), s) ∧ built acc acc' pre ls ot.
Proof.
  revert acc pre ls s. induction left as [|left IH]; intros acc pre ls s Hn Ha Hpre;
    (destruct ls as [|a [|b ls]];
     [exists None, acc; split; [done|by apply built_empty]
     |destruct Hpre as ((_ & Hu & Hok) & Hnp & Hvf); rewrite Forall_singleton in Hu, Hok;
      destruct (putLeaf_ok acc pre a s Ha Hok Hu Hnp Hvf) as (acc' & E1 & Hb);
      exists (Some (TLeaf nv a)), acc'; done|]).
  - exfalso. destruct Hpre as ((Hs & Hu & _) & _). unfold nibbles in Hn.
    apply Forall_cons in Hu as [Hua Hu]. apply Forall_cons in Hu as [Hub _].
    pose proof (under_full pre _ _ Hn Hua Hub) as Eab.
    apply path_sorted_NoDup in Hs. cbn in Hs. rewrite Eab in Hs.
    apply NoDup_cons in Hs as [Hs _]. apply Hs. left.
  - assert (length pre < 64) as Hp by (unfold nibbles in Hn; lia).
    pose proof Hpre as ((Hs & Hu & Hok) & Hnp & Hvf).
    destruct (group_nibbles_spec l_path pre _ Hp Hu Hs) as (Hnd & Hg & Hc).
    cbn [buildFromPairs]. set (gs := group_nibbles l_path (length pre) (a :: b :: ls)) in *.
    destruct (build_fold left pre gs acc (replicate 16 None) s)
      as (ts & acc1 & E1 & Hl & Ha1 & Hf1 & Hst1 & Hi1 & Hout & Hlv).
    { intros. apply IH; [rewrite length_app; cbn; lia|done..]. }
    { done. }
    { by apply N_lt_NoDup. }
    { done. }
    { intros nib g Hin. by apply (groups_build acc pre (a :: b :: ls)). }
    { intros i Hi Hnin. rewrite lookup_replicate_2 by lia. cbn.
      eapply (b_inv acc acc _ []), built_empty; [done|]. split_and!; [by repeat constructor| |].
      - by apply no_pend_child.
      - intros vh p Ho [Hup [_ Hnib]]%under_snoc Hv. destruct (Hvf vh p Ho Hup Hv) as (l & Hl & Evh & Hvv).
        exfalso. apply Hnin. rewrite Forall_forall in Hok. destruct (Hok l Hl) as (Ho' & _).
        rewrite Evh, Ho in Ho'. injection Ho' as ->. subst i. by apply Hc. }
    change no_children with (ochild <$> replicate 16 None).
    unfold mbind, M_bind. unfold mbind, M_bind in E1. rewrite E1.
    assert (∀ l, l ∈ leaves (TNode nv ts) ↔ l ∈ a :: b :: ls) as Hleaves.
    { intros l. rewrite elem_of_slots. split.
      - intros (i & Hli). destruct (decide (i ∈ gs.*1)) as [Hin|Hnin].
        + apply list_elem_of_fmap in Hin as ([i' g] & -> & Hin). cbn in Hli.
          apply (Hlv _ _ Hin) in Hli. destruct (Hg _ _ Hin) as [-> _].
          by apply list_elem_of_filter in Hli as [_ ?].
        + rewrite Hout in Hli by done.
          destruct (replicate 16 None !! N.to_nat i) as [o|] eqn:Er;
            [apply lookup_replicate_1 in Er as [-> _]|]; by apply not_elem_of_nil in Hli.
      - intros Hin. destruct (group_elem pre _ l Hp Hs Hu Hin) as (g & Hgin & Hlg).
        exists (nibble (l_path l) (length pre)). by apply (Hlv _ _ Hgin). }
    destruct (putInternal_ok acc1 pre ts) as (acc2 & E2 & Ha2 & Hi2 & Hf2 & Hst2); try done.
    { apply Forall_cons in Hu as [Hua _]. by eapply under_lt16. }
    { apply (branching_two nv ts a b); [apply Hleaves; left|apply Hleaves; right; left|].
      intros ->. apply path_sorted_NoDup in Hs. cbn in Hs. apply NoDup_cons in Hs as [Hs _]. apply Hs. left. }
    exists (Some (TNode nv ts)), acc2. rewrite E2. split; [done|]. split; try done.
    + eapply frame_trans; (eapply frame_mono; [|eassumption]); [apply in_slots_sub|by intros x ->].
    + congruence.
    + intros [|i q] t; cbn; [by intros [= <-]|]. intros Ht.
      destruct (decide (i ∈ gs.*1)) as [Hin|Hnin].
      * apply list_elem_of_fmap in Hin as ([i' g] & -> & Hin). by apply (Hlv _ _ Hin) in Ht.
      * rewrite Hout in Ht by done.
        destruct (replicate 16 None !! N.to_nat i) as [o|] eqn:Er;
          [apply lookup_replicate_1 in Er as [-> _]|]; by destruct q.
Qed.

(** ** Retiring old records *)

(** The records of [ot] (at [pre]) written before this commit that [ot'] no
    longer uses. *)
Definition retired_node (pre : list N) (ot ot' : option tree) (x : bytes) : Prop :=
  ∃ q t, tree_at ot q = Some t ∧ t_version t ≠ nv ∧
    x = nodeRecordKey (NodeKey (t_version t) (pre ++ q)) ∧
    ∀ t', tree_at ot' q = Some t' -> t_version t' ≠ t_version t.
Definition retired_val (ot ot' : option tree) (x : bytes) : Prop :=
  ∃ l, l ∈ oleaves ot ∧ l_valueVersion l ≠ nv ∧
    x = valueRecordKey (l_vh l) (l_valueVersion l) ∧
    ∀ l', l' ∈ oleaves ot' -> l_path l' = l_path l -> l_vh l' ≠ l_vh l.
Definition retired (pre : list N) (ot ot' : option tree) (x : bytes) : Prop :=
  retired_node pre ot ot' x ∨ retired_val ot ot' x.

(** A node of [ot'] is new or was at the same place in the same version. *)
Definition kept (ot ot' : option tree) : Prop :=
  ∀ q t', tree_at ot' q = Some t' ->
    t_version t' = nv ∨ ∃ t, tree_at ot q = Some t ∧ t_version t = t_version t'.

(** No node is of this commit yet. *)
Definition old_only (ot : option tree) : Prop := ∀ q t, tree_at ot q = Some t -> t_version t ≠ nv.

(** The effect of applying the updates [us] to [ot] at [pre]. *)
Record applied (acc acc' : commitAcc) (pre : list N) (us : list update) (ot ot' : option tree) : Prop := {
  p_acc : acc_ok acc';
  p_inv : inv acc' pre ot';
  p_frame : frame (prefix pre) acc acc';
  p_stale : ∃ ext, a_stale acc' = a_stale acc ++ ext ∧ ∀ x, x ∈ ext ↔ retired pre ot ot' x;
  p_spec : upd_spec nv us (oleaves ot) (oleaves ot');
  p_keep : kept ot ot';
  p_same : old_only ot -> ochild ot' = ochild ot -> ot' = ot;
  p_noop : (∀ l, l ∈ oleaves ot' ↔ l ∈ oleaves ot) -> ot' = ot;
  p_top : ∀ t, ot' = Some t -> t_version t = nv ∨ ochild ot' = ochild ot
}.

Lemma retired_same pre ot x : ¬ retired pre ot ot x.
Proof.
  intros [(q & t & Ht & _ & _ & Hn)|(l & Hl & _ & _ & Hn)]; [by apply (Hn t)|by apply (Hn l)].
Qed.

Lemma kept_refl ot : kept ot ot.
Proof. intros q t Ht. right. eauto. Qed.

Lemma applied_same acc pre us ot :
  acc_ok acc -> inv acc pre ot -> upd_spec nv us (oleaves ot) (oleaves ot) ->
  applied acc acc pre us ot ot.
Proof.
  intros Ha Hi Hs. split; [done|done|apply frame_refl| |done|apply kept_refl|done|done|by right].
  exists []. rewrite app_nil_r. split; [done|]. intros x. split; [by intros ?%not_elem_of_nil|].
  by intros ?%retired_same.
Qed.

Lemma staleNode_ok acc v pre :
  acc_ok acc -> is_u64 v -> nk_wf (new_key pre) ->
  let acc' := staleNode (NodeKey v pre) acc in
  acc_ok acc' ∧ frame (λ x, x = pre) acc acc' ∧ (v = nv -> pend acc' pre = None) ∧
  a_values acc' = a_values acc ∧
  a_stale acc' = a_stale acc ++ (if decide (v = nv) then [] else [nodeRecordKey (NodeKey v pre)]).
Proof.
  intros [] Hv Hw. unfold staleNode. cbn [nk_version]. rewrite ao_nv0. cbn zeta.
  case_decide as Hd.
  - subst v. split_and!.
    + split; try done. intros k pn. cbn. rewrite lookup_delete. case_decide; [done|]. apply ao_pend0.
    + split; try done. intros nk Hnk Hne. cbn. rewrite lookup_delete_ne; [done|].
      intros Ek%nodeKey_encode_inj; [|done|done]. by subst nk.
    + intros _. cbn. by rewrite lookup_delete_eq.
    + done.
    + by rewrite app_nil_r.
  - split_and!; [by split|done|done|done|done].
Qed.

Lemma elem_of_mark (v : N) (x y : bytes) :
  x ∈ (if decide (v = nv) then [] else [y]) ↔ v ≠ nv ∧ x = y.
Proof.
  case_decide; [|by rewrite list_elem_of_singleton; split; [|intros [_ ?]]].
  split; [by intros ?%not_elem_of_nil|by intros [? _]].
Qed.

Lemma resolveNode_ok acc pre t s :
  store_ok s -> contents (s_backend s) = C -> acc_ok acc -> inv acc pre (Some t) ->
  ∃ s', resolveNode acc (child_of t) (NodeKey (t_version t) pre) s = (Ok (t_node t), s') ∧ reads s s'.
Proof.
  intros Ho EC [] []. specialize (i_res0 [] t eq_refl). rewrite app_nil_r in i_res0.
  unfold resolveNode, resolved in *. cbn [c_version child_of c_hash]. rewrite ao_nv0.
  case_decide as Hd.
  - rewrite Hd, i_res0. exists s. split; [done|apply reads_refl].
  - apply loadNode_ok; [done|by rewrite EC|]. exact (twf_node_wf _ _ i_wf0).
Qed.

(** Updates that can be applied below [pre]. *)
Definition updates_ok (pre : list N) (us : list update) : Prop :=
  path_sorted u_path us ∧ Forall (λ u, under pre (u_path u)) us ∧
  ∀ u vh, u ∈ us -> u_vh u = Some vh -> owner vh = Some (u_path u) ∧ is_Some (cts !! u_path u).

Lemma inserts_sorted us :
  path_sorted u_path us ->
  path_sorted l_path (omap (λ u, (λ vh, LeafNode (u_path u) vh nv) <$> u_vh u) us).
Proof.
  induction 1 as [|u us Hs IH Hf]; [constructor|]. cbn. destruct (u_vh u) as [vh|]; cbn; [|done].
  constructor; [done|]. apply Forall_forall. intros l (u' & Hu' & El)%list_elem_of_omap.
  rewrite Forall_forall in Hf. specialize (Hf u' Hu').
  destruct (u_vh u'); [|done]. by injection El as <-.
Qed.

(** Every leaf a batch leaves behind is well-formed and in place. *)
Lemma upd_leaf_ok pre us ls l :
  updates_ok pre us -> (∀ l, l ∈ ls -> leaf_ok l ∧ under pre (l_path l)) ->
  upd_leaf nv us ls l -> leaf_ok l ∧ under pre (l_path l).
Proof.
  intros (_ & Hu & Hc) Hls [[Hl _]|[Hin [Hl|[Hv _]]]]; [by apply Hls..|].
  rewrite Forall_forall in Hu. specialize (Hu _ Hin). split; [|done].
  destruct (Hc _ (l_vh l) Hin eq_refl) as [Ho Hct]. split_and!; [done..|by rewrite Hv].
Qed.

Lemma twf_some_leaf pre t : twf pre t -> ∃ l, l ∈ leaves t.
Proof.
  intros Hw. apply twf_leaves_length in Hw. destruct t as [v l|v cs]; [exists l; left|].
  destruct (leaves (TNode v cs)) as [|l ls]; [cbn in Hw; lia|exists l; left].
Qed.

Lemma apply_none_ok left acc pre us s :
  left + length pre = nibbles -> acc_ok acc -> inv acc pre None -> updates_ok pre us ->
  ∃ ot acc',
    buildFromPairs left acc pre
      (omap (λ u, (λ vh, LeafNode (u_path u) vh (a_newVersion acc)) <$> u_vh u) us) s
    = (Ok (ochild ot, acc'), s) ∧ applied acc acc' pre us None ot.
Proof.
  intros Hn Ha Hi Hu. rewrite (ao_nv _ Ha). set (ls := omap _ us).
  pose proof (upd_spec_build nv us) as Hsp. fold ls in Hsp.
  assert (∀ l, l ∈ ls -> leaf_ok l ∧ under pre (l_path l)) as Hls.
  { intros l Hl%Hsp. eapply upd_leaf_ok; [done| |done]. by intros l' ?%not_elem_of_nil. }
  destruct (buildFromPairs_ok left acc pre ls s) as (ot & acc' & E1 & []); [done|done| |].
  { apply inv_none_build; [done|]. split_and!; [by apply inserts_sorted, Hu|..];
      apply Forall_forall; apply Hls. }
  exists ot, acc'. split; [done|]. split; [done..| | | | | |].
  - exists []. rewrite app_nil_r. split; [done|]. intros x.
    split; [by intros ?%not_elem_of_nil|].
    intros [([|??] & ? & ? & _)|(l & Hl & _)]; [done..|by apply not_elem_of_nil in Hl].
  - intros l. rewrite b_leaves0. apply Hsp.
  - intros q t Ht. left. by eapply b_new0.
  - by destruct ot.
  - intros Hl. destruct ot as [t|]; [|done]. exfalso.
    destruct (twf_some_leaf pre t) as [l Hl']; [apply b_inv0|]. by apply Hl, not_elem_of_nil in Hl'.
  - intros t ->. left. by apply (b_new0 []).
Qed.

(** ** A resident leaf meets updates *)

Abbreviation merged_leaves m := ((λ '(p, e), LeafNode p e.1 e.2) <$> range_map m).

Lemma merged_leaves_spec leaf us l :
  NoDup (u_path <$> us) ->
  l ∈ merged_leaves (merge_updates nv leaf us) ↔ upd_leaf nv us [leaf] l.
Proof.
  intros Hnd. destruct l as [p vh vv]. rewrite <-(merge_updates_spec nv leaf us p vh vv Hnd).
  rewrite list_elem_of_fmap. split.
  - intros ([p' [vh' vv']] & [= -> -> ->] & Hin). by apply elem_of_range in Hin.
  - intros Hm. exists (p, (vh, vv)). split; [done|]. by apply elem_of_range.
Qed.

Lemma merged_leaves_NoDup (m : gmap Hash (Hash * N)) : NoDup (l_path <$> merged_leaves m).
Proof.
  assert (l_path <$> merged_leaves m = (range_map m).*1) as ->; [|apply NoDup_range_fst].
  rewrite <-list_fmap_compose. apply list_fmap_ext. by intros i [p e].
Qed.

Lemma merge_same leaf us :
  NoDup (u_path <$> us) ->
  merge_updates nv leaf us = {[l_path leaf := (l_vh leaf, l_valueVersion leaf)]} ->
  upd_spec nv us [leaf] [leaf].
Proof.
  intros Hnd Em [p vh vv]. rewrite <-(merge_updates_spec nv leaf us p vh vv Hnd), Em.
  rewrite lookup_singleton_Some, list_elem_of_singleton. split.
  - by intros <-.
  - intros [<- [= <- <-]]. by destruct leaf.
Qed.

(** The resident value survives exactly when some resulting leaf at its path
    has its commitment, and then the leaf itself survives. *)
Lemma upd_leaf_kept leaf us l :
  upd_leaf nv us [leaf] l -> l_path l = l_path leaf -> l_vh l = l_vh leaf -> l = leaf.
Proof.
  intros [[->%list_elem_of_singleton _]|[_ [->%list_elem_of_singleton|[_ Hne]]]] Hp Hv; [done..|].
  exfalso. by apply (Hne leaf); [left|..].
Qed.

Section resident.
Variables (acc : commitAcc) (pre : list N) (v : N) (leaf : leafNode) (us : list update).
Hypothesis Ha : acc_ok acc.
Hypothesis Hi : inv acc pre (Some (TLeaf v leaf)).
Hypothesis Hu : updates_ok pre us.

Let merged := merge_updates nv leaf us.
Let acc' := retireLeaf acc (NodeKey v pre) leaf merged.
Let ls := merged_leaves merged.
Let kept_val : Prop := ∃ l, l ∈ ls ∧ l_path l = l_path leaf ∧ l_vh l = l_vh leaf.

Let Hnd : NoDup (u_path <$> us) := path_sorted_NoDup _ _ (proj1 Hu).

Lemma retire_kept :
  (match merged !! l_path leaf with
   | Some e => bool_decide (e.1 = l_vh leaf) | None => false end) = true ↔ kept_val.
Proof.
  split.
  - destruct (merged !! l_path leaf) as [[vh vv]|] eqn:Em; [|done].
    intros Ee%bool_decide_eq_true. cbn in Ee. subst vh.
    exists (LeafNode (l_path leaf) (l_vh leaf) vv). split_and!; [|done..].
    apply merged_leaves_spec, merge_updates_spec; done.
  - intros ([p vh vv] & Hin & Hp & Hv). cbn in Hp, Hv. subst p vh.
    apply merged_leaves_spec, merge_updates_spec in Hin; [|done..]. unfold merged.
    rewrite Hin. by apply bool_decide_eq_true.
Qed.

(** After the leaf's node is retired nothing is pending below it. *)
Lemma retire_no_pend acc2 : a_pending acc2 = a_pending (staleNode (NodeKey v pre) acc) -> no_pend acc2 pre.
Proof.
  pose proof Hi as [Hwf Hres Hlf Hhv Hex Hvx]. cbn in Hwf. inversion Hwf as [? ? ? Hup Hv64 Hvv|]; subst.
  assert (nk_wf (new_key pre)) as Hw by (split_and!; [done|by eapply under_length|by eapply under_lt16]).
  destruct (staleNode_ok acc v pre Ha Hv64 Hw) as (Ha1 & Hf1 & Hp1 & Hv1 & Hs1).
  intros E2 q Hq. rewrite E2. destruct q as [|i q].
  - rewrite app_nil_r. destruct (decide (v = nv)) as [?|Hne]; [by apply Hp1|].
    destruct (pend (staleNode (NodeKey v pre) acc) pre) eqn:Ep; [|done]. exfalso.
    unfold staleNode in Ep. cbn [nk_version] in Ep. rewrite (ao_nv _ Ha), decide_False in Ep by done.
    cbn in Ep. destruct (Hex [] ltac:(by rewrite app_nil_r)) as (t & [= <-] & ?); [|done].
    rewrite app_nil_r. by eexists.
  - rewrite (f_pend _ _ _ Hf1); [|done|].
    + destruct (pend acc (pre ++ i :: q)) eqn:Ep; [|done]. exfalso.
      destruct (Hex (i :: q) Hq) as (t & Ht & _); [by eexists|done].
    + cbn. rewrite <-(app_nil_r pre) at 2. by intros ?%app_inv_head.
Qed.

Lemma retireLeaf_ok :
  acc_ok acc' ∧ frame (prefix pre) acc acc' ∧
  (∃ ext, a_stale acc' = a_stale acc ++ ext ∧
     ∀ x, x ∈ ext ↔ (v ≠ nv ∧ x = nodeRecordKey (NodeKey v pre)) ∨
                    (¬ kept_val ∧ l_valueVersion leaf ≠ nv ∧
                     x = valueRecordKey (l_vh leaf) (l_valueVersion leaf))) ∧
  build_pre acc' pre (sortLeaves ls).
Proof.
  pose proof Hi as [Hwf Hres Hlf Hhv Hex Hvx]. cbn in Hwf. inversion Hwf as [? ? ? Hup Hv64 Hvv|]; subst.
  assert (nk_wf (new_key pre)) as Hw by (split_and!; [done|by eapply under_length|by eapply under_lt16]).
  destruct (staleNode_ok acc v pre Ha Hv64 Hw) as (Ha1 & Hf1 & Hp1 & Hv1 & Hs1).
  destruct (Hlf leaf ltac:(left)) as (Ho & _ & _).
  assert (∀ l, l ∈ ls -> leaf_ok l ∧ under pre (l_path l)) as Hls.
  { intros l Hin%merged_leaves_spec; [|done]. eapply upd_leaf_ok; [done| |done].
    intros l' ->%list_elem_of_singleton. split; [apply Hlf; left|done]. }
  pose proof retire_no_pend as Hnp.
  assert (pairs_ok pre (sortLeaves ls)) as Hpo.
  { split_and!; [apply sortLeaves_sorted, merged_leaves_NoDup|..];
      rewrite sortLeaves_perm; apply Forall_forall; apply Hls. }
  assert (∀ vh p, owner vh = Some p -> under pre p -> is_Some (a_values acc !! vh) ->
    l_vh leaf = vh ∧ l_valueVersion leaf = nv) as Hval.
  { intros vh p Ho' Hu' Hs. destruct (Hvx vh p Ho' Hu' Hs) as (l & ->%list_elem_of_singleton & ? & ?). done. }
  unfold acc', retireLeaf. set (acc1 := staleNode (NodeKey v pre) acc) in *.
  destruct (match merged !! l_path leaf with
            | Some e => bool_decide (e.1 = l_vh leaf) | None => false end) eqn:Ek.
  - apply retire_kept in Ek. split_and!; [done|by eapply frame_mono, Hf1; intros x ->| |].
    + eexists. split; [exact Hs1|]. intros x. rewrite elem_of_mark. split; [by left|].
      intros [?|[? _]]; done.
    + split_and!; [done|by apply Hnp|]. intros vh p Ho' Hu' Hs. rewrite Hv1 in Hs.
      destruct (Hval vh p Ho' Hu' Hs) as [<- Hv']. exists leaf. split_and!; [|done..].
      destruct Ek as (l & Hl & Hlp & Hlv). rewrite sortLeaves_perm.
      pose proof Hl as Hl'. apply merged_leaves_spec in Hl'; [|done].
      by rewrite <-(upd_leaf_kept _ _ _ Hl' Hlp Hlv).
  - assert (¬ kept_val) as Hk by (intros ?%retire_kept; congruence).
    rewrite (ao_nv _ Ha1). destruct (decide (l_valueVersion leaf = nv)) as [Hd|Hd].
    + assert (vals_ok (delete (l_vh leaf) (a_values acc1))) as Hvok.
      { intros vh ct [_ Hl]%lookup_delete_Some. by apply (ao_vals _ Ha1). }
      split_and!; [split; first [exact Hvok|apply Ha1]| | |].
      * split; [apply Hf1|intros nk ? HR; apply Hf1; [done|intros Ep; apply HR; by rewrite Ep]|].
        intros vh p Ho' HR. cbn. rewrite lookup_delete_ne; [by rewrite Hv1|].
        intros <-. apply HR. rewrite Ho in Ho'. by injection Ho' as <-.
      * eexists. split; [exact Hs1|]. intros x. rewrite elem_of_mark. split; [by left|].
        intros [?|(_ & ? & _)]; done.
      * split_and!; [done|by apply Hnp|]. intros vh p Ho' Hu' Hs. cbn in Hs. exfalso.
        destruct Hs as [ct [Hvh Hs]%lookup_delete_Some]. rewrite Hv1 in Hs.
        by destruct (Hval vh p Ho' Hu' (mk_is_Some _ _ Hs)).
    + split_and!; [split; first [exact Hvok|apply Ha1]| | |].
      * split; [apply Hf1|intros nk ? HR; apply Hf1; [done|intros Ep; apply HR; by rewrite Ep]|].
        intros vh p Ho' HR. cbn. by rewrite Hv1.
      * eexists. split; [cbn; rewrite Hs1, <-app_assoc; reflexivity|].
        intros x. rewrite elem_of_app, list_elem_of_singleton, elem_of_mark. f_equiv.
        split; [done|]. by intros (_ & _ & ?).
      * split_and!; [done|by apply Hnp|]. intros vh p Ho' Hu' Hs. cbn in Hs. rewrite Hv1 in Hs.
        exfalso. by destruct (Hval vh p Ho' Hu' Hs).
Qed.

Lemma merge_noop :
  (∀ l, upd_leaf nv us [leaf] l ↔ l ∈ [leaf]) ->
  merged = {[l_path leaf := (l_vh leaf, l_valueVersion leaf)]}.
Proof.
  intros Hl. apply map_eq. intros p. apply option_eq. intros [vh vv]. unfold merged.
  rewrite merge_updates_spec by done. rewrite Hl, list_elem_of_singleton, lookup_singleton_Some.
  split; [by intros <-|]. intros [<- [= <- <-]]. by destruct leaf.
Qed.

Lemma apply_leaf_ok left s :
  left + length pre = nibbles ->
  merged ≠ {[l_path leaf := (l_vh leaf, l_valueVersion leaf)]} ->
  ∃ ot acc2, buildFromPairs left acc' pre (sortLeaves ls) s = (Ok (ochild ot, acc2), s) ∧
    applied acc acc2 pre us (Some (TLeaf v leaf)) ot.
Proof.
  intros Hn Hmne. destruct retireLeaf_ok as (Ha1 & Hf1 & (ext & Hext & Hx) & Hb).
  destruct (buildFromPairs_ok left acc' pre (sortLeaves ls) s Hn Ha1 Hb) as (ot & acc2 & E1 & []).
  assert (∀ l, l ∈ oleaves ot ↔ upd_leaf nv us [leaf] l) as Hsp.
  { intros l. rewrite b_leaves0, sortLeaves_perm. by apply merged_leaves_spec. }
  exists ot, acc2. split; [done|]. split; [done..| | |exact Hsp| | | |].
  - by eapply frame_trans.
  - exists ext. split; [congruence|]. intros x. rewrite Hx. unfold retired. f_equiv.
    + split.
      * intros [Hv ->]. exists [], (TLeaf v leaf). rewrite app_nil_r. split_and!; try done.
        intros t' Ht'. cbn. by rewrite (b_new0 _ _ Ht').
      * intros (q & t & [-> ->]%tree_at_leaf & Hv & -> & _). by rewrite app_nil_r.
    + split.
      * intros (Hk & Hv & ->). exists leaf. split_and!; [left|done..|].
        intros l' Hl' Hp Hvh. apply Hk. exists l'. split; [|done].
        apply merged_leaves_spec; [done|]. by apply Hsp.
      * intros (l & ->%list_elem_of_singleton & Hv & -> & Hne). split_and!; [|done..].
        intros (l & Hl & Hp & Hvh). apply (Hne l); [|done..].
        apply Hsp. by apply merged_leaves_spec in Hl.
  - intros q t Ht. left. by eapply b_new0.
  - intros Hold Eo. exfalso. destruct ot as [t|]; [|done]. cbn in Eo. injection Eo as Ev _ _.
    pose proof (b_new0 [] t eq_refl). by apply (Hold [] _ eq_refl); rewrite <-Ev.
  - intros Hl. exfalso. apply Hmne, merge_noop. intros l. by rewrite <-Hsp.
  - intros t ->. left. by apply (b_new0 []).
Qed.
End resident.

(** ** Slots of an internal node *)

Abbreviation at_slot ts i := (mjoin ((ts : list (option tree)) !! N.to_nat i)).

Lemma slot_ochild (ts : list (option tree)) i : slot (ochild <$> ts) i = ochild (at_slot ts i).
Proof. unfold slot. rewrite list_lookup_fmap. by destruct (ts !! N.to_nat i) as [[]|]. Qed.

Lemma childEq_eq a b : childEq a b = true ↔ a = b.
Proof.
  destruct a as [[v h l]|], b as [[v' h' l']|]; cbn; try done.
  rewrite !andb_true_iff, !bool_decide_eq_true, Bool.eqb_true_iff. split; [by intros [[-> ->] ->]|by intros [= -> -> ->]].
Qed.

Lemma ochild_insert_same (ts : list (option tree)) i o :
  ochild o = ochild (at_slot ts i) -> ochild <$> <[N.to_nat i := o]> ts = ochild <$> ts.
Proof.
  intros Eo. rewrite list_fmap_insert, Eo. destruct (ts !! N.to_nat i) as [o'|] eqn:Ei.
  - apply list_insert_id. rewrite list_lookup_fmap, Ei. done.
  - apply list_insert_ge. rewrite length_fmap. by apply lookup_ge_None_1.
Qed.

Lemma branching_ochild ts ts' : ochild <$> ts = ochild <$> ts' -> branching ts -> branching ts'.
Proof.
  intros Eo [Hne Hone]. apply (f_equal (omap id)) in Eo. rewrite !omap_ochild in Eo. split.
  - intros E0. rewrite E0 in Eo. apply fmap_nil_inv in Eo. done.
  - intros v l E0. rewrite E0 in Eo. cbn in Eo.
    destruct (omap id ts) as [|t [|]]; try done. cbn in Eo. destruct t as [v' l'|]; [|done].
    by apply (Hone v' l').
Qed.

Lemma slot_nibble acc pre ts i l :
  inv acc (pre ++ [i]) (at_slot ts i) -> l ∈ oleaves (at_slot ts i) ->
  nibble (l_path l) (length pre) = i.
Proof.
  intros [] Hl. destruct (at_slot ts i) as [t|]; [|by apply not_elem_of_nil in Hl].
  by apply (twf_leaves_under _ _ _ i_wf0), under_snoc in Hl as (_ & _ & ?).
Qed.

Lemma at_slot_lt (ts : list (option tree)) i l : length ts = 16 -> l ∈ oleaves (at_slot ts i) -> (i < 16)%N.
Proof.
  intros Hlen Hl. destruct (ts !! N.to_nat i) eqn:Ei; [|by apply not_elem_of_nil in Hl].
  apply lookup_lt_Some in Ei. lia.
Qed.

Lemma tree_at_slot_lt (ts : list (option tree)) i q t :
  length ts = 16 -> tree_at (at_slot ts i) q = Some t -> (i < 16)%N.
Proof.
  intros Hlen Hq. destruct (ts !! N.to_nat i) eqn:Ei; [apply lookup_lt_Some in Ei; lia|by destruct q].
Qed.

(** Slot-wise updates make an update of the node. *)
Lemma node_upd_spec acc acc' pre us v v' cs ts :
  length pre < 64 -> length cs = 16 -> length ts = 16 ->
  (∀ i, (i < 16)%N -> inv acc (pre ++ [i]) (at_slot cs i)) ->
  (∀ i, (i < 16)%N -> inv acc' (pre ++ [i]) (at_slot ts i)) ->
  (∀ i, (i < 16)%N -> upd_spec nv (filter (λ u, nibble (u_path u) (length pre) = i) us)
                        (oleaves (at_slot cs i)) (oleaves (at_slot ts i))) ->
  upd_spec nv us (leaves (TNode v cs)) (leaves (TNode v' ts)).
Proof.
  intros Hp Hlc Hlt Hic Hit Hs l. rewrite elem_of_slots.
  assert (∀ i l, (i < 16)%N -> nibble (l_path l) (length pre) = i ->
    l ∈ leaves (TNode v cs) ↔ l ∈ oleaves (at_slot cs i)) as Hslot.
  { intros i l0 Hi Hn. rewrite elem_of_slots. split; [|by eauto].
    intros (j & Hj). pose proof (at_slot_lt _ _ _ Hlc Hj) as Hj16.
    pose proof (slot_nibble _ _ _ _ _ (Hic j Hj16) Hj) as Hnj. congruence. }
  assert (∀ i l, (i < 16)%N -> nibble (l_path l) (length pre) = i ->
    upd_leaf nv (filter (λ u, nibble (u_path u) (length pre) = i) us) (oleaves (at_slot cs i)) l ↔
    upd_leaf nv us (leaves (TNode v cs)) l) as Heq.
  { intros i l0 Hi Hn. unfold upd_leaf. rewrite <-(Hslot i l0) by done.
    rewrite list_elem_of_filter. cbn [u_path].
    assert ((∀ l1, l1 ∈ oleaves (at_slot cs i) -> l_path l1 = l_path l0 -> l_vh l1 ≠ l_vh l0) ↔
            (∀ l1, l1 ∈ leaves (TNode v cs) -> l_path l1 = l_path l0 -> l_vh l1 ≠ l_vh l0)) as ->.
    { split; intros Hall l1 Hl1 Hp1; apply Hall; try done; apply (Hslot i); try done; by rewrite Hp1. }
    assert ((∀ u, u ∈ filter (λ u, nibble (u_path u) (length pre) = i) us -> u_path u ≠ l_path l0) ↔
            (∀ u, u ∈ us -> u_path u ≠ l_path l0)) as ->; [|tauto].
    split; intros Hall u Hu; [intros Ep; apply (Hall u); [|done]|].
    - apply list_elem_of_filter. by rewrite Ep.
    - apply list_elem_of_filter in Hu as [_ Hu]. by apply Hall. }
  split.
  - intros (i & Hi). pose proof (at_slot_lt _ _ _ Hlt Hi) as Hi16.
    pose proof (slot_nibble _ _ _ _ _ (Hit i Hi16) Hi) as Hn.
    apply (Hs i Hi16) in Hi. by apply (Heq i).
  - intros Hu. assert (nibble (l_path l) (length pre) < 16)%N as Hi16 by by apply nibble_lt16.
    exists (nibble (l_path l) (length pre)). apply (Hs _ Hi16). by apply Heq.
Qed.

Lemma slots_eq (ts ts' : list (option tree)) :
  length ts = 16 -> length ts' = 16 -> (∀ i, at_slot ts i = at_slot ts' i) -> ts = ts'.
Proof.
  intros Hl Hl' He. apply list_eq. intros j. specialize (He (N.of_nat j)). rewrite Nat2N.id in He.
  destruct (decide (j < 16)) as [Hj|Hj]; [|by rewrite !lookup_ge_None_2 by lia].
  destruct (lookup_lt_is_Some_2 ts j) as [o Ho]; [lia|].
  destruct (lookup_lt_is_Some_2 ts' j) as [o' Ho']; [lia|]. rewrite Ho, Ho' in He |- *. cbn in He. by subst.
Qed.

(** Equal leaves of two nodes are equal leaves slot by slot. *)
Lemma slot_leaves_eq acc acc' pre v v' cs ts :
  length cs = 16 -> length ts = 16 ->
  (∀ i, (i < 16)%N -> inv acc (pre ++ [i]) (at_slot cs i)) ->
  (∀ i, (i < 16)%N -> inv acc' (pre ++ [i]) (at_slot ts i)) ->
  (∀ l, l ∈ leaves (TNode v' ts) ↔ l ∈ leaves (TNode v cs)) ->
  ∀ i l, l ∈ oleaves (at_slot ts i) ↔ l ∈ oleaves (at_slot cs i).
Proof.
  intros Hlc Hlt Hic Hit Hl i l. split; intros Hin.
  - pose proof (at_slot_lt _ _ _ Hlt Hin) as Hi16.
    pose proof (slot_nibble _ _ _ _ _ (Hit i Hi16) Hin) as Hn.
    assert (l ∈ leaves (TNode v cs)) as (j & Hj)%elem_of_slots by (apply Hl, elem_of_slots; by exists i).
    pose proof (at_slot_lt _ _ _ Hlc Hj) as Hj16.
    pose proof (slot_nibble _ _ _ _ _ (Hic j Hj16) Hj) as Hnj. congruence.
  - pose proof (at_slot_lt _ _ _ Hlc Hin) as Hi16.
    pose proof (slot_nibble _ _ _ _ _ (Hic i Hi16) Hin) as Hn.
    assert (l ∈ leaves (TNode v' ts)) as (j & Hj)%elem_of_slots by (apply Hl, elem_of_slots; by exists i).
    pose proof (at_slot_lt _ _ _ Hlt Hj) as Hj16.
    pose proof (slot_nibble _ _ _ _ _ (Hit j Hj16) Hj) as Hnj. congruence.
Qed.

(** What an internal node retires: itself, and what its slots retire. *)
Lemma retired_slots acc acc' pre v v' cs ts x :
  length cs = 16 -> length ts = 16 ->
  (∀ i, (i < 16)%N -> inv acc (pre ++ [i]) (at_slot cs i)) ->
  (∀ i, (i < 16)%N -> inv acc' (pre ++ [i]) (at_slot ts i)) ->
  retired pre (Some (TNode v cs)) (Some (TNode v' ts)) x ↔
  (v ≠ nv ∧ v' ≠ v ∧ x = nodeRecordKey (NodeKey v pre)) ∨
  ∃ i, (i < 16)%N ∧ retired (pre ++ [i]) (at_slot cs i) (at_slot ts i) x.
Proof.
  intros Hlc Hlt Hic Hit. split.
  - intros [([|i q] & t & Ht & Hv & -> & Hn)|(l & Hl & Hv & -> & Hn)].
    + left. cbn in Ht. injection Ht as <-. rewrite app_nil_r.
      split_and!; [done| |done]. by apply (Hn _ eq_refl).
    + right. cbn in Ht. pose proof (tree_at_slot_lt _ _ _ _ Hlc Ht) as Hi. exists i. split; [done|].
      left. exists q, t. split_and!; [done|done|by rewrite <-app_assoc|]. intros t' Ht'. by apply Hn.
    + right. apply (elem_of_slots _ v) in Hl as (i & Hl).
      pose proof (at_slot_lt _ _ _ Hlc Hl) as Hi. exists i. split; [done|].
      right. exists l. split_and!; try done. intros l' Hl'. apply Hn.
      apply (elem_of_slots _ v'). by exists i.
  - intros [(Hv & Hv' & ->)|(i & Hi & [(q & t & Ht & Hv & -> & Hn)|(l & Hl & Hv & -> & Hn)])].
    + left. exists [], (TNode v cs). rewrite app_nil_r. split_and!; try done. by intros t' [= <-].
    + left. exists (i :: q), t. split_and!; [done|done|by rewrite <-app_assoc|done].
    + right. exists l. split_and!; [apply (elem_of_slots _ v); by exists i|done|done|].
      intros l' Hl' Hp. apply Hn; [|done]. apply (elem_of_slots _ v') in Hl' as (j & Hj).
      pose proof (at_slot_lt _ _ _ Hlt Hj) as Hj16.
      pose proof (slot_nibble _ _ _ _ _ (Hit j Hj16) Hj) as Hnj.
      pose proof (slot_nibble _ _ _ _ _ (Hic i Hi) Hl) as Hni. rewrite Hp in Hnj. congruence.
Qed.

(** Composing two steps. *)
Lemma kept_trans o1 o2 o3 : kept o1 o2 -> kept o2 o3 -> kept o1 o3.
Proof.
  intros H12 H23 q t3 H3. destruct (H23 q t3 H3) as [?|(t2 & H2 & Ev)]; [by left|].
  destruct (H12 q t2 H2) as [?|(t1 & H1 & Ev')]; [left; congruence|right; exists t1; split; congruence].
Qed.

Lemma retired_node_trans pre o1 o2 o3 x :
  kept o1 o2 -> kept o2 o3 ->
  retired_node pre o1 o3 x ↔ retired_node pre o1 o2 x ∨ retired_node pre o2 o3 x.
Proof.
  intros H12 H23. split.
  - intros (q & t & Ht & Hv & -> & Hn). destruct (tree_at o2 q) as [t2|] eqn:E2.
    + destruct (decide (t_version t2 = t_version t)) as [Ev|Ev].
      * right. exists q, t2. rewrite Ev. split_and!; [done|done|done|exact Hn].
      * left. exists q, t. split_and!; try done. intros t' Ht'. rewrite E2 in Ht'. by injection Ht' as <-.
    + left. exists q, t. split_and!; try done. intros t' Ht'. by rewrite E2 in Ht'.
  - intros [(q & t & Ht & Hv & -> & Hn)|(q & t & Ht & Hv & -> & Hn)].
    + exists q, t. split_and!; try done. intros t' Ht'.
      destruct (H23 q t' Ht') as [->|(t2 & Ht2 & <-)]; [done|by apply Hn].
    + destruct (H12 q t Ht) as [?|(t1 & Ht1 & Ev)]; [done|].
      exists q, t1. rewrite Ev. split_and!; done.
Qed.

Lemma retired_val_same o1 o2 o3 x :
  (∀ l, l ∈ oleaves o2 ↔ l ∈ oleaves o3) -> retired_val o1 o2 x ↔ retired_val o1 o3 x.
Proof. intros Hl. unfold retired_val. by setoid_rewrite Hl. Qed.

(** ** Collapsing *)

Lemma takeLeaf_ok acc pos v l s :
  store_ok s -> contents (s_backend s) = C -> acc_ok acc -> inv acc pos (Some (TLeaf v l)) ->
  ∃ acc' s', takeLeaf acc (child_of (TLeaf v l)) pos s = (Ok (l, acc'), s') ∧ reads s s' ∧
    acc_ok acc' ∧ frame (λ x, x = pos) acc acc' ∧ pend acc' pos = None ∧
    a_values acc' = a_values acc ∧
    a_stale acc' = a_stale acc ++ (if decide (v = nv) then [] else [nodeRecordKey (NodeKey v pos)]).
Proof.
  intros Ho EC Ha Hi. pose proof Hi as [Hwf Hres _ _ Hex _]. cbn in Hwf.
  inversion Hwf as [? ? ? Hup Hv64 Hvv|]; subst.
  assert (nk_wf (new_key pos)) as Hw by (split_and!; [done|by eapply under_length|by eapply under_lt16]).
  destruct (staleNode_ok acc v pos Ha Hv64 Hw) as (Ha1 & Hf1 & Hp1 & Hv1 & Hs1).
  specialize (Hres [] _ eq_refl). rewrite app_nil_r in Hres. unfold resolved in Hres.
  cbn [t_version] in Hres. unfold takeLeaf. cbn [c_version child_of t_version c_hash].
  unfold staleNode in Hs1, Ha1, Hf1, Hp1, Hv1. cbn [nk_version] in *. rewrite (ao_nv _ Ha) in *.
  destruct (decide (v = nv)) as [->|Hne].
  - rewrite Hres. do 2 eexists. split_and!; [reflexivity|apply reads_refl|done|done|by apply Hp1|done|done].
  - destruct (loadNode_ok (NodeKey v pos) (NLeaf l) s) as (s1 & E1 & R1); [done|by rewrite EC|done|].
    change (t_hash (TLeaf v l)) with (node_hash (NLeaf l)). rewrite (bind_ok _ _ _ _ _ E1).
    do 2 eexists. split_and!; [reflexivity|done|done|done| |done|done].
    cbn. destruct (pend acc pos) eqn:Ep; [|done]. exfalso.
    destruct (Hex [] ltac:(by rewrite app_nil_r)) as (t & [= <-] & ?); [|done].
    rewrite app_nil_r. by eexists.
Qed.

Lemma lone_slot (ts : list (option tree)) t :
  omap id ts = [t] ->
  ∃ i, list_find (λ c, is_Some c) (ochild <$> ts) = Some (i, Some (child_of t)) ∧
    ts !! i = Some (Some t) ∧ ∀ j t', ts !! j = Some (Some t') -> j = i ∧ t' = t.
Proof.
  induction ts as [|[t0|] ts IH]; cbn; [done|..]; intros Et.
  - injection Et as -> Et. exists 0. split_and!; [done|done|].
    intros [|j] t' Hj; [by injection Hj as <-|]. exfalso. cbn in Hj.
    assert (t' ∈ omap id ts) as Hin by (apply list_elem_of_omap; exists (Some t'); split; [by eapply list_elem_of_lookup_2|done]).
    rewrite Et in Hin. by apply not_elem_of_nil in Hin.
  - destruct (IH Et) as (i & Hf & Hi & Hall). exists (S i). split_and!; [|done|].
    + rewrite Hf. by destruct (decide (is_Some None)) as [[]|].
    + intros [|j] t' Hj; [done|]. destruct (Hall j t' Hj). by subst.
Qed.

(** Normalising a node whose slots are done: the intermediate tree
    [TNode nv ts] becomes a well-formed one with the same leaves. *)
Record finished (acc acc' : commitAcc) (pre : list N) (ts : list (option tree)) (ot : option tree) : Prop := {
  fi_acc : acc_ok acc';
  fi_inv : inv acc' pre ot;
  fi_frame : frame (prefix pre) acc acc';
  fi_stale : ∃ ext, a_stale acc' = a_stale acc ++ ext ∧
    ∀ x, x ∈ ext ↔ retired_node pre (Some (TNode nv ts)) ot x;
  fi_leaves : ∀ l, l ∈ oleaves ot ↔ l ∈ leaves (TNode nv ts);
  fi_keep : kept (Some (TNode nv ts)) ot;
  fi_new : ∀ t, ot = Some t -> t_version t = nv
}.

Section finish.
Variables (acc : commitAcc) (pre : list N) (ts : list (option tree)).
Hypothesis Ha : acc_ok acc.
Hypothesis Hlen : length ts = 16.
Hypothesis Hpre : length pre < 64.
Hypothesis Hpre16 : Forall (λ x, (x < 16)%N) pre.
Hypothesis Hi : ∀ i, (i < 16)%N -> inv acc (pre ++ [i]) (at_slot ts i).
Hypothesis Htop : pend acc pre = None.

Lemma finish_empty : omap id ts = [] -> finished acc acc pre ts None.
Proof.
  intros En.
  assert (∀ i, at_slot ts i = None) as Hnone.
  { intros i. destruct (ts !! N.to_nat i) as [[t|]|] eqn:Ei; [|done|done]. exfalso.
    assert (t ∈ omap id ts) as Hin by (apply list_elem_of_omap; exists (Some t);
      split; [by eapply list_elem_of_lookup_2|done]).
    rewrite En in Hin. by apply not_elem_of_nil in Hin. }
  assert (∀ l, ¬ l ∈ leaves (TNode nv ts)) as Hnl.
  { intros l (i & Hl)%elem_of_slots. rewrite Hnone in Hl. by apply not_elem_of_nil in Hl. }
  split; [done| |apply frame_refl| | |by intros [|??]|done].
  - split; [done|by intros [|??]|by intros l ?%not_elem_of_nil..| |].
    + intros [|i q] Hw Hs; [rewrite app_nil_r, Htop in Hs; by destruct Hs|].
      assert (i < 16)%N as Hi16.
      { destruct Hw as (_ & _ & Hw). cbn in Hw. apply Forall_app in Hw as [_ Hw].
        by apply Forall_cons in Hw as [? _]. }
      replace (pre ++ i :: q) with ((pre ++ [i]) ++ q) in * by by rewrite <-app_assoc.
      destruct (i_exact _ _ _ (Hi i Hi16) q Hw Hs) as (t & Ht & _).
      rewrite Hnone in Ht. by destruct q.
    + intros vh p Ho Hu Hs. set (i := nibble p (length pre)).
      assert (i < 16)%N as Hi16 by by apply nibble_lt16.
      destruct (i_vexact _ _ _ (Hi i Hi16) vh p Ho) as (l & Hin & ?); [by apply under_snoc|done|].
      rewrite Hnone in Hin. by apply not_elem_of_nil in Hin.
  - exists []. rewrite app_nil_r. split; [done|]. intros x. split; [by intros ?%not_elem_of_nil|].
    intros ([|i q] & t & Ht & Hv & _); cbn in Ht; [by injection Ht as <-|].
    rewrite Hnone in Ht. by destruct q.
  - intros l. split; [by intros ?%not_elem_of_nil|]. by intros ?%Hnl.
Qed.

Lemma finish_branch :
  branching ts ->
  ∃ acc', putInternal acc pre (ochild <$> ts) = (ochild (Some (TNode nv ts)), acc') ∧
    finished acc acc' pre ts (Some (TNode nv ts)).
Proof.
  intros Hb. destruct (putInternal_ok acc pre ts) as (acc' & E1 & Ha1 & Hi1 & Hf1 & Hs1); try done.
  exists acc'. split; [done|]. split; [done|done| | |done|apply kept_refl|by intros t [= <-]].
  - eapply frame_mono; [|done]. by intros x ->.
  - exists []. rewrite app_nil_r. split; [done|]. intros x. split; [by intros ?%not_elem_of_nil|].
    intros Hr. exfalso. by apply (retired_same pre (Some (TNode nv ts)) x); left.
Qed.

Lemma finish_lone v l i s :
  store_ok s -> contents (s_backend s) = C ->
  ts !! i = Some (Some (TLeaf v l)) ->
  (∀ j t', ts !! j = Some (Some t') -> j = i ∧ t' = TLeaf v l) ->
  ∃ acc' s', ('(leaf, acc) ← takeLeaf acc (child_of (TLeaf v l)) (pre ++ [N.of_nat i]);
              putLeaf acc pre leaf) s = (Ok (ochild (Some (TLeaf nv l)), acc'), s') ∧
    reads s s' ∧ finished acc acc' pre ts (Some (TLeaf nv l)).
Proof.
  intros Ho EC Hit Hall. pose proof (lookup_lt_Some _ _ _ Hit) as Hlt. rewrite Hlen in Hlt.
  pose proof (Hi (N.of_nat i) ltac:(lia)) as Hinv. rewrite Nat2N.id, Hit in Hinv.
  set (pos := pre ++ [N.of_nat i]) in *.
  destruct (takeLeaf_ok acc pos v l s Ho EC Ha Hinv) as (acc1 & s1 & E1 & R1 & Ha1 & Hf1 & Hp1 & Hv1 & Hs1).
  unfold mbind, M_bind. rewrite E1.
  assert (∀ j t, at_slot ts j = Some t -> j = N.of_nat i ∧ t = TLeaf v l) as Hslot.
  { intros j t Hj. destruct (ts !! N.to_nat j) as [o|] eqn:Ej; [|done]. cbn in Hj. subst o.
    destruct (Hall _ _ Ej). split; [lia|done]. }
  assert (∀ j q t, tree_at (at_slot ts j) q = Some t -> j = N.of_nat i ∧ q = [] ∧ t = TLeaf v l) as Hat.
  { intros j q t Ht. destruct (at_slot ts j) as [tj|] eqn:Ej; [|by destruct q].
    destruct (Hslot j tj Ej) as [-> ->]. by apply tree_at_leaf in Ht as [-> ->]. }
  assert (∀ l', l' ∈ leaves (TNode nv ts) ↔ l' = l) as Hleaves.
  { intros l'. rewrite elem_of_slots. split.
    - intros (j & Hj). destruct (at_slot ts j) as [tj|] eqn:Ej; [|by apply not_elem_of_nil in Hj].
      destruct (Hslot j tj Ej) as [-> ->]. by apply list_elem_of_singleton in Hj.
    - intros ->. exists (N.of_nat i). rewrite Nat2N.id, Hit. left. }
  assert (pos ≠ pre) as Hpos by (unfold pos; intros Ep%(f_equal length); rewrite length_app in Ep; cbn in Ep; lia).
  assert (nk_wf (new_key pre)) as Hwpre by (split_and!; [done|unfold nibbles; cbn; lia|done]).
  destruct (putLeaf_ok acc1 pre l s1) as (acc2 & E2 & []).
  - done.
  - apply (i_leaf _ _ _ Hinv). left.
  - pose proof (i_wf _ _ _ Hinv) as Hw. cbn in Hw. inversion Hw; subst.
    match goal with H : under pos _ |- _ => by apply under_snoc in H as [? _] end.
  - intros q Hw. destruct q as [|j q].
    + rewrite app_nil_r, (f_pend _ _ _ Hf1); [done|done|]. cbn. congruence.
    + destruct (decide (pre ++ j :: q = pos)) as [->|Hne]; [done|].
      rewrite (f_pend _ _ _ Hf1); [|done|done].
      destruct (pend acc (pre ++ j :: q)) eqn:Ep; [|done]. exfalso.
      assert (j < 16)%N as Hj16.
      { destruct Hw as (_ & _ & Hw). cbn in Hw. apply Forall_app in Hw as [_ Hw].
        by apply Forall_cons in Hw as [? _]. }
      replace (pre ++ j :: q) with ((pre ++ [j]) ++ q) in * by by rewrite <-app_assoc.
      destruct (i_exact _ _ _ (Hi j Hj16) q Hw) as (t & Ht & _); [by rewrite Ep|].
      destruct (Hat _ _ _ Ht) as (-> & -> & _). apply Hne. by rewrite app_nil_r.
  - intros vh p Ho' Hu' Hs. rewrite Hv1 in Hs. set (j := nibble p (length pre)).
    assert (j < 16)%N as Hj16 by by apply nibble_lt16.
    destruct (i_vexact _ _ _ (Hi j Hj16) vh p Ho') as (l' & Hin & ?); [by apply under_snoc|done|].
    exists l'. split; [|done]. apply list_elem_of_singleton, Hleaves, elem_of_slots. by exists j.
  - exists acc2, s1. rewrite E2. split; [done|]. split; [done|]. split.
    + done.
    + done.
    + eapply frame_trans; [|done]. eapply frame_mono; [|exact Hf1]. intros x ->. by apply prefix_app_r.
    + eexists. split; [rewrite b_stale0; exact Hs1|]. intros x. rewrite elem_of_mark. split.
      * intros [Hv ->]. exists [N.of_nat i], (TLeaf v l). cbn. rewrite Nat2N.id, Hit. done.
      * intros ([|j q] & t & Ht & Hv & -> & _); cbn in Ht; [by injection Ht as <-|].
        destruct (Hat _ _ _ Ht) as (-> & -> & ->). done.
    + intros l'. rewrite Hleaves. apply list_elem_of_singleton.
    + intros q t [-> ->]%tree_at_leaf. by left.
    + by intros t [= <-].
Qed.

Lemma finishInternal_ok s :
  store_ok s -> contents (s_backend s) = C ->
  ∃ ot acc' s', finishInternal acc pre (ochild <$> ts) s = (Ok (ochild ot, acc'), s') ∧
    reads s s' ∧ finished acc acc' pre ts ot.
Proof.
  intros Ho EC. unfold finishInternal. rewrite omap_ochild.
  destruct (omap id ts) as [|t rest] eqn:Eo; cbn [fmap list_fmap].
  { exists None, acc, s. split_and!; [done|apply reads_refl|by apply finish_empty]. }
  destruct (decide (child_of <$> rest = [] ∧ c_isLeaf (child_of t) = true)) as [[Hr Hlf]|Hn].
  - destruct rest; [|done]. destruct t as [v l|]; [|done].
    destruct (lone_slot ts _ Eo) as (i & Hf & Hit & Hall). rewrite Hf. cbn [mbind option_bind fmap option_fmap option_map fst default].
    destruct (finish_lone v l i s Ho EC Hit Hall) as (acc' & s' & E1 & R & Hfin).
    exists (Some (TLeaf nv l)), acc', s'. done.
  - destruct finish_branch as (acc' & E1 & Hfin).
    { split; [by rewrite Eo|]. intros v l E2. rewrite Eo in E2. injection E2 as -> ->. by apply Hn. }
    exists (Some (TNode nv ts)), acc', s. rewrite E1. split_and!; [done|apply reads_refl|done].
Qed.
End finish.

(** ** The recursion *)

(** What [applySubtree] owes for one slot. *)
Definition apply_spec (left : nat) (pos : list N) (us : list update) : Prop :=
  ∀ acc ot s, store_ok s -> contents (s_backend s) = C -> acc_ok acc -> inv acc pos ot ->
    updates_ok pos us ->
    ∃ ot' acc' s', applySubtree left acc (ochild ot) pos us s = (Ok (ochild ot', acc'), s') ∧
      reads s s' ∧ applied acc acc' pos us ot ot'.

Abbreviation apply_step left pre := (λ '(cs, changed, acc) '(nib, group),
    '(c, acc) ← applySubtree left acc (slot cs nib) (pre ++ [nib]) group;
    mret (if childEq c (slot cs nib) then (cs, changed, acc)
          else (<[N.to_nat nib := c]> cs, true, acc))).

(** The slots [ts] became [ts'] by applying the groups [gs]. *)
Record folded (acc acc' : commitAcc) (pre : list N) (gs : list (N * list update))
    (ts ts' : list (option tree)) : Prop := {
  fo_len : length ts' = 16;
  fo_acc : acc_ok acc';
  fo_inv : ∀ i, (i < 16)%N -> inv acc' (pre ++ [i]) (at_slot ts' i);
  fo_frame : frame (in_slots pre gs.*1) acc acc';
  fo_out : ∀ i, i ∉ gs.*1 -> ts' !! N.to_nat i = ts !! N.to_nat i;
  fo_in : ∀ i g, (i, g) ∈ gs -> upd_spec nv g (oleaves (at_slot ts i)) (oleaves (at_slot ts' i));
  fo_keep : ∀ i, kept (at_slot ts i) (at_slot ts' i);
  fo_same : ∀ i, old_only (at_slot ts i) -> ochild (at_slot ts' i) = ochild (at_slot ts i) ->
    at_slot ts' i = at_slot ts i;
  fo_noop : ∀ i, (∀ l, l ∈ oleaves (at_slot ts' i) ↔ l ∈ oleaves (at_slot ts i)) ->
    at_slot ts' i = at_slot ts i;
  fo_stale : ∃ ext, a_stale acc' = a_stale acc ++ ext ∧
    ∀ x, x ∈ ext ↔ ∃ i, (i < 16)%N ∧ retired (pre ++ [i]) (at_slot ts i) (at_slot ts' i) x
}.

Lemma folded_refl acc pre ts :
  length ts = 16 -> acc_ok acc -> (∀ i, (i < 16)%N -> inv acc (pre ++ [i]) (at_slot ts i)) ->
  folded acc acc pre [] ts ts.
Proof.
  intros Hl Ha Hi. split; [done..|apply frame_refl|done|by intros i g ?%not_elem_of_nil|intros i; apply kept_refl|done|done|].
  exists []. rewrite app_nil_r. split; [done|]. intros x. split; [by intros ?%not_elem_of_nil|].
  by intros (i & _ & ?%retired_same).
Qed.

Lemma at_slot_insert (ts : list (option tree)) i o j :
  length ts = 16 -> (i < 16)%N ->
  at_slot (<[N.to_nat i := o]> ts) j = if decide (i = j) then o else at_slot ts j.
Proof. intros Hl Hi. rewrite lookup_insert_slot by done. by case_decide. Qed.

Lemma folded_cons acc acc1 acc2 pre nib g gs ts ts' ot' :
  length ts = 16 -> (nib < 16)%N -> nib ∉ gs.*1 ->
  applied acc acc1 (pre ++ [nib]) g (at_slot ts nib) ot' ->
  folded acc1 acc2 pre gs (<[N.to_nat nib := ot']> ts) ts' ->
  folded acc acc2 pre ((nib, g) :: gs) ts ts'.
Proof.
  intros Hl Hnib Hn [] []. destruct p_stale0 as (e1 & Hs1 & He1), fo_stale0 as (e2 & Hs2 & He2).
  assert (at_slot ts' nib = ot') as Enib.
  { rewrite fo_out0 by done. rewrite at_slot_insert by done. by rewrite decide_True. }
  split; [done..| | | | | | |].
  - eapply frame_trans.
    + eapply frame_mono; [|exact p_frame0]. intros x Hx. exists nib. split; [left|done].
    + eapply frame_mono; [|exact fo_frame0]. intros x (i & Hin & Hx). exists i. split; [by right|done].
  - intros i [Hne Hnin]%not_elem_of_cons. rewrite fo_out0 by done.
    rewrite lookup_insert_slot by done. by rewrite decide_False.
  - intros i g' [[= -> ->]|Hin]%elem_of_cons; [by rewrite Enib|].
    specialize (fo_in0 i g' Hin). rewrite at_slot_insert in fo_in0 by done.
    rewrite decide_False in fo_in0; [done|]. intros ->. by apply elem_of_fst in Hin.
  - intros i. destruct (decide (nib = i)) as [<-|Hne]; [by rewrite Enib|].
    specialize (fo_keep0 i). rewrite at_slot_insert, decide_False in fo_keep0 by done. done.
  - intros i. destruct (decide (nib = i)) as [<-|Hne]; [by rewrite Enib|].
    specialize (fo_same0 i). rewrite at_slot_insert, decide_False in fo_same0 by done. done.
  - intros i. destruct (decide (nib = i)) as [<-|Hne]; [by rewrite Enib|].
    specialize (fo_noop0 i). rewrite at_slot_insert, decide_False in fo_noop0 by done. done.
  - exists (e1 ++ e2). split; [by rewrite Hs2, Hs1, <-app_assoc|].
    intros x. rewrite elem_of_app, He1, He2. split.
    + intros [Hr|(i & Hi & Hr)]; [exists nib; split; [done|by rewrite Enib]|].
      exists i. split; [done|]. rewrite at_slot_insert in Hr by done.
      destruct (decide (nib = i)) as [<-|Hne]; [|done]. exfalso.
      rewrite Enib in Hr. by apply retired_same in Hr.
    + intros (i & Hi & Hr). destruct (decide (nib = i)) as [<-|Hne]; [left; by rewrite Enib in Hr|].
      right. exists i. split; [done|]. rewrite at_slot_insert by done. by rewrite decide_False.
Qed.

Lemma apply_fold left pre gs acc ts ch s :
  store_ok s -> contents (s_backend s) = C -> acc_ok acc -> NoDup gs.*1 -> length ts = 16 ->
  (∀ nib g, (nib, g) ∈ gs -> (nib < 16)%N ∧ updates_ok (pre ++ [nib]) g ∧ apply_spec left (pre ++ [nib]) g) ->
  (∀ i, (i < 16)%N -> inv acc (pre ++ [i]) (at_slot ts i)) ->
  ∃ ts' ch' acc' s',
    foldM (apply_step left pre) (ochild <$> ts, ch, acc) gs s = (Ok (ochild <$> ts', ch', acc'), s') ∧
    reads s s' ∧ folded acc acc' pre gs ts ts' ∧
    (ch' = false -> ch = false ∧ ochild <$> ts' = ochild <$> ts) ∧
    (ch' = true -> ch = true ∨ ∃ i, at_slot ts' i ≠ at_slot ts i).
Proof.
  revert acc ts ch s. induction gs as [|[nib g] gs IH]; intros acc ts ch s Ho EC Ha Hnd Hl Hgs Hi.
  { exists ts, ch, acc, s. split_and!; [done|apply reads_refl|by apply folded_refl|done|by left]. }
  cbn in Hnd. apply NoDup_cons in Hnd as [Hn Hnd].
  destruct (Hgs nib g) as (Hnib & Hu & Hap); [left|].
  destruct (Hap acc (at_slot ts nib) s Ho EC Ha (Hi nib Hnib) Hu) as (ot' & acc1 & s1 & E1 & R1 & Happ).
  set (ts1 := <[N.to_nat nib := ot']> ts).
  assert (∃ ch1, (apply_step left pre) (ochild <$> ts, ch, acc) (nib, g) s = (Ok (ochild <$> ts1, ch1, acc1), s1) ∧
    (ch1 = false -> ch = false ∧ ochild <$> ts1 = ochild <$> ts) ∧
    (ch1 = true -> ch = true ∨ ot' ≠ at_slot ts nib)) as (ch1 & E2 & Hch & Hch2).
  { cbn beta iota. rewrite slot_ochild. unfold mbind, M_bind. rewrite E1.
    destruct (childEq (ochild ot') (ochild (at_slot ts nib))) eqn:Ec.
    - apply childEq_eq in Ec. exists ch. pose proof (ochild_insert_same ts nib ot' Ec) as Es.
      unfold ts1. rewrite Es. split_and!; [done..|by left].
    - exists true. unfold ts1. rewrite list_fmap_insert. split_and!; [done..|]. right. intros ->.
      assert (childEq (ochild (at_slot ts nib)) (ochild (at_slot ts nib)) = true) by by apply childEq_eq.
      congruence. }
  destruct (IH acc1 ts1 ch1 s1) as (ts' & ch' & acc' & s' & E3 & R3 & Hfo & Hch' & Hch2').
  - by eapply reads_ok.
  - by rewrite (reads_contents _ _ R1).
  - apply Happ.
  - done.
  - unfold ts1. by rewrite length_insert.
  - intros i g' Hin. apply Hgs. by right.
  - intros i Hi16. unfold ts1. rewrite at_slot_insert by done. case_decide as Hd.
    + subst i. apply Happ.
    + eapply inv_frame; [by apply Hi|apply Happ|]. intros x Hx Hx'. by apply Hd, (prefix_snoc_ne pre _ _ x).
  - exists ts', ch', acc', s'. split_and!.
    + cbn [foldM]. rewrite (bind_ok _ _ _ _ _ E2). exact E3.
    + by eapply reads_trans.
    + by eapply folded_cons.
    + intros Hf. destruct (Hch' Hf) as [Hf1 Ef1]. destruct (Hch Hf1) as [Hf2 Ef2]. split; congruence.
    + assert (at_slot ts' nib = ot') as Enib.
      { rewrite (fo_out _ _ _ _ _ _ Hfo) by done. unfold ts1. rewrite at_slot_insert by done. by rewrite decide_True. }
      intros [Hc|(i & Hni)]%Hch2'.
      * destruct (Hch2 Hc) as [?|Hne]; [by left|]. right. exists nib. by rewrite Enib.
      * unfold ts1 in Hni. rewrite at_slot_insert in Hni by done.
        destruct (decide (nib = i)) as [<-|Hne]; [by rewrite Enib in Hni|]. right. by exists i.
Qed.

Lemma groups_updates pre us nib g :
  length pre < 64 -> updates_ok pre us -> (nib, g) ∈ group_nibbles u_path (length pre) us ->
  (nib < 16)%N ∧ updates_ok (pre ++ [nib]) g.
Proof.
  intros Hp (Hs & Hu & Hc) Hin.
  destruct (group_nibbles_spec u_path pre us Hp Hu Hs) as (_ & Hg & _).
  destruct (Hg nib g Hin) as (-> & x & Hx & En). split; [rewrite <-En; by apply nibble_lt16|].
  split_and!.
  - by apply path_sorted_filter.
  - apply Forall_forall. intros u [Hn Hin']%list_elem_of_filter. rewrite Forall_forall in Hu.
    apply under_snoc. auto.
  - intros u vh [_ Hin']%list_elem_of_filter. by apply Hc.
Qed.

(** Folding over the groups of a batch updates every slot by its share. *)
Lemma folded_spec acc acc' pre us ts ts' i :
  length pre < 64 -> updates_ok pre us ->
  folded acc acc' pre (group_nibbles u_path (length pre) us) ts ts' ->
  upd_spec nv (filter (λ u, nibble (u_path u) (length pre) = i) us)
    (oleaves (at_slot ts i)) (oleaves (at_slot ts' i)).
Proof.
  intros Hp (Hs & Hu & Hc) []. destruct (group_nibbles_spec u_path pre us Hp Hu Hs) as (_ & Hg & Hcov).
  destruct (decide (i ∈ (group_nibbles u_path (length pre) us).*1)) as [Hin|Hnin].
  - apply list_elem_of_fmap in Hin as ([i' g] & -> & Hin). cbn.
    destruct (Hg _ _ Hin) as [<- _]. by apply fo_in0.
  - rewrite fo_out0 by done.
    assert (filter (λ u, nibble (u_path u) (length pre) = i) us = []) as ->; [|apply upd_spec_nil].
    apply filter_none. intros u Hu' En. apply Hnin. rewrite <-En. by apply Hcov.
Qed.

Section node_case.
Variables (acc acc' : commitAcc) (pre : list N) (v : N) (us : list update) (cs ts : list (option tree)).
Hypothesis Ha : acc_ok acc.
Hypothesis Hi : inv acc pre (Some (TNode v cs)).
Hypothesis Hu : updates_ok pre us.
Hypothesis Hfo : folded acc acc' pre (group_nibbles u_path (length pre) us) cs ts.

Let node_facts : length cs = 16 ∧ length pre < 64 ∧ Forall (λ x, (x < 16)%N) pre ∧ is_u64 v ∧ branching cs.
Proof. destruct Hi as [Hw _ _ _ _ _]. cbn in Hw. inversion Hw; subst. done. Qed.

Lemma node_unchanged :
  ochild <$> ts = ochild <$> cs -> applied acc acc' pre us (Some (TNode v cs)) (Some (TNode v ts)).
Proof.
  intros Eo. destruct node_facts as (Hlc & Hp & Hf & Hv & Hb). pose proof Hfo as [].
  assert (∀ i, (i < 16)%N -> inv acc (pre ++ [i]) (at_slot cs i)) as Hic by (intros; by apply inv_child with v).
  assert (nk_wf (new_key pre)) as Hw by (split_and!; [done|unfold nibbles; cbn; lia|done]).
  assert (pend acc' pre = pend acc pre) as Ep by (apply fo_frame0; [done|apply in_slots_top]).
  split.
  - done.
  - apply inv_node; try done.
    + by eapply branching_ochild.
    + pose proof (i_res _ _ _ Hi [] _ eq_refl) as Hr. rewrite app_nil_r in Hr.
      unfold resolved in *. cbn [t_version] in *. rewrite t_node_node, Eo, Ep.
      by rewrite t_node_node in Hr.
    + rewrite Ep. intros Hs. destruct (i_exact _ _ _ Hi []) as (t & [= <-] & ?); rewrite ?app_nil_r; done.
  - eapply frame_mono; [apply in_slots_sub|done].
  - destruct fo_stale0 as (ext & Hs & Hx). exists ext. split; [done|]. intros x.
    rewrite (retired_slots acc acc') by done. rewrite Hx. split; [by right|].
    intros [(? & ? & _)|?]; done.
  - apply (node_upd_spec acc acc' pre us v v cs ts); try done. intros i Hi16. by eapply folded_spec.
  - intros [|i q] t Ht; [right; cbn in Ht; injection Ht as <-; by eexists|].
    cbn in Ht. by apply (fo_keep0 i q).
  - intros Hold _. do 2 f_equal. apply (slots_eq _ _ fo_len0 Hlc). intros i. apply fo_same0.
    + intros q t Ht. by apply (Hold (i :: q)).
    + by rewrite <-!slot_ochild, Eo.
  - intros Hl. do 2 f_equal. apply (slots_eq _ _ fo_len0 Hlc). intros i. apply fo_noop0.
    intros l. by apply (slot_leaves_eq acc acc' pre v v).
  - intros t _. right. cbn. unfold child_of, t_hash. by rewrite !t_node_node, Eo.
Qed.

Lemma node_changed s :
  (∃ i, at_slot ts i ≠ at_slot cs i) -> store_ok s -> contents (s_backend s) = C ->
  ∃ ot acc2 s', finishInternal (staleNode (NodeKey v pre) acc') pre (ochild <$> ts) s = (Ok (ochild ot, acc2), s') ∧
    reads s s' ∧ applied acc acc2 pre us (Some (TNode v cs)) ot.
Proof.
  intros Hdiff Ho EC. destruct node_facts as (Hlc & Hp & Hf & Hv & Hb). pose proof Hfo as [].
  assert (∀ i, (i < 16)%N -> inv acc (pre ++ [i]) (at_slot cs i)) as Hic by (intros; by apply inv_child with v).
  assert (nk_wf (new_key pre)) as Hw by (split_and!; [done|unfold nibbles; cbn; lia|done]).
  assert (pend acc' pre = pend acc pre) as Ep by (apply fo_frame0; [done|apply in_slots_top]).
  destruct (staleNode_ok acc' v pre fo_acc0 Hv Hw) as (Ha1 & Hf1 & Hp1 & Hv1 & Hs1).
  destruct (finishInternal_ok (staleNode (NodeKey v pre) acc') pre ts) with (s := s)
    as (ot & acc2 & s' & E1 & R1 & []); try done.
  { intros i Hi16. eapply inv_frame; [by apply fo_inv0|exact Hf1|].
    intros x Hx ->. apply prefix_length in Hx. rewrite length_app in Hx. cbn in Hx. lia. }
  { destruct (decide (v = nv)) as [?|Hne]; [by apply Hp1|].
    destruct (pend (staleNode (NodeKey v pre) acc') pre) eqn:Es; [|done]. exfalso.
    unfold staleNode in Es. cbn [nk_version] in Es. rewrite (ao_nv _ fo_acc0), decide_False in Es by done.
    cbn in Es. rewrite Ep in Es.
    destruct (i_exact _ _ _ Hi []) as (t & [= <-] & ?); rewrite ?app_nil_r; [done|by eexists|done]. }
  set (mid := Some (TNode nv ts)) in *.
  assert (kept (Some (TNode v cs)) mid) as Hk1.
  { intros [|i q] t Ht; [left; cbn in Ht; by injection Ht as <-|].
    cbn in Ht. by apply (fo_keep0 i q). }
  exists ot, acc2, s'. split; [done|]. split; [done|]. split.
  - done.
  - done.
  - eapply frame_trans; [eapply frame_mono; [apply in_slots_sub|done]|].
    eapply frame_trans; [eapply frame_mono; [|exact Hf1]; by intros x ->|done].
  - destruct fo_stale0 as (e1 & Es1 & Hx1), fi_stale0 as (e2 & Es2 & Hx2).
    exists (e1 ++ (if decide (v = nv) then [] else [nodeRecordKey (NodeKey v pre)]) ++ e2).
    split; [by rewrite Es2, Hs1, Es1, <-!app_assoc|]. intros x.
    rewrite !elem_of_app, Hx2, elem_of_mark, Hx1.
    assert (retired pre (Some (TNode v cs)) ot x ↔
            retired pre (Some (TNode v cs)) mid x ∨ retired_node pre mid ot x) as ->.
    { unfold retired. rewrite (retired_node_trans pre _ mid ot) by done.
      rewrite (retired_val_same _ ot mid) by done. tauto. }
    unfold mid. rewrite (retired_slots acc acc') by done. split.
    + intros [?|[[? ->]|?]]; auto 6.
    + intros [[(? & ? & ?)|?]|?]; auto 6.
  - intros l. rewrite fi_leaves0.
    revert l. change (upd_spec nv us (leaves (TNode v cs)) (leaves (TNode nv ts))).
    apply (node_upd_spec acc acc' pre us v nv cs ts); try done. intros i Hi16. by eapply folded_spec.
  - by eapply kept_trans.
  - intros Hold Eo. exfalso. destruct ot as [t|]; [|done]. cbn in Eo. injection Eo as Ev _ _.
    pose proof (fi_new0 t eq_refl). by apply (Hold [] _ eq_refl); rewrite <-Ev.
  - intros Hl. exfalso. destruct Hdiff as [i Hne]. apply Hne, fo_noop0.
    intros l. apply (slot_leaves_eq acc acc' pre v nv); try done.
    intros l0. by rewrite <-fi_leaves0.
  - intros t Et. left. by apply fi_new0.
Qed.
End node_case.

Lemma applySubtree_ok left pre us : left + length pre = nibbles -> apply_spec left pre us.
Proof.
  revert pre us. induction left as [|left IH]; intros pre us Hn acc ot s Ho EC Ha Hi Hu.
  all: destruct us as [|u us0];
    [exists ot, acc, s; split_and!; [by destruct ot|apply reads_refl|apply applied_same; [done..|apply upd_spec_nil]]|].
  all: cbn [applySubtree]; set (us := u :: us0) in *.
  all: destruct ot as [t|];
    [|destruct (apply_none_ok _ acc pre us s Hn Ha Hi Hu) as (ot' & acc' & E1 & Happ);
      exists ot', acc', s; split_and!; [exact E1|apply reads_refl|done]].
  all: destruct (resolveNode_ok acc pre t s Ho EC Ha Hi) as (s1 & E1 & R1).
  all: cbn [ochild]; change (c_version (child_of t)) with (t_version t);
    rewrite (bind_ok _ _ _ _ _ E1), t_node_isLeaf, decide_False by (cbn; auto).
  all: destruct t as [v leaf|v cs]; cbn [t_node].
  all: try (rewrite (ao_nv _ Ha); destruct (decide (merge_updates nv leaf us = _)) as [Em|Em];
    [exists (Some (TLeaf v leaf)), acc, s1; split_and!; [done|done|];
     apply applied_same; [done..|]; apply merge_same; [apply path_sorted_NoDup, Hu|done]
    |destruct (apply_leaf_ok acc pre v leaf us Ha Hi Hu _ s1 Hn Em) as (ot' & acc' & E2 & Happ);
     exists ot', acc', s1; split_and!; [exact E2|done|exact Happ]]).
  { exfalso. pose proof (i_wf _ _ _ Hi) as Hw. inversion Hw; subst. unfold nibbles in Hn. cbn in Hn. lia. }
  pose proof (i_wf _ _ _ Hi) as Hw. inversion Hw as [|? ? ? Hlc Hp Hf Hv Hc Hb]; subst.
  destruct (group_nibbles_spec u_path pre us Hp) as (Hnd & _ & _); [apply Hu..|].
  change (λ oc, match oc with Some t' => _ | None => None end) with ochild.
  destruct (apply_fold left pre (group_nibbles u_path (length pre) us) acc cs false s1)
    as (ts & ch & acc' & s2 & E2 & R2 & Hfo & Hch & Hch2).
  - by eapply reads_ok.
  - by rewrite (reads_contents _ _ R1).
  - done.
  - by apply N_lt_NoDup.
  - done.
  - intros nib g Hin. destruct (groups_updates pre us nib g Hp Hu Hin). split_and!; [done..|].
    apply IH. rewrite length_app. cbn. lia.
  - intros i Hi16. by apply inv_child with v.
  - rewrite (bind_ok _ _ _ _ _ E2). destruct ch.
    + destruct (node_changed acc acc' pre v us cs ts Hi Hu Hfo s2) as (ot' & acc2 & s3 & E3 & R3 & Happ).
      * by destruct (Hch2 eq_refl).
      * eapply reads_ok; [done|]. by eapply reads_ok.
      * by rewrite (reads_contents _ _ R2), (reads_contents _ _ R1).
      * exists ot', acc2, s3. split_and!; [exact E3| |done]. eauto using reads_trans.
    + destruct (Hch eq_refl) as [_ Eo]. exists (Some (TNode v ts)), acc', s2. split_and!.
      * cbn. unfold child_of, t_hash. by rewrite !t_node_node, Eo.
      * by eapply reads_trans.
      * by apply node_unchanged.
Qed.
End write.
