(* ===== verification/Records.v ===== *)
(** Record keys and the batch one commit writes ([ledger/store.go]).

    The five kinds of record never share a key, and within a kind the key
    determines its parts; so the effect of [commit_ops] on storage is the pending
    nodes, the new values, the stale marks, the root record and the checkpoint,
    and nothing else. *)

From S2P Require Import Prelude Errors Sha256 Hashing Node Aead Backend Cache Store StoreWrite.

Lemma valueRecordKey_inj vh v vh' v' :
  is_u64 v -> is_u64 v' -> valueRecordKey vh v = valueRecordKey vh' v' -> vh = vh' ∧ v = v'.
Proof.
  intros Hv Hv' [= E]. apply app_inj_len in E as [E1 E2]; [|by rewrite !length_b32].
  split; [by apply (inj b32)|by apply be8_inj].
Qed.

Lemma staleRecordKey_inj w t w' t' :
  is_u64 w -> is_u64 w' -> staleRecordKey w t = staleRecordKey w' t' -> w = w' ∧ t = t'.
Proof.
  intros Hw Hw' E. apply (f_equal tail) in E. cbn [tail staleRecordKey] in E.
  apply app_inj_len in E as [E1 E2]; [|by rewrite !length_be].
  split; [by apply be8_inj|done].
Qed.

Lemma rootRecordKey_inj v v' : is_u64 v -> is_u64 v' -> rootRecordKey v = rootRecordKey v' -> v = v'.
Proof. intros Hv Hv' E. apply (f_equal tail) in E. by apply be8_inj. Qed.

Lemma nodeRecordKey_enc nk nk' :
  nodeRecordKey nk = nodeRecordKey nk' -> nodeKey_encode nk = nodeKey_encode nk'.
Proof. intros E. exact (f_equal tail E). Qed.

Lemma nodeRecordKey_inj nk nk' :
  nk_wf nk -> nk_wf nk' -> nodeRecordKey nk = nodeRecordKey nk' -> nk = nk'.
Proof. intros Hw Hw' E%nodeRecordKey_enc. by apply nodeKey_encode_inj. Qed.

Section commit_ops.
Context `{MR : MapRange}.
Variables (nv : N) (acc : commitAcc) (root : Hash) (ckpt : bytes).
Hypothesis Hnv : is_u64 nv.
Hypothesis Hacc : a_newVersion acc = nv.
Hypothesis Hpend : pend_wf nv (a_pending acc).

Abbreviation ops := (commit_ops acc root ckpt).

(** The operations of the batch, by kind. *)
Lemma elem_of_commit_ops op :
  op ∈ ops ↔
  (∃ k pn, a_pending acc !! k = Some pn ∧ op = bput (nodeRecordKey (pn_nk pn)) (node_encode (pn_n pn))) ∨
  (∃ vh ct, a_values acc !! vh = Some ct ∧ op = bput (valueRecordKey vh nv) ct) ∨
  (∃ x, x ∈ a_stale acc ∧ op = bput (staleRecordKey nv x) []) ∨
  op = bput (rootRecordKey nv) (b32 root) ∨ op = bput checkpointRecordKey ckpt.
Proof.
  unfold commit_ops. rewrite Hacc, !elem_of_app, !list_elem_of_fmap, elem_of_cons, list_elem_of_singleton.
  split.
  - intros [([k pn] & -> & Hin)|[([vh ct] & -> & Hin)|[?|?]]]; [| |naive_solver..].
    + left. exists k, pn. split; [|done]. by apply elem_of_range.
    + right; left. exists vh, ct. split; [|done]. by apply elem_of_range.
  - intros [(k & pn & Hin & ->)|[(vh & ct & Hin & ->)|[?|?]]]; [| |naive_solver..].
    + left. exists (k, pn). split; [done|]. by apply elem_of_range.
    + right; left. exists (vh, ct). split; [done|]. by apply elem_of_range.
Qed.

Lemma commit_node C nk :
  nk_wf nk ->
  apply_batch ops C !! nodeRecordKey nk =
  match a_pending acc !! nodeKey_encode nk with
  | Some pn => Some (node_encode (pn_n pn))
  | None => C !! nodeRecordKey nk
  end.
Proof.
  intros Hw. destruct (a_pending acc !! nodeKey_encode nk) as [pn|] eqn:Ep.
  - destruct (Hpend _ _ Ep) as (Ek & Hwn & Hv & _). apply apply_batch_in.
    + eexists. split; [apply elem_of_commit_ops; left; eauto|]. cbn. unfold nodeRecordKey. by rewrite Ek.
    + intros op Hop. apply elem_of_commit_ops in Hop as [(k & pn' & Hk & ->)|Ho].
      * destruct (Hpend _ _ Hk) as (Ek' & _). intros E%nodeRecordKey_enc. rewrite <-Ek' in E. cbn. congruence.
      * intros E. exfalso. by destruct Ho as [(? & ? & _ & ->)|[(? & _ & ->)|[->| ->]]].
  - apply apply_batch_notin. intros op Hop E.
    apply elem_of_commit_ops in Hop as [(k & pn' & Hk & ->)|Ho].
    + destruct (Hpend _ _ Hk) as (Ek' & _). apply nodeRecordKey_enc in E. rewrite <-Ek' in E. congruence.
    + by destruct Ho as [(? & ? & _ & ->)|[(? & _ & ->)|[->| ->]]].
Qed.

(** A node record of another commit is untouched, whatever bytes its key has. *)
Lemma commit_node_other C k :
  (∀ nk, nk_wf nk -> nk_version nk = nv -> k ≠ nodeKey_encode nk) ->
  apply_batch ops C !! (recNode :: k) = C !! (recNode :: k).
Proof.
  intros Hk. apply apply_batch_notin. intros op Hop E.
  apply elem_of_commit_ops in Hop as [(k' & pn' & Hk' & ->)|Ho].
  - destruct (Hpend _ _ Hk') as (Ek' & Hw & Hv & _). apply (f_equal tail) in E.
    symmetry in E. by apply (Hk _ Hw Hv) in E.
  - by destruct Ho as [(? & ? & _ & ->)|[(? & _ & ->)|[->| ->]]].
Qed.

Lemma commit_value C vh v :
  is_u64 v ->
  apply_batch ops C !! valueRecordKey vh v =
  match (if decide (v = nv) then a_values acc !! vh else None) with
  | Some ct => Some ct
  | None => C !! valueRecordKey vh v
  end.
Proof.
  intros Hv.
  assert (∀ op, op ∈ ops -> bo_Key op = valueRecordKey vh v ->
    v = nv ∧ ∃ ct, a_values acc !! vh = Some ct ∧ op = bput (valueRecordKey vh v) ct) as Hop.
  { intros op Hop E. apply elem_of_commit_ops in Hop as [(? & ? & _ & ->)|[(vh' & ct & Hct & ->)|Ho]]; [done| |].
    - cbn in E. apply valueRecordKey_inj in E as [-> ->]; [|done..]. eauto.
    - by destruct Ho as [(? & _ & ->)|[->| ->]]. }
  case_decide as Hd; [destruct (a_values acc !! vh) as [ct|] eqn:Ev|].
  - subst v. apply apply_batch_in.
    + eexists. split; [apply elem_of_commit_ops; right; left; eauto|done].
    + intros op Hin E. destruct (Hop op Hin E) as (_ & ct' & Hct & ->). cbn. congruence.
  - apply apply_batch_notin. intros op Hin E. destruct (Hop op Hin E) as (_ & ct' & Hct & ->). congruence.
  - apply apply_batch_notin. intros op Hin E. by destruct (Hop op Hin E) as (-> & _).
Qed.

Lemma commit_root C v :
  is_u64 v ->
  apply_batch ops C !! rootRecordKey v = if decide (v = nv) then Some (b32 root) else C !! rootRecordKey v.
Proof.
  intros Hv.
  assert (∀ op, op ∈ ops -> bo_Key op = rootRecordKey v -> v = nv ∧ op = bput (rootRecordKey v) (b32 root)) as Hop.
  { intros op Hop E. apply elem_of_commit_ops in Hop as [(? & ? & _ & ->)|[(? & ? & _ & ->)|[(? & _ & ->)|[->| ->]]]];
      try done. cbn in E. apply rootRecordKey_inj in E as ->; done. }
  case_decide as Hd.
  - subst v. apply apply_batch_in.
    + eexists. split; [apply elem_of_commit_ops; do 3 right; by left|done].
    + intros op Hin E. by destruct (Hop op Hin E) as (_ & ->).
  - apply apply_batch_notin. intros op Hin E. by destruct (Hop op Hin E) as (-> & _).
Qed.

Lemma commit_stale C w x :
  is_u64 w ->
  apply_batch ops C !! staleRecordKey w x =
  if decide (w = nv ∧ x ∈ a_stale acc) then Some [] else C !! staleRecordKey w x.
Proof.
  intros Hw.
  assert (∀ op, op ∈ ops -> bo_Key op = staleRecordKey w x ->
    (w = nv ∧ x ∈ a_stale acc) ∧ op = bput (staleRecordKey w x) []) as Hop.
  { intros op Hop E. apply elem_of_commit_ops in Hop as [(? & ? & _ & ->)|[(? & ? & _ & ->)|[(y & Hy & ->)|[->| ->]]]];
      try done. cbn in E. apply staleRecordKey_inj in E as [-> ->]; done. }
  case_decide as Hd.
  - destruct Hd as [-> Hx]. apply apply_batch_in.
    + eexists. split; [apply elem_of_commit_ops; do 2 right; left; eauto|done].
    + intros op Hin E. by destruct (Hop op Hin E) as (_ & ->).
  - apply apply_batch_notin. intros op Hin E. by destruct (Hop op Hin E) as (? & _).
Qed.

Lemma commit_stale_only C k :
  is_Some (apply_batch ops C !! (recStale :: k)) ->
  is_Some (C !! (recStale :: k)) ∨ ∃ x, x ∈ a_stale acc ∧ recStale :: k = staleRecordKey nv x.
Proof.
  destruct (decide (Exists (λ op, bo_Key op = recStale :: k) ops)) as [Hx|Hn].
  - apply Exists_exists in Hx as (op & Hop & Ek). intros _. right.
    apply elem_of_commit_ops in Hop as [(? & ? & _ & ->)|[(? & ? & _ & ->)|[(y & Hy & ->)|[->| ->]]]];
      try done. exists y. split; [done|]. by rewrite <-Ek.
  - rewrite apply_batch_notin; [by left|]. intros op Hop Ek. apply Hn, Exists_exists. eauto.
Qed.

Lemma commit_checkpoint C : apply_batch ops C !! checkpointRecordKey = Some ckpt.
Proof.
  apply apply_batch_in.
  - eexists. split; [apply elem_of_commit_ops; do 4 right; done|done].
  - intros op Hin E. by apply elem_of_commit_ops in Hin as
      [(? & ? & _ & ->)|[(? & ? & _ & ->)|[(y & Hy & ->)|[->| ->]]]].
Qed.
End commit_ops.
