(* ===== verification/StoreCommit.v ===== *)
(** Committing a batch: [computeBatch], [PreviewBatch], [PutBatch]
    ([ledger/store.go]).

    The refinement theorem of the store: on a store that represents the state
    [st], a batch either changes nothing, or moves the store to the next version
    representing the updated state, keeps every older version readable, and
    writes stale marks for exactly the records the new version does not use. *)

From S2P Require Import Prelude Errors Sha256 Hashing Node Smt Aead Backend Cache Store Tree StoreRead Update StoreWrite Records.

(** * The abstract effect of a batch *)

(** The state after the updates [m] (path to new value, or deletion). *)
Definition upd_state (m : gmap Hash (option bytes)) (st : gmap Hash bytes) : gmap Hash bytes :=
  merge (λ o x, match o with Some r => r | None => x end) m st.

Lemma lookup_upd_state m st p :
  upd_state m st !! p = match m !! p with Some r => r | None => st !! p end.
Proof. unfold upd_state. rewrite lookup_merge. by destruct (m !! p) as [[]|], (st !! p). Qed.

Definition reserved (op : Op) : Prop := reservedKeyPrefix `prefix_of` op_Key op.
#[export] Instance reserved_dec op : Decision (reserved op).
Proof. unfold reserved. apply _. Defined.

Section commit.
Context `{H : Hasher} `{G : GCM} `{E : Entropy} `{MR : MapRange}.
Context {B : Type} `{BK : Backend B} `{!BackendSpec B} `{!BackendReliable B}.
Context `{!GCMSpec} `{!EntropyLive}.
Implicit Types s : Store B.

(** The updates of a batch, the last operation on a path winning. *)
Definition batch_map (ck : bytes) (ops : list Op) : gmap Hash (option bytes) :=
  foldl (λ m op, <[pathOf ck (op_Key op) := if op_Delete op then None else Some (op_Value op)]> m) ∅ ops.

(** The value commitments of a state. *)
Definition commitments (ck : bytes) (st : gmap Hash bytes) : gmap Hash Hash :=
  map_imap (λ p v, Some (vhOf ck p v)) st.

Lemma lookup_commitments ck st p : commitments ck st !! p = vhOf ck p <$> st !! p.
Proof. unfold commitments. rewrite map_lookup_imap. by destruct (st !! p). Qed.

(** ** Deduplication *)

Lemma dedupe_from ck ops m s :
  s_ck s = ck -> Forall (λ op, ¬ reserved op) ops ->
  foldM (λ m op,
      if decide (reservedKeyPrefix `prefix_of` op_Key op) then
        fail (errInvalid "key %q uses the reserved system prefix")
      else
        mret (<[pathOf ck (op_Key op) := if op_Delete op then None else Some (op_Value op)]> m))
    m ops s
  = (Ok (foldl (λ (m : gmap Hash (option bytes)) op,
                  <[pathOf ck (op_Key op) := if op_Delete op then None else Some (op_Value op)]> m) m ops), s).
Proof.
  intros Eck Hr. revert m. induction Hr as [|op ops Hop Hr IH]; intros m; [done|]. cbn [foldM foldl].
  rewrite decide_False by done. rewrite bind_ret. apply IH.
Qed.

Lemma dedupe_ok ops s :
  Forall (λ op, ¬ reserved op) ops -> dedupe ops s = (Ok (batch_map (s_ck s) ops), s).
Proof. intros Hr. unfold dedupe. rewrite bind_gets. by apply dedupe_from. Qed.

Lemma dedupe_reserved ops s :
  Exists reserved ops ->
  dedupe ops s = (Err (errInvalid "key %q uses the reserved system prefix"), s).
Proof.
  intros Hr. unfold dedupe. rewrite bind_gets. generalize (∅ : gmap Hash (option bytes)).
  induction ops as [|op ops IH]; intros m; [by apply Exists_nil in Hr|]. cbn [foldM].
  destruct (decide (reservedKeyPrefix `prefix_of` op_Key op)) as [Hp|Hp]; [done|].
  rewrite bind_ret. apply IH. by apply Exists_cons in Hr as [?|?].
Qed.

(** ** Sealing *)

Lemma set_rng_reads r s : reads s (set_rng r s).
Proof. split_and!; [done|by destruct s|done]. Qed.

Lemma sealValue_ok path v s :
  ∃ ct s', sealValue path v s = (Ok ct, s') ∧ reads s s' ∧ value_form (s_cipher s) path ct v.
Proof.
  unfold sealValue. rewrite bind_gets. unfold value_form. destruct (s_cipher s) as [key|].
  - unfold encrypt. destruct (aead_encrypt key (s_rng s) v (valueAAD path)) as [ct|e|w] eqn:Ee.
    + eexists ct, _. split_and!; [done|apply set_rng_reads|]. by apply aead_decrypt_encrypt in Ee.
    + unfold aead_encrypt in Ee. destruct (rand_live (s_rng s)) as [r Er]. by rewrite Er in Ee.
    + unfold aead_encrypt in Ee. destruct (rand_live (s_rng s)) as [r Er]. by rewrite Er in Ee.
  - exists v, s. split_and!; [done|apply reads_refl|done].
Qed.

Definition updates_of (ck : bytes) (l : list (Hash * option bytes)) : list update :=
  (λ '(p, o), Update p (vhOf ck p <$> o)) <$> l.

(** The sealed values of a batch. *)
Definition cts_of (cipher : option bytes32) (l : list (Hash * option bytes)) (cts : gmap Hash bytes) : Prop :=
  (∀ p ct, cts !! p = Some ct -> ∃ v, (p, Some v) ∈ l ∧ value_form cipher p ct v) ∧
  (∀ p v, (p, Some v) ∈ l -> is_Some (cts !! p)).

Lemma seal_updates_ok acc l s :
  NoDup l.*1 -> a_insertCTs acc = ∅ ->
  ∃ cts s', seal_updates acc l s = (Ok (updates_of (s_ck s) l, acc_insertCTs cts acc), s') ∧
    reads s s' ∧ cts_of (s_cipher s) l cts.
Proof.
  intros Hnd Ect. unfold seal_updates. rewrite bind_gets.
  assert (∀ l2 l1 cts s1, reads s s1 -> NoDup (l1 ++ l2).*1 -> cts_of (s_cipher s) l1 cts ->
    ∃ cts' s', foldM (λ '(us, acc) '(path, value),
      match value with
      | None => mret (us ++ [Update path None], acc)
      | Some v =>
          ct ← sealValue path v;
          mret (us ++ [Update path (Some (vhOf (s_ck s) path v))],
                acc_insertCTs (<[path := ct]> (a_insertCTs acc)) acc)
      end) (updates_of (s_ck s) l1, acc_insertCTs cts acc) l2 s1
    = (Ok (updates_of (s_ck s) (l1 ++ l2), acc_insertCTs cts' acc), s') ∧ reads s s' ∧
    cts_of (s_cipher s) (l1 ++ l2) cts') as Hgen.
  { induction l2 as [|[p o] l2 IH]; intros l1 cts s1 R1 Hnd' [Hc1 Hc2].
    { exists cts, s1. rewrite app_nil_r. done. }
    assert (∀ o', updates_of (s_ck s) l1 ++ [Update p (vhOf (s_ck s) p <$> o')] = updates_of (s_ck s) (l1 ++ [(p, o')])) as Eu
      by (intros; unfold updates_of; by rewrite fmap_app).
    replace (l1 ++ (p, o) :: l2) with ((l1 ++ [(p, o)]) ++ l2) in * by by rewrite <-app_assoc.
    assert (∀ x, (p, x) ∉ l1) as Hp.
    { intros x Hx. rewrite !fmap_app in Hnd'. apply NoDup_app in Hnd' as (Hnd' & _ & _).
      apply NoDup_app in Hnd' as (_ & Hd & _). apply (Hd p); [by eapply elem_of_fst|cbn; left]. }
    cbn [foldM]. destruct o as [v|].
    - destruct (sealValue_ok p v s1) as (ct & s2 & E2 & R2 & Hf).
      unfold mbind at 1, M_bind at 1. rewrite (bind_ok _ _ _ _ _ E2). cbn [mret M_ret].
      specialize (Eu (Some v)). cbn in Eu. rewrite Eu.
      apply (IH _ (<[p := ct]> cts) s2); [by eapply reads_trans|done|]. split.
      + intros q ct'. rewrite lookup_insert. case_decide as Hq.
        * subst q. intros [= <-]. exists v. split; [apply elem_of_app; right; left|].
          destruct (reads_fields _ _ R1) as (_ & Eci & _). by rewrite <-Eci.
        * intros Hct. destruct (Hc1 _ _ Hct) as (v' & Hin & ?). exists v'.
          split; [apply elem_of_app; by left|done].
      + intros q v' [Hin|[= -> ->]%list_elem_of_singleton]%elem_of_app; [|by rewrite lookup_insert_eq].
        rewrite lookup_insert_ne by (intros ->; by apply Hp in Hin). by eapply Hc2.
    - rewrite bind_ret. specialize (Eu None). cbn in Eu. rewrite Eu. apply IH; [done..|]. split.
      + intros q ct' Hct. destruct (Hc1 _ _ Hct) as (v' & Hin & ?). exists v'.
        split; [apply elem_of_app; by left|done].
      + intros q v' [Hin|?%list_elem_of_singleton]%elem_of_app; [by eapply Hc2|done]. }
  destruct (Hgen l [] ∅ s (reads_refl s) Hnd) as (cts & s' & E1 & R1 & Hc).
  { split; [by intros p ct ?%lookup_empty_Some|by intros p v ?%not_elem_of_nil]. }
  exists cts, s'. split_and!; [|done..].
  replace acc with (acc_insertCTs ∅ acc) at 1; [exact E1|]. destruct acc; cbn in *. by subst.
Qed.

(** ** Commitments without collisions *)

(** No two different (path, value) pairs of the list share a commitment. *)
Definition commits_apart (ck : bytes) (kvs : list (Hash * bytes)) : Prop :=
  ∀ p v p' v', (p, v) ∈ kvs -> (p', v') ∈ kvs -> vhOf ck p v = vhOf ck p' v' -> p = p' ∧ v = v'.

(** The path a commitment belongs to. *)
Definition owner_of (ck : bytes) (kvs : list (Hash * bytes)) (vh : Hash) : option Hash :=
  (λ ix, ix.2.1) <$> list_find (λ kv, vhOf ck kv.1 kv.2 = vh) kvs.

Lemma owner_of_spec ck kvs p v :
  commits_apart ck kvs -> (p, v) ∈ kvs -> owner_of ck kvs (vhOf ck p v) = Some p.
Proof.
  intros Hc Hin. unfold owner_of.
  destruct (list_find _ kvs) as [[i [p' v']]|] eqn:Ef.
  - apply list_find_Some in Ef as (Hi & Hv & _). cbn in *.
    apply list_elem_of_lookup_2 in Hi. by destruct (Hc _ _ _ _ Hi Hin Hv) as [-> _].
  - apply list_find_None in Ef. rewrite Forall_forall in Ef. by destruct (Ef _ Hin).
Qed.

(** The values a batch inserts. *)
Definition batch_values (m : gmap Hash (option bytes)) : list (Hash * bytes) :=
  omap (λ '(p, o), (λ v, (p, v)) <$> o) (map_to_list m).

Lemma elem_of_batch_values m p v : (p, v) ∈ batch_values m ↔ m !! p = Some (Some v).
Proof.
  unfold batch_values. rewrite list_elem_of_omap. split.
  - intros ([p' [v'|]] & Hin & Ev); [|done]. injection Ev as -> ->. by apply elem_of_map_to_list in Hin.
  - intros Hm. exists (p, Some v). split; [by apply elem_of_map_to_list|done].
Qed.

(** ** Leaves and states *)

Definition leaves_state (ck : bytes) (ls : list leafNode) (st : gmap Hash bytes) : Prop :=
  (∀ l, l ∈ ls -> ∃ v, st !! l_path l = Some v ∧ l_vh l = vhOf ck (l_path l) v) ∧
  (∀ p v, st !! p = Some v -> ∃ l, l ∈ ls ∧ l_path l = p ∧ l_vh l = vhOf ck p v).

Lemma elem_of_updates ck m p o :
  Update p o ∈ updates_of ck (range_map m) ↔ ∃ x, m !! p = Some x ∧ o = vhOf ck p <$> x.
Proof.
  unfold updates_of. rewrite list_elem_of_fmap. split.
  - intros ([p' x] & [= -> ->] & Hin%elem_of_range). eauto.
  - intros (x & Hx & ->). exists (p, x). split; [done|]. by apply elem_of_range.
Qed.

Lemma upd_leaves_state ck nv m ls ls' st :
  leaves_state ck ls st -> upd_spec nv (updates_of ck (range_map m)) ls ls' ->
  leaves_state ck ls' (upd_state m st).
Proof.
  intros [Hl Hd] Hu. split.
  - intros l [[Hin Hno]|[Hup _]]%Hu; rewrite lookup_upd_state.
    + destruct (m !! l_path l) as [o|] eqn:Em; [|by apply Hl]. exfalso.
      apply (Hno (Update (l_path l) (vhOf ck (l_path l) <$> o))); [|done].
      apply elem_of_updates. eauto.
    + apply elem_of_updates in Hup as ([v|] & -> & Ev); [|done]. injection Ev as ->. eauto.
  - intros p v. rewrite lookup_upd_state. destruct (m !! p) as [o|] eqn:Em.
    + intros ->.
      assert (Update p (Some (vhOf ck p v)) ∈ updates_of ck (range_map m)) as Hup
        by (apply elem_of_updates; exists (Some v); done).
      destruct (list_find (λ l, l_path l = p ∧ l_vh l = vhOf ck p v) ls) as [[i l]|] eqn:Ef.
      * apply list_find_Some in Ef as (Hi & [Hp Hv] & _). exists l. split_and!; [|done..].
        apply Hu. right. rewrite Hp, Hv. split; [done|]. left. by eapply list_elem_of_lookup_2.
      * apply list_find_None in Ef. rewrite Forall_forall in Ef.
        exists (LeafNode p (vhOf ck p v) nv). split_and!; [|done..]. apply Hu. right. cbn.
        split; [done|]. right. split; [done|]. intros l0 Hl0 Hp Hv. by apply (Ef l0).
    + intros Hst. destruct (Hd p v Hst) as (l & Hin & Hp & Hv). exists l. split_and!; [|done..].
      apply Hu. left. split; [done|]. intros [p' o'] Hup. apply elem_of_updates in Hup as (x & Hx & _).
      cbn. intros ->. congruence.
Qed.

(** Unchanged state, unchanged leaves. *)
Lemma upd_leaves_same ck nv m ls ls' st :
  leaves_state ck ls st -> upd_spec nv (updates_of ck (range_map m)) ls ls' ->
  NoDup (l_path <$> ls) -> upd_state m st = st -> ∀ l, l ∈ ls' ↔ l ∈ ls.
Proof.
  intros [Hl Hd] Hu Hnd Est l. rewrite (Hu l). split.
  - intros [[? _]|[Hup [?|[_ Hne]]]]; [done..|]. exfalso.
    apply elem_of_updates in Hup as ([v|] & Hm & Ev); [|done]. injection Ev as Ev.
    assert (st !! l_path l = Some v) as Hv by (rewrite <-Est, lookup_upd_state, Hm; done).
    destruct (Hd _ _ Hv) as (l0 & Hl0 & Hp0 & Hv0). apply (Hne l0); congruence.
  - intros Hin. destruct (m !! l_path l) as [o|] eqn:Em.
    + destruct (Hl l Hin) as (v & Hv & Hvh).
      assert (o = Some v) as -> by (rewrite <-Est, lookup_upd_state, Em in Hv; done).
      right. split; [|by left]. rewrite Hvh. apply elem_of_updates. by exists (Some v).
    + left. split; [done|]. intros [p' o'] Hup. apply elem_of_updates in Hup as (x & Hx & _).
      cbn. intros ->. congruence.
Qed.

(** Under distinct commitments the leaves determine the state. *)
Lemma leaves_state_unique ck kvs ls st st' :
  commits_apart ck kvs -> (∀ p v, st !! p = Some v -> (p, v) ∈ kvs) ->
  (∀ p v, st' !! p = Some v -> (p, v) ∈ kvs) ->
  leaves_state ck ls st -> leaves_state ck ls st' -> st = st'.
Proof.
  intros Hc Hk Hk' [Hl Hd] [Hl' Hd'].
  assert (∀ p v, st !! p = Some v -> st' !! p = Some v) as Hsub.
  { intros p v Hp. destruct (Hd p v Hp) as (l & Hin & Hlp & Hv).
    destruct (Hl' l Hin) as (v' & Hp' & Hv'). subst p.
    rewrite Hv in Hv'. by destruct (Hc _ _ _ _ (Hk _ _ Hp) (Hk' _ _ Hp') Hv') as [_ ->]. }
  apply map_eq. intros p. apply option_eq. intros v. split; [apply Hsub|].
  intros Hp. destruct (Hd' p v Hp) as (l & Hin & Hlp & Hv).
  destruct (Hl l Hin) as (v' & Hp' & Hv'). subst p. pose proof (Hsub _ _ Hp') as Hp2.
  by rewrite Hp in Hp2; injection Hp2 as ->.
Qed.

Lemma view_leaves_state C ck cipher v ot st :
  view C ck cipher v ot st -> leaves_state ck (oleaves ot) st.
Proof.
  intros V. split.
  - intros l Hl. destruct (v_leaf _ _ _ _ _ _ V l Hl) as (pt & ? & ? & _). eauto.
  - intros p pt Hp. destruct (v_dom _ _ _ _ _ _ V p) as (l & Hl & <-); [by eexists|].
    exists l. split_and!; [done..|]. destruct (v_leaf _ _ _ _ _ _ V l Hl) as (pt' & Hp' & Hv & _). congruence.
Qed.

(** ** The root is the specification root of the state *)

Lemma leaves_commitments ck ot st :
  otwf [] ot -> leaves_state ck (oleaves ot) st ->
  kv <$> oleaves ot ≡ₚ map_to_list (commitments ck st).
Proof.
  intros Hw [Hl Hd]. apply NoDup_Permutation.
  - apply (NoDup_fmap_1 fst). rewrite fmap_kv_fst. destruct ot; [by eapply twf_NoDup|constructor].
  - apply NoDup_map_to_list.
  - intros [p vh]. rewrite list_elem_of_fmap, elem_of_map_to_list, lookup_commitments. split.
    + intros (l & [= -> ->] & Hin). destruct (Hl l Hin) as (v & -> & ->). done.
    + destruct (st !! p) as [v|] eqn:Ev; [|done]. cbn. intros [= <-].
      destruct (Hd p v Ev) as (l & Hin & Hlp & Hv). exists l. unfold kv. rewrite Hlp, Hv. done.
Qed.

Lemma leaves_root ck ot st :
  otwf [] ot -> leaves_state ck (oleaves ot) st -> root_of (ochild ot) = spec_root (commitments ck st).
Proof.
  intros Hw Hls. unfold spec_root. pose proof (leaves_commitments ck ot st Hw Hls) as Hp.
  rewrite <-(smt_perm _ _ _ _ Hp). destruct ot as [t|]; cbn [ochild root_of oleaves].
  - cbn in Hw. exact (t_hash_smt [] t Hw).
  - cbn. by rewrite smt_nil.
Qed.

(** ** Computing a batch *)

Definition history_path (ck : bytes) : Hash := pathOf ck HistoryKey.

(** The head this commit appends when the chain is on. *)
Definition next_head s : Hash := HistoryLink (s_historyHead s) (s_root s) (s_version s + 1).

(** What a computed batch holds: the tree [otf] with the state [stf], resolved
    by the accumulator, the retired records, and the sealed values. *)
Record computed s (ot otf : option tree) (st stf : gmap Hash bytes) (acc : commitAcc) : Prop := {
  cp_ctx : ∃ cts owner,
    acc_ok owner (s_version s + 1) cts acc ∧
    inv (contents (s_backend s)) owner (s_version s + 1) cts acc [] otf ∧
    (∀ l, l ∈ oleaves ot -> owner (l_vh l) = Some (l_path l)) ∧
    ∀ p ct, cts !! p = Some ct -> ∃ v, stf !! p = Some v ∧ value_form (s_cipher s) p ct v;
  cp_stale : ∀ x, x ∈ a_stale acc ↔ retired (s_version s + 1) [] ot otf x;
  cp_keep : kept (s_version s + 1) ot otf;
  cp_top : ∀ t, otf = Some t -> t_version t = (s_version s + 1)%N;
  cp_state : leaves_state (s_ck s) (oleaves otf) stf;
  cp_old : ∀ l, l ∈ oleaves otf -> l_valueVersion l = (s_version s + 1)%N ∨ l ∈ oleaves ot;
  cp_same : ∀ l, l ∈ oleaves otf -> l ∈ oleaves ot -> stf !! l_path l = st !! l_path l
}.

Section compute.
Variables (s : Store B) (ot : option tree) (st : gmap Hash bytes).
Hypothesis Hr : repr s ot st.
Hypothesis Hmax : is_u64 (s_version s + 1).
Variables (kvs : list (Hash * bytes)).
Hypothesis Hap : commits_apart (s_ck s) kvs.
Hypothesis Hst : ∀ p v, st !! p = Some v -> (p, v) ∈ kvs.

Let nv := (s_version s + 1)%N.
Let C := contents (s_backend s).
Let owner := owner_of (s_ck s) kvs.

Let Hview : view C (s_ck s) (s_cipher s) (s_version s) ot st := r_view _ _ _ Hr.

Lemma old_tree_only : old_only nv ot.
Proof. intros q t Ht. pose proof (v_le _ _ _ _ _ _ Hview q t Ht). unfold nv. lia. Qed.

(** A fresh accumulator resolves the current tree from storage. *)
Lemma fresh_acc cts :
  acc_ok owner nv cts (acc_insertCTs cts (newAcc nv)) ∧
  inv C owner nv cts (acc_insertCTs cts (newAcc nv)) [] ot.
Proof.
  split; [split; [done..| |]; intros k x Hx; cbn in Hx; by rewrite lookup_empty in Hx|].
  pose proof Hview as [Hvr Hvw Hvv Hvle Hvvle Hvs Hvl Hvd]. split; [done|..].
  - intros q t Ht. unfold resolved. rewrite decide_False by (by eapply old_tree_only). by apply Hvs.
  - intros l Hl. destruct (Hvl l Hl) as (pt & Hp & Hv & _). pose proof (Hvvle l Hl) as Hle. split_and!.
    + rewrite Hv. apply owner_of_spec; [done|]. by apply Hst.
    + unfold nv. lia.
    + pose proof (r_u64 _ _ _ Hr). unfold is_u64 in *. lia.
  - intros l Hl Hv. pose proof (Hvvle l Hl) as Hle. unfold nv in Hv. lia.
  - intros q _ Hs. cbn in Hs. rewrite lookup_empty in Hs. by destruct Hs.
  - intros vh p _ _ Hs. cbn in Hs. rewrite lookup_empty in Hs. by destruct Hs.
Qed.

Lemma old_owner l : l ∈ oleaves ot -> owner (l_vh l) = Some (l_path l).
Proof. intros Hl. destruct (fresh_acc ∅) as [_ Hi]. by destruct (i_leaf _ _ _ _ _ _ _ Hi l Hl). Qed.

Lemma batch_updates_ok m cts :
  (∀ p v, m !! p = Some (Some v) -> (p, v) ∈ kvs) -> cts_of (s_cipher s) (range_map m) cts ->
  updates_ok owner cts [] (sortUpdates (updates_of (s_ck s) (range_map m))).
Proof.
  intros Hm [_ Hc]. split_and!.
  - apply sortUpdates_sorted. unfold updates_of. rewrite <-list_fmap_compose.
    assert (u_path ∘ (λ '(p, o), Update p (vhOf (s_ck s) p <$> o)) <$> range_map m = (range_map m).*1) as ->;
      [|apply NoDup_range_fst]. apply list_fmap_ext. by intros i [p o].
  - apply Forall_forall. intros u _. apply under_nil.
  - intros [p o] vh. rewrite sortUpdates_perm. intros ([v|] & Hx & ->)%elem_of_updates Ev; [|done].
    cbn in *. injection Ev as <-. split.
    + apply owner_of_spec; [done|]. by apply Hm.
    + apply (Hc p v). by apply elem_of_range.
Qed.

(** The first pass: the updates of the batch. *)
Lemma first_pass m cts s1 :
  reads s s1 -> (∀ p v, m !! p = Some (Some v) -> (p, v) ∈ kvs) ->
  cts_of (s_cipher s) (range_map m) cts ->
  ∃ ot' acc' s', applySubtree nibbles (acc_insertCTs cts (newAcc nv)) (ochild ot) []
      (sortUpdates (updates_of (s_ck s) (range_map m))) s1 = (Ok (ochild ot', acc'), s') ∧ reads s s' ∧
    applied C owner nv cts (acc_insertCTs cts (newAcc nv)) acc' []
      (sortUpdates (updates_of (s_ck s) (range_map m))) ot ot' ∧
    leaves_state (s_ck s) (oleaves ot') (upd_state m st) ∧
    (ochild ot' = ochild ot ↔ upd_state m st = st).
Proof.
  intros R Hm Hc. destruct (fresh_acc cts) as [Ha Hi].
  destruct (applySubtree_ok C owner nv cts Hmax nibbles [] (sortUpdates (updates_of (s_ck s) (range_map m)))
    ltac:(done) (acc_insertCTs cts (newAcc nv)) ot s1) as (ot' & acc' & s' & E1 & R1 & Happ).
  { eapply reads_ok; [done|apply Hr]. }
  { by rewrite (reads_contents _ _ R). }
  { done. } { done. }
  { by apply batch_updates_ok. }
  assert (upd_spec nv (updates_of (s_ck s) (range_map m)) (oleaves ot) (oleaves ot')) as Hsp.
  { eapply upd_spec_perm; [apply sortUpdates_perm|]. apply Happ. }
  pose proof (view_leaves_state _ _ _ _ _ _ Hview) as Hls.
  pose proof (upd_leaves_state _ _ _ _ _ _ Hls Hsp) as Hls'.
  exists ot', acc', s'. split_and!; [done|by eapply reads_trans|done|done|]. split.
  - intros Eo. pose proof (p_same _ _ _ _ _ _ _ _ _ _ Happ old_tree_only Eo) as ->.
    apply (leaves_state_unique (s_ck s) kvs (oleaves ot)); try done.
    intros p v. rewrite lookup_upd_state. destruct (m !! p) as [o|] eqn:Em; [|by apply Hst].
    intros ->. by apply Hm.
  - intros Est. f_equal. apply (p_noop _ _ _ _ _ _ _ _ _ _ Happ).
    eapply upd_leaves_same; [exact Hls|exact Hsp| |done].
    destruct ot; [eapply twf_NoDup, (v_twf _ _ _ _ _ _ Hview)|constructor].
Qed.

Abbreviation acc0 cts := (acc_insertCTs cts (newAcc nv)).
Abbreviation upds m := (sortUpdates (updates_of (s_ck s) (range_map m))).

Lemma applied_old m cts acc' ot' l :
  applied C owner nv cts (acc0 cts) acc' [] (upds m) ot ot' -> l ∈ oleaves ot' ->
  (l_valueVersion l = nv ∧ is_Some (m !! l_path l)) ∨ l ∈ oleaves ot.
Proof.
  intros Happ Hl. apply (p_spec _ _ _ _ _ _ _ _ _ _ Happ) in Hl as [[? _]|[Hu [?|[Hv _]]]]; [by right..|].
  left. split; [done|]. rewrite sortUpdates_perm in Hu. apply elem_of_updates in Hu as (x & -> & _). done.
Qed.

Lemma first_changed_top m cts acc' ot' t :
  applied C owner nv cts (acc0 cts) acc' [] (upds m) ot ot' -> ochild ot' ≠ ochild ot ->
  ot' = Some t -> t_version t = nv.
Proof. intros Happ Hne Et. by destruct (p_top _ _ _ _ _ _ _ _ _ _ Happ t Et). Qed.

Lemma cts_upd_state m cts p ct :
  cts_of (s_cipher s) (range_map m) cts -> cts !! p = Some ct ->
  ∃ v, upd_state m st !! p = Some v ∧ value_form (s_cipher s) p ct v.
Proof.
  intros [Hc _] Hp. destruct (Hc p ct Hp) as (v & Hin%elem_of_range & Hf).
  exists v. rewrite lookup_upd_state, Hin. done.
Qed.

(** A leaf of both states has the same value in both. *)
Lemma same_value ls stf l :
  leaves_state (s_ck s) ls stf -> (∀ p v, stf !! p = Some v -> (p, v) ∈ kvs) ->
  l ∈ ls -> l ∈ oleaves ot -> stf !! l_path l = st !! l_path l.
Proof.
  intros [Hl _] Hk Hin Hin'. destruct (Hl l Hin) as (v & Hv & Ev).
  destruct (view_leaves_state _ _ _ _ _ _ Hview) as [Hl0 _]. destruct (Hl0 l Hin') as (v0 & Hv0 & Ev0).
  rewrite Ev in Ev0. destruct (Hap _ _ _ _ (Hk _ _ Hv) (Hst _ _ Hv0) Ev0) as [_ ->]. congruence.
Qed.

Lemma upd_state_kvs m p v :
  (∀ p v, m !! p = Some (Some v) -> (p, v) ∈ kvs) -> upd_state m st !! p = Some v -> (p, v) ∈ kvs.
Proof.
  intros Hm. rewrite lookup_upd_state. destruct (m !! p) as [o|] eqn:Em; [|by apply Hst].
  intros ->. by apply Hm.
Qed.

Lemma first_computed m cts acc' ot' :
  (∀ p v, m !! p = Some (Some v) -> (p, v) ∈ kvs) -> cts_of (s_cipher s) (range_map m) cts ->
  applied C owner nv cts (acc0 cts) acc' [] (upds m) ot ot' -> ochild ot' ≠ ochild ot ->
  leaves_state (s_ck s) (oleaves ot') (upd_state m st) ->
  computed s ot ot' st (upd_state m st) acc' ∧ a_newHead acc' = None.
Proof.
  intros Hm Hc Happ Hne Hls. split; [split|].
  - exists cts, owner. split_and!; [apply Happ..|apply old_owner|]. intros p ct. by apply cts_upd_state.
  - destruct (p_stale _ _ _ _ _ _ _ _ _ _ Happ) as (ext & -> & Hx). exact Hx.
  - apply Happ.
  - intros t. by eapply first_changed_top.
  - done.
  - intros l Hl. destruct (applied_old _ _ _ _ _ Happ Hl) as [[? _]|?]; auto.
  - intros l. apply same_value; [done|]. intros p v. by apply upd_state_kvs.
  - by rewrite (f_head _ _ _ _ (p_frame _ _ _ _ _ _ _ _ _ _ Happ)).
Qed.

(** The second pass writes the head leaf of the history chain. *)
Let hp := history_path (s_ck s).
Let head := next_head s.

Lemma head_updates :
  [Update hp (Some (vhOf (s_ck s) hp (b32 head)))] =
  updates_of (s_ck s) (range_map ({[hp := Some (b32 head)]} : gmap Hash (option bytes))).
Proof.
  assert (range_map ({[hp := Some (b32 head)]} : gmap Hash (option bytes)) = [(hp, Some (b32 head))]) as ->; [|done].
  apply Permutation_singleton_r. rewrite range_perm. by rewrite map_to_list_singleton.
Qed.

Lemma retired_val_head m o1 o2 x :
  m !! hp = None ->
  upd_spec nv (updates_of (s_ck s) (range_map m)) (oleaves ot) (oleaves o1) ->
  upd_spec nv [Update hp (Some (vhOf (s_ck s) hp (b32 head)))] (oleaves o1) (oleaves o2) ->
  retired_val nv ot o2 x ↔ retired_val nv ot o1 x ∨ retired_val nv o1 o2 x.
Proof.
  intros Hm Hu1 Hu2.
  assert (∀ l, l_path l = hp -> l ∈ oleaves o1 ↔ l ∈ oleaves ot) as Hhp.
  { intros l Hp. rewrite (Hu1 l). unfold upd_leaf. split.
    - intros [[? _]|[Hu _]]; [done|]. apply elem_of_updates in Hu as (y & Hy & _). congruence.
    - intros Hl. left. split; [done|]. intros [p' o'] (y & Hy & _)%elem_of_updates. cbn. intros ->. congruence. }
  assert (∀ l, l_path l ≠ hp -> l ∈ oleaves o2 ↔ l ∈ oleaves o1) as Hother.
  { intros l Hp. rewrite (Hu2 l). unfold upd_leaf. split.
    - intros [[? _]|[[= Hu _]%list_elem_of_singleton _]]; done.
    - intros Hl. left. split; [done|]. intros u ->%list_elem_of_singleton. cbn. congruence. }
  split.
  - intros (l & Hl & Hv & -> & Hn). destruct (decide (l_path l = hp)) as [Hp|Hp].
    + right. exists l. split_and!; try done. by apply Hhp.
    + left. exists l. split_and!; try done. intros l' Hl' Hp'. apply Hn; [|done].
      apply Hother; [congruence|done].
  - intros [(l & Hl & Hv & -> & Hn)|(l & Hl & Hv & -> & Hn)].
    + exists l. split_and!; try done. intros l' Hl' Hp'.
      destruct (decide (l_path l = hp)) as [Hp|Hp].
      * intros _. apply (Hn l); [by apply Hhp|done|done].
      * apply Hn; [|done]. apply Hother; [congruence|done].
    + exists l. split_and!; try done. destruct (decide (l_path l = hp)) as [Hp|Hp]; [by apply Hhp|].
      exfalso. apply (Hn l); [by apply Hother|done|done].
Qed.

(** Putting the head aside for the second pass. *)
Lemma head_acc_ok m cts acc1 ot1 ct :
  applied C owner nv cts (acc0 cts) acc1 [] (upds m) ot ot1 -> m !! hp = None ->
  let cts2 := <[hp := ct]> (a_insertCTs acc1) in
  let acc2 := acc_newHead head (acc_insertCTs cts2 acc1) in
  acc_ok owner nv cts2 acc2 ∧ inv C owner nv cts2 acc2 [] ot1.
Proof.
  intros Happ Hm cts2 acc2.
  pose proof (p_acc _ _ _ _ _ _ _ _ _ _ Happ) as Ha1. pose proof (p_inv _ _ _ _ _ _ _ _ _ _ Happ) as Hi1. split.
  - destruct Ha1 as [A1 A2 A3 A4]. split; [done..|]. intros vh c Hvc. destruct (A4 vh c Hvc) as (p & Ho & Hp).
    exists p. split; [done|]. unfold cts2. rewrite A2, lookup_insert_ne; [done|]. intros <-.
    destruct (i_vexact _ _ _ _ _ _ _ Hi1 vh hp Ho (under_nil _)) as (l & Hl & Hv & Hvv); [by eexists|].
    destruct (i_leaf _ _ _ _ _ _ _ Hi1 l Hl) as (Ho' & _). rewrite Hv, Ho in Ho'. injection Ho' as Ep.
    destruct (applied_old _ _ _ _ _ Happ Hl) as [[_ Hs]|Hl'].
    + rewrite <-Ep, Hm in Hs. by destruct Hs.
    + pose proof (v_vle _ _ _ _ _ _ Hview l Hl'). unfold nv in Hvv. lia.
  - destruct Hi1 as [I1 I2 I3 I4 I5 I6]. split; try done. intros l Hl. destruct (I3 l Hl) as (? & Hct & ?).
    split_and!; [done| |done]. intros Hv. unfold cts2. rewrite (ao_cts _ _ _ _ Ha1), lookup_insert.
    case_decide; [by eexists|]. by apply Hct.
Qed.

Lemma head_state m : upd_state {[hp := Some (b32 head)]} (upd_state m st) = <[hp := b32 head]> (upd_state m st).
Proof.
  apply map_eq. intros p. rewrite lookup_upd_state, lookup_insert.
  destruct (decide (hp = p)) as [<-|Hp]; [by rewrite lookup_singleton_eq|by rewrite lookup_singleton_ne].
Qed.

Lemma second_pass m cts acc1 ot1 s1 :
  reads s s1 -> (∀ p v, m !! p = Some (Some v) -> (p, v) ∈ kvs) ->
  (hp, b32 head) ∈ kvs -> m !! hp = None ->
  cts_of (s_cipher s) (range_map m) cts ->
  applied C owner nv cts (acc0 cts) acc1 [] (upds m) ot ot1 -> ochild ot1 ≠ ochild ot ->
  leaves_state (s_ck s) (oleaves ot1) (upd_state m st) ->
  ∃ ot2 acc2 s2, appendHistoryLink acc1 (ochild ot1) s1 = (Ok (ochild ot2, acc2), s2) ∧ reads s s2 ∧
    computed s ot ot2 st (<[hp := b32 head]> (upd_state m st)) acc2 ∧ a_newHead acc2 = Some head.
Proof.
  intros R1 Hmk Hkv Hm Hc Happ Hne Hls.
  destruct (reads_fields _ _ R1) as (Eck & Eci & _ & Ero & Eve & _ & _ & _ & _ & Ehh).
  pose proof (p_acc _ _ _ _ _ _ _ _ _ _ Happ) as Ha1.
  unfold appendHistoryLink. rewrite !bind_gets, Eck, Ero, Ehh, (ao_nv _ _ _ _ Ha1).
  change (HistoryLink (s_historyHead s) (s_root s) nv) with head. cbn zeta.
  change (pathOf (s_ck s) HistoryKey) with hp.
  destruct (sealValue_ok hp (b32 head) s1) as (ct & s2 & E2 & R2 & Hf). rewrite (bind_ok _ _ _ _ _ E2).
  set (cts2 := <[hp := ct]> (a_insertCTs acc1)).
  set (acc2 := acc_newHead head (acc_insertCTs cts2 acc1)).
  destruct (head_acc_ok m cts acc1 ot1 ct Happ Hm) as [Ha2 Hi2]. fold cts2 in Ha2, Hi2. fold acc2 in Ha2, Hi2.
  destruct (applySubtree_ok C owner nv cts2 Hmax nibbles [] [Update hp (Some (vhOf (s_ck s) hp (b32 head)))]
    ltac:(done) acc2 ot1 s2) as (ot2 & acc3 & s3 & E3 & R3 & Happ2).
  { apply (reads_ok s); [by eapply reads_trans|]. apply Hr. }
  { by rewrite (reads_contents _ _ R2), (reads_contents _ _ R1). }
  { done. } { done. }
  { split_and!.
    - repeat constructor.
    - apply Forall_singleton, under_nil.
    - intros u vh ->%list_elem_of_singleton [= <-]. cbn. split; [by apply owner_of_spec|].
      unfold cts2. by rewrite lookup_insert_eq. }
  assert (upd_spec nv (updates_of (s_ck s) (range_map m)) (oleaves ot) (oleaves ot1)) as Hsp1.
  { eapply upd_spec_perm; [apply sortUpdates_perm|]. apply Happ. }
  pose proof (p_spec _ _ _ _ _ _ _ _ _ _ Happ2) as Hsp2.
  assert (leaves_state (s_ck s) (oleaves ot2) (<[hp := b32 head]> (upd_state m st))) as Hls2.
  { rewrite <-head_state. eapply (upd_leaves_state _ _ _ _ _ _ Hls). rewrite <-head_updates. exact Hsp2. }
  exists ot2, acc3, s3. split; [exact E3|]. split; [by eauto using reads_trans|]. split; [split|].
  - exists cts2, owner. split_and!; [apply Happ2..|apply old_owner|]. intros p c. unfold cts2.
    rewrite (ao_cts _ _ _ _ Ha1), lookup_insert. case_decide as Hp.
    + intros [= <-]. subst p. exists (b32 head). rewrite lookup_insert_eq. split; [done|].
      by rewrite <-Eci.
    + rewrite lookup_insert_ne by done. by apply cts_upd_state.
  - destruct (p_stale _ _ _ _ _ _ _ _ _ _ Happ) as (e1 & Hs1 & Hx1).
    destruct (p_stale _ _ _ _ _ _ _ _ _ _ Happ2) as (e2 & Hs2 & Hx2).
    intros x. rewrite Hs2. change (a_stale acc2) with (a_stale acc1). rewrite Hs1. cbn [a_stale acc_insertCTs newAcc app].
    rewrite elem_of_app, Hx1, Hx2. unfold retired. fold nv.
    rewrite (retired_node_trans nv [] ot ot1 ot2) by apply Happ || apply Happ2.
    rewrite (retired_val_head m ot1 ot2) by done. tauto.
  - eapply kept_trans; [apply Happ|apply Happ2].
  - intros t Et. destruct (p_top _ _ _ _ _ _ _ _ _ _ Happ2 t Et) as [?|Eo]; [done|].
    subst ot2. destruct ot1 as [t1|]; [|done]. cbn in Eo. injection Eo as Ev _ _. rewrite Ev.
    by eapply first_changed_top.
  - done.
  - intros l Hl. apply Hsp2 in Hl as [[Hl _]|[_ [Hl|[? _]]]]; [|..|by left];
      destruct (applied_old _ _ _ _ _ Happ Hl) as [[? _]|?]; auto.
  - intros l. apply same_value; [done|]. intros p v. rewrite lookup_insert.
    case_decide as Hp; [subst p; by intros [= <-]|by apply upd_state_kvs].
  - by rewrite (f_head _ _ _ _ (p_frame _ _ _ _ _ _ _ _ _ _ Happ2)).
Qed.
End compute.

(** ** The whole batch *)

(** The (path, value) pairs a batch puts in play. *)
Definition batch_kvs s (st : gmap Hash bytes) (ops : list Op) : list (Hash * bytes) :=
  map_to_list st ++ batch_values (batch_map (s_ck s) ops) ++
  (if s_history s then [(history_path (s_ck s), b32 (next_head s))] else []).

(** What a batch needs: no reserved key, room for one more version, and no
    collision among the commitments in play (of values, and of the history key
    with a written key). *)
Record batch_pre s (st : gmap Hash bytes) (ops : list Op) : Prop := {
  bp_keys : Forall (λ op, ¬ reserved op) ops;
  bp_room : is_u64 (s_version s + 1);
  bp_apart : commits_apart (s_ck s) (batch_kvs s st ops);
  bp_head : batch_map (s_ck s) ops !! history_path (s_ck s) = None
}.

(** The state after the batch: the updates, and the head leaf of the chain. *)
(** The head a batch leaves in memory, if it appends one. *)
Definition batch_head s : option Hash := if s_history s then Some (next_head s) else None.

Definition batch_state s (st : gmap Hash bytes) (ops : list Op) : gmap Hash bytes :=
  let st' := upd_state (batch_map (s_ck s) ops) st in
  if s_history s then <[history_path (s_ck s) := b32 (next_head s)]> st' else st'.

Lemma computeBatch_ok s ot st ops :
  repr s ot st -> batch_pre s st ops ->
  (upd_state (batch_map (s_ck s) ops) st = st ∧
   ∃ s', computeBatch ops s = (Ok None, s') ∧ reads s s') ∨
  (upd_state (batch_map (s_ck s) ops) st ≠ st ∧
   ∃ otf acc s', computeBatch ops s = (Ok (Some (acc, ochild otf, root_of (ochild otf))), s') ∧
     reads s s' ∧ computed s ot otf st (batch_state s st ops) acc ∧ a_newHead acc = batch_head s).
Proof.
  intros Hr [Hk Hmax Hap Hhd]. set (m := batch_map (s_ck s) ops) in *.
  unfold computeBatch. rewrite bind_gets, (bind_ok _ _ _ _ _ (dedupe_ok ops s Hk)). fold m.
  rewrite (wrap64_small _ Hmax).
  case_decide as Hz.
  { left. apply map_size_empty_inv in Hz. split; [|exists s; split; [done|apply reads_refl]].
    apply map_eq. intros p. by rewrite lookup_upd_state, Hz, lookup_empty. }
  destruct (seal_updates_ok (newAcc (s_version s + 1)) (range_map m) s) as (cts & s1 & E1 & R1 & Hc).
  { apply NoDup_range_fst. } { done. }
  rewrite (bind_ok _ _ _ _ _ E1). rewrite bind_gets.
  destruct (reads_fields _ _ R1) as (Eck & _ & _ & _ & _ & Erc & _ & Ehi & _). rewrite Erc, (r_child _ _ _ Hr).
  assert (∀ p v, st !! p = Some v -> (p, v) ∈ batch_kvs s st ops) as Hst.
  { intros p v Hp. apply elem_of_app. left. by apply elem_of_map_to_list. }
  assert (∀ p v, m !! p = Some (Some v) -> (p, v) ∈ batch_kvs s st ops) as Hm.
  { intros p v Hp. apply elem_of_app. right. apply elem_of_app. left. by apply elem_of_batch_values. }
  destruct (first_pass s ot st Hr Hmax _ Hap Hst m cts s1 R1 Hm Hc) as (ot1 & acc1 & s2 & E2 & R2 & Happ & Hls & Hiff).
  rewrite (bind_ok _ _ _ _ _ E2).
  destruct (childEq (ochild ot1) (ochild ot)) eqn:Ec.
  { left. apply childEq_eq in Ec. split; [by apply Hiff|]. exists s2. done. }
  right. assert (ochild ot1 ≠ ochild ot) as Hne by (intros E0%childEq_eq; congruence).
  split; [by intros ?%Hiff|]. rewrite bind_gets.
  destruct (reads_fields _ _ R2) as (_ & _ & _ & _ & _ & _ & _ & Ehi2 & _). rewrite Ehi2.
  unfold batch_state, batch_head. fold m. destruct (s_history s) eqn:Eh.
  - destruct (second_pass s ot st Hr Hmax _ Hap Hst m cts acc1 ot1 s2 R2) as (ot2 & acc2 & s3 & E3 & R3 & Hcp & Hnh); try done.
    { unfold batch_kvs. rewrite Eh. apply elem_of_app. right. apply elem_of_app. right. left. }
    rewrite (bind_ok _ _ _ _ _ E3). exists ot2, acc2, s3. split_and!; done.
  - rewrite bind_ret. exists ot1, acc1, s2.
    destruct (first_computed s ot st Hr Hmax _ Hap Hst m cts acc1 ot1 Hm Hc Happ Hne Hls) as [Hcp Hnh]. done.
Qed.

(** ** The checkpoint *)

Definition ckpt_flag (history : bool) : N := if history then ckptFlagHistory else 0%N.

(** [rec] opens to the given checkpoint under the keys of [s]. *)
Definition ckpt_form s (rec : bytes) (root : Hash) (version flags : N) : Prop :=
  ∀ s2 : Store B, s_cipher s2 = s_cipher s -> s_ckptMAC s2 = s_ckptMAC s ->
    openCheckpoint rec s2 = (Ok (root, version, flags), s2).

Lemma ckpt_payload_parse (root : Hash) version (fl : N) s :
  is_u64 version -> (fl < 256)%N ->
  ∀ payload, payload = b32 root ++ be 8 version ++ [u8 fl] ->
  (flags ← (if decide (length payload = HashSize + 8) then mret 0%N
            else if decide (length payload = HashSize + 9) then
              mret (bn (nth (HashSize + 8) payload Init.Byte.x00))
            else fail (errCorrupted "checkpoint bad length"));
   mret (copy32 (take HashSize payload), unbe (take 8 (drop HashSize payload)), flags)) s
  = (Ok (root, version, fl), s).
Proof.
  intros Hv Hf payload ->.
  assert (length (b32 root ++ be 8 version ++ [u8 fl]) = HashSize + 9) as Hl
    by (rewrite !length_app, length_b32, length_be; done).
  rewrite decide_False by (rewrite Hl; unfold HashSize; lia). rewrite decide_True by done.
  rewrite bind_ret. change HashSize with 32.
  rewrite take_app_ge_len, drop_app_ge_len by apply length_b32.
  rewrite take_app_ge_len by apply length_be.
  rewrite copy32_b32, (unbe_be8 _ Hv). rewrite app_assoc, app_nth2; rewrite length_app, length_b32, length_be; [|lia].
  rewrite Nat.sub_diag. cbn [nth]. by rewrite bn_u8_small.
Qed.

Lemma sealCheckpoint_ok root version s :
  is_u64 version ->
  ∃ rec s', sealCheckpoint root version s = (Ok rec, s') ∧ reads s s' ∧
    ckpt_form s rec root version (ckpt_flag (s_history s)).
Proof.
  intros Hv. unfold sealCheckpoint. rewrite !bind_gets. cbn zeta.
  change (if s_history s then ckptFlagHistory else 0%N) with (ckpt_flag (s_history s)).
  set (payload := b32 root ++ be 8 version ++ [u8 (ckpt_flag (s_history s))]).
  assert (length payload = HashSize + 9) as Hl
    by (unfold payload; rewrite !length_app, length_b32, length_be; done).
  assert (∀ rec s2, ckpt_payload rec s2 = (Ok payload, s2) ->
    openCheckpoint rec s2 = (Ok (root, version, ckpt_flag (s_history s)), s2)) as Hopen.
  { intros rec s2 Ep. unfold openCheckpoint. rewrite (bind_ok _ _ _ _ _ Ep).
    by apply ckpt_payload_parse; [|destruct (s_history s)|]. }
  destruct (s_cipher s) as [key|] eqn:Eci.
  - unfold encrypt. destruct (aead_encrypt key (s_rng s) payload checkpointAAD) as [rec|e|w] eqn:Ee.
    + exists rec, (set_rng (S (s_rng s)) s). split_and!; [done|apply set_rng_reads|].
      intros s2 E1 E2. apply Hopen. unfold ckpt_payload. rewrite !bind_gets, E1, Eci.
      by rewrite (aead_decrypt_encrypt _ _ _ _ _ Ee).
    + unfold aead_encrypt in Ee. destruct (rand_live (s_rng s)) as [r Er]. by rewrite Er in Ee.
    + unfold aead_encrypt in Ee. destruct (rand_live (s_rng s)) as [r Er]. by rewrite Er in Ee.
  - exists (payload ++ b32 (hmac (s_ckptMAC s) payload)), s. split_and!; [done|apply reads_refl|].
    intros s2 E1 E2. apply Hopen. unfold ckpt_payload. rewrite !bind_gets, E1, Eci, E2.
    rewrite length_app, Hl, length_b32. rewrite decide_False by (unfold HashSize; lia). cbn zeta.
    replace (HashSize + 9 + 32 - 32) with (length payload) by (rewrite Hl; lia).
    rewrite take_app_ge_len, drop_app_ge_len by done. by rewrite decide_True.
Qed.

(** ** The atomic tail *)

(** The checkpoint record in storage names the current root and version. *)
Definition checkpointed s : Prop :=
  ∃ rec, contents (s_backend s) !! checkpointRecordKey = Some rec ∧
    ckpt_form s rec (s_root s) (s_version s) (ckpt_flag (s_history s)).

(** [s'] is [s] with one more committed version. *)
Record committed_as (nh : option Hash) s s' (ot otf : option tree) (stf : gmap Hash bytes) : Prop := {
  cm_repr : repr s' otf stf;
  cm_version : s_version s' = (s_version s + 1)%N;
  cm_ck : s_ck s' = s_ck s;
  cm_cipher : s_cipher s' = s_cipher s;
  cm_mac : s_ckptMAC s' = s_ckptMAC s;
  cm_pin : s_snapshotPin s' = s_snapshotPin s;
  cm_hist : s_history s' = s_history s;
  cm_head : s_historyHead s' = default (s_historyHead s) nh;
  cm_views : ∀ v o stv, (v ≤ s_version s)%N ->
    view (contents (s_backend s)) (s_ck s) (s_cipher s) v o stv ->
    view (contents (s_backend s')) (s_ck s) (s_cipher s) v o stv;
  cm_ckpt : checkpointed s';
  cm_stale : ∀ w x, is_u64 w ->
    is_Some (contents (s_backend s') !! staleRecordKey w x) ↔
    is_Some (contents (s_backend s) !! staleRecordKey w x) ∨
    (w = (s_version s + 1)%N ∧ retired (s_version s + 1) [] ot otf x);
  cm_stale_only : ∀ k, is_Some (contents (s_backend s') !! (recStale :: k)) ->
    is_Some (contents (s_backend s) !! (recStale :: k)) ∨
    ∃ x, recStale :: k = staleRecordKey (s_version s + 1) x ∧ retired (s_version s + 1) [] ot otf x;
  cm_keep : kept (s_version s + 1) ot otf;
  cm_old : ∀ l, l ∈ oleaves otf -> l_valueVersion l = (s_version s + 1)%N ∨ l ∈ oleaves ot;
  cm_vh : ∀ l l', l ∈ oleaves ot -> l' ∈ oleaves otf -> l_vh l = l_vh l' -> l_path l = l_path l';
  cm_roots : ∀ v, is_u64 v -> v ≠ (s_version s + 1)%N ->
    contents (s_backend s') !! rootRecordKey v = contents (s_backend s) !! rootRecordKey v
}.

#[local] Arguments cm_repr {_} _ _ _ _ _ _.
#[local] Arguments cm_ck {_} _ _ _ _ _ _.
(** A commit of a batch. *)
Definition committed s s' (ot otf : option tree) (stf : gmap Hash bytes) : Prop :=
  committed_as (batch_head s) s s' ot otf stf.

Section commit_tail.
Variables (s : Store B) (ot otf : option tree) (st stf : gmap Hash bytes) (acc : commitAcc).
Hypothesis Hr : repr s ot st.
Hypothesis Hmax : is_u64 (s_version s + 1).
Hypothesis Hc : computed s ot otf st stf acc.
Variables (root : Hash) (ckpt : bytes).

Let nv := (s_version s + 1)%N.
Let C := contents (s_backend s).
Let C' := apply_batch (commit_ops acc root ckpt) C.

Lemma computed_acc : a_newVersion acc = nv ∧ pend_wf nv (a_pending acc).
Proof. destruct (cp_ctx _ _ _ _ _ _ Hc) as (cts & owner & [] & _). done. Qed.

Lemma commit_node_old nk :
  nk_wf nk -> nk_version nk ≠ nv -> C' !! nodeRecordKey nk = C !! nodeRecordKey nk.
Proof.
  intros Hw Hv. destruct computed_acc as [Ha Hp]. apply (commit_node_other nv); [done..|].
  intros nk' Hw' Hv' E0. apply nodeKey_encode_inj in E0; [|done..]. congruence.
Qed.

Lemma commit_value_old vh v : is_u64 v -> v ≠ nv -> C' !! valueRecordKey vh v = C !! valueRecordKey vh v.
Proof.
  intros Hv Hne. destruct computed_acc as [Ha Hp].
  unfold C'. rewrite (commit_value nv) by done. by rewrite decide_False.
Qed.

Lemma tree_key_wf (o : option tree) q t : otwf [] o -> tree_at o q = Some t -> nk_wf (NodeKey (t_version t) q).
Proof.
  intros Hw Ht. destruct (tree_at_pos [] o q t Hw Ht) as (Htw & ? & ?). split_and!; [|done..].
  cbn. by inversion Htw.
Qed.

Lemma leaf_u64 (o : option tree) l : otwf [] o -> l ∈ oleaves o -> is_u64 (l_valueVersion l).
Proof.
  destruct o as [t|]; [|by intros _ ?%not_elem_of_nil]. cbn. generalize (@nil N). intros pre Hw.
  induction Hw as [|pre v cs Hl Hp Hf Hv Hcs IH Hb]; [by intros ->%list_elem_of_singleton|].
  intros (i & t & Hi & Hin)%elem_of_leaves_node. by eapply IH.
Qed.

(** Versions committed before stay as they were. *)
Lemma commit_views v o stv :
  (v ≤ s_version s)%N -> view C (s_ck s) (s_cipher s) v o stv -> view C' (s_ck s) (s_cipher s) v o stv.
Proof.
  intros Hv [V1 V2 V3 V4 V5 V6 V7 V8]. destruct computed_acc as [Ha Hp].
  split; try done.
  - unfold C'. rewrite (commit_root nv); [|done..|unfold is_u64 in *; lia].
    rewrite decide_False by (unfold nv; lia). done.
  - intros q t Ht. rewrite commit_node_old; [by apply V6|by eapply tree_key_wf|].
    cbn. specialize (V4 q t Ht). unfold nv. lia.
  - intros l Hl. destruct (V7 l Hl) as (pt & ? & ? & rec & Hrec & ?).
    exists pt. split_and!; [done..|]. exists rec. split; [|done].
    rewrite commit_value_old; [done|by eapply leaf_u64|]. specialize (V5 l Hl). unfold nv. lia.
Qed.

(** The new version. *)
Lemma commit_new_view :
  root = root_of (ochild otf) -> view C' (s_ck s) (s_cipher s) nv otf stf.
Proof.
  intros Eroot. destruct computed_acc as [Ha Hp]. pose proof (r_view _ _ _ Hr) as V.
  destruct Hc as [(cts & owner & Hao & Hi & _ & Hcts) Hs Hk Htop [Hls1 Hls2] Hold Hsame Hhd].
  fold nv in Hao, Hi, Hk, Htop, Hold.
  pose proof Hi as [I1 I2 I3 I4 _ _]. split; [|done|exact Htop|..].
  - unfold C'. rewrite (commit_root nv) by done. by rewrite decide_True, Eroot.
  - intros q t Ht. destruct (Hk q t Ht) as [->|(t0 & Ht0 & <-)]; [done|].
    pose proof (v_le _ _ _ _ _ _ V q t0 Ht0). unfold nv. lia.
  - intros l Hl. destruct (Hold l Hl) as [->|Hl']; [done|].
    pose proof (v_vle _ _ _ _ _ _ V l Hl'). unfold nv. lia.
  - intros q t Ht. pose proof (tree_key_wf _ _ _ I1 Ht) as Hw. specialize (I2 q t Ht).
    unfold resolved in I2. destruct (decide (t_version t = nv)) as [Ev|Ev].
    + rewrite Ev in *. unfold C'. rewrite (commit_node nv) by done. cbn [app] in I2 |- *. by rewrite I2.
    + rewrite commit_node_old; done.
  - intros l Hl. destruct (Hls1 l Hl) as (pt & Hpt & Hvh). exists pt. split_and!; [done..|].
    destruct (I3 l Hl) as (Ho & _ & Hu). destruct (decide (l_valueVersion l = nv)) as [Ev|Ev].
    + destruct (I4 l Hl Ev) as [ct Hct]. exists ct. split.
      * unfold C'. rewrite (commit_value nv) by done. by rewrite decide_True, Hct.
      * destruct (ao_vals _ _ _ _ Hao _ _ Hct) as (p & Ho' & Hp'). rewrite Ho in Ho'. injection Ho' as <-.
        destruct (Hcts _ _ Hp') as (v & Hv & Hf). congruence.
    + destruct (Hold l Hl) as [?|Hl']; [done|].
      destruct (v_leaf _ _ _ _ _ _ V l Hl') as (pt0 & Hpt0 & _ & rec & Hrec & Hf).
      rewrite (Hsame l Hl Hl'), Hpt0 in Hpt. injection Hpt as <-.
      exists rec. split; [|done]. by rewrite commit_value_old.
  - intros p [v Hv]. destruct (Hls2 p v Hv) as (l & ? & ? & _). eauto.
Qed.

(** Cached nodes stay coherent; the new nodes may be cached. *)
Lemma commit_cache c :
  cache_all (cached_ok C) c ->
  cache_all (cached_ok C')
    (foldl (λ c kv, cache_put (pn_nk kv.2) (pn_n kv.2) c) c (range_map (a_pending acc))).
Proof.
  intros Hcc. destruct computed_acc as [Ha Hp].
  assert (cache_all (cached_ok C') c) as Hcc'.
  { intros k e Hk. destruct (Hcc k e Hk) as [Hrec Hwf]. split; [|done].
    unfold C'. rewrite (commit_node_other nv); [done..|]. intros nk Hw Hv ->.
    change (C !! nodeRecordKey nk = Some (node_encode (ce_node e))) in Hrec.
    unfold C in Hrec. rewrite (r_fresh _ _ _ Hr) in Hrec; [done|done|]. rewrite Hv. unfold nv. lia. }
  assert (∀ k pn, (k, pn) ∈ range_map (a_pending acc) ->
    cached_ok C' (nodeKey_encode (pn_nk pn)) (pn_n pn)) as Hnew.
  { intros k pn Hin%elem_of_range. destruct (Hp _ _ Hin) as (-> & Hw & Hv & Hwf). split; [|done].
    change (recNode :: nodeKey_encode (pn_nk pn)) with (nodeRecordKey (pn_nk pn)).
    unfold C'. rewrite (commit_node nv) by done. by rewrite Hin. }
  clear Hcc. revert c Hcc'. induction (range_map (a_pending acc)) as [|[k pn] l IH]; intros c Hcc'; [done|].
  cbn [foldl]. apply IH; [intros; eapply Hnew; by right|].
  apply cache_put_all; [done|]. eapply Hnew. left.
Qed.
End commit_tail.

Lemma commit_ok s s1 ot otf st stf acc :
  repr s ot st -> is_u64 (s_version s + 1) -> reads s s1 -> computed s ot otf st stf acc ->
  ∃ s', commit acc (ochild otf) (root_of (ochild otf)) s1
        = (Ok (root_of (ochild otf), s_version s + 1)%N, s') ∧ committed_as (a_newHead acc) s s' ot otf stf.
Proof.
  intros Hr Hmax R1 Hc. set (nv := (s_version s + 1)%N). set (root := root_of (ochild otf)).
  destruct (computed_acc s ot otf st stf acc Hc) as [Ha Hp]. fold nv in Ha, Hp.
  unfold commit. rewrite Ha.
  destruct (sealCheckpoint_ok root nv s1 Hmax) as (ckpt & s2 & E2 & R2 & Hck).
  rewrite (bind_ok _ _ _ _ _ E2). pose proof (reads_trans _ _ _ R1 R2) as R.
  destruct (write_ok (commit_ops acc root ckpt) (s_backend s2)) as (b' & Ew & Ec).
  unfold backend at 1. unfold mbind at 1, M_bind at 1. rewrite Ew. rewrite !bind_modify.
  destruct (reads_fields _ _ R) as (F1 & F2 & F3 & F4 & F5 & F6 & F7 & F8 & F9 & F10).
  destruct (reads_fields _ _ R1) as (_ & G2 & G3 & _ & _ & _ & _ & G8 & _).
  rewrite (reads_contents _ _ R) in Ec.
  set (c' := foldl (λ c kv, cache_put (pn_nk kv.2) (pn_n kv.2) c) (s_cache s2) (range_map (a_pending acc))).
  set (hd := default (s_historyHead s) (a_newHead acc)).
  assert (∃ s', s' = MkStore b' (s_ck s) (s_cipher s) (s_ckptMAC s) root nv (ochild otf) c'
            (s_snapshotPin s) (s_history s) (s_wantHistory s) hd (s_rng s2)) as [s' Es'] by eauto.
  exists s'. split.
  { unfold Root, gets. rewrite Es'. unfold hd.
    destruct (a_newHead acc) eqn:Eh; unfold set_historyHead, set_head, set_cache, set_backend;
      cbn -[foldl]; rewrite F1, F2, F3, F7, F8, F9, ?F10; done. }
  assert (contents (s_backend s') = apply_batch (commit_ops acc root ckpt) (contents (s_backend s))) as EC
    by (by rewrite Es').
  assert (view (contents (s_backend s')) (s_ck s) (s_cipher s) nv otf stf) as Hv.
  { rewrite EC. by eapply commit_new_view. }
  subst s'. cbn [s_backend] in EC, Hv. split; try done.
  - split; try done.
    + unfold store_ok. cbn. rewrite EC. eapply commit_cache; [done..|].
      pose proof (reads_ok _ _ R (r_ok _ _ _ Hr)) as Ho. unfold store_ok in Ho.
      by rewrite (reads_contents _ _ R) in Ho.
    + cbn. intros nk Hw Hlt. rewrite EC.
      rewrite (commit_node_old s ot otf st stf acc Hmax Hc); [|done|unfold nv in Hlt; lia].
      apply (r_fresh _ _ _ Hr); [done|]. unfold nv in Hlt. lia.
  - cbn. intros v o stv Hle V. rewrite EC. by eapply commit_views.
  - exists ckpt. cbn. rewrite EC. split; [by eapply commit_checkpoint|].
    intros s3 E3 E4. cbn in E3, E4. rewrite <-G8. apply Hck; congruence.
  - cbn. intros w x Hw. rewrite EC, (commit_stale nv) by done. fold nv.
    pose proof (cp_stale _ _ _ _ _ _ Hc x) as Hx. fold nv in Hx. rewrite <-Hx.
    destruct (decide (w = nv ∧ x ∈ a_stale acc)) as [Hd|Hd].
    + split; [by right|by intros; eexists].
    + split; [by left|]. intros [?|?]; done.
  - cbn. intros k. rewrite EC. intros Hk. apply (commit_stale_only nv) in Hk as [?|(x & Hx & Ek)]; [by left|right|done..].
    exists x. split; [done|]. by apply (cp_stale _ _ _ _ _ _ Hc).
  - apply Hc.
  - apply Hc.
  - destruct (cp_ctx _ _ _ _ _ _ Hc) as (cts & owner & _ & Hi & Hown & _).
    intros l l' Hl Hl' Ev. pose proof (Hown l Hl) as Ho. destruct (i_leaf _ _ _ _ _ _ _ Hi l' Hl') as (Ho' & _).
    rewrite Ev, Ho' in Ho. by injection Ho.
  - cbn. intros v Hv64 Hne. rewrite EC, (commit_root nv) by done. by rewrite decide_False.
Qed.

(** ** The public operations *)

Lemma PutBatch_ok s ot st ops :
  repr s ot st -> batch_pre s st ops ->
  (upd_state (batch_map (s_ck s) ops) st = st ∧
   ∃ s', PutBatch ops s = (Ok (s_root s, s_version s), s') ∧ reads s s') ∨
  (upd_state (batch_map (s_ck s) ops) st ≠ st ∧
   ∃ otf s', PutBatch ops s = (Ok (root_of (ochild otf), s_version s + 1)%N, s') ∧
     committed s s' ot otf (batch_state s st ops)).
Proof.
  intros Hr Hp. unfold PutBatch.
  destruct (computeBatch_ok s ot st ops Hr Hp) as [(Est & s' & E1 & R1)|(Est & otf & acc & s1 & E1 & R1 & Hc & Hhd)].
  - left. split; [done|]. rewrite (bind_ok _ _ _ _ _ E1). exists s'. split; [|done].
    destruct (reads_fields _ _ R1) as (_ & _ & _ & F4 & F5 & _). unfold Root, gets. by rewrite F4, F5.
  - right. split; [done|]. rewrite (bind_ok _ _ _ _ _ E1).
    destruct (commit_ok s s1 ot otf st _ acc Hr (bp_room _ _ _ Hp) R1 Hc) as (s' & E2 & Hcm).
    rewrite Hhd in Hcm. eauto.
Qed.

Lemma PreviewBatch_ok s ot st ops :
  repr s ot st -> batch_pre s st ops ->
  ∃ s', PreviewBatch ops s = ((PutBatch ops s).1, s') ∧ reads s s'.
Proof.
  intros Hr Hp. unfold PreviewBatch, PutBatch.
  destruct (computeBatch_ok s ot st ops Hr Hp) as [(Est & s' & E1 & R1)|(Est & otf & acc & s1 & E1 & R1 & Hc & Hhd)];
    rewrite !(bind_ok _ _ _ _ _ E1).
  - exists s'. done.
  - destruct (commit_ok s s1 ot otf st _ acc Hr (bp_room _ _ _ Hp) R1 Hc) as (s' & E2 & _).
    rewrite E2. exists s1. split; [|done]. destruct (reads_fields _ _ R1) as (_ & _ & _ & _ & F5 & _).
    rewrite bind_gets, F5. by rewrite (wrap64_small _ (bp_room _ _ _ Hp)).
Qed.

Lemma repr_root s ot st : repr s ot st -> s_root s = spec_root (commitments (s_ck s) st).
Proof.
  intros Hr. rewrite (r_root _ _ _ Hr). apply leaves_root; [apply Hr|].
  eapply view_leaves_state. apply Hr.
Qed.

Lemma committed_root s s' ot otf stf :
  committed s s' ot otf stf -> root_of (ochild otf) = spec_root (commitments (s_ck s) stf).
Proof.
  intros Hc. rewrite <-(cm_ck _ _ _ _ _ Hc), <-(repr_root _ _ _ (cm_repr _ _ _ _ _ Hc)).
  by rewrite (r_root _ _ _ (cm_repr _ _ _ _ _ Hc)).
Qed.

(** The reply of a batch is a function of the state alone. *)
Lemma PutBatch_reply s ot st ops :
  repr s ot st -> batch_pre s st ops ->
  (PutBatch ops s).1 =
  Ok (if decide (upd_state (batch_map (s_ck s) ops) st = st) then (s_root s, s_version s)
      else (spec_root (commitments (s_ck s) (batch_state s st ops)), s_version s + 1)%N).
Proof.
  intros Hr Hp. destruct (PutBatch_ok s ot st ops Hr Hp) as [(Est & s' & -> & _)|(Est & otf & s' & -> & Hc)].
  - by rewrite decide_True.
  - rewrite decide_False by done. cbn. by rewrite (committed_root _ _ _ _ _ Hc).
Qed.

Lemma batch_reads s s' st ops :
  reads s s' ->
  batch_state s' st ops = batch_state s st ops ∧ (batch_pre s st ops -> batch_pre s' st ops).
Proof.
  intros R. destruct (reads_fields _ _ R) as (F1 & F2 & F3 & F4 & F5 & F6 & F7 & F8 & F9 & F10).
  assert (next_head s' = next_head s) as En by (unfold next_head; by rewrite F4, F5, F10).
  split; [unfold batch_state; by rewrite F1, F8, En|].
  intros []. split; [done|by rewrite F5|unfold batch_kvs; by rewrite F1, F8, En|by rewrite F1].
Qed.

(** Reads in between do not change the reply. *)
Lemma PutBatch_reply_reads s s' ot st ops :
  repr s ot st -> batch_pre s st ops -> reads s s' -> (PutBatch ops s').1 = (PutBatch ops s).1.
Proof.
  intros Hr Hp R. destruct (batch_reads s s' st ops R) as [Es Hpre].
  rewrite (PutBatch_reply s ot st), (PutBatch_reply s' ot st) by eauto using reads_repr.
  destruct (reads_fields _ _ R) as (F1 & _ & _ & F4 & F5 & _). by rewrite Es, F1, F4, F5.
Qed.
End commit.

Arguments cm_repr {_ _ _ _ _ _} _ _ _ _ _ _.
Arguments cm_version {_ _ _ _ _ _} _ _ _ _ _ _.
Arguments cm_ck {_ _ _ _ _ _} _ _ _ _ _ _.
Arguments cm_cipher {_ _ _ _ _ _} _ _ _ _ _ _.
Arguments cm_mac {_ _ _ _ _ _} _ _ _ _ _ _.
Arguments cm_pin {_ _ _ _ _ _} _ _ _ _ _ _.
Arguments cm_hist {_ _ _ _ _ _} _ _ _ _ _ _.
Arguments cm_head {_ _ _ _ _ _} _ _ _ _ _ _.
Arguments cm_views {_ _ _ _ _ _} _ _ _ _ _ _.
Arguments cm_ckpt {_ _ _ _ _ _} _ _ _ _ _ _.
Arguments cm_stale {_ _ _ _ _ _} _ _ _ _ _ _.
Arguments cm_stale_only {_ _ _ _ _ _} _ _ _ _ _ _.
Arguments cm_keep {_ _ _ _ _ _} _ _ _ _ _ _.
Arguments cm_old {_ _ _ _ _ _} _ _ _ _ _ _.
Arguments cm_vh {_ _ _ _ _ _} _ _ _ _ _ _.
Arguments cm_roots {_ _ _ _ _ _} _ _ _ _ _ _.
