(* ===== verification/StoreFrame.v ===== *)
(** What the store's operations leave alone, whatever happens.

    Storage may fail, records may be missing or tampered with and entropy may run
    out: no assumption is made here beyond the backend's own contract.  [quiet]
    says that the contents of storage and every field of the store but the cache
    (and the entropy counter) are unchanged; everything up to the commit's single
    write is quiet, so a batch that does not succeed changes neither storage nor
    the head of the store. *)

From S2P Require Import Prelude Errors Sha256 Hashing Node Aead Backend Cache Store.

Create HintDb quiet.

Section frame.
Context `{H : Hasher} `{G : GCM} `{E : Entropy} `{MR : MapRange}.
Context {B : Type} `{BK : Backend B} `{!BackendSpec B}.
Implicit Types s : Store B.

Definition quiet s s' : Prop :=
  contents (s_backend s') = contents (s_backend s) ∧
  s' = set_rng (s_rng s') (set_cache (s_cache s') (set_backend (s_backend s') s)).

#[export] Instance quiet_refl : Reflexive quiet.
Proof. intros s. split; [done|by destruct s]. Qed.

#[export] Instance quiet_trans : Transitive quiet.
Proof.
  intros s1 s2 s3 [C1 E1] [C2 E2]. split; [congruence|].
  rewrite E2 at 1. rewrite E1 at 1. by destruct s1.
Qed.

Lemma quiet_head s s' :
  quiet s s' ->
  s_root s' = s_root s ∧ s_version s' = s_version s ∧ s_rootChild s' = s_rootChild s ∧
  s_historyHead s' = s_historyHead s ∧ s_history s' = s_history s ∧ s_ck s' = s_ck s.
Proof. intros [_ ->]. by destruct s. Qed.

(** Every run of the computation is quiet. *)
Definition keeps {A} (m : M (Store B) A) : Prop := ∀ s, quiet s (m s).2.

Lemma keeps_ret {A} (a : A) : keeps (mret a).
Proof. intros s. done. Qed.
Lemma keeps_fail {A} e : keeps (fail e : M _ A).
Proof. intros s. done. Qed.
Lemma keeps_panic {A} w : keeps (panic w : M _ A).
Proof. intros s. done. Qed.
Lemma keeps_gets {A} (f : Store B -> A) : keeps (gets f).
Proof. intros s. done. Qed.
Lemma keeps_lift {A} (o : outcome A) : keeps (lift o).
Proof. intros s. done. Qed.

Lemma keeps_bind {A A'} (m : M (Store B) A) (f : A -> M (Store B) A') :
  keeps m -> (∀ a, keeps (f a)) -> keeps (m ≫= f).
Proof.
  intros Hm Hf s. specialize (Hm s). unfold mbind, M_bind.
  destruct (m s) as [[a|e|w] s1]; cbn in Hm |- *; [|done..]. etrans; [done|apply Hf].
Qed.

Lemma keeps_foldM {A A'} (f : A -> A' -> M (Store B) A) a l :
  (∀ a b, keeps (f a b)) -> keeps (foldM f a l).
Proof.
  intros Hf. revert a. induction l as [|b l IH]; intros a; cbn; [apply keeps_ret|].
  apply keeps_bind; auto.
Qed.

Lemma keeps_get k : keeps (backend (b_get k)).
Proof.
  intros s. unfold backend. destruct (b_get k (s_backend s)) as [o b] eqn:Eg.
  destruct (get_spec _ _ _ _ Eg) as [Hc _]. cbn. split; [done|by destruct s].
Qed.

Lemma keeps_raw_get k : keeps (raw_backend (b_get k)).
Proof.
  intros s. unfold raw_backend. destruct (b_get k (s_backend s)) as [o b] eqn:Eg.
  destruct (get_spec _ _ _ _ Eg) as [Hc _]. cbn. split; [done|by destruct s].
Qed.

Lemma keeps_encrypt key pt aad : keeps (encrypt key pt aad).
Proof. intros s. split; [done|by destruct s]. Qed.
Lemma keeps_cacheGet nk : keeps (cacheGet nk).
Proof.
  intros s. unfold cacheGet. destruct (cache_get nk (s_cache s)) as [r c].
  split; [done|by destruct s].
Qed.
Lemma keeps_cachePut nk n : keeps (cachePut nk n).
Proof. intros s. split; [done|by destruct s]. Qed.
End frame.

#[export] Hint Resolve keeps_ret keeps_fail keeps_panic keeps_gets keeps_lift keeps_get keeps_raw_get
  keeps_encrypt keeps_cacheGet keeps_cachePut : quiet.

(** Descend through binds and case distinctions. *)
Ltac keeps :=
  repeat (intros; cbn beta zeta;
    first [ progress auto with quiet
          | apply keeps_bind
          | apply keeps_foldM
          | match goal with
            | |- keeps (match ?x with _ => _ end) => destruct x
            | |- keeps ((match ?x with _ => _ end) _) => destruct x
            end ]).

Section frame_ops.
Context `{H : Hasher} `{G : GCM} `{E : Entropy} `{MR : MapRange}.
Context {B : Type} `{BK : Backend B} `{!BackendSpec B}.
Implicit Types s : Store B.

Lemma keeps_sealValue path v : keeps (sealValue path v).
Proof. unfold sealValue. keeps. Qed.
Lemma keeps_openValue path r : keeps (openValue path r).
Proof. unfold openValue. keeps. Qed.
Lemma keeps_sealCheckpoint root v : keeps (sealCheckpoint root v).
Proof. unfold sealCheckpoint. keeps. Qed.
Lemma keeps_ckpt_payload r : keeps (ckpt_payload r).
Proof. unfold ckpt_payload. keeps. Qed.
Lemma keeps_loadNode nk h : keeps (loadNode nk h).
Proof. unfold loadNode. keeps. Qed.
Lemma keeps_loadRootRecord v : keeps (loadRootRecord v).
Proof. unfold loadRootRecord. keeps. Qed.
Hint Resolve keeps_sealValue keeps_openValue keeps_ckpt_payload keeps_loadNode keeps_loadRootRecord : quiet.

Lemma keeps_openCheckpoint r : keeps (openCheckpoint r).
Proof. unfold openCheckpoint. keeps. Qed.
Lemma keeps_loadRootChild h v : keeps (loadRootChild h v).
Proof. unfold loadRootChild. keeps. Qed.
Lemma keeps_readValue p vh v : keeps (readValue p vh v).
Proof. unfold readValue. keeps. Qed.
Hint Resolve keeps_loadRootChild keeps_readValue : quiet.

Lemma keeps_walk_from left c pre p : keeps (walk_from left c pre p).
Proof. revert c pre. induction left as [|left IH]; intros c pre; cbn [walk_from]; keeps. Qed.
Hint Resolve keeps_walk_from : quiet.
Lemma keeps_walk c p : keeps (walk c p).
Proof. unfold walk. keeps. Qed.
Hint Resolve keeps_walk : quiet.

Lemma keeps_Get k : keeps (Get k).
Proof. unfold Get. keeps. Qed.
Lemma keeps_GetAt v k : keeps (GetAt v k).
Proof. unfold GetAt. keeps. Qed.

Lemma keeps_putLeaf acc pre l : keeps (putLeaf acc pre l).
Proof. unfold putLeaf. keeps. Qed.
Lemma keeps_takeLeaf acc c pre : keeps (takeLeaf acc c pre).
Proof. unfold takeLeaf. keeps. Qed.
Lemma keeps_resolveNode acc c nk : keeps (resolveNode acc c nk).
Proof. unfold resolveNode. keeps. Qed.
Hint Resolve keeps_putLeaf keeps_takeLeaf keeps_resolveNode : quiet.
Lemma keeps_finishInternal acc pre cs : keeps (finishInternal acc pre cs).
Proof. unfold finishInternal. keeps. Qed.

Lemma keeps_buildFromPairs left acc pre ls : keeps (buildFromPairs left acc pre ls).
Proof.
  revert acc pre ls. induction left as [|left IH]; intros acc pre [|a [|b ls]]; cbn [buildFromPairs];
    keeps.
Qed.
Hint Resolve keeps_finishInternal keeps_buildFromPairs : quiet.

Lemma keeps_applySubtree left acc o pre us : keeps (applySubtree left acc o pre us).
Proof.
  revert acc o pre us. induction left as [|left IH]; intros acc [oc|] pre [|u us]; cbn [applySubtree]; keeps.
Qed.
Hint Resolve keeps_applySubtree : quiet.

Lemma keeps_dedupe ops : keeps (dedupe ops).
Proof. unfold dedupe. keeps. Qed.
Lemma keeps_seal_updates acc l : keeps (seal_updates acc l).
Proof. unfold seal_updates. keeps. Qed.
Lemma keeps_appendHistoryLink acc o : keeps (appendHistoryLink acc o).
Proof. unfold appendHistoryLink. keeps. Qed.
Hint Resolve keeps_dedupe keeps_seal_updates keeps_appendHistoryLink : quiet.
Lemma keeps_computeBatch ops : keeps (computeBatch ops).
Proof. unfold computeBatch. keeps. Qed.
Hint Resolve keeps_computeBatch : quiet.
Lemma keeps_PreviewBatch ops : keeps (PreviewBatch ops).
Proof. unfold PreviewBatch, Root. keeps. Qed.

(** A commit that does not succeed changed nothing. *)
Lemma commit_atomic acc c h s o s' :
  commit acc c h s = (o, s') ->
  (∃ r, o = Ok r ∧ ∃ ckpt,
     contents (s_backend s') = apply_batch (commit_ops acc h ckpt) (contents (s_backend s))) ∨
  ((∃ e, o = Err e) ∨ ∃ w, o = Panic w) ∧ quiet s s'.
Proof.
  unfold commit. pose proof (keeps_sealCheckpoint h (a_newVersion acc) s) as Hq.
  unfold mbind at 1, M_bind at 1.
  destruct (sealCheckpoint h (a_newVersion acc) s) as [[ckpt|e|w] s1];
    [|intros [= <- <-]; right; eauto..].
  cbn in Hq. unfold backend at 1. unfold mbind at 1, M_bind at 1.
  destruct (b_write (commit_ops acc h ckpt) (s_backend s1)) as [ow b] eqn:Ew.
  destruct (write_spec _ _ _ _ Ew) as [[-> Hc]|[[e ->] Hc]].
  - rewrite !bind_modify. unfold Root, gets. intros [= <- <-]. left. eexists. split; [done|].
    exists ckpt. destruct Hq as [Hq _]. rewrite <-Hq, <-Hc. by destruct (a_newHead acc).
  - intros [= <- <-]. right. split; [eauto|]. etrans; [exact Hq|]. split; [done|by destruct s1].
Qed.

Lemma PutBatch_atomic ops s o s' :
  PutBatch ops s = (o, s') -> (∃ r, o = Ok r) ∨ ((∃ e, o = Err e) ∨ ∃ w, o = Panic w) ∧ quiet s s'.
Proof.
  unfold PutBatch. pose proof (keeps_computeBatch ops s) as Hq. unfold mbind, M_bind.
  destruct (computeBatch ops s) as [[[[[acc c] h]|]|e|w] s1]; cbn in Hq.
  - intros Ec. apply commit_atomic in Ec as [(r & -> & _)|[Ho Hq2]]; [by left; eexists|].
    right. split; [done|by etrans].
  - unfold Root, gets. intros [= <- <-]. left. by eexists.
  - intros [= <- <-]. right. eauto.
  - intros [= <- <-]. right. eauto.
Qed.
End frame_ops.

#[export] Hint Resolve keeps_sealValue keeps_openValue keeps_ckpt_payload keeps_loadNode keeps_loadRootRecord
  keeps_loadRootChild keeps_readValue keeps_walk_from keeps_walk keeps_Get keeps_GetAt keeps_computeBatch
  keeps_openCheckpoint keeps_applySubtree : quiet.
