(* ===== verification/StoreOpen.v ===== *)
(** Creating and opening stores: [Create], [OpenLatest], [OpenOrCreate]
    ([ledger/store.go]).

    A created store represents the empty state at version 0; opening the storage
    of a store under the same keys gives a store with the same root, version,
    chain mode, chain head and state. *)

From S2P Require Import Prelude Errors Sha256 Hashing Node Smt Aead Backend Cache Store Tree StoreRead Update StoreWrite Records StoreCommit.

Definition options_of (opts : list (storeOptions -> storeOptions)) : storeOptions :=
  foldl (λ o f, f o) (MkOptions None false) opts.

Section opening.
Context `{H : Hasher} `{G : GCM} `{E : Entropy} `{MR : MapRange}.
Context {B : Type} `{BK : Backend B} `{!BackendSpec B} `{!BackendReliable B}.
Context `{!GCMSpec} `{!EntropyLive}.
Implicit Types s : Store B.

(** The store runs under these keys. *)
Definition keyed s (key : bytes32) (sk : option bytes32) : Prop :=
  s_ck s = b32 key ∧ s_cipher s = sk ∧
  s_ckptMAC s = match sk with Some _ => [] | None => b32 (hmac (b32 key) ckptMACLabel) end.

(** The head leaf agrees with the chain mode and the head in memory. *)
Definition chain_ok s (st : gmap Hash bytes) : Prop :=
  if s_history s
  then (s_version s = 0%N ∧ st !! history_path (s_ck s) = None ∧ s_historyHead s = zero32) ∨
       st !! history_path (s_ck s) = Some (b32 (s_historyHead s))
  else st !! history_path (s_ck s) = None ∧ s_historyHead s = zero32.

Lemma Create_ok b key opts :
  (∀ nk, nk_wf nk -> contents b !! nodeRecordKey nk = None) ->
  ∃ s, Create b key opts = (Ok tt, s) ∧ repr s None ∅ ∧ checkpointed s ∧
    keyed s key (o_sk (options_of opts)) ∧ chain_ok s ∅ ∧ s_version s = 0%N ∧
    s_root s = placeholderHash ∧ s_history s = o_history (options_of opts) ∧ s_snapshotPin s = None ∧
    ∀ k, k ≠ rootRecordKey 0 -> k ≠ checkpointRecordKey -> contents (s_backend s) !! k = contents b !! k.
Proof.
  intros Hf. unfold Create. rewrite bind_modify.
  set (s0 := set_history (s_wantHistory (newStore b key opts)) (newStore b key opts)).
  destruct (sealCheckpoint_ok placeholderHash 0 s0) as (ckpt & s1 & E1 & R1 & Hck); [done|].
  rewrite (bind_ok _ _ _ _ _ E1).
  set (ops := [bput (rootRecordKey 0) (b32 placeholderHash); bput checkpointRecordKey ckpt]).
  destruct (write_ok ops (s_backend s1)) as (b' & Ew & Ec).
  unfold raw_backend. rewrite Ew. exists (set_backend b' s1). split; [done|].
  destruct (reads_fields _ _ R1) as (F1 & F2 & F3 & F4 & F5 & F6 & F7 & F8 & F9 & F10).
  rewrite (reads_contents _ _ R1) in Ec. change (contents (s_backend s0)) with (contents b) in Ec.
  assert (∀ k, contents b' !! (recNode :: k) = contents b !! (recNode :: k)) as Hnode.
  { intros k. rewrite Ec. apply apply_batch_notin.
    intros op [->|[->|?%not_elem_of_nil]%elem_of_cons]%elem_of_cons; done. }
  split_and!.
  - split; cbn [set_backend s_backend s_ck s_cipher s_version s_root s_rootChild].
    + unfold store_ok. cbn. intros k e Hk.
      assert (store_ok s0) as Ho0 by (intros k0 e0 Hk0; cbn in Hk0; by rewrite lookup_empty in Hk0).
      destruct (reads_ok _ _ R1 Ho0 k e Hk) as [Hrec Hwf]. rewrite (reads_contents _ _ R1) in Hrec.
      split; [|done]. by rewrite Hnode.
    + split; try done.
      * rewrite F5, Ec. cbn. unfold apply_op. cbn.
        rewrite lookup_insert_ne by done. by rewrite lookup_insert_eq.
      * by intros [|? ?].
      * by intros l ?%not_elem_of_nil.
      * by intros [|? ?].
      * by intros l ?%not_elem_of_nil.
      * intros p [v Hv]. by rewrite lookup_empty in Hv.
    + by rewrite F4.
    + by rewrite F6.
    + by rewrite F5.
    + intros nk Hw _. unfold nodeRecordKey. rewrite Hnode. by apply Hf.
  - exists ckpt. cbn [set_backend s_backend s_root s_version s_history]. rewrite F4, F5, F8, Ec. split.
    + cbn. unfold apply_op. cbn. by rewrite lookup_insert_eq.
    + intros s2 E2 E3. cbn in E2, E3. apply Hck; congruence.
  - unfold keyed. cbn [set_backend s_ck s_cipher s_ckptMAC]. rewrite F1, F2, F3. done.
  - unfold chain_ok. cbn [set_backend s_history s_version s_ck s_historyHead]. rewrite F8, F5, F10.
    rewrite lookup_empty. destruct (s_history s0); [by left|done].
  - exact F5.
  - exact F4.
  - exact F8.
  - exact F7.
  - intros k Hk1 Hk2. cbn. rewrite Ec. apply apply_batch_notin.
    intros op [->|[->|?%not_elem_of_nil]%elem_of_cons]%elem_of_cons; done.
Qed.

(** The open path: load the root, then cross-check the chain mode. *)
Lemma initHistory_ok s ot st flag :
  repr s ot st -> s_historyHead s = zero32 -> (s_wantHistory s = true -> flag = true) ->
  (if flag
   then (s_version s = 0%N ∧ st !! history_path (s_ck s) = None) ∨
        ∃ h : Hash, st !! history_path (s_ck s) = Some (b32 h)
   else st !! history_path (s_ck s) = None) ->
  ∃ s', initHistory true flag s = (Ok tt, s') ∧ s_history s' = flag ∧
    s_historyHead s' = match st !! history_path (s_ck s) with Some v => copy32 v | None => zero32 end ∧
    ∃ s1, reads s s1 ∧ s' = set_history (s_history s') (set_historyHead (s_historyHead s') s1).
Proof.
  intros Hr Hz Hwant Hst. unfold initHistory.
  destruct (Get_ok s ot st HistoryKey Hr) as (s1 & E1 & R1). rewrite (bind_ok _ _ _ _ _ E1).
  change (pathOf (s_ck s) HistoryKey) with (history_path (s_ck s)).
  rewrite bind_gets. destruct (reads_fields _ _ R1) as (_ & _ & _ & _ & F5 & _ & _ & _ & F9 & F10). rewrite F5.
  assert (∀ s2, s_wantHistory s2 = s_wantHistory s ->
    (want ← gets s_wantHistory;
     if decide (want = true ∧ flag = false) then
       fail (errInvalid "store was not created with the history chain (WithHistoryChain is a Create-time choice)")
     else modify (set_history flag)) s2 = (Ok tt, set_history flag s2)) as Hfin.
  { intros s2 E2. rewrite bind_gets, E2, decide_False; [done|]. intros [Hw Hfl]. rewrite (Hwant Hw) in Hfl. done. }
  destruct flag.
  - destruct Hst as [[Hv Hn]|[h Hh]].
    + rewrite Hn, decide_False by lia. rewrite bind_ret, (Hfin s1 F9).
      eexists. split_and!; [done|done|cbn; congruence|]. by exists s1.
    + rewrite Hh, decide_True by apply length_b32. rewrite bind_modify, (Hfin (set_historyHead _ s1) F9).
      eexists. split_and!; [done|done|done|]. exists s1. done.
  - rewrite Hst, bind_ret, (Hfin s1 F9). eexists. split_and!; [done|done|cbn; congruence|].
    by exists s1.
Qed.

Lemma OpenLatest_ok s ot st key sk opts :
  repr s ot st -> checkpointed s -> keyed s key sk -> chain_ok s st ->
  (∀ t, ot = Some t -> t_hash t ≠ placeholderHash) ->
  o_sk (options_of opts) = sk -> (o_history (options_of opts) = true -> s_history s = true) ->
  ∃ s', OpenLatest (s_backend s) key opts = (Ok tt, s') ∧
    repr s' ot st ∧ checkpointed s' ∧ keyed s' key sk ∧ chain_ok s' st ∧
    s_root s' = s_root s ∧ s_version s' = s_version s ∧ s_history s' = s_history s ∧
    s_historyHead s' = s_historyHead s ∧ contents (s_backend s') = contents (s_backend s) ∧
    s_snapshotPin s' = None.
Proof.
  intros Hr (rec & Hrec & Hform) (K1 & K2 & K3) Hch Hne Hsk Hwant. unfold OpenLatest.
  set (s0 := newStore (s_backend s) key opts).
  destruct (backend_get_ok checkpointRecordKey s0) as (s1 & E1 & R1 & Ecache).
  rewrite (bind_ok _ _ _ _ _ E1). change (contents (s_backend s0)) with (contents (s_backend s)). rewrite Hrec.
  destruct (reads_fields _ _ R1) as (F1 & F2 & F3 & F4 & F5 & F6 & F7 & F8 & F9 & F10).
  change (s_cipher s0) with (o_sk (options_of opts)) in F2. change (s_ck s0) with (b32 key) in F1.
  assert (s_ckptMAC s1 = s_ckptMAC s) as EM by (rewrite F3, K3; cbn; unfold options_of in Hsk; by rewrite Hsk).
  rewrite (bind_ok _ _ _ _ _ (Hform s1 ltac:(congruence) EM)). rewrite bind_modify.
  set (s2 := set_head (s_root s) (s_version s) None s1).
  assert (contents (s_backend s2) = contents (s_backend s)) as EC by (unfold s2; cbn; by rewrite (reads_contents _ _ R1)).
  assert (store_ok s2) as Ho2.
  { intros k e Hk. unfold s2 in Hk. cbn in Hk. rewrite Ecache in Hk. cbn in Hk. by rewrite lookup_empty in Hk. }
  assert (view (contents (s_backend s2)) (s_ck s2) (s_cipher s2) (s_version s) ot st) as V2.
  { rewrite EC. change (s_ck s2) with (s_ck s1). change (s_cipher s2) with (s_cipher s1).
    rewrite F1, F2, Hsk, <-K1, <-K2. apply Hr. }
  rewrite (r_root _ _ _ Hr).
  destruct (loadRootChild_ok s2 (s_version s) ot st Ho2 V2 Hne) as (s3 & E3 & R3).
  rewrite (bind_ok _ _ _ _ _ E3), bind_modify.
  set (s4 := set_head (root_of (ochild ot)) (s_version s) (ochild ot) s3).
  destruct (reads_fields _ _ R3) as (G1 & G2 & G3 & G4 & G5 & G6 & G7 & G8 & G9 & G10).
  assert (repr s4 ot st) as Hr4.
  { split; try done.
    - exact (reads_ok _ _ R3 Ho2).
    - unfold s4. cbn. rewrite (reads_contents _ _ R3), G1, G2. exact V2.
    - apply Hr.
    - intros nk Hw Hlt. unfold s4. cbn. rewrite (reads_contents _ _ R3), EC. by apply (r_fresh _ _ _ Hr). }
  assert (s_ck s4 = s_ck s) as Eck4 by (unfold s4; cbn; rewrite G1; cbn; congruence).
  assert (has_flag (ckpt_flag (s_history s)) = s_history s) as -> by (by destruct (s_history s)).
  destruct (initHistory_ok s4 ot st (s_history s) Hr4) as (s5 & E5 & Hh5 & Hd5 & s6 & R6 & Es5).
  { unfold s4. cbn. rewrite G10. cbn. by rewrite F10. }
  { unfold s4. cbn. rewrite G9. cbn. rewrite F9. exact Hwant. }
  { rewrite Eck4. unfold chain_ok in Hch. destruct (s_history s); [|apply Hch].
    destruct Hch as [(? & ? & _)|Hh]; [by left|right; by exists (s_historyHead s)]. }
  exists s5. split; [done|]. rewrite Eck4 in Hd5.
  assert (s_historyHead s5 = s_historyHead s) as Ehd.
  { rewrite Hd5. unfold chain_ok in Hch. destruct (s_history s).
    - destruct Hch as [(_ & Hn & Hz)|Hh]; [by rewrite Hn, Hz|rewrite Hh; apply copy32_b32].
    - destruct Hch as [Hn Hz]. by rewrite Hn, Hz. }
  pose proof (reads_repr _ _ _ _ R6 Hr4) as Hr6.
  assert (repr s5 ot st) as Hr5 by (rewrite Es5; by destruct Hr6).
  assert (contents (s_backend s5) = contents (s_backend s)) as EC5.
  { rewrite Es5. cbn. rewrite (reads_contents _ _ R6). unfold s4. cbn. by rewrite (reads_contents _ _ R3). }
  destruct (reads_fields _ _ R6) as (I1 & I2 & I3 & I4 & I5 & _ & I7 & _).
  assert (s_snapshotPin s5 = None) as Hpin
    by (rewrite Es5; cbn; rewrite I7; unfold s4; cbn; rewrite G7; cbn; by rewrite F7).
  assert (s_ck s5 = s_ck s ∧ s_cipher s5 = s_cipher s ∧ s_ckptMAC s5 = s_ckptMAC s ∧
          s_root s5 = s_root s ∧ s_version s5 = s_version s) as (J1 & J2 & J3 & J4 & J5).
  { rewrite Es5. cbn. rewrite I1, I2, I3, I4, I5, Eck4. unfold s4. cbn. rewrite G2, G3. cbn.
    rewrite F2, EM, (r_root _ _ _ Hr). split_and!; congruence. }
  split; [done|]. split; [|split; [|split; [|split_and!; rewrite <-?(r_root _ _ _ Hr); done]]].
  - exists rec. rewrite EC5, J4, J5, Hh5. split; [done|]. intros s7 Ea Eb. apply Hform; congruence.
  - unfold keyed. rewrite J1, J2, J3. done.
  - unfold chain_ok in *. by rewrite J1, J5, Hh5, Ehd.
Qed.

(** The chain invariant is kept by commits. *)
Lemma committed_chain s s' ot otf st ops :
  committed s s' ot otf (batch_state s st ops) -> chain_ok s st ->
  batch_map (s_ck s) ops !! history_path (s_ck s) = None -> chain_ok s' (batch_state s st ops).
Proof.
  intros Hc Hch Hm. unfold chain_ok, batch_state in *. rewrite (cm_hist _ _ _ _ _ Hc), (cm_ck _ _ _ _ _ Hc),
    (cm_head _ _ _ _ _ Hc). unfold batch_head. destruct (s_history s); cbn [default from_option id].
  - right. by rewrite lookup_insert_eq.
  - by rewrite lookup_upd_state, Hm.
Qed.

Lemma committed_keyed s s' ot otf stf key sk :
  committed s s' ot otf stf -> keyed s key sk -> keyed s' key sk.
Proof.
  intros [] (K1 & K2 & K3). unfold keyed. split_and!; congruence.
Qed.
End opening.
