(* ===== verification/StoreProof.v ===== *)
(** Proving from the stored tree: [provePath], [Prove], [ProveAt], [VerifyValue],
    [VerifyAbsent] ([ledger/proof.go]).

    The prover walks the sixteen-ary nodes and, inside each, the four binary
    levels their hash folds.  On a stored version it produces exactly the proof
    of the reference prover over the committed state ([spec_prove]), so every
    produced proof verifies against the root and states what the state says. *)

From S2P Require Import Prelude Errors Sha256 Hashing Node Smt Proofs Aead Backend Cache Store Tree StoreRead Update StoreWrite StoreCommit.

(** Where the binary descent inside one node ends. *)
Inductive node_step :=
| StepEmpty                       (* an empty range *)
| StepLeaf (idx : nat) (c : child) (* a range collapsed to one leaf *)
| StepDown (c : child).           (* an internal child in the path's slot *)

Section prove.
Context `{H : Hasher} `{G : GCM} `{E : Entropy} `{MR : MapRange} {B : Type} `{BK : Backend B}.
Abbreviation M := (M (Store B)).

(** The descent over the range of [2 ^ k] slots from [start]; off-path halves
    are appended to [siblings].  A range of one slot holds at most one child, so
    the last case is never taken. *)
Fixpoint descend (k : nat) (cs : list (option child)) (start slot : nat) (siblings : list Hash) :
    node_step * list Hash :=
  let range := take (2 ^ k) (drop start cs) in
  match omap id range with
  | [] => (StepEmpty, siblings)
  | cc :: rest =>
      let idx := start + default 0 (fst <$> list_find (λ c, is_Some c) range) in
      if decide (rest = [] ∧ c_isLeaf cc = true) then (StepLeaf idx cc, siblings)
      else
        match k with
        | S k' =>
            if decide (slot < start + 2 ^ k')
            then descend k' cs start slot (siblings ++ [subtreeHash k' cs (start + 2 ^ k')])
            else descend k' cs (start + 2 ^ k') slot (siblings ++ [subtreeHash k' cs start])
        | O => (StepDown cc, siblings)
        end
  end.

(** The walk from child [c], collecting siblings top-down. *)
Fixpoint prove_from (left : nat) (c : child) (prefix : list N) (path : Hash) (siblings : list Hash) :
    M (option leafNode * list Hash) :=
  n ← loadNode (NodeKey (c_version c) prefix) (c_hash c);
  if decide (node_isLeaf n ≠ c_isLeaf c) then fail (errCorrupted "node %v kind mismatch")
  else
    match n with
    | NLeaf l => mret (Some l, siblings)
    | NInternal cs =>
        match left with
        | O => panic "index out of range"
        | S left' =>
            let slot := nibble path (length prefix) in
            match descend 4 cs 0 (N.to_nat slot) siblings with
            | (StepEmpty, siblings) => mret (None, siblings)
            | (StepLeaf idx cc, siblings) =>
                ln ← loadNode (NodeKey (c_version cc) (prefix ++ [N.of_nat idx])) (c_hash cc);
                match ln with
                | NLeaf l => mret (Some l, siblings)
                | NInternal _ => fail (errCorrupted "node %v kind mismatch")
                end
            | (StepDown cc, siblings) => prove_from left' cc (prefix ++ [slot]) path siblings
            end
        end
    end.

Definition provePath (rootChild : option child) (path : Hash) : M Proof :=
  match rootChild with
  | None => mret (MkProof None [])
  | Some c =>
      '(terminal, siblings) ← prove_from nibbles c [] path [];
      mret (MkProof ((λ l, MkProofLeaf (l_path l) (l_vh l)) <$> terminal) (reverse siblings))
  end.

Definition Prove (key : bytes) : M Proof :=
  ck ← gets s_ck; rc ← gets s_rootChild;
  provePath rc (pathOf ck key).

Definition ProveAt (version : N) (key : bytes) : M Proof :=
  cur ← gets s_version;
  if decide (cur < version)%N then fail future
  else
    root ← loadRootRecord version;
    rootChild ← loadRootChild root version;
    ck ← gets s_ck;
    provePath rootChild (pathOf ck key).

Definition VerifyValue (root : Hash) (key value : bytes) (proof : Proof) : M bool :=
  ck ← gets s_ck;
  let path := pathOf ck key in
  v ← lift (Verify root path proof);
  mret (v_Present v && bool_decide (v_Vh v = vhOf ck path value)).

Definition VerifyAbsent (root : Hash) (key : bytes) (proof : Proof) : M bool :=
  ck ← gets s_ck;
  v ← lift (Verify root (pathOf ck key) proof);
  mret (negb (v_Present v)).
End prove.

Section prove_ok.
Context `{H : Hasher}.
Implicit Types sl : list (option tree).

Lemma smt_prove_nil n d path : smt_prove n d [] path = (None, []).
Proof. by destruct n. Qed.
Lemma smt_prove_one n d x path : smt_prove n d [x] path = (Some (MkProofLeaf x.1 x.2), []).
Proof. by destruct n. Qed.
Lemma smt_prove_two n d ls path :
  2 ≤ length ls ->
  smt_prove (S n) d ls path =
  (let r := smt_prove n (S d) (filter (side d (bitAt path d)) ls) path in
   (r.1, smt n (S d) (filter (side d (negb (bitAt path d))) ls) :: r.2)).
Proof. by destruct ls as [|x [|y ls]]; cbn; try lia. Qed.

Lemma smt_prove_perm n d ls ls' path : ls ≡ₚ ls' -> smt_prove n d ls path = smt_prove n d ls' path.
Proof.
  revert d ls ls'. induction n as [|n IH]; intros d ls ls' Hp;
    pose proof (Permutation_length Hp) as Hl;
    destruct ls as [|x [|y ls]], ls' as [|x' [|y' ls']]; try done.
  - by apply Permutation_singleton_r in Hp as [= ->].
  - by apply Permutation_singleton_r in Hp as [= ->].
  - rewrite !smt_prove_two by (cbn; lia). cbn zeta.
    rewrite (IH (S d) _ (filter (side d (bitAt path d)) (x' :: y' :: ls'))) by by rewrite Hp.
    f_equal. f_equal. apply smt_perm. by rewrite Hp.
Qed.

(** What a descent over a slice must report. *)
Definition step_ok (pre : list N) (s : nat) (sl : list (option tree)) (path : Hash)
    (st : node_step) (sibs : list Hash) (r : option ProofLeaf * list Hash) : Prop :=
  match st with
  | StepEmpty => r = (None, sibs)
  | StepLeaf idx c => ∃ i v l, idx = s + i ∧ sl !! i = Some (Some (TLeaf v l)) ∧ c = child_of (TLeaf v l) ∧
      r = (Some (MkProofLeaf (l_path l) (l_vh l)), sibs)
  | StepDown c => ∃ i v cs, s + i = N.to_nat (nibble path (length pre)) ∧ sl !! i = Some (Some (TNode v cs)) ∧
      c = child_of (TNode v cs) ∧
      r = (let r' := smt_prove (252 - 4 * length pre) (4 + 4 * length pre) (kv <$> leaves (TNode v cs)) path in
           (r'.1, sibs ++ r'.2))
  end.

(** A lone leaf of a slice, with its index. *)
Lemma lone_find sl t :
  omap id sl = [t] ->
  ∃ i, fst <$> list_find (λ c, is_Some c) (ochild <$> sl) = Some i ∧ sl !! i = Some (Some t).
Proof.
  intros Et. destruct (lone_slot sl t Et) as (i & Hf & Hi & _). exists i. by rewrite Hf.
Qed.

Lemma step_ok_half pre s sl (b : bool) k path st sibs r h :
  step_ok pre (s + if b then 2 ^ k else 0) (if b then drop (2 ^ k) sl else take (2 ^ k) sl) path st sibs r ->
  step_ok pre s sl path st (h :: sibs) (r.1, h :: r.2).
Proof.
  assert (∀ i t, (if b then drop (2 ^ k) sl else take (2 ^ k) sl) !! i = Some (Some t) ->
    sl !! ((if b then 2 ^ k else 0) + i) = Some (Some t)) as Hlk.
  { intros i t. destruct b; [by rewrite lookup_drop|by intros [? _]%lookup_take_Some]. }
  destruct st as [|idx c|c]; cbn.
  - by intros ->.
  - intros (i & v & l & -> & Hi & -> & ->). exists ((if b then 2 ^ k else 0) + i), v, l.
    split_and!; [lia|by apply Hlk|done|done].
  - intros (i & v & cs & Hn & Hi & -> & ->). exists ((if b then 2 ^ k else 0) + i), v, cs.
    split_and!; [lia|by apply Hlk|done|done].
Qed.

Section descend.
Variables (pre : list N) (ts : list (option tree)) (path : Hash).
Hypothesis Hpre : length pre < 64.
Hypothesis Hlen : length ts = 16.
Hypothesis Hwf : slots_wf pre 0 ts.
Hypothesis Hh : slots_hash pre ts.

Let slot := N.to_nat (nibble path (length pre)).
Abbreviation range k start := (take (2 ^ k) (drop start ts)).

Let range_wf k start : slots_wf pre start (range k start).
Proof. apply slots_wf_take. exact (slots_wf_drop pre 0 ts start Hwf). Qed.

Let range_len k start : start + 2 ^ k ≤ 16 -> length (range k start) = 2 ^ k.
Proof. intros Hr. rewrite length_take, length_drop, Hlen. lia. Qed.

Let range_hash k start : slots_hash pre (range k start).
Proof.
  intros i t [Hi _]%lookup_take_Some. rewrite lookup_drop in Hi. by apply (Hh (start + i)).
Qed.

Let range_split k start (b : bool) :
  (if b then drop (2 ^ k) (range (S k) start) else take (2 ^ k) (range (S k) start)) =
  range k (start + if b then 2 ^ k else 0).
Proof.
  destruct b.
  - symmetry. rewrite <-drop_drop, take_drop_commute. do 2 f_equal. cbn. lia.
  - rewrite take_take, Nat.add_0_r. f_equal. cbn. lia.
Qed.

(** The sibling hash of a range is the specification hash of its leaves. *)
Lemma range_smt k a :
  k ≤ 4 -> a * 2 ^ k + 2 ^ k ≤ 16 ->
  subtreeHash k (ochild <$> ts) (a * 2 ^ k) =
  smt (252 - 4 * length pre + k) (4 * length pre + (4 - k)) (kv <$> concat (oleaves <$> range k (a * 2 ^ k))).
Proof.
  intros Hk Hr. rewrite subtreeHash_slice, <-fmap_drop, <-fmap_take.
  by apply (slice_smt pre k a); [done|done|apply range_len|apply range_wf|apply range_hash].
Qed.

Lemma slot_bit k a r (b : bool) :
  k < 4 -> r < 2 ^ k -> slot = a * 2 ^ S k + ((if b then 2 ^ k else 0) + r) ->
  bitAt path (4 * length pre + (3 - k)) = b.
Proof.
  intros Hk Hr Es. rewrite bitAt_nibble by lia. replace (3 - (3 - k)) with k by lia.
  assert (nibble path (length pre) = N.of_nat slot) as -> by (unfold slot; lia). rewrite Es.
  destruct (testbit_slot k a r Hr) as [Hf Ht]. by destruct b.
Qed.

Lemma descend_ok k a sibs :
  k ≤ 4 -> a * 2 ^ k + 2 ^ k ≤ 16 -> a * 2 ^ k ≤ slot -> slot < a * 2 ^ k + 2 ^ k ->
  ∃ st new, descend k (ochild <$> ts) (a * 2 ^ k) slot sibs = (st, sibs ++ new) ∧
    step_ok pre (a * 2 ^ k) (range k (a * 2 ^ k)) path st new
      (smt_prove (252 - 4 * length pre + k) (4 * length pre + (4 - k))
         (kv <$> concat (oleaves <$> range k (a * 2 ^ k))) path).
Proof.
  revert a sibs. induction k as [|k IH]; intros a sibs Hk Hr Hlo Hhi; cbn [descend];
    rewrite <-fmap_drop, <-fmap_take, omap_ochild;
    set (sl := range _ _) in *;
    (destruct (omap id sl) as [|only rest] eqn:Eo; cbn [fmap list_fmap];
     [exists StepEmpty, []; rewrite app_nil_r, concat_oleaves_omap, Eo; split; [done|apply smt_prove_nil]|]);
    (case_decide as Hd;
     [destruct Hd as [Hrest Hlf]; destruct rest; [|done]; destruct only as [v l|]; [|done];
      destruct (lone_find sl _ Eo) as (i & Hf & Hi); eexists (StepLeaf _ (child_of (TLeaf v l))), [];
      rewrite Hf, app_nil_r; split; [reflexivity|];
      exists i, v, l; split_and!; [done..|]; rewrite concat_oleaves_omap, Eo; apply smt_prove_one|]).
  - (* one slot: an internal child *)
    assert (length sl = 1) as Hl by (apply range_len; lia).
    destruct sl as [|oc [|]] eqn:Esl; try done. destruct oc as [t|]; [|done].
    cbn in Eo. injection Eo as -> <-. destruct only as [v l|v cs]; [by destruct Hd|].
    exists (StepDown (child_of (TNode v cs))), []. rewrite app_nil_r. split; [done|].
    exists 0, v, cs. split_and!; [fold slot; cbn in *; lia|done|done|].
    cbn -[leaves smt_prove]. rewrite app_nil_r. rewrite <-surjective_pairing. f_equal; lia.
  - assert (2 ≤ length (concat (oleaves <$> sl))) as H2.
    { eapply slots_two; [apply range_wf|exact Eo|exact Hd]. }
    assert (length sl = 2 ^ S k) as Hl by (apply range_len; done).
    assert (slots_wf pre (a * 2 ^ S k) sl) as Hs by apply range_wf.
    replace (252 - 4 * length pre + S k) with (S (252 - 4 * length pre + k)) by lia.
    rewrite smt_prove_two by (by rewrite length_fmap).
    replace (S (4 * length pre + (4 - S k))) with (4 * length pre + (4 - k)) by lia.
    replace (4 - S k) with (3 - k) by lia. rewrite !(slice_filter pre k a) by (done || lia).
    assert (a * 2 ^ S k = (2 * a) * 2 ^ k) as Ea0 by (cbn; lia).
    assert (a * 2 ^ S k + 2 ^ k = (2 * a + 1) * 2 ^ k) as Ea1 by (cbn; lia).
    assert (2 ^ S k = 2 ^ k + 2 ^ k) as E2 by (cbn; lia).
    pose proof (range_split k (a * 2 ^ S k)) as Hsp. fold sl in Hsp.
    case_decide as Hside.
    + rewrite (slot_bit k a (slot - a * 2 ^ S k) false) by lia.
      rewrite (Hsp false), (Hsp true), Nat.add_0_r, Ea1, Ea0. cbn [negb].
      rewrite <-(range_smt k (2 * a + 1)) by lia.
      destruct (IH (2 * a) (sibs ++ [subtreeHash k (ochild <$> ts) ((2 * a + 1) * 2 ^ k)]))
        as (st & new & Ed & Hst); [lia..|]. rewrite Ed.
      eexists st, (_ :: new). rewrite <-app_assoc. split; [done|]. cbn zeta.
      apply (step_ok_half _ _ sl false k). rewrite (Hsp false), !Nat.add_0_r, ?Ea0. exact Hst.
    + rewrite (slot_bit k a (slot - (a * 2 ^ S k + 2 ^ k)) true) by lia.
      rewrite (Hsp false), (Hsp true), Nat.add_0_r, Ea1, Ea0. cbn [negb].
      rewrite <-(range_smt k (2 * a)) by lia.
      destruct (IH (2 * a + 1) (sibs ++ [subtreeHash k (ochild <$> ts) (2 * a * 2 ^ k)]))
        as (st & new & Ed & Hst); [lia..|]. rewrite Ed.
      eexists st, (_ :: new). rewrite <-app_assoc. split; [done|]. cbn zeta.
      apply (step_ok_half _ _ sl true k). rewrite (Hsp true), Ea1, <-Ea0, Ea1. exact Hst.
Qed.
End descend.
End prove_ok.

Section store_prove.
Context `{H : Hasher} `{G : GCM} `{E : Entropy} `{MR : MapRange}.
Context {B : Type} `{BK : Backend B} `{!BackendSpec B} `{!BackendReliable B}.
Implicit Types s : Store B.

Lemma prove_from_ok left pre t path sibs s :
  left + length pre = nibbles -> twf pre t -> under pre path -> store_ok s ->
  stored (contents (s_backend s)) pre (Some t) ->
  ∃ ol new s', prove_from left (child_of t) pre path sibs s = (Ok (ol, sibs ++ new), s') ∧ reads s s' ∧
    ((λ l, MkProofLeaf (l_path l) (l_vh l)) <$> ol, new) =
    smt_prove (256 - 4 * length pre) (4 * length pre) (kv <$> leaves t) path.
Proof.
  revert pre t sibs s. induction left as [|left IH]; intros pre t sibs s Hn Hw Hu Ho Hst.
  all: destruct (loadNode_ok (NodeKey (t_version t) pre) (t_node t) s) as (s1 & E1 & R1);
    [done|by apply stored_top|by eapply twf_node_wf|].
  all: cbn [prove_from]; rewrite (bind_ok _ _ _ _ _ E1), t_node_isLeaf, decide_False by (cbn; auto).
  all: destruct t as [v l|v cs]; cbn [t_node].
  all: try (exists (Some l), [], s1; rewrite app_nil_r; split_and!; [done|done|];
    cbn [leaves fmap list_fmap]; by rewrite smt_prove_one).
  { inversion Hw. unfold nibbles in *. cbn in *. lia. }
  inversion Hw as [|? ? ? Hlen Hpre Hf Hv Hc Hb]; subst.
  change (λ oc, match oc with Some t' => _ | None => None end) with ochild.
  assert (slots_wf pre 0 cs) as Hsw by exact Hc.
  assert (slots_hash pre cs) as Hsh.
  { intros i t Hi. rewrite (t_hash_smt _ _ (Hc i t Hi)), length_app. cbn [length]. f_equal; lia. }
  pose proof (nibble_lt16 path (length pre) Hpre) as Hnib.
  destruct (descend_ok pre cs path Hpre Hlen Hsw Hsh 4 0 sibs) as (st & new & Ed & Hok); [lia|cbn; lia|cbn; lia|cbn; lia|].
  change (0 * 2 ^ 4) with 0 in Ed, Hok. rewrite Ed. rewrite drop_0, take_ge in Hok by (rewrite Hlen; done).
  replace (252 - 4 * length pre + 4) with (256 - 4 * length pre) in Hok by lia.
  replace (4 * length pre + (4 - 4)) with (4 * length pre) in Hok by lia.
  rewrite <-(leaves_node v) in Hok.
  destruct st as [|idx c|c]; cbn [step_ok] in Hok.
  - exists None, new, s1. split_and!; [done|done|]. by rewrite Hok.
  - destruct Hok as (i & v' & l & -> & Hi & -> & Hr).
    pose proof (stored_child _ _ _ _ (N.of_nat i) Hst) as Hst'. rewrite Nat2N.id, Hi in Hst'. cbn in Hst'.
    destruct (loadNode_ok (NodeKey v' (pre ++ [N.of_nat i])) (NLeaf l) s1) as (s2 & E2 & R2).
    { by eapply reads_ok. }
    { rewrite (reads_contents _ _ R1). by apply stored_top in Hst'. }
    { exact (twf_node_wf _ _ (Hc i _ Hi)). }
    change (t_hash (TLeaf v' l)) with (node_hash (NLeaf l)) in *. cbn [c_version child_of t_version c_hash] in *.
    change (0 + i) with i. change (c_hash (child_of (TLeaf v' l))) with (node_hash (NLeaf l)).
    rewrite (bind_ok _ _ _ _ _ E2). exists (Some l), new, s2.
    split_and!; [done|by eapply reads_trans|]. by rewrite Hr.
  - destruct Hok as (i & v' & cs' & Hi0 & Hi & -> & Hr). cbn in Hi0. subst i.
    set (nib := nibble path (length pre)) in *.
    pose proof (stored_child _ _ _ _ nib Hst) as Hst'. rewrite Hi in Hst'. cbn in Hst'.
    destruct (IH (pre ++ [nib]) (TNode v' cs') (sibs ++ new) s1) as (ol & new' & s2 & E2 & R2 & Hp).
    { rewrite length_app. cbn. lia. }
    { specialize (Hc _ _ Hi). by rewrite N2Nat.id in Hc. }
    { apply under_snoc. auto. }
    { by eapply reads_ok. }
    { by rewrite (reads_contents _ _ R1). }
    exists ol, (new ++ new'), s2. rewrite app_assoc. split_and!; [done|by eapply reads_trans|].
    rewrite Hr. rewrite length_app in Hp. cbn [length] in Hp.
    replace (252 - 4 * length pre) with (256 - 4 * (length pre + 1)) by lia.
    replace (4 + 4 * length pre) with (4 * (length pre + 1)) by lia. by rewrite <-Hp.
Qed.

Lemma provePath_ok s v ot st path :
  store_ok s -> view (contents (s_backend s)) (s_ck s) (s_cipher s) v ot st ->
  ∃ s', provePath (ochild ot) path s = (Ok (spec_prove (commitments (s_ck s) st) path), s') ∧ reads s s'.
Proof.
  intros Ho V. pose proof (leaves_commitments _ _ _ (v_twf _ _ _ _ _ _ V) (view_leaves_state _ _ _ _ _ _ V)) as Hp.
  unfold spec_prove. rewrite <-(smt_prove_perm _ _ _ _ _ Hp).
  destruct ot as [t|]; cbn [ochild provePath oleaves].
  - destruct (prove_from_ok nibbles [] t path [] s) as (ol & new & s' & E1 & R1 & Hpr);
      [done|apply V|apply under_nil|done|apply V|].
    rewrite (bind_ok _ _ _ _ _ E1). exists s'. split; [|done].
    change (256 - 4 * length (@nil N)) with 256 in Hpr. change (4 * length (@nil N)) with 0 in Hpr.
    by rewrite <-Hpr.
  - exists s. split; [|apply reads_refl]. cbn [fmap list_fmap]. by rewrite smt_prove_nil.
Qed.

Lemma Prove_ok s ot st key :
  repr s ot st ->
  ∃ s', Prove key s = (Ok (spec_prove (commitments (s_ck s) st) (pathOf (s_ck s) key)), s') ∧ reads s s'.
Proof.
  intros Hr. unfold Prove. rewrite !bind_gets, (r_child _ _ _ Hr).
  eapply provePath_ok; apply Hr.
Qed.

Lemma ProveAt_ok s ot st v ot' st' key :
  repr s ot st -> (v ≤ s_version s)%N ->
  view (contents (s_backend s)) (s_ck s) (s_cipher s) v ot' st' ->
  (∀ t, ot' = Some t -> t_hash t ≠ placeholderHash) ->
  ∃ s', ProveAt v key s = (Ok (spec_prove (commitments (s_ck s) st') (pathOf (s_ck s) key)), s') ∧ reads s s'.
Proof.
  intros Hr Hv V Hne. unfold ProveAt. rewrite bind_gets, decide_False by lia.
  destruct (loadRootRecord_ok s v (root_of (ochild ot'))) as (s1 & E1 & R1); [apply V|].
  rewrite (bind_ok _ _ _ _ _ E1). pose proof (reads_fields _ _ R1) as (Eck & Eci & _).
  destruct (loadRootChild_ok s1 v ot' st') as (s2 & E2 & R2).
  { eapply reads_ok; [done|apply Hr]. }
  { by rewrite (reads_contents _ _ R1), Eck, Eci. }
  { done. }
  rewrite (bind_ok _ _ _ _ _ E2). pose proof (reads_trans _ _ _ R1 R2) as R.
  pose proof (reads_fields _ _ R) as (Eck2 & Eci2 & _). rewrite bind_gets, Eck2.
  destruct (provePath_ok s2 v ot' st' (pathOf (s_ck s) key)) as (s3 & E3 & R3).
  { eapply reads_ok; [done|apply Hr]. }
  { by rewrite (reads_contents _ _ R), Eck2, Eci2. }
  rewrite Eck2 in E3. exists s3. split; [done|by eapply reads_trans].
Qed.
End store_prove.
