(* ===== verification/Fork.v ===== *)
(** Forks: the buffered transactions of [ledger/fork.go].

    A fork remembers the root and version it was taken at and buffers writes in
    an overlay keyed by logical key.  It shares the store; its operations run in
    the store's monad.  The theorems: reads see the overlay over the store's
    state, sealing computes exactly what committing the sealed write-set will
    produce, and a fork whose store moved is refused. *)

From S2P Require Import Prelude Errors Sha256 Hashing Node Smt Aead Backend Cache Store Tree StoreRead Update StoreWrite StoreCommit.

(** [None] in the overlay is the nil marker of a buffered delete. *)
Record Fork := MkFork { f_rootBefore : Hash; f_versionBefore : N; f_overlay : gmap bytes (option bytes) }.

Record SealedFork := MkSealed {
  RootBefore : Hash; VersionBefore : N; RootAfter : Hash; VersionAfter : N; Ops : list Op }.

Definition Fork_RootBefore (f : Fork) : Hash * N := (f_rootBefore f, f_versionBefore f).
Definition Fork_Put (f : Fork) (key value : bytes) : Fork :=
  MkFork (f_rootBefore f) (f_versionBefore f) (<[key := Some value]> (f_overlay f)).
Definition Fork_Delete (f : Fork) (key : bytes) : Fork :=
  MkFork (f_rootBefore f) (f_versionBefore f) (<[key := None]> (f_overlay f)).
Definition PendingOps (f : Fork) : nat := size (f_overlay f).
Definition IsNoop (sf : SealedFork) : bool := bool_decide (RootAfter sf = RootBefore sf).

Section fork.
Context `{H : Hasher} `{G : GCM} `{E : Entropy} `{MR : MapRange} {B : Type} `{BK : Backend B}.
Abbreviation M := (M (Store B)).

Definition NewFork : M Fork := '(root, version) ← Root; mret (MkFork root version ∅).

Definition Fork_Get (f : Fork) (key : bytes) : M (option bytes) :=
  match f_overlay f !! key with
  | Some None => mret None
  | Some (Some v) => mret (Some v)
  | None => Get key
  end.

(** The write-set in key order. *)
Definition fork_ops (overlay : gmap bytes (option bytes)) : list Op :=
  (λ k, match overlay !! k with
        | Some (Some v) => Put k v
        | _ => Del k
        end) <$> merge_sort bytes_le (range_map overlay).*1.

Definition Seal (f : Fork) : M SealedFork :=
  '(rootNow, versionNow) ← Root;
  if decide (rootNow ≠ f_rootBefore f ∨ versionNow ≠ f_versionBefore f) then
    fail (errInvalid "store moved under the fork (version %d != %d)")
  else
    let ops := fork_ops (f_overlay f) in
    '(rootAfter, versionAfter) ← PreviewBatch ops;
    mret (MkSealed (f_rootBefore f) (f_versionBefore f) rootAfter versionAfter ops).
End fork.

Section fork_ok.
Context `{H : Hasher} `{G : GCM} `{E : Entropy} `{MR : MapRange}.
Context {B : Type} `{BK : Backend B} `{!BackendSpec B} `{!BackendReliable B}.
Context `{!GCMSpec} `{!EntropyLive}.
Implicit Types s : Store B.

(** The write-set does not depend on the map's iteration order. *)
Lemma fork_ops_canonical overlay :
  fork_ops overlay =
  (λ k, match overlay !! k with Some (Some v) => Put k v | _ => Del k end) <$>
  merge_sort bytes_le (map_to_list overlay).*1.
Proof.
  unfold fork_ops. f_equal. apply (Sorted_unique bytes_le).
  - apply Sorted_merge_sort. apply _.
  - apply Sorted_merge_sort. apply _.
  - rewrite !merge_sort_Permutation. apply fmap_Permutation, range_perm.
Qed.

(** No two keys of the list share a path. *)
Definition paths_apart (ck : bytes) (keys : list bytes) : Prop :=
  ∀ k k', k ∈ keys -> k' ∈ keys -> pathOf ck k = pathOf ck k' -> k = k'.

Lemma foldl_batch_notin ck ops (m : gmap Hash (option bytes)) p :
  (∀ op, op ∈ ops -> pathOf ck (op_Key op) ≠ p) ->
  foldl (λ m op, <[pathOf ck (op_Key op) := if op_Delete op then None else Some (op_Value op)]> m) m ops !! p
  = m !! p.
Proof.
  revert m. induction ops as [|op ops IH]; intros m Hp; [done|]. cbn.
  rewrite IH by (intros; apply Hp; by right). rewrite lookup_insert_ne; [done|]. apply Hp. left.
Qed.

(** When the paths of its keys differ, a batch is its operations. *)
Lemma batch_map_lookup ck ops op :
  NoDup (op_Key <$> ops) -> paths_apart ck (op_Key <$> ops) -> op ∈ ops ->
  batch_map ck ops !! pathOf ck (op_Key op) = Some (if op_Delete op then None else Some (op_Value op)).
Proof.
  unfold batch_map. generalize (∅ : gmap Hash (option bytes)).
  induction ops as [|op' ops IH]; intros m Hnd Hap Hin; [by apply not_elem_of_nil in Hin|].
  cbn in *. apply NoDup_cons in Hnd as [Hn Hnd].
  apply elem_of_cons in Hin as [->|Hin].
  - rewrite foldl_batch_notin; [by rewrite lookup_insert_eq|].
    intros op Hop Ep. apply Hap in Ep; [|right; by apply list_elem_of_fmap_2|left].
    apply Hn. rewrite <-Ep. by apply list_elem_of_fmap_2.
  - apply IH; [done| |done]. intros k k' Hk Hk'. apply Hap; by right.
Qed.

Lemma fork_ops_keys overlay : op_Key <$> fork_ops overlay ≡ₚ (map_to_list overlay).*1.
Proof.
  rewrite fork_ops_canonical, <-list_fmap_compose.
  rewrite <-(merge_sort_Permutation bytes_le (map_to_list overlay).*1) at 2.
  apply reflexive_eq. rewrite <-list_fmap_id. apply list_fmap_ext. intros i k _. cbn.
  by destruct (overlay !! k) as [[]|].
Qed.

(** Reading through the fork is reading the state the sealed batch leads to. *)
Lemma Fork_Get_ok s ot st f key :
  repr s ot st -> paths_apart (s_ck s) (key :: (map_to_list (f_overlay f)).*1) ->
  ∃ s', Fork_Get f key s =
    (Ok (upd_state (batch_map (s_ck s) (fork_ops (f_overlay f))) st !! pathOf (s_ck s) key), s') ∧ reads s s'.
Proof.
  intros Hr Hap. unfold Fork_Get. rewrite lookup_upd_state.
  assert (NoDup (op_Key <$> fork_ops (f_overlay f))) as Hnd
    by (rewrite fork_ops_keys; apply NoDup_fst_map_to_list).
  assert (paths_apart (s_ck s) (op_Key <$> fork_ops (f_overlay f))) as Hap'.
  { intros k k' Hk Hk'. rewrite fork_ops_keys in Hk, Hk'. apply Hap; by right. }
  destruct (f_overlay f !! key) as [o|] eqn:Eo.
  - set (op := match o with Some v => Put key v | None => Del key end).
    assert (op ∈ fork_ops (f_overlay f)) as Hop.
    { rewrite fork_ops_canonical. apply list_elem_of_fmap. exists key. rewrite Eo. split; [by destruct o|].
      rewrite merge_sort_Permutation. apply (elem_of_fst _ o). by apply elem_of_map_to_list. }
    assert (op_Key op = key) as Ek by (by destruct o).
    replace (pathOf (s_ck s) key) with (pathOf (s_ck s) (op_Key op)) by by rewrite Ek.
    rewrite (batch_map_lookup _ _ op) by done.
    exists s. split; [by destruct o|apply reads_refl].
  - unfold batch_map. rewrite (foldl_batch_notin (s_ck s) _ ∅), lookup_empty; [by eapply Get_ok|].
    intros op Hop Ep. assert (op_Key op ∈ (map_to_list (f_overlay f)).*1) as Hk.
    { rewrite <-fork_ops_keys. by apply list_elem_of_fmap_2. }
    apply Hap in Ep; [|by right|left]. rewrite Ep in Hk.
    apply list_elem_of_fmap in Hk as ([k' o] & -> & Hin%elem_of_map_to_list). cbn in Eo. congruence.
Qed.

(** The state after the commit of the overlay: the batch is committed only when it
    changes something. *)
Definition fork_state s (st : gmap Hash bytes) (f : Fork) : gmap Hash bytes :=
  if decide (upd_state (batch_map (s_ck s) (fork_ops (f_overlay f))) st = st) then st
  else batch_state s st (fork_ops (f_overlay f)).

Lemma fork_state_repr s ot st f s2 r s3 :
  repr s ot st -> batch_pre s st (fork_ops (f_overlay f)) -> reads s s2 ->
  PutBatch (fork_ops (f_overlay f)) s2 = (Ok r, s3) -> ∃ ot', repr s3 ot' (fork_state s st f).
Proof.
  intros Hr Hp R E3. destruct (batch_reads s s2 st (fork_ops (f_overlay f)) R) as [Es Hpre].
  destruct (reads_fields _ _ R) as (Ek & _). unfold fork_state. rewrite <-Es, <-Ek.
  destruct (PutBatch_ok s2 ot st _ (reads_repr _ _ _ _ R Hr) (Hpre Hp)) as [(Eu & s' & Ep & R2)|(Eu & otf & s' & Ep & Hc)];
    rewrite Ep in E3; injection E3 as _ <-.
  - rewrite decide_True by done. exists ot. by eapply reads_repr, reads_repr.
  - rewrite decide_False by done. exists otf. apply Hc.
Qed.

(** A read of any other key than the chain's head sees that state. *)
Lemma Fork_Get_state s ot st f key :
  repr s ot st -> paths_apart (s_ck s) (HistoryKey :: key :: (map_to_list (f_overlay f)).*1) -> key ≠ HistoryKey ->
  ∃ s', Fork_Get f key s = (Ok (fork_state s st f !! pathOf (s_ck s) key), s') ∧ reads s s'.
Proof.
  intros Hr Hap Hne. destruct (Fork_Get_ok s ot st f key Hr) as (s' & Eg & R).
  { intros k k' Hk Hk'. apply Hap; by right. }
  exists s'. split; [|done]. rewrite Eg. do 2 f_equal. unfold fork_state, batch_state.
  case_decide as Eu; [by rewrite Eu|]. destruct (s_history s); [|done]. rewrite lookup_insert_ne; [done|].
  intros Ep. apply Hne. symmetry. apply Hap; [left|right; left|exact Ep].
Qed.

(** The reserved key is never buffered in a batch the store accepts. *)
Lemma Fork_Get_head s ot st f :
  repr s ot st -> batch_pre s st (fork_ops (f_overlay f)) ->
  ∃ s', Fork_Get f HistoryKey s = (Ok (st !! history_path (s_ck s)), s') ∧ reads s s'.
Proof.
  intros Hr Hp. unfold Fork_Get. destruct (f_overlay f !! HistoryKey) as [o|] eqn:Eo; [|by eapply Get_ok]. exfalso.
  assert (HistoryKey ∈ op_Key <$> fork_ops (f_overlay f)) as (op & Ek & Hop)%list_elem_of_fmap.
  { rewrite fork_ops_keys. apply (elem_of_fst _ o). by apply elem_of_map_to_list. }
  pose proof (bp_keys _ _ _ Hp) as Hk. rewrite Forall_forall in Hk. apply (Hk op Hop). unfold reserved. rewrite <-Ek.
  by eexists.
Qed.

Lemma Seal_ok s ot st f :
  repr s ot st -> f_rootBefore f = s_root s -> f_versionBefore f = s_version s ->
  batch_pre s st (fork_ops (f_overlay f)) ->
  ∃ sf s', Seal f s = (Ok sf, s') ∧ reads s s' ∧ Ops sf = fork_ops (f_overlay f) ∧
    RootBefore sf = s_root s ∧ VersionBefore sf = s_version s ∧
    ∀ s2, reads s s2 -> (PutBatch (Ops sf) s2).1 = Ok (RootAfter sf, VersionAfter sf).
Proof.
  intros Hr Ef1 Ef2 Hp. unfold Seal, Root. rewrite bind_gets, decide_False by (rewrite Ef1, Ef2; tauto).
  destruct (PreviewBatch_ok s ot st _ Hr Hp) as (s' & E1 & R1).
  assert (∃ r v, (PutBatch (fork_ops (f_overlay f)) s).1 = Ok (r, v)) as (r & v & Erv).
  { destruct (PutBatch_ok s ot st _ Hr Hp) as [(_ & s2 & -> & _)|(_ & otf & s2 & -> & _)]; cbn; eauto. }
  rewrite Erv in E1. rewrite (bind_ok _ _ _ _ _ E1). do 2 eexists. split_and!; [done|done..|].
  intros s2 R2. cbn. by rewrite (PutBatch_reply_reads s s2 ot st).
Qed.

Lemma Seal_moved s f :
  s_root s ≠ f_rootBefore f ∨ s_version s ≠ f_versionBefore f ->
  Seal f s = (Err (errInvalid "store moved under the fork (version %d != %d)"), s).
Proof. intros Hm. unfold Seal, Root. rewrite bind_gets. by rewrite decide_True. Qed.
End fork_ok.
