(* ===== verification/Prune.v ===== *)
(** Retention: [Prune] and [RetainRecent] ([ledger/store.go]).

    A [timeline] is the set of versions that are still readable, each with its
    tree and state; its invariant ties the stale marks in storage to it: a record
    marked stale since version [w] is used by no readable version from [w] on.
    Commits extend the timeline; pruning to [b] terminates, deletes the marked
    records and the older root records, and keeps every version from [b] on. *)

From S2P Require Import Prelude Errors Sha256 Hashing Node Smt Aead Backend Cache Store Tree StoreRead Update StoreWrite Records StoreCommit.

(** * Scan-and-delete loops *)

Lemma elem_of_take_inv {A} (x : A) n (l : list A) : x ∈ take n l -> x ∈ l.
Proof. intros Hx. rewrite <-(take_drop n l). apply elem_of_app. by left. Qed.

Lemma apply_dels (ks : list bytes) (C : gmap bytes bytes) (k : bytes) :
  apply_batch (bdel <$> ks) C !! k = if decide (k ∈ ks) then None else C !! k.
Proof.
  case_decide as Hk.
  - apply apply_batch_in.
    + exists (bdel k). split; [by apply list_elem_of_fmap_2|done].
    + by intros op (k' & -> & _)%list_elem_of_fmap _.
  - apply apply_batch_notin. intros op (k' & -> & Hin)%list_elem_of_fmap. cbn. by intros ->.
Qed.

Section loop.
Context `{H : Hasher} `{G : GCM} `{E : Entropy} `{MR : MapRange}.
Context {B : Type} `{BK : Backend B} `{!BackendSpec B} `{!BackendReliable B}.
Implicit Types s : Store B.

Lemma backend_scan_ok lo hi n s :
  ∃ b', backend (b_scan lo hi n) s = (Ok (scan_spec (contents (s_backend s)) lo hi n), set_backend b' s) ∧
    contents b' = contents (s_backend s).
Proof.
  destruct (scan_ok lo hi n (s_backend s)) as (b' & Es & Ec). exists b'. unfold backend. by rewrite Es.
Qed.

Lemma backend_write_ok bs s :
  ∃ b', backend (b_write bs) s = (Ok tt, set_backend b' s) ∧
    contents b' = apply_batch bs (contents (s_backend s)).
Proof.
  destruct (write_ok bs (s_backend s)) as (b' & Es & Ec). exists b'. unfold backend. by rewrite Es.
Qed.

Variables (start stop : bytes).

Definition matches (C : gmap bytes bytes) : list bytes := filter (in_range start stop) (sorted_keys C).

Lemma elem_of_matches C k : k ∈ matches C ↔ is_Some (C !! k) ∧ in_range start stop k.
Proof. unfold matches. rewrite list_elem_of_filter, elem_of_sorted_keys. tauto. Qed.

Lemma NoDup_matches C : NoDup (matches C).
Proof. apply NoDup_filter, NoDup_sorted_keys. Qed.

Variables (ops : KV -> outcome (list BatchOp)) (D : bytes -> list bytes).

(** Every entry of the range is turned into the deletion of [D k], which hits no
    other entry of the range. *)
Definition entries_ok (C : gmap bytes bytes) : Prop :=
  ∀ k, k ∈ matches C ->
    (∀ v, ops (MkKV k v) = Ok (bdel <$> D k)) ∧ k ∈ D k ∧
    ∀ k', k' ∈ D k -> in_range start stop k' -> k' = k.

(** What the loop leaves: all [D k] of the range gone, the rest untouched. *)
Definition swept (C C' : gmap bytes bytes) : Prop :=
  (∀ e k, e ∈ matches C -> k ∈ D e -> C' !! k = None) ∧
  (∀ k, (∀ e, e ∈ matches C -> k ∉ D e) -> C' !! k = C !! k).

Lemma collect_ops (l : list bytes) (C : gmap bytes bytes) s :
  entries_ok C -> l ⊆ matches C ->
  ∀ b, foldM (λ b e, o ← lift (ops e); mret (b ++ o)) b ((λ k, MkKV k (default [] (C !! k))) <$> l) s
    = (Ok (b ++ (bdel <$> concat (D <$> l))), s).
Proof.
  intros Hok. induction l as [|k l IH]; intros Hl b; cbn [foldM fmap list_fmap concat];
    [by rewrite app_nil_r|].
  destruct (Hok k) as (Ho & _); [apply Hl; left|].
  assert ((o ← lift (ops (MkKV k (default [] (C !! k)))); mret (b ++ o)) s = (Ok (b ++ (bdel <$> D k)), s)) as Es
    by (unfold mbind, M_bind, lift; by rewrite Ho).
  rewrite (bind_ok _ _ _ _ _ Es).
  assert (l ⊆ matches C) as Hl' by (intros x Hx; apply Hl; by right).
  rewrite (IH Hl'). by rewrite fmap_app, app_assoc.
Qed.

Lemma swept_step C n :
  entries_ok C ->
  let C1 := apply_batch (bdel <$> concat (D <$> take n (matches C))) C in
  entries_ok C1 ∧ matches C1 ≡ₚ drop n (matches C) ∧ ∀ C', swept C1 C' -> swept C C'.
Proof.
  intros Hok C1.
  assert (∀ k, C1 !! k = if decide (k ∈ concat (D <$> take n (matches C))) then None else C !! k) as HC1
    by (intros k; apply apply_dels).
  assert (∀ k, k ∈ concat (D <$> take n (matches C)) ↔ ∃ e, e ∈ take n (matches C) ∧ k ∈ D e) as Hcat.
  { intros k. rewrite elem_of_concat. split.
    - intros (x & Hk & (e & -> & He)%list_elem_of_fmap). eauto.
    - intros (e & He & Hk). exists (D e). split; [done|]. by apply list_elem_of_fmap_2. }
  assert (∀ e, e ∈ take n (matches C) -> e ∈ matches C) as Htk by (intros e; apply elem_of_take_inv).
  assert (∀ k, k ∈ matches C1 ↔ k ∈ matches C ∧ k ∉ take n (matches C)) as Hm.
  { intros k. rewrite !elem_of_matches, HC1. case_decide as Hk.
    - split; [intros [[? ?] _]; done|]. intros [[Hs Hr] Hn]. exfalso.
      apply Hcat in Hk as (e & He & Hke). destruct (Hok e (Htk e He)) as (_ & _ & Hu).
      by rewrite (Hu k Hke Hr) in Hn.
    - split; [|tauto]. intros [Hs Hr]. split; [done|]. intros Hin. apply Hk, Hcat.
      exists k. split; [done|]. by destruct (Hok k (Htk k Hin)) as (_ & ? & _). }
  split_and!.
  - intros k Hk. apply Hok. by apply Hm.
  - apply NoDup_Permutation; [apply NoDup_matches| |].
    + eapply sublist_NoDup; [apply NoDup_matches|apply sublist_drop].
    + intros k. rewrite Hm. pose proof (NoDup_matches C) as Hnd. rewrite <-(take_drop n (matches C)) in Hnd.
      apply NoDup_app in Hnd as (_ & Hd & _). rewrite <-(take_drop n (matches C)) at 1. rewrite elem_of_app.
      split; [tauto|]. intros Hk. split; [by right|]. intros Hk'. by apply (Hd k).
  - intros C' [Hgone Hrest].
    assert (∀ k, C1 !! k = None -> C' !! k = None) as Hmono.
    { intros k Hk. destruct (decide (Exists (λ e, k ∈ D e) (matches C1))) as [Hx|Hn].
      - apply Exists_exists in Hx as (e & He & Hke). by eapply Hgone.
      - rewrite Hrest; [done|]. intros e He Hke. apply Hn, Exists_exists. eauto. }
    split.
    + intros e k He Hke. destruct (decide (e ∈ take n (matches C))) as [Ht|Ht].
      * apply Hmono. rewrite HC1, decide_True; [done|]. apply Hcat. eauto.
      * apply (Hgone e); [|done]. by apply Hm.
    + intros k Hk. rewrite Hrest.
      * rewrite HC1, decide_False; [done|]. intros (e & He & Hke)%Hcat. by apply (Hk e (Htk e He)).
      * intros e [He _]%Hm. by apply Hk.
Qed.

Lemma swept_none C : matches C = [] -> swept C C.
Proof. intros Hm. split; [|done]. rewrite Hm. by intros e k ?%not_elem_of_nil. Qed.

Lemma prune_loop_ok rounds count s :
  entries_ok (contents (s_backend s)) -> length (matches (contents (s_backend s))) < rounds ->
  ∃ s', prune_loop rounds start stop ops count s =
          (Ok (count + length (matches (contents (s_backend s)))), s') ∧
    swept (contents (s_backend s)) (contents (s_backend s')) ∧ s' = set_backend (s_backend s') s.
Proof.
  revert count s. induction rounds as [|rounds IH]; intros count s Hok Hr; [lia|].
  set (C := contents (s_backend s)) in *. cbn [prune_loop].
  destruct (backend_scan_ok start stop pruneChunk s) as (b1 & Es & Ec1). rewrite (bind_ok _ _ _ _ _ Es). clear Es.
  unfold scan_spec, limited. rewrite decide_False by done. fold C. fold (matches C).
  set (n := N.to_nat pruneChunk). assert (0 < n) as Hn by (unfold n, pruneChunk; lia).
  destruct (decide (take n (matches C) = [])) as [Et|Et].
  { rewrite Et. cbn [fmap list_fmap]. assert (matches C = []) as Em.
    { destruct (matches C); [done|]. destruct n; [lia|done]. }
    rewrite Em, Nat.add_0_r. exists (set_backend b1 s). cbn. split_and!; [done| |done].
    rewrite Ec1. fold C. by apply swept_none. }
  assert (∃ e es, (λ k, MkKV k (default [] (C !! k))) <$> take n (matches C) = e :: es) as (e & es & Ee).
  { destruct (take n (matches C)); [done|]. cbn. eauto. }
  assert (length (e :: es) = length (take n (matches C))) as Hlen by (rewrite <-Ee; by rewrite length_fmap).
  rewrite Ee. cbv iota. rewrite <-Ee in Hlen |- *.
  rewrite (bind_ok _ _ _ _ _ (collect_ops (take n (matches C)) C (set_backend b1 s) Hok
    ltac:(intros x; apply elem_of_take_inv) [])). cbn [app].
  destruct (swept_step C n Hok) as (Hok1 & Hm1 & Hsw). set (C1 := apply_batch _ C) in *.
  destruct (backend_write_ok (bdel <$> concat (D <$> take n (matches C))) (set_backend b1 s)) as (b2 & Ew & Ec2).
  rewrite (bind_ok _ _ _ _ _ Ew). cbn [set_backend s_backend] in Ec2. rewrite Ec1 in Ec2. fold C in Ec2. fold C1 in Ec2.
  set (s2 := set_backend b2 (set_backend b1 s)). rewrite Hlen.
  apply Permutation_length in Hm1 as Hl1. rewrite length_drop in Hl1.
  case_decide as Hfull.
  - destruct (IH (count + length (take n (matches C))) s2) as (s' & E3 & Hs3 & F3).
    + unfold s2. cbn. by rewrite Ec2.
    + unfold s2. cbn. rewrite Ec2, Hl1. rewrite length_take in Hfull. lia.
    + exists s'. rewrite E3. unfold s2 in *. cbn in Hs3 |- *. rewrite Ec2 in *. split_and!.
      * rewrite Hl1. do 2 f_equal. rewrite length_take in *. lia.
      * by apply Hsw.
      * rewrite F3. done.
  - exists s2. unfold s2. cbn. rewrite Ec2. rewrite length_take in *. split_and!; [|apply Hsw|done].
    + replace (n `min` length (matches C)) with (length (matches C)) by lia. done.
    + apply swept_none, Permutation_nil. rewrite Hm1. by rewrite drop_ge by lia.
Qed.
End loop.

(** * Records in use *)

(** [x] is a node or value record the tree refers to. *)
Definition uses (ot : option tree) (x : bytes) : Prop :=
  (∃ q t, tree_at ot q = Some t ∧ x = nodeRecordKey (NodeKey (t_version t) q)) ∨
  (∃ l, l ∈ oleaves ot ∧ x = valueRecordKey (l_vh l) (l_valueVersion l)).

(** A well-formed target of a stale mark of a store at version [cur]. *)
Definition target (cur : N) (x : bytes) : Prop :=
  (∃ nk, nk_wf nk ∧ (nk_version nk ≤ cur)%N ∧ x = nodeRecordKey nk) ∨
  (∃ vh v, is_u64 v ∧ (v ≤ cur)%N ∧ x = valueRecordKey vh v).

Lemma target_mono cur cur' x : (cur ≤ cur')%N -> target cur x -> target cur' x.
Proof.
  intros Hle [(nk & Hw & Hv & ->)|(vh & v & Hu & Hv & ->)].
  - left. exists nk. split_and!; [done|lia|done].
  - right. exists vh, v. split_and!; [done|lia|done].
Qed.

Lemma target_head cur x : target cur x -> ∃ y, x = recNode :: y ∨ x = recValue :: y.
Proof. intros [(nk & _ & _ & ->)|(vh & v & _ & _ & ->)]; eexists; [by left|by right]. Qed.

(** * Ranges *)

Lemma in_range_head (c : byte) (stop k : bytes) :
  in_range [c] stop k -> (∃ rest, stop = c :: rest) ∨ stop = [u8 (bn c + 1)] -> (bn c < 255)%N ->
  ∃ rest, k = c :: rest.
Proof.
  intros [Hle Hlt] Hstop Hc. destruct k as [|x k].
  { unfold bytes_le in Hle. done. }
  assert (bn c ≤ bn x)%N as H1.
  { unfold bytes_le in Hle. cbn in Hle. destruct (N.compare_spec (bn c) (bn x)); [lia|lia|done]. }
  assert (bn x ≤ bn c)%N as H2.
  { destruct Hlt as [->|Hlt]; [destruct Hstop as [[? ?]|?]; done|]. unfold bytes_lt in Hlt.
    destruct Hstop as [[rest ->]| ->]; cbn in Hlt.
    - destruct (N.compare_spec (bn x) (bn c)); [lia|lia|done].
    - rewrite bn_u8_small in Hlt by lia.
      destruct (N.compare_spec (bn x) (bn c + 1)) as [Ex|Ex|Ex]; [|lia|done]. by destruct k. }
  exists k. f_equal. apply (inj bn). lia.
Qed.

Lemma bytes_lt_be (c : byte) w b rest :
  is_u64 w -> is_u64 b -> bytes_lt (c :: be 8 w ++ rest) (c :: be 8 b) ↔ (w < b)%N.
Proof.
  intros Hw Hb. unfold bytes_lt. cbn [bytes_cmp]. rewrite N.compare_refl.
  rewrite <-(app_nil_r (be 8 b)). destruct (decide (w = b)) as [->|Hne].
  - rewrite bytes_cmp_app_l. split; [by destruct rest|lia].
  - rewrite bytes_cmp_app_eqlen; [|by rewrite !length_be|intros Eb; by apply Hne, be8_inj].
    rewrite be_cmp by done. apply N.compare_lt_iff.
Qed.

Lemma bytes_le_single (c : byte) rest : bytes_le [c] (c :: rest).
Proof. unfold bytes_le. cbn. rewrite N.compare_refl. by destruct rest. Qed.

Lemma stale_range b w x :
  is_u64 w -> is_u64 b -> in_range [recStale] (stale_stop b) (staleRecordKey w x) ↔ (w ≤ b)%N.
Proof.
  intros Hw Hb. unfold in_range, stale_stop, staleRecordKey. case_decide as Hm.
  - split; [intros _; unfold is_u64 in Hw; lia|]. intros _. split; [apply bytes_le_single|by right].
  - assert (is_u64 (b + 1)) by (unfold is_u64 in *; lia). rewrite bytes_lt_be by done. split.
    + intros [_ [?|?]]; [done|lia].
    + intros Hle. split; [apply bytes_le_single|right; lia].
Qed.

Lemma root_range b v :
  is_u64 v -> is_u64 b -> in_range [recRoot] (recRoot :: be 8 b) (rootRecordKey v) ↔ (v < b)%N.
Proof.
  intros Hv Hb. unfold in_range, rootRecordKey. rewrite <-(app_nil_r (be 8 v)), bytes_lt_be by done.
  split; [by intros [_ [?|?]]|]. intros Hlt. split; [apply bytes_le_single|by right].
Qed.

(** * Timelines *)

Section timeline.
Context `{H : Hasher} `{G : GCM} `{E : Entropy} `{MR : MapRange}.
Context {B : Type} `{BK : Backend B} `{!BackendSpec B} `{!BackendReliable B}.
Context `{!GCMSpec} `{!EntropyLive}.
Implicit Types s : Store B.

Abbreviation history := (gmap N (option tree * gmap Hash bytes)).

Record timeline s (hist : history) : Prop := {
  tl_views : ∀ v ot st, hist !! v = Some (ot, st) ->
    (v ≤ s_version s)%N ∧ view (contents (s_backend s)) (s_ck s) (s_cipher s) v ot st;
  tl_marks : ∀ k, is_Some (contents (s_backend s) !! (recStale :: k)) ->
    ∃ w x, recStale :: k = staleRecordKey w x ∧ (w ≤ s_version s)%N ∧ target (s_version s) x;
  tl_safe : ∀ w x v ot st, is_u64 w -> is_Some (contents (s_backend s) !! staleRecordKey w x) ->
    hist !! v = Some (ot, st) -> (w ≤ v)%N -> ¬ uses ot x
}.

Lemma uses_target s v ot st x :
  view (contents (s_backend s)) (s_ck s) (s_cipher s) v ot st -> is_u64 v -> uses ot x -> target v x.
Proof.
  intros V Hv [(q & t & Ht & ->)|(l & Hl & ->)].
  - left. exists (NodeKey (t_version t) q). split_and!; [|by eapply v_le|done].
    eapply tree_key_wf; [|exact Ht]. apply V.
  - right. exists (l_vh l), (l_valueVersion l). split_and!; [|by eapply v_vle|done].
    eapply leaf_u64; [|exact Hl]. apply V.
Qed.

(** A retired record is not used by the new tree. *)
Lemma retired_unused s s' ot otf st stf x :
  repr s ot st -> committed s s' ot otf stf -> retired (s_version s + 1) [] ot otf x ->
  ¬ uses otf x ∧ target (s_version s) x.
Proof.
  intros Hr Hc Hret. pose proof (r_view _ _ _ Hr) as V. pose proof (r_view _ _ _ (cm_repr _ _ _ _ _ Hc)) as V'.
  destruct Hret as [(q & t & Ht & Hv & -> & Hn)|(l & Hl & Hv & -> & Hn)].
  - split; [|by eapply uses_target; [done|apply Hr|left; exists q, t]].
    intros [(q' & t' & Ht' & Ek)|(l' & _ & Ek)]; [|done].
    apply nodeRecordKey_inj in Ek; [|eapply tree_key_wf; [|done]; apply V|eapply tree_key_wf; [|done]; apply V'].
    cbn in Ek. injection Ek as Ev <-. by apply (Hn t').
  - split; [|by eapply uses_target; [done|apply Hr|right; exists l]].
    intros [(q' & t' & Ht' & Ek)|(l' & Hl' & Ek)]; [done|].
    apply valueRecordKey_inj in Ek as [Evh Evv];
      [|eapply leaf_u64; [|done]; apply V|eapply leaf_u64; [|done]; apply V'].
    apply (Hn l'); [done| |done]. symmetry. by eapply cm_vh.
Qed.

(** What the new tree uses, the old tree used or this commit wrote. *)
Lemma uses_committed s s' ot otf st stf x :
  repr s ot st -> committed s s' ot otf stf -> uses otf x -> uses ot x ∨ ¬ target (s_version s) x.
Proof.
  intros Hr Hc Hu. pose proof (r_view _ _ _ (cm_repr _ _ _ _ _ Hc)) as V'.
  destruct Hu as [(q & t & Ht & ->)|(l & Hl & ->)].
  - destruct (cm_keep _ _ _ _ _ Hc q t Ht) as [Ev|(t0 & Ht0 & Ev)].
    + right. intros [(nk & Hw & Hle & Ek)|(vh & v & _ & _ & Ek)]; [|done].
      apply nodeRecordKey_inj in Ek; [|eapply tree_key_wf; [|done]; apply V'|done].
      rewrite <-Ek in Hle. cbn in Hle. lia.
    + left. left. exists q, t0. by rewrite Ev.
  - destruct (cm_old _ _ _ _ _ Hc l Hl) as [Ev|Hl0]; [|left; right; by exists l].
    right. intros [(nk & _ & _ & Ek)|(vh & v & Hu & Hle & Ek)]; [done|].
    apply valueRecordKey_inj in Ek as [_ Evv]; [|eapply leaf_u64; [|done]; apply V'|done]. lia.
Qed.

Lemma stale_key_inv w x w' x' :
  (w ≤ max64 - 1)%N -> is_u64 w' -> staleRecordKey w x = staleRecordKey w' x' -> w = w' ∧ x = x'.
Proof. intros Hw Hw'. apply staleRecordKey_inj; [unfold is_u64, max64 in *; lia|done]. Qed.

(** Commits extend the timeline. *)
Lemma timeline_commit s s' hist ot otf st stf :
  repr s ot st -> timeline s hist -> hist !! s_version s = Some (ot, st) ->
  committed s s' ot otf stf -> timeline s' (<[(s_version s + 1)%N := (otf, stf)]> hist).
Proof.
  intros Hr [T1 T2 T3] Hcur Hc. set (nv := (s_version s + 1)%N).
  pose proof (cm_version _ _ _ _ _ Hc) as Ev. pose proof (r_u64 _ _ _ Hr) as Hu.
  assert (is_u64 nv) as Hunv by (unfold nv; rewrite <-Ev; apply (r_u64 _ _ _ (cm_repr _ _ _ _ _ Hc))).
  split.
  - intros v o stv. rewrite lookup_insert, Ev. case_decide as Hv.
    + intros [= <- <-]. subst v. split; [done|]. pose proof (r_view _ _ _ (cm_repr _ _ _ _ _ Hc)) as V.
      by rewrite Ev in V.
    + intros Hh. destruct (T1 _ _ _ Hh) as [Hle V]. split; [unfold nv; lia|].
      rewrite (cm_ck _ _ _ _ _ Hc), (cm_cipher _ _ _ _ _ Hc). by eapply cm_views.
  - intros k Hk.
    assert (is_Some (contents (s_backend s) !! (recStale :: k)) ∨
            ∃ x, recStale :: k = staleRecordKey nv x ∧ retired nv [] ot otf x) as [Hold|(x & Ek & Hx)].
    { destruct (cm_stale_only _ _ _ _ _ Hc k Hk) as [?|(x & ? & ?)]; eauto. }
    + destruct (T2 k Hold) as (w & x & Ek & Hw & Ht). exists w, x.
      rewrite Ev. split_and!; [done|lia|]. eapply target_mono; [|done]. lia.
    + exists nv, x. rewrite Ev. split_and!; [done|done|]. eapply target_mono;
        [|by eapply retired_unused]. lia.
  - intros w x v o stv Hw Hs. apply (cm_stale _ _ _ _ _ Hc) in Hs; [|done].
    rewrite lookup_insert. case_decide as Hv.
    + intros [= <- <-] Hle Huse. subst v. destruct Hs as [Hs|[-> Hret]].
      * destruct (T2 _ Hs) as (w' & x' & Ek & Hw' & Ht).
        apply staleRecordKey_inj in Ek as [<- <-]; [|done|unfold is_u64 in *; lia].
        destruct (uses_committed _ _ _ _ _ _ _ Hr Hc Huse) as [Huse'|?]; [|done].
        by eapply (T3 w x (s_version s)).
      * by destruct (retired_unused _ _ _ _ _ _ _ Hr Hc Hret).
    + intros Hh Hle. destruct Hs as [Hs|[-> _]]; [by eapply T3|].
      destruct (T1 _ _ _ Hh) as [Hle' _]. unfold nv in *. lia.
Qed.

(** ** Pruning *)

Lemma view_keep C C' ck cipher v ot st :
  view C ck cipher v ot st -> C' !! rootRecordKey v = C !! rootRecordKey v ->
  (∀ x, uses ot x -> C' !! x = C !! x) -> view C' ck cipher v ot st.
Proof.
  intros [V1 V2 V3 V4 V5 V6 V7 V8] Hroot Huse. split; try done.
  - congruence.
  - intros q t Ht. rewrite Huse; [by apply V6|]. left. by exists q, t.
  - intros l Hl. destruct (V7 l Hl) as (pt & ? & ? & rec & Hrec & ?). exists pt. split_and!; [done..|].
    exists rec. split; [|done]. rewrite Huse; [done|]. right. by exists l.
Qed.

Definition stale_dels (k : bytes) : list bytes := [drop 9 k; k].

Lemma drop_staleRecordKey w x : drop 9 (staleRecordKey w x) = x.
Proof. unfold staleRecordKey. cbn [drop]. apply drop_app_ge_len, length_be. Qed.

Section pruning.
Variables (s : Store B) (hist : history) (b : N).
Hypothesis Htl : timeline s hist.
Hypothesis Hu : is_u64 (s_version s).
Hypothesis Hb : (b ≤ s_version s)%N.

Let C := contents (s_backend s).
Let Hub : is_u64 b.
Proof. unfold is_u64 in *. lia. Qed.

(** The stale entries a prune to [b] visits. *)
Lemma stale_matches k :
  k ∈ matches [recStale] (stale_stop b) C ↔
  ∃ w x, k = staleRecordKey w x ∧ is_u64 w ∧ (w ≤ b)%N ∧ target (s_version s) x ∧ is_Some (C !! k).
Proof.
  rewrite elem_of_matches. split.
  - intros [Hs Hr]. destruct (in_range_head recStale (stale_stop b) k Hr) as [rest ->]; [|done|].
    { unfold stale_stop. case_decide; [by right|left; by eexists]. }
    destruct (tl_marks _ _ Htl rest Hs) as (w & x & Ek & Hw & Ht). rewrite Ek in *.
    assert (is_u64 w) as Huw by (unfold is_u64 in *; lia).
    exists w, x. apply stale_range in Hr; [|done|exact Hub]. done.
  - intros (w & x & -> & Huw & Hw & Ht & Hs). split; [done|]. apply stale_range; [done|exact Hub|done].
Qed.

Lemma stale_entries_ok : entries_ok [recStale] (stale_stop b) stale_entry_ops stale_dels C.
Proof.
  intros k Hk. apply stale_matches in Hk as (w & x & -> & Huw & Hw & Ht & Hs). split_and!.
  - intros v. unfold stale_entry_ops. cbn [kv_Key]. rewrite decide_False; [done|].
    apply target_head in Ht as [y Hy]. unfold staleRecordKey. cbn [length].
    rewrite length_app, length_be. destruct Hy as [-> | ->]; cbn; lia.
  - right. left.
  - intros k' [->| ->%list_elem_of_singleton]%elem_of_cons Hr; [|done]. exfalso.
    rewrite drop_staleRecordKey in Hr. apply in_range_head in Hr as [rest ->]; [| |done].
    + apply target_head in Ht as [y [?|?]]; done.
    + unfold stale_stop. case_decide; [by right|left; by eexists].
Qed.

(** After the stale pass, exactly the marked records are gone. *)
Lemma stale_swept C1 x :
  swept [recStale] (stale_stop b) stale_dels C C1 ->
  (∀ w, is_u64 w -> (w ≤ b)%N -> is_Some (C !! staleRecordKey w x) -> C1 !! x = None) ∧
  (∀ w, is_u64 w -> (w ≤ b)%N -> C1 !! staleRecordKey w x = None) ∧
  ((∀ w, is_u64 w -> (w ≤ b)%N -> C !! staleRecordKey w x = None) ->
   (∀ w y, x = staleRecordKey w y -> is_u64 w -> (b < w)%N) -> C1 !! x = C !! x).
Proof.
  intros [Hgone Hrest].
  assert (∀ w, is_u64 w -> (w ≤ b)%N -> is_Some (C !! staleRecordKey w x) ->
    staleRecordKey w x ∈ matches [recStale] (stale_stop b) C) as Hin.
  { intros w Hw Hle Hs. apply elem_of_matches. split; [done|]. by apply stale_range. }
  split_and!.
  - intros w Hw Hle Hs. apply (Hgone (staleRecordKey w x)); [by apply Hin|].
    unfold stale_dels. rewrite drop_staleRecordKey. left.
  - intros w Hw Hle. destruct (C !! staleRecordKey w x) eqn:Es.
    + apply (Hgone (staleRecordKey w x)); [apply Hin; [done|done|by eexists]|]. right. left.
    + rewrite Hrest; [done|]. intros e He. apply stale_matches in He as (w' & y & -> & Huw & Hw' & Ht & Hs).
      unfold stale_dels. rewrite drop_staleRecordKey. intros [Ek|Ek%list_elem_of_singleton]%elem_of_cons.
      * apply target_head in Ht as [z [->| ->]]; done.
      * rewrite <-Ek, Es in Hs. by destruct Hs.
  - intros Hno Hother. apply Hrest. intros e He.
    apply stale_matches in He as (w & y & -> & Huw & Hw & Ht & Hs).
    unfold stale_dels. rewrite drop_staleRecordKey. intros [->|Ek%list_elem_of_singleton]%elem_of_cons.
    + rewrite Hno in Hs by done. by destruct Hs.
    + specialize (Hother _ _ Ek Huw). lia.
Qed.

Lemma root_entries_ok C1 :
  entries_ok [recRoot] (recRoot :: be 8 b) root_entry_ops (λ k, [k]) C1.
Proof.
  intros k Hk. split_and!; [done|left|]. by intros k' ->%list_elem_of_singleton.
Qed.

Lemma root_swept C1 C2 k :
  swept [recRoot] (recRoot :: be 8 b) (λ k, [k]) C1 C2 ->
  (∀ v, k = rootRecordKey v -> is_u64 v -> (v < b)%N -> C2 !! k = None) ∧
  ((∀ rest, k ≠ recRoot :: rest) ∨ (∃ v, k = rootRecordKey v ∧ is_u64 v ∧ (b ≤ v)%N) -> C2 !! k = C1 !! k) ∧
  (C1 !! k = None -> C2 !! k = None).
Proof.
  intros [Hgone Hrest]. split_and!.
  - intros v -> Hv Hlt. destruct (C1 !! rootRecordKey v) eqn:Er.
    + apply (Hgone (rootRecordKey v)); [|left]. apply elem_of_matches. split; [by eexists|]. by apply root_range.
    + rewrite Hrest; [done|]. intros e [Hs _]%elem_of_matches Ek%list_elem_of_singleton.
      rewrite <-Ek, Er in Hs. by destruct Hs.
  - intros Hk. apply Hrest. intros e [_ Hr]%elem_of_matches ->%list_elem_of_singleton.
    destruct Hk as [Hk|(v & -> & Hv & Hle)].
    + apply in_range_head in Hr as [rest ->]; [|left; by eexists|done]. by apply (Hk rest).
    + apply root_range in Hr; [lia|done|done].
  - intros Hn. rewrite Hrest; [done|]. intros e [Hs _]%elem_of_matches ->%list_elem_of_singleton.
    rewrite Hn in Hs. by destruct Hs.
Qed.
End pruning.

Lemma matches_size (start stop : bytes) (C : gmap bytes bytes) : length (matches start stop C) ≤ size C.
Proof.
  unfold matches. etrans; [apply length_filter|]. rewrite sorted_keys_perm, length_fmap, length_map_to_list. done.
Qed.

Lemma swept_sub (start stop : bytes) (D : bytes -> list bytes) (C C' : gmap bytes bytes) (k : bytes) :
  swept start stop D C C' -> C' !! k = None ∨ C' !! k = C !! k.
Proof.
  intros [Hg Hr]. destruct (decide (Exists (λ e, k ∈ D e) (matches start stop C))) as [Hx|Hn].
  - left. apply Exists_exists in Hx as (e & He & Hk). by eapply Hg.
  - right. apply Hr. intros e He Hk. apply Hn, Exists_exists. eauto.
Qed.

Lemma swept_size (start stop : bytes) (D : bytes -> list bytes) (C C' : gmap bytes bytes) : swept start stop D C C' -> size C' ≤ size C.
Proof.
  intros Hs. apply map_subseteq_size, map_subseteq_spec. intros k v Hk.
  destruct (swept_sub _ _ _ _ _ k Hs) as [E0|E0]; congruence.
Qed.

(** The horizon a prune request is cut to by the snapshot pin. *)
Definition horizon s (before : N) : N :=
  match s_snapshotPin s with
  | Some p => if decide (p < before)%N then p else before
  | None => before
  end.

Definition retained (b : N) (hist : history) : history := filter (λ kv, (b ≤ kv.1)%N) hist.

Lemma lookup_retained b hist v x : retained b hist !! v = Some x ↔ hist !! v = Some x ∧ (b ≤ v)%N.
Proof. apply map_lookup_filter_Some. Qed.

(** What a prune to [b] does to storage. *)
Record pruned (b : N) (C C' : gmap bytes bytes) : Prop := {
  pr_sub : ∀ k, C' !! k = None ∨ C' !! k = C !! k;
  pr_marks : ∀ w x, is_u64 w -> (w ≤ b)%N -> C' !! staleRecordKey w x = None;
  pr_reclaimed : ∀ w x, is_u64 w -> (w ≤ b)%N -> is_Some (C !! staleRecordKey w x) -> C' !! x = None;
  pr_roots : ∀ v, (v < b)%N -> C' !! rootRecordKey v = None;
  pr_ckpt : C' !! checkpointRecordKey = C !! checkpointRecordKey
}.

(** A record of another kind is never marked. *)
Lemma unmarked s hist w x :
  timeline s hist -> (∀ y, x ≠ recNode :: y ∧ x ≠ recValue :: y) -> contents (s_backend s) !! staleRecordKey w x = None.
Proof.
  intros Htl Hx. destruct (contents (s_backend s) !! staleRecordKey w x) eqn:Es; [|done]. exfalso.
  destruct (tl_marks _ _ Htl (tail (staleRecordKey w x))) as (w' & x' & Ek & _ & Ht); [by eexists|].
  change (staleRecordKey w x = staleRecordKey w' x') in Ek. apply (f_equal (drop 9)) in Ek. rewrite !drop_staleRecordKey in Ek.
  rewrite <-Ek in Ht. apply target_head in Ht as [y [?|?]]; by destruct (Hx y).
Qed.

(** Storage after both passes. *)
Section two_passes.
Variables (s : Store B) (hist : history) (b : N) (C1 C2 : gmap bytes bytes).
Hypothesis Htl : timeline s hist.
Hypothesis Hu : is_u64 (s_version s).
Hypothesis Hb : (b ≤ s_version s)%N.
Abbreviation C := (contents (s_backend s)).
Hypothesis Hsw1 : swept [recStale] (stale_stop b) stale_dels C C1.
Hypothesis Hsw2 : swept [recRoot] (recRoot :: be 8 b) (λ k, [k]) C1 C2.

Lemma passes_sub k : C2 !! k = None ∨ C2 !! k = C !! k.
Proof.
  destruct (swept_sub _ _ _ _ _ k Hsw2) as [?|E3]; [by left|].
  destruct (swept_sub _ _ _ _ _ k Hsw1) as [?|E4]; [left; congruence|right; congruence].
Qed.

Lemma passes_views v o stv :
  hist !! v = Some (o, stv) -> (b ≤ v)%N -> view C2 (s_ck s) (s_cipher s) v o stv.
Proof.
  pose proof (λ x, stale_swept s hist b Htl Hu Hb C1 x Hsw1) as S1. pose proof (λ k, root_swept s b Hu Hb C1 C2 k Hsw2) as S2.
  intros Hh Hle. destruct (tl_views _ _ Htl _ _ _ Hh) as [Hv V].
  assert (is_u64 v) as Huv by (unfold is_u64 in *; lia). eapply view_keep; [exact V| |].
  - rewrite (proj1 (proj2 (S2 _))) by (right; eauto). apply S1; [|done]. intros w Hw Hwb. by apply (unmarked s hist).
  - intros x Hx. pose proof (uses_target s v o stv x V Huv Hx) as Ht.
    apply target_head in Ht as [y Hy]. rewrite (proj1 (proj2 (S2 _))).
    + apply S1; [|by intros w z -> _; destruct Hy].
      intros w Hw Hwb. destruct (C !! staleRecordKey w x) eqn:Es; [|done].
      exfalso. eapply (tl_safe _ _ Htl w x v); [done|by eexists|done|lia|done].
    + left. intros rest ->. by destruct Hy.
Qed.

Lemma passes_pruned : pruned b C C2.
Proof.
  pose proof (λ x, stale_swept s hist b Htl Hu Hb C1 x Hsw1) as S1. pose proof (λ k, root_swept s b Hu Hb C1 C2 k Hsw2) as S2.
  split.
  - exact passes_sub.
  - intros w x Hw Hle. apply S2. by apply (S1 x).
  - intros w x Hw Hle Hs. apply S2. by apply (S1 x) with w.
  - intros v Hv. apply (S2 (rootRecordKey v)) with v; [done| |done]. unfold is_u64 in *. lia.
  - rewrite (proj1 (proj2 (S2 _))) by (left; done). apply S1; [|done]. intros w Hw Hwb. by apply (unmarked s hist).
Qed.
End two_passes.

Lemma Prune_ok s ot st hist rounds before :
  repr s ot st -> timeline s hist -> hist !! s_version s = Some (ot, st) ->
  (horizon s before ≤ s_version s)%N -> size (contents (s_backend s)) < rounds ->
  ∃ stats s', Prune rounds before s = (Ok stats, s') ∧
    repr s' ot st ∧ timeline s' (retained (horizon s before) hist) ∧
    pruned (horizon s before) (contents (s_backend s)) (contents (s_backend s')) ∧
    s' = set_cache (s_cache s') (set_backend (s_backend s') s) ∧
    stats = MkPruneStats (length (matches [recStale] (stale_stop (horizon s before)) (contents (s_backend s))))
              (length (matches [recStale] (stale_stop (horizon s before)) (contents (s_backend s))))
              (RootRecordsDeleted stats).
Proof.
  intros Hr Htl Hcur Hb Hrounds. unfold Prune. rewrite !bind_gets. fold (horizon s before).
  set (b := horizon s before) in *. set (C := contents (s_backend s)) in *. cbn zeta.
  pose proof (r_u64 _ _ _ Hr) as Hu. assert (is_u64 b) as Hub by (unfold is_u64 in *; lia).
  rewrite decide_False by lia. rewrite bind_modify. set (s0 := set_cache (cache_clear (s_cache s)) s).
  destruct (prune_loop_ok [recStale] (stale_stop b) stale_entry_ops stale_dels rounds 0 s0)
    as (s1 & E1 & Hsw1 & F1).
  { change (contents (s_backend s0)) with C. by eapply stale_entries_ok. }
  { change (contents (s_backend s0)) with C. pose proof (matches_size [recStale] (stale_stop b) C). lia. }
  change (contents (s_backend s0)) with C in *.
  rewrite (bind_ok _ _ _ _ _ E1). set (C1 := contents (s_backend s1)) in *.
  destruct (prune_loop_ok [recRoot] (recRoot :: be 8 b) root_entry_ops (λ k, [k]) rounds 0 s1)
    as (s2 & E2 & Hsw2 & F2).
  { apply root_entries_ok. }
  { fold C1. pose proof (matches_size [recRoot] (recRoot :: be 8 b) C1). pose proof (swept_size _ _ _ _ _ Hsw1). lia. }
  rewrite (bind_ok _ _ _ _ _ E2). set (C2 := contents (s_backend s2)) in *. fold C1 in Hsw2.
  assert (s2 = set_cache (cache_clear (s_cache s)) (set_backend (s_backend s2) s)) as Es2
    by (rewrite F2, F1; by destruct s).
  pose proof (passes_sub s b C1 C2 Hsw1 Hsw2) as Hsub. pose proof (passes_views s hist b C1 C2 Htl Hu Hb Hsw1 Hsw2) as Hviews.
  pose proof (passes_pruned s hist b C1 C2 Htl Hu Hb Hsw1 Hsw2) as Hpr. fold C in Hsub, Hpr.
  eexists _, s2. split; [reflexivity|]. split; [|split; [|split; [exact Hpr|split; [rewrite Es2; by destruct s|done]]]].
  - rewrite Es2. split; cbn; fold C2; try apply Hr.
    + apply cache_clear_all.
    + by apply Hviews.
    + intros nk Hw Hlt. destruct (Hsub (nodeRecordKey nk)) as [?|E3]; [done|].
      rewrite E3. by apply (r_fresh _ _ _ Hr).
  - rewrite Es2. split; cbn; fold C2.
    + intros v o stv [Hh Hle]%lookup_retained. split; [by eapply tl_views|by apply Hviews].
    + intros k [y Hk]. apply (tl_marks _ _ Htl). destruct (Hsub (recStale :: k)) as [E3|E3]; [congruence|].
      fold C. rewrite <-E3. by eexists.
    + intros w x v o stv Hw [y Hk] [Hh Hle]%lookup_retained. eapply (tl_safe _ _ Htl); [done| |done].
      destruct (Hsub (staleRecordKey w x)) as [E3|E3]; [congruence|]. fold C. rewrite <-E3. by eexists.
Qed.
End timeline.
