(* ===== verification/History.v ===== *)
(** The history chain and transition extraction: [ledger/audit.go].

    The chain head is a hash chain over the roots of the versions: every chained
    commit links the previous head, the previous root and its version.
    [VerifyHistory] recomputes it over the stored root records.  [lineage] is the
    invariant of a chained store; on it the audit from any anchored head accepts,
    and an accepted audit pins down every root in between, whatever storage
    returned. *)

From S2P Require Import Prelude Errors Sha256 Hashing Node Smt Aead Backend Cache Store Tree StoreRead Update StoreWrite Records StoreCommit StoreOpen StoreFrame.

(** One leaf-level difference; the value is empty for a deletion. *)
Record Change := MkChange { ch_Path : Hash; ch_Value : bytes; ch_Deleted : bool }.

#[export] Instance Change_eq_dec : EqDecision Change.
Proof. solve_decision. Defined.

Definition change_le (a b : Change) : Prop := bytes_le (b32 (ch_Path a)) (b32 (ch_Path b)).
#[export] Instance change_le_dec : RelDecision change_le.
Proof. intros a b. unfold change_le. apply _. Defined.
#[export] Instance option_leaf_dec (o : option leafNode) vh :
  Decision (∃ old, o = Some old ∧ l_vh old = vh).
Proof.
  destruct o as [l|]; [|right; by intros (? & ? & _)].
  destruct (decide (l_vh l = vh)) as [E|E]; [left; by exists l|right; by intros (? & [= <-] & ?)].
Defined.
#[export] Instance change_le_trans : Transitive change_le.
Proof. intros a b c. unfold change_le. apply bytes_le_trans. Qed.
#[export] Instance change_le_total : Total change_le.
Proof. intros a b. unfold change_le. apply bytes_le_total. Qed.

Section audit.
Context `{H : Hasher} `{G : GCM} `{E : Entropy} `{MR : MapRange} {B : Type} `{BK : Backend B}.
Abbreviation M := (M (Store B)).

Definition not_chained : error := errInvalid "history chain is not enabled on this store".

Definition HistoryEnabled : M bool := gets s_history.

Definition HistoryHead : M (Hash * N) :=
  history ← gets s_history;
  if history : bool then gets (λ s, (s_historyHead s, s_version s)) else fail not_chained.

Definition HistoryHeadAt (version : N) : M Hash :=
  history ← gets s_history;
  if history : bool then
    if decide (version = 0%N) then mret zero32
    else
      val ← GetAt version HistoryKey;
      match val with
      | Some v =>
          if decide (length v = HashSize) then mret (copy32 v)
          else fail (errCorrupted "history head leaf missing or malformed at version %d")
      | None => fail (errCorrupted "history head leaf missing or malformed at version %d")
      end
  else fail not_chained.

(** The loop [for v := from + 1; v <= version; v++], its counter a wrapping
    [uint64]; [fuel] bounds the rounds. *)
Fixpoint history_loop (fuel : nat) (v version : N) (head : Hash) : M Hash :=
  if decide (v ≤ version)%N then
    match fuel with
    | O => panic "history walk: round bound"
    | S fuel' =>
        prevRoot ← wrapping "history walk at version %d (pruned?)" (loadRootRecord (wrap64 (v + max64 - 1)));
        history_loop fuel' (wrap64 (v + 1)) version (HistoryLink head prevRoot v)
    end
  else mret head.

Definition VerifyHistory (fuel : nat) (fromVersion : N) (fromHead : Hash) : M unit :=
  history ← gets s_history; version ← gets s_version; live ← gets s_historyHead;
  if history : bool then
    if decide (version < fromVersion)%N then fail future
    else
      head ← history_loop fuel (wrap64 (fromVersion + 1)) version fromHead;
      if decide (head = live) then mret tt
      else fail (errCorrupted
        "history chain mismatch: recorded roots from version %d do not produce the live head")
  else fail not_chained.

(** ** Transition extraction *)

Definition diffLoad (c : option child) (prefix : list N) : M (option node) :=
  match c with
  | None => mret None
  | Some c => n ← loadNode (NodeKey (c_version c) prefix) (c_hash c); mret (Some n)
  end.

Abbreviation leafmap := (gmap Hash leafNode).

Definition add_leaf (n : option node) (m : leafmap) : leafmap :=
  match n with Some (NLeaf l) => <[l_path l := l]> m | _ => m end.

Definition children_of (n : option node) : option (list (option child)) :=
  match n with Some (NInternal cs) => Some cs | _ => None end.

Definition child_at (cs : option (list (option child))) (nib : N) : option child :=
  match cs with Some cs => slot cs nib | None => None end.

Definition same_hash (a b : option child) : bool :=
  match a, b with Some ca, Some cb => bool_decide (c_hash ca = c_hash cb) | _, _ => false end.

(** Both walks in lockstep; equal hashes prune.  The source has no depth bound of
    its own; [left] is the recursion depth of the model, and 64 nibbles are enough
    on stored trees. *)
Fixpoint diffChildren (left : nat) (a b : option child) (prefix : list N) (out : leafmap * leafmap) :
    M (leafmap * leafmap) :=
  match a, b with
  | None, None => mret out
  | _, _ =>
      if same_hash a b then mret out
      else
        na ← diffLoad a prefix;
        nb ← diffLoad b prefix;
        let out := (add_leaf na out.1, add_leaf nb out.2) in
        match children_of na, children_of nb with
        | None, None => mret out
        | ca, cb =>
            match left with
            | O => panic "diff: depth bound"
            | S left' =>
                foldM (λ out nib,
                    diffChildren left' (child_at ca (N.of_nat nib)) (child_at cb (N.of_nat nib))
                      (prefix ++ [N.of_nat nib]) out)
                  out (seq 0 16)
            end
        end
  end.

(** The puts of a transition: leaves of the new version that are new or hold
    another commitment; relocated leaves are skipped. *)
Definition collect_puts (historyPath : Hash) (oldLeaves newLeaves : leafmap) : M (list Change) :=
  foldM (λ out '(path, leaf),
      if decide (path = historyPath) then mret out
      else if decide (∃ old, oldLeaves !! path = Some old ∧ l_vh old = l_vh leaf) then mret out
      else
        value ← readValue (l_path leaf) (l_vh leaf) (l_valueVersion leaf);
        mret (out ++ [MkChange path value false]))
    [] (range_map newLeaves).

Definition collect_dels (historyPath : Hash) (oldLeaves newLeaves : leafmap) : list Change :=
  omap (λ '(path, _),
      if decide (path = historyPath) then None
      else match newLeaves !! path with None => Some (MkChange path [] true) | Some _ => None end)
    (range_map oldLeaves).

Definition ChangesAt (version : N) : M (list Change) :=
  cur ← gets s_version;
  if decide (version = 0%N ∨ (cur < version)%N) then
    fail (errInvalid "version %d out of range (current %d)")
  else
    oldRoot ← loadRootRecord (version - 1);
    newRoot ← loadRootRecord version;
    oldChild ← loadRootChild oldRoot (version - 1);
    newChild ← loadRootChild newRoot version;
    '(oldLeaves, newLeaves) ← diffChildren nibbles oldChild newChild [] (∅, ∅);
    ck ← gets s_ck;
    let historyPath := pathOf ck HistoryKey in
    puts ← collect_puts historyPath oldLeaves newLeaves;
    mret (merge_sort change_le (puts ++ collect_dels historyPath oldLeaves newLeaves)).
End audit.

(** * The chain *)

Section chain.
Context `{H : Hasher}.

Definition link_msg (h r : Hash) (v : N) : bytes := historyChainTag ++ b32 h ++ b32 r ++ be 8 v.

(** The head after linking the roots of the versions [v], [v + 1], ... *)
Fixpoint chain (h : Hash) (v : N) (roots : list Hash) : Hash :=
  match roots with
  | [] => h
  | r :: rs => chain (HistoryLink h r (v + 1)) (v + 1) rs
  end.

Fixpoint chain_msgs (h : Hash) (v : N) (roots : list Hash) : list bytes :=
  match roots with
  | [] => []
  | r :: rs => link_msg h r (v + 1) :: chain_msgs (HistoryLink h r (v + 1)) (v + 1) rs
  end.

Lemma chain_app h v rs rs' : chain h v (rs ++ rs') = chain (chain h v rs) (v + N.of_nat (length rs)) rs'.
Proof.
  revert h v. induction rs as [|r rs IH]; intros h v; cbn [app chain length].
  - by rewrite N.add_0_r.
  - rewrite IH. f_equal. lia.
Qed.

Lemma link_msg_inj h r v h' r' : link_msg h r v = link_msg h' r' v -> h = h' ∧ r = r'.
Proof.
  unfold link_msg. intros [_ E1]%app_inj_len; [|done].
  apply app_inj_len in E1 as [E1 E2]; [|by rewrite !length_b32].
  apply app_inj_len in E2 as [E2 _]; [|by rewrite !length_b32].
  by apply (inj b32) in E1 as ->; apply (inj b32) in E2 as ->.
Qed.

(** The head determines the whole lineage. *)
Lemma chain_binding h v rs h' rs' :
  length rs = length rs' -> no_collision (chain_msgs h v rs) (chain_msgs h' v rs') ->
  chain h v rs = chain h' v rs' -> h = h' ∧ rs = rs'.
Proof.
  revert h h' v rs'. induction rs as [|r rs IH]; intros h h' v [|r' rs'] Hl Hc E0; try done.
  cbn [chain chain_msgs] in *. apply IH in E0 as [E1 ->]; [|by injection Hl|].
  - apply Hc in E1; [|left..]. by apply link_msg_inj in E1 as [-> ->].
  - eapply no_collision_sub; [exact Hc|..]; intros x Hx; by right.
Qed.
End chain.

Section history.
Context `{H : Hasher} `{G : GCM} `{E : Entropy} `{MR : MapRange}.
Context {B : Type} `{BK : Backend B} `{!BackendSpec B}.
Implicit Types s : Store B.

(** The root records storage holds for [n] versions from [v]. *)
Fixpoint stored_roots (C : gmap bytes bytes) (v : N) (n : nat) : option (list Hash) :=
  match n with
  | O => Some []
  | S n' =>
      match C !! rootRecordKey v with
      | Some r => if decide (length r = HashSize)
                  then cons (copy32 r) <$> stored_roots C (v + 1) n' else None
      | None => None
      end
  end.

Lemma stored_roots_spec C v n rs :
  stored_roots C v n = Some rs ->
  length rs = n ∧ ∀ i r, rs !! i = Some r -> C !! rootRecordKey (v + N.of_nat i) = Some (b32 r).
Proof.
  revert v rs. induction n as [|n IH]; intros v rs; cbn; [intros [= <-]; done|].
  destruct (C !! rootRecordKey v) as [r|] eqn:Er; [|done]. case_decide as Hl; [|done].
  destruct (stored_roots C (v + 1) n) as [rs'|] eqn:Es; [|done]. intros [= <-].
  destruct (IH _ _ Es) as [Hlen Hall]. split; [cbn; lia|].
  intros [|i] r' Hi; cbn in Hi.
  - injection Hi as <-. rewrite N.add_0_r, Er, b32_copy32; done.
  - replace (v + N.of_nat (S i))%N with (v + 1 + N.of_nat i)%N by lia. by apply Hall.
Qed.

Lemma loadRootRecord_inv v s r s' :
  loadRootRecord v s = (Ok r, s') -> contents (s_backend s) !! rootRecordKey v = Some (b32 r) ∧ quiet s s'.
Proof.
  intros El. pose proof (keeps_loadRootRecord v s) as Hq. rewrite El in Hq. split; [|done].
  unfold loadRootRecord in El. inv_bind El. unfold backend in E0.
  destruct (b_get (rootRecordKey v) (s_backend s)) as [o b] eqn:Eg.
  destruct (get_spec _ _ _ _ Eg) as [_ Hr]. destruct o as [x|e|w]; [|done..].
  injection E0 as <- _. rewrite <-(Hr x eq_refl). destruct x as [x|]; [|done].
  case_decide as Hl; [|done]. injection El as <- _. by rewrite b32_copy32.
Qed.

(** The walk computes the chain over the stored records, or fails. *)
Lemma history_loop_inv fuel v version h s h' s' :
  is_u64 (version + 1) ->
  history_loop fuel (v + 1) version h s = (Ok h', s') -> (v ≤ version)%N ->
  ∃ rs, stored_roots (contents (s_backend s)) v (N.to_nat (version - v)) = Some rs ∧ h' = chain h v rs ∧ quiet s s'.
Proof.
  intros Hm. revert v h s. induction fuel as [|fuel IH]; intros v h s El Hle;
    cbn [history_loop] in El; case_decide as Hd; try done.
  - injection El as <- <-. replace (version - v)%N with 0%N by lia. exists []. done.
  - inv_bind El.
    assert (wrap64 (v + 1 + max64 - 1) = v) as Ev.
    { unfold wrap64. replace (v + 1 + max64 - 1)%N with (v + 1 * max64)%N by lia.
      rewrite N.Div0.mod_add. apply N.mod_small. unfold is_u64 in Hm. lia. }
    rewrite Ev in E0. apply wrapping_ok, loadRootRecord_inv in E0 as [Hrec Hq].
    rewrite (wrap64_small (v + 1 + 1)) in El by (unfold is_u64 in *; lia).
    destruct (IH _ _ _ El) as (rs & Hrs & -> & Hq'); [lia|].
    exists (a :: rs). replace (N.to_nat (version - v)) with (S (N.to_nat (version - (v + 1)))) by lia.
    cbn [stored_roots]. rewrite Hrec, decide_True by apply length_b32.
    pose proof (proj1 Hq) as Hc. rewrite Hc in Hrs. rewrite Hrs, copy32_b32. split_and!; [done|done|].
    etrans; [exact Hq|exact Hq'].
  - injection El as <- <-. replace (version - v)%N with 0%N by lia. exists []. done.
Qed.

(** An accepted audit: the stored records of the whole range exist and chain the
    given head into the live one. *)
Lemma VerifyHistory_inv fuel from fromHead s s' :
  is_u64 (s_version s + 1) -> VerifyHistory fuel from fromHead s = (Ok tt, s') ->
  quiet s s' ∧ s_history s = true ∧ (from ≤ s_version s)%N ∧
  ∃ rs, stored_roots (contents (s_backend s)) from (N.to_nat (s_version s - from)) = Some rs ∧
    s_historyHead s = chain fromHead from rs.
Proof.
  intros Hm. unfold VerifyHistory. rewrite !bind_gets. destruct (s_history s); [|done].
  case_decide as Hlt; [done|]. intros E0. inv_bind E0. case_decide as Eh; [|done]. injection E0 as <-.
  rewrite wrap64_small in E1 by (unfold is_u64 in *; lia).
  apply history_loop_inv in E1 as (rs & Hrs & -> & Hq); [|done|lia]. eauto 10 with lia.
Qed.

(** ** The lineage of a chained store *)

(** [roots] lists the root of every version up to the current one; the head links
    them all, and the records from [from] on are stored. *)
Record lineage s (from : N) (roots : list Hash) : Prop := {
  ln_len : length roots = S (N.to_nat (s_version s));
  ln_last : roots !! N.to_nat (s_version s) = Some (s_root s);
  ln_head : s_historyHead s = chain zero32 0 (take (N.to_nat (s_version s)) roots);
  ln_rec : ∀ v r, (from ≤ v)%N -> roots !! N.to_nat v = Some r ->
    contents (s_backend s) !! rootRecordKey v = Some (b32 r)
}.

(** The head the chain had at version [v]. *)
Definition head_at (roots : list Hash) (v : N) : Hash := chain zero32 0 (take (N.to_nat v) roots).

Lemma lineage_init s :
  s_version s = 0%N -> s_historyHead s = zero32 ->
  contents (s_backend s) !! rootRecordKey 0 = Some (b32 (s_root s)) -> lineage s 0 [s_root s].
Proof.
  intros Ev Eh Er. split; rewrite ?Ev; [done..|].
  intros v r _ Hl. apply lookup_lt_Some in Hl as Hlt. cbn in Hlt.
  assert (v = 0%N) as -> by lia. by injection Hl as <-.
Qed.

Lemma lineage_commit s s' ot otf stf from roots :
  committed s s' ot otf stf -> s_history s = true -> is_u64 (s_version s + 1) ->
  lineage s from roots -> lineage s' from (roots ++ [s_root s']).
Proof.
  intros Hc Hh Hm [L1 L2 L3 L4]. pose proof (cm_version _ _ _ _ _ Hc) as Ev.
  assert (N.to_nat (s_version s') = S (N.to_nat (s_version s))) as En by lia. split.
  - rewrite length_app, L1, En. cbn. lia.
  - rewrite En, lookup_app_r, L1, Nat.sub_diag by lia. done.
  - rewrite (cm_head _ _ _ _ _ Hc). unfold batch_head. rewrite Hh. cbn [default from_option id].
    rewrite En, <-L1, take_app_length.
    assert (roots = take (N.to_nat (s_version s)) roots ++ [s_root s]) as Er.
    { rewrite <-(take_S_r _ _ _ L2), take_ge; [done|lia]. }
    rewrite Er, chain_app, <-L3. cbn [chain]. unfold next_head.
    rewrite length_take, L1, Nat.min_l by lia. do 2 f_equal; lia.
  - intros v r Hf Hl. destruct (decide (v = s_version s'))%N as [->|Hne].
    + rewrite En, <-L1, lookup_app_r, Nat.sub_diag in Hl by lia. injection Hl as <-.
      rewrite (v_root _ _ _ _ _ _ (r_view _ _ _ (cm_repr _ _ _ _ _ Hc))).
      by rewrite (r_root _ _ _ (cm_repr _ _ _ _ _ Hc)).
    + apply lookup_lt_Some in Hl as Hlt. rewrite length_app, L1 in Hlt. cbn in Hlt.
      rewrite (cm_roots _ _ _ _ _ Hc) by (unfold is_u64 in *; lia). apply L4; [done|].
      rewrite lookup_app_l in Hl; [done|lia].
Qed.

Lemma lineage_reads s s' from roots : quiet s s' -> lineage s from roots -> lineage s' from roots.
Proof.
  intros Hq [L1 L2 L3 L4]. pose proof (proj1 Hq) as Hc.
  apply quiet_head in Hq as (Er & Ev & _ & Eh & _). split; by rewrite ?Ev, ?Er, ?Eh, ?Hc.
Qed.
End history.

Section complete.
Context `{H : Hasher} `{G : GCM} `{E : Entropy} `{MR : MapRange}.
Context {B : Type} `{BK : Backend B} `{!BackendSpec B} `{!BackendReliable B}.
Implicit Types s : Store B.

Lemma history_loop_ok fuel v s version h rs :
  is_u64 (version + 1) -> (v ≤ version)%N -> fuel = N.to_nat (version - v) -> length rs = fuel ->
  (∀ i r, rs !! i = Some r -> contents (s_backend s) !! rootRecordKey (v + N.of_nat i) = Some (b32 r)) ->
  ∃ s', history_loop fuel (v + 1) version h s = (Ok (chain h v rs), s') ∧ reads s s'.
Proof.
  intros Hm. revert v s h rs. induction fuel as [|fuel IH]; intros v s h rs Hle Hf Hl Hr.
  - destruct rs; [|done]. cbn [history_loop chain]. rewrite decide_False by lia.
    exists s. split; [done|apply reads_refl].
  - destruct rs as [|r rs]; [done|]. cbn [history_loop chain]. rewrite decide_True by lia.
    assert (wrap64 (v + 1 + max64 - 1) = v) as ->.
    { unfold wrap64. replace (v + 1 + max64 - 1)%N with (v + 1 * max64)%N by lia.
      rewrite N.Div0.mod_add. apply N.mod_small. unfold is_u64 in Hm. lia. }
    destruct (loadRootRecord_ok s v r) as (s1 & E1 & R1).
    { specialize (Hr 0 r eq_refl). by rewrite N.add_0_r in Hr. }
    eapply wrapping_ok in E1. rewrite (bind_ok _ _ _ _ _ E1), (wrap64_small (v + 1 + 1)) by (unfold is_u64 in *; lia).
    destruct (IH (v + 1)%N s1 (HistoryLink h r (v + 1)) rs) as (s2 & E2 & R2); [lia|lia|by injection Hl| |].
    { intros i r' Hi. rewrite (reads_contents _ _ R1). specialize (Hr (S i) r' Hi).
      by replace (v + N.of_nat (S i))%N with (v + 1 + N.of_nat i)%N in Hr by lia. }
    exists s2. split; [done|by eapply reads_trans].
Qed.

(** The walk stops within its range, so spare rounds change nothing. *)
Lemma history_loop_fuel fuel fuel' v version h s :
  is_u64 (version + 1) -> (v ≤ version)%N -> N.to_nat (version - v) ≤ fuel -> fuel ≤ fuel' ->
  history_loop fuel' (v + 1) version h s = history_loop fuel (v + 1) version h s.
Proof.
  intros Hm. revert fuel v h s. induction fuel' as [|fuel' IH]; intros [|fuel] v h s Hle Hf Hff; try lia; [done|..];
    cbn [history_loop]; case_decide as Hd; try done; [lia|].
  unfold mbind, M_bind. destruct (wrapping _ _ s) as [[r|e|w] s1]; [|done..].
  rewrite (wrap64_small (v + 1 + 1)) by (unfold is_u64 in *; lia). apply IH; lia.
Qed.

(** The audit of a chained store from any version it kept, and the head it had
    there, accepts within [version - from] rounds. *)
Lemma VerifyHistory_ok fuel from0 from s roots :
  s_history s = true -> is_u64 (s_version s + 1) -> lineage s from0 roots ->
  (from0 ≤ from)%N -> (from ≤ s_version s)%N -> N.to_nat (s_version s - from) ≤ fuel ->
  ∃ s', VerifyHistory fuel from (head_at roots from) s = (Ok tt, s') ∧ reads s s'.
Proof.
  intros Hh Hm [L1 L2 L3 L4] Hf Hle Hfu. unfold VerifyHistory. rewrite !bind_gets, Hh.
  rewrite decide_False, wrap64_small by (unfold is_u64 in *; lia).
  set (n := N.to_nat (s_version s - from)). set (rs := take n (drop (N.to_nat from) roots)).
  assert (length rs = n) as Hlen by (unfold rs, n; rewrite length_take, length_drop; lia).
  destruct (history_loop_ok n from s (s_version s) (head_at roots from) rs) as (s' & E1 & R1); [done..| |].
  { intros i r Hi. apply lookup_take_Some in Hi as [Hi _]. rewrite lookup_drop in Hi.
    apply L4; [lia|]. by replace (N.to_nat (from + N.of_nat i)) with (N.to_nat from + i) by lia. }
  rewrite <-(history_loop_fuel n fuel) in E1 by (unfold n; try done; lia).
  rewrite (bind_ok _ _ _ _ _ E1), decide_True; [by exists s'|].
  rewrite L3. unfold head_at.
  replace (take (N.to_nat (s_version s)) roots) with (take (N.to_nat from) roots ++ rs).
  - rewrite chain_app, length_take, Nat.min_l by lia. f_equal; lia.
  - unfold rs, n. replace (N.to_nat (s_version s)) with (N.to_nat from + N.to_nat (s_version s - from)) by lia.
    by rewrite take_take_drop.
Qed.
End complete.
