(* ===== verification/Diff.v ===== *)
(** Transition extraction is exact: [ledger/audit.go], [ChangesAt].

    The lockstep walk prunes subtrees of equal hash.  Against the specification
    tree that is sound: equal hashes mean equal leaves unless the two versions'
    commitment messages contain a collision.  The walk therefore reports both
    sides of every path whose commitment differs, and [ChangesAt] returns exactly
    the changes between the two states, sorted by path; replaying them on the old
    state gives the new one. *)

From S2P Require Import Prelude Errors Sha256 Hashing Node Smt Aead Backend Cache Store Tree StoreRead Update StoreWrite Records StoreCommit StoreFrame History.

(** ** Loops over the sixteen slots *)

Lemma foldM_seq {S A} (f : A -> nat -> M S A) (P : nat -> A -> S -> Prop) n :
  ∀ k a s, P k a s ->
  (∀ i a s, P i a s -> i < k + n -> ∃ a' s', f a i s = (Ok a', s') ∧ P (Datatypes.S i) a' s') ->
  ∃ a' s', foldM f a (seq k n) s = (Ok a', s') ∧ P (k + n) a' s'.
Proof.
  induction n as [|n IH]; intros k a s HP Hf; cbn [seq foldM].
  - exists a, s. by rewrite Nat.add_0_r.
  - destruct (Hf k a s HP) as (a1 & s1 & E1 & HP1); [lia|].
    rewrite (bind_ok _ _ _ _ _ E1).
    destruct (IH (Datatypes.S k) a1 s1 HP1) as (a2 & s2 & E2 & HP2).
    { intros i a' s' HPi Hi. apply Hf; [done|lia]. }
    exists a2, s2. split; [done|]. by replace (k + Datatypes.S n) with (Datatypes.S k + n) by lia.
Qed.

(** * Messages of subtrees *)

Section msgs.
Context `{H : Hasher}.

Lemma smt_msgs_two n d ls b :
  2 ≤ length ls -> smt_msgs n (Datatypes.S d) (filter (side d b) ls) ⊆ smt_msgs (Datatypes.S n) d ls.
Proof. destruct ls as [|x [|y ls]]; cbn [length]; try lia. intros _. apply smt_msgs_side. Qed.

(** The messages of the subtree at [pre]. *)
Definition tmsgs (pre : list N) (ot : option tree) : list bytes :=
  match ot with
  | Some t => smt_msgs (256 - 4 * length pre) (4 * length pre) (kv <$> leaves t)
  | None => []
  end.

Lemma slice_msgs pre k a sl i t :
  k ≤ 4 -> length pre < 64 -> length sl = 2 ^ k -> slots_wf pre (a * 2 ^ k) sl ->
  sl !! i = Some (Some t) ->
  smt_msgs (252 - 4 * length pre) (4 + 4 * length pre) (kv <$> leaves t) ⊆
  smt_msgs (252 - 4 * length pre + k) (4 * length pre + (4 - k)) (kv <$> concat (oleaves <$> sl)).
Proof.
  intros Hk Hp. revert a sl i. induction k as [|k IH]; intros a sl i Hl Hs Hi.
  { destruct sl as [|oc [|]]; try done. destruct i as [|i]; [|by rewrite lookup_nil in Hi || destruct i].
    injection Hi as ->. cbn [fmap list_fmap concat oleaves]. rewrite app_nil_r, Nat.add_0_r.
    replace (4 * length pre + (4 - 0)) with (4 + 4 * length pre) by lia. done. }
  destruct (decide (2 ≤ length (concat (oleaves <$> sl)))) as [H2|H2].
  - set (b := bool_decide (2 ^ k ≤ i)).
    destruct (slice_half pre k a sl b Hl Hs) as [L1 S1].
    etrans; [apply (IH ltac:(lia) _ _ (if b then i - 2 ^ k else i) L1 S1)|].
    + unfold b. case_bool_decide; [rewrite lookup_drop; by replace (2 ^ k + (i - 2 ^ k)) with i by lia|].
      rewrite lookup_take, decide_True by lia. done.
    + rewrite <-(slice_filter pre k a) by (done || lia).
      replace (252 - 4 * length pre + Datatypes.S k) with (Datatypes.S (252 - 4 * length pre + k)) by lia.
      replace (4 * length pre + (4 - k)) with (Datatypes.S (4 * length pre + (3 - k))) by lia.
      replace (4 - Datatypes.S k) with (3 - k) by lia.
      apply smt_msgs_two. by rewrite length_fmap.
  - assert (∀ l, l ∈ leaves t -> l ∈ concat (oleaves <$> sl)) as Hsub.
    { intros l Hlt. apply elem_of_concat. exists (oleaves (Some t)). split; [done|].
      apply list_elem_of_fmap_2. by eapply list_elem_of_lookup_2. }
    pose proof (twf_leaves_length _ _ (Hs i t Hi)) as Ht.
    destruct t as [v l|v cs].
    + cbn [leaves] in *. specialize (Hsub l ltac:(left)).
      destruct (concat (oleaves <$> sl)) as [|l' [|]]; [by apply not_elem_of_nil in Hsub| |cbn in H2; lia].
      apply list_elem_of_singleton in Hsub as <-. cbn [fmap list_fmap]. by rewrite !smt_msgs_one.
    + exfalso. apply H2. etrans; [exact Ht|].
      apply list_elem_of_lookup_2 in Hi. apply elem_of_Permutation in Hi as [sl' Hp'].
      rewrite Hp'. cbn -[leaves]. rewrite length_app. lia.
Qed.

Lemma tmsgs_child pre v cs i :
  twf pre (TNode v cs) -> tmsgs (pre ++ [i]) (mjoin (cs !! N.to_nat i)) ⊆ tmsgs pre (Some (TNode v cs)).
Proof.
  intros Hw. inversion Hw as [|? ? ? Hlen Hpre Hf Hv Hc Hb]; subst.
  destruct (cs !! N.to_nat i) as [[t|]|] eqn:Ei; cbn [mjoin option_join tmsgs]; [|set_solver..].
  rewrite length_app, leaves_node. cbn [length].
  replace (256 - 4 * (length pre + 1)) with (252 - 4 * length pre) by lia.
  replace (4 * (length pre + 1)) with (4 + 4 * length pre) by lia.
  etrans; [apply (slice_msgs pre 4 0 cs (N.to_nat i)); [lia|done..]|].
  rewrite Nat.add_0_r. by replace (252 - 4 * length pre + 4) with (256 - 4 * length pre) by lia.
Qed.
End msgs.

(** * Leaves by path *)

Definition lmap (ot : option tree) : gmap Hash leafNode :=
  list_to_map ((λ l, (l_path l, l)) <$> oleaves ot).

Lemma lookup_lmap pre ot p l :
  otwf pre ot -> lmap ot !! p = Some l ↔ l ∈ oleaves ot ∧ l_path l = p.
Proof.
  intros Hw. unfold lmap. rewrite <-elem_of_list_to_map.
  - rewrite list_elem_of_fmap. split; [intros (l' & [= -> ->] & ?)|intros [? <-]]; eauto.
  - rewrite <-list_fmap_compose. destruct ot as [t|]; [by eapply twf_NoDup|constructor].
Qed.

Lemma lmap_under pre ot p : otwf pre ot -> ¬ under pre p -> lmap ot !! p = None.
Proof.
  intros Hw Hu. destruct (lmap ot !! p) as [l|] eqn:El; [|done].
  apply (lookup_lmap pre) in El as [Hl <-]; [|done]. destruct ot as [t|]; [|by apply not_elem_of_nil in Hl].
  destruct Hu. by eapply twf_leaves_under.
Qed.

Lemma otwf_child pre v cs i :
  twf pre (TNode v cs) -> (i < 16)%N -> otwf (pre ++ [i]) (mjoin (cs !! N.to_nat i)).
Proof.
  intros Hw Hi. inversion Hw as [|? ? ? Hlen Hpre Hf Hv Hc Hb]; subst.
  destruct (cs !! N.to_nat i) as [[t|]|] eqn:Ei; [|done..].
  specialize (Hc _ _ Ei). by rewrite N2Nat.id in Hc.
Qed.

Lemma lmap_child pre v cs i p :
  twf pre (TNode v cs) -> (i < 16)%N -> under (pre ++ [i]) p ->
  lmap (Some (TNode v cs)) !! p = lmap (mjoin (cs !! N.to_nat i)) !! p.
Proof.
  intros Hw Hi Hu. pose proof (otwf_child _ _ _ _ Hw Hi) as Hwi. apply option_eq. intros l.
  rewrite (lookup_lmap pre), (lookup_lmap (pre ++ [i])) by done.
  cbn [oleaves]. rewrite elem_of_leaves_node. split; (intros [Hl <-]; split; [|done]).
  - destruct Hl as (j & t & Hj & Hl). inversion Hw as [|? ? ? Hlen Hpre Hf Hv Hc Hb]; subst.
    pose proof (twf_leaves_under _ _ _ (Hc j t Hj) Hl) as (_ & _ & E1)%under_snoc.
    apply under_snoc in Hu as (_ & _ & E2). rewrite E1 in E2. subst i. rewrite Nat2N.id, Hj. done.
  - destruct (cs !! N.to_nat i) as [[t|]|] eqn:Ei; cbn in Hl; [eauto|by apply not_elem_of_nil in Hl..].
Qed.

Lemma lmap_leaf v l : lmap (Some (TLeaf v l)) = {[l_path l := l]}.
Proof. done. Qed.

Section diff.
Context `{H : Hasher} `{G : GCM} `{E : Entropy} `{MR : MapRange}.
Context {B : Type} `{BK : Backend B} `{!BackendSpec B} `{!BackendReliable B}.
Implicit Types s : Store B.

Lemma lmap_binding pre ta tb :
  twf pre ta -> twf pre tb -> no_collision (tmsgs pre (Some ta)) (tmsgs pre (Some tb)) ->
  t_hash ta = t_hash tb -> ∀ p, l_vh <$> lmap (Some ta) !! p = l_vh <$> lmap (Some tb) !! p.
Proof.
  intros Ha Hb Hc Eh p. rewrite (t_hash_smt pre), (t_hash_smt pre tb) in Eh by done.
  assert (length pre ≤ 64) by (inversion Ha; subst; [by eapply under_length|lia]).
  apply smt_binding in Eh; [|lia|by apply twf_agree..|done].
  assert (∀ t, twf pre t -> ∀ v, l_vh <$> lmap (Some t) !! p = Some v ↔ (p, v) ∈ kv <$> leaves t) as Hl.
  { intros t Ht v. rewrite fmap_Some, list_elem_of_fmap. split.
    - intros (l & (Hl & <-)%(lookup_lmap pre) & ->); [by exists l|done].
    - intros (l & [= -> ->] & Hl). exists l. rewrite (lookup_lmap pre) by done. done. }
  apply option_eq. intros v. rewrite (Hl ta Ha), (Hl tb Hb). by rewrite Eh.
Qed.

(** What the walk reports at one path: both sides, or neither when they agree. *)
Definition captured (ota otb : option tree) (out out' : gmap Hash leafNode * gmap Hash leafNode)
    (p : Hash) : Prop :=
  (out'.1 !! p = lmap ota !! p ∪ out.1 !! p ∧ out'.2 !! p = lmap otb !! p ∪ out.2 !! p) ∨
  (out'.1 !! p = out.1 !! p ∧ out'.2 !! p = out.2 !! p ∧
   l_vh <$> lmap ota !! p = l_vh <$> lmap otb !! p).

Definition node_of (ot : option tree) : option node := t_node <$> ot.

Lemma diffLoad_ok s pre ot :
  store_ok s -> otwf pre ot -> stored (contents (s_backend s)) pre ot ->
  ∃ s', diffLoad (ochild ot) pre s = (Ok (node_of ot), s') ∧ reads s s'.
Proof.
  intros Ho Hw Hs. destruct ot as [t|]; cbn [ochild diffLoad].
  - destruct (loadNode_ok (NodeKey (t_version t) pre) (t_node t) s) as (s1 & E1 & R1);
      [done|by apply stored_top|by eapply twf_node_wf|].
    exists s1. split; [|done]. cbn [child_of c_version c_hash]. unfold t_hash.
    by rewrite (bind_ok _ _ _ _ _ E1).
  - exists s. split; [done|apply reads_refl].
Qed.

(** The subtree in slot [i]; leaves have none. *)
Definition kid (ot : option tree) (i : N) : option tree :=
  match ot with Some (TNode _ cs) => mjoin (cs !! N.to_nat i) | _ => None end.
Definition own_leaf (ot : option tree) : gmap Hash leafNode :=
  match ot with Some (TLeaf v l) => lmap ot | _ => ∅ end.

Lemma child_at_kid ot i : child_at (children_of (node_of ot)) i = ochild (kid ot i).
Proof.
  destruct ot as [[v l|v cs]|]; [done| |done]. cbn [node_of fmap option_fmap option_map].
  rewrite t_node_node. cbn [children_of child_at kid]. unfold slot. rewrite list_lookup_fmap.
  by destruct (cs !! N.to_nat i) as [[t|]|].
Qed.

Lemma add_leaf_own ot m : add_leaf (node_of ot) m = own_leaf ot ∪ m.
Proof.
  destruct ot as [[v l|v cs]|]; cbn; rewrite ?(left_id_L ∅ (∪)); [|done..].
  rewrite insert_union_singleton_l. by rewrite insert_empty.
Qed.

Lemma lmap_split pre ot i p :
  otwf pre ot -> (i < 16)%N -> under (pre ++ [i]) p ->
  (own_leaf ot = ∅ ∧ lmap ot !! p = lmap (kid ot i) !! p) ∨ (kid ot i = None ∧ own_leaf ot = lmap ot).
Proof.
  intros Hw Hi Hu. destruct ot as [[v l|v cs]|]; [by right| |by left].
  left. split; [done|]. by eapply lmap_child.
Qed.

Lemma kid_facts pre ot i C :
  otwf pre ot -> (i < 16)%N -> stored C pre ot ->
  otwf (pre ++ [i]) (kid ot i) ∧ stored C (pre ++ [i]) (kid ot i) ∧ tmsgs (pre ++ [i]) (kid ot i) ⊆ tmsgs pre ot.
Proof.
  intros Hw Hi Hs. destruct ot as [[v l|v cs]|].
  - split_and!; [done|by intros [|? ?]|cbn; set_solver].
  - split_and!; [by eapply otwf_child|by eapply stored_child|by apply tmsgs_child].
  - split_and!; [done|by intros [|? ?]|done].
Qed.

(** Slots reported one by one make the node reported. *)
Lemma captured_kid pre ota otb i p out out' :
  otwf pre ota -> otwf pre otb -> (i < 16)%N -> under (pre ++ [i]) p ->
  captured (kid ota i) (kid otb i) (own_leaf ota ∪ out.1, own_leaf otb ∪ out.2) out' p ->
  captured ota otb out out' p.
Proof.
  intros Ha Hb Hi Hu. unfold captured. cbn [fst snd]. rewrite !lookup_union.
  destruct (lmap_split pre ota i p Ha Hi Hu) as [[-> ->]|[-> ->]],
    (lmap_split pre otb i p Hb Hi Hu) as [[-> ->]|[-> ->]].
  all: change (lmap None) with (∅ : gmap Hash leafNode); rewrite ?lookup_empty, ?(left_id_L None (∪)); try done.
  all: intros [Hc|(E1 & E2 & Ev)]; [by left|left]; rewrite E1, E2.
  - cbn in Ev. apply fmap_None in Ev. by rewrite Ev, (left_id_L None (∪)).
  - symmetry in Ev. cbn in Ev. apply fmap_None in Ev. by rewrite Ev, (left_id_L None (∪)).
  - done.
Qed.

Lemma own_under pre ota (out out' : gmap Hash leafNode) p :
  otwf pre ota -> ¬ under pre p -> out' = own_leaf ota ∪ out -> out' !! p = out !! p.
Proof.
  intros Hw Hu ->. rewrite lookup_union. destruct ota as [[v l|v cs]|]; cbn [own_leaf];
    rewrite ?lookup_empty, ?(left_id_L None (∪)); [|done..].
  by rewrite (lmap_under pre), (left_id_L None (∪)).
Qed.

Definition diff_slots (left : nat) (na nb : option node) (pre : list N)
    (out : gmap Hash leafNode * gmap Hash leafNode) : M (Store B) (gmap Hash leafNode * gmap Hash leafNode) :=
  match left with
  | O => panic "diff: depth bound"
  | S left' => foldM (λ out nib,
      diffChildren left' (child_at (children_of na) (N.of_nat nib)) (child_at (children_of nb) (N.of_nat nib))
        (pre ++ [N.of_nat nib]) out) out (seq 0 16)
  end.

Lemma diffChildren_step left a b pre out s :
  ¬ (a = None ∧ b = None) ->
  diffChildren left a b pre out s =
  (if same_hash a b then mret out else
   na ← diffLoad a pre; nb ← diffLoad b pre;
   match children_of na, children_of nb with
   | None, None => mret (add_leaf na out.1, add_leaf nb out.2)
   | _, _ => diff_slots left na nb pre (add_leaf na out.1, add_leaf nb out.2)
   end) s.
Proof.
  intros Hn.
  destruct left, a, b; try (destruct Hn; done); cbn [diffChildren]; destruct (same_hash _ _); try done;
    unfold mbind, M_bind;
    (destruct (diffLoad _ pre s) as [[na|e|w] s1]; [|done..]);
    (destruct (diffLoad _ pre s1) as [[nb|e|w] s2]; [|done..]);
    unfold diff_slots; by destruct (children_of na) eqn:Ena, (children_of nb) eqn:Enb.
Qed.

Lemma captured_leaves ota otb out p :
  (∀ v cs, ota ≠ Some (TNode v cs)) -> (∀ v cs, otb ≠ Some (TNode v cs)) ->
  captured ota otb out (own_leaf ota ∪ out.1, own_leaf otb ∪ out.2) p.
Proof.
  intros Ha Hb. left. cbn [fst snd]. rewrite !lookup_union. split.
  - destruct ota as [[v l|v cs]|]; [done|by destruct (Ha v cs)|done].
  - destruct otb as [[v l|v cs]|]; [done|by destruct (Hb v cs)|done].
Qed.

(** The walk over the slots, given the walk below each. *)
Lemma diff_slots_ok left pre ota otb out s :
  length pre < 64 -> otwf pre ota -> otwf pre otb -> store_ok s ->
  stored (contents (s_backend s)) pre ota -> stored (contents (s_backend s)) pre otb ->
  no_collision (tmsgs pre ota) (tmsgs pre otb) ->
  (∀ i a b out s, (i < 16)%N -> otwf (pre ++ [i]) a -> otwf (pre ++ [i]) b -> store_ok s ->
    stored (contents (s_backend s)) (pre ++ [i]) a -> stored (contents (s_backend s)) (pre ++ [i]) b ->
    no_collision (tmsgs (pre ++ [i]) a) (tmsgs (pre ++ [i]) b) ->
    ∃ out' s', diffChildren left (ochild a) (ochild b) (pre ++ [i]) out s = (Ok out', s') ∧ reads s s' ∧
      (∀ p, ¬ under (pre ++ [i]) p -> out'.1 !! p = out.1 !! p ∧ out'.2 !! p = out.2 !! p) ∧
      (∀ p, under (pre ++ [i]) p -> captured a b out out' p)) ->
  ∃ out' s', diff_slots (S left) (node_of ota) (node_of otb) pre (own_leaf ota ∪ out.1, own_leaf otb ∪ out.2) s
      = (Ok out', s') ∧ reads s s' ∧
    (∀ p, ¬ under pre p -> out'.1 !! p = out.1 !! p ∧ out'.2 !! p = out.2 !! p) ∧
    (∀ p, under pre p -> captured ota otb out out' p).
Proof.
  intros Hp Ha Hb Ho Hsa Hsb Hc IH. set (out0 := (own_leaf ota ∪ out.1, own_leaf otb ∪ out.2)).
  cbn [diff_slots].
  destruct (foldM_seq (λ o nib, diffChildren left (child_at (children_of (node_of ota)) (N.of_nat nib))
      (child_at (children_of (node_of otb)) (N.of_nat nib)) (pre ++ [N.of_nat nib]) o)
    (λ k o s', reads s s' ∧ ∀ p,
       (under pre p -> N.to_nat (nibble p (length pre)) < k -> captured ota otb out o p) ∧
       (¬ (under pre p ∧ N.to_nat (nibble p (length pre)) < k) -> o.1 !! p = out0.1 !! p ∧ o.2 !! p = out0.2 !! p))
    16 0 out0 s) as (out' & s' & E1 & R1 & Hout).
  - split; [apply reads_refl|]. intros p. split; [lia|done].
  - intros i o s1 [R1 Hinv] Hi. rewrite !child_at_kid.
    assert (N.of_nat i < 16)%N as Hi' by lia.
    destruct (kid_facts pre ota _ _ Ha Hi' Hsa) as (Ka1 & Ka2 & Ka3).
    destruct (kid_facts pre otb _ _ Hb Hi' Hsb) as (Kb1 & Kb2 & Kb3).
    destruct (IH (N.of_nat i) (kid ota (N.of_nat i)) (kid otb (N.of_nat i)) o s1) as (o' & s2 & E2 & R2 & Hun & Hcap);
      [done|done|done|by eapply reads_ok|by rewrite (reads_contents _ _ R1)|by rewrite (reads_contents _ _ R1)
      |by eapply no_collision_sub|].
    exists o', s2. split; [done|]. split; [by eapply reads_trans|]. intros p.
    destruct (Hinv p) as [Hlt Hge]. destruct (decide (under (pre ++ [N.of_nat i]) p)) as [Hu|Hu].
    + pose proof Hu as (Hu' & _ & Hnib)%under_snoc. rewrite Hnib, Nat2N.id in *. split; [|naive_solver lia].
      intros _ _. eapply captured_kid; [exact Ha|exact Hb|exact Hi'|done|].
      destruct (Hge ltac:(lia)) as [G1 G2]. specialize (Hcap p Hu). unfold captured in *.
      rewrite G1, G2 in Hcap. exact Hcap.
    + destruct (Hun p Hu) as [U1 U2]. unfold captured in *. rewrite U1, U2. split.
      * intros Hu' Hk. apply Hlt; [done|].
        destruct (decide (N.to_nat (nibble p (length pre)) = i)) as [Ei|]; [|lia].
        destruct Hu. apply under_snoc. split_and!; [done..|lia].
      * intros Hk. apply Hge. intros [??]. apply Hk. split; [done|lia].
  - exists out', s'. split; [done|]. split; [done|]. split; intros p Hu.
    + destruct (Hout p) as [_ Hge]. destruct Hge as [-> ->]; [naive_solver|].
      split; [by eapply (own_under pre ota)|by eapply (own_under pre otb)].
    + apply (proj1 (Hout p)); [done|]. pose proof (nibble_lt16 p (length pre) Hp). lia.
Qed.

Lemma diffChildren_ok left pre ota otb out s :
  left + length pre = nibbles -> otwf pre ota -> otwf pre otb -> store_ok s ->
  stored (contents (s_backend s)) pre ota -> stored (contents (s_backend s)) pre otb ->
  no_collision (tmsgs pre ota) (tmsgs pre otb) ->
  ∃ out' s', diffChildren left (ochild ota) (ochild otb) pre out s = (Ok out', s') ∧ reads s s' ∧
    (∀ p, ¬ under pre p -> out'.1 !! p = out.1 !! p ∧ out'.2 !! p = out.2 !! p) ∧
    (∀ p, under pre p -> captured ota otb out out' p).
Proof.
  revert pre ota otb out s. induction left as [|left IH]; intros pre ota otb out s Hn Ha Hb Ho Hsa Hsb Hc.
  all: destruct (decide (ochild ota = None ∧ ochild otb = None)) as [[Ea Eb]|Hsome];
    [exists out, s; rewrite Ea, Eb; split_and!; [done|apply reads_refl|done|intros p _; right];
     destruct ota, otb; done|].
  all: rewrite diffChildren_step by done; destruct (same_hash (ochild ota) (ochild otb)) eqn:Esh;
    [exists out, s; split_and!; [done|apply reads_refl|done|]; intros p _; right; split_and!; [done..|];
     destruct ota as [ta|], otb as [tb|]; try done; apply bool_decide_eq_true in Esh;
     by apply (lmap_binding pre)|].
  all: destruct (diffLoad_ok s pre ota Ho Ha Hsa) as (s1 & E1 & R1); rewrite (bind_ok _ _ _ _ _ E1).
  all: destruct (diffLoad_ok s1 pre otb) as (s2 & E2 & R2);
    [by eapply reads_ok|done|by rewrite (reads_contents _ _ R1)|]; rewrite (bind_ok _ _ _ _ _ E2).
  all: pose proof (reads_trans _ _ _ R1 R2) as R; rewrite !add_leaf_own.
  all: assert ((∀ v cs, ota ≠ Some (TNode v cs)) ∧ (∀ v cs, otb ≠ Some (TNode v cs)) ∨
      (∃ v cs, ota = Some (TNode v cs) ∨ otb = Some (TNode v cs))) as [[Hna Hnb]|Hnode]
    by (destruct ota as [[]|], otb as [[]|]; naive_solver).
  1,3: exists (own_leaf ota ∪ out.1, own_leaf otb ∪ out.2), s2;
    split; [destruct ota as [[]|], otb as [[]|]; naive_solver|]; split; [done|];
    split; intros p Hu; [split; [by eapply (own_under pre ota)|by eapply (own_under pre otb)]|by apply captured_leaves].
  - exfalso. assert (length pre < 64); [|unfold nibbles in *; lia].
    destruct Hnode as (v & cs & [->| ->]); [by inversion Ha|by inversion Hb].
  - destruct (diff_slots_ok left pre ota otb out s2) as (out' & s' & E3 & R3 & Hun & Hcap);
      [unfold nibbles in *; lia|done|done|by eapply reads_ok|by rewrite (reads_contents _ _ R)..|done| |].
    { intros i a b out1 s3 Hi Wa Wb Ho3 Sa Sb Hc3. apply IH; try done. rewrite length_app. cbn. lia. }
    exists out', s'. split; [|split; [by eapply reads_trans|done]].
    destruct ota as [[]|], otb as [[]|]; try (exact E3); naive_solver.
Qed.

(** ** From leaves to changes *)

(** [c] is a change between two states, outside the reserved leaf. *)
Definition is_change (hp : Hash) (sta stb : gmap Hash bytes) (c : Change) : Prop :=
  ch_Path c ≠ hp ∧
  if ch_Deleted c
  then ch_Value c = [] ∧ is_Some (sta !! ch_Path c) ∧ stb !! ch_Path c = None
  else stb !! ch_Path c = Some (ch_Value c) ∧ sta !! ch_Path c ≠ Some (ch_Value c).

Definition put_of (hp : Hash) (old : gmap Hash leafNode) (st : gmap Hash bytes) (e : Hash * leafNode) :
    option Change :=
  if decide (e.1 = hp) then None
  else if decide (∃ l, old !! e.1 = Some l ∧ l_vh l = l_vh e.2) then None
  else Some (MkChange e.1 (default [] (st !! e.1)) false).

Definition leaf_readable s (st : gmap Hash bytes) (e : Hash * leafNode) : Prop :=
  l_path e.2 = e.1 ∧ ∃ pt, st !! e.1 = Some pt ∧ l_vh e.2 = vhOf (s_ck s) (l_path e.2) pt ∧
    has_value (contents (s_backend s)) (s_cipher s) e.2 pt.

Lemma collect_puts_ok hp old new st s :
  (∀ e, e ∈ range_map new -> leaf_readable s st e) ->
  ∃ s', collect_puts hp old new s = (Ok (omap (put_of hp old st) (range_map new)), s') ∧ reads s s'.
Proof.
  unfold collect_puts. intros Hall.
  enough (∀ l out s1, reads s s1 -> (∀ e, e ∈ l -> leaf_readable s st e) ->
    ∃ s', foldM (λ (out : list Change) '(path, leaf),
      if decide (path = hp) then mret out
      else if decide (∃ o, old !! path = Some o ∧ l_vh o = l_vh leaf) then mret out
      else value ← readValue (l_path leaf) (l_vh leaf) (l_valueVersion leaf);
           mret (out ++ [MkChange path value false])) out l s1
      = (Ok (out ++ omap (put_of hp old st) l), s') ∧ reads s s') as Hgen.
  { apply (Hgen (range_map new) [] s (reads_refl s)). exact Hall. }
  clear Hall. induction l as [|[p leaf] l IH]; intros out s1 R1 Hall.
  { exists s1. cbn. by rewrite app_nil_r. }
  assert (∀ e, e ∈ l -> leaf_readable s st e) as Hl by (intros e He; apply Hall; by right).
  cbn [foldM omap list_omap]. unfold put_of at 1. cbn [fst snd].
  destruct (decide (p = hp)); [rewrite bind_ret; by apply IH|].
  destruct (decide (∃ o, old !! p = Some o ∧ l_vh o = l_vh leaf)); [rewrite bind_ret; by apply IH|].
  destruct (Hall (p, leaf) ltac:(left)) as (Ep & pt & Hpt & Hvh & Hv). cbn [fst snd] in *.
  destruct (reads_fields _ _ R1) as (F1 & F2 & _).
  destruct (readValue_ok s1 leaf pt) as (s2 & E2 & R2);
    [by rewrite (reads_contents _ _ R1), F2|by rewrite F1|].
  rewrite (bind_ok _ _ _ (out ++ [MkChange p pt false]) s2) by (by rewrite (bind_ok _ _ _ _ _ E2)).
  rewrite Hpt. cbn [default from_option id].
  destruct (IH (out ++ [MkChange p pt false]) s2) as (s3 & E3 & R3); [by eapply reads_trans|done|].
  exists s3. split; [|done]. rewrite E3. by rewrite <-app_assoc.
Qed.

Lemma elem_of_dels hp old new c :
  c ∈ collect_dels hp old new ↔
  ch_Path c ≠ hp ∧ ch_Deleted c = true ∧ ch_Value c = [] ∧ is_Some (old !! ch_Path c) ∧ new !! ch_Path c = None.
Proof.
  unfold collect_dels. rewrite list_elem_of_omap. split.
  - intros ([p l] & Hin%elem_of_range & Ep). destruct (decide (p = hp)); [done|].
    destruct (new !! p) eqn:En; [done|]. injection Ep as <-. cbn. eauto 10.
  - destruct c as [p v d]. cbn. intros (Hp & -> & -> & [l Hl] & Hn). exists (p, l).
    rewrite elem_of_range. split; [done|]. by rewrite decide_False, Hn.
Qed.

Lemma elem_of_puts hp old new st c :
  (∀ p l, new !! p = Some l -> is_Some (st !! p)) ->
  c ∈ omap (put_of hp old st) (range_map new) ↔
  ch_Path c ≠ hp ∧ ch_Deleted c = false ∧ ∃ l, new !! ch_Path c = Some l ∧
    st !! ch_Path c = Some (ch_Value c) ∧ l_vh <$> old !! ch_Path c ≠ Some (l_vh l).
Proof.
  intros Hst. rewrite list_elem_of_omap. unfold put_of. split.
  - intros ([p l] & Hin%elem_of_range & Ep). cbn [fst snd] in Ep. destruct (decide (p = hp)); [done|].
    destruct (decide _) as [|Hne]; [done|]. injection Ep as <-. cbn. split_and!; [done..|].
    exists l. destruct (Hst p l Hin) as [v Hv]. rewrite Hv. split_and!; [done..|].
    rewrite fmap_Some. naive_solver.
  - destruct c as [p v d]. cbn. intros (Hp & -> & l & Hl & Hv & Hne). exists (p, l).
    rewrite elem_of_range. split; [done|]. cbn. rewrite decide_False, decide_False, Hv; [done| |done].
    intros (o & Ho & Eo). apply Hne. by rewrite Ho, <-Eo.
Qed.

Lemma view_lmap C ck cipher v ot st p l :
  view C ck cipher v ot st -> lmap ot !! p = Some l ->
  l_path l = p ∧ ∃ pt, st !! p = Some pt ∧ l_vh l = vhOf ck p pt ∧ has_value C cipher l pt.
Proof.
  intros V (Hl & <-)%(lookup_lmap []); [|apply V]. split; [done|]. by apply (v_leaf _ _ _ _ _ _ V).
Qed.

Lemma view_lmap_None C ck cipher v ot st p :
  view C ck cipher v ot st -> lmap ot !! p = None ↔ st !! p = None.
Proof.
  intros V. rewrite !eq_None_not_Some. split; intros Hn [x Hx]; destruct Hn.
  - destruct (v_dom _ _ _ _ _ _ V p ltac:(eauto)) as (l & Hl & Hp). exists l.
    apply (lookup_lmap []); [apply V|done].
  - destruct (view_lmap _ _ _ _ _ _ _ _ V Hx) as (_ & pt & ? & _). eauto.
Qed.

(** The leaves reported by a full walk give exactly the changes. *)
Lemma changes_exact C ck cipher va vb ota otb sta stb hp out c :
  view C ck cipher va ota sta -> view C ck cipher vb otb stb ->
  (∀ p a b, sta !! p = Some a -> stb !! p = Some b -> vhOf ck p a = vhOf ck p b -> a = b) ->
  (∀ p, captured ota otb (∅, ∅) out p) ->
  c ∈ omap (put_of hp out.1 stb) (range_map out.2) ++ collect_dels hp out.1 out.2 ↔ is_change hp sta stb c.
Proof.
  intros Va Vb Hinj Hcap. destruct c as [p v d].
  assert ((out.1 !! p = lmap ota !! p ∧ out.2 !! p = lmap otb !! p) ∨
    (out.1 !! p = None ∧ out.2 !! p = None ∧ l_vh <$> lmap ota !! p = l_vh <$> lmap otb !! p)) as Hp.
  { specialize (Hcap p). unfold captured in Hcap. cbn [fst snd] in Hcap.
    by rewrite !lookup_empty, !(right_id_L None (∪)) in Hcap. }
  rewrite elem_of_app, elem_of_dels, elem_of_puts.
  2: { intros q l Hq. specialize (Hcap q). unfold captured in Hcap. cbn [fst snd] in Hcap.
       rewrite !lookup_empty, !(right_id_L None (∪)) in Hcap.
       destruct Hcap as [[_ E2]|(_ & E2 & _)]; [|congruence]. rewrite E2 in Hq.
       destruct (view_lmap _ _ _ _ _ _ _ _ Vb Hq) as (_ & pt & ? & _). eauto. }
  unfold is_change. cbn [ch_Path ch_Value ch_Deleted].
  pose proof (view_lmap_None _ _ _ _ _ _ p Va) as Na. pose proof (view_lmap_None _ _ _ _ _ _ p Vb) as Nb.
  split.
  - intros [(Hne & -> & l & Hl & Hv & Hvh)|(Hne & -> & -> & [l Hl] & Hn)]; (split; [done|]).
    + split; [done|]. destruct Hp as [[E1 E2]|(_ & E2 & _)]; [|congruence]. rewrite E2 in Hl. rewrite E1 in Hvh.
      destruct (view_lmap _ _ _ _ _ _ p l Vb Hl) as (_ & b & Hb & Evb & _). intros Hsa. apply Hvh.
      destruct (lmap ota !! p) as [la|] eqn:Ea; [|rewrite (proj1 Na eq_refl) in Hsa; done].
      destruct (view_lmap _ _ _ _ _ _ p la Va Ea) as (_ & a & Hsa' & Eva & _). cbn. congruence.
    + destruct Hp as [[E1 E2]|(E1 & _)]; [|congruence]. rewrite E1 in Hl. rewrite E2 in Hn.
      destruct (view_lmap _ _ _ _ _ _ p l Va Hl) as (_ & a & Hsa & _). split_and!; [done|by exists a|by apply Nb].
  - intros [Hne Hd]. destruct d; [right|left]; (split; [done|]); (split; [done|]).
    + destruct Hd as (-> & [a Hsa] & Hsb). apply Nb in Hsb. rewrite Hsb in Hp.
      destruct (lmap ota !! p) as [la|] eqn:Ea; [|rewrite (proj1 Na eq_refl) in Hsa; done].
      destruct Hp as [[E1 E2]|(_ & _ & Ev)]; [|done]. split_and!; [done|by rewrite E1|done].
    + destruct Hd as [Hsb Hsa]. destruct (lmap otb !! p) as [lb|] eqn:Eb; [|rewrite (proj1 Nb eq_refl) in Hsb; done].
      destruct (view_lmap _ _ _ _ _ _ p lb Vb Eb) as (_ & b & Hsb' & Evb & _). simplify_eq.
      assert (l_vh <$> lmap ota !! p ≠ Some (l_vh lb)) as Hvne.
      { intros (la & Ea & Ev)%fmap_Some. destruct (view_lmap _ _ _ _ _ _ p la Va Ea) as (_ & a & Hsa' & Eva & _).
        apply Hsa. rewrite Hsa'. f_equal. eapply Hinj; [done..|congruence]. }
      destruct Hp as [[E1 E2]|(_ & _ & Ev)]; [|done]. exists lb. by rewrite E1, E2.
Qed.

Lemma changes_NoDup hp old new st :
  NoDup (ch_Path <$> omap (put_of hp old st) (range_map new) ++ collect_dels hp old new).
Proof.
  rewrite fmap_app, NoDup_app. split_and!.
  - pose proof (NoDup_range_fst new) as Hnd. induction (range_map new) as [|[p l] es IH]; [constructor|].
    apply NoDup_cons in Hnd as [Hni Hnd]. specialize (IH Hnd). cbn [omap list_omap].
    destruct (put_of hp old st (p, l)) as [c|] eqn:Ec; [|done]. constructor; [|done].
    assert (ch_Path c = p) as ->.
    { revert Ec. unfold put_of. repeat (destruct (decide _); [done|]). by intros [= <-]. }
    intros (c' & Ep & ([q l'] & Hin & Eq)%list_elem_of_omap)%list_elem_of_fmap. apply Hni.
    revert Eq. unfold put_of. repeat (destruct (decide _); [done|]). intros [= <-]. cbn in Ep. subst q.
    apply list_elem_of_fmap. by exists (p, l').
  - intros p (c & -> & ([q l'] & Hin%elem_of_range & Eq)%list_elem_of_omap)%list_elem_of_fmap
      (c' & Ep & (_ & _ & _ & _ & Hn)%elem_of_dels)%list_elem_of_fmap.
    revert Eq. unfold put_of. repeat (destruct (decide _); [done|]). intros [= <-]. cbn in *. congruence.
  - unfold collect_dels. pose proof (NoDup_range_fst old) as Hnd.
    induction (range_map old) as [|[p l] es IH]; [constructor|].
    apply NoDup_cons in Hnd as [Hni Hnd]. specialize (IH Hnd). cbn [omap list_omap].
    destruct (decide (p = hp)); [done|]. destruct (new !! p); [done|]. constructor; [|done].
    intros (c' & Ep & ([q l'] & Hin & Eq)%list_elem_of_omap)%list_elem_of_fmap. apply Hni.
    destruct (decide (q = hp)); [done|]. destruct (new !! q); [done|]. injection Eq as <-. cbn in Ep. subst q.
    apply list_elem_of_fmap. by exists (p, l').
Qed.

Lemma tmsgs_root ck ot st :
  otwf [] ot -> leaves_state ck (oleaves ot) st -> tmsgs [] ot ⊆ spec_msgs (commitments ck st).
Proof.
  intros Hw Hl. destruct ot as [t|]; [|intros x Hx; by apply not_elem_of_nil in Hx]. unfold spec_msgs, tmsgs.
  change (256 - 4 * length (@nil N)) with 256. change (4 * length (@nil N)) with 0.
  pose proof (smt_msgs_perm 256 0 _ _ (leaves_commitments ck (Some t) st Hw Hl)) as Em.
  cbn [oleaves] in Em. rewrite Em. exact (λ x Hx, Hx).
Qed.

(** The reply of [ChangesAt]: the changes between the states of the two versions,
    each once, in increasing path order. *)
Lemma ChangesAt_ok s ot st v ota otb sta stb :
  repr s ot st -> (0 < v)%N -> (v ≤ s_version s)%N ->
  view (contents (s_backend s)) (s_ck s) (s_cipher s) (v - 1) ota sta ->
  view (contents (s_backend s)) (s_ck s) (s_cipher s) v otb stb ->
  (∀ t, ota = Some t -> t_hash t ≠ placeholderHash) -> (∀ t, otb = Some t -> t_hash t ≠ placeholderHash) ->
  no_collision (spec_msgs (commitments (s_ck s) sta)) (spec_msgs (commitments (s_ck s) stb)) ->
  (∀ p a b, sta !! p = Some a -> stb !! p = Some b -> vhOf (s_ck s) p a = vhOf (s_ck s) p b -> a = b) ->
  ∃ cs s', ChangesAt v s = (Ok cs, s') ∧ reads s s' ∧ path_sorted ch_Path cs ∧
    ∀ c, c ∈ cs ↔ is_change (history_path (s_ck s)) sta stb c.
Proof.
  intros Hr Hv0 Hv Va Vb Hpa Hpb Hc Hinj. unfold ChangesAt. rewrite bind_gets, decide_False by lia.
  destruct (loadRootRecord_ok s (v - 1) (root_of (ochild ota))) as (s1 & E1 & R1); [apply Va|].
  rewrite (bind_ok _ _ _ _ _ E1).
  destruct (loadRootRecord_ok s1 v (root_of (ochild otb))) as (s2 & E2 & R2);
    [rewrite (reads_contents _ _ R1); apply Vb|].
  rewrite (bind_ok _ _ _ _ _ E2). pose proof (reads_trans _ _ _ R1 R2) as R12.
  destruct (reads_fields _ _ R12) as (F1 & F2 & _).
  destruct (loadRootChild_ok s2 (v - 1) ota sta) as (s3 & E3 & R3);
    [eapply reads_ok; [done|apply Hr]|by rewrite (reads_contents _ _ R12), F1, F2|done|].
  rewrite (bind_ok _ _ _ _ _ E3). pose proof (reads_trans _ _ _ R12 R3) as R13.
  destruct (reads_fields _ _ R13) as (G1 & G2 & _).
  destruct (loadRootChild_ok s3 v otb stb) as (s4 & E4 & R4);
    [eapply reads_ok; [done|apply Hr]|by rewrite (reads_contents _ _ R13), G1, G2|done|].
  rewrite (bind_ok _ _ _ _ _ E4). pose proof (reads_trans _ _ _ R13 R4) as R14.
  destruct (reads_fields _ _ R14) as (I1 & I2 & _).
  assert (∀ o stx vx, view (contents (s_backend s)) (s_ck s) (s_cipher s) vx o stx ->
    tmsgs [] o ⊆ spec_msgs (commitments (s_ck s) stx)) as Hmsg.
  { intros o stx vx V. exact (tmsgs_root _ _ _ (v_twf _ _ _ _ _ _ V) (view_leaves_state _ _ _ _ _ _ V)). }
  destruct (diffChildren_ok nibbles [] ota otb (∅, ∅) s4) as (out & s5 & E5 & R5 & _ & Hcap);
    [done|apply Va|apply Vb|eapply reads_ok; [done|apply Hr]|rewrite (reads_contents _ _ R14); apply Va
    |rewrite (reads_contents _ _ R14); apply Vb|eapply no_collision_sub; eauto|].
  rewrite (bind_ok _ _ _ _ _ E5). destruct out as [old new]. rewrite bind_gets.
  pose proof (reads_trans _ _ _ R14 R5) as R15. destruct (reads_fields _ _ R15) as (J1 & J2 & _).
  rewrite J1. change (pathOf (s_ck s) HistoryKey) with (history_path (s_ck s)).
  destruct (collect_puts_ok (history_path (s_ck s)) old new stb s5) as (s6 & E6 & R6).
  { intros [p l] Hin%elem_of_range. specialize (Hcap p (under_nil p)). unfold captured in Hcap. cbn [fst snd] in Hcap.
    rewrite !lookup_empty, !(right_id_L None (∪)) in Hcap.
    destruct Hcap as [[_ En]|(_ & En & _)]; [|congruence]. rewrite En in Hin.
    destruct (view_lmap _ _ _ _ _ _ _ _ Vb Hin) as (Ep & pt & ? & ? & ?). unfold leaf_readable. cbn [fst snd].
    split; [done|]. exists pt. rewrite Ep, J1, J2, (reads_contents _ _ R15). done. }
  rewrite (bind_ok _ _ _ _ _ E6).
  set (ps := omap _ _). set (ds := collect_dels _ _ _).
  exists (merge_sort change_le (ps ++ ds)), s6. split; [done|]. split; [by eapply reads_trans|].
  assert (merge_sort change_le (ps ++ ds) ≡ₚ ps ++ ds) as Hperm by apply merge_sort_Permutation. split.
  - apply path_sorted_le.
    + apply StronglySorted_merge_sort; apply _.
    + rewrite Hperm. by apply changes_NoDup.
  - intros c. rewrite Hperm.
    apply (changes_exact (contents (s_backend s)) (s_ck s) (s_cipher s) (v - 1) v ota otb sta stb
             (history_path (s_ck s)) (old, new)); auto using under_nil.
Qed.

(** ** Replaying a transition *)

Definition replay (cs : list Change) (st : gmap Hash bytes) : gmap Hash bytes :=
  foldl (λ st c, if ch_Deleted c then delete (ch_Path c) st else <[ch_Path c := ch_Value c]> st) st cs.

Lemma replay_lookup cs st p :
  NoDup (ch_Path <$> cs) ->
  replay cs st !! p = match list_find (λ c, ch_Path c = p) cs with
                      | Some (_, c) => if ch_Deleted c then None else Some (ch_Value c)
                      | None => st !! p
                      end.
Proof.
  revert st. induction cs as [|c cs IH]; intros st Hnd; [done|]. cbn in Hnd. apply NoDup_cons in Hnd as [Hni Hnd].
  cbn [replay foldl]. unfold replay in IH. rewrite IH by done. cbn [list_find].
  destruct (decide (ch_Path c = p)) as [<-|Hne].
  - assert (list_find (λ c', ch_Path c' = ch_Path c) cs = None) as ->.
    { apply list_find_None, Forall_forall. intros c' Hin Ec. apply Hni. rewrite <-Ec. by apply list_elem_of_fmap_2. }
    destruct (ch_Deleted c); [by rewrite lookup_delete_eq|by rewrite lookup_insert_eq].
  - destruct (list_find (λ c', ch_Path c' = p) cs) as [[i c']|]; cbn; [done|].
    destruct (ch_Deleted c); [by rewrite lookup_delete_ne|by rewrite lookup_insert_ne].
Qed.

Lemma replay_changes hp sta stb cs :
  NoDup (ch_Path <$> cs) -> (∀ c, c ∈ cs ↔ is_change hp sta stb c) ->
  ∀ p, p ≠ hp -> replay cs sta !! p = stb !! p.
Proof.
  intros Hnd Hcs p Hp. rewrite replay_lookup by done.
  destruct (list_find (λ c, ch_Path c = p) cs) as [[i c]|] eqn:Ef.
  - apply list_find_Some in Ef as (Hi & <- & _). apply list_elem_of_lookup_2, Hcs in Hi as [_ Hd].
    destruct (ch_Deleted c); naive_solver.
  - apply list_find_None in Ef. rewrite Forall_forall in Ef.
    destruct (sta !! p) as [a|] eqn:Ea, (stb !! p) as [b|] eqn:Eb; [|..|done].
    + destruct (decide (a = b)) as [->|Hab]; [done|]. exfalso. apply (Ef (MkChange p b false)); [|done].
      apply Hcs. unfold is_change. cbn. rewrite Ea, Eb. naive_solver.
    + exfalso. apply (Ef (MkChange p [] true)); [|done]. apply Hcs. unfold is_change. cbn. rewrite Ea, Eb. eauto.
    + exfalso. apply (Ef (MkChange p b false)); [|done]. apply Hcs. unfold is_change. cbn. rewrite Ea, Eb. done.
Qed.
End diff.
