(* ===== verification/Snapshot.v ===== *)
(** Leaf export and restore: [ledger/snapshot.go].

    An export walks one version in nibble order, skipping what lies at or below
    the resume point; a chunk is exactly the next leaves in path order.  A restore
    inserts exported leaves by path in one commit, and a stamp moves the restored
    store to the exported version.  Exporting and restoring under the same
    commitment key gives the same root. *)

From S2P Require Import Prelude Errors Sha256 Hashing Node Smt Aead Backend Cache Store Tree StoreRead Update StoreWrite Records StoreCommit StoreFrame History Diff.

Record Leaf := MkLeaf { lf_Path : Hash; lf_Value : bytes }.

#[export] Instance Leaf_eq_dec : EqDecision Leaf.
Proof. solve_decision. Defined.

(** The byte loop of [pathGreater]. *)
Fixpoint bytes_greater (a b : bytes) : bool :=
  match a, b with
  | x :: a', y :: b' => if decide (bn x = bn y) then bytes_greater a' b' else (bn y <? bn x)%N
  | _, _ => false
  end.
Definition pathGreater (a b : Hash) : bool := bytes_greater (b32 a) (b32 b).

Section snapshot.
Context `{H : Hasher} `{G : GCM} `{E : Entropy} `{MR : MapRange} {B : Type} `{BK : Backend B}.
Abbreviation M := (M (Store B)).

(** The leaf is at or before the resume point. *)
Definition streamed (startAfter : option Hash) (path : Hash) : bool :=
  match startAfter with Some a => negb (pathGreater path a) | None => false end.

(** The slot lies wholly before the resume point. *)
Definition below (resumeNib : option N) (nib : N) : bool :=
  match resumeNib with Some r => (nib <? r)%N | None => false end.

(** The walk below one child: whether it was exhausted, and the leaves so far.
    The loop over the slots stops at the first child that was not exhausted.
    [left] bounds the recursion; 64 nibbles are enough on stored trees. *)
Fixpoint collectLeaves (left : nat) (c : child) (prefix : list N) (startAfter : option Hash)
    (max : Z) (out : list Leaf) : M (bool * list Leaf) :=
  if decide (max ≤ Z.of_nat (length out))%Z then mret (false, out)
  else
    n ← loadNode (NodeKey (c_version c) prefix) (c_hash c);
    match n with
    | NLeaf leaf =>
        if streamed startAfter (l_path leaf) then mret (true, out)
        else
          value ← readValue (l_path leaf) (l_vh leaf) (l_valueVersion leaf);
          mret (true, out ++ [MkLeaf (l_path leaf) value])
    | NInternal cs =>
        match left with
        | O => panic "index out of range"
        | S left' =>
            let resumeNib := (λ a, nibble a (length prefix)) <$> startAfter in
            foldM (λ '(exhausted, out) nib,
                if negb exhausted then mret (false, out)
                else if below resumeNib (N.of_nat nib) then mret (true, out)
                else
                  match slot cs (N.of_nat nib) with
                  | None => mret (true, out)
                  | Some cc =>
                      let sa := if decide (resumeNib = Some (N.of_nat nib)) then startAfter else None in
                      collectLeaves left' cc (prefix ++ [N.of_nat nib]) sa max out
                  end)
              (true, out) (seq 0 16)
        end
    end.

Definition SnapshotLeaves (version : N) (startAfter : option Hash) (max : Z) : M (list Leaf * bool) :=
  root ← loadRootRecord version;
  rootChild ← loadRootChild root version;
  match rootChild with
  | None => mret ([], true)
  | Some c =>
      '(done, leaves) ← collectLeaves nibbles c [] startAfter max [];
      mret (leaves, done)
  end.

Definition PinVersion (version : option N) : M unit := modify (set_pin version).

(** One entry per path, the last one given; every entry is a put. *)
Definition restore_map (leaves : list Leaf) : gmap Hash (option bytes) :=
  foldl (λ m l, <[lf_Path l := Some (lf_Value l)]> m) ∅ leaves.

(** The head leaf of a chained source arrives as data. *)
Definition refreshHead : M unit :=
  history ← gets s_history;
  if history : bool then
    val ← Get HistoryKey;
    match val with
    | Some v => if decide (length v = HashSize) then modify (set_historyHead (copy32 v)) else mret tt
    | None => mret tt
    end
  else mret tt.

Definition RestoreLeaves (leaves : list Leaf) : M (Hash * N) :=
  let deduped := restore_map leaves in
  if decide (size deduped = 0) then Root
  else
    version ← gets s_version;
    '(us, acc) ← seal_updates (newAcc (wrap64 (version + 1))) (range_map deduped);
    oldRoot ← gets s_rootChild;
    '(newRootChild, acc) ← applySubtree nibbles acc oldRoot [] (sortUpdates us);
    if childEq newRootChild oldRoot then Root
    else
      r ← commit acc newRootChild (root_of newRootChild);
      refreshHead;;
      mret r.

Definition StampVersion (version : N) : M unit :=
  cur ← gets s_version;
  if decide (version < cur)%N then fail (errInvalid "cannot stamp version %d below current %d")
  else
    root ← gets s_root;
    ckpt ← sealCheckpoint root version;
    rc ← gets s_rootChild;
    extra ← (match rc with
             | None => mret []
             | Some c =>
                 n ← loadNode (rootNodeKey (c_version c)) (c_hash c);
                 modify (set_head root cur (Some (Child version (c_hash c) (c_isLeaf c))));;
                 mret [bput (nodeRecordKey (rootNodeKey version)) (node_encode n)]
             end);
    backend (b_write ([bput (rootRecordKey version) (b32 root); bput checkpointRecordKey ckpt] ++ extra));;
    modify (λ s, set_head (s_root s) version (s_rootChild s) s).
End snapshot.

(** * Order *)

Lemma bytes_greater_lt a b : length a = length b -> bytes_greater a b = true ↔ bytes_lt b a.
Proof.
  unfold bytes_lt. revert b. induction a as [|x a IH]; intros [|y b] Hl; try done. cbn in Hl |- *.
  destruct (decide (bn x = bn y)) as [->|Hne].
  - rewrite N.compare_refl. apply IH. by injection Hl.
  - rewrite N.ltb_lt. destruct (N.compare_spec (bn y) (bn x)); [congruence|done|]. split; [lia|done].
Qed.

Lemma pathGreater_lt a b : pathGreater a b = true ↔ bytes_lt (b32 b) (b32 a).
Proof. apply bytes_greater_lt. by rewrite !length_b32. Qed.

(** A later slot holds later paths. *)
Lemma nibble_path_lt pre p q :
  under pre p -> under pre q -> length pre < 64 ->
  (nibble p (length pre) < nibble q (length pre))%N -> bytes_lt (b32 p) (b32 q).
Proof.
  intros Hp Hq Hl Hn. destruct (bytes_lt_total (b32 p) (b32 q)) as [?|[Eq|Hlt]]; [done|..].
  - apply (inj b32) in Eq as ->. lia.
  - pose proof (path_lt_nibble pre q p Hq Hp Hl Hlt). lia.
Qed.

Lemma path_sorted_app {A} (f : A -> Hash) l1 l2 :
  path_sorted f l1 -> path_sorted f l2 ->
  (∀ x y, x ∈ l1 -> y ∈ l2 -> bytes_lt (b32 (f x)) (b32 (f y))) -> path_sorted f (l1 ++ l2).
Proof. intros H1 H2 Hxy. by apply StronglySorted_app_2. Qed.

(** The leaves of a stored tree come in path order. *)
Lemma slots_sorted pre k sl :
  length pre < 64 -> slots_wf pre k sl ->
  (∀ i t, sl !! i = Some (Some t) -> path_sorted l_path (leaves t)) ->
  path_sorted l_path (concat (oleaves <$> sl)).
Proof.
  intros Hp. revert k. induction sl as [|oc sl IH]; intros k Hs Ht; [constructor|].
  pose proof Hs as [Hoc Hs']%slots_wf_cons. cbn -[leaves]. apply path_sorted_app.
  - destruct oc as [t|]; [by apply (Ht 0)|constructor].
  - apply (IH (S k)); [done|]. intros i. by apply (Ht (S i)).
  - intros x y Hx Hy. destruct oc as [t|]; [|by apply not_elem_of_nil in Hx].
    pose proof (twf_leaves_under _ _ _ Hoc Hx) as (Hux & _ & Hnx)%under_snoc.
    destruct (slots_leaf _ _ _ _ Hs' Hy) as (Huy & _ & i & _ & Hny).
    apply (nibble_path_lt pre); [done..|]. lia.
Qed.

Lemma twf_sorted pre t : twf pre t -> path_sorted l_path (leaves t).
Proof.
  intros Hw. induction Hw as [|pre v cs Hl Hp Hf Hv Hc IH Hb]; [repeat constructor|].
  rewrite leaves_node. by apply (slots_sorted pre 0).
Qed.

(** * Chunks *)

Definition after (sa : option Hash) (l : leafNode) : Prop :=
  match sa with Some a => bytes_lt (b32 a) (b32 (l_path l)) | None => True end.
#[export] Instance after_dec sa l : Decision (after sa l).
Proof. destruct sa; unfold after; apply _. Defined.

Lemma streamed_after sa l : streamed sa (l_path l) = false ↔ after sa l.
Proof.
  destruct sa as [a|]; cbn; [|done]. rewrite negb_false_iff. apply pathGreater_lt.
Qed.

Definition export (st : gmap Hash bytes) (l : leafNode) : Leaf :=
  MkLeaf (l_path l) (default [] (st !! l_path l)).

(** The next leaves when [out] are already collected and [rest] remain. *)
Definition chunk (m : nat) (out : list Leaf) (rest : list Leaf) : bool * list Leaf :=
  (bool_decide (length out + length rest ≤ m), out ++ take (m - length out) rest).

Lemma chunk_nil m out : length out ≤ m -> chunk m out [] = (true, out).
Proof. intros Hl. unfold chunk. cbn. by rewrite bool_decide_true, take_nil, app_nil_r by lia. Qed.

Lemma chunk_app m out r1 r2 :
  length out ≤ m ->
  chunk m out (r1 ++ r2) =
  (if (chunk m out r1).1 then chunk m (chunk m out r1).2 r2 else (false, (chunk m out r1).2)).
Proof.
  intros Hm. unfold chunk. cbn [fst snd]. rewrite (bool_decide_decide (length out + length r1 ≤ m)).
  destruct (decide (length out + length r1 ≤ m)) as [Hd|Hd].
  - rewrite take_app, (take_ge r1), !length_app, <-app_assoc by lia.
    f_equal; [apply bool_decide_ext; lia|]. do 3 f_equal. lia.
  - rewrite length_app, take_app_le by lia. f_equal. apply bool_decide_false. lia.
Qed.

Section collect.
Context `{H : Hasher} `{G : GCM} `{E : Entropy} `{MR : MapRange}.
Context {B : Type} `{BK : Backend B} `{!BackendSpec B} `{!BackendReliable B}.
Implicit Types s : Store B.

Variables (C : gmap bytes bytes) (ck : bytes) (cipher : option bytes32) (st : gmap Hash bytes) (max : Z).
Let m := Z.to_nat max.

Definition readable (l : leafNode) : Prop :=
  ∃ pt, st !! l_path l = Some pt ∧ l_vh l = vhOf ck (l_path l) pt ∧ has_value C cipher l pt.

Definition runs s : Prop :=
  store_ok s ∧ contents (s_backend s) = C ∧ s_ck s = ck ∧ s_cipher s = cipher.

Lemma runs_reads s s' : reads s s' -> runs s -> runs s'.
Proof.
  intros R (Ho & EC & Ek & Ec). destruct (reads_fields _ _ R) as (F1 & F2 & _).
  split_and!; [by eapply reads_ok|by rewrite (reads_contents _ _ R)|congruence..].
Qed.

(** What is left of a subtree after the resume point. *)
Definition rest (sa : option Hash) (ls : list leafNode) : list Leaf := export st <$> filter (after sa) ls.

Lemma rest_app sa l1 l2 : rest sa (l1 ++ l2) = rest sa l1 ++ rest sa l2.
Proof. unfold rest. by rewrite filter_app, fmap_app. Qed.

(** How the resume point filters one slot. *)
Lemma rest_slot pre sa i ls :
  length pre < 64 -> (∀ a, sa = Some a -> under pre a) -> (∀ l, l ∈ ls -> under (pre ++ [i]) (l_path l)) ->
  rest sa ls =
  (if below ((λ a, nibble a (length pre)) <$> sa) i then []
   else rest (if decide ((λ a, nibble a (length pre)) <$> sa = Some i) then sa else None) ls).
Proof.
  intros Hp Hsa Hls. destruct sa as [a|]; cbn [fmap option_fmap option_map below]; [|done].
  specialize (Hsa a eq_refl). destruct (N.ltb_spec i (nibble a (length pre))) as [Hlt|Hge].
  - unfold rest. rewrite filter_none; [done|]. intros l Hl Ha. cbn in Ha.
    specialize (Hls l Hl). apply under_snoc in Hls as (Hu & _ & Hn).
    pose proof (path_lt_nibble pre _ _ Hsa Hu Hp Ha). lia.
  - destruct (decide (Some (nibble a (length pre)) = Some i)) as [|Hne]; [done|].
    unfold rest. rewrite !filter_all; [done|done|]. intros l Hl. cbn.
    specialize (Hls l Hl). apply under_snoc in Hls as (Hu & _ & Hn).
    apply (nibble_path_lt pre); [done..|]. assert (nibble a (length pre) ≠ i) by congruence. lia.
Qed.

(** Nothing is left of the slots before the one of the resume point. *)
Lemma rest_before pre cs a i :
  (∀ j t, cs !! j = Some (Some t) -> twf (pre ++ [N.of_nat j]) t) -> length pre < 64 -> under pre a ->
  nibble a (length pre) = N.of_nat i -> rest (Some a) (concat (oleaves <$> take i cs)) = [].
Proof.
  intros Hc Hpre Ha Hd. unfold rest. rewrite filter_none; [done|].
  intros l (x & Hlo & (oc & -> & (j & Hj)%list_elem_of_lookup)%list_elem_of_fmap)%elem_of_concat Hal.
  apply lookup_take_Some in Hj as [Hj Hji]. destruct oc as [t'|]; [|by apply not_elem_of_nil in Hlo].
  pose proof (twf_leaves_under _ _ _ (Hc j t' Hj) Hlo) as (Hu & _ & Hnib)%under_snoc.
  pose proof (path_lt_nibble pre a (l_path l) Ha Hu Hpre Hal). lia.
Qed.

Lemma rest_whole pre t : twf pre t -> rest None (leaves t) ≠ [].
Proof.
  intros Hw%twf_leaves_length. unfold rest. rewrite filter_all by done.
  destruct t; [by rewrite Hw|]. intros E0%fmap_nil_inv. rewrite E0 in Hw. cbn in Hw. lia.
Qed.

(** The visit of a leaf. *)
Lemma collect_leaf l sa out s :
  runs s -> readable l -> length out < m ->
  ∃ s', (if streamed sa (l_path l) then mret (true, out)
         else value ← readValue (l_path l) (l_vh l) (l_valueVersion l); mret (true, out ++ [MkLeaf (l_path l) value])) s =
        (Ok (chunk m out (rest sa [l])), s') ∧ reads s s'.
Proof.
  intros (Ho & EC & Ek & Eci) (pt & Hpt & Hvh & Hv) Hlt. unfold rest. destruct (streamed sa (l_path l)) eqn:Es.
  { rewrite filter_cons_False by (rewrite <-streamed_after, Es; done). exists s. cbn. rewrite chunk_nil by lia. split; [done|apply reads_refl]. }
  apply streamed_after in Es. rewrite filter_cons_True by done.
  destruct (readValue_ok s l pt) as (s2 & E2 & R2); [by rewrite EC, Eci|by rewrite Ek|].
  exists s2. rewrite (bind_ok _ _ _ _ _ E2). split; [|done]. cbn. unfold export, chunk. rewrite Hpt, take_ge, bool_decide_true by (cbn; lia). done.
Qed.

Lemma collectLeaves_ok left pre t sa out s :
  left + length pre = nibbles -> twf pre t -> (∀ a, sa = Some a -> under pre a) -> runs s ->
  stored C pre (Some t) -> (∀ l, l ∈ leaves t -> readable l) ->
  (length out < m ∨ rest sa (leaves t) ≠ []) -> length out ≤ m ->
  ∃ s', collectLeaves left (child_of t) pre sa max out s = (Ok (chunk m out (rest sa (leaves t))), s') ∧ reads s s'.
Proof.
  revert pre t sa out s. induction left as [|left IH]; intros pre t sa out s Hn Hw Hsa Hrun Hst Hl Hout Hle.
  all: cbn [collectLeaves]; destruct (decide (max ≤ Z.of_nat (length out))%Z) as [Hmax|Hmax];
    [assert (length out = m) as Em by (unfold m in *; lia); exists s; split; [|apply reads_refl];
     unfold chunk; rewrite Em, Nat.sub_diag, take_0, app_nil_r, bool_decide_false; [done|];
     destruct Hout as [?|Hr]; [lia|]; destruct (rest sa (leaves t)); [done|cbn; lia]|].
  all: assert (length out < m) as Hlt by (unfold m in *; lia).
  all: pose proof Hrun as (Ho & EC & Ek & Eci);
    destruct (loadNode_ok (NodeKey (t_version t) pre) (t_node t) s) as (s1 & E1 & R1);
      [done|rewrite EC; by apply stored_top|by eapply twf_node_wf|];
    change (c_hash (child_of t)) with (node_hash (t_node t)); rewrite (bind_ok _ _ _ _ _ E1).
  all: pose proof (runs_reads _ _ R1 Hrun) as Hrun1; pose proof Hrun1 as (Ho1 & EC1 & Ek1 & Eci1).
  all: destruct t as [v l|v cs]; cbn [t_node].
  1,3: destruct (collect_leaf l sa out s1) as (s2 & E2 & R2); [done|apply Hl; left|done|];
    exists s2; split; [exact E2|by eapply reads_trans].
  { inversion Hw. unfold nibbles in *. lia. }
  inversion Hw as [|? ? ? Hlen Hpre Hf Hv Hc Hb]; subst.
  set (f := λ '(exhausted, out) nib, _). set (sofar i := rest sa (concat (oleaves <$> take i cs))).
  destruct (foldM_seq f (λ i r s', reads s1 s' ∧ r = chunk m out (sofar i)) 16 0 (true, out) s1)
    as (r & s' & E2 & R2 & ->).
  - split; [apply reads_refl|]. unfold sofar. cbn. rewrite chunk_nil by lia. done.
  - intros i r s2 [R2 ->] Hi. cbn in Hi. pose proof (runs_reads _ _ R2 Hrun1) as Hrun2.
    destruct (lookup_lt_is_Some_2 cs i) as [oc Hoc]; [lia|].
    assert (sofar (S i) = sofar i ++ rest sa (oleaves oc)) as Es.
    { unfold sofar. rewrite (take_S_r _ _ _ Hoc), fmap_app, concat_app, rest_app. cbn. by rewrite app_nil_r. }
    rewrite Es, chunk_app by lia. destruct (chunk m out (sofar i)) as [go out'] eqn:Ech. cbn [fst snd].
    unfold f. destruct go; cbn [negb]; [|by exists (false, out'), s2].
    assert (length out' ≤ m) as Hle'.
    { unfold chunk in Ech. injection Ech as Hgo <-. apply bool_decide_eq_true in Hgo.
      rewrite length_app, length_take. lia. }
    assert (∀ l, l ∈ oleaves oc -> under (pre ++ [N.of_nat i]) (l_path l)) as Hun.
    { intros l Hlo. destruct oc as [t|]; [|by apply not_elem_of_nil in Hlo]. eapply twf_leaves_under; eauto. }
    rewrite (rest_slot pre sa (N.of_nat i)) by done.
    destruct (below _ _) eqn:Eb; [exists (true, out'), s2; by rewrite chunk_nil|].
    unfold slot. rewrite list_lookup_fmap, Nat2N.id, Hoc. cbn [fmap option_fmap option_map mjoin option_join].
    destruct oc as [t|]; cbn [ochild]; [|exists (true, out'), s2; split; [done|]; split; [done|];
      cbn; by rewrite chunk_nil].
    set (sa' := if decide _ then sa else None).
    destruct (IH (pre ++ [N.of_nat i]) t sa' out' s2) as (s3 & E3 & R3).
    + rewrite length_app. cbn. lia.
    + by apply Hc.
    + unfold sa'. intros a. destruct (decide _) as [Hd|]; [|done]. intros ->. cbn in Hd. injection Hd as Hd.
      apply under_snoc. split_and!; [by apply Hsa|done..].
    + done.
    + pose proof (stored_child _ _ _ _ (N.of_nat i) Hst) as Hst'. by rewrite Nat2N.id, Hoc in Hst'.
    + intros l Hlo. apply Hl, elem_of_leaves_node. eauto.
    + unfold sa'. destruct (decide _) as [Hd|Hd].
      * left. destruct sa as [a|]; [|done]. cbn in Hd. injection Hd as Hd.
        assert (sofar i = []) as Es0 by (by apply (rest_before pre); [|..|apply Hsa|]).
        rewrite Es0, chunk_nil in Ech by lia. by injection Ech as <-.
      * right. eapply rest_whole. by apply Hc.
    + done.
    + exists (chunk m out' (rest sa' (leaves t))), s3. split; [done|]. split; [by eapply reads_trans|done].
  - exists s'. split; [|by eapply reads_trans]. unfold sofar in E2. rewrite take_ge in E2 by (cbn; lia). exact E2.
Qed.
End collect.

(** ** The reference: the state's pairs in path order *)

Definition lf_le (a b : Leaf) : Prop := bytes_le (b32 (lf_Path a)) (b32 (lf_Path b)).
#[export] Instance lf_le_dec : RelDecision lf_le.
Proof. intros a b. unfold lf_le. apply _. Defined.
#[export] Instance lf_le_trans : Transitive lf_le.
Proof. intros a b c. unfold lf_le. apply bytes_le_trans. Qed.
#[export] Instance lf_le_total : Total lf_le.
Proof. intros a b. unfold lf_le. apply bytes_le_total. Qed.

Definition lf_after (sa : option Hash) (l : Leaf) : Prop :=
  match sa with Some a => bytes_lt (b32 a) (b32 (lf_Path l)) | None => True end.
#[export] Instance lf_after_dec sa l : Decision (lf_after sa l).
Proof. destruct sa; unfold lf_after; apply _. Defined.

Definition state_leaves (st : gmap Hash bytes) : list Leaf :=
  merge_sort lf_le ((λ '(p, v), MkLeaf p v) <$> map_to_list st).

Definition snapshot_of (sa : option Hash) (st : gmap Hash bytes) : list Leaf :=
  filter (lf_after sa) (state_leaves st).

Lemma state_leaves_perm st : state_leaves st ≡ₚ (λ '(p, v), MkLeaf p v) <$> map_to_list st.
Proof. apply merge_sort_Permutation. Qed.

Lemma elem_of_state_leaves st l : l ∈ state_leaves st ↔ st !! lf_Path l = Some (lf_Value l).
Proof.
  rewrite state_leaves_perm, list_elem_of_fmap. split.
  - intros ([p v] & -> & Hin%elem_of_map_to_list). done.
  - intros Hl. exists (lf_Path l, lf_Value l). rewrite elem_of_map_to_list. by destruct l.
Qed.

Lemma state_leaves_sorted st : path_sorted lf_Path (state_leaves st).
Proof.
  apply path_sorted_le; [apply StronglySorted_merge_sort; apply _|].
  rewrite state_leaves_perm, <-list_fmap_compose.
  rewrite (list_fmap_ext _ fst) by (by intros i [p v] _). apply NoDup_fst_map_to_list.
Qed.

Lemma path_sorted_unique {A} (f : A -> Hash) l1 l2 :
  path_sorted f l1 -> path_sorted f l2 -> (∀ x, x ∈ l1 ↔ x ∈ l2) -> l1 = l2.
Proof.
  intros H1 H2 Hel. apply (StronglySorted_perm_unique (λ a b, bytes_lt (b32 (f a)) (b32 (f b)))); [..|done|done|].
  - intros x. apply irreflexivity, _.
  - intros x y Hx Hy. apply (irreflexivity bytes_lt (b32 (f x))). by etrans.
  - apply NoDup_Permutation; [..|done]; by eapply NoDup_fmap_1, (path_sorted_NoDup f).
Qed.

Lemma path_sorted_fmap {A A'} (f : A' -> Hash) (g : A -> A') l :
  path_sorted (f ∘ g) l -> path_sorted f (g <$> l).
Proof.
  induction 1 as [|x l Hs IH Hf]; cbn; constructor; [done|].
  apply Forall_fmap. exact Hf.
Qed.

(** A resumed export continues where the previous chunk ended. *)
Lemma snapshot_resume sa st m x :
  last (take m (snapshot_of sa st)) = Some x -> snapshot_of (Some (lf_Path x)) st = drop m (snapshot_of sa st).
Proof.
  set (L := snapshot_of sa st). intros Hx.
  assert (path_sorted lf_Path L) as HL by apply path_sorted_filter, state_leaves_sorted.
  assert (path_sorted lf_Path (drop m L)) as Hd.
  { unfold path_sorted in *. rewrite <-(take_drop m L) in HL. by apply StronglySorted_app_1_r in HL. }
  apply last_Some in Hx as [l' Hx]. apply (path_sorted_unique lf_Path); [|done|].
  { apply path_sorted_filter, state_leaves_sorted. }
  assert (∀ y, y ∈ take m L -> ¬ bytes_lt (b32 (lf_Path x)) (b32 (lf_Path y))) as Htk.
  { intros y Hy Hlt. unfold path_sorted in HL. rewrite <-(take_drop m L), Hx, <-app_assoc in HL.
    rewrite Hx in Hy. apply elem_of_app in Hy as [Hy|Hy%list_elem_of_singleton].
    - pose proof (StronglySorted_app_1_elem_of _ _ _ y x HL Hy ltac:(left)) as Hlt'.
      apply (irreflexivity bytes_lt (b32 (lf_Path x))). by etrans.
    - subst y. by apply (irreflexivity bytes_lt (b32 (lf_Path x))). }
  assert (∀ y, y ∈ drop m L -> bytes_lt (b32 (lf_Path x)) (b32 (lf_Path y))) as Hdr.
  { intros y Hy. unfold path_sorted in HL. rewrite <-(take_drop m L), Hx in HL.
    refine (StronglySorted_app_1_elem_of _ _ _ x y HL _ Hy). apply elem_of_app. right. left. }
  assert (x ∈ L) as HxL by (rewrite <-(take_drop m L), Hx; set_solver).
  intros y. unfold snapshot_of at 1. rewrite list_elem_of_filter. cbn [lf_after]. split.
  - intros [Hlt Hin]. assert (y ∈ L) as HyL.
    { apply list_elem_of_filter. split; [|done]. apply list_elem_of_filter in HxL as [Hxa _].
      destruct sa as [a|]; [|done]. cbn in *. by etrans. }
    rewrite <-(take_drop m L) in HyL. apply elem_of_app in HyL as [Hy|?]; [by destruct (Htk y Hy)|done].
  - intros Hy. split; [by apply Hdr|].
    assert (y ∈ L) as HyL by (rewrite <-(take_drop m L); set_solver). by apply list_elem_of_filter in HyL as [_ ?].
Qed.

Section snapshot_ok.
Context `{H : Hasher} `{G : GCM} `{E : Entropy} `{MR : MapRange}.
Context {B : Type} `{BK : Backend B} `{!BackendSpec B} `{!BackendReliable B}.
Implicit Types s : Store B.

Lemma rest_snapshot C ck cipher v ot st sa :
  view C ck cipher v ot st -> rest st sa (oleaves ot) = snapshot_of sa st.
Proof.
  intros V. apply (path_sorted_unique lf_Path).
  - apply path_sorted_fmap, path_sorted_filter. pose proof (v_twf _ _ _ _ _ _ V) as Hw.
    destruct ot as [t|]; [by eapply twf_sorted|constructor].
  - apply path_sorted_filter, state_leaves_sorted.
  - intros x. unfold rest, snapshot_of. rewrite list_elem_of_fmap, list_elem_of_filter, elem_of_state_leaves. split.
    + intros (l & -> & [Ha Hl]%list_elem_of_filter). destruct (v_leaf _ _ _ _ _ _ V l Hl) as (pt & Hpt & _).
      cbn. rewrite Hpt. split; [by destruct sa|done].
    + intros [Ha Hx]. destruct (v_dom _ _ _ _ _ _ V (lf_Path x)) as (l & Hl & Hp); [by eexists|].
      exists l. unfold export. rewrite Hp, Hx. split; [by destruct x|]. apply list_elem_of_filter.
      split; [|done]. destruct sa; [|done]. cbn in *. by rewrite Hp.
Qed.

Lemma SnapshotLeaves_ok s version ot st sa max :
  store_ok s -> view (contents (s_backend s)) (s_ck s) (s_cipher s) version ot st ->
  (∀ t, ot = Some t -> t_hash t ≠ placeholderHash) -> (0 < max)%Z ->
  ∃ s', SnapshotLeaves version sa max s =
    (Ok (take (Z.to_nat max) (snapshot_of sa st),
         bool_decide (length (snapshot_of sa st) ≤ Z.to_nat max)), s') ∧ reads s s'.
Proof.
  intros Ho V Hne Hmax. unfold SnapshotLeaves.
  destruct (loadRootRecord_ok s version (root_of (ochild ot))) as (s1 & E1 & R1); [apply V|].
  rewrite (bind_ok _ _ _ _ _ E1). destruct (reads_fields _ _ R1) as (F1 & F2 & _).
  destruct (loadRootChild_ok s1 version ot st) as (s2 & E2 & R2);
    [by eapply reads_ok|by rewrite (reads_contents _ _ R1), F1, F2|done|].
  rewrite (bind_ok _ _ _ _ _ E2). pose proof (reads_trans _ _ _ R1 R2) as R.
  rewrite <-(rest_snapshot _ _ _ _ _ _ sa V). destruct ot as [t|]; cbn [ochild].
  - destruct (collectLeaves_ok (contents (s_backend s)) (s_ck s) (s_cipher s) st max nibbles [] t sa [] s2)
      as (s3 & E3 & R3); [done|apply V|intros; apply under_nil| |apply V| |left; cbn; lia|cbn; lia|].
    + destruct (reads_fields _ _ R) as (I1 & I2 & _).
      split_and!; [by eapply reads_ok|by rewrite (reads_contents _ _ R)|done..].
    + intros l Hl. by apply (v_leaf _ _ _ _ _ _ V).
    + rewrite (bind_ok _ _ _ _ _ E3). exists s3. split; [|by eapply reads_trans].
      unfold chunk. cbn [length]. by rewrite Nat.sub_0_r.
  - exists s2. split; [|done]. cbn. by rewrite take_nil.
Qed.
End snapshot_ok.

(** * Restore *)

Lemma lookup_restore_map leaves p :
  restore_map leaves !! p = (λ l, Some (lf_Value l)) <$> last (filter (λ l, lf_Path l = p) leaves).
Proof.
  unfold restore_map. induction leaves as [|l leaves IH] using rev_ind; [done|].
  rewrite foldl_app, filter_app. cbn [foldl]. rewrite lookup_insert, filter_cons, filter_nil.
  destruct (decide (lf_Path l = p)) as [Ep|Hne]; [by rewrite last_snoc|]. by rewrite IH, app_nil_r.
Qed.

(** Restoring a full export into an empty state gives the exported state. *)
Lemma restore_state_leaves st : upd_state (restore_map (state_leaves st)) ∅ = st.
Proof.
  apply map_eq. intros p. rewrite lookup_upd_state, lookup_restore_map, lookup_empty.
  destruct (last (filter (λ l, lf_Path l = p) (state_leaves st))) as [l|] eqn:El; cbn.
  - apply last_Some in El as [l' El]. assert (l ∈ filter (λ l, lf_Path l = p) (state_leaves st)) as Hin
      by (rewrite El; set_solver).
    apply list_elem_of_filter in Hin as [<- Hin]. symmetry. by apply elem_of_state_leaves.
  - apply last_None in El. destruct (st !! p) as [v|] eqn:Ep; [|done].
    assert (MkLeaf p v ∈ filter (λ l, lf_Path l = p) (state_leaves st)) as Hin
      by (apply list_elem_of_filter; split; [done|by apply elem_of_state_leaves]).
    rewrite El in Hin. by apply not_elem_of_nil in Hin.
Qed.

Section restore.
Context `{H : Hasher} `{G : GCM} `{E : Entropy} `{MR : MapRange}.
Context {B : Type} `{BK : Backend B} `{!BackendSpec B} `{!BackendReliable B} `{!GCMSpec} `{!EntropyLive}.
Implicit Types s : Store B.

(** The head a restore leaves in memory. *)
Definition restored_head s (st : gmap Hash bytes) : Hash :=
  if s_history s
  then match st !! history_path (s_ck s) with
       | Some v => if decide (length v = HashSize) then copy32 v else s_historyHead s
       | None => s_historyHead s
       end
  else s_historyHead s.

Lemma refreshHead_ok s ot st :
  repr s ot st ->
  ∃ s1, refreshHead s = (Ok tt, set_historyHead (restored_head s st) s1) ∧ reads s s1.
Proof.
  intros Hr. unfold refreshHead, restored_head. rewrite bind_gets. destruct (s_history s).
  - destruct (Get_ok s ot st HistoryKey Hr) as (s1 & E1 & R1). rewrite (bind_ok _ _ _ _ _ E1).
    change (pathOf (s_ck s) HistoryKey) with (history_path (s_ck s)). exists s1. split; [|done].
    destruct (reads_fields _ _ R1) as (_ & _ & _ & _ & _ & _ & _ & _ & _ & F10).
    destruct (st !! history_path (s_ck s)) as [v|]; [destruct (decide (length v = HashSize)); [done|]|];
      rewrite <-F10; by destruct s1.
  - exists s. split; [by destruct s|apply reads_refl].
Qed.

Lemma RestoreLeaves_ok s ot st leaves :
  repr s ot st -> is_u64 (s_version s + 1) ->
  commits_apart (s_ck s) (map_to_list st ++ batch_values (restore_map leaves)) ->
  (upd_state (restore_map leaves) st = st ∧
   ∃ s', RestoreLeaves leaves s = (Ok (s_root s, s_version s), s') ∧ reads s s') ∨
  (upd_state (restore_map leaves) st ≠ st ∧
   ∃ otf s1 s2, RestoreLeaves leaves s = (Ok (root_of (ochild otf), s_version s + 1)%N,
       set_historyHead (restored_head s1 (upd_state (restore_map leaves) st)) s2) ∧
     committed_as None s s1 ot otf (upd_state (restore_map leaves) st) ∧ reads s1 s2).
Proof.
  intros Hr Hmax Hap. set (m := restore_map leaves) in *. unfold RestoreLeaves. fold m.
  case_decide as Hz.
  { left. apply map_size_empty_inv in Hz. split; [|exists s; split; [done|apply reads_refl]].
    apply map_eq. intros p. by rewrite lookup_upd_state, Hz, lookup_empty. }
  rewrite bind_gets, (wrap64_small _ Hmax).
  destruct (seal_updates_ok (newAcc (s_version s + 1)) (range_map m) s) as (cts & s1 & E1 & R1 & Hc);
    [apply NoDup_range_fst|done|].
  rewrite (bind_ok _ _ _ _ _ E1), bind_gets.
  destruct (reads_fields _ _ R1) as (_ & _ & _ & _ & _ & Erc & _). rewrite Erc, (r_child _ _ _ Hr).
  assert (∀ p v, st !! p = Some v -> (p, v) ∈ map_to_list st ++ batch_values m) as Hst
    by (intros p v Hp; apply elem_of_app; left; by apply elem_of_map_to_list).
  assert (∀ p v, m !! p = Some (Some v) -> (p, v) ∈ map_to_list st ++ batch_values m) as Hm
    by (intros p v Hp; apply elem_of_app; right; by apply elem_of_batch_values).
  destruct (first_pass s ot st Hr Hmax _ Hap Hst m cts s1 R1 Hm Hc) as (ot1 & acc1 & s2 & E2 & R2 & Happ & Hls & Hiff).
  rewrite (bind_ok _ _ _ _ _ E2).
  destruct (childEq (ochild ot1) (ochild ot)) eqn:Ec.
  { left. apply childEq_eq in Ec. split; [by apply Hiff|]. exists s2. split; [|done].
    destruct (reads_fields _ _ R2) as (_ & _ & _ & F4 & F5 & _). unfold Root, gets. by rewrite F4, F5. }
  right. assert (ochild ot1 ≠ ochild ot) as Hne by (intros E0%childEq_eq; congruence).
  split; [by intros ?%Hiff|].
  destruct (first_computed s ot st Hr Hmax _ Hap Hst m cts acc1 ot1 Hm Hc Happ Hne Hls) as [Hcp Hnh].
  destruct (commit_ok s s2 ot ot1 st _ acc1 Hr Hmax R2 Hcp) as (s3 & E3 & Hcm). rewrite Hnh in Hcm.
  rewrite (bind_ok _ _ _ _ _ E3).
  destruct (refreshHead_ok s3 ot1 _ (cm_repr _ _ _ _ _ Hcm)) as (s4 & E4 & R4).
  rewrite (bind_ok _ _ _ _ _ E4). exists ot1, s3, s4. done.
Qed.

(** ** Stamping *)

Definition restamp (version : N) (t : tree) : tree :=
  match t with TLeaf _ l => TLeaf version l | TNode _ cs => TNode version cs end.

Lemma t_hash_restamp v t : t_hash (restamp v t) = t_hash t.
Proof. by destruct t. Qed.

Lemma restamp_at v ot q t :
  tree_at (restamp v <$> ot) q = Some t ->
  (q = [] ∧ ∃ t0, ot = Some t0 ∧ t = restamp v t0) ∨ (q ≠ [] ∧ tree_at ot q = Some t).
Proof.
  destruct q as [|i q]; cbn.
  - destruct ot as [t0|]; [|done]. cbn. intros [= <-]. left. eauto.
  - destruct ot as [[|]|]; cbn; try done. by right.
Qed.

Lemma twf_restamp pre v t : is_u64 v -> twf pre t -> twf pre (restamp v t).
Proof. intros Hv Hw. destruct Hw; by constructor. Qed.

(** The batch a stamp writes, and its effect. *)
Definition stamp_nodes (version : N) (ot : option tree) : list BatchOp :=
  match ot with
  | Some t => [bput (nodeRecordKey (rootNodeKey version)) (node_encode (t_node t))]
  | None => []
  end.
Definition stamp_ops (root : Hash) (version : N) (ckpt : bytes) (ot : option tree) : list BatchOp :=
  [bput (rootRecordKey version) (b32 root); bput checkpointRecordKey ckpt] ++ stamp_nodes version ot.

Section stamp.
Variables (root : Hash) (version : N) (ckpt : bytes) (ot : option tree) (C : gmap bytes bytes).
Hypothesis Hv : is_u64 version.
Let C' := apply_batch (stamp_ops root version ckpt ot) C.

Lemma stamp_other k :
  k ≠ rootRecordKey version -> k ≠ checkpointRecordKey -> k ≠ nodeRecordKey (rootNodeKey version) ->
  C' !! k = C !! k.
Proof.
  intros Hk1 Hk2 Hk3. apply apply_batch_notin. intros op.
  unfold stamp_ops, stamp_nodes. rewrite elem_of_app, elem_of_cons, list_elem_of_singleton.
  intros [[->| ->]|Hop]; cbn; [done..|]. destruct ot; [|by apply not_elem_of_nil in Hop].
  apply list_elem_of_singleton in Hop as ->. cbn. done.
Qed.

Lemma stamp_root : C' !! rootRecordKey version = Some (b32 root).
Proof.
  unfold C', stamp_ops, stamp_nodes, apply_batch. rewrite foldl_app. cbn [foldl].
  destruct ot; cbn [foldl]; unfold apply_op; cbn [bput bo_Delete bo_Key bo_Value];
    rewrite ?lookup_insert_ne by done; apply lookup_insert_eq.
Qed.

Lemma stamp_ckpt : C' !! checkpointRecordKey = Some ckpt.
Proof.
  unfold C', stamp_ops, stamp_nodes, apply_batch. rewrite foldl_app. cbn [foldl].
  destruct ot; cbn [foldl]; unfold apply_op; cbn [bput bo_Delete bo_Key bo_Value];
    rewrite ?lookup_insert_ne by done; apply lookup_insert_eq.
Qed.

Lemma stamp_top t : ot = Some t -> C' !! nodeRecordKey (rootNodeKey version) = Some (node_encode (t_node t)).
Proof.
  intros Et. unfold C', stamp_ops, stamp_nodes, apply_batch. rewrite foldl_app. cbn [foldl]. rewrite Et.
  cbn [foldl]; unfold apply_op; cbn [bput bo_Delete bo_Key bo_Value]. apply lookup_insert_eq.
Qed.

Lemma stamp_node nk : nk_wf nk -> nk ≠ rootNodeKey version -> C' !! nodeRecordKey nk = C !! nodeRecordKey nk.
Proof.
  intros Hw Hne. apply stamp_other; [done..|]. intros E0. apply Hne.
  apply nodeRecordKey_inj; [done| |done]. split_and!; [done|cbn; lia|constructor].
Qed.

Lemma stamp_view ck cipher v st :
  root = root_of (ochild ot) -> (v ≤ version)%N -> view C ck cipher v ot st ->
  view C' ck cipher version (restamp version <$> ot) st.
Proof.
  intros Er Hle V. pose proof V as [V1 V2 V3 V4 V5 V6 V7 V8].
  assert (oleaves (restamp version <$> ot) = oleaves ot) as El by (by destruct ot as [[]|]).
  split; rewrite ?El.
  - rewrite stamp_root, Er. destruct ot as [t|]; [|done]. cbn. by rewrite t_hash_restamp.
  - destruct ot as [t|]; [|done]. by apply twf_restamp.
  - intros t Et. destruct ot as [[]|]; [..|done]; cbn in Et; by injection Et as <-.
  - intros q t [(-> & t0 & -> & ->)|[_ Ht]]%restamp_at; [by destruct t0|]. specialize (V4 q t Ht). lia.
  - intros l Hl. specialize (V5 l Hl). lia.
  - intros q t [(-> & t0 & Et & ->)|[Hq Ht]]%restamp_at.
    + cbn [app]. replace (t_version (restamp version t0)) with version by by destruct t0.
      etrans; [exact (stamp_top t0 Et)|by destruct t0].
    + rewrite stamp_node; [by apply V6|by eapply tree_key_wf|]. cbn. intros [= _ ->]. done.
  - intros l Hl. destruct (V7 l Hl) as (pt & ? & ? & rec & Hrec & ?). exists pt. split_and!; [done..|].
    exists rec. split; [|done]. by rewrite stamp_other.
  - done.
Qed.
End stamp.

(** The root node is read and its child renumbered. *)
Lemma stamp_load s s1 ot st version :
  repr s ot st -> reads s s1 ->
  ∃ s2, (match ochild ot with
      | None => mret []
      | Some c =>
          n ← loadNode (rootNodeKey (c_version c)) (c_hash c);
          modify (set_head (s_root s) (s_version s) (Some (Child version (c_hash c) (c_isLeaf c))));;
          mret [bput (nodeRecordKey (rootNodeKey version)) (node_encode n)]
      end) s1 = (Ok (stamp_nodes version ot), set_head (s_root s) (s_version s) (ochild (restamp version <$> ot)) s2) ∧ reads s s2.
Proof.
  intros Hr R1. destruct (reads_fields _ _ R1) as (_ & _ & _ & F4 & F5 & F6 & _).
  unfold stamp_nodes. destruct ot as [t|]; cbn [ochild].
  - pose proof (r_view _ _ _ Hr) as V.
    destruct (loadNode_ok (rootNodeKey (t_version t)) (t_node t) s1) as (s2 & E2 & R2).
    + eapply reads_ok; [done|apply Hr].
    + rewrite (reads_contents _ _ R1). apply (stored_top _ []). apply V.
    + exact (twf_node_wf [] t (v_twf _ _ _ _ _ _ V)).
    + exists s2. change (c_hash (child_of t)) with (node_hash (t_node t)).
      change (c_version (child_of t)) with (t_version t).
      rewrite (bind_ok _ _ _ _ _ E2), bind_modify. split; [|by eapply reads_trans].
      f_equal. f_equal. cbn [fmap option_fmap option_map ochild]. unfold child_of. rewrite t_hash_restamp.
      by destruct t.
  - exists s1. split; [|done]. cbn. f_equal. rewrite <-F4, <-F5.
    replace None with (s_rootChild s1); [by destruct s1|]. by rewrite F6, (r_child _ _ _ Hr).
Qed.

(** What a node record holds after the stamp, if it held a node before. *)
Lemma stamp_record s ot st version ckpt k rec :
  repr s ot st -> (s_version s ≤ version)%N -> is_u64 version ->
  contents (s_backend s) !! (recNode :: k) = Some rec ->
  apply_batch (stamp_ops (s_root s) version ckpt ot) (contents (s_backend s)) !! (recNode :: k) = Some rec.
Proof.
  intros Hr Hle Hv Hrec. pose proof (r_view _ _ _ Hr) as V.
  destruct (decide (recNode :: k = nodeRecordKey (rootNodeKey version))) as [Ek|Ek]; [|by rewrite stamp_other].
  rewrite Ek in Hrec |- *. destruct (decide (s_version s = version)) as [<-|Hne].
  - destruct ot as [t|] eqn:Eo.
    + erewrite stamp_top by done. rewrite <-Hrec. symmetry. rewrite <-(v_version _ _ _ _ _ _ V t eq_refl).
      apply (stored_top _ []), V.
    + rewrite <-Hrec. apply apply_batch_notin. intros op.
      unfold stamp_ops, stamp_nodes. rewrite elem_of_app, elem_of_cons, list_elem_of_singleton.
      by intros [[->| ->]|?%not_elem_of_nil].
  - rewrite (r_fresh _ _ _ Hr) in Hrec; [done|split_and!; [done|cbn; lia|constructor]|cbn; lia].
Qed.

Lemma StampVersion_ok s ot st version :
  repr s ot st -> (s_version s ≤ version)%N -> is_u64 version ->
  ∃ s', StampVersion version s = (Ok tt, s') ∧ repr s' (restamp version <$> ot) st ∧
    s_version s' = version ∧ s_root s' = s_root s ∧ checkpointed s' ∧ s_ck s' = s_ck s ∧
    s_cipher s' = s_cipher s ∧ s_historyHead s' = s_historyHead s ∧ s_history s' = s_history s.
Proof.
  intros Hr Hle Hv. unfold StampVersion. rewrite bind_gets, decide_False by lia. rewrite bind_gets.
  destruct (sealCheckpoint_ok (s_root s) version s Hv) as (ckpt & s1 & E1 & R1 & Hck).
  rewrite (bind_ok _ _ _ _ _ E1), bind_gets.
  destruct (reads_fields _ _ R1) as (F1 & F2 & F3 & F4 & F5 & F6 & F7 & F8 & F9 & F10).
  rewrite F6, (r_child _ _ _ Hr).
  destruct (stamp_load s s1 ot st version Hr R1) as (s2 & E2 & R2).
  rewrite (bind_ok _ _ _ _ _ E2).
  set (s2' := set_head _ _ _ s2).
  destruct (write_ok (stamp_ops (s_root s) version ckpt ot) (s_backend s2')) as (b' & Ew & Ec).
  unfold backend. unfold mbind at 1, M_bind at 1. change (_ ++ stamp_nodes version ot) with
    (stamp_ops (s_root s) version ckpt ot). rewrite Ew. unfold modify. eexists. split; [done|].
  change (s_backend s2') with (s_backend s2) in Ec. rewrite (reads_contents _ _ R2) in Ec.
  destruct (reads_fields _ _ R2) as (G1 & G2 & G3 & G4 & G5 & G6 & G7 & G8 & G9 & G10).
  pose proof (r_view _ _ _ Hr) as V.
  assert (∀ nk, nk_wf nk -> (s_version s < nk_version nk)%N -> contents (s_backend s) !! nodeRecordKey nk = None)
    as Hfr by apply Hr.
  assert (nk_wf (rootNodeKey version)) as Hwf by (split_and!; [done|cbn; lia|constructor]).
  split_and!; cbn; try done.
  - split; cbn; rewrite ?Ec; try done.
    + intros k e Hk. cbn in Hk. destruct (reads_ok _ _ R2 (r_ok _ _ _ Hr) k e Hk) as [Hrec Hnw].
      rewrite (reads_contents _ _ R2) in Hrec. split; [|done]. cbn. rewrite Ec. by eapply stamp_record.
    + rewrite G1, G2. eapply stamp_view; [done|apply Hr|exact Hle|exact V].
    + rewrite (r_root _ _ _ Hr). destruct ot as [t|]; [|done]. cbn. by rewrite t_hash_restamp.
    + intros nk Hw Hlt. rewrite stamp_node; [apply Hfr; [done|lia]|done..|]. intros ->. cbn in Hlt. lia.
  - exists ckpt. cbn. rewrite Ec, G8. split; [apply stamp_ckpt|]. intros s3 E3 E4. cbn in E3, E4.
    apply Hck; congruence.
Qed.
End restore.
