(* ===== verification/Tamper.v ===== *)
(** Reads against storage that lies.

    Nothing is assumed here of the backend or of the cache: they may return any
    bytes and any nodes.  What is trusted is the root hash in memory, taken to be
    the specification root of the genuine commitments [m].  A value that [Get]
    returns is then the genuine one ([walk_sound]), unless the nodes the walk
    loaded and the genuine tree contain a hash collision.

    The converse fails: an answer of absence is not authenticated.  [subtreeHash]
    folds a range that holds one lone leaf to that leaf's hash whatever slot it
    sits in, so a node record whose lone leaf was moved to another slot of the
    range has the same hash, and the walk reports the key as absent (file [Absence]). *)

From S2P Require Import Prelude Errors Sha256 Hashing Node Smt Aead Backend Cache Store Tree.

Lemma nibble_lt16_any p i : (nibble p i < 16)%N.
Proof.
  unfold nibble. set (b := nth _ _ _). clearbody b. destruct (Nat.even i).
  - by destruct b.
  - by destruct b.
Qed.

(** * Messages hashed to check a node *)

Section node_msgs.
Context `{H : Hasher}.

Fixpoint range_msgs (k : nat) (sl : list (option child)) : list bytes :=
  match omap id sl with
  | [] => [placeholder_msg]
  | only :: rest =>
      match k with
      | O => []
      | S k' =>
          if decide (rest = [] ∧ c_isLeaf only = true) then []
          else internal_msg (slice_hash k' (take (2 ^ k') sl)) (slice_hash k' (drop (2 ^ k') sl)) ::
               range_msgs k' (take (2 ^ k') sl) ++ range_msgs k' (drop (2 ^ k') sl)
      end
  end.

Definition node_msgs (n : node) : list bytes :=
  match n with
  | NLeaf l => [leaf_msg (l_path l) (l_vh l)]
  | NInternal cs => range_msgs 4 (take 16 cs)
  end.

(** A child of a range whose hash is genuine has a genuine hash itself. *)
Lemma range_child k sl n d ls i c :
  length sl ≤ 2 ^ k -> n + d = 256 -> agree d ls ->
  no_collision (range_msgs k sl) (smt_msgs n d ls) ->
  slice_hash k sl = smt n d ls -> sl !! i = Some (Some c) ->
  ∃ n' d' ls', smt_sub n d ls n' d' ls' ∧ c_hash c = smt n' d' ls'.
Proof.
  revert sl n d ls i. induction k as [|k IH]; intros sl n d ls i Hl Hn Ha Hc Eh Hi;
    cbn [slice_hash range_msgs] in *.
  all: assert (c ∈ omap id sl) as Hin
    by (apply list_elem_of_omap; exists (Some c); split; [by eapply list_elem_of_lookup_2|done]).
  all: destruct (omap id sl) as [|only rest] eqn:Eo; [by apply not_elem_of_nil in Hin|].
  - exists n, d, ls. split; [constructor|]. rewrite <-Eh. f_equal.
    destruct sl as [|oc [|]]; [done| |cbn in Hl; lia]. destruct i as [|i]; [|done].
    injection Hi as ->. by injection Eo.
  - case_decide as Hd.
    + destruct Hd as [-> Hlf]. apply list_elem_of_singleton in Hin as ->.
      exists n, d, ls. split; [constructor|done].
    + rewrite internalHash_msg, smt_top_hash in Eh. apply Hc in Eh; [|left|apply smt_top_in].
      symmetry in Eh. apply smt_top_internal in Eh as (n' & x & y & ls' & -> & Els & El & Er).
      assert (∃ b : bool, ∃ j, (if b then drop (2 ^ k) sl else take (2 ^ k) sl) !! j = Some (Some c)) as (b & j & Hj).
      { rewrite <-(take_drop (2 ^ k) sl) in Hi. apply lookup_app_Some in Hi as [Hi|[_ Hi]].
        - by exists false, i.
        - by exists true, (i - length (take (2 ^ k) sl)). }
      destruct (IH (if b then drop (2 ^ k) sl else take (2 ^ k) sl) n' (S d) (filter (side d b) ls) j)
        as (n1 & d1 & ls1 & Hs & Ec).
      * cbn in Hl. destruct b; [rewrite length_drop; lia|rewrite length_take; lia].
      * lia.
      * by apply agree_side.
      * eapply no_collision_sub; [exact Hc|intros z Hz; right; apply elem_of_app; destruct b; auto|].
        rewrite Els. apply smt_msgs_side.
      * by destruct b.
      * done.
      * exists n1, d1, ls1. split; [|done]. rewrite Els in Hs |- *. by econstructor.
Qed.
End node_msgs.

(** * Presence is authentic *)

Section walk.
Context `{H : Hasher} `{G : GCM} `{E : Entropy} `{MR : MapRange} {B : Type} `{BK : Backend B}.
Implicit Types s : Store B.

(** The nodes a walk loads. *)
Fixpoint walk_nodes (left : nat) (c : child) (prefix : list N) (path : Hash) (s : Store B) : list node :=
  match loadNode (NodeKey (c_version c) prefix) (c_hash c) s with
  | (Ok n, s1) =>
      n :: match n, left with
           | NInternal cs, S left' =>
               let nib := nibble path (length prefix) in
               match slot cs nib with
               | Some next => walk_nodes left' next (prefix ++ [nib]) path s1
               | None => []
               end
           | _, _ => []
           end
  | _ => []
  end.

Definition get_nodes (key : bytes) s : list node :=
  match s_rootChild s with
  | Some c => walk_nodes nibbles c [] (pathOf (s_ck s) key) s
  | None => []
  end.

Lemma loadNode_hash nk h s n s' : loadNode nk h s = (Ok n, s') -> node_hash n = h.
Proof.
  unfold loadNode. intros El. inv_bind El. destruct a as [n'|].
  - destruct (decide (node_hash n' = h)) as [<-|]; [|done]. by injection El as <- _.
  - inv_bind El. destruct a as [r|]; [|done]. inv_bind El.
    destruct (decide (node_hash a = h)) as [<-|]; [|done]. inv_bind El. by injection El as <- _.
Qed.

(** Loading leaves the commitment key alone, whatever storage does. *)
Lemma backend_ck {A} (m : Errors.M B A) s o s' : backend m s = (o, s') -> s_ck s' = s_ck s.
Proof. unfold backend. destruct (m (s_backend s)). by intros [= _ <-]. Qed.

Lemma loadNode_ck nk h s n s' : loadNode nk h s = (Ok n, s') -> s_ck s' = s_ck s.
Proof.
  unfold loadNode. intros El. inv_bind El.
  assert (s_ck s0 = s_ck s) as Hk by (revert E0; unfold cacheGet; destruct (cache_get _ _); by intros [= _ <-]).
  destruct a as [n'|].
  - destruct (decide _); [|done]. by injection El as _ <-.
  - inv_bind El. apply backend_ck in E1. destruct a as [r|]; [|done]. inv_bind El. injection E2 as _ <-.
    destruct (decide _); [|done]. inv_bind El. injection E2 as _ <-. injection El as _ <-. cbn. congruence.
Qed.

(** [readValue] returns only what the commitment in the leaf covers. *)
Lemma readValue_checked path vh vv s v s' :
  readValue path vh vv s = (Ok v, s') -> vhOf (s_ck s) path v = vh.
Proof.
  unfold readValue. intros El. inv_bind El. apply backend_ck in E0. destruct a as [r|]; [|done].
  inv_bind El. assert (s1 = s0) as ->.
  { revert E1. unfold openValue. rewrite bind_gets. destruct (s_cipher s0) as [key|]; [|by intros [= _ <-]].
    destruct (aead_decrypt _ _ _); by intros [= _ <-]. }
  rewrite bind_gets in El. destruct (decide (vhOf (s_ck s0) path a = vh)) as [<-|]; [|done].
  injection El as <- _. by rewrite E0.
Qed.

Lemma walk_from_sound left c prefix path s v s' n d ls :
  n + d = 256 -> agree d ls -> c_hash c = smt n d ls ->
  no_collision (concat (node_msgs <$> walk_nodes left c prefix path s)) (smt_msgs n d ls) ->
  walk_from left c prefix path s = (Ok (Some v), s') -> (path, vhOf (s_ck s) path v) ∈ ls.
Proof.
  revert c prefix s n d ls. induction left as [|left IH]; intros c prefix s n d ls Hn Ha Eh Hc Ew;
    cbn [walk_from walk_nodes] in *; inv_bind Ew; rewrite E0 in Hc.
  all: pose proof (loadNode_hash _ _ _ _ _ E0) as Hh; pose proof (loadNode_ck _ _ _ _ _ E0) as Hk.
  all: destruct (decide (node_isLeaf a ≠ c_isLeaf c)); [done|]; rewrite Eh in Hh.
  all: destruct a as [cs|l]; [try done|].
  1,3: cbn [node_hash] in Hh; rewrite leafHash_msg, smt_top_hash in Hh;
    apply Hc in Hh; [|cbn; left|apply smt_top_in]; symmetry in Hh;
    apply smt_top_leaf in Hh as ->; [|done..];
    destruct (decide (l_path l = path)) as [<-|]; [|done]; inv_bind Ew; injection Ew as -> _;
    apply readValue_checked in E1; rewrite <-E1, Hk; left.
  destruct (slot cs (nibble path (length prefix))) as [next|] eqn:Es; [|done].
  cbn [node_hash] in Hh. rewrite subtreeHash_slice, drop_0 in Hh.
  set (nib := nibble path (length prefix)) in *.
  assert (take 16 cs !! N.to_nat nib = Some (Some next)) as Hnx.
  { unfold slot in Es. destruct (cs !! N.to_nat nib) as [oc|] eqn:Ec; [|done]. cbn in Es. subst oc.
    rewrite lookup_take, decide_True; [done|]. pose proof (nibble_lt16_any path (length prefix)) as Hlt. fold nib in Hlt. lia. }
  cbn [fmap list_fmap concat node_msgs] in Hc.
  destruct (range_child 4 (take 16 cs) n d ls (N.to_nat nib) next) as (n' & d' & ls' & Hs & Ec).
  { rewrite length_take. change (2 ^ 4) with 16. lia. } { done. } { done. }
  { eapply no_collision_sub; [exact Hc|intros z Hz; apply elem_of_app; by left|done]. } { exact Hh. } { done. }
  destruct (smt_sub_agree _ _ _ _ _ _ Hs Ha Hn) as [Ha' Hn'].
  rewrite <-Hk. eapply smt_sub_elem; [exact Hs|]. eapply (IH next (prefix ++ [nib]) s0 n' d' ls'); [done..| |done].
  eapply no_collision_sub; [exact Hc|intros z Hz; apply elem_of_app; by right|by eapply smt_sub_msgs].
Qed.

Lemma walk_sound s key m v s' :
  root_of (s_rootChild s) = spec_root m ->
  no_collision (concat (node_msgs <$> get_nodes key s)) (spec_msgs m) ->
  Get key s = (Ok (Some v), s') ->
  m !! pathOf (s_ck s) key = Some (vhOf (s_ck s) (pathOf (s_ck s) key) v).
Proof.
  unfold Get, get_nodes. rewrite !bind_gets. destruct (s_rootChild s) as [c|]; [|done]. cbn [root_of walk].
  intros Eh Hc Ew. apply elem_of_map_to_list. eapply walk_from_sound; [| |exact Eh|exact Hc|exact Ew]; [done|].
  apply agree_map_to_list.
Qed.
End walk.
