(* ===== verification/Absence.v ===== *)
(** Why an answer of absence is not authenticated.

    [subtreeHash] folds a range of slots that holds one lone leaf to that leaf's hash,
    whatever slot it sits in.  So a node in which a lone leaf was moved to another slot of
    its range ([moves]) has the hash of the genuine node, [loadNode] accepts its record,
    and [walk] finds the slot of the leaf's own path empty: the key is reported absent. *)

From S2P Require Import Prelude Errors Sha256 Hashing Node Smt Aead Backend Cache Store Tree StoreRead Update StoreWrite Records StoreCommit Tamper.

(** The same leaf and nothing else in both lists of slots. *)
Definition lone_leaf (sl sl' : list (option child)) : Prop :=
  omap id sl' = omap id sl ∧ match omap id sl with [c] => c_isLeaf c = true | _ => False end.
#[export] Instance lone_leaf_dec sl sl' : Decision (lone_leaf sl sl').
Proof. unfold lone_leaf. destruct (omap id sl) as [|c [|]]; apply _. Defined.

(** Among [2^k] slots, [sl'] is [sl] with a lone leaf moved inside a range that the
    halving of [subtreeHash] comes to. *)
Fixpoint moves (k : nat) (sl sl' : list (option child)) : Prop :=
  lone_leaf sl sl' ∨
  match k with
  | O => False
  | S k' =>
      (moves k' (take (2 ^ k') sl) (take (2 ^ k') sl') ∧ drop (2 ^ k') sl' = drop (2 ^ k') sl) ∨
      (take (2 ^ k') sl' = take (2 ^ k') sl ∧ moves k' (drop (2 ^ k') sl) (drop (2 ^ k') sl'))
  end.
#[export] Instance moves_dec k sl sl' : Decision (moves k sl sl').
Proof. revert sl sl'. induction k as [|k IH]; intros sl sl'; cbn [moves]; apply _. Defined.

Lemma moves_omap k sl sl' : moves k sl sl' -> omap id sl' = omap id sl.
Proof.
  revert sl sl'. induction k as [|k IH]; intros sl sl'; cbn [moves]; [by intros [[? _]|[]]|].
  intros [[? _]|[[Hm Hd]|[Ht Hm]]]; [done|..]; rewrite <-(take_drop (2 ^ k) sl), <-(take_drop (2 ^ k) sl'), !omap_app.
  - by rewrite Hd, (IH _ _ Hm).
  - by rewrite Ht, (IH _ _ Hm).
Qed.

#[export] Instance node_wf_dec n : Decision (node_wf n).
Proof. destruct n; cbn [node_wf]; unfold child_wf; apply _. Defined.

Section absence.
Context `{H : Hasher} `{G : GCM} `{E : Entropy} `{MR : MapRange}.
Context {B : Type} `{BK : Backend B} `{!BackendSpec B} `{!BackendReliable B}.
Implicit Types s : Store B.

Lemma moves_hash k sl sl' : moves k sl sl' -> slice_hash k sl' = slice_hash k sl.
Proof.
  revert sl sl'. induction k as [|k IH]; intros sl sl' Hm; pose proof (moves_omap _ _ _ Hm) as Eo; cbn [moves slice_hash] in *; rewrite Eo.
  - done.
  - destruct Hm as [[_ Hl]|[[Hm Hd]|[Ht Hm]]].
    + destruct (omap id sl) as [|c [|]]; try done. by rewrite !decide_True.
    + by rewrite Hd, (IH _ _ Hm).
    + by rewrite Ht, (IH _ _ Hm).
Qed.

Lemma moved_hash cs cs' : length cs = 16 -> length cs' = 16 -> moves 4 cs cs' -> node_hash (NInternal cs') = node_hash (NInternal cs).
Proof.
  intros Hl Hl' Hm. cbn [node_hash]. rewrite !subtreeHash_slice, !drop_0. change (2 ^ 4) with 16. rewrite !take_ge by lia.
  by apply moves_hash.
Qed.

(** The walk comes to the altered node and stops at the empty slot. *)
Lemma walk_moved q left pre t path v cs cs' s :
  left + length pre = nibbles -> twf pre t -> under (pre ++ q) path -> store_ok s ->
  tree_at (Some t) q = Some (TNode v cs) ->
  (∀ q' t', tree_at (Some t) q' = Some t' -> q' ≠ q ->
     contents (s_backend s) !! nodeRecordKey (NodeKey (t_version t') (pre ++ q')) = Some (node_encode (t_node t'))) ->
  contents (s_backend s) !! nodeRecordKey (NodeKey v (pre ++ q)) = Some (node_encode (NInternal cs')) ->
  node_wf (NInternal cs') -> node_hash (NInternal cs') = t_hash (TNode v cs) ->
  slot cs' (nibble path (length (pre ++ q))) = None ->
  ∃ s', walk_from left (child_of t) pre path s = (Ok None, s') ∧ reads s s'.
Proof.
  revert left pre t s. induction q as [|i q IH]; intros left pre t s Hn Hw Hu Ho Ht Hst Hrec Hnw Hh Hslot.
  - rewrite app_nil_r in *. cbn in Ht. injection Ht as ->. inversion Hw as [|? ? ? Hlen Hpre Hf Hv Hc Hb]; subst.
    destruct (loadNode_ok (NodeKey v pre) (NInternal cs') s Ho Hrec Hnw) as (s1 & E1 & R1). rewrite Hh in E1.
    destruct left as [|left]; [unfold nibbles in Hn; lia|]. cbn [walk_from]. change (c_hash (child_of (TNode v cs))) with (t_hash (TNode v cs)).
    rewrite (bind_ok _ _ _ _ _ E1), decide_False by (cbn; auto). rewrite Hslot. by exists s1.
  - destruct t as [v0 l|v0 cs0]; [done|]. inversion Hw as [|? ? ? Hlen Hpre Hf Hv Hc Hb]; subst.
    replace (pre ++ i :: q) with ((pre ++ [i]) ++ q) in Hu, Hrec, Hslot by (by rewrite <-app_assoc).
    assert (under (pre ++ [i]) path) as Hui by (unfold under in *; etrans; [by apply prefix_app_r|exact Hu]).
    pose proof Hui as (_ & _ & Hnib)%under_snoc. cbn [tree_at] in Ht.
    destruct (cs0 !! N.to_nat i) as [[t'|]|] eqn:Ei; cbn in Ht; [|destruct q; discriminate Ht..].
    destruct (loadNode_ok (NodeKey v0 pre) (t_node (TNode v0 cs0)) s) as (s1 & E1 & R1);
      [done| |by eapply (twf_node_wf pre)|].
    { specialize (Hst [] (TNode v0 cs0) eq_refl ltac:(done)). by rewrite app_nil_r in Hst. }
    destruct left as [|left]; [unfold nibbles in Hn; lia|]. cbn [walk_from].
    change (c_hash (child_of (TNode v0 cs0))) with (node_hash (t_node (TNode v0 cs0))).
    rewrite (bind_ok _ _ _ _ _ E1), t_node_isLeaf, decide_False by (cbn; auto). rewrite t_node_node.
    unfold slot. rewrite list_lookup_fmap, Hnib, Ei. cbn.
    destruct (IH left (pre ++ [i]) t' s1) as (s2 & E2 & R2).
    + rewrite length_app. cbn. lia.
    + specialize (Hc _ _ Ei). by rewrite N2Nat.id in Hc.
    + done.
    + by eapply reads_ok.
    + done.
    + intros q' t1 Hq' Hne. rewrite (reads_contents _ _ R1), <-app_assoc. apply (Hst (i :: q')); [|congruence].
      cbn [tree_at]. by rewrite Ei.
    + by rewrite (reads_contents _ _ R1).
    + done.
    + done.
    + done.
    + exists s2. split; [done|by eapply reads_trans].
Qed.

Lemma tree_at_leaves ot q t l : tree_at ot q = Some t -> l ∈ leaves t -> l ∈ oleaves ot.
Proof.
  revert ot. induction q as [|i q IH]; intros ot Ht Hl; [cbn in Ht; by subst ot|].
  destruct ot as [[v l'|v cs]|]; try done. cbn [tree_at] in Ht. specialize (IH _ Ht Hl).
  destruct (cs !! N.to_nat i) as [[t'|]|] eqn:Ei; cbn in IH; [|by apply not_elem_of_nil in IH..].
  apply elem_of_leaves_node. eauto.
Qed.

(** ** Reading a tree off its records *)

Lemma stored_is C pre t rec n :
  stored C pre (Some t) -> twf pre t -> C !! nodeRecordKey (NodeKey (t_version t) pre) = Some rec -> decodeNode rec = Ok n ->
  t_node t = n.
Proof.
  intros Hs Hw Hrec Hdec. rewrite (stored_top _ _ _ Hs) in Hrec. injection Hrec as <-.
  rewrite decodeNode_encode in Hdec by (by eapply twf_node_wf). by injection Hdec.
Qed.

Lemma stored_internal C pre t rec chs :
  stored C pre (Some t) -> twf pre t -> C !! nodeRecordKey (NodeKey (t_version t) pre) = Some rec ->
  decodeNode rec = Ok (NInternal chs) -> ∃ cs, t = TNode (t_version t) cs ∧ ochild <$> cs = chs.
Proof. intros Hs Hw Hrec Hdec. pose proof (stored_is _ _ _ _ _ Hs Hw Hrec Hdec) as Hn. destruct t as [v l|v cs]; [done|]. injection Hn as Hn. eauto. Qed.

Lemma stored_slot C pre v cs chs i c :
  stored C pre (Some (TNode v cs)) -> twf pre (TNode v cs) -> ochild <$> cs = chs -> chs !! N.to_nat i = Some (Some c) ->
  ∃ t, cs !! N.to_nat i = Some (Some t) ∧ child_of t = c ∧ stored C (pre ++ [i]) (Some t) ∧ twf (pre ++ [i]) t.
Proof.
  intros Hs Hw <- Hi. rewrite list_lookup_fmap in Hi. destruct (cs !! N.to_nat i) as [[t|]|] eqn:Ei; try done. injection Hi as Hi.
  exists t. inversion Hw as [|? ? ? _ _ _ _ Hc _]; subst. specialize (Hc _ _ Ei). rewrite N2Nat.id in Hc.
  split_and!; [done|done| |done]. pose proof (stored_child _ _ _ _ i Hs) as Hst. by rewrite Ei in Hst.
Qed.

(** The leaf in slot [i] of the root of a store. *)
Lemma root_leaf s ot st rec chs i c lrec l :
  repr s ot st -> s_rootChild s ≠ None -> contents (s_backend s) !! nodeRecordKey (NodeKey (s_version s) []) = Some rec ->
  decodeNode rec = Ok (NInternal chs) -> chs !! N.to_nat i = Some (Some c) ->
  contents (s_backend s) !! nodeRecordKey (NodeKey (c_version c) [i]) = Some lrec -> decodeNode lrec = Ok (NLeaf l) ->
  ∃ cs vl, ot = Some (TNode (s_version s) cs) ∧ ochild <$> cs = chs ∧ cs !! N.to_nat i = Some (Some (TLeaf vl l)).
Proof.
  intros Hr Hne Hrec Hdec Hi Hlrec Hldec. pose proof (r_view _ _ _ Hr) as V.
  destruct ot as [t|]; [|by rewrite (r_child _ _ _ Hr) in Hne].
  pose proof (v_version _ _ _ _ _ _ V t eq_refl) as Ht. pose proof (v_stored _ _ _ _ _ _ V) as Hs.
  assert (twf [] t) as Hw by apply V. rewrite <-Ht in Hrec |- *.
  destruct (stored_internal _ _ _ _ _ Hs Hw Hrec Hdec) as (cs & Et & Ecs).
  rewrite Et in Hs, Hw. destruct (stored_slot _ _ _ _ _ _ _ Hs Hw Ecs Hi) as (t' & Ht' & Ec & Hs' & Hw').
  replace (c_version c) with (t_version t') in Hlrec by (by rewrite <-Ec).
  pose proof (stored_is _ _ _ _ _ Hs' Hw' Hlrec Hldec) as Hn. destruct t' as [vl l'|vl cs']; [|done]. injection Hn as ->.
  exists cs, vl. split; [by f_equal|done].
Qed.

Lemma hidden_key s ot st key q v cs cs' vl l s2 :
  repr s ot st -> let path := pathOf (s_ck s) key in
  tree_at ot q = Some (TNode v cs) -> cs !! N.to_nat (nibble path (length q)) = Some (Some (TLeaf vl l)) -> l_path l = path ->
  length cs' = 16 -> moves 4 (ochild <$> cs) cs' -> slot cs' (nibble path (length q)) = None ->
  s_ck s2 = s_ck s -> s_rootChild s2 = s_rootChild s -> store_ok s2 ->
  contents (s_backend s2) = <[nodeRecordKey (NodeKey v q) := node_encode (NInternal cs')]> (contents (s_backend s)) ->
  (∃ value s', Get key s = (Ok (Some value), s')) ∧ ∃ s', Get key s2 = (Ok None, s').
Proof.
  intros Hr path Ht Hleaf Hp Hlen' Hm Hslot Hck Hrc Ho2 Hcont. pose proof (r_view _ _ _ Hr) as V.
  destruct (tree_at_pos [] ot q _ (v_twf _ _ _ _ _ _ V) Ht) as (Hw & Hlq & Hfq). cbn [app] in Hw.
  inversion Hw as [|? ? ? Hlen Hpre Hf Hv Hc Hb]; subst. split.
  - assert (l ∈ oleaves ot) as Hl.
    { eapply tree_at_leaves; [exact Ht|]. apply elem_of_leaves_node. eexists _, _. split; [exact Hleaf|left]. }
    destruct (v_leaf _ _ _ _ _ _ V l Hl) as (value & Hst & _). rewrite Hp in Hst.
    destruct (Get_ok s ot st key Hr) as (s' & Eg & _). exists value, s'. by rewrite Eg, <-Hst.
  - assert (under q path) as Hu.
    { pose proof (Hc _ _ Hleaf) as Hwl. assert (l ∈ leaves (TLeaf vl l)) as Hin by left.
      pose proof (twf_leaves_under _ _ _ Hwl Hin) as Hul. rewrite Hp in Hul. by apply under_snoc in Hul as [? _]. }
    destruct ot as [t|]; [|by destruct q].
    unfold Get. rewrite !bind_gets, Hck, Hrc, (r_child _ _ _ Hr). cbn [ochild walk]. fold path.
    destruct (walk_moved q nibbles [] t path v cs cs' s2) as (s' & E1 & _); cbn [app length] in *; try done.
    + apply V.
    + intros q' t' Ht' Hne. rewrite Hcont, lookup_insert_ne; [by apply (v_stored _ _ _ _ _ _ V)|].
      intros Ek. apply nodeRecordKey_inj in Ek; [injection Ek as _ Eq; by apply Hne| |].
      * by apply (tree_key_wf (Some t) q (TNode v cs)); [apply V|].
      * apply (tree_key_wf (Some t) q' t'); [apply V|done].
    + by rewrite Hcont, lookup_insert_eq.
    + pose proof (twf_node_wf _ _ Hw) as (_ & Hne & Hfc). pose proof (moves_omap _ _ _ Hm) as Eo.
      split_and!; [done|by rewrite Eo|by rewrite Eo].
    + change (t_hash (TNode v cs)) with (node_hash (NInternal (ochild <$> cs))). apply moved_hash; [by rewrite length_fmap|done..].
    + by exists s'.
Qed.
End absence.
