(* ===== verification/Ledger.v ===== *)
(** What the store promises: a versioned key-value ledger.

    The abstract ledger keeps the state of every readable version as a finite map
    from paths to values, the current version and, when chained, the history
    head.  Nothing in it mentions trees, records, caches, batches or ciphers.
    [refines] relates a running store to it, and every operation of the store,
    its error replies included, is simulated: [step_refines] for one operation,
    [trace_refines] for any sequence of them, with reopening from storage and
    pruning among the operations. *)

From S2P Require Import Prelude Errors Sha256 Hashing Node Smt Proofs Aead Backend Cache Store Tree StoreRead Update StoreWrite Records StoreCommit StoreOpen StoreProof Prune.

Record ledger := MkLedger {
  lg_version : N;
  lg_states : gmap N (gmap Hash bytes);
  lg_head : option Hash
}.

(** The operations of a client. *)
Inductive cmd :=
| CRoot
| CGet (key : bytes)
| CRootAt (version : N)
| CGetAt (version : N) (key : bytes)
| CProve (key : bytes)
| CProveAt (version : N) (key : bytes)
| CPreview (ops : list Op)
| CPut (ops : list Op)
| CPrune (before : N)
| CReopen (opts : list (storeOptions -> storeOptions)).

Inductive reply :=
| RRoot (root : Hash) (version : N)
| RHash (root : Hash)
| RValue (v : option bytes)
| RProof (p : Proof)
| RDone.

#[export] Instance reserved_dec op : Decision (reserved op).
Proof. unfold reserved. apply _. Defined.

(** * The specification *)

Section spec.
Context `{H : Hasher}.
Variable ck : bytes.

Definition lg_cur (lg : ledger) : gmap Hash bytes := default ∅ (lg_states lg !! lg_version lg).
Definition lg_root (lg : ledger) : Hash := spec_root (commitments ck (lg_cur lg)).

Definition lg_link (lg : ledger) : option Hash :=
  (λ h, HistoryLink h (lg_root lg) (lg_version lg + 1)) <$> lg_head lg.

(** The state after a batch; a chained ledger also records its new head [link]. *)
Definition lg_next (link : option Hash) (ops : list Op) (lg : ledger) : gmap Hash bytes :=
  let st := upd_state (batch_map ck ops) (lg_cur lg) in
  match link with Some h => <[history_path ck := b32 h]> st | None => st end.

Definition lg_noop (ops : list Op) (lg : ledger) : Prop :=
  upd_state (batch_map ck ops) (lg_cur lg) = lg_cur lg.
#[export] Instance lg_noop_dec ops lg : Decision (lg_noop ops lg).
Proof. unfold lg_noop. apply _. Defined.

Definition lg_put (ops : list Op) (lg : ledger) : ledger :=
  if decide (lg_noop ops lg) then lg
  else
    let link := lg_link lg in
    MkLedger (lg_version lg + 1) (<[(lg_version lg + 1)%N := lg_next link ops lg]> (lg_states lg)) link.

Definition lg_prune (before : N) (lg : ledger) : ledger :=
  MkLedger (lg_version lg) (filter (λ kv, (before ≤ kv.1)%N) (lg_states lg)) (lg_head lg).

Definition reserved_error : error := errInvalid "key %q uses the reserved system prefix".
Definition missing_root : error := errMissing "root record v%d".
Definition prune_future : error := errInvalid "cannot prune to future version %d (current %d)".

(** A question about version [v], answered from its state. *)
Definition lg_at (v : N) (f : gmap Hash bytes -> reply) (lg : ledger) : outcome reply :=
  if decide (lg_version lg < v)%N then Err future
  else match lg_states lg !! v with Some st => Ok (f st) | None => Err missing_root end.

Definition spec_reply (c : cmd) (lg : ledger) : outcome reply :=
  match c with
  | CRoot => Ok (RRoot (lg_root lg) (lg_version lg))
  | CGet key => Ok (RValue (lg_cur lg !! pathOf ck key))
  | CRootAt v => lg_at v (λ st, RHash (spec_root (commitments ck st))) lg
  | CGetAt v key => lg_at v (λ st, RValue (st !! pathOf ck key)) lg
  | CProve key => Ok (RProof (spec_prove (commitments ck (lg_cur lg)) (pathOf ck key)))
  | CProveAt v key => lg_at v (λ st, RProof (spec_prove (commitments ck st) (pathOf ck key))) lg
  | CPreview ops | CPut ops =>
      if decide (Exists reserved ops) then Err reserved_error
      else let lg' := lg_put ops lg in Ok (RRoot (lg_root lg') (lg_version lg'))
  | CPrune before => if decide (lg_version lg < before)%N then Err prune_future else Ok RDone
  | CReopen _ => Ok RDone
  end.

Definition spec_step (c : cmd) (lg : ledger) : ledger :=
  match c with
  | CPut ops => if decide (Exists reserved ops) then lg else lg_put ops lg
  | CPrune before => if decide (lg_version lg < before)%N then lg else lg_prune before lg
  | _ => lg
  end.

(** The (path, value) pairs a batch brings together. *)
Definition lg_kvs (ops : list Op) (lg : ledger) : list (Hash * bytes) :=
  map_to_list (lg_cur lg) ++ batch_values (batch_map ck ops) ++
  match lg_link lg with Some h => [(history_path ck, b32 h)] | None => [] end.

(** A state whose root is not mistaken for the empty root. *)
Definition root_apart (st : gmap Hash bytes) : Prop :=
  st ≠ ∅ -> spec_root (commitments ck st) ≠ placeholderHash.

(** What an operation may assume: versions do not run out, and the hashes at
    stake in it do not collide. *)
Definition admissible (sk : option bytes32) (c : cmd) (lg : ledger) : Prop :=
  match c with
  | CPreview ops | CPut ops =>
      Exists reserved ops ∨
      (is_u64 (lg_version lg + 1) ∧ commits_apart ck (lg_kvs ops lg) ∧
       batch_map ck ops !! history_path ck = None)
  | CGetAt v _ | CProveAt v _ => ∀ st, lg_states lg !! v = Some st -> root_apart st
  | CReopen opts => root_apart (lg_cur lg) ∧ o_sk (options_of opts) = sk ∧
      (o_history (options_of opts) = true -> is_Some (lg_head lg))
  | _ => True
  end.
End spec.

(** * The store against it *)

Section refinement.
Context `{H : Hasher} `{G : GCM} `{E : Entropy} `{MR : MapRange}.
Context {B : Type} `{BK : Backend B} `{!BackendSpec B} `{!BackendReliable B}.
Context `{!GCMSpec} `{!EntropyLive}.
Implicit Types s : Store B.

Variables (key : bytes32) (sk : option bytes32).
Let ck := b32 key.

Definition map_reply {A} (f : A -> reply) (m : M (Store B) A) : M (Store B) reply := a ← m; mret (f a).

(** Running an operation on the store.  A prune gets as many rounds as storage
    has records, and one more. *)
Definition run_cmd (c : cmd) (s : Store B) : outcome reply * Store B :=
  match c with
  | CRoot => map_reply (λ '(r, v), RRoot r v) Root s
  | CGet k => map_reply RValue (Get k) s
  | CRootAt v => map_reply RHash (RootAt v) s
  | CGetAt v k => map_reply RValue (GetAt v k) s
  | CProve k => map_reply RProof (Prove k) s
  | CProveAt v k => map_reply RProof (ProveAt v k) s
  | CPreview ops => map_reply (λ '(r, v), RRoot r v) (PreviewBatch ops) s
  | CPut ops => map_reply (λ '(r, v), RRoot r v) (PutBatch ops) s
  | CPrune before => map_reply (λ _, RDone) (Prune (S (size (contents (s_backend s)))) before) s
  | CReopen opts =>
      match OpenLatest (s_backend s) key opts with
      | (Ok _, s') => (Ok RDone, s')
      | (Err e, s') => (Err e, s')
      | (Panic w, s') => (Panic w, s')
      end
  end.

Fixpoint run_trace (cs : list cmd) (s : Store B) : list (outcome reply) * Store B :=
  match cs with
  | [] => ([], s)
  | c :: cs' => let '(r, s1) := run_cmd c s in let '(rs, s2) := run_trace cs' s1 in (r :: rs, s2)
  end.

Fixpoint spec_trace (cs : list cmd) (lg : ledger) : list (outcome reply) * ledger :=
  match cs with
  | [] => ([], lg)
  | c :: cs' =>
      let '(rs, lg') := spec_trace cs' (spec_step ck c lg) in (spec_reply ck c lg :: rs, lg')
  end.

Fixpoint admissible_trace (cs : list cmd) (lg : ledger) : Prop :=
  match cs with
  | [] => True
  | c :: cs' => admissible ck sk c lg ∧ admissible_trace cs' (spec_step ck c lg)
  end.

Abbreviation hist_t := (gmap N (option tree * gmap Hash bytes)).

Record refines_at (hist : hist_t) (ot : option tree) s (lg : ledger) : Prop := {
  rf_repr : repr s ot (lg_cur lg);
  rf_time : timeline s hist;
  rf_cur : hist !! s_version s = Some (ot, lg_cur lg);
  rf_states : lg_states lg = snd <$> hist;
  rf_gone : ∀ v, (v ≤ s_version s)%N -> hist !! v = None -> contents (s_backend s) !! rootRecordKey v = None;
  rf_version : s_version s = lg_version lg;
  rf_keys : keyed s key sk;
  rf_ckpt : checkpointed s;
  rf_chain : chain_ok s (lg_cur lg);
  rf_head : lg_head lg = if s_history s then Some (s_historyHead s) else None;
  rf_pin : s_snapshotPin s = None
}.

Definition refines s (lg : ledger) : Prop := ∃ hist ot, refines_at hist ot s lg.

Lemma timeline_same s s' (hist : hist_t) :
  contents (s_backend s') = contents (s_backend s) -> s_ck s' = s_ck s -> s_cipher s' = s_cipher s ->
  s_version s' = s_version s -> timeline s hist -> timeline s' hist.
Proof. intros E1 E2 E3 E4 [T1 T2 T3]. split; by rewrite ?E1, ?E2, ?E3, ?E4. Qed.

Lemma refines_reads s s' lg : reads s s' -> refines s lg -> refines s' lg.
Proof.
  intros R (hist & ot & []). exists hist, ot.
  destruct (reads_fields _ _ R) as (F1 & F2 & F3 & F4 & F5 & F6 & F7 & F8 & F9 & F10).
  pose proof (reads_contents _ _ R) as Ec. split; rewrite ?F5, ?F7, ?F8, ?F10; try done.
  - by eapply reads_repr.
  - by eapply timeline_same.
  - by rewrite Ec.
  - unfold keyed. by rewrite F1, F2, F3.
  - destruct rf_ckpt0 as (rec & Hrec & Hf). exists rec. rewrite Ec, F4, F5, F8. split; [done|].
    intros s2 E2 E3. apply Hf; congruence.
  - unfold chain_ok. by rewrite F1, F5, F8, F10.
Qed.

Lemma map_reply_ok {A} (f : A -> reply) (m : M (Store B) A) s a s' :
  m s = (Ok a, s') -> map_reply f m s = (Ok (f a), s').
Proof. intros E1. unfold map_reply. by rewrite (bind_ok _ _ _ _ _ E1). Qed.

Lemma map_reply_err {A} (f : A -> reply) (m : M (Store B) A) s e s' :
  m s = (Err e, s') -> map_reply f m s = (Err e, s').
Proof. intros E1. unfold map_reply. by rewrite (bind_err _ _ _ _ _ E1). Qed.

Lemma refines_ck s lg : refines s lg -> s_ck s = ck.
Proof. intros (hist & ot & []). apply rf_keys0. Qed.

Lemma refines_root s lg : refines s lg -> s_root s = lg_root ck lg.
Proof.
  intros Hrf. pose proof (refines_ck s lg Hrf) as Ek. destruct Hrf as (hist & ot & []).
  rewrite (repr_root _ _ _ rf_repr0), Ek. done.
Qed.

Lemma view_placeholder C ckk cipher v ot st :
  view C ckk cipher v ot st -> root_apart ckk st -> ∀ t, ot = Some t -> t_hash t ≠ placeholderHash.
Proof.
  intros V Ha t ->. pose proof (leaves_root ckk (Some t) st (v_twf _ _ _ _ _ _ V) (view_leaves_state _ _ _ _ _ _ V)) as Er.
  cbn [ochild root_of child_of c_hash] in Er. rewrite Er. apply Ha. intros ->.
  pose proof (twf_leaves_length [] t (v_twf _ _ _ _ _ _ V)) as Hl.
  assert (∃ l, l ∈ leaves t) as (l & Hin).
  { destruct t; [rewrite Hl; eexists; left|]. destruct (leaves _) as [|l ?]; [cbn in Hl; lia|exists l; left]. }
  destruct (v_leaf _ _ _ _ _ _ V l Hin) as (pt & Hpt & _). by rewrite lookup_empty in Hpt.
Qed.

Lemma loadRootRecord_missing s v :
  contents (s_backend s) !! rootRecordKey v = None ->
  ∃ s', loadRootRecord v s = (Err missing_root, s') ∧ reads s s'.
Proof.
  intros Hn. unfold loadRootRecord.
  destruct (backend_get_ok (rootRecordKey v) s) as (s1 & E1 & R1 & _).
  rewrite (bind_ok _ _ _ _ _ E1), Hn. by exists s1.
Qed.

(** A question about a version: future, gone, or answered from its view. *)
Lemma at_refines {A} s lg v (op : M (Store B) A) (f : A -> reply) (g : gmap Hash bytes -> A)
    (m : Hash -> M (Store B) A) :
  refines s lg ->
  (∀ s, op s = (cur ← gets s_version;
                if decide (cur < v)%N then fail future else root ← loadRootRecord v; m root) s) ->
  (∀ ot st, lg_states lg !! v = Some st ->
     view (contents (s_backend s)) ck sk v ot st -> (v ≤ s_version s)%N ->
     ∃ s', op s = (Ok (g st), s') ∧ reads s s') ->
  ∃ s', map_reply f op s = (lg_at v (λ st, f (g st)) lg, s') ∧ refines s' lg.
Proof.
  intros Hrf Hop Hview. pose proof Hrf as (hist & ot & Hat). pose proof Hat as [].
  unfold lg_at. rewrite <-rf_version0. destruct (decide (s_version s < v)%N) as [Hd|Hd].
  - exists s. split; [|done]. apply map_reply_err. rewrite Hop, bind_gets. by rewrite decide_True.
  - assert (v ≤ s_version s)%N as Hle by lia.
    destruct (lg_states lg !! v) as [st|] eqn:Est.
    + assert (∃ ot', hist !! v = Some (ot', st)) as (ot' & Hh).
      { rewrite rf_states0, lookup_fmap in Est. apply fmap_Some in Est as ([ot' st'] & Hh & ->). eauto. }
      destruct (tl_views _ _ rf_time0 _ _ _ Hh) as [_ V]. destruct rf_keys0 as (K1 & K2 & _). rewrite K1, K2 in V.
      destruct (Hview ot' st eq_refl V Hle) as (s' & E1 & R1). exists s'.
      split; [by apply map_reply_ok|by eapply refines_reads].
    + assert (hist !! v = None) as Hh.
      { rewrite rf_states0, lookup_fmap in Est. by apply fmap_None in Est. }
      destruct (loadRootRecord_missing s v (rf_gone0 v Hle Hh)) as (s' & E1 & R1). exists s'.
      split; [|by eapply refines_reads]. apply map_reply_err. rewrite Hop, bind_gets, decide_False by lia.
      by rewrite (bind_err _ _ _ _ _ E1).
Qed.

Lemma refines_batch s lg ops :
  refines s lg ->
  batch_head s = lg_link ck lg ∧ batch_state s (lg_cur lg) ops = lg_next ck (lg_link ck lg) ops lg ∧
  batch_kvs s (lg_cur lg) ops = lg_kvs ck ops lg.
Proof.
  intros Hrf. pose proof (refines_ck s lg Hrf) as Ek. pose proof (refines_root s lg Hrf) as Er.
  destruct Hrf as (hist & ot & []).
  assert (batch_head s = lg_link ck lg) as Eh.
  { unfold batch_head, lg_link, next_head. rewrite rf_head0, Er, rf_version0. by destruct (s_history s). }
  unfold batch_state, lg_next, batch_kvs, lg_kvs. rewrite <-Eh, Ek. unfold batch_head.
  destruct (s_history s); done.
Qed.

Lemma refines_pre s lg ops :
  refines s lg -> ¬ Exists reserved ops -> admissible ck sk (CPut ops) lg -> batch_pre s (lg_cur lg) ops.
Proof.
  intros Hrf Hres [?|(Hu & Hap & Hhp)]; [done|]. destruct (refines_batch s lg ops Hrf) as (_ & _ & Ekv).
  pose proof (refines_ck s lg Hrf) as Ek. destruct Hrf as (hist & ot & []).
  split; [apply Forall_forall; intros op Hin Hr; apply Hres, Exists_exists; eauto|by rewrite rf_version0|by rewrite Ek, Ekv|by rewrite Ek].
Qed.

Lemma reserved_err s ops :
  Exists reserved ops -> computeBatch ops s = (Err reserved_error, s).
Proof. intros Hr. unfold computeBatch. rewrite bind_gets. by rewrite (bind_err _ _ _ _ _ (dedupe_reserved ops s Hr)). Qed.

Lemma put_refines s lg ops :
  refines s lg -> admissible ck sk (CPut ops) lg ->
  ∃ s', run_cmd (CPut ops) s = (spec_reply ck (CPut ops) lg, s') ∧ refines s' (spec_step ck (CPut ops) lg).
Proof.
  intros Hrf Hadm. cbn [run_cmd spec_reply spec_step].
  destruct (decide (Exists reserved ops)) as [Hres|Hres].
  { exists s. split; [|done]. apply map_reply_err. unfold PutBatch. by rewrite (bind_err _ _ _ _ _ (reserved_err s ops Hres)). }
  pose proof (refines_pre s lg ops Hrf Hres Hadm) as Hpre. destruct Hadm as [?|(Hu & _ & Hhp)]; [done|].
  destruct (refines_batch s lg ops Hrf) as (Ehd & Est & _).
  pose proof (refines_ck s lg Hrf) as Ek. pose proof (refines_root s lg Hrf) as Er.
  pose proof Hrf as (hist & ot & Hat). pose proof Hat as [].
  destruct (PutBatch_ok s ot (lg_cur lg) ops rf_repr0 Hpre) as [(Eq & s' & E1 & R1)|(Hne & otf & s' & E1 & Hc)];
    rewrite Ek in *; unfold lg_put.
  - rewrite decide_True by exact Eq. exists s'. split; [|by eapply refines_reads].
    rewrite (map_reply_ok _ _ _ _ _ E1), Er, rf_version0. done.
  - rewrite decide_False by exact Hne. rewrite Est in *.
    set (lg' := MkLedger _ _ _).
    assert (lg_cur lg' = lg_next ck (lg_link ck lg) ops lg) as Ecur by (unfold lg_cur, lg'; cbn; by rewrite lookup_insert_eq).
    assert (refines s' lg') as Hrf'.
    { exists (<[(s_version s + 1)%N := (otf, lg_next ck (lg_link ck lg) ops lg)]> hist), otf.
      pose proof (cm_version _ _ _ _ _ Hc) as Ev. split; rewrite ?Ecur, ?Ev.
      - apply Hc.
      - by eapply timeline_commit.
      - by rewrite lookup_insert_eq.
      - unfold lg'. cbn. by rewrite rf_states0, rf_version0, fmap_insert.
      - intros v Hv Hh. destruct (decide (v = s_version s + 1)%N) as [->|Hvn]; [by rewrite lookup_insert_eq in Hh|].
        rewrite lookup_insert_ne in Hh by done. rewrite rf_version0 in *.
        rewrite (cm_roots _ _ _ _ _ Hc); [apply rf_gone0; [lia|done]|unfold is_u64 in *; lia|by rewrite rf_version0].
      - by rewrite rf_version0.
      - by eapply committed_keyed.
      - apply Hc.
      - rewrite <-Est. eapply committed_chain; [by rewrite Est|done|by rewrite Ek].
      - unfold lg'. cbn. rewrite <-Ehd, (cm_hist _ _ _ _ _ Hc), (cm_head _ _ _ _ _ Hc). unfold batch_head.
        by destruct (s_history s).
      - by rewrite (cm_pin _ _ _ _ _ Hc). }
    exists s'. split; [|done]. rewrite (map_reply_ok _ _ _ _ _ E1).
    rewrite <-(r_root _ _ _ (cm_repr _ _ _ _ _ Hc)), (refines_root s' lg' Hrf'), rf_version0. done.
Qed.

Lemma preview_refines s lg ops :
  refines s lg -> admissible ck sk (CPreview ops) lg ->
  ∃ s', run_cmd (CPreview ops) s = (spec_reply ck (CPreview ops) lg, s') ∧ refines s' lg.
Proof.
  intros Hrf Hadm. destruct (put_refines s lg ops Hrf Hadm) as (s1 & E1 & _).
  cbn [run_cmd spec_reply] in *. destruct (decide (Exists reserved ops)) as [Hres|Hres].
  { exists s. split; [|done]. apply map_reply_err. unfold PreviewBatch.
    by rewrite (bind_err _ _ _ _ _ (reserved_err s ops Hres)). }
  pose proof (refines_pre s lg ops Hrf Hres Hadm) as Hpre. pose proof Hrf as (hist & ot & []).
  destruct (PreviewBatch_ok s ot _ ops rf_repr0 Hpre) as (s2 & E2 & R2).
  exists s2. split; [|by eapply refines_reads]. unfold map_reply in *.
  destruct (PutBatch ops s) as [[[r v]|e|w] s3] eqn:Ep; cbn [fst] in E2.
  - rewrite (bind_ok _ _ _ _ _ Ep) in E1. rewrite (bind_ok _ _ _ _ _ E2). by injection E1 as -> ->.
  - rewrite (bind_err _ _ _ _ _ Ep) in E1. done.
  - unfold mbind, M_bind in E1. rewrite Ep in E1. done.
Qed.

Lemma prune_refines s lg before :
  refines s lg ->
  ∃ s', run_cmd (CPrune before) s = (spec_reply ck (CPrune before) lg, s') ∧
    refines s' (spec_step ck (CPrune before) lg).
Proof.
  intros Hrf. pose proof Hrf as (hist & ot & Hat). pose proof Hat as [].
  cbn [run_cmd spec_reply spec_step]. rewrite <-rf_version0.
  destruct (decide (s_version s < before)%N) as [Hd|Hd].
  { exists s. split; [|done]. apply map_reply_err. unfold Prune. rewrite !bind_gets, rf_pin0.
    by rewrite decide_True. }
  assert (horizon s before = before) as Ehz by (unfold horizon; by rewrite rf_pin0).
  destruct (Prune_ok s ot (lg_cur lg) hist (S (size (contents (s_backend s)))) before)
    as (stats & s' & E1 & Hr' & Ht' & Hp & Es & _); [done..|rewrite Ehz; lia|lia|].
  rewrite Ehz in *. exists s'. split; [by rewrite (map_reply_ok _ _ _ _ _ E1)|].
  assert (s_version s' = s_version s ∧ s_ck s' = s_ck s ∧ s_cipher s' = s_cipher s ∧ s_ckptMAC s' = s_ckptMAC s ∧
    s_root s' = s_root s ∧ s_history s' = s_history s ∧ s_historyHead s' = s_historyHead s ∧
    s_snapshotPin s' = s_snapshotPin s) as (F1 & F2 & F3 & F4 & F5 & F6 & F7 & F8) by (rewrite Es; done).
  assert (retained before hist !! s_version s = Some (ot, lg_cur lg)) as Hcur
    by (apply lookup_retained; split; [done|lia]).
  assert (lg_cur (lg_prune before lg) = lg_cur lg) as Ecur.
  { unfold lg_cur, lg_prune. cbn. rewrite <-rf_version0, rf_states0. rewrite lookup_fmap, rf_cur0. cbn.
    rewrite map_lookup_filter, lookup_fmap, rf_cur0. cbn. by rewrite option_guard_True by lia. }
  exists (retained before hist), ot. split; rewrite ?Ecur, ?F1; try done.
  - unfold lg_prune, retained. cbn. rewrite rf_states0. apply map_eq. intros v.
    rewrite map_lookup_filter, !lookup_fmap, map_lookup_filter.
    destruct (hist !! v) as [x|]; cbn; [|done]. by repeat case_guard.
  - intros v Hv Hh. destruct (decide (v < before)%N) as [Hlt|Hge]; [by apply Hp|].
    assert (hist !! v = None) as Hn.
    { destruct (hist !! v) as [x|] eqn:Ex; [|done]. exfalso.
      assert (retained before hist !! v = Some x) as Hr by (apply lookup_retained; split; [done|lia]). congruence. }
    destruct (pr_sub _ _ _ Hp (rootRecordKey v)) as [?|E2]; [done|]. rewrite E2. by apply rf_gone0.
  - unfold keyed. by rewrite F2, F3, F4.
  - destruct rf_ckpt0 as (rec & Hrec & Hf). exists rec. rewrite (pr_ckpt _ _ _ Hp), F5, F1, F6. split; [done|].
    intros s2 E2 E3. apply Hf; congruence.
  - unfold chain_ok. by rewrite F1, F2, F6, F7.
  - by rewrite F6, F7.
  - by rewrite F8.
Qed.

Lemma reopen_refines s lg opts :
  refines s lg -> admissible ck sk (CReopen opts) lg ->
  ∃ s', run_cmd (CReopen opts) s = (Ok RDone, s') ∧ refines s' lg.
Proof.
  intros Hrf (Ha & Hsk & Hh). pose proof (refines_ck s lg Hrf) as Ek. pose proof Hrf as (hist & ot & []).
  pose proof (r_view _ _ _ rf_repr0) as V. rewrite Ek in V.
  destruct (OpenLatest_ok s ot (lg_cur lg) key sk opts)
    as (s' & E1 & Hr' & Hc' & Hk' & Hch' & F1 & F2 & F3 & F4 & F5 & F8); [done..|by eapply view_placeholder|done| |].
  { intros Ho. specialize (Hh Ho). rewrite rf_head0 in Hh. destruct (s_history s); [done|by destruct Hh]. }
  exists s'. cbn [run_cmd]. rewrite E1. split; [done|]. exists hist, ot.
  assert (s_cipher s' = s_cipher s ∧ s_ck s' = s_ck s) as [F6 F7].
  { destruct Hk' as (? & ? & _), rf_keys0 as (? & ? & _). split; congruence. }
  split; rewrite ?F2, ?F3, ?F4; try done; [by eapply timeline_same|by rewrite F5].
Qed.

(** One operation. *)
Lemma step_refines s lg c :
  refines s lg -> admissible ck sk c lg ->
  ∃ s', run_cmd c s = (spec_reply ck c lg, s') ∧ refines s' (spec_step ck c lg).
Proof.
  intros Hrf Hadm. pose proof (refines_ck s lg Hrf) as Ek.
  destruct c as [|k|v|v k|k|v k|ops|ops|before|opts]; cbn [spec_step].
  - exists s. split; [|done]. cbn [run_cmd spec_reply].
    rewrite (map_reply_ok _ Root s (s_root s, s_version s) s eq_refl), (refines_root s lg Hrf).
    destruct Hrf as (hist & ot & []). by rewrite rf_version0.
  - pose proof Hrf as (hist & ot & []). destruct (Get_ok s ot _ k rf_repr0) as (s' & E1 & R1).
    exists s'. split; [|by eapply refines_reads]. cbn [run_cmd spec_reply]. by rewrite (map_reply_ok _ _ _ _ _ E1), Ek.
  - cbn [run_cmd spec_reply]. apply (at_refines s lg v (RootAt v) RHash (λ st, spec_root (commitments ck st)) (λ root, mret root)); [done|..].
    { intros s0. unfold RootAt. rewrite !bind_gets. destruct (decide _); [done|].
      unfold mbind, M_bind. by destruct (loadRootRecord v s0) as [[]]. }
    intros ot st _ V Hle. pose proof (v_root _ _ _ _ _ _ V) as Hrec.
    destruct (loadRootRecord_ok s v _ Hrec) as (s' & E1 & R1). exists s'. split; [|done].
    unfold RootAt. rewrite bind_gets, decide_False, E1 by lia.
    by rewrite (leaves_root ck ot st (v_twf _ _ _ _ _ _ V) (view_leaves_state _ _ _ _ _ _ V)).
  - cbn [run_cmd spec_reply]. eapply (at_refines s lg v (GetAt v k) RValue (λ st, st !! pathOf ck k)); [done|by intros|].
    intros ot' st Est V Hle. pose proof Hrf as (hist & ot & []). destruct rf_keys0 as (K1 & K2 & _).
    rewrite <-K2, <-Ek in V. rewrite <-Ek.
    eapply GetAt_ok; [exact rf_repr0|done|exact V|]. eapply view_placeholder; [done|]. rewrite Ek. by apply Hadm.
  - pose proof Hrf as (hist & ot & []). destruct (Prove_ok s ot _ k rf_repr0) as (s' & E1 & R1).
    exists s'. split; [|by eapply refines_reads]. cbn [run_cmd spec_reply]. by rewrite (map_reply_ok _ _ _ _ _ E1), Ek.
  - cbn [run_cmd spec_reply]. eapply (at_refines s lg v (ProveAt v k) RProof (λ st, spec_prove (commitments ck st) (pathOf ck k))); [done|by intros|].
    intros ot' st Est V Hle. pose proof Hrf as (hist & ot & []). destruct rf_keys0 as (K1 & K2 & _).
    rewrite <-K2, <-Ek in V. rewrite <-Ek.
    eapply ProveAt_ok; [exact rf_repr0|done|exact V|]. eapply view_placeholder; [done|]. rewrite Ek. by apply Hadm.
  - by apply preview_refines.
  - by apply put_refines.
  - by apply prune_refines.
  - by apply reopen_refines.
Qed.

(** Any sequence of operations. *)
Lemma trace_refines_aux cs s lg :
  refines s lg -> admissible_trace cs lg ->
  ∃ s', run_trace cs s = ((spec_trace cs lg).1, s') ∧ refines s' (spec_trace cs lg).2.
Proof.
  revert s lg. induction cs as [|c cs IH]; intros s lg Hrf Hadm; [by exists s|].
  destruct Hadm as [Ha Hadm]. destruct (step_refines s lg c Hrf Ha) as (s1 & E1 & Hrf1).
  destruct (IH s1 _ Hrf1 Hadm) as (s2 & E2 & Hrf2).
  exists s2. cbn [run_trace spec_trace]. rewrite E1, E2. by destruct (spec_trace cs (spec_step ck c lg)).
Qed.

(** A created store is the empty ledger. *)
Definition empty_ledger (chained : bool) : ledger :=
  MkLedger 0 {[0%N := ∅]} (if chained then Some zero32 else None).

Lemma create_refines b opts :
  contents b = ∅ -> o_sk (options_of opts) = sk ->
  ∃ s, Create b key opts = (Ok tt, s) ∧ refines s (empty_ledger (o_history (options_of opts))).
Proof.
  intros Hb Hsk.
  destruct (Create_ok b key opts) as (s & E1 & Hr & Hck & Hk & Hch & F1 & F2 & F3 & F4 & Hrest).
  { intros nk _. by rewrite Hb, lookup_empty. }
  rewrite Hb in Hrest. exists s. split; [done|]. exists {[0%N := (None, ∅)]}, None.
  assert (lg_cur (empty_ledger (o_history (options_of opts))) = ∅) as Ecur
    by (unfold lg_cur; cbn; by rewrite lookup_singleton_eq).
  assert (∀ k, ¬ is_Some (contents (s_backend s) !! (recStale :: k))) as Hns.
  { intros k [x Hx]. by rewrite Hrest in Hx by done. }
  split; rewrite ?Ecur, ?F1; try done; [|intros v Hv..|by rewrite <-Hsk|].
  - split.
    + intros v ot st [<- [= <- <-]]%lookup_singleton_Some. rewrite F1. split; [done|]. rewrite <-F1. apply Hr.
    + intros k Hk'. by apply Hns in Hk'.
    + intros w x v ot st _ Hk'. by apply Hns in Hk'.
  - intros Hh. assert (v = 0%N) as -> by lia. done.
  - cbn. rewrite F3. unfold chain_ok in Hch. rewrite F3 in Hch.
    destruct (o_history (options_of opts)); [|done]. destruct Hch as [(_ & _ & ->)|Hx]; [done|].
    by rewrite lookup_empty in Hx.
Qed.
End refinement.
