(* ===== verification/GoNum.v ===== *)
(** Go's numbers and times, as the SQL layer uses them: conversions between integer
    widths, the conversion between [float32] and [float64] on IEEE 754 bit patterns,
    variable-length integers ([encoding/binary]) and [time.Time]. *)

From S2P Require Import Prelude.
From Stdlib Require Import ZArith.

(** * Integers

    A signed [w]-bit integer is a [Z] in [[-2^(w-1), 2^(w-1))]; conversions wrap. *)

Definition in_int (w : Z) (z : Z) : Prop := (- 2 ^ (w - 1) ≤ z < 2 ^ (w - 1))%Z.
Definition in_uint (w : N) (n : N) : Prop := (n < 2 ^ w)%N.
#[export] Instance in_int_dec w z : Decision (in_int w z).
Proof. unfold in_int. apply _. Defined.
#[export] Instance in_uint_dec w n : Decision (in_uint w n).
Proof. unfold in_uint. apply _. Defined.

Definition wrap_int (w : Z) (z : Z) : Z := ((z + 2 ^ (w - 1)) mod 2 ^ w - 2 ^ (w - 1))%Z.
Definition wrap_uint (w : N) (n : N) : N := (n mod 2 ^ w)%N.
Definition int64_of (u : N) : Z := wrap_int 64 (Z.of_N u).
Definition uint64_of (z : Z) : N := Z.to_N (z mod 2 ^ 64)%Z.

(** [x ^ (1 << 63)]. *)
Definition flip63 (n : N) : N := N.lxor n (2 ^ 63).
(** [^x] on [uint64]. *)
Definition not64 (n : N) : N := N.lxor n (2 ^ 64 - 1).

Lemma wrap_int_small w z : (0 < w)%Z -> in_int w z -> wrap_int w z = z.
Proof.
  unfold in_int, wrap_int. intros Hw Hz.
  assert (2 ^ w = 2 * 2 ^ (w - 1))%Z as -> by (rewrite <-Z.pow_succ_r by lia; f_equal; lia).
  rewrite Z.mod_small by lia. lia.
Qed.

Lemma wrap_uint_small w n : in_uint w n -> wrap_uint w n = n.
Proof. apply N.mod_small. Qed.

Lemma uint64_of_u64 z : is_u64 (uint64_of z).
Proof. unfold uint64_of, is_u64, max64. pose proof (Z.mod_pos_bound z (2 ^ 64)). lia. Qed.

Lemma int64_of_uint64_of z : in_int 64 z -> int64_of (uint64_of z) = z.
Proof.
  unfold int64_of, uint64_of, wrap_int, in_int. intros Hz.
  pose proof (Z.mod_pos_bound z (2 ^ 64)). rewrite Z2N.id by lia.
  rewrite Z.add_mod_idemp_l by lia. rewrite Z.mod_small by lia. lia.
Qed.

Lemma int64_of_small n : (n < 2 ^ 63)%N -> int64_of n = Z.of_N n.
Proof. intros Hn. apply wrap_int_small; [lia|]. unfold in_int. lia. Qed.

(** Flipping the top bit shifts by half the range. *)
Lemma lxor_pow2_low n k : (n < 2 ^ k)%N -> N.lxor n (2 ^ k) = (n + 2 ^ k)%N.
Proof.
  intros Hn. rewrite N.add_nocarry_lxor; [done|]. apply N.bits_inj_0. intros i. rewrite N.land_spec.
  destruct (decide (i = k)) as [->|Hi].
  - by rewrite (testbit_high n k) by (done || lia).
  - rewrite N.pow2_bits_false by done. apply andb_false_r.
Qed.

Lemma lxor_pow2_high n k : (n < 2 ^ k)%N -> N.lxor (n + 2 ^ k) (2 ^ k) = n.
Proof. intros Hn. by rewrite <-lxor_pow2_low, N.lxor_assoc, N.lxor_nilpotent, N.lxor_0_r by done. Qed.

Lemma flip63_flip63 n : flip63 (flip63 n) = n.
Proof. unfold flip63. by rewrite N.lxor_assoc, N.lxor_nilpotent, N.lxor_0_r. Qed.

Lemma flip63_low n : (n < 2 ^ 63)%N -> flip63 n = (n + 2 ^ 63)%N.
Proof. apply lxor_pow2_low. Qed.
Lemma flip63_high n : (2 ^ 63 ≤ n < 2 ^ 64)%N -> flip63 n = (n - 2 ^ 63)%N.
Proof.
  intros Hn. pose proof (lxor_pow2_high (n - 2 ^ 63) 63) as Hx.
  replace (n - 2 ^ 63 + 2 ^ 63)%N with n in Hx by lia. apply Hx. lia.
Qed.

Lemma flip63_u64 n : is_u64 n -> is_u64 (flip63 n).
Proof.
  unfold is_u64, max64. intros Hn. destruct (N.lt_ge_cases n (2 ^ 63)).
  - rewrite flip63_low by done. lia.
  - rewrite flip63_high by lia. lia.
Qed.

(** The sign-flipped form of a signed integer is its offset from the least one. *)
Lemma flip63_uint64_of z : in_int 64 z -> flip63 (uint64_of z) = Z.to_N (z + 2 ^ 63).
Proof.
  unfold in_int, uint64_of. intros Hz. destruct (Z.lt_ge_cases z 0).
  - rewrite <-(Z.mod_add z 1), Z.mod_small by lia. rewrite flip63_high by lia. lia.
  - rewrite Z.mod_small by lia. rewrite flip63_low by lia. lia.
Qed.

Lemma not64_sub n : is_u64 n -> not64 n = (2 ^ 64 - 1 - n)%N.
Proof.
  unfold is_u64, max64, not64. intros Hn.
  change (N.lnot n 64 = N.ones 64 - n)%N. rewrite N.lnot_sub_low; [done|].
  destruct (decide (n = 0%N)) as [->|]; [done|]. apply N.log2_lt_pow2; lia.
Qed.

(** * Floating point

    A float is its bit pattern.  [f32_to_f64] is exact; [f64_to_f32] rounds to
    nearest, ties to even; a NaN is made quiet on the way. *)

Definition round_even (sig k : N) : N :=
  let q := (sig / 2 ^ k)%N in
  let r := (sig mod 2 ^ k)%N in
  if ((2 ^ k <? 2 * r) || ((2 * r =? 2 ^ k) && N.odd q))%N then (q + 1)%N else q.

(** The exponent and fraction, without the sign. *)
Definition widen (e m : N) : N * N :=
  if (e =? 255)%N then
    (2047, if m =? 0 then 0 else if 2 ^ 22 <=? m then m * 2 ^ 29 else m * 2 ^ 29 + 2 ^ 51)%N
  else if (e =? 0)%N then
    if (m =? 0)%N then (0, 0)%N
    else (874 + N.log2 m, (m - 2 ^ N.log2 m) * 2 ^ (52 - N.log2 m))%N
  else (e + 896, m * 2 ^ 29)%N.

Definition narrow (e m : N) : N :=
  (if e =? 2047 then
     255 * 2 ^ 23 +
     (if m =? 0 then 0 else if 2 ^ 22 <=? m / 2 ^ 29 then m / 2 ^ 29 else m / 2 ^ 29 + 2 ^ 22)
   else if e =? 0 then 0
   else if 1150 <? e then 255 * 2 ^ 23
   else if 897 <=? e then (e - 897) * 2 ^ 23 + round_even (2 ^ 52 + m) 29
   else round_even (2 ^ 52 + m) (926 - e))%N.

Definition f32_to_f64 (x : N) : N :=
  let '(e, m) := widen ((x / 2 ^ 23) mod 256) (x mod 2 ^ 23) in
  (x / 2 ^ 31 * 2 ^ 63 + (e * 2 ^ 52 + m))%N.

Definition f64_to_f32 (y : N) : N :=
  (y / 2 ^ 63 * 2 ^ 31 + narrow ((y / 2 ^ 52) mod 2048) (y mod 2 ^ 52))%N.

(** A pattern that is not a signalling NaN. *)
Definition f32_quiet (x : N) : Prop :=
  in_uint 32 x ∧ (((x / 2 ^ 23) mod 256 = 255 -> x mod 2 ^ 23 = 0 ∨ 2 ^ 22 ≤ x mod 2 ^ 23)%N).
#[export] Instance f32_quiet_dec x : Decision (f32_quiet x).
Proof. unfold f32_quiet. apply _. Defined.

Lemma round_even_exact q k : round_even (q * 2 ^ k) k = q.
Proof.
  unfold round_even. assert (2 ^ k ≠ 0)%N as Hk by (by apply N.pow_nonzero).
  rewrite N.div_mul, N.Div0.mod_mul by done. rewrite N.mul_0_r.
  destruct (N.ltb_spec (2 ^ k) 0); [lia|]. destruct (N.eqb_spec 0 (2 ^ k)); [lia|]. done.
Qed.

(** Reading the fields of a pattern put together from them. *)
Lemma fields64 s e m : (e < 2048)%N -> (m < 2 ^ 52)%N ->
  let y := (s * 2 ^ 63 + (e * 2 ^ 52 + m))%N in
  (y / 2 ^ 63 = s ∧ (y / 2 ^ 52) mod 2048 = e ∧ y mod 2 ^ 52 = m)%N.
Proof.
  intros He Hm y. split_and!.
  - symmetry. apply (N.div_unique _ _ _ (e * 2 ^ 52 + m)); unfold y; lia.
  - assert (y / 2 ^ 52 = s * 2048 + e)%N as ->.
    { symmetry. apply (N.div_unique _ _ _ m); unfold y; lia. }
    rewrite N.add_comm, N.Div0.mod_add. by apply N.mod_small.
  - symmetry. apply (N.mod_unique _ _ (s * 2048 + e)); unfold y; lia.
Qed.

Lemma fields32 x : (x = x / 2 ^ 31 * 2 ^ 31 + ((x / 2 ^ 23) mod 256 * 2 ^ 23 + x mod 2 ^ 23))%N.
Proof.
  assert (x / 2 ^ 31 = x / 2 ^ 23 / 256)%N as ->.
  { rewrite N.Div0.div_div. by change (2 ^ 23 * 256)%N with (2 ^ 31)%N. }
  pose proof (N.Div0.div_mod x (2 ^ 23)) as E1. pose proof (N.Div0.div_mod (x / 2 ^ 23) 256) as E2. lia.
Qed.

Lemma narrow_subnormal m :
  (0 < m < 2 ^ 23)%N -> let '(e', m') := widen 0 m in (e' < 2048)%N ∧ (m' < 2 ^ 52)%N ∧ narrow e' m' = m.
Proof.
  intros Hm. unfold widen. cbn [N.eqb]. destruct (N.eqb_spec m 0); [lia|].
  destruct (N.log2_spec m) as [Hk1 Hk2]; [lia|]. set (k := N.log2 m) in *.
  assert (k < 23)%N as Hk by (apply (N.pow_lt_mono_r_iff 2); lia).
  assert (2 ^ 52 = 2 ^ k * 2 ^ (52 - k))%N as Ep by (rewrite <-N.pow_add_r; f_equal; lia).
  rewrite N.pow_succ_r' in Hk2. split_and!; [lia| |].
  { rewrite Ep. apply N.mul_lt_mono_pos_r; [|lia]. apply N.neq_0_lt_0. by apply N.pow_nonzero. }
  unfold narrow. destruct (N.eqb_spec (874 + k) 2047); [lia|]. destruct (N.eqb_spec (874 + k) 0); [lia|].
  destruct (N.ltb_spec 1150 (874 + k)); [lia|]. destruct (N.leb_spec 897 (874 + k)); [lia|].
  replace (926 - (874 + k))%N with (52 - k)%N by lia.
  replace (2 ^ 52 + (m - 2 ^ k) * 2 ^ (52 - k))%N with (m * 2 ^ (52 - k))%N
    by (rewrite Ep, <-N.mul_add_distr_r; f_equal; lia).
  apply round_even_exact.
Qed.

Lemma narrow_widen e m :
  (e < 256)%N -> (m < 2 ^ 23)%N -> (e = 255 -> m = 0 ∨ 2 ^ 22 ≤ m)%N ->
  let '(e', m') := widen e m in (e' < 2048)%N ∧ (m' < 2 ^ 52)%N ∧ narrow e' m' = (e * 2 ^ 23 + m)%N.
Proof.
  intros He Hm Hq. destruct (N.eqb_spec e 0) as [->|He0].
  { destruct (N.eqb_spec m 0) as [->|Hm0]; [done|]. apply narrow_subnormal. lia. }
  unfold widen. destruct (N.eqb_spec e 255) as [->|He255].
  - destruct (N.eqb_spec m 0) as [->|Hm0]; [done|].
    destruct (Hq eq_refl) as [?|Hq22]; [done|]. destruct (N.leb_spec (2 ^ 22) m); [|lia].
    split_and!; [lia|lia|]. unfold narrow. rewrite N.eqb_refl, N.div_mul by lia.
    destruct (N.eqb_spec (m * 2 ^ 29) 0); [lia|]. destruct (N.leb_spec (2 ^ 22) m); lia.
  - destruct (N.eqb_spec e 0); [done|]. split_and!; [lia|lia|]. unfold narrow.
    destruct (N.eqb_spec (e + 896) 2047); [lia|]. destruct (N.eqb_spec (e + 896) 0); [lia|].
    destruct (N.ltb_spec 1150 (e + 896)); [lia|]. destruct (N.leb_spec 897 (e + 896)); [|lia].
    replace (2 ^ 52 + m * 2 ^ 29)%N with ((2 ^ 23 + m) * 2 ^ 29)%N by lia.
    rewrite round_even_exact. lia.
Qed.

Lemma f64_to_f32_to_f64 x : f32_quiet x -> f64_to_f32 (f32_to_f64 x) = x.
Proof.
  intros [Hx Hq]. etrans; [|symmetry; apply (fields32 x)].
  pose proof (narrow_widen ((x / 2 ^ 23) mod 256) (x mod 2 ^ 23)) as Hn. unfold f32_to_f64.
  destruct (widen _ _) as [e m]. destruct Hn as (He & Hm & En); [by apply N.mod_lt|by apply N.mod_lt|done|].
  destruct (fields64 (x / 2 ^ 31) e m He Hm) as (E1 & E2 & E3).
  unfold f64_to_f32. by rewrite E1, E2, E3, En.
Qed.

Lemma f32_to_f64_u64 x : in_uint 32 x -> is_u64 (f32_to_f64 x).
Proof.
  intros Hx. unfold f32_to_f64.
  assert (x / 2 ^ 31 < 2)%N as Hs by (apply N.Div0.div_lt_upper_bound; exact Hx).
  set (e := ((x / 2 ^ 23) mod 256)%N). set (m := (x mod 2 ^ 23)%N).
  assert (e < 256)%N as He by (by apply N.mod_lt). assert (m < 2 ^ 23)%N as Hm by (by apply N.mod_lt).
  assert (let '(e', m') := widen e m in (e' < 2048)%N ∧ (m' < 2 ^ 52)%N) as Hw.
  { destruct (N.eqb_spec e 0) as [->|He0].
    - destruct (N.eqb_spec m 0) as [->|Hm0]; [done|]. pose proof (narrow_subnormal m) as Hn.
      destruct (widen 0 m). destruct Hn as (? & ? & _); [lia|done].
    - unfold widen. destruct (N.eqb_spec e 255), (N.eqb_spec e 0), (N.eqb_spec m 0), (N.leb_spec (2 ^ 22) m); lia. }
  destruct (widen e m). unfold is_u64, max64. lia.
Qed.

Lemma round_even_le sig k : (round_even sig k ≤ sig / 2 ^ k + 1)%N.
Proof. unfold round_even. destruct (_ || _); lia. Qed.

Lemma narrow_bound e m :
  (e < 2048)%N -> (m < 2 ^ 52)%N ->
  (narrow e m ≤ 255 * 2 ^ 23 ∨ 255 * 2 ^ 23 + 2 ^ 22 ≤ narrow e m < 2 ^ 31)%N.
Proof.
  intros He Hm. unfold narrow.
  assert (m / 2 ^ 29 < 2 ^ 23)%N as Hd by (apply N.Div0.div_lt_upper_bound; lia). revert Hd. generalize (m / 2 ^ 29)%N. intros d Hd.
  destruct (N.eqb_spec e 2047); [destruct (N.eqb_spec m 0), (N.leb_spec (2 ^ 22) d); lia|].
  destruct (N.eqb_spec e 0); [lia|]. destruct (N.ltb_spec 1150 e); [lia|]. left. destruct (N.leb_spec 897 e).
  - pose proof (round_even_le (2 ^ 52 + m) 29). assert ((2 ^ 52 + m) / 2 ^ 29 < 2 ^ 24)%N by (apply N.Div0.div_lt_upper_bound; lia). lia.
  - pose proof (round_even_le (2 ^ 52 + m) (926 - e)).
    assert ((2 ^ 52 + m) / 2 ^ (926 - e) ≤ (2 ^ 52 + m) / 2 ^ 30)%N by (apply N.div_le_compat_l; split; [lia|apply N.pow_le_mono_r; lia]).
    assert ((2 ^ 52 + m) / 2 ^ 30 < 2 ^ 23)%N by (apply N.Div0.div_lt_upper_bound; lia). lia.
Qed.

(** What [f64_to_f32] returns is a quiet pattern of 32 bits. *)
Lemma f64_to_f32_quiet y : is_u64 y -> f32_quiet (f64_to_f32 y).
Proof.
  intros Hy. unfold is_u64, max64 in Hy. unfold f64_to_f32, f32_quiet, in_uint.
  assert (y / 2 ^ 63 < 2)%N as Hs by (apply N.Div0.div_lt_upper_bound; lia). revert Hs. generalize (y / 2 ^ 63)%N. intros s Hs.
  pose proof (narrow_bound ((y / 2 ^ 52) mod 2048) (y mod 2 ^ 52) ltac:(by apply N.mod_lt) ltac:(by apply N.mod_lt)) as Hn.
  revert Hn. generalize (narrow ((y / 2 ^ 52) mod 2048) (y mod 2 ^ 52)). intros n Hn.
  assert (s * 2 ^ 31 + n = (s * 256 + n / 2 ^ 23) * 2 ^ 23 + n mod 2 ^ 23)%N as Eq.
  { pose proof (N.div_mod n (2 ^ 23) ltac:(lia)). lia. }
  assert (n mod 2 ^ 23 < 2 ^ 23)%N as Hf by (by apply N.mod_lt).
  assert (n / 2 ^ 23 < 256)%N as Hd by (apply N.Div0.div_lt_upper_bound; lia).
  split; [lia|]. rewrite Eq, N.div_add_l, (N.div_small (n mod 2 ^ 23)), N.add_0_r by (lia || done).
  rewrite N.add_comm, N.Div0.mod_add, N.mod_small by done. rewrite (N.add_comm _ (n mod _)), N.Div0.mod_add, (N.mod_small (n mod _)) by done.
  pose proof (N.div_mod n (2 ^ 23) ltac:(lia)) as Hdm. clear Eq. revert Hf Hd Hdm.
  generalize (n / 2 ^ 23)%N (n mod 2 ^ 23)%N. intros a f Hf Hd Hdm Ha. subst a. lia.
Qed.

(** * Variable-length integers ([encoding/binary]) *)

(** [AppendUvarint]: seven bits a byte, low first; a 64-bit value takes at most ten. *)
Fixpoint put_uvarint (left : nat) (v : N) : bytes :=
  match left with
  | O => [u8 v]
  | S left' =>
      if (v <? 0x80)%N then [u8 v] else u8 (N.lor (v mod 256) 0x80) :: put_uvarint left' (v / 128)
  end.
Definition AppendUvarint (buf : bytes) (v : N) : bytes := buf ++ put_uvarint 9 v.

(** [Uvarint]: the value and the number of bytes read; 0 for a short buffer, minus
    the number read for a value above 64 bits. *)
Fixpoint uvarint (i : nat) (x : N) (buf : bytes) : N * Z :=
  match buf with
  | [] => (0%N, 0%Z)
  | b :: buf' =>
      let s := (7 * N.of_nat i)%N in
      if decide (i = 10) then (0%N, (- (Z.of_nat i + 1))%Z)
      else if (bn b <? 0x80)%N then
        if decide (i = 9 ∧ (1 < bn b)%N) then (0%N, (- (Z.of_nat i + 1))%Z)
        else (N.lor x (wrap64 (N.shiftl (bn b) s)), (Z.of_nat i + 1)%Z)
      else uvarint (S i) (N.lor x (wrap64 (N.shiftl (N.land (bn b) 0x7f) s))) buf'
  end.
Definition Uvarint (buf : bytes) : N * Z := uvarint 0 0 buf.

(** [time.Time]: seconds and nanoseconds since the epoch, and whether its location
    is UTC. *)
Record gotime := MkTime { t_sec : Z; t_nsec : Z; t_utc : bool }.
#[export] Instance gotime_eq_dec : EqDecision gotime.
Proof. solve_decision. Defined.

Definition time_UTC (t : gotime) : gotime := MkTime (t_sec t) (t_nsec t) true.
(** [UnixNano] computes in [int64]. *)
Definition UnixNano (t : gotime) : Z := wrap_int 64 (t_sec t * 1000000000 + t_nsec t).
(** [time.Unix(0, n)], in the local zone. *)
Definition time_Unix0 (n : Z) : gotime := MkTime (n / 1000000000) (n mod 1000000000) false.

Lemma lor_shiftl_add x y k : (x < 2 ^ k)%N -> N.lor x (N.shiftl y k) = (x + y * 2 ^ k)%N.
Proof.
  intros Hx. rewrite N.shiftl_mul_pow2. rewrite <-(N.lxor_lor x (y * 2 ^ k)), <-N.add_nocarry_lxor; [done|..];
    apply N.bits_inj_0; intros i; rewrite N.land_spec, <-N.shiftl_mul_pow2;
    (destruct (N.lt_ge_cases i k); [rewrite N.shiftl_spec_low, andb_false_r by done|
      rewrite (testbit_high x k) by done]; done).
Qed.

(** A continuation byte carries the low seven bits. *)
Lemma continuation_byte v :
  bn (u8 (N.lor (v mod 256) 0x80)) = (128 + v mod 128)%N ∧ N.land (128 + v mod 128) 0x7f = (v mod 128)%N.
Proof.
  assert (∀ w, (w < 256)%N -> (N.lor w 0x80 =? 128 + w mod 128)%N && (N.land (128 + w mod 128) 0x7f =? w mod 128)%N = true) as Hw.
  { intros w Hw. assert (forallb (λ i, let w := N.of_nat i in (N.lor w 0x80 =? 128 + w mod 128)%N &&
      (N.land (128 + w mod 128) 0x7f =? w mod 128)%N) (seq 0 256) = true) as Hall by (vm_compute; reflexivity).
    rewrite forallb_forall in Hall. specialize (Hall (N.to_nat w)). rewrite N2Nat.id in Hall.
    apply Hall, in_seq. lia. }
  specialize (Hw (v mod 256)%N (N.mod_lt v 256 ltac:(lia))).
  apply andb_true_iff in Hw as [E1%N.eqb_eq E2%N.eqb_eq].
  assert (v mod 256 mod 128 = v mod 128)%N as Em.
  { change 256%N with (128 * 2)%N. rewrite N.Div0.mod_mul_r, N.mul_comm, N.Div0.mod_add. by apply N.Div0.mod_mod. }
  rewrite Em in E1, E2. rewrite E1, bn_u8. split; [|done].
  apply N.mod_small. pose proof (N.mod_lt v 128). lia.
Qed.

Lemma uvarint_put left i x v rest :
  i + left = 9 -> (x < 2 ^ (7 * N.of_nat i))%N -> (v * 2 ^ (7 * N.of_nat i) < max64)%N ->
  uvarint i x (put_uvarint left v ++ rest) =
  ((x + v * 2 ^ (7 * N.of_nat i))%N, (Z.of_nat i + Z.of_nat (length (put_uvarint left v)))%Z).
Proof.
  assert (∀ i x v rest, i ≤ 9 -> (x < 2 ^ (7 * N.of_nat i))%N -> (v * 2 ^ (7 * N.of_nat i) < max64)%N ->
    (v < 0x80)%N -> uvarint i x (u8 v :: rest) = ((x + v * 2 ^ (7 * N.of_nat i))%N, (Z.of_nat i + 1)%Z)) as Hlast.
  { clear. intros i x v rest Hi Hx Hv Hv7. cbn [uvarint]. rewrite bn_u8_small by lia.
    rewrite decide_False by lia. destruct (N.ltb_spec v 0x80); [|lia].
    rewrite decide_False.
    - rewrite wrap64_small by (unfold is_u64; rewrite N.shiftl_mul_pow2; done). by rewrite lor_shiftl_add.
    - intros [-> Hv1]. change (7 * N.of_nat 9)%N with 63%N in Hv. unfold max64 in Hv. lia. }
  revert i x v. induction left as [|left IH]; intros i x v Hil Hx Hv; cbn [put_uvarint app length].
  - apply Hlast; [lia|done|done|]. assert (i = 9) as -> by lia.
    change (7 * N.of_nat 9)%N with 63%N in Hv. unfold max64 in Hv. lia.
  - destruct (N.ltb_spec v 0x80) as [Hlt|Hge]; [apply Hlast; [lia|done..]|].
    destruct (continuation_byte v) as [Eb El]. cbn [app uvarint length]. rewrite Eb, El.
    pose proof (N.mod_lt v 128 ltac:(lia)) as Hm. pose proof (N.Div0.div_mod v 128) as Hdm.
    rewrite decide_False by lia. destruct (N.ltb_spec (128 + v mod 128) 0x80); [lia|].
    assert (2 ^ (7 * N.of_nat (S i)) = 128 * 2 ^ (7 * N.of_nat i))%N as Ep.
    { replace (7 * N.of_nat (S i))%N with (7 + 7 * N.of_nat i)%N by lia. by rewrite N.pow_add_r. }
    rewrite wrap64_small, lor_shiftl_add by (done || unfold is_u64; rewrite N.shiftl_mul_pow2; nia).
    rewrite IH by (rewrite ?Ep; (lia || nia)). f_equal; [rewrite Ep; nia|lia].
Qed.

Lemma Uvarint_Append v rest :
  is_u64 v -> Uvarint (put_uvarint 9 v ++ rest) = (v, Z.of_nat (length (put_uvarint 9 v))).
Proof.
  intros Hv. unfold Uvarint. rewrite uvarint_put; [|done|done|].
  - change (7 * N.of_nat 0)%N with 0%N. rewrite N.pow_0_r, N.mul_1_r, N.add_0_l. f_equal.
  - change (7 * N.of_nat 0)%N with 0%N. by rewrite N.pow_0_r, N.mul_1_r.
Qed.

Lemma length_put_uvarint left v : 0 < length (put_uvarint left v) ≤ S left.
Proof.
  revert v. induction left as [|left IH]; intros v; cbn [put_uvarint length]; [lia|].
  destruct (v <? 0x80)%N; cbn [length]; [lia|]. specialize (IH (v / 128)%N). lia.
Qed.

Lemma time_roundtrip t :
  t_utc t = true -> (0 ≤ t_nsec t < 1000000000)%Z -> in_int 64 (t_sec t * 1000000000 + t_nsec t) ->
  time_UTC (time_Unix0 (UnixNano t)) = t.
Proof.
  destruct t as [s n u]. cbn [t_sec t_nsec t_utc]. intros -> Hn Hi.
  unfold UnixNano. cbn [t_sec t_nsec]. rewrite wrap_int_small by (lia || done).
  unfold time_UTC, time_Unix0. cbn [t_sec t_nsec]. f_equal.
  - rewrite Z.div_add_l, Z.div_small by lia. lia.
  - rewrite Z.add_comm, Z.mod_add, Z.mod_small by lia. done.
Qed.
