(* ===== verification/SqlCodec.v ===== *)
(** The value codecs of the SQL layer: [sqlledger/codec.go], and the primary-key
    encoding of [sqlledger/store.go].

    A Go [interface{}] holding a column value is a [value]: its dynamic type and
    its contents.  A row is a list of optional values, [None] for NULL.  Two
    encodings share the scalar forms: the key encoding, whose byte order is the
    order of the values and which no other key extends, and the row encoding. *)

From S2P Require Import Prelude Errors GoNum.

(** * Column types *)

Inductive colKind :=
| kindInt | kindUint | kindFloat32 | kindFloat64 | kindString | kindBytes | kindDatetime.
#[export] Instance colKind_eq_dec : EqDecision colKind.
Proof. solve_decision. Defined.

(** The column types the engine names; every other code is [T_OTHER]. *)
Inductive qtype :=
| T_INT8 | T_INT16 | T_INT24 | T_INT32 | T_INT64
| T_UINT8 | T_UINT16 | T_UINT24 | T_UINT32 | T_UINT64
| T_FLOAT32 | T_FLOAT64
| T_CHAR | T_VARCHAR | T_TEXT
| T_BINARY | T_VARBINARY | T_BLOB
| T_DATETIME | T_TIMESTAMP
| T_OTHER (code : Z).
#[export] Instance qtype_eq_dec : EqDecision qtype.
Proof. solve_decision. Defined.

Record colDef := MkCol {
  cd_Name : string;
  cd_QType : qtype;
  cd_Length : Z;
  cd_Precision : Z;
  cd_Nullable : bool;
  cd_AutoInc : bool
}.
#[export] Instance colDef_eq_dec : EqDecision colDef.
Proof. solve_decision. Defined.

Definition kindOfQType (qt : qtype) : outcome colKind :=
  match qt with
  | T_INT8 | T_INT16 | T_INT24 | T_INT32 | T_INT64 => Ok kindInt
  | T_UINT8 | T_UINT16 | T_UINT24 | T_UINT32 | T_UINT64 => Ok kindUint
  | T_FLOAT32 => Ok kindFloat32
  | T_FLOAT64 => Ok kindFloat64
  | T_CHAR | T_VARCHAR | T_TEXT => Ok kindString
  | T_BINARY | T_VARBINARY | T_BLOB => Ok kindBytes
  | T_DATETIME | T_TIMESTAMP => Ok kindDatetime
  | T_OTHER _ => Err (RawError "column type %v is not supported")
  end.
Definition col_kind (c : colDef) : outcome colKind := kindOfQType (cd_QType c).

(** * Values *)

Inductive value :=
| VInt8 (z : Z) | VInt16 (z : Z) | VInt32 (z : Z) | VInt64 (z : Z) | VInt (z : Z)
| VBool (b : bool)
| VUint8 (n : N) | VUint16 (n : N) | VUint32 (n : N) | VUint64 (n : N) | VUint (n : N)
| VFloat32 (bits : N) | VFloat64 (bits : N)
| VString (s : bytes) | VBytes (b : bytes)
| VTime (t : gotime)
| VOther (what : string).
#[export] Instance value_eq_dec : EqDecision value.
Proof. solve_decision. Defined.

Abbreviation row := (list (option value)).

(** * Scalar encodings *)

Definition encInt64 (v : Z) : bytes := be 8 (flip63 (uint64_of v)).
Definition decInt64 (b : bytes) : Z := int64_of (flip63 (unbe b)).
Definition encUint64 (v : N) : bytes := be 8 v.
Definition encFloat64 (f : N) : bytes :=
  be 8 (if N.testbit f 63 then not64 f else N.lor f (2 ^ 63)).
Definition decFloat64 (raw : bytes) : N :=
  let b := unbe raw in if N.testbit b 63 then N.ldiff b (2 ^ 63) else not64 b.

(** The canonical form of a value for a column kind: the one result of [coerce] the
    callers use. *)
Inductive cval :=
| CInt (i : Z) | CUint (u : N) | CFloat (f : N) | CString (s : bytes) | CBytes (raw : bytes) | CTime (t : gotime).
#[export] Instance cval_eq_dec : EqDecision cval.
Proof. solve_decision. Defined.

Definition coerce (kind : colKind) (v : value) : outcome cval :=
  match kind with
  | kindInt =>
      match v with
      | VInt8 x | VInt16 x | VInt32 x | VInt64 x | VInt x => Ok (CInt x)
      | VBool x => Ok (CInt (if x then 1 else 0))
      | VUint64 x => Ok (CInt (int64_of x))
      | _ => Err (RawError "unexpected integer value %T")
      end
  | kindUint =>
      match v with
      | VUint8 x | VUint16 x | VUint32 x | VUint64 x | VUint x => Ok (CUint x)
      | VInt64 x => Ok (CUint (uint64_of x))
      | _ => Err (RawError "unexpected unsigned value %T")
      end
  | kindFloat32 | kindFloat64 =>
      match v with
      | VFloat32 x => Ok (CFloat (f32_to_f64 x))
      | VFloat64 x => Ok (CFloat x)
      | _ => Err (RawError "unexpected float value %T")
      end
  | kindString =>
      match v with
      | VString x | VBytes x => Ok (CString x)
      | _ => Err (RawError "unexpected string value %T")
      end
  | kindBytes =>
      match v with
      | VBytes x | VString x => Ok (CBytes x)
      | _ => Err (RawError "unexpected bytes value %T")
      end
  | kindDatetime =>
      match v with
      | VTime x => Ok (CTime x)
      | _ => Err (RawError "unexpected time value %T")
      end
  end.

(** * Key encoding *)

Fixpoint escape (data : bytes) : bytes :=
  match data with
  | [] => []
  | b :: data' => (if decide (b = u8 0) then [u8 0; u8 0xFF] else [b]) ++ escape data'
  end.
Definition appendEscaped (buf data : bytes) : bytes := buf ++ escape data ++ [u8 0; u8 0].

(** The bytes [encodeKeyCol] appends for a canonical value. *)
Definition key_bytes (c : cval) : bytes :=
  match c with
  | CInt i => encInt64 i
  | CUint u => encUint64 u
  | CFloat f => encFloat64 f
  | CString s | CBytes s => appendEscaped [] s
  | CTime t => encInt64 (UnixNano (time_UTC t))
  end.

Definition encodeKeyCol (buf : bytes) (kind : colKind) (v : value) : outcome bytes :=
  c ← coerce kind v; Ok (buf ++ key_bytes c).

(** * Row encoding *)

Definition rowNull : byte := u8 0.
Definition rowPresent : byte := u8 1.

Definition row_bytes (c : cval) : bytes :=
  match c with
  | CInt i => encInt64 i
  | CUint u => encUint64 u
  | CFloat f => encFloat64 f
  | CString s | CBytes s => AppendUvarint [] (N.of_nat (length s)) ++ s
  | CTime t => encInt64 (UnixNano (time_UTC t))
  end.

Definition wrap_err {A} (msg : string) (o : outcome A) : outcome A :=
  match o with Err e => Err (WrapError msg e) | _ => o end.

(** The loop over the columns, appending to [buf]. *)
Fixpoint encode_cols (cols : list colDef) (r : row) (buf : bytes) : outcome bytes :=
  match cols, r with
  | col :: cols', v :: r' =>
      match v with
      | None => encode_cols cols' r' (buf ++ [rowNull])
      | Some x =>
          kind ← col_kind col;
          c ← wrap_err "column %q" (coerce kind x);
          encode_cols cols' r' (buf ++ [rowPresent] ++ row_bytes c)
      end
  | _, _ => Ok buf
  end.

Definition encodeRow (cols : list colDef) (r : row) : outcome bytes :=
  if decide (length r = length cols) then encode_cols cols r []
  else Err (RawError "row has %d values, schema has %d columns").

Definition narrowInt (qt : qtype) (v : Z) : value :=
  match qt with
  | T_INT8 => VInt8 (wrap_int 8 v)
  | T_INT16 => VInt16 (wrap_int 16 v)
  | T_INT24 | T_INT32 => VInt32 (wrap_int 32 v)
  | _ => VInt64 v
  end.

Definition narrowUint (qt : qtype) (v : N) : value :=
  match qt with
  | T_UINT8 => VUint8 (wrap_uint 8 v)
  | T_UINT16 => VUint16 (wrap_uint 16 v)
  | T_UINT24 | T_UINT32 => VUint32 (wrap_uint 32 v)
  | _ => VUint64 v
  end.

Definition truncated : error := RawError "row truncated at column %q".

(** One present column at offset [off] of [data]: its value and the next offset.
    [int(n)] and the sums are computed in [int64]; the slice expression panics when
    its bounds are out of order. *)
Definition decode_col (col : colDef) (data : bytes) (off : nat) : outcome (value * nat) :=
  kind ← col_kind col;
  match kind with
  | kindString | kindBytes =>
      let '(n, sz) := Uvarint (drop off data) in
      let hi := wrap_int 64 (Z.of_nat off + sz + int64_of n) in
      if decide (sz ≤ 0 ∨ Z.of_nat (length data) < hi)%Z then Err truncated
      else
        let off := off + Z.to_nat sz in
        if decide (hi < Z.of_nat off)%Z then Panic "slice bounds out of range"
        else
          let b := take (Z.to_nat hi - off) (drop off data) in
          Ok (match kind with kindString => VString b | _ => VBytes b end, Z.to_nat hi)
  | _ =>
      if decide (length data < off + 8) then Err truncated
      else
        let raw := take 8 (drop off data) in
        Ok (match kind with
            | kindInt => narrowInt (cd_QType col) (decInt64 raw)
            | kindUint => narrowUint (cd_QType col) (unbe raw)
            | kindFloat32 => VFloat32 (f64_to_f32 (decFloat64 raw))
            | kindFloat64 => VFloat64 (decFloat64 raw)
            | _ => VTime (time_UTC (time_Unix0 (decInt64 raw)))
            end, off + 8)
  end.

Fixpoint decode_cols (cols : list colDef) (data : bytes) (off : nat) (r : row) : outcome (row * nat) :=
  match cols with
  | [] => Ok (r, off)
  | col :: cols' =>
      match data !! off with
      | None => Err truncated
      | Some marker =>
          if decide (marker = rowNull) then decode_cols cols' data (S off) (r ++ [None])
          else if decide (marker = rowPresent) then
            '(v, off') ← decode_col col data (S off);
            decode_cols cols' data off' (r ++ [Some v])
          else Err (RawError "row corrupt at column %q")
      end
  end.

Definition decodeRow (cols : list colDef) (data : bytes) : outcome row :=
  '(r, off) ← decode_cols cols data 0 [];
  if decide (off = length data) then Ok r else Err (RawError "row has %d trailing bytes").

(** * Table definitions and primary keys ([store.go]) *)

Record indexDef := MkIndex { ix_ID : N; ix_Name : string; ix_Unique : bool; ix_ColOrds : list nat }.
#[export] Instance indexDef_eq_dec : EqDecision indexDef.
Proof. solve_decision. Defined.

Record tableDef := MkTable {
  td_ID : N;
  td_Name : string;
  td_Columns : list colDef;
  td_PKOrds : list nat;
  td_Comment : string;
  td_Indexes : list indexDef;
  td_autoIncNext : N
}.
#[export] Instance tableDef_eq_dec : EqDecision tableDef.
Proof. solve_decision. Defined.

Definition out_of_range {A} : outcome A := Panic "index out of range".

Fixpoint encode_pk_cols (cols : list colDef) (r : row) (ords : list nat) (buf : bytes) : outcome bytes :=
  match ords with
  | [] => Ok buf
  | ord :: ords' =>
      match r !! ord, cols !! ord with
      | Some None, Some _ => Err (RawError "primary key column %q is NULL")
      | Some (Some v), Some col =>
          kind ← col_kind col;
          buf ← wrap_err "primary key column %q" (encodeKeyCol buf kind v);
          encode_pk_cols cols r ords' buf
      | _, _ => out_of_range
      end
  end.
Definition encodePK (def : tableDef) (r : row) : outcome bytes :=
  encode_pk_cols (td_Columns def) r (td_PKOrds def) [].

(** * Scalars: round trips and order *)

Lemma length_encInt64 v : length (encInt64 v) = 8.
Proof. apply length_be. Qed.

Lemma decInt64_enc v : in_int 64 v -> decInt64 (encInt64 v) = v.
Proof.
  intros Hv. unfold decInt64, encInt64. rewrite unbe_be8 by apply flip63_u64, uint64_of_u64.
  rewrite flip63_flip63. by apply int64_of_uint64_of.
Qed.

(** The position of a bit pattern in the order of the encoding: negative values downwards
    by magnitude, then positive ones.  [f64_rank_num] relates it to the numeric order. *)
Definition f64_rank (f : N) : Z :=
  if N.testbit f 63 then (- (Z.of_N f - 2 ^ 63) - 1)%Z else Z.of_N f.

Lemma testbit63 f : is_u64 f -> N.testbit f 63 = (2 ^ 63 <=? f)%N.
Proof.
  intros Hf. destruct (N.leb_spec (2 ^ 63) f).
  - rewrite N.testbit_true. assert (f / 2 ^ 63 = 1)%N as ->; [|done].
    symmetry. apply (N.div_unique _ _ _ (f - 2 ^ 63)); unfold is_u64, max64 in Hf; lia.
  - by apply (testbit_high f 63).
Qed.

Lemma lor63 f : (f < 2 ^ 63)%N -> N.lor f (2 ^ 63) = (f + 2 ^ 63)%N.
Proof. intros Hf. exact (lor_shiftl_add f 1 63 Hf). Qed.

Lemma encFloat64_rank f :
  is_u64 f -> encFloat64 f = be 8 (Z.to_N (f64_rank f + 2 ^ 63)) ∧ (- 2 ^ 63 ≤ f64_rank f < 2 ^ 63)%Z.
Proof.
  intros Hf. unfold encFloat64, f64_rank. rewrite testbit63 by done. pose proof Hf as Hf'.
  unfold is_u64, max64 in Hf'. destruct (N.leb_spec (2 ^ 63) f).
  - rewrite not64_sub by done. split; [f_equal; lia|lia].
  - rewrite lor63 by done. split; [f_equal; lia|lia].
Qed.

Lemma decFloat64_enc f : is_u64 f -> decFloat64 (encFloat64 f) = f.
Proof.
  intros Hf. unfold decFloat64, encFloat64. rewrite (testbit63 f) by done. pose proof Hf as Hf'.
  unfold is_u64, max64 in Hf'. destruct (N.leb_spec (2 ^ 63) f).
  - rewrite (not64_sub f) by done. assert (is_u64 (2 ^ 64 - 1 - f)) as Hu by (unfold is_u64, max64; lia).
    rewrite unbe_be8, testbit63 by done. destruct (N.leb_spec (2 ^ 63) (2 ^ 64 - 1 - f)); [lia|].
    rewrite not64_sub by done. lia.
  - rewrite lor63 by done. assert (is_u64 (f + 2 ^ 63)) as Hu by (unfold is_u64, max64; lia).
    rewrite unbe_be8, testbit63 by done. destruct (N.leb_spec (2 ^ 63) (f + 2 ^ 63)); [|lia].
    apply N.bits_inj. intros i. rewrite N.ldiff_spec, <-lxor_pow2_low, N.lxor_spec by done.
    destruct (decide (i = 63%N)) as [->|Hi].
    + rewrite (testbit_high f 63) by done. by rewrite N.pow2_bits_true.
    + rewrite N.pow2_bits_false by done. by rewrite xorb_false_r, andb_true_r.
Qed.

(** ** The order of canonical values as the keys have it *)

Definition unix_ns (t : gotime) : Z := (t_sec t * 1000000000 + t_nsec t)%Z.

Definition cval_ok (c : cval) : Prop :=
  match c with
  | CInt i => in_int 64 i
  | CUint u => is_u64 u
  | CFloat f => is_u64 f
  | CString _ | CBytes _ => True
  | CTime t => in_int 64 (unix_ns t)
  end.

(** Of the same kind, so that they are compared. *)
Definition alike (a b : cval) : Prop :=
  match a, b with
  | CInt _, CInt _ | CUint _, CUint _ | CFloat _, CFloat _ | CString _, CString _ | CBytes _, CBytes _
  | CTime _, CTime _ => True
  | _, _ => False
  end.

Definition cval_cmp (a b : cval) : comparison :=
  match a, b with
  | CInt x, CInt y => Z.compare x y
  | CUint x, CUint y => N.compare x y
  | CFloat x, CFloat y => Z.compare (f64_rank x) (f64_rank y)
  | CString x, CString y | CBytes x, CBytes y => bytes_cmp x y
  | CTime x, CTime y => Z.compare (unix_ns x) (unix_ns y)
  | _, _ => Eq
  end.

Fixpoint key_cmp (xs ys : list cval) : comparison :=
  match xs, ys with
  | x :: xs', y :: ys' => match cval_cmp x y with Eq => key_cmp xs' ys' | c => c end
  | [], [] => Eq
  | [], _ :: _ => Lt
  | _ :: _, [] => Gt
  end.

(** The first part decides, and on a tie the second. *)
Definition then_cmp (c d : comparison) : comparison := match c with Eq => d | _ => c end.

Lemma be8_then_cmp n m s t :
  is_u64 n -> is_u64 m -> bytes_cmp (be 8 n ++ s) (be 8 m ++ t) = then_cmp (N.compare n m) (bytes_cmp s t).
Proof.
  intros Hn Hm. destruct (decide (n = m)) as [->|Hne].
  - by rewrite bytes_cmp_app_l, N.compare_refl.
  - rewrite bytes_cmp_app_eqlen, be_cmp by (rewrite ?length_be; done || (intros E%be8_inj; done)).
    destruct (N.compare_spec n m); done.
Qed.

Lemma offset_then_cmp x y s t :
  (- 2 ^ 63 ≤ x < 2 ^ 63)%Z -> (- 2 ^ 63 ≤ y < 2 ^ 63)%Z ->
  bytes_cmp (be 8 (Z.to_N (x + 2 ^ 63)) ++ s) (be 8 (Z.to_N (y + 2 ^ 63)) ++ t) =
  then_cmp (Z.compare x y) (bytes_cmp s t).
Proof.
  intros Hx Hy. rewrite be8_then_cmp by (unfold is_u64, max64; lia). f_equal.
  rewrite <-N2Z.inj_compare, !Z2N.id by lia. rewrite !(Z.add_comm _ (2 ^ 63)). apply Z.add_compare_mono_l.
Qed.

Lemma escape_then_cmp a b s t :
  bytes_cmp (appendEscaped [] a ++ s) (appendEscaped [] b ++ t) = then_cmp (bytes_cmp a b) (bytes_cmp s t).
Proof.
  unfold appendEscaped. cbn [app]. revert b. induction a as [|x a IH]; intros [|y b]; cbn [escape app].
  - done.
  - destruct (decide (y = u8 0)) as [->|Hy]; [done|]. cbn [app].
    destruct (N.compare_spec (bn (u8 0)) (bn y)) as [E|E|E].
    + by apply (inj bn) in E.
    + cbn. by rewrite (proj2 (N.compare_lt_iff _ _) E).
    + change (bn (u8 0)) with 0%N in E. lia.
  - destruct (decide (x = u8 0)) as [->|Hx]; [done|]. cbn [app].
    destruct (N.compare_spec (bn x) (bn (u8 0))) as [E|E|E].
    + by apply (inj bn) in E.
    + change (bn (u8 0)) with 0%N in E. lia.
    + cbn. by rewrite (proj2 (N.compare_gt_iff _ _) E).
  - cbn [bytes_cmp]. destruct (N.compare_spec (bn x) (bn y)) as [E|E|E].
    + apply (inj bn) in E as ->. rewrite <-!app_assoc, bytes_cmp_app_l, !app_assoc. apply IH.
    + destruct (decide (x = u8 0)) as [->|Hx], (decide (y = u8 0)) as [->|Hy]; cbn [app bytes_cmp];
        try (exfalso; change (bn (u8 0)) with 0%N in E; lia); by rewrite (proj2 (N.compare_lt_iff _ _) E).
    + destruct (decide (x = u8 0)) as [->|Hx], (decide (y = u8 0)) as [->|Hy]; cbn [app bytes_cmp];
        try (exfalso; change (bn (u8 0)) with 0%N in E; lia); by rewrite (proj2 (N.compare_gt_iff _ _) E).
Qed.

(** The key form of a value, whatever follows it, compares as the value does. *)
Lemma key_then_cmp a b s t :
  cval_ok a -> cval_ok b -> alike a b ->
  bytes_cmp (key_bytes a ++ s) (key_bytes b ++ t) = then_cmp (cval_cmp a b) (bytes_cmp s t).
Proof.
  destruct a, b; cbn [cval_ok alike cval_cmp key_bytes]; intros Ha Hb Hab; try done.
  - unfold encInt64. rewrite !flip63_uint64_of by done. apply offset_then_cmp; unfold in_int in *; lia.
  - by apply be8_then_cmp.
  - destruct (encFloat64_rank f Ha) as [-> ?], (encFloat64_rank f0 Hb) as [-> ?]. by apply offset_then_cmp.
  - apply escape_then_cmp.
  - apply escape_then_cmp.
  - unfold UnixNano, time_UTC, unix_ns in *. cbn [t_sec t_nsec] in *. rewrite !wrap_int_small by (lia || done).
    unfold encInt64. rewrite !flip63_uint64_of by done. apply offset_then_cmp; unfold in_int in *; lia.
Qed.

(** ** The order of SQL *)

(** The magnitude of a float in units of the least one, [2^-1074]; exponent 2047 without
    fraction, the infinity, comes out above every finite float. *)
Definition f64_mag (f : N) : N :=
  let e := ((f / 2 ^ 52) mod 2 ^ 11)%N in
  let m := (f mod 2 ^ 52)%N in
  (if e =? 0 then m else (2 ^ 52 + m) * 2 ^ (e - 1))%N.
Definition f64_num (f : N) : Z := if N.testbit f 63 then (- Z.of_N (f64_mag f))%Z else Z.of_N (f64_mag f).

Definition f64_nan (f : N) : Prop := ((f / 2 ^ 52) mod 2 ^ 11 = 2047 ∧ f mod 2 ^ 52 ≠ 0)%N.
Definition f64_neg_zero : N := 2 ^ 63.

(** Neither NaN, which SQL does not order, nor -0.0, which SQL takes to be 0.0. *)
Definition f64_ordered (f : N) : Prop := ¬ f64_nan f ∧ f ≠ f64_neg_zero.
Definition ordered (c : cval) : Prop := match c with CFloat f => f64_ordered f | _ => True end.
Definition value_ordered (v : value) : Prop :=
  match v with VFloat32 b => f64_ordered (f32_to_f64 b) | VFloat64 b => f64_ordered b | _ => True end.
#[export] Instance value_ordered_dec v : Decision (value_ordered v).
Proof. destruct v; cbn; unfold f64_ordered, f64_nan; apply _. Defined.

(** Numbers by value, strings byte by byte (the binary collation), times by instant. *)
Definition sql_cmp (a b : cval) : comparison :=
  match a, b with
  | CInt x, CInt y => Z.compare x y
  | CUint x, CUint y => N.compare x y
  | CFloat x, CFloat y => Z.compare (f64_num x) (f64_num y)
  | CString x, CString y | CBytes x, CBytes y => bytes_cmp x y
  | CTime x, CTime y => Z.compare (unix_ns x) (unix_ns y)
  | _, _ => Eq
  end.
Fixpoint sql_key_cmp (xs ys : list cval) : comparison :=
  match xs, ys with
  | x :: xs', y :: ys' => match sql_cmp x y with Eq => sql_key_cmp xs' ys' | c => c end
  | [], [] => Eq
  | [], _ :: _ => Lt
  | _ :: _, [] => Gt
  end.

Lemma coerce_ordered kind v c : value_ordered v -> coerce kind v = Ok c -> ordered c.
Proof. destruct kind, v; cbn [coerce value_ordered]; intros Hv [= <-]; done. Qed.

(** Without its sign a float grows with its bits. *)
Lemma f64_mag_mono x y : (x < y < 2 ^ 63)%N -> (f64_mag x < f64_mag y)%N.
Proof.
  intros [Hxy Hy]. unfold f64_mag.
  assert (∀ z, (z < 2 ^ 63)%N -> ((z / 2 ^ 52) mod 2 ^ 11 = z / 2 ^ 52)%N) as He.
  { intros z Hz. apply N.mod_small, N.Div0.div_lt_upper_bound. exact Hz. }
  rewrite !He by lia. pose proof (N.div_mod x (2 ^ 52) ltac:(lia)) as Ex. pose proof (N.div_mod y (2 ^ 52) ltac:(lia)) as Ey.
  pose proof (N.mod_lt x (2 ^ 52) ltac:(lia)) as Mx. pose proof (N.mod_lt y (2 ^ 52) ltac:(lia)) as My.
  revert Ex Ey Mx My. generalize (x / 2 ^ 52)%N (x mod 2 ^ 52)%N (y / 2 ^ 52)%N (y mod 2 ^ 52)%N.
  intros e1 m1 e2 m2 Ex Ey Mx My. destruct (N.eqb_spec e2 0) as [->|H2].
  { destruct (N.eqb_spec e1 0) as [->|]; lia. }
  destruct (N.eq_dec e1 e2) as [->|Hne].
  { destruct (N.eqb_spec e2 0); [lia|]. apply N.mul_lt_mono_pos_r; [|lia]. apply N.neq_0_lt_0, N.pow_nonzero. lia. }
  assert (e1 < e2)%N as Hlt by lia. apply N.lt_le_trans with (2 ^ 52 * 2 ^ (e2 - 1))%N.
  2:{ apply N.mul_le_mono_r. lia. }
  destruct (N.eqb_spec e1 0) as [->|H1].
  { apply N.lt_le_trans with (2 ^ 52 * 1)%N; [lia|]. apply N.mul_le_mono_l.
    apply (N.pow_le_mono_r 2 0 (e2 - 1)); lia. }
  apply N.lt_le_trans with (2 ^ 52 * 2 ^ e1)%N; [|apply N.mul_le_mono_l, N.pow_le_mono_r; lia].
  replace e1 with (N.succ (e1 - 1)) at 2 by lia. rewrite N.pow_succ_r', N.mul_assoc.
  apply N.mul_lt_mono_pos_r; [|lia]. apply N.neq_0_lt_0, N.pow_nonzero. lia.
Qed.

Lemma f64_mag_sign f : (2 ^ 63 ≤ f < 2 ^ 64)%N -> f64_mag f = f64_mag (f - 2 ^ 63).
Proof.
  intros Hf. assert (f = f - 2 ^ 63 + 2 ^ 11 * 2 ^ 52)%N as Ef by lia. revert Ef. generalize (f - 2 ^ 63)%N.
  intros g ->. unfold f64_mag. rewrite N.Div0.mod_add, N.div_add by lia.
  replace (g / 2 ^ 52 + 2 ^ 11)%N with (g / 2 ^ 52 + 1 * 2 ^ 11)%N by lia. by rewrite N.Div0.mod_add.
Qed.

(** The order of the bits is the numeric order, when -0.0 is left out. *)
Lemma f64_rank_num x y :
  is_u64 x -> is_u64 y -> x ≠ f64_neg_zero -> y ≠ f64_neg_zero ->
  Z.compare (f64_rank x) (f64_rank y) = Z.compare (f64_num x) (f64_num y).
Proof.
  unfold f64_rank, f64_num, f64_neg_zero. intros Hx Hy Nx Ny. rewrite !testbit63 by done. unfold is_u64, max64 in *.
  assert (∀ a b, (a < 2 ^ 63)%N -> (b < 2 ^ 63)%N -> N.compare a b = N.compare (f64_mag a) (f64_mag b)) as Hmag.
  { intros a b Ha Hb. destruct (N.compare_spec a b) as [->|Hl|Hl]; [by rewrite N.compare_refl|..]; symmetry.
    - apply N.compare_lt_iff, f64_mag_mono. lia.
    - apply N.compare_gt_iff, f64_mag_mono. lia. }
  assert (f64_mag 0 = 0%N) as H0 by done.
  assert (∀ f, (2 ^ 63 < f < 2 ^ 64)%N -> (0 < f64_mag f)%N) as Hpos.
  { intros f Hf. rewrite f64_mag_sign by lia. rewrite <-H0. apply f64_mag_mono. lia. }
  destruct (N.leb_spec (2 ^ 63) x), (N.leb_spec (2 ^ 63) y).
  - assert (N.compare (y - 2 ^ 63) (x - 2 ^ 63) = N.compare (f64_mag y) (f64_mag x)) as Hm.
    { rewrite Hmag by lia. by rewrite (f64_mag_sign x), (f64_mag_sign y) by lia. }
    rewrite <-!N2Z.inj_compare in Hm. rewrite Z.compare_opp, <-Hm.
    destruct (Z.compare_spec (- (Z.of_N x - 2 ^ 63) - 1) (- (Z.of_N y - 2 ^ 63) - 1)); symmetry;
      [apply Z.compare_eq_iff|apply Z.compare_lt_iff|apply Z.compare_gt_iff]; lia.
  - pose proof (Hpos x ltac:(lia)). transitivity Lt; [apply Z.compare_lt_iff|symmetry; apply Z.compare_lt_iff]; lia.
  - pose proof (Hpos y ltac:(lia)). transitivity Gt; [apply Z.compare_gt_iff|symmetry; apply Z.compare_gt_iff]; lia.
  - rewrite !N2Z.inj_compare. by apply Hmag.
Qed.

Lemma sql_cmp_key a b : cval_ok a -> cval_ok b -> ordered a -> ordered b -> sql_cmp a b = cval_cmp a b.
Proof. destruct a, b; cbn; try done. intros Ha Hb [_ Na] [_ Nb]. symmetry. by apply f64_rank_num. Qed.

Lemma sql_keys_cmp xs ys :
  Forall cval_ok xs -> Forall cval_ok ys -> Forall ordered xs -> Forall ordered ys -> sql_key_cmp xs ys = key_cmp xs ys.
Proof.
  revert ys. induction xs as [|x xs IH]; intros [|y ys] H1 H2 H3 H4; try done.
  apply Forall_cons in H1 as [? ?], H2 as [? ?], H3 as [? ?], H4 as [? ?]. cbn. by rewrite sql_cmp_key, IH.
Qed.

(** A value its Go type can hold; a time the 64-bit nanosecond count can. *)
Definition value_wf (v : value) : Prop :=
  match v with
  | VInt8 z => in_int 8 z | VInt16 z => in_int 16 z | VInt32 z => in_int 32 z
  | VInt64 z | VInt z => in_int 64 z
  | VUint8 n => in_uint 8 n | VUint16 n => in_uint 16 n | VUint32 n => in_uint 32 n
  | VUint64 n | VUint n => is_u64 n
  | VFloat32 b => in_uint 32 b | VFloat64 b => is_u64 b
  | VTime t => in_int 64 (unix_ns t)
  | VBool _ | VString _ | VBytes _ | VOther _ => True
  end.
#[export] Instance value_wf_dec v : Decision (value_wf v).
Proof. destruct v; apply _. Defined.

Lemma int64_of_in u : in_int 64 (int64_of u).
Proof.
  unfold in_int, int64_of, wrap_int. change (64 - 1)%Z with 63%Z.
  pose proof (Z.mod_pos_bound (Z.of_N u + 2 ^ 63) (2 ^ 64)). lia.
Qed.

Lemma coerce_ok kind v c : value_wf v -> coerce kind v = Ok c -> cval_ok c.
Proof.
  destruct kind, v; cbn [coerce value_wf]; intros Hw [= <-]; cbn [cval_ok]; try done;
    unfold in_int, in_uint, is_u64, max64 in *; try lia.
  - destruct b; lia.
  - apply int64_of_in.
  - apply uint64_of_u64.
  - by apply f32_to_f64_u64.
  - by apply f32_to_f64_u64.
Qed.

Lemma coerce_alike kind v w c d : coerce kind v = Ok c -> coerce kind w = Ok d -> alike c d.
Proof. destruct kind, v; cbn [coerce]; intros [= <-]; destruct w; by intros [= <-]. Qed.

(** ** Primary keys *)

(** The canonical values of the key columns, in key order. *)
Fixpoint pk_vals (cols : list colDef) (r : row) (ords : list nat) : option (list cval) :=
  match ords with
  | [] => Some []
  | ord :: ords' =>
      v ← mjoin (r !! ord); col ← cols !! ord;
      match k ← col_kind col; coerce k v with
      | Ok c => cs ← pk_vals cols r ords'; Some (c :: cs)
      | _ => None
      end
  end.

Lemma encode_pk_vals cols r ords buf k :
  encode_pk_cols cols r ords buf = Ok k ->
  ∃ cs, pk_vals cols r ords = Some cs ∧ k = buf ++ concat (key_bytes <$> cs).
Proof.
  revert buf. induction ords as [|ord ords IH]; intros buf; cbn [encode_pk_cols pk_vals].
  { intros [= <-]. exists []. by rewrite app_nil_r. }
  destruct (r !! ord) as [[v|]|], (cols !! ord) as [col|]; try done. cbn.
  destruct (col_kind col) as [kind|e|w]; cbn; try done. unfold encodeKeyCol.
  destruct (coerce kind v) as [c|e|w]; cbn; try done.
  intros (cs & -> & ->)%IH. exists (c :: cs). cbn. by rewrite <-app_assoc.
Qed.

Definition row_wf (r : row) : Prop := Forall (λ o, match o with Some v => value_wf v | None => True end) r.
#[export] Instance row_wf_dec r : Decision (row_wf r).
Proof. unfold row_wf. apply Forall_dec. intros [v|]; apply _. Defined.

Lemma pk_vals_ok cols r ords cs : row_wf r -> pk_vals cols r ords = Some cs -> Forall cval_ok cs.
Proof.
  intros Hr. revert cs. induction ords as [|ord ords IH]; intros cs; cbn [pk_vals]; [by intros [= <-]|].
  destruct (r !! ord) as [[v|]|] eqn:Er; cbn; try done. destruct (cols !! ord) as [col|]; cbn; try done.
  destruct (col_kind col) as [kind|e|w]; cbn; try done.
  destruct (coerce kind v) as [c|e|w] eqn:Ec; cbn; try done.
  destruct (pk_vals cols r ords) as [cs'|]; cbn; [|done]. intros [= <-]. constructor; [|by apply IH].
  eapply coerce_ok; [|done]. by apply (Forall_lookup_1 _ _ _ _ Hr Er).
Qed.

Lemma pk_vals_alike cols r1 r2 ords cs1 cs2 :
  pk_vals cols r1 ords = Some cs1 -> pk_vals cols r2 ords = Some cs2 -> Forall2 alike cs1 cs2.
Proof.
  revert cs1 cs2. induction ords as [|ord ords IH]; intros cs1 cs2; cbn [pk_vals]; [by intros [= <-] [= <-]|].
  destruct (r1 !! ord) as [[v1|]|], (r2 !! ord) as [[v2|]|]; cbn; try done.
  destruct (cols !! ord) as [col|]; cbn; try done. destruct (col_kind col) as [kind|e|w]; cbn; try done.
  destruct (coerce kind v1) as [c1|e|w] eqn:E1; cbn; try done.
  destruct (coerce kind v2) as [c2|e|w] eqn:E2; cbn; try done.
  destruct (pk_vals cols r1 ords) as [ds1|]; cbn; [|done]. destruct (pk_vals cols r2 ords) as [ds2|]; cbn; [|done].
  intros [= <-] [= <-]. constructor; [by eapply coerce_alike|by apply IH].
Qed.

Lemma keys_then_cmp cs1 cs2 s t :
  Forall cval_ok cs1 -> Forall cval_ok cs2 -> Forall2 alike cs1 cs2 ->
  bytes_cmp (concat (key_bytes <$> cs1) ++ s) (concat (key_bytes <$> cs2) ++ t) =
  then_cmp (key_cmp cs1 cs2) (bytes_cmp s t).
Proof.
  intros H1 H2 Ha. revert H1 H2. induction Ha as [|c d cs ds Hcd Ha IH]; intros H1 H2; [done|].
  apply Forall_cons in H1 as [Hc H1]. apply Forall_cons in H2 as [Hd H2]. cbn [fmap list_fmap concat key_cmp].
  rewrite <-!app_assoc, key_then_cmp, IH by done. by destruct (cval_cmp c d).
Qed.

(** * Rows: the round trip *)

(** The values a column of each type is given back as: the Go type of the column, in
    range; quiet floats; times in UTC within the nanosecond count. *)
Definition fits (qt : qtype) (v : value) : Prop :=
  match qt, v with
  | T_INT8, VInt8 z => in_int 8 z
  | T_INT16, VInt16 z => in_int 16 z
  | (T_INT24 | T_INT32), VInt32 z => in_int 32 z
  | T_INT64, VInt64 z => in_int 64 z
  | T_UINT8, VUint8 n => in_uint 8 n
  | T_UINT16, VUint16 n => in_uint 16 n
  | (T_UINT24 | T_UINT32), VUint32 n => in_uint 32 n
  | T_UINT64, VUint64 n => is_u64 n
  | T_FLOAT32, VFloat32 b => f32_quiet b
  | T_FLOAT64, VFloat64 b => is_u64 b
  | (T_CHAR | T_VARCHAR | T_TEXT), VString _ => True
  | (T_BINARY | T_VARBINARY | T_BLOB), VBytes _ => True
  | (T_DATETIME | T_TIMESTAMP), VTime t =>
      t_utc t = true ∧ (0 ≤ t_nsec t < 1000000000)%Z ∧ in_int 64 (unix_ns t)
  | _, _ => False
  end.
#[export] Instance fits_dec qt v : Decision (fits qt v).
Proof. destruct qt, v; apply _. Defined.

Definition fits_col (col : colDef) (o : option value) : Prop :=
  match o with Some v => fits (cd_QType col) v | None => True end.
#[export] Instance fits_col_dec col o : Decision (fits_col col o).
Proof. destruct o; apply _. Defined.

(** A value of the Go type of the column, of any time and any float. *)
Definition typed (qt : qtype) (v : value) : Prop :=
  match qt, v with
  | T_FLOAT32, VFloat32 b => in_uint 32 b
  | (T_DATETIME | T_TIMESTAMP), VTime t => (0 ≤ t_nsec t < 1000000000)%Z
  | _, _ => fits qt v
  end.
#[export] Instance typed_dec qt v : Decision (typed qt v).
Proof. destruct qt, v; apply _. Defined.

Definition typed_col (col : colDef) (o : option value) : Prop :=
  match o with Some v => typed (cd_QType col) v | None => True end.
#[export] Instance typed_col_dec col o : Decision (typed_col col o).
Proof. destruct o; apply _. Defined.

(** What the encoding keeps of a value: a [float32] goes through [float64] and back, and
    of a time remains the nanosecond count in 64 bits, as a time in UTC. *)
Definition kept (v : value) : value :=
  match v with
  | VFloat32 b => VFloat32 (f64_to_f32 (f32_to_f64 b))
  | VTime t => VTime (time_UTC (time_Unix0 (UnixNano t)))
  | _ => v
  end.
Definition kept_row (r : row) : row := (λ o : option value, kept <$> o) <$> (r : list (option value)).

Lemma fits_typed qt v : fits qt v -> typed qt v.
Proof. destruct qt, v; cbn [typed fits]; try done; try tauto. by intros [? _]. Qed.

Lemma wrap_int_in w z : (0 < w)%Z -> in_int w (wrap_int w z).
Proof.
  intros Hw. unfold in_int, wrap_int. pose proof (Z.mod_pos_bound (z + 2 ^ (w - 1)) (2 ^ w) ltac:(lia)).
  assert (2 ^ w = 2 * 2 ^ (w - 1))%Z by (rewrite <-Z.pow_succ_r by lia; f_equal; lia). lia.
Qed.

(** The encoding keeps exactly the values that fit. *)
Lemma kept_fits qt v : typed qt v -> kept v = v ↔ fits qt v.
Proof.
  assert (∀ t, (0 ≤ t_nsec t < 1000000000)%Z ->
    VTime (time_UTC (time_Unix0 (UnixNano t))) = VTime t ↔
    t_utc t = true ∧ (0 ≤ t_nsec t < 1000000000)%Z ∧ in_int 64 (unix_ns t)) as Htime.
  { intros t Hn. split; [|intros (Hu & _ & Hi); by rewrite (time_roundtrip t)]. intros [= Ht].
    pose proof (wrap_int_in 64 (t_sec t * 1000000000 + t_nsec t) ltac:(lia)) as Hi. fold (UnixNano t) in Hi.
    pose proof (f_equal t_utc Ht) as Hu. apply (f_equal unix_ns) in Ht. unfold unix_ns at 1, time_UTC, time_Unix0 in Ht.
    cbn [t_sec t_nsec] in Ht. pose proof (Z.div_mod (UnixNano t) 1000000000 ltac:(lia)).
    split_and!; [done|lia|lia|]. unfold in_int in *. lia. }
  destruct qt, v; cbn [typed fits kept]; try done; try apply Htime. intros Hb. split.
  - intros [= <-]. by apply f64_to_f32_quiet, f32_to_f64_u64.
  - intros Hq. by rewrite f64_to_f32_to_f64.
Qed.

(** A fixed-width column reads its eight bytes back. *)
Lemma decode_fixed col pre raw post kind :
  col_kind col = Ok kind -> kind ≠ kindString -> kind ≠ kindBytes -> length raw = 8 ->
  decode_col col (pre ++ raw ++ post) (length pre) =
  Ok (match kind with
      | kindInt => narrowInt (cd_QType col) (decInt64 raw)
      | kindUint => narrowUint (cd_QType col) (unbe raw)
      | kindFloat32 => VFloat32 (f64_to_f32 (decFloat64 raw))
      | kindFloat64 => VFloat64 (decFloat64 raw)
      | _ => VTime (time_UTC (time_Unix0 (decInt64 raw)))
      end, length pre + 8).
Proof.
  intros Hk Hs Hb Hl. unfold decode_col. rewrite Hk. cbn [mbind outcome_bind].
  destruct kind; try done; rewrite decide_False by (rewrite !length_app; lia);
    rewrite drop_app_length, take_app_ge_len by done; done.
Qed.

(** A length-framed column reads its contents back. *)
Lemma decode_framed col pre (s post : bytes) kind :
  col_kind col = Ok kind -> kind = kindString ∨ kind = kindBytes ->
  let data := pre ++ (AppendUvarint [] (N.of_nat (length s)) ++ s) ++ post in
  (Z.of_nat (length data) < 2 ^ 63)%Z ->
  decode_col col data (length pre) =
  Ok (match kind with kindString => VString s | _ => VBytes s end,
      length pre + length (AppendUvarint [] (N.of_nat (length s)) ++ s)).
Proof.
  intros Hk Hkind data Hd. unfold decode_col. rewrite Hk. cbn [mbind outcome_bind].
  set (f := put_uvarint 9 (N.of_nat (length s))). change (AppendUvarint [] _) with f in *.
  assert (drop (length pre) data = f ++ (s ++ post)) as Edrop
    by (unfold data; by rewrite drop_app_length, <-app_assoc).
  assert (length data = length pre + length f + length s + length post) as El
    by (unfold data; rewrite !length_app; lia).
  assert (Uvarint (drop (length pre) data) = (N.of_nat (length s), Z.of_nat (length f))) as Eu
    by (rewrite Edrop; apply Uvarint_Append; unfold is_u64, max64; lia).
  rewrite Eu. pose proof (length_put_uvarint 9 (N.of_nat (length s))) as Hf. fold f in Hf.
  rewrite int64_of_small by lia. rewrite wrap_int_small by (unfold in_int; lia).
  assert (drop (length pre + Z.to_nat (Z.of_nat (length f))) data = s ++ post) as Edrop2.
  { rewrite Nat2Z.id, <-drop_drop, Edrop. apply drop_app_length. }
  rewrite Edrop2, length_app.
  replace (Z.to_nat (Z.of_nat (length pre) + Z.of_nat (length f) + Z.of_N (N.of_nat (length s))) -
    (length pre + Z.to_nat (Z.of_nat (length f)))) with (length s) by lia.
  rewrite take_app_length.
  destruct Hkind as [-> | ->]; rewrite !decide_False by lia; do 2 f_equal; lia.
Qed.

Lemma decode_col_encode col pre post v :
  typed (cd_QType col) v ->
  ∃ kind c, col_kind col = Ok kind ∧ coerce kind v = Ok c ∧
    ((Z.of_nat (length (pre ++ row_bytes c ++ post)) < 2 ^ 63)%Z ->
     decode_col col (pre ++ row_bytes c ++ post) (length pre) = Ok (kept v, length pre + length (row_bytes c))).
Proof.
  intros Hf. unfold col_kind. destruct (cd_QType col) as [] eqn:Eq, v; try done; cbn [kindOfQType typed fits kept] in *;
    do 2 eexists; (split; [reflexivity|]); (split; [reflexivity|]); cbn [row_bytes]; intros Hd;
    first [rewrite (decode_framed col pre _ post kindString) by (unfold col_kind; rewrite ?Eq; auto); done
          |rewrite (decode_framed col pre _ post kindBytes) by (unfold col_kind; rewrite ?Eq; auto); done
          |erewrite decode_fixed by (unfold col_kind; rewrite ?Eq; (reflexivity || done || apply length_be))];
    cbv iota beta; rewrite ?Eq; cbn [narrowInt narrowUint];
    first [rewrite decInt64_enc by (unfold in_int in *; lia)|unfold encUint64; rewrite unbe_be8 by (unfold in_uint, is_u64, max64 in *; lia)
          |rewrite decFloat64_enc by (done || apply f32_to_f64_u64, Hf)|idtac];
    rewrite ?wrap_int_small by (lia || done); rewrite ?wrap_uint_small by done; try done.
  all: change (UnixNano (time_UTC t)) with (UnixNano t); rewrite decInt64_enc by (by apply wrap_int_in); done.
Qed.

(** The columns from some point on, after a row that decoded so far. *)
Lemma decode_cols_encode cols r pre done_ :
  Forall2 typed_col cols r ->
  ∃ tail, encode_cols cols r pre = Ok (pre ++ tail) ∧
    ((Z.of_nat (length (pre ++ tail)) < 2 ^ 63)%Z ->
     decode_cols cols (pre ++ tail) (length pre) done_ = Ok (done_ ++ kept_row r, length (pre ++ tail))).
Proof.
  intros Hf. revert pre done_. induction Hf as [|col o cols r Hc Hf IH]; intros pre done_.
  { exists []. cbn. rewrite !app_nil_r. done. }
  destruct o as [v|]; cbn [encode_cols].
  - destruct (decode_col_encode col (pre ++ [rowPresent]) [] v Hc) as (kind & c & E1 & E2 & _).
    rewrite E1. cbn [mbind outcome_bind]. rewrite E2. cbn [wrap_err mbind outcome_bind].
    destruct (IH (pre ++ [rowPresent] ++ row_bytes c) (done_ ++ [Some (kept v)])) as (tail & -> & Hd).
    exists ([rowPresent] ++ row_bytes c ++ tail). split; [by rewrite <-!app_assoc|].
    intros Hl. cbn [decode_cols].
    assert ((pre ++ [rowPresent] ++ row_bytes c ++ tail) !! length pre = Some rowPresent) as ->.
    { rewrite lookup_app_r, Nat.sub_diag by lia. done. }
    rewrite decide_False, decide_True by done.
    destruct (decode_col_encode col (pre ++ [rowPresent]) tail v Hc) as (kind' & c' & E1' & E2' & Hdec).
    assert (c' = c) as -> by congruence.
    replace (S (length pre)) with (length (pre ++ [rowPresent])) by (rewrite length_app; cbn; lia).
    replace (pre ++ [rowPresent] ++ row_bytes c ++ tail) with ((pre ++ [rowPresent]) ++ row_bytes c ++ tail) in *
      by (by rewrite <-app_assoc).
    rewrite Hdec by done. cbn [mbind outcome_bind].
    specialize (Hd ltac:(rewrite !length_app in *; cbn in *; lia)).
    rewrite <-!app_assoc in Hd |- *. rewrite !length_app in Hd |- *. cbn [length app] in Hd |- *.
    replace (length pre + 1 + length (row_bytes c)) with (length pre + (1 + length (row_bytes c))) by lia.
    by rewrite Hd, <-!app_assoc.
  - destruct (IH (pre ++ [rowNull]) (done_ ++ [None])) as (tail & -> & Hd).
    exists ([rowNull] ++ tail). split; [by rewrite <-!app_assoc|]. intros Hl.
    cbn [decode_cols]. rewrite lookup_app_r, Nat.sub_diag by lia. cbn [lookup list_lookup app].
    rewrite decide_True by done.
    specialize (Hd ltac:(rewrite !length_app in *; cbn in *; lia)).
    rewrite <-!app_assoc in Hd. rewrite !length_app in Hd |- *. cbn [length app] in Hd |- *.
    replace (S (length pre)) with (length pre + 1) by lia. by rewrite Hd, length_app.
Qed.

Lemma decodeRow_kept cols r :
  Forall2 typed_col cols r ->
  ∃ data, encodeRow cols r = Ok data ∧
    ((Z.of_nat (length data) < 2 ^ 63)%Z -> decodeRow cols data = Ok (kept_row r)).
Proof.
  intros Hf. unfold encodeRow. rewrite decide_True by (symmetry; by eapply Forall2_length).
  destruct (decode_cols_encode cols r [] [] Hf) as (tail & -> & Hd). exists tail. split; [done|].
  intros Hl. specialize (Hd Hl). cbn [app length] in Hd.
  unfold decodeRow. rewrite Hd. cbn. by rewrite decide_True.
Qed.

Lemma kept_row_fits cols r : Forall2 typed_col cols r -> kept_row r = r ↔ Forall2 fits_col cols r.
Proof.
  unfold kept_row. intros Hf. induction Hf as [|col o cols r Hc Hf IH]; [by split; constructor|]. cbn [fmap list_fmap]. split.
  - intros [= Ho Hr]. constructor; [|by apply IH]. destruct o as [v|]; [|done]. injection Ho as Hv. by apply kept_fits.
  - intros [Hfc Hfr]%Forall2_cons. f_equal; [|by apply IH]. destruct o as [v|]; [|done]. cbn. f_equal. by apply (kept_fits (cd_QType col)).
Qed.

Lemma fits_typed_row cols r : Forall2 fits_col cols r -> Forall2 typed_col cols r.
Proof. intros Hf. eapply Forall2_impl; [exact Hf|]. intros col [v|]; [|done]. apply fits_typed. Qed.

Lemma decodeRow_encodeRow cols r :
  Forall2 fits_col cols r ->
  ∃ data, encodeRow cols r = Ok data ∧
    ((Z.of_nat (length data) < 2 ^ 63)%Z -> decodeRow cols data = Ok r).
Proof.
  intros Hf. pose proof (fits_typed_row _ _ Hf) as Ht. destruct (decodeRow_kept cols r Ht) as (data & E1 & E2).
  exists data. split; [done|]. rewrite (proj2 (kept_row_fits _ _ Ht) Hf) in E2. done.
Qed.

(** ** Decoded rows are typed *)

Lemma wrap_uint_in w n : in_uint w (wrap_uint w n).
Proof. apply N.mod_lt. by apply N.pow_nonzero. Qed.

Lemma unbe_take8 data off : is_u64 (unbe (take 8 (drop off data))).
Proof.
  pose proof (unbe_lt (take 8 (drop off data))) as Hb. rewrite length_take in Hb.
  assert (256 ^ N.of_nat (8 `min` length (drop off data)) ≤ 256 ^ 8)%N by (apply N.pow_le_mono_r; lia).
  unfold is_u64, max64. lia.
Qed.

Lemma decFloat64_u64 b : is_u64 (unbe b) -> is_u64 (decFloat64 b).
Proof.
  intros Hb. unfold decFloat64. destruct (N.testbit (unbe b) 63) eqn:E63.
  - rewrite <-N.sub_nocarry_ldiff; [unfold is_u64, max64 in *; lia|]. apply N.bits_inj. intros i.
    rewrite N.ldiff_spec, N.pow2_bits_eqb, N.bits_0. destruct (N.eqb_spec 63 i) as [<-|]; [by rewrite E63|done].
  - rewrite not64_sub by done. unfold is_u64, max64. lia.
Qed.

Lemma decode_col_typed col data off v off' : decode_col col data off = Ok (v, off') -> fits (cd_QType col) v.
Proof.
  unfold decode_col, col_kind. pose proof (unbe_take8 data off) as Hu. pose proof (decFloat64_u64 _ Hu) as Hf.
  pose proof (int64_of_in (flip63 (unbe (take 8 (drop off data))))) as Hi. unfold in_int in Hi.
  destruct (cd_QType col); cbn [kindOfQType mbind outcome_bind]; try done;
    first [ case_decide as Hl; [done|]; intros [= <- <-]; cbn [narrowInt narrowUint fits cd_QType]
          | destruct (Uvarint (drop off data)) as [n sz]; case_decide; [done|]; case_decide; [done|]; by intros [= <- <-] ].
  all: try (by apply wrap_int_in). all: try (by apply wrap_uint_in). all: try done.
  - by apply f64_to_f32_quiet.
  - split; [done|]. unfold decInt64, time_Unix0, time_UTC, unix_ns. cbn [t_nsec t_sec]. split; [by apply Z.mod_pos_bound|].
    unfold in_int. pose proof (Z.div_mod (int64_of (flip63 (unbe (take 8 (drop off data))))) 1000000000 ltac:(lia)). lia.
  - split; [done|]. unfold decInt64, time_Unix0, time_UTC, unix_ns. cbn [t_nsec t_sec]. split; [by apply Z.mod_pos_bound|].
    unfold in_int. pose proof (Z.div_mod (int64_of (flip63 (unbe (take 8 (drop off data))))) 1000000000 ltac:(lia)). lia.
Qed.

(** Whatever the bytes, a decoded row has one value of its column's type per column. *)
Lemma decodeRow_fits cols data r : decodeRow cols data = Ok r -> Forall2 fits_col cols r.
Proof.
  assert (∀ cs off acc r' off', decode_cols cs data off acc = Ok (r', off') -> ∃ t, r' = acc ++ t ∧ Forall2 fits_col cs t) as Hall.
  { induction cs as [|col cs IH]; intros off acc r' off'; cbn [decode_cols].
    - intros [= <- <-]. exists []. by rewrite app_nil_r.
    - destruct (data !! off) as [mk|]; [|done]. case_decide; [|case_decide; [|done]].
      + intros (t & -> & Ht)%IH. exists (None :: t). rewrite <-app_assoc. split; [done|]. by constructor.
      + destruct (decode_col col data (S off)) as [[v o]|e|w] eqn:Ed; cbn [mbind outcome_bind]; try done.
        intros (t & -> & Ht)%IH. exists (Some v :: t). rewrite <-app_assoc. split; [done|]. constructor; [|done].
        by eapply decode_col_typed. }
  unfold decodeRow. destruct (decode_cols cols data 0 []) as [[r' off]|e|w] eqn:Ed; cbn [mbind outcome_bind]; try done.
  case_decide; [|done]. intros [= <-]. by destruct (Hall _ _ _ _ _ Ed) as (t & -> & Ht).
Qed.
