(* ===== verification/SqlIndex.v ===== *)
(** The derived keyspaces of the SQL layer: the logical and storage keys of
    [sqlledger/store.go] and the index encodings and range bounds of
    [sqlledger/index.go].

    A row is one ledger entry under [rowKey]; ordered iteration uses entries
    written beside the ledger's records: one ['i'] entry per row and one ['x'] entry
    per row and secondary index, whose byte order is the order of the columns.  A
    lookup over a range of column values is a scan of a range of such keys. *)

From S2P Require Import Prelude Errors Backend Store GoNum SqlCodec.

(** * Keys *)

Definition tagCatalogMeta : byte := u8 1.
Definition tagCatalogTable : byte := u8 2.
Definition tagRow : byte := u8 3.
Definition tagAutoInc : byte := u8 4.

Definition scanPrefix : byte := u8 105.       (* 'i' *)
Definition scanMetaKey : byte := u8 106.      (* 'j' *)
Definition secondaryPrefix : byte := u8 120.  (* 'x' *)
Definition scanChunkSize : N := 512.

Definition metaKey : bytes := str "sql/c/meta".
Definition autoIncKey (id : N) : bytes := str "sql/c/a/" ++ be 8 id.
Definition rowKeyPrefix (id : N) : bytes := str "sql/r/" ++ be 8 id.
Definition rowKey (id : N) (pkEnc : bytes) : bytes := rowKeyPrefix id ++ pkEnc.
Definition scanKey (id : N) (pkEnc : bytes) : bytes := scanPrefix :: be 8 id ++ pkEnc.
Definition secondarySpace (idxID : N) : bytes := secondaryPrefix :: be 8 idxID.

(** * Index entries *)

Fixpoint encode_index_cols (cols : list colDef) (r : row) (ords : list nat) (buf : bytes) (hasNull : bool) :
    outcome (bytes * bool) :=
  match ords with
  | [] => Ok (buf, hasNull)
  | ord :: ords' =>
      match r !! ord with
      | None => out_of_range
      | Some None => encode_index_cols cols r ords' (buf ++ [u8 0]) true
      | Some (Some v) =>
          match cols !! ord with
          | None => out_of_range
          | Some col =>
              kind ← col_kind col;
              buf ← wrap_err "index %q column %q" (encodeKeyCol (buf ++ [u8 1]) kind v);
              encode_index_cols cols r ords' buf hasNull
          end
      end
  end.
Definition encodeIndexCols (def : tableDef) (idx : indexDef) (r : row) : outcome (bytes * bool) :=
  encode_index_cols (td_Columns def) r (ix_ColOrds idx) [] false.

(** The entries of one row, put or (with [remove]) deleted. *)
Fixpoint index_ops (def : tableDef) (r : row) (pkEnc : bytes) (remove : bool) (idxs : list indexDef) :
    outcome (list BatchOp) :=
  match idxs with
  | [] => Ok []
  | idx :: idxs' =>
      '(colsEnc, _) ← encodeIndexCols def idx r;
      let key := secondarySpace (ix_ID idx) ++ colsEnc ++ pkEnc in
      ops ← index_ops def r pkEnc remove idxs';
      Ok ((if remove then bdel key else bput key pkEnc) :: ops)
  end.
Definition indexOps (def : tableDef) (r : row) (pkEnc : bytes) (remove : bool) : outcome (list BatchOp) :=
  index_ops def r pkEnc remove (td_Indexes def).

(** The rebuild-path form: an encoding error drops the entries. *)
Definition indexInsertOps (def : tableDef) (r : row) (pkEnc : bytes) : list BatchOp :=
  match indexOps def r pkEnc false with Ok ops => ops | _ => [] end.

(** * The end of a prefix range *)

(** The last byte below [0xFF] incremented, and what follows it dropped. *)
Fixpoint incBytes (b : bytes) : option bytes :=
  match b with
  | [] => None
  | x :: b' =>
      match incBytes b' with
      | Some r => Some (x :: r)
      | None => if decide (x = u8 0xFF) then None else Some [u8 (bn x + 1)]
      end
  end.

Lemma bytes_le_prefix (b k : bytes) : b `prefix_of` k -> bytes_le b k.
Proof. intros [s ->]. unfold bytes_le. rewrite <-(app_nil_r b) at 1. rewrite bytes_cmp_app_l. by destruct s. Qed.

Lemma bytes_le_cons x a y b :
  bytes_le (x :: a) (y :: b) ↔ (bn x < bn y)%N ∨ x = y ∧ bytes_le a b.
Proof.
  unfold bytes_le. cbn [bytes_cmp]. destruct (N.compare_spec (bn x) (bn y)) as [E|E|E].
  - apply (inj bn) in E as ->. split; [auto|]. intros [?|[_ ?]]; [lia|done].
  - split; [auto|done].
  - split; [done|]. intros [?|[-> _]]; lia.
Qed.

Lemma bytes_lt_cons x a y b :
  bytes_lt (x :: a) (y :: b) ↔ (bn x < bn y)%N ∨ x = y ∧ bytes_lt a b.
Proof.
  unfold bytes_lt. cbn [bytes_cmp]. destruct (N.compare_spec (bn x) (bn y)) as [E|E|E].
  - apply (inj bn) in E as ->. split; [auto|]. intros [?|[_ ?]]; [lia|done].
  - split; [auto|done].
  - split; [done|]. intros [?|[-> _]]; lia.
Qed.

Lemma incBytes_None b k : incBytes b = None -> bytes_le b k -> b `prefix_of` k.
Proof.
  revert k. induction b as [|x b IH]; intros k; cbn [incBytes]; [intros _ _; apply prefix_nil|].
  destruct (incBytes b) as [r|]; [done|]. destruct (decide (x = u8 0xFF)) as [->|]; [|done]. intros _.
  destruct k as [|y k]; [done|]. rewrite bytes_le_cons. change (bn (u8 0xFF)) with 255%N.
  pose proof (bn_lt y). intros [?|[<- Hb]]; [lia|]. apply prefix_cons. by apply IH.
Qed.

(** The interval from [b] to [incBytes b] holds exactly the strings with prefix [b]. *)
Lemma incBytes_range b e k : incBytes b = Some e -> (bytes_le b k ∧ bytes_lt k e) ↔ b `prefix_of` k.
Proof.
  revert e k. induction b as [|x b IH]; intros e k; cbn [incBytes]; [done|].
  destruct (incBytes b) as [r|] eqn:Ei.
  - intros [= <-]. destruct k as [|y k].
    { split; [by intros [? _]|by intros ?%prefix_nil_inv]. }
    rewrite bytes_le_cons, bytes_lt_cons. split.
    + intros [[?|[-> Hb]] [?|[? Hk]]]; try lia; [subst; lia..|]. apply prefix_cons, (IH r); [done|]. done.
    + intros [s [= -> ->]]. destruct (proj2 (IH r (b ++ s) eq_refl)) as [Hb Hr]; [by exists s|]. auto.
  - destruct (decide (x = u8 0xFF)) as [->|Hx]; [done|]. intros [= <-]. destruct k as [|y k].
    { split; [by intros [? _]|by intros ?%prefix_nil_inv]. }
    rewrite bytes_le_cons, bytes_lt_cons.
    assert (bn x < 255)%N as Hx'.
    { pose proof (bn_lt x). destruct (decide (bn x = 255%N)) as [E|]; [|lia]. exfalso. by apply Hx, (inj bn). }
    rewrite bn_u8_small by lia. split.
    + intros [[?|[-> Hb]] [?|[? Hk]]]; try lia; try (by destruct k).
      apply prefix_cons, incBytes_None; done.
    + intros [s [= -> ->]]. split; [right; split; [done|]; apply bytes_le_prefix; by exists s|left; lia].
Qed.

Lemma incBytes_lt b e : incBytes b = Some e -> bytes_lt b e.
Proof. intros E. by apply (incBytes_range b e b E). Qed.

(** Only a string of [0xFF] bytes has no successor; the keyspaces start below. *)
Lemma incBytes_total b : incBytes b = None ↔ Forall (λ x, x = u8 0xFF) b.
Proof.
  induction b as [|x b IH]; cbn [incBytes]; [split; [constructor|done]|]. rewrite Forall_cons.
  destruct (incBytes b) as [r|]; [split; [done|]; intros [_ Hb%IH]; done|].
  destruct (decide (x = u8 0xFF)) as [->|Hx]; split; try done; [|by intros [? _]].
  intros _. split; [done|]. by apply IH.
Qed.

Lemma incBytes_space x b : x ≠ u8 0xFF -> is_Some (incBytes (x :: b)).
Proof.
  intros Hx. destruct (incBytes (x :: b)) eqn:E; [eauto|].
  apply incBytes_total, Forall_cons in E as [? _]. done.
Qed.

(** * Range bounds *)

(** The cut points of the engine's ranges: NULL sorts below every value. *)
Inductive cut := BelowNull | AboveNull | Below (key : value) | Above (key : value) | AboveAll.

Definition encodeCut (kind : colKind) (v : value) : outcome bytes := encodeKeyCol [] kind v.

(** The marker byte of a present column in a secondary index; the primary keyspace
    has none. *)
Definition marker_bytes (secondary : bool) : bytes := if secondary then [u8 1] else [].

(** A call that answers [ok = false] on an encoding error. *)
Definition if_ok {A B} (o : outcome A) (f : A -> outcome (option B)) : outcome (option B) :=
  match o with Ok a => f a | Err _ => Ok None | Panic w => Panic w end.
Definition if_some {A B} (o : option A) (f : A -> outcome (option B)) : outcome (option B) :=
  match o with Some a => f a | None => Ok None end.

Definition lower_start (prefix : bytes) (secondary : bool) (kind : colKind) (lo : cut) : outcome (option bytes) :=
  match lo with
  | BelowNull => Ok (Some prefix)
  | AboveNull => Ok (Some (prefix ++ marker_bytes secondary))
  | Below k => if_ok (encodeCut kind k) (λ enc, Ok (Some (prefix ++ marker_bytes secondary ++ enc)))
  | Above k => if_ok (encodeCut kind k) (λ enc, Ok (incBytes (prefix ++ marker_bytes secondary ++ enc)))
  | AboveAll => Ok None
  end.

Definition upper_end (prefix : bytes) (secondary : bool) (kind : colKind) (hi : cut) : outcome (option bytes) :=
  match hi with
  | AboveAll => Ok (incBytes prefix)
  | Above k => if_ok (encodeCut kind k) (λ enc, Ok (incBytes (prefix ++ marker_bytes secondary ++ enc)))
  | Below k => if_ok (encodeCut kind k) (λ enc, Ok (Some (prefix ++ marker_bytes secondary ++ enc)))
  | AboveNull => if secondary then Ok (Some (prefix ++ marker_bytes secondary)) else Ok None
  | BelowNull => Ok None
  end.

(** The first non-exact column. *)
Definition boundedColumn (prefix : bytes) (secondary : bool) (kind : colKind) (lo hi : cut) :
    outcome (option (bytes * bytes)) :=
  start ← lower_start prefix secondary kind lo;
  if_some start (λ start,
    stop ← upper_end prefix secondary kind hi;
    if_some stop (λ stop, Ok (Some (start, stop)))).

(** What one column of the range adds when it is an exact point: NULL, or one value. *)
Definition exact_point (secondary : bool) (kind : colKind) (lo hi : cut) : outcome (option (option bytes)) :=
  match lo, hi with
  | BelowNull, AboveNull => Ok (Some (if secondary then Some [u8 0] else None))
  | Below k, Above k' =>
      if_ok (encodeCut kind k) (λ lenc, if_ok (encodeCut kind k') (λ uenc,
        Ok (Some (if decide (lenc = uenc) then Some (marker_bytes secondary ++ lenc) else None))))
  | _, _ => Ok (Some None)
  end.

(** The loop over the columns of the range; [None] is [ok = false]. *)
Fixpoint range_loop (cols : list colDef) (secondary : bool) (ords : list nat) (rng : list (cut * cut))
    (prefix : bytes) : outcome (option (bytes * bytes)) :=
  match rng, ords with
  | (lo, hi) :: rng', ord :: ords' =>
      match cols !! ord with
      | None => out_of_range
      | Some col =>
          if_ok (col_kind col) (λ kind,
            exact ← exact_point secondary kind lo hi;
            if_some exact (λ exact,
              match exact with
              | Some enc => range_loop cols secondary ords' rng' (prefix ++ enc)
              | None => boundedColumn prefix secondary kind lo hi
              end))
      end
  | _, _ => if_some (incBytes prefix) (λ stop, Ok (Some (prefix, stop)))
  end.

Definition index_space (def : tableDef) (idx : option indexDef) : bytes :=
  match idx with None => scanKey (td_ID def) [] | Some ix => secondarySpace (ix_ID ix) end.
Definition index_ords (def : tableDef) (idx : option indexDef) : list nat :=
  match idx with None => td_PKOrds def | Some ix => ix_ColOrds ix end.
Definition is_secondary (idx : option indexDef) : bool := match idx with Some _ => true | None => false end.

Definition rangeBounds (def : tableDef) (idx : option indexDef) (rng : list (cut * cut)) :
    outcome (option (bytes * bytes)) :=
  range_loop (td_Columns def) (is_secondary idx) (index_ords def idx) rng (index_space def idx).

Definition CanSupport (def : tableDef) (idx : option indexDef) (rngs : list (list (cut * cut))) : bool :=
  forallb (λ rng, match rangeBounds def idx rng with Ok (Some _) => true | _ => false end) rngs.

(** ** Rows in a range *)

(** The key bytes of one indexed column. *)
Definition col_bytes (secondary : bool) (o : option cval) : bytes :=
  match o with
  | Some c => marker_bytes secondary ++ key_bytes c
  | None => [u8 0]
  end.

(** [o] lies above the lower cut, below the upper cut, in the order [cmp]. *)
Definition above_cut (cmp : cval -> cval -> comparison) (kind : colKind) (lo : cut) (o : option cval) : Prop :=
  match lo, o with
  | BelowNull, _ => True
  | AboveNull, Some _ => True
  | Below k, Some c => ∃ d, coerce kind k = Ok d ∧ cmp d c ≠ Gt
  | Above k, Some c => ∃ d, coerce kind k = Ok d ∧ cmp d c = Lt
  | _, _ => False
  end.
Definition below_cut (cmp : cval -> cval -> comparison) (kind : colKind) (hi : cut) (o : option cval) : Prop :=
  match hi, o with
  | AboveAll, _ => True
  | AboveNull, None => True
  | (Above _ | Below _), None => True
  | Above k, Some c => ∃ d, coerce kind k = Ok d ∧ cmp c d ≠ Gt
  | Below k, Some c => ∃ d, coerce kind k = Ok d ∧ cmp c d = Lt
  | _, _ => False
  end.
Definition cut_wf (c : cut) : Prop := match c with Below v | Above v => value_wf v | _ => True end.

(** The value comes from the column's kind; a primary key has no NULL. *)
Definition col_ok (secondary : bool) (kind : colKind) (o : option cval) : Prop :=
  match o with
  | Some c => cval_ok c ∧ ∃ v, coerce kind v = Ok c
  | None => secondary = true
  end.

Lemma bytes_le_app p a b : bytes_le (p ++ a) (p ++ b) ↔ bytes_le a b.
Proof. unfold bytes_le. by rewrite bytes_cmp_app_l. Qed.
Lemma bytes_lt_app p a b : bytes_lt (p ++ a) (p ++ b) ↔ bytes_lt a b.
Proof. unfold bytes_lt. by rewrite bytes_cmp_app_l. Qed.
Lemma bytes_le_lt_trans a b c : bytes_le a b -> bytes_lt b c -> bytes_lt a c.
Proof. rewrite bytes_le_lt_eq. intros [?| ->] ?; [by etrans|done]. Qed.
Lemma bytes_not_lt a b : ¬ bytes_lt a b -> bytes_le b a.
Proof. intros Hn. destruct (bytes_lt_total a b) as [?|[-> |?]]; [done|apply bytes_le_lt_eq; auto..]. Qed.

(** Whether a key with prefix [b] is below another is decided past the prefix. *)
Lemma key_le_any c d s : cval_ok c -> cval_ok d -> alike c d -> cval_cmp c d ≠ Gt -> bytes_le (key_bytes c) (key_bytes d ++ s).
Proof.
  intros Hc Hd Ha Hcmp. unfold bytes_le. rewrite <-(app_nil_r (key_bytes c)), key_then_cmp by done.
  destruct (cval_cmp c d); [by destruct s|done..].
Qed.

Lemma key_lt_any c d s t : cval_ok c -> cval_ok d -> alike c d -> cval_cmp c d = Lt -> bytes_lt (key_bytes c ++ s) (key_bytes d ++ t).
Proof. intros Hc Hd Ha Hcmp. unfold bytes_lt. by rewrite key_then_cmp, Hcmp by done. Qed.

Lemma key_cmp_eq c d : cval_ok c -> cval_ok d -> alike c d -> cval_cmp c d = Eq -> key_bytes c = key_bytes d.
Proof.
  intros Hc Hd Ha Hcmp. apply bytes_cmp_eq.
  rewrite <-(app_nil_r (key_bytes c)), <-(app_nil_r (key_bytes d)), key_then_cmp by done. by rewrite Hcmp.
Qed.

(** Past every key that extends [b] once strictly above [b]'s value. *)
Lemma above_inc c d p m e rest :
  cval_ok c -> cval_ok d -> alike d c -> cval_cmp d c = Lt -> incBytes (p ++ m ++ key_bytes d) = Some e ->
  bytes_le e (p ++ m ++ key_bytes c ++ rest).
Proof.
  intros Hc Hd Ha Hcmp He. apply bytes_not_lt. intros Hlt.
  assert ((p ++ m ++ key_bytes d) `prefix_of` (p ++ m ++ key_bytes c ++ rest)) as Hp.
  { apply (incBytes_range _ _ _ He). split; [|done]. apply bytes_le_app, bytes_le_app, key_le_any; [done..|].
    by rewrite Hcmp. }
  apply prefix_app_inv, prefix_app_inv in Hp as [s Hs].
  pose proof (key_then_cmp d c s rest Hd Hc Ha) as Hk. rewrite <-Hs, bytes_cmp_refl, Hcmp in Hk. done.
Qed.

Lemma below_inc c d p m e rest :
  cval_ok c -> cval_ok d -> alike c d -> cval_cmp c d ≠ Gt -> incBytes (p ++ m ++ key_bytes d) = Some e ->
  bytes_lt (p ++ m ++ key_bytes c ++ rest) e.
Proof.
  intros Hc Hd Ha Hcmp He. destruct (cval_cmp c d) eqn:E; [| |done].
  - apply (incBytes_range _ _ _ He). rewrite (key_cmp_eq c d) by done. exists rest. by rewrite !app_assoc.
  - etrans; [|by eapply incBytes_lt]. apply bytes_lt_app, bytes_lt_app.
    rewrite <-(app_nil_r (key_bytes d)). by apply key_lt_any.
Qed.

Lemma null_below sec (s t : bytes) : sec = true -> bytes_lt ([u8 0] ++ s) (marker_bytes sec ++ t).
Proof. by intros ->. Qed.

Section bounds.
Variables (p : bytes) (sec : bool) (kind : colKind) (o : option cval) (rest : bytes).
Hypothesis Hcol : col_ok sec kind o.

Lemma lower_start_ok lo start :
  cut_wf lo -> above_cut cval_cmp kind lo o -> lower_start p sec kind lo = Ok (Some start) ->
  bytes_le start (p ++ col_bytes sec o ++ rest).
Proof.
  intros Hw Ha. destruct lo as [| |k|k|]; cbn [lower_start] in *; try done.
  - intros [= <-]. apply bytes_le_prefix. by eexists.
  - destruct o as [c|]; [|done]. intros [= <-]. apply bytes_le_app, bytes_le_prefix.
    cbn [col_bytes]. rewrite <-app_assoc. by eexists.
  - destruct o as [c|]; [|done]. destruct Ha as (d & Ed & Hcmp), Hcol as (Hc & v & Ev).
    unfold encodeCut, encodeKeyCol. rewrite Ed. cbn. intros [= <-]. rewrite <-app_assoc.
    apply bytes_le_app, bytes_le_app, key_le_any; [by eapply coerce_ok|done|by eapply coerce_alike|done].
  - destruct o as [c|]; [|done]. destruct Ha as (d & Ed & Hcmp), Hcol as (Hc & v & Ev).
    unfold encodeCut, encodeKeyCol. rewrite Ed. cbn [mbind outcome_bind if_ok app]. intros [= E].
    cbn [col_bytes]. rewrite <-app_assoc.
    apply (above_inc c d); [done|by eapply coerce_ok|by eapply coerce_alike|done|done].
Qed.

Lemma upper_end_ok hi stop :
  cut_wf hi -> below_cut cval_cmp kind hi o -> upper_end p sec kind hi = Ok (Some stop) ->
  bytes_lt (p ++ col_bytes sec o ++ rest) stop.
Proof.
  intros Hw Hb. destruct hi as [| |k|k|]; cbn [upper_end] in *; try done.
  - destruct sec; [|done]. destruct o; [done|]. intros [= <-]. apply bytes_lt_app. done.
  - unfold encodeCut, encodeKeyCol. destruct o as [c|].
    + destruct Hb as (d & Ed & Hcmp), Hcol as (Hc & v & Ev). rewrite Ed. cbn. intros [= <-].
      rewrite <-app_assoc, <-(app_nil_r (key_bytes d)). apply bytes_lt_app, bytes_lt_app.
      apply key_lt_any; [done|by eapply coerce_ok|by eapply coerce_alike|done].
    + destruct (coerce kind k) as [d|e|w]; cbn; try done. intros [= <-]. by apply bytes_lt_app, null_below.
  - unfold encodeCut, encodeKeyCol. destruct o as [c|].
    + destruct Hb as (d & Ed & Hcmp), Hcol as (Hc & v & Ev). rewrite Ed. cbn [mbind outcome_bind if_ok app].
      intros [= E]. cbn [col_bytes]. rewrite <-app_assoc.
      apply (below_inc c d); [done|by eapply coerce_ok|by eapply coerce_alike|done|done].
    + destruct (coerce kind k) as [d|e|w]; cbn [mbind outcome_bind if_ok app]; try done. intros [= E].
      etrans; [|by eapply incBytes_lt]. by apply bytes_lt_app, null_below.
  - intros [= E]. apply (incBytes_range _ _ _ E). by eexists.
Qed.

Lemma exact_point_ok lo hi enc :
  cut_wf lo -> cut_wf hi -> above_cut cval_cmp kind lo o -> below_cut cval_cmp kind hi o ->
  exact_point sec kind lo hi = Ok (Some (Some enc)) -> col_bytes sec o = enc.
Proof.
  intros Hwl Hwh Ha Hb. destruct lo as [| |k|k|], hi as [| |k'|k'|]; cbn [exact_point] in *; try done.
  - destruct sec; [|done]. destruct o; [done|]. by intros [= <-].
  - destruct o as [c|]; [|done]. destruct Ha as (d & Ed & Hd), Hb as (d' & Ed' & Hd'), Hcol as (Hc & v & Ev).
    unfold encodeCut, encodeKeyCol. rewrite Ed, Ed'. cbn. destruct (decide _) as [Ee|]; [|done].
    intros [= <-]. f_equal. apply (anti_symm bytes_le); cbn in Ee.
    + rewrite Ee, <-(app_nil_r (key_bytes d')). apply key_le_any; [done|exact (coerce_ok _ _ _ Hwh Ed')|by eapply coerce_alike|done].
    + rewrite <-(app_nil_r (key_bytes c)). apply key_le_any; [exact (coerce_ok _ _ _ Hwl Ed)|done|by eapply coerce_alike|done].
Qed.
End bounds.

(** The canonical values of the indexed columns, NULL included, with their kinds. *)
Fixpoint index_vals (cols : list colDef) (r : row) (ords : list nat) : option (list (colKind * option cval)) :=
  match ords with
  | [] => Some []
  | ord :: ords' =>
      o ← r !! ord; col ← cols !! ord;
      match col_kind col with
      | Ok kind =>
          match o with
          | None => rest ← index_vals cols r ords'; Some ((kind, None) :: rest)
          | Some v =>
              match coerce kind v with
              | Ok c => rest ← index_vals cols r ords'; Some ((kind, Some c) :: rest)
              | _ => None
              end
          end
      | _ => None
      end
  end.

(** Every column the range constrains lies in its interval. *)
Fixpoint matches_range (cmp : cval -> cval -> comparison) (vals : list (colKind * option cval)) (rng : list (cut * cut)) : Prop :=
  match rng, vals with
  | (lo, hi) :: rng', (kind, o) :: vals' =>
      above_cut cmp kind lo o ∧ below_cut cmp kind hi o ∧ matches_range cmp vals' rng'
  | _, _ => True
  end.

Definition vals_bytes (sec : bool) (vals : list (colKind * option cval)) : bytes :=
  concat ((λ kv, col_bytes sec kv.2) <$> vals).

Lemma range_loop_ok cols sec ords rng p r vals rest start stop :
  index_vals cols r ords = Some vals -> Forall (λ kv, col_ok sec kv.1 kv.2) vals ->
  Forall (λ lh, cut_wf lh.1 ∧ cut_wf lh.2) rng -> matches_range cval_cmp vals rng ->
  range_loop cols sec ords rng p = Ok (Some (start, stop)) ->
  bytes_le start (p ++ vals_bytes sec vals ++ rest) ∧ bytes_lt (p ++ vals_bytes sec vals ++ rest) stop.
Proof.
  assert (∀ q s st sp, if_some (incBytes q) (λ stop, Ok (Some (q, stop))) = Ok (Some (st, sp)) ->
    bytes_le st (q ++ s) ∧ bytes_lt (q ++ s) sp) as Hend.
  { intros q s st sp. destruct (incBytes q) as [e|] eqn:E; [|done]. intros [= <- <-].
    apply (incBytes_range _ _ _ E). by eexists. }
  revert ords p vals. induction rng as [|[lo hi] rng IH]; intros [|ord ords] p vals Hv Hok Hw Hm;
    cbn [range_loop]; try apply Hend.
  cbn [index_vals] in Hv. apply Forall_cons in Hw as [[Hwl Hwh] Hw]. cbn [fst snd] in Hwl, Hwh.
  destruct (r !! ord) as [o|]; [|done]. cbn in Hv. destruct (cols !! ord) as [col|]; [|done]. cbn in Hv.
  destruct (col_kind col) as [kind|e|w]; try done. cbn [if_ok].
  assert (∃ oc vals', vals = (kind, oc) :: vals' ∧ index_vals cols r ords = Some vals') as (oc & vals' & -> & Hv').
  { destruct o as [v|]; [destruct (coerce kind v) as [c|e|w]; try done|];
      (destruct (index_vals cols r ords) as [vals'|]; [|done]); injection Hv as <-; eauto. }
  apply Forall_cons in Hok as [Hc Hok]. cbn [fst snd] in Hc. cbn [matches_range] in Hm. destruct Hm as (Ha & Hb & Hm).
  unfold vals_bytes. cbn [fmap list_fmap concat snd]. fold (vals_bytes sec vals'). rewrite <-app_assoc.
  destruct (exact_point sec kind lo hi) as [[[enc|]|]|e|w] eqn:Ee; cbn [mbind outcome_bind if_some]; try done.
  - pose proof (exact_point_ok sec kind oc Hc lo hi enc Hwl Hwh Ha Hb Ee) as ->.
    rewrite app_assoc. by apply IH.
  - unfold boundedColumn.
    destruct (lower_start p sec kind lo) as [[st|]|e|w] eqn:El; cbn [mbind outcome_bind if_some]; try done.
    destruct (upper_end p sec kind hi) as [[sp|]|e|w] eqn:Eu; cbn [mbind outcome_bind if_some]; try done.
    intros [= <- <-]. split.
    + exact (lower_start_ok p sec kind oc _ Hc lo st Hwl Ha El).
    + exact (upper_end_ok p sec kind oc _ Hc hi sp Hwh Hb Eu).
Qed.

(** The entry of a row in the primary keyspace or in a secondary index. *)
Definition entry_key (def : tableDef) (idx : option indexDef) (r : row) : outcome bytes :=
  pkEnc ← encodePK def r;
  match idx with
  | None => Ok (scanKey (td_ID def) pkEnc)
  | Some ix =>
      '(colsEnc, _) ← encodeIndexCols def ix r;
      Ok (secondarySpace (ix_ID ix) ++ colsEnc ++ pkEnc)
  end.

Lemma encode_index_vals cols r ords buf hn b h vals :
  row_wf r -> index_vals cols r ords = Some vals -> encode_index_cols cols r ords buf hn = Ok (b, h) ->
  b = buf ++ vals_bytes true vals ∧ Forall (λ kv, col_ok true kv.1 kv.2) vals.
Proof.
  intros Hr. revert buf hn vals. induction ords as [|ord ords IH]; intros buf hn vals; cbn [index_vals encode_index_cols].
  { intros [= <-] [= <- <-]. by rewrite app_nil_r. }
  destruct (r !! ord) as [o|] eqn:Er; cbn; [|done]. destruct (cols !! ord) as [col|]; cbn; [|done].
  destruct (col_kind col) as [kind|e|w]; cbn; try done. destruct o as [v|].
  - unfold encodeKeyCol. destruct (coerce kind v) as [c|e|w] eqn:Ec; cbn; try done.
    destruct (index_vals cols r ords) as [vals'|] eqn:Ev; cbn; [|done]. intros [= <-].
    intros [-> Hok]%(IH _ _ vals'); [|done]. split; [unfold vals_bytes; cbn; by rewrite <-!app_assoc|].
    constructor; [|done]. split; [|eauto]. eapply coerce_ok; [|done].
    exact (Forall_lookup_1 _ _ _ _ Hr Er).
  - destruct (index_vals cols r ords) as [vals'|] eqn:Ev; cbn; [|done]. intros [= <-].
    intros [-> Hok]%(IH _ _ vals'); [|done]. split; [unfold vals_bytes; cbn; by rewrite <-!app_assoc|by constructor].
Qed.

Lemma encode_pk_index_vals cols r ords buf b vals :
  row_wf r -> index_vals cols r ords = Some vals -> encode_pk_cols cols r ords buf = Ok b ->
  b = buf ++ vals_bytes false vals ∧ Forall (λ kv, col_ok false kv.1 kv.2) vals.
Proof.
  intros Hr. revert buf vals. induction ords as [|ord ords IH]; intros buf vals; cbn [index_vals encode_pk_cols].
  { intros [= <-] [= <-]. by rewrite app_nil_r. }
  destruct (r !! ord) as [[v|]|] eqn:Er; cbn; [|by destruct (cols !! ord)|done].
  destruct (cols !! ord) as [col|]; cbn; [|done]. destruct (col_kind col) as [kind|e|w]; cbn; try done.
  unfold encodeKeyCol. destruct (coerce kind v) as [c|e|w] eqn:Ec; cbn; try done.
  destruct (index_vals cols r ords) as [vals'|] eqn:Ev; cbn; [|done]. intros [= <-].
  intros [-> Hok]%(IH _ vals'); [|done]. split; [unfold vals_bytes; cbn; by rewrite <-!app_assoc|].
  constructor; [|done]. split; [|eauto]. eapply coerce_ok; [|done]. exact (Forall_lookup_1 _ _ _ _ Hr Er).
Qed.

(** Where no value is NaN or -0.0, a match in the order of SQL is one in the order of the
    keys. *)
Definition cut_ordered (c : cut) : Prop := match c with Below v | Above v => value_ordered v | _ => True end.
#[export] Instance cut_ordered_dec c : Decision (cut_ordered c).
Proof. destruct c; apply _. Defined.

Definition val_ordered (o : option cval) : Prop := match o with Some c => cval_ok c ∧ ordered c | None => True end.

Lemma above_cut_sql kind lo o :
  cut_wf lo -> cut_ordered lo -> val_ordered o -> above_cut sql_cmp kind lo o -> above_cut cval_cmp kind lo o.
Proof.
  destruct lo as [|v|v| |], o as [c|]; cbn; try done; intros Hw Hl [Hc Ho] (d & Ed & Hcmp); exists d;
    (split; [done|]); rewrite <-sql_cmp_key; eauto using coerce_ok, coerce_ordered.
Qed.

Lemma below_cut_sql kind hi o :
  cut_wf hi -> cut_ordered hi -> val_ordered o -> below_cut sql_cmp kind hi o -> below_cut cval_cmp kind hi o.
Proof.
  destruct hi as [|v|v| |], o as [c|]; cbn; try done; intros Hw Hl [Hc Ho] (d & Ed & Hcmp); exists d;
    (split; [done|]); rewrite <-sql_cmp_key; eauto using coerce_ok, coerce_ordered.
Qed.

Lemma matches_range_sql vals rng :
  Forall (λ lh, cut_wf lh.1 ∧ cut_wf lh.2) rng -> Forall (λ lh, cut_ordered lh.1 ∧ cut_ordered lh.2) rng ->
  Forall (λ kv, val_ordered kv.2) vals -> matches_range sql_cmp vals rng -> matches_range cval_cmp vals rng.
Proof.
  revert vals. induction rng as [|[lo hi] rng IH]; intros [|[kind o] vals]; try done.
  intros [[Wl Wh] W]%Forall_cons [[Ol Oh] Oc]%Forall_cons [Vo Vs]%Forall_cons (Ha & Hb & Hm). cbn [fst snd] in *.
  split_and!; [by apply above_cut_sql|by apply below_cut_sql|by apply IH].
Qed.

(** The values of the key columns of a row are neither NaN nor -0.0. *)
Definition keys_ordered (def : tableDef) (idx : option indexDef) (r : row) : Prop :=
  Forall (λ ord, match r !! ord with Some (Some v) => value_ordered v | _ => True end) (index_ords def idx).
#[export] Instance keys_ordered_dec def idx r : Decision (keys_ordered def idx r).
Proof. unfold keys_ordered. apply Forall_dec. intros ord. destruct (r !! ord) as [[v|]|]; apply _. Defined.

Lemma index_vals_ordered cols r ords vals :
  row_wf r -> Forall (λ ord, match r !! ord with Some (Some v) => value_ordered v | _ => True end) ords ->
  index_vals cols r ords = Some vals -> Forall (λ kv, val_ordered kv.2) vals.
Proof.
  intros Hr Ho. revert vals. induction Ho as [|ord ords Hord Ho IH]; intros vals; cbn [index_vals]; [by intros [= <-]|].
  destruct (r !! ord) as [o|] eqn:Er; cbn; [|done]. destruct (cols !! ord) as [col|]; cbn; [|done].
  destruct (col_kind col) as [kind|e|w]; try done. pose proof (Forall_lookup_1 _ _ _ _ Hr Er) as Hw.
  destruct o as [v|]; [destruct (coerce kind v) as [c|e|w] eqn:Ec; try done|];
    (destruct (index_vals cols r ords) as [vals'|]; [|done]); intros [= <-]; constructor; auto; cbn.
  split; [by eapply coerce_ok|by eapply coerce_ordered].
Qed.

Lemma pk_vals_ordered cols r ords cs :
  Forall (λ ord, match r !! ord with Some (Some v) => value_ordered v | _ => True end) ords ->
  pk_vals cols r ords = Some cs -> Forall ordered cs.
Proof.
  intros Ho. revert cs. induction Ho as [|ord ords Hord Ho IH]; intros cs; cbn [pk_vals]; [by intros [= <-]|].
  destruct (r !! ord) as [[v|]|]; cbn; try done. destruct (cols !! ord) as [col|]; cbn; [|done].
  destruct (col_kind col) as [kind|e|w]; cbn; try done. destruct (coerce kind v) as [c|e|w] eqn:Ec; cbn; try done.
  destruct (pk_vals cols r ords) as [cs'|]; cbn; [|done]. intros [= <-]. constructor; [by eapply coerce_ordered|auto].
Qed.

Lemma rangeBounds_superset def idx rng r key vals start stop :
  row_wf r -> entry_key def idx r = Ok key ->
  index_vals (td_Columns def) r (index_ords def idx) = Some vals ->
  Forall (λ lh, cut_wf lh.1 ∧ cut_wf lh.2) rng -> matches_range cval_cmp vals rng ->
  rangeBounds def idx rng = Ok (Some (start, stop)) ->
  bytes_le start key ∧ bytes_lt key stop.
Proof.
  intros Hr Ek Hv Hw Hm Hb. unfold entry_key in Ek.
  destruct (encodePK def r) as [pk|e|w] eqn:Epk; cbn in Ek; try done. destruct idx as [ix|].
  - destruct (encodeIndexCols def ix r) as [[cs h]|e|w] eqn:Ec; cbn in Ek; try done. injection Ek as <-.
    destruct (encode_index_vals _ _ _ _ _ _ _ _ Hr Hv Ec) as [-> Hok].
    exact (range_loop_ok (td_Columns def) true (ix_ColOrds ix) rng (secondarySpace (ix_ID ix)) r vals pk start stop
      Hv Hok Hw Hm Hb).
  - injection Ek as <-. destruct (encode_pk_index_vals _ _ _ _ _ _ Hr Hv Epk) as [-> Hok].
    pose proof (range_loop_ok (td_Columns def) false (td_PKOrds def) rng (scanKey (td_ID def) []) r vals [] start stop
      Hv Hok Hw Hm Hb) as Hres.
    assert (scanKey (td_ID def) [] ++ vals_bytes false vals ++ [] = scanKey (td_ID def) ([] ++ vals_bytes false vals)) as E.
    { unfold scanKey. by rewrite !app_nil_r. }
    by rewrite E in Hres.
Qed.

(** ** Ranges stay in their keyspace *)

Lemma below_app_prefix p x k : bytes_le p k -> bytes_lt k (p ++ x) -> p `prefix_of` k.
Proof.
  revert k. induction p as [|b p IH]; intros k; [intros _ _; apply prefix_nil|]. destruct k as [|c k]; [done|].
  cbn [app]. rewrite bytes_le_cons, bytes_lt_cons. intros [?|[<- Hle]] [?|[E0 Hlt]]; try lia; try (subst; lia).
  apply prefix_cons. by apply IH.
Qed.

Lemma inc_app_prefix p x e k : incBytes (p ++ x) = Some e -> bytes_le p k -> bytes_lt k e -> p `prefix_of` k.
Proof.
  intros Hi Hle Hlt. destruct (decide (bytes_lt k (p ++ x))) as [Hb|Hb]; [by eapply below_app_prefix|].
  apply bytes_not_lt in Hb. destruct (proj1 (incBytes_range _ _ k Hi) (conj Hb Hlt)) as [s ->]. rewrite <-app_assoc. by eexists.
Qed.

Lemma lower_start_le p sec kind lo start : lower_start p sec kind lo = Ok (Some start) -> bytes_le p start.
Proof.
  assert (∀ x, bytes_le p (p ++ x)) as Hp by (intros x; apply bytes_le_prefix; by eexists).
  destruct lo as [| |k|k|]; cbn [lower_start]; try done.
  - intros [= <-]. rewrite <-(app_nil_r p) at 2. apply Hp.
  - intros [= <-]. apply Hp.
  - destruct (encodeCut kind k); cbn [if_ok]; try done. intros [= <-]. apply Hp.
  - destruct (encodeCut kind k); cbn [if_ok]; try done. intros [= Hi]. apply incBytes_lt in Hi.
    eapply bytes_le_trans; [apply Hp|]. apply bytes_le_lt_eq. by left.
Qed.

Lemma upper_end_prefix p sec kind hi stop :
  p ≠ [] -> upper_end p sec kind hi = Ok (Some stop) ->
  stop ≠ [] ∧ ∀ k, bytes_le p k -> bytes_lt k stop -> p `prefix_of` k.
Proof.
  intros Hne. assert (∀ x e, incBytes (p ++ x) = Some e -> e ≠ []) as Hinc.
  { intros x e Hi ->. apply incBytes_lt in Hi. by destruct p. }
  assert (∀ x, p ++ x ≠ [] ∧ ∀ k, bytes_le p k -> bytes_lt k (p ++ x) -> p `prefix_of` k) as Hb.
  { intros x. split; [by destruct p|]. intros k. apply below_app_prefix. }
  destruct hi as [| |k|k|]; cbn [upper_end]; try done.
  - destruct sec; [|done]. intros [= <-]. apply Hb.
  - destruct (encodeCut kind k); cbn [if_ok]; try done. intros [= <-]. apply Hb.
  - destruct (encodeCut kind k); cbn [if_ok]; try done. intros [= Hi]. split; [by eapply Hinc|]. intros k'. by eapply inc_app_prefix.
  - intros [= Hi]. rewrite <-(app_nil_r p) in Hi. split; [by eapply Hinc|]. intros k'. by eapply inc_app_prefix.
Qed.

(** The keys between the bounds of a lookup are keys of its index. *)
Lemma rangeBounds_space def idx rng start stop :
  rangeBounds def idx rng = Ok (Some (start, stop)) ->
  stop ≠ [] ∧ ∀ k, bytes_le start k -> bytes_lt k stop -> index_space def idx `prefix_of` k.
Proof.
  unfold rangeBounds. assert (index_space def idx ≠ []) as Hne by (by destruct idx). revert Hne.
  generalize (index_space def idx) (index_ords def idx). intros p ords Hne. revert ords p Hne.
  assert (∀ p : bytes, p ≠ [] -> if_some (incBytes p) (λ stop, Ok (Some (p, stop))) = Ok (Some (start, stop)) ->
    stop ≠ [] ∧ ∀ k, bytes_le start k -> bytes_lt k stop -> p `prefix_of` k) as Hend.
  { intros p Hp. destruct (incBytes p) as [e|] eqn:Ei; cbn; [|done]. intros [= <- <-]. split.
    - intros ->. apply incBytes_lt in Ei. by destruct p.
    - intros k H1 H2. by apply (incBytes_range _ _ k Ei). }
  induction rng as [|[lo hi] rng IH]; intros [|ord ords] p Hp; cbn [range_loop]; try by apply Hend.
  destruct (td_Columns def !! ord) as [col|]; [|done]. destruct (col_kind col) as [kind|e|w]; cbn [if_ok]; try done.
  destruct (exact_point (is_secondary idx) kind lo hi) as [[[enc|]|]|e|w]; cbn [mbind outcome_bind if_some]; try done.
  - intros [Hs Hk]%IH; [|by destruct p]. split; [done|]. intros k H1 H2. destruct (Hk k H1 H2) as [s ->]. rewrite <-app_assoc. by eexists.
  - unfold boundedColumn. destruct (lower_start p (is_secondary idx) kind lo) as [[st|]|e|w] eqn:El; cbn [mbind outcome_bind if_some]; try done.
    destruct (upper_end p (is_secondary idx) kind hi) as [[sp|]|e|w] eqn:Eu; cbn [mbind outcome_bind if_some]; try done.
    intros [= <- <-]. destruct (upper_end_prefix _ _ _ _ _ Hp Eu) as [Hs Hk]. split; [done|]. intros k H1. apply Hk.
    eapply bytes_le_trans; [|exact H1]. by eapply lower_start_le.
Qed.
