(* ===== verification/SqlTxn.v ===== *)
(** Buffered transactions of the SQL layer: the write-set of [sqlledger/txn.go],
    the row operations of [sqlledger/table.go] it turns into, and the overlay that
    merges it into scans.

    A transaction maps table ids to buffers and a buffer maps primary-key encodings
    to the end state of one row.  The rows of a buffer are never changed in place, so
    buffers are values here; that the savepoints' deep copies keep the pointers of
    the code apart is the subject of [SqlHeap]. *)

From S2P Require Import Prelude Errors Backend Store GoNum SqlCodec SqlIndex.

(** * Case folding

    [strings.ToLower] and [strings.EqualFold] follow the Unicode tables; the code
    relies on their being total, and on folding being an equivalence that agrees with
    the ASCII rules on ASCII. *)
Class CaseFold := {
  ToLower : string -> string;
  EqualFold : string -> string -> bool;
  EqualFold_refl : ∀ s, EqualFold s s = true
}.

(** * Data *)

Record pendingRow := Pending { p_pkEnc : bytes; p_old : option row; p_new : option row }.
#[export] Instance pendingRow_eq_dec : EqDecision pendingRow.
Proof. solve_decision. Defined.

Record tableTxn := MkTableTxn { tt_rows : gmap bytes pendingRow }.
#[export] Instance tableTxn_eq_dec : EqDecision tableTxn.
Proof. solve_decision. Defined.

Record savepoint := MkSavepoint { sp_name : string; sp_tables : gmap N tableTxn }.
#[export] Instance savepoint_eq_dec : EqDecision savepoint.
Proof. solve_decision. Defined.

Record storeTxn := MkStoreTxn {
  tx_baseVersion : N;
  tx_readOnly : bool;
  tx_tables : gmap N tableTxn;
  tx_savepoints : list savepoint
}.
#[export] Instance storeTxn_eq_dec : EqDecision storeTxn.
Proof. solve_decision. Defined.

Definition set_new (r : option row) (p : pendingRow) : pendingRow := Pending (p_pkEnc p) (p_old p) r.
Definition set_tables (tabs : gmap N tableTxn) (t : storeTxn) : storeTxn :=
  MkStoreTxn (tx_baseVersion t) (tx_readOnly t) tabs (tx_savepoints t).
Definition set_savepoints (l : list savepoint) (t : storeTxn) : storeTxn :=
  MkStoreTxn (tx_baseVersion t) (tx_readOnly t) (tx_tables t) l.

(** [append(sql.Row(nil), r...)]: a copy, nil when there is nothing to copy. *)
Definition copy_row (r : row) : option row := match r with [] => None | _ => Some r end.

(** The buffer of a table, allocated on the write paths. *)
Definition txn_table (id : N) (t : storeTxn) : tableTxn * storeTxn :=
  match tx_tables t !! id with
  | Some tb => (tb, t)
  | None => let tb := MkTableTxn ∅ in (tb, set_tables (<[id := tb]> (tx_tables t)) t)
  end.

Definition tableView (t : option storeTxn) (id : N) : option tableTxn :=
  match t with None => None | Some t => tx_tables t !! id end.

(** * Row operations *)

(** [for _, x := range l { ... }] with an early return on error. *)
Fixpoint foldO {A B} (f : A -> B -> outcome A) (a : A) (l : list B) : outcome A :=
  match l with [] => Ok a | b :: l' => a' ← f a b; foldO f a' l' end.

Definition row_payload (def : tableDef) (enc : bytes) : bytes := tagRow :: be 8 (td_ID def) ++ enc.

Definition buildRowOps (def : tableDef) (p : pendingRow) : outcome (list Op * list BatchOp) :=
  let rk := rowKey (td_ID def) (p_pkEnc p) in
  match p_new p, p_old p with
  | None, Some old =>
      ops ← indexOps def old (p_pkEnc p) true;
      Ok ([Del rk], bdel (scanKey (td_ID def) (p_pkEnc p)) :: ops)
  | Some new, old =>
      enc ← encodeRow (td_Columns def) new;
      dels ← match old with
             | Some old => indexOps def old (p_pkEnc p) true
             | None => Ok []
             end;
      ops ← indexOps def new (p_pkEnc p) false;
      Ok ([Put rk (row_payload def enc)],
          bput (scanKey (td_ID def) (p_pkEnc p)) [] :: dels ++ ops)
  | None, None => Ok ([], [])
  end.

Definition hasAutoInc (def : tableDef) : bool := existsb cd_AutoInc (td_Columns def).

(** The ledger entry of the AUTO_INCREMENT counter. *)
Definition counter_op (def : tableDef) : Op :=
  Put (autoIncKey (td_ID def)) (tagAutoInc :: be 8 (td_autoIncNext def)).

(** * Scan overlays *)

Record scanOverlay := MkOverlay { ov_adds : list KV; ov_masks : gset bytes }.

Definition kv_le (a b : KV) : Prop := bytes_le (kv_Key a) (kv_Key b).
#[export] Instance kv_le_dec : RelDecision kv_le.
Proof. intros a b. unfold kv_le. apply _. Defined.

Section overlay.
Variables (start stop : bytes).

Definition inRange (k : bytes) : bool :=
  bool_decide (bytes_le start k) && bool_decide (bytes_lt k stop).

Definition ov_add (ov : scanOverlay) (k pkEnc : bytes) : scanOverlay :=
  if inRange k then MkOverlay (ov_adds ov ++ [MkKV k pkEnc]) (ov_masks ov ∖ {[k]}) else ov.
Definition ov_mask (ov : scanOverlay) (k : bytes) : scanOverlay :=
  if inRange k then MkOverlay (ov_adds ov) ({[k]} ∪ ov_masks ov) else ov.

(** The secondary-index key of one state of a row. *)
Definition index_key (def : tableDef) (idx : indexDef) (r : row) (pkEnc : bytes) : outcome bytes :=
  '(colsEnc, _) ← encodeIndexCols def idx r;
  Ok (secondarySpace (ix_ID idx) ++ colsEnc ++ pkEnc).

Definition overlay_row (def : tableDef) (idx : option indexDef) (ov : scanOverlay) (p : pendingRow) :
    outcome scanOverlay :=
  match idx with
  | None =>
      let k := scanKey (td_ID def) (p_pkEnc p) in
      Ok (match p_new p, p_old p with
          | Some _, _ => ov_add ov k (p_pkEnc p)
          | None, Some _ => ov_mask ov k
          | None, None => ov
          end)
  | Some ix =>
      ov ← match p_old p with
           | Some old => k ← index_key def ix old (p_pkEnc p); Ok (ov_mask ov k)
           | None => Ok ov
           end;
      match p_new p with
      | Some new => k ← index_key def ix new (p_pkEnc p); Ok (ov_add ov k (p_pkEnc p))
      | None => Ok ov
      end
  end.

Context `{MR : MapRange}.

Definition buildOverlay (def : tableDef) (otb : option tableTxn) (idx : option indexDef) :
    outcome (option scanOverlay) :=
  match otb with
  | None => Ok None
  | Some tb =>
      if decide (size (tt_rows tb) = 0) then Ok None
      else
        ov ← foldO (λ ov kp, overlay_row def idx ov kp.2) (MkOverlay [] ∅) (range_map (tt_rows tb));
        if decide (ov_adds ov = [] ∧ ov_masks ov = ∅) then Ok None
        else
          let adds := merge_sort kv_le (ov_adds ov) in
          Ok (Some (MkOverlay adds (foldl (λ m kv, m ∖ {[kv_Key kv]}) (ov_masks ov) adds)))
  end.
End overlay.

(** [stringsCompare] is [bytes_cmp]; the two-pointer merge. *)
Fixpoint merge_loop (masks : gset bytes) (adds : list KV) : list KV -> list KV :=
  fix go entries :=
    match adds, entries with
    | [], [] => []
    | a :: adds', [] => a :: merge_loop masks adds' []
    | [], e :: entries' => if decide (kv_Key e ∈ masks) then go entries' else e :: go entries'
    | a :: adds', e :: entries' =>
        match bytes_cmp (kv_Key a) (kv_Key e) with
        | Lt => a :: merge_loop masks adds' entries
        | Eq => a :: merge_loop masks adds' entries'
        | Gt => if decide (kv_Key e ∈ masks) then go entries' else e :: go entries'
        end
    end.

Definition mergeOverlay (entries : list KV) (ov : option scanOverlay) : list KV :=
  match ov with
  | None => entries
  | Some ov => merge_loop (ov_masks ov) (ov_adds ov) entries
  end.
