(* ===== verification/SqlOverlay.v ===== *)
(** Scans inside a transaction: the overlay of [sqlledger/txn.go].

    A buffered transaction is merged into every scan: its entries are added, and the
    committed entries of rows it deletes or moves are hidden.  The main lemma,
    [overlay_scan], says that a scan through the overlay resolves to the rows that a
    plain scan would find in the derived keyspace after the commit of the buffer. *)

From S2P Require Import Prelude Errors Backend Store GoNum SqlCodec SqlIndex SqlTxn.

(** * The encodings are prefix-free *)

Lemma key_bytes_app_inj c d s t :
  alike c d -> key_bytes c ++ s = key_bytes d ++ t -> key_bytes c = key_bytes d ∧ s = t.
Proof.
  assert (∀ a b, appendEscaped [] a ++ s = appendEscaped [] b ++ t ->
    appendEscaped [] a = appendEscaped [] b ∧ s = t) as Hesc.
  { intros a b Eq. pose proof (escape_then_cmp a b s t) as Hc. rewrite Eq, bytes_cmp_refl in Hc.
    destruct (bytes_cmp a b) eqn:Eab; cbn in Hc; try done. symmetry in Hc.
    by apply bytes_cmp_eq in Eab as ->, Hc as ->. }
  destruct c, d; cbn [alike key_bytes]; intros Ha Eq; try done; auto;
    (apply app_inj_len in Eq; [done|]); unfold encInt64, encUint64, encFloat64; by rewrite !length_be.
Qed.

Section index_enc.
Variables (cols : list colDef).

Lemma encode_index_cons r ord ords buf hn b h :
  encode_index_cols cols r (ord :: ords) buf hn = Ok (b, h) ->
  ∃ e hn', encode_index_cols cols r ords (buf ++ e) hn' = Ok (b, h) ∧
    ((r !! ord = Some None ∧ e = [u8 0]) ∨
     ∃ col kind v c, cols !! ord = Some col ∧ col_kind col = Ok kind ∧ r !! ord = Some (Some v) ∧
       coerce kind v = Ok c ∧ e = u8 1 :: key_bytes c).
Proof.
  cbn [encode_index_cols]. destruct (r !! ord) as [[v|]|] eqn:Er; [|eauto 10|done].
  destruct (cols !! ord) as [col|] eqn:Ec; [|done]. destruct (col_kind col) as [kind|e|w] eqn:Ek; cbn; try done.
  unfold encodeKeyCol. destruct (coerce kind v) as [c|e|w] eqn:Ev; cbn; try done.
  rewrite <-app_assoc. intros Eb. exists (u8 1 :: key_bytes c), hn. split; [done|]. right. eauto 10.
Qed.

Lemma encode_index_buf r ords buf hn b h :
  encode_index_cols cols r ords buf hn = Ok (b, h) -> ∃ e, b = buf ++ e.
Proof.
  revert buf hn. induction ords as [|ord ords IH]; intros buf hn.
  { cbn. intros [= <- <-]. exists []. by rewrite app_nil_r. }
  intros (e & hn' & Eb & _)%encode_index_cons. destruct (IH _ _ Eb) as [e' ->].
  exists (e ++ e'). by rewrite app_assoc.
Qed.

(** Two index encodings with something behind them are equal only part by part. *)
Lemma encode_index_app_inj r1 r2 ords buf h1 h2 b1 b2 h1' h2' s t :
  encode_index_cols cols r1 ords buf h1 = Ok (b1, h1') ->
  encode_index_cols cols r2 ords buf h2 = Ok (b2, h2') ->
  b1 ++ s = b2 ++ t -> b1 = b2 ∧ s = t.
Proof.
  revert buf h1 h2. induction ords as [|ord ords IH]; intros buf h1 h2.
  { cbn. intros [= <- _] [= <- _]. intros Eq%app_inj_1; [tauto|done]. }
  intros (e1 & k1 & E1 & H1)%encode_index_cons (e2 & k2 & E2 & H2)%encode_index_cons Eq.
  destruct (encode_index_buf _ _ _ _ _ _ E1) as [x1 X1], (encode_index_buf _ _ _ _ _ _ E2) as [x2 X2].
  assert (e1 = e2) as ->; [|by eapply IH].
  rewrite X1, X2, <-!app_assoc in Eq. apply (inj (app buf)) in Eq.
  destruct H1 as [[_ ->]|(col & kind & v1 & c1 & Hc & Hk & _ & Hv1 & ->)],
    H2 as [[_ ->]|(col' & kind' & v2 & c2 & Hc' & Hk' & _ & Hv2 & ->)]; try done.
  rewrite Hc in Hc'. injection Hc' as <-. rewrite Hk in Hk'. injection Hk' as <-.
  injection Eq as Eq. f_equal.
  by apply key_bytes_app_inj in Eq as [-> _]; [|by eapply coerce_alike].
Qed.
End index_enc.

Lemma index_key_inj def idx r1 r2 pk1 pk2 k :
  index_key def idx r1 pk1 = Ok k -> index_key def idx r2 pk2 = Ok k -> pk1 = pk2.
Proof.
  unfold index_key, encodeIndexCols.
  destruct (encode_index_cols _ r1 _ _ _) as [[c1 h1]|e|w] eqn:E1; cbn; try done.
  destruct (encode_index_cols _ r2 _ _ _) as [[c2 h2]|e|w] eqn:E2; cbn; try done.
  intros [= <-] [= Eq]. symmetry in Eq. by eapply encode_index_app_inj in Eq as [_ ->].
Qed.

(** * The keys one pending row puts and deletes *)

(** The entry of one state of a row in the keyspace of [idx] (primary for [None]). *)
Definition entry_at (def : tableDef) (idx : option indexDef) (r : row) (pkEnc : bytes) : outcome bytes :=
  match idx with
  | None => Ok (scanKey (td_ID def) pkEnc)
  | Some ix => index_key def ix r pkEnc
  end.
Definition entry_value (idx : option indexDef) (pkEnc : bytes) : bytes :=
  match idx with None => [] | Some _ => pkEnc end.

Definition puts (def : tableDef) (idx : option indexDef) (p : pendingRow) (k : bytes) : Prop :=
  ∃ r, p_new p = Some r ∧ entry_at def idx r (p_pkEnc p) = Ok k.
Definition dels (def : tableDef) (idx : option indexDef) (p : pendingRow) (k : bytes) : Prop :=
  ∃ r, p_old p = Some r ∧ entry_at def idx r (p_pkEnc p) = Ok k.

#[export] Instance ok_is_dec (o : outcome bytes) k : Decision (o = Ok k).
Proof. apply _. Defined.
#[export] Instance some_is_dec (o : option row) (P : row -> Prop) `{∀ r, Decision (P r)} : Decision (∃ r, o = Some r ∧ P r).
Proof.
  destruct o as [r|]; [|right; by intros (r & ? & _)].
  destruct (decide (P r)); [left; eauto|right; by intros (r' & [= <-] & ?)].
Defined.
#[export] Instance puts_dec def idx p k : Decision (puts def idx p k).
Proof. unfold puts. apply _. Defined.
#[export] Instance dels_dec def idx p k : Decision (dels def idx p k).
Proof. unfold dels. apply _. Defined.

(** [k] lies in the keyspace of [idx]. *)
Definition in_space (def : tableDef) (idx : option indexDef) (k : bytes) : Prop :=
  index_space def idx `prefix_of` k.

(** Ids that tell the indexes of a table apart. *)
Record def_ids (def : tableDef) : Prop := {
  di_u64 : Forall (λ ix, is_u64 (ix_ID ix)) (td_Indexes def);
  di_nodup : NoDup (ix_ID <$> td_Indexes def)
}.
Definition index_of (def : tableDef) (idx : option indexDef) : Prop :=
  match idx with None => True | Some ix => ix ∈ td_Indexes def end.

Lemma entry_at_space def idx r pk k : entry_at def idx r pk = Ok k -> in_space def idx k.
Proof.
  unfold in_space. destruct idx as [ix|]; cbn [entry_at index_space].
  - unfold index_key. destruct (encodeIndexCols def ix r) as [[c h]|e|w]; cbn; try done.
    intros [= <-]. by exists (c ++ pk).
  - intros [= <-]. exists pk. unfold scanKey. by rewrite app_nil_r.
Qed.

Lemma entry_at_inj def idx r1 r2 pk1 pk2 k :
  entry_at def idx r1 pk1 = Ok k -> entry_at def idx r2 pk2 = Ok k -> pk1 = pk2.
Proof.
  destruct idx as [ix|]; cbn [entry_at]; [apply index_key_inj|].
  unfold scanKey. intros [= <-] [= Eq]. by rewrite Eq.
Qed.

Lemma touch_same def idx p q k :
  puts def idx p k ∨ dels def idx p k -> puts def idx q k ∨ dels def idx q k -> p_pkEnc p = p_pkEnc q.
Proof. intros [(r & _ & E1)|(r & _ & E1)] [(r' & _ & E2)|(r' & _ & E2)]; eapply entry_at_inj; eauto. Qed.

(** The keyspaces of two different indexes have no key in common. *)
Lemma spaces_apart def ix ix' r pk k :
  def_ids def -> ix ∈ td_Indexes def -> ix' ∈ td_Indexes def -> in_space def (Some ix) k ->
  index_key def ix' r pk = Ok k -> ix' = ix.
Proof.
  intros [Hu Hn] Hin Hin' [s Hs] Hk. apply (entry_at_space def (Some ix')) in Hk as [s' Hs'].
  cbn [index_space] in *. rewrite Hs in Hs'. unfold secondarySpace in Hs'.
  apply (f_equal (drop 1)) in Hs' as Eq. cbn [drop app] in Eq.
  apply app_inj_len in Eq as [Eq _]; [|by rewrite !length_be].
  rewrite Forall_forall in Hu. apply be8_inj in Eq; [|by apply Hu..].
  apply list_elem_of_lookup in Hin as [i Hi], Hin' as [j Hj].
  assert (i = j) as ->; [|congruence].
  eapply NoDup_lookup; [exact Hn|rewrite list_lookup_fmap, Hi; done|rewrite list_lookup_fmap, Hj; cbn; by rewrite Eq].
Qed.

(** ** The entries of one row *)

Lemma index_ops_spec def r pk (remove : bool) idxs ops :
  index_ops def r pk remove idxs = Ok ops ->
  (∀ ix, ix ∈ idxs -> ∃ k, index_key def ix r pk = Ok k ∧ (if remove then bdel k else bput k pk) ∈ ops) ∧
  (∀ op, op ∈ ops -> ∃ ix k, ix ∈ idxs ∧ index_key def ix r pk = Ok k ∧ op = if remove then bdel k else bput k pk).
Proof.
  revert ops. induction idxs as [|ix idxs IH]; intros ops; cbn [index_ops].
  { intros [= <-]. split; [by intros ? ?%not_elem_of_nil|by intros ? ?%not_elem_of_nil]. }
  destruct (encodeIndexCols def ix r) as [[c h]|e|w] eqn:Ec; cbn; try done.
  destruct (index_ops def r pk remove idxs) as [ops'|e|w]; cbn; try done. intros [= <-].
  destruct (IH ops' eq_refl) as [IH1 IH2].
  assert (index_key def ix r pk = Ok (secondarySpace (ix_ID ix) ++ c ++ pk)) as Ek by (unfold index_key; by rewrite Ec).
  split.
  - intros ix' [->|Hin]%elem_of_cons; [eexists; split; [exact Ek|left]|].
    destruct (IH1 _ Hin) as (k & ? & ?). exists k. split; [done|by right].
  - intros op [->|Hin]%elem_of_cons; [do 2 eexists; split; [left|by split; [exact Ek|]]|].
    destruct (IH2 _ Hin) as (ix' & k & ? & ? & ?). exists ix', k. split_and!; [by right|done..].
Qed.

(** What the entries of [r] do to a key of the keyspace of [ix]. *)
Lemma index_ops_effect def r pk (remove : bool) ops D ix k :
  def_ids def -> ix ∈ td_Indexes def -> in_space def (Some ix) k -> indexOps def r pk remove = Ok ops ->
  apply_batch ops D !! k =
  if decide (index_key def ix r pk = Ok k) then (if remove then None else Some pk) else D !! k.
Proof.
  intros Hd Hin Hk Ho. apply index_ops_spec in Ho as [H1 H2]. case_decide as Ek.
  - apply apply_batch_in.
    + destruct (H1 ix Hin) as (k' & Ek' & Hop). rewrite Ek in Ek'. injection Ek' as <-.
      exists (if remove then bdel k else bput k pk). by destruct remove.
    + intros op (ix' & k' & _ & _ & ->)%H2 _. by destruct remove.
  - apply apply_batch_notin. intros op (ix' & k' & Hin' & Ek' & ->)%H2 Hop. apply Ek.
    assert (k' = k) as -> by (by destruct remove).
    by rewrite <-(spaces_apart def ix ix' r pk k).
Qed.

Lemma index_ops_primary def r pk (remove : bool) ops D k :
  in_space def None k -> indexOps def r pk remove = Ok ops -> apply_batch ops D !! k = D !! k.
Proof.
  intros [s ->] Ho. apply index_ops_spec in Ho as [_ H2]. apply apply_batch_notin.
  intros op (ix & k' & _ & Ek & ->)%H2.
  apply (entry_at_space def (Some ix)) in Ek as [s' ->]. by destruct remove.
Qed.

(** The entries of a state of the row that may be absent. *)
Definition opt_index_ops (def : tableDef) (o : option row) (pk : bytes) (remove : bool) : outcome (list BatchOp) :=
  match o with Some r => indexOps def r pk remove | None => Ok [] end.

Lemma opt_ops_effect def idx o pk (remove : bool) ops D k :
  def_ids def -> index_of def idx -> in_space def idx k -> opt_index_ops def o pk remove = Ok ops ->
  apply_batch ops D !! k =
  if decide (∃ r, o = Some r ∧ idx ≠ None ∧ entry_at def idx r pk = Ok k)
  then (if remove then None else Some pk) else D !! k.
Proof.
  intros Hd Hi Hk. destruct o as [r|]; cbn [opt_index_ops].
  2:{ intros [= <-]. by rewrite decide_False by (by intros (r & ? & _)). }
  destruct idx as [ix|]; intros Ho.
  - rewrite (index_ops_effect _ _ _ _ _ _ ix k Hd Hi Hk Ho). cbn [entry_at].
    destruct (decide (index_key def ix r pk = Ok k)) as [E|E].
    + by rewrite decide_True by eauto.
    + by rewrite decide_False by (intros (r' & [= <-] & _ & ?); done).
  - rewrite (index_ops_primary _ _ _ _ _ _ k Hk Ho). by rewrite decide_False by (by intros (r' & _ & ? & _)).
Qed.

(** The primary entry of a row, and then the index entries of its two states. *)
Definition scan_op (def : tableDef) (p : pendingRow) : list BatchOp :=
  match p_new p, p_old p with
  | Some _, _ => [bput (scanKey (td_ID def) (p_pkEnc p)) []]
  | None, Some _ => [bdel (scanKey (td_ID def) (p_pkEnc p))]
  | None, None => []
  end.

Lemma buildRowOps_scan def p lo so :
  buildRowOps def p = Ok (lo, so) ->
  ∃ od oa, opt_index_ops def (p_old p) (p_pkEnc p) true = Ok od ∧
    opt_index_ops def (p_new p) (p_pkEnc p) false = Ok oa ∧ so = scan_op def p ++ od ++ oa.
Proof.
  unfold buildRowOps, scan_op, opt_index_ops. destruct (p_new p) as [new|].
  - destruct (encodeRow _ _) as [enc|e|w]; cbn; try done.
    destruct (match p_old p with Some _ => _ | None => _ end) as [od|e|w]; cbn; try done.
    destruct (indexOps def new _ _) as [oa|e|w]; cbn; try done. intros [= <- <-]. eauto.
  - destruct (p_old p) as [old|]; [|intros [= <- <-]; by exists [], []].
    destruct (indexOps def old _ _) as [od|e|w]; cbn; try done. intros [= <- <-].
    exists od, []. by rewrite app_nil_r.
Qed.

Lemma scan_op_effect def idx p D k :
  in_space def idx k ->
  apply_batch (scan_op def p) D !! k =
  if decide (idx = None ∧ k = scanKey (td_ID def) (p_pkEnc p)) then
    match p_new p, p_old p with Some _, _ => Some [] | None, Some _ => None | None, None => D !! k end
  else D !! k.
Proof.
  intros Hk. unfold scan_op. case_decide as E.
  - destruct E as [-> ->]. destruct (p_new p), (p_old p); [apply lookup_insert_eq..|apply lookup_delete_eq|done].
  - assert (scanKey (td_ID def) (p_pkEnc p) ≠ k) as Hne.
    { intros <-. apply E. split; [|done]. destruct idx as [ix|]; [|done]. by destruct Hk as [s Hs]. }
    destruct (p_new p), (p_old p); [by apply lookup_insert_ne..|by apply lookup_delete_ne|done].
Qed.

(** One row: what it puts is there, what it only deletes is gone, the rest stays. *)
Lemma row_ops_effect def idx p lo so D k :
  def_ids def -> index_of def idx -> in_space def idx k -> buildRowOps def p = Ok (lo, so) ->
  apply_batch so D !! k =
  if decide (puts def idx p k) then Some (entry_value idx (p_pkEnc p))
  else if decide (dels def idx p k) then None else D !! k.
Proof.
  intros Hd Hi Hk (od & oa & Eo & En & ->)%buildRowOps_scan. rewrite !apply_batch_app.
  rewrite (opt_ops_effect _ _ _ _ _ _ _ _ Hd Hi Hk En), (opt_ops_effect _ _ _ _ _ _ _ _ Hd Hi Hk Eo),
    (scan_op_effect _ _ _ _ _ Hk).
  destruct idx as [ix|]; cbn [entry_value]; repeat case_decide; unfold puts, dels in *; cbn [entry_at] in *;
    destruct (p_new p) as [new|], (p_old p) as [old|]; naive_solver.
Qed.

(** ** The entries of a whole buffer *)

(** The derived-keyspace operations of the rows [ps], one after another. *)
Fixpoint rows_scan_ops (def : tableDef) (ps : list pendingRow) : outcome (list BatchOp) :=
  match ps with
  | [] => Ok []
  | p :: ps' => '(_, so) ← buildRowOps def p; sos ← rows_scan_ops def ps'; Ok (so ++ sos)
  end.

Section parts.
Variables (start stop : bytes).
Abbreviation inR := (inRange start stop).

(** What one row adds to an overlay: at most one mask, then at most one entry. *)
Definition mask_opt (o : option bytes) (ov : scanOverlay) : scanOverlay :=
  match o with Some k => ov_mask start stop ov k | None => ov end.
Definition add_opt (o : option bytes) (pk : bytes) (ov : scanOverlay) : scanOverlay :=
  match o with Some k => ov_add start stop ov k pk | None => ov end.

Lemma mask_opt_adds o ov : ov_adds (mask_opt o ov) = ov_adds ov.
Proof. destruct o as [k|]; cbn [mask_opt add_opt kv_Key kv_Value]; [|done]. unfold ov_mask. by case_match. Qed.
Lemma mask_opt_masks o ov k : k ∈ ov_masks (mask_opt o ov) ↔ k ∈ ov_masks ov ∨ o = Some k ∧ inR k = true.
Proof.
  destruct o as [km|]; cbn [mask_opt add_opt kv_Key kv_Value]; [|split; naive_solver]. unfold ov_mask.
  generalize (inRange start stop). intros f.
  destruct (f km) eqn:Ek; cbn [ov_adds ov_masks]; [rewrite elem_of_union, elem_of_singleton; naive_solver|].
  split; [tauto|]. intros [?|[[= ->] ?]]; [done|congruence].
Qed.
Lemma add_opt_adds o pk ov kv :
  kv ∈ ov_adds (add_opt o pk ov) ↔
  kv ∈ ov_adds ov ∨ o = Some (kv_Key kv) ∧ inR (kv_Key kv) = true ∧ kv_Value kv = pk.
Proof.
  destruct kv as [kk vv]. destruct o as [ka|]; cbn [mask_opt add_opt kv_Key kv_Value]; [|split; naive_solver]. unfold ov_add.
  generalize (inRange start stop). intros f.
  destruct (f ka) eqn:Ek; cbn [ov_adds ov_masks]; [rewrite elem_of_app, list_elem_of_singleton; naive_solver|].
  split; [tauto|]. intros [?|([= ->] & ? & ?)]; [done|congruence].
Qed.
Lemma add_opt_masks o pk ov k :
  k ∈ ov_masks (add_opt o pk ov) ↔ k ∈ ov_masks ov ∧ (o = Some k -> inR k = false).
Proof.
  destruct o as [ka|]; cbn [mask_opt add_opt kv_Key kv_Value]; [|split; naive_solver]. unfold ov_add.
  generalize (inRange start stop). intros f.
  destruct (f ka) eqn:Ek; cbn [ov_adds ov_masks]; [rewrite elem_of_difference, not_elem_of_singleton|].
  - split; intros [Hk Hne]; (split; [done|]); [intros [= ->]; done|intros ->]. specialize (Hne eq_refl). congruence.
  - split; [intros Hk|tauto]. split; [done|]. by intros [= <-].
Qed.

End parts.

Lemma rows_scan_ops_total def ps so p :
  rows_scan_ops def ps = Ok so -> p ∈ ps -> ∃ r, buildRowOps def p = Ok r.
Proof.
  revert so. induction ps as [|q ps IH]; intros so; cbn [rows_scan_ops]; [by intros _ ?%not_elem_of_nil|].
  destruct (buildRowOps def q) as [[lo sq]|e|w] eqn:E; cbn; try done.
  destruct (rows_scan_ops def ps) as [sos|e|w]; cbn; try done. intros _ [->|Hp]%elem_of_cons; eauto.
Qed.

Section rows.
Variables (def : tableDef) (idx : option indexDef).
Hypothesis Hd : def_ids def.
Hypothesis Hi : index_of def idx.

Lemma rows_ops_effect ps so D k :
  in_space def idx k -> rows_scan_ops def ps = Ok so -> NoDup (p_pkEnc <$> ps) ->
  (∀ p, p ∈ ps -> puts def idx p k -> apply_batch so D !! k = Some (entry_value idx (p_pkEnc p))) ∧
  (∀ p, p ∈ ps -> dels def idx p k -> ¬ puts def idx p k -> apply_batch so D !! k = None) ∧
  ((∀ p, p ∈ ps -> ¬ puts def idx p k ∧ ¬ dels def idx p k) -> apply_batch so D !! k = D !! k).
Proof.
  intros Hk. revert so D. induction ps as [|q ps IH]; intros so D; cbn [rows_scan_ops].
  { intros [= <-] _. split_and!; [by intros p ?%not_elem_of_nil..|done]. }
  destruct (buildRowOps def q) as [[lo sq]|e|w] eqn:Eq; cbn; try done.
  destruct (rows_scan_ops def ps) as [sos|e|w]; cbn; try done. intros [= <-] [Hnin Hnd]%NoDup_cons.
  rewrite apply_batch_app. destruct (IH _ (apply_batch sq D) eq_refl Hnd) as (IH1 & IH2 & IH3).
  pose proof (row_ops_effect def idx q lo sq D k Hd Hi Hk Eq) as Hq.
  assert (puts def idx q k ∨ dels def idx q k -> ∀ p, p ∈ ps -> ¬ puts def idx p k ∧ ¬ dels def idx p k) as Honly.
  { intros Htq p Hp. cut (¬ (puts def idx p k ∨ dels def idx p k)); [tauto|]. intros Htp. apply Hnin, list_elem_of_fmap. exists p. split; [|done].
    by eapply touch_same. }
  split_and!.
  - intros p [->|Hp]%elem_of_cons Hpu; [|by apply IH1].
    rewrite IH3 by auto. by rewrite Hq, decide_True.
  - intros p [->|Hp]%elem_of_cons Hpd Hnp; [|by eapply IH2].
    rewrite IH3 by auto. by rewrite Hq, decide_False, decide_True.
  - intros Hall. rewrite IH3 by (intros p Hp; apply Hall; by right).
    destruct (Hall q ltac:(left)). by rewrite Hq, !decide_False.
Qed.

(** ** The overlay of a buffer *)

Variables (start stop : bytes).
Abbreviation inR := (inRange start stop).

(** The overlay accumulated over the rows [ps]: exactly their puts, and deletions
    among which are all those that no put covers. *)
Record overlay_of (ps : list pendingRow) (ov : scanOverlay) : Prop := {
  oo_adds : ∀ kv, kv ∈ ov_adds ov ↔
    ∃ p, p ∈ ps ∧ puts def idx p (kv_Key kv) ∧ inR (kv_Key kv) = true ∧ kv_Value kv = p_pkEnc p;
  oo_mask : ∀ k, k ∈ ov_masks ov -> inR k = true ∧ ∃ p, p ∈ ps ∧ dels def idx p k;
  oo_gone : ∀ k p, p ∈ ps -> dels def idx p k -> inR k = true ->
    (∀ q, q ∈ ps -> ¬ puts def idx q k) -> k ∈ ov_masks ov;
  oo_nodup : NoDup (kv_Key <$> ov_adds ov)
}.

Lemma overlay_nil : overlay_of [] (MkOverlay [] ∅).
Proof.
  clear Hd Hi.
  split; cbn; [|set_solver..|constructor]. intros kv. split; [set_solver|].
  by intros (p & ?%not_elem_of_nil & _).
Qed.

Lemma overlay_ext ps ps' ov : (∀ p, p ∈ ps ↔ p ∈ ps') -> overlay_of ps ov -> overlay_of ps' ov.
Proof. intros Hp []. split; [setoid_rewrite <-Hp|setoid_rewrite <-Hp|intros k p ? ? ? ?|]; naive_solver. Qed.

Lemma overlay_row_spec ov p ov' :
  overlay_row start stop def idx ov p = Ok ov' ->
  ∃ m a, ov' = add_opt start stop a (p_pkEnc p) (mask_opt start stop m ov) ∧
    (∀ k, m = Some k -> dels def idx p k) ∧
    (∀ k, dels def idx p k -> ¬ puts def idx p k -> m = Some k) ∧
    (∀ k, a = Some k ↔ puts def idx p k).
Proof.
  unfold overlay_row, dels, puts. destruct idx as [ix|]; cbn [entry_at].
  - destruct (p_old p) as [old|], (p_new p) as [new|];
      try (destruct (index_key def ix old (p_pkEnc p)) as [k1|e|w] eqn:E1; cbn; try done);
      try (destruct (index_key def ix new (p_pkEnc p)) as [k2|e|w] eqn:E2; cbn; try done);
      intros [= <-];
      [exists (Some k1), (Some k2)|exists (Some k1), None|exists None, (Some k2)|exists None, None];
      (split; [done|]; split_and!;
        [intros k ?; simplify_eq; eauto|intros k (r & ? & ?) Hn; simplify_eq; first [congruence|exfalso; apply Hn; eauto]|
         intros k; split; [intros ?; simplify_eq; eauto|intros (r & ? & ?); simplify_eq; congruence]]).
  - intros [= <-]. destruct (p_old p) as [old|], (p_new p) as [new|];
      [eexists None, (Some _)|eexists (Some _), None|eexists None, (Some _)|eexists None, None];
      (split; [done|]; split_and!;
        [intros k ?; simplify_eq; eauto|intros k (r & ? & ?) Hn; simplify_eq; first [congruence|exfalso; apply Hn; eauto]|
         intros k; split; [intros ?; simplify_eq; eauto|intros (r & ? & ?); simplify_eq; congruence]]).
Qed.

Lemma overlay_step ps ov p ov' :
  overlay_of ps ov -> p_pkEnc p ∉ p_pkEnc <$> ps -> overlay_row start stop def idx ov p = Ok ov' ->
  overlay_of (p :: ps) ov'.
Proof.
  intros [Ha Hm Hg Hn] Hp (m & a & -> & Hm1 & Hm2 & Ha1)%overlay_row_spec.
  assert (∀ q k, q ∈ ps -> puts def idx q k ∨ dels def idx q k -> ¬ (puts def idx p k ∨ dels def idx p k)) as Hsep.
  { intros q k Hq H1 H2. apply Hp, list_elem_of_fmap. exists q. split; [|done]. by eapply touch_same. }
  split.
  - intros kv. rewrite add_opt_adds, mask_opt_adds, Ha. split.
    + intros [(q & ? & ? & ?)|(?%Ha1 & ? & ?)]; [exists q|exists p]; split; [by right|done|left|done].
    + intros (q & [->|Hq]%elem_of_cons & Hpu & Hr); [right; by rewrite Ha1|left; eauto].
  - intros k [Hk _]%add_opt_masks. apply mask_opt_masks in Hk as [Hk|[Hk Hr]].
    + destruct (Hm k Hk) as (Hr & q & ? & ?). split; [done|]. exists q. by split; [right|].
    + split; [done|]. exists p. split; [left|auto].
  - intros k q Hq Hdq Hr Hnone. apply add_opt_masks. split; [apply mask_opt_masks|].
    + apply elem_of_cons in Hq as [->|Hq].
      * right. split; [|done]. apply Hm2; [done|]. apply Hnone. left.
      * left. eapply Hg; [done..|]. intros q' Hq'. apply Hnone. by right.
    + intros Hk%Ha1. exfalso. eapply Hnone; [left|done].
  - destruct a as [ka|]; cbn [add_opt]; [|by rewrite mask_opt_adds]. unfold ov_add.
    destruct (inR ka) eqn:Ek; cbn [ov_adds]; rewrite mask_opt_adds; [|done].
    rewrite fmap_app. apply NoDup_app. split_and!; [done| |apply NoDup_singleton].
    intros k (kv & -> & (q & Hq & Hpq & _)%Ha)%list_elem_of_fmap Hk%list_elem_of_singleton.
    eapply (Hsep q (kv_Key kv)); [done|by left|]. left. apply Ha1. by rewrite Hk.
Qed.

Lemma overlay_fold {A} (f : A -> pendingRow) l ps ov ov' :
  overlay_of ps ov -> NoDup (p_pkEnc <$> (reverse (f <$> l) ++ ps)) ->
  foldO (λ ov x, overlay_row start stop def idx ov (f x)) ov l = Ok ov' ->
  overlay_of (reverse (f <$> l) ++ ps) ov'.
Proof.
  revert ps ov. induction l as [|x l IH]; intros ps ov Ho Hn; cbn [foldO].
  { by intros [= <-]. }
  destruct (overlay_row start stop def idx ov (f x)) as [ov1|e|w] eqn:E1; cbn [mbind outcome_bind]; try done.
  rewrite fmap_cons, reverse_cons, <-app_assoc in *. cbn [app] in *. intros E2.
  apply (IH (f x :: ps) ov1); [|done..]. eapply overlay_step; [done| |done].
  rewrite fmap_app, fmap_cons in Hn. apply NoDup_app in Hn as (_ & _ & [? _]%NoDup_cons). done.
Qed.

(** The overlay exists whenever the rows' operations do. *)
Lemma overlay_row_total ov p r :
  buildRowOps def p = Ok r -> ∃ ov', overlay_row start stop def idx ov p = Ok ov'.
Proof.
  destruct r as [lo so]. intros (od & oa & Eo & En & _)%buildRowOps_scan. unfold overlay_row.
  destruct idx as [ix|]; [|eauto]. unfold opt_index_ops in *.
  assert (∀ o b l, match o with Some r => indexOps def r (p_pkEnc p) b | None => Ok [] end = Ok l ->
    match o with Some r => ∃ k, index_key def ix r (p_pkEnc p) = Ok k | None => True end) as Hk.
  { intros [x|] b l Hl; [|done]. apply index_ops_spec in Hl as [Hl _]. destruct (Hl ix Hi) as (k & ? & _). eauto. }
  apply Hk in Eo, En. destruct (p_old p) as [old|]; [destruct Eo as [k1 ->]|]; cbn;
    (destruct (p_new p) as [new|]; [destruct En as [k2 ->]|]; cbn; eauto).
Qed.

Lemma overlay_fold_total {A} (f : A -> pendingRow) l ov :
  (∀ x, x ∈ l -> ∃ r, buildRowOps def (f x) = Ok r) ->
  ∃ ov', foldO (λ ov x, overlay_row start stop def idx ov (f x)) ov l = Ok ov'.
Proof.
  revert ov. induction l as [|x l IH]; intros ov Hl; cbn [foldO]; [eauto|].
  destruct (Hl x ltac:(left)) as [r E1]. destruct (overlay_row_total ov (f x) _ E1) as [ov1 ->].
  apply IH. intros y Hy. apply Hl. by right.
Qed.
End rows.

(** * Merging *)

Definition kv_lt (a b : KV) : Prop := bytes_lt (kv_Key a) (kv_Key b).

#[export] Instance kv_le_trans : Transitive kv_le.
Proof. intros a b c. unfold kv_le. apply bytes_le_trans. Qed.
#[export] Instance kv_le_total : Total kv_le.
Proof. intros a b. unfold kv_le. apply bytes_le_total. Qed.
#[export] Instance kv_lt_trans : Transitive kv_lt.
Proof. intros a b c. unfold kv_lt. apply bytes_lt_trans. Qed.

(** Sorting by key, with no key twice, is strict sorting. *)
Lemma sorted_strict {A} (key : A -> bytes) l :
  StronglySorted (λ a b, bytes_le (key a) (key b)) l -> NoDup (key <$> l) ->
  StronglySorted (λ a b, bytes_lt (key a) (key b)) l.
Proof.
  induction 1 as [|x l Hs IH Hf]; [constructor|]. intros [Hx Hn]%NoDup_cons. constructor; [auto|].
  rewrite Forall_forall in *. intros y Hy. specialize (Hf y Hy).
  apply bytes_le_lt_eq in Hf as [?|E]; [done|]. exfalso. apply Hx, list_elem_of_fmap. eauto.
Qed.

Lemma sorted_kv_strict l : StronglySorted kv_le l -> NoDup (kv_Key <$> l) -> StronglySorted kv_lt l.
Proof. apply (sorted_strict kv_Key). Qed.

Section merge.
Variable (masks : gset bytes).

(** An entry of the merge: an added one, or a committed one that is neither masked
    nor replaced. *)
Definition merged (adds entries : list KV) (kv : KV) : Prop :=
  kv ∈ adds ∨ kv ∈ entries ∧ kv_Key kv ∉ masks ∧ kv_Key kv ∉ kv_Key <$> adds.

Lemma merge_nil_l entries : merge_loop masks [] entries = filter (λ e, kv_Key e ∉ masks) entries.
Proof.
  induction entries as [|e entries IH]; [done|]. rewrite filter_cons. cbn [merge_loop].
  destruct (decide (kv_Key e ∈ masks)); [rewrite decide_False by tauto|rewrite decide_True by done]; by rewrite <-IH.
Qed.

Lemma merge_nil_r adds : merge_loop masks adds [] = adds.
Proof. induction adds as [|a adds IH]; [done|]. cbn [merge_loop]. by rewrite IH. Qed.

Lemma merge_cons a adds e entries :
  merge_loop masks (a :: adds) (e :: entries) =
  match bytes_cmp (kv_Key a) (kv_Key e) with
  | Lt => a :: merge_loop masks adds (e :: entries)
  | Eq => a :: merge_loop masks adds entries
  | Gt => if decide (kv_Key e ∈ masks) then merge_loop masks (a :: adds) entries
          else e :: merge_loop masks (a :: adds) entries
  end.
Proof. done. Qed.

Lemma elem_of_merge adds entries kv :
  StronglySorted kv_lt adds -> StronglySorted kv_lt entries ->
  kv ∈ merge_loop masks adds entries ↔ merged adds entries kv.
Proof.
  unfold merged. intros Hsa. revert entries. induction Hsa as [|a adds Hsa IHa Hfa]; intros entries Hse.
  { rewrite merge_nil_l, list_elem_of_filter. set_solver. }
  induction Hse as [|e entries Hse IHe Hfe].
  { rewrite merge_nil_r. set_solver. }
  rewrite Forall_forall in Hfa, Hfe. rewrite merge_cons, fmap_cons.
  destruct (bytes_cmp (kv_Key a) (kv_Key e)) eqn:Ec.
  - apply bytes_cmp_eq in Ec. rewrite !elem_of_cons, (IHa entries Hse).
    split; [intros [?|[?|(Hin & ? & ?)]]; [tauto..|]|intros [?|([->|?] & ? & ?)]; [tauto|exfalso; naive_solver|tauto]].
    right. split_and!; [by right|done|]. intros [E|?]; [|done].
    specialize (Hfe kv Hin). unfold kv_lt in Hfe. rewrite E, Ec in Hfe. by apply (irreflexivity bytes_lt) in Hfe.
  - rewrite elem_of_cons, (IHa (e :: entries)) by (constructor; [done|by apply Forall_forall]).
    rewrite !elem_of_cons.
    split; [intros [?|[?|(Hin & ? & ?)]]; [tauto..|]|tauto].
    right. split_and!; [done|done|]. intros [E|?]; [|done].
    assert (bytes_lt (kv_Key a) (kv_Key kv)) as Hlt; [|rewrite E in Hlt; by apply (irreflexivity bytes_lt) in Hlt].
    destruct Hin as [->|?]; [done|]. etrans; [exact Ec|by apply Hfe].
  - assert (kv_Key e ∉ kv_Key a :: (kv_Key <$> adds)) as Hne.
    { apply not_elem_of_cons. assert (bytes_lt (kv_Key e) (kv_Key a)) as Hlt.
      { unfold bytes_lt. by rewrite bytes_cmp_antisym, Ec. }
      split; [intros E; rewrite E in Hlt; by apply (irreflexivity bytes_lt) in Hlt|].
      intros (x & E & Hx)%list_elem_of_fmap. specialize (Hfa x Hx). unfold kv_lt in Hfa.
      assert (bytes_lt (kv_Key e) (kv_Key x)) as Hlx by (by etrans). rewrite E in Hlx. by apply (irreflexivity bytes_lt) in Hlx. }
    rewrite elem_of_cons in Hne.
    case_decide as Em; rewrite ?elem_of_cons, IHe, ?fmap_cons, ?elem_of_cons; split.
    + tauto.
    + intros [?|([->|?] & ? & ?)]; tauto.
    + intros [->|?]; tauto.
    + intros [?|([->|?] & ? & ?)]; tauto.
Qed.

Lemma merge_sorted adds entries :
  StronglySorted kv_lt adds -> StronglySorted kv_lt entries -> StronglySorted kv_lt (merge_loop masks adds entries).
Proof.
  intros Hsa. revert entries. induction Hsa as [|a adds Hsa IHa Hfa]; intros entries Hse.
  { rewrite merge_nil_l. induction Hse as [|e entries Hse IHe Hfe]; [constructor|]. rewrite filter_cons.
    case_decide; [|done]. constructor; [done|]. rewrite Forall_forall in *. intros x [_ Hx]%list_elem_of_filter. auto. }
  induction Hse as [|e entries Hse IHe Hfe]; [rewrite merge_nil_r; by constructor|].
  assert (StronglySorted kv_lt (e :: entries)) as Hs by (by constructor).
  assert (StronglySorted kv_lt (a :: adds)) as Hs' by (by constructor).
  rewrite Forall_forall in Hfa, Hfe. rewrite merge_cons.
  destruct (bytes_cmp (kv_Key a) (kv_Key e)) eqn:Ec.
  - constructor; [auto|]. apply Forall_forall. intros x [?|[Hx _]]%elem_of_merge; [by apply Hfa| |done..].
    apply bytes_cmp_eq in Ec. unfold kv_lt. rewrite Ec. by apply Hfe.
  - constructor; [auto|]. apply Forall_forall. intros x [?|[Hx _]]%elem_of_merge; [by apply Hfa| |done..].
    apply elem_of_cons in Hx as [->|Hx]; [done|]. unfold kv_lt. etrans; [exact Ec|by apply Hfe].
  - assert (bytes_lt (kv_Key e) (kv_Key a)) as Hlt by (unfold bytes_lt; by rewrite bytes_cmp_antisym, Ec).
    case_decide; [done|]. constructor; [done|]. apply Forall_forall. intros x [Hx|[Hx _]]%elem_of_merge; [|by apply Hfe|done..].
    apply elem_of_cons in Hx as [->|Hx]; [done|]. unfold kv_lt. etrans; [exact Hlt|by apply Hfa].
Qed.
End merge.

(** * Scans *)

Lemma elem_of_scan D start stop kv :
  kv ∈ scan_spec D start stop 0 ↔ in_range start stop (kv_Key kv) ∧ D !! kv_Key kv = Some (kv_Value kv).
Proof.
  unfold scan_spec, limited. rewrite decide_True by done. rewrite list_elem_of_fmap.
  setoid_rewrite list_elem_of_filter. setoid_rewrite elem_of_sorted_keys. destruct kv as [k v]; cbn. split.
  - intros (k' & [= -> ->] & Hr & [v' Hv]). by rewrite Hv.
  - intros [Hr Hv]. exists k. by rewrite Hv.
Qed.

Lemma scan_sorted D start stop limit : StronglySorted kv_lt (scan_spec D start stop limit).
Proof.
  unfold scan_spec. apply sorted_kv_strict.
  - assert (StronglySorted bytes_le (limited limit (filter (in_range start stop) (sorted_keys D)))) as Hs.
    { assert (StronglySorted bytes_le (filter (in_range start stop) (sorted_keys D))) as Hs.
      { pose proof (sorted_keys_sorted D) as Hs. induction Hs as [|k l Hs IH Hf]; [constructor|]. rewrite filter_cons.
        case_decide; [|done]. constructor; [done|]. rewrite Forall_forall in *. intros x [_ Hx]%list_elem_of_filter. auto. }
      unfold limited. case_decide; [done|]. rewrite <-(take_drop (N.to_nat limit)) in Hs. by apply StronglySorted_app_1_l in Hs. }
    induction Hs as [|k l Hs IH Hf]; cbn; constructor; [done|]. rewrite Forall_fmap. exact Hf.
  - rewrite <-list_fmap_compose. cbn.
    assert (NoDup (limited limit (filter (in_range start stop) (sorted_keys D)))) as Hn.
    { pose proof (NoDup_filter (in_range start stop) _ (NoDup_sorted_keys D)) as Hn.
      unfold limited. case_decide; [done|]. rewrite <-(take_drop (N.to_nat limit)) in Hn. by apply NoDup_app in Hn as [? _]. }
    by rewrite (list_fmap_ext _ id), list_fmap_id.
Qed.

(** Strictly sorted lists with the same elements are equal. *)
Lemma sorted_ext {A} (key : A -> bytes) (l1 l2 : list A) :
  StronglySorted (λ a b, bytes_lt (key a) (key b)) l1 -> StronglySorted (λ a b, bytes_lt (key a) (key b)) l2 ->
  (∀ x, x ∈ l1 ↔ x ∈ l2) -> l1 = l2.
Proof.
  intros H1 H2 Hx. assert (∀ l, StronglySorted (λ a b, bytes_lt (key a) (key b)) l -> NoDup l) as Hnd.
  { induction 1 as [|x l Hs IH Hf]; constructor; [|done]. intros Hin. rewrite Forall_forall in Hf.
    by apply Hf, (irreflexivity bytes_lt) in Hin. }
  apply (StronglySorted_perm_unique (λ a b, bytes_lt (key a) (key b))); [..|done|done|].
  - intros x. apply (irreflexivity bytes_lt).
  - intros x y Hxy Hyx. apply (irreflexivity bytes_lt (key x)). by etrans.
  - by apply NoDup_Permutation; auto.
Qed.

(** The primary-key encoding an entry stands for. *)
Definition entry_pk (secondary : bool) (kv : KV) : bytes :=
  if secondary then kv_Value kv else drop 9 (kv_Key kv).

Lemma filter_id {A} (P : A -> Prop) `{∀ x, Decision (P x)} (l : list A) : (∀ x, x ∈ l -> P x) -> filter P l = l.
Proof.
  induction l as [|x l IH]; [done|]. intros Hl. rewrite filter_cons, decide_True by (apply Hl; left).
  f_equal. apply IH. intros y Hy. apply Hl. by right.
Qed.

Section overlay_scan.
Context `{MR : MapRange}.
Variables (def : tableDef) (idx : option indexDef) (tb : tableTxn) (start stop : bytes) (ps : list pendingRow).
Hypothesis Hd : def_ids def.
Hypothesis Hi : index_of def idx.
Hypothesis Hkeys : map_Forall (λ k p, p_pkEnc p = k) (tt_rows tb).
Hypothesis Hps : ps ≡ₚ (map_to_list (tt_rows tb)).*2.

Lemma elem_of_range_rows p : p ∈ (range_map (tt_rows tb)).*2 ↔ p ∈ ps.
Proof. by rewrite Hps, range_perm. Qed.

Lemma buffer_keys l : l ≡ₚ map_to_list (tt_rows tb) -> NoDup (p_pkEnc <$> l.*2).
Proof.
  intros ->. rewrite <-list_fmap_compose.
  rewrite (list_fmap_ext _ fst); [apply NoDup_fst_map_to_list|].
  intros i [k p] Hkp. cbn. apply Hkeys. apply list_elem_of_lookup_2, elem_of_map_to_list in Hkp. done.
Qed.

(** The overlay of a buffer: entries for the puts in range, masks for the deletions
    in range that no put covers. *)
Record overlay_final (ov : scanOverlay) : Prop := {
  of_adds : ∀ kv, kv ∈ ov_adds ov ↔
    ∃ p, p ∈ ps ∧ puts def idx p (kv_Key kv) ∧ inRange start stop (kv_Key kv) = true ∧ kv_Value kv = p_pkEnc p;
  of_masks : ∀ k, k ∈ ov_masks ov ↔
    inRange start stop k = true ∧ (∃ p, p ∈ ps ∧ dels def idx p k) ∧ ∀ p, p ∈ ps -> ¬ puts def idx p k;
  of_sorted : StronglySorted kv_lt (ov_adds ov)
}.

Lemma foldl_unmask (adds : list KV) (m : gset bytes) k :
  k ∈ foldl (λ m kv, m ∖ {[kv_Key kv]}) m adds ↔ k ∈ m ∧ k ∉ kv_Key <$> adds.
Proof.
  revert m. induction adds as [|a adds IH]; intros m; cbn [foldl fmap list_fmap]; [set_solver|].
  rewrite IH, elem_of_difference, elem_of_singleton, elem_of_cons. tauto.
Qed.

Lemma overlay_finish ov :
  overlay_of def idx start stop ps ov ->
  let adds := merge_sort kv_le (ov_adds ov) in
  overlay_final (MkOverlay adds (foldl (λ m kv, m ∖ {[kv_Key kv]}) (ov_masks ov) adds)).
Proof.
  intros [Ha Hm Hg Hn] adds.
  assert (adds ≡ₚ ov_adds ov) as Hp by apply merge_sort_Permutation.
  assert (∀ k, inRange start stop k = true -> k ∉ kv_Key <$> adds ↔ ∀ p, p ∈ ps -> ¬ puts def idx p k) as Hadd.
  { intros k Hk. rewrite Hp. split.
    - intros Hno p Hin Hpu. apply Hno, list_elem_of_fmap. exists (MkKV k (p_pkEnc p)). split; [done|]. apply Ha. eauto.
    - intros Hno (kv & -> & (p & Hin & Hpu & _)%Ha)%list_elem_of_fmap. by eapply Hno. }
  split; cbn [ov_adds ov_masks].
  - intros kv. by rewrite Hp, Ha.
  - intros k. rewrite foldl_unmask. split.
    + intros [Hk Hna]. destruct (Hm k Hk) as [Hr Hde]. split_and!; [done..|by apply Hadd].
    + intros (Hr & (p & Hin & Hde) & Hno). split; [by eapply Hg|by apply Hadd].
  - apply sorted_kv_strict; [apply StronglySorted_merge_sort; apply _|by rewrite Hp].
Qed.

Lemma buildOverlay_ok so :
  rows_scan_ops def ps = Ok so ->
  ∃ ov, buildOverlay start stop def (Some tb) idx = Ok ov ∧
    overlay_final (default (MkOverlay [] ∅) ov).
Proof.
  intros Hso. unfold buildOverlay. case_decide as Hz.
  { exists None. split; [done|]. apply map_size_empty_inv in Hz.
    assert (ps = []) as Enil by (apply Permutation_nil; by rewrite Hps, Hz, map_to_list_empty).
    split; cbn; [..|constructor]; rewrite Enil; [intros kv|intros k]; split; try (by intros ?%not_elem_of_nil); set_solver. }
  destruct (overlay_fold_total def idx Hi start stop snd (range_map (tt_rows tb)) (MkOverlay [] ∅)) as [ov Ef].
  { intros [k p] Hkp. eapply rows_scan_ops_total; [exact Hso|]. rewrite <-elem_of_range_rows. apply list_elem_of_fmap. eauto. }
  rewrite Ef. cbn [mbind outcome_bind].
  assert (overlay_of def idx start stop ps ov) as Ho.
  { eapply (overlay_ext _ _ _ _ (reverse (snd <$> range_map (tt_rows tb)) ++ [])).
    2:{ apply (overlay_fold def idx Hi start stop snd (range_map (tt_rows tb)) [] (MkOverlay [] ∅) ov); [apply overlay_nil| |exact Ef].
        rewrite app_nil_r, <-fmap_reverse. apply buffer_keys. by rewrite reverse_Permutation, range_perm. }
    intros p. rewrite app_nil_r, elem_of_reverse. apply elem_of_range_rows. }
  apply overlay_finish in Ho as Hf. case_decide as He; [|eauto].
  exists None. split; [done|]. destruct He as [E1 E2]. rewrite E1, E2 in Hf.
  exact Hf.
Qed.

Hypothesis Hstop : stop ≠ [].
Hypothesis Hspace : ∀ k, in_range start stop k -> in_space def idx k.

Lemma inRange_spec k : inRange start stop k = true ↔ in_range start stop k.
Proof. unfold inRange, in_range. rewrite andb_true_iff, !bool_decide_eq_true. tauto. Qed.

Definition keyed_pk (kv : KV) : bytes * bytes := (kv_Key kv, entry_pk (is_secondary idx) kv).

Lemma overlay_elem ov so D x :
  overlay_final ov -> rows_scan_ops def ps = Ok so ->
  x ∈ keyed_pk <$> merge_loop (ov_masks ov) (ov_adds ov) (scan_spec D start stop 0) ↔
  x ∈ keyed_pk <$> scan_spec (apply_batch so D) start stop 0.
Proof.
  intros [Ha Hm Hs] Hso. assert (NoDup (p_pkEnc <$> ps)) as Hnd by (rewrite Hps; by apply buffer_keys).
  assert (∀ p, is_secondary idx = true -> entry_value idx p = p) as Hval by (intros p; by destruct idx).
  destruct x as [k pk]. rewrite !list_elem_of_fmap. split.
  - intros (kv & [= -> ->] & Hkv). apply elem_of_merge in Hkv as [Hkv|(Hkv & Hnm & Hna)]; [| |done|apply scan_sorted].
    + apply Ha in Hkv as (p & Hin & Hpu & Hr%inRange_spec & Hv).
      destruct (rows_ops_effect def idx Hd Hi ps so D _ (Hspace _ Hr) Hso Hnd) as (E1 & _ & _).
      exists (MkKV (kv_Key kv) (entry_value idx (p_pkEnc p))). split; [|apply elem_of_scan; cbn; eauto].
      unfold keyed_pk, entry_pk. cbn. destruct (is_secondary idx) eqn:Es; [|done]. by rewrite Hval, Hv.
    + apply elem_of_scan in Hkv as [Hr Hkv]. exists kv. split; [done|]. apply elem_of_scan. split; [done|].
      destruct (rows_ops_effect def idx Hd Hi ps so D _ (Hspace _ Hr) Hso Hnd) as (_ & _ & E3). rewrite E3; [done|].
      assert (∀ p, p ∈ ps -> ¬ puts def idx p (kv_Key kv)) as Hno.
      { intros p Hp Hpu. apply Hna, list_elem_of_fmap. exists (MkKV (kv_Key kv) (p_pkEnc p)). split; [done|].
        apply Ha. exists p. split_and!; [done..|by apply inRange_spec|done]. }
      intros p Hp. split; [by apply Hno|]. intros Hde. apply Hnm, Hm. split_and!; [by apply inRange_spec|eauto|done].
  - intros (kv & [= -> ->] & [Hr Hkv]%elem_of_scan).
    destruct (rows_ops_effect def idx Hd Hi ps so D _ (Hspace _ Hr) Hso Hnd) as (E1 & E2 & E3).
    destruct (decide (Exists (λ p, puts def idx p (kv_Key kv)) ps)) as [(p & Hp & Hpu)%Exists_exists|Hno].
    + exists (MkKV (kv_Key kv) (p_pkEnc p)). split.
      { unfold keyed_pk, entry_pk. cbn. destruct (is_secondary idx) eqn:Es; [|done].
        rewrite (E1 p Hp Hpu), Hval in Hkv by done. by injection Hkv as ->. }
      apply elem_of_merge; [done|apply scan_sorted|]. left. apply Ha. exists p. split_and!; [done..|by apply inRange_spec|done].
    + rewrite Exists_exists in Hno.
      assert (∀ p, p ∈ ps -> ¬ puts def idx p (kv_Key kv) ∧ ¬ dels def idx p (kv_Key kv)) as Hnone.
      { intros p Hp. split; [intros ?; apply Hno; eauto|]. intros Hde. rewrite (E2 p Hp Hde) in Hkv; [done|].
        intros ?. apply Hno. eauto. }
      rewrite E3 in Hkv by done. exists kv. split; [done|].
      apply elem_of_merge; [done|apply scan_sorted|]. right. split_and!; [by apply elem_of_scan| |].
      * intros (_ & (p & Hp & Hde) & _)%Hm. by destruct (Hnone p Hp).
      * intros (kv' & Ek & (p & Hp & Hpu & _)%Ha)%list_elem_of_fmap. rewrite <-Ek in Hpu. by destruct (Hnone p Hp).
Qed.

(** Scanning through the overlay is scanning the keyspace with the buffer applied:
    the same keys, which stand for the same rows. *)
Lemma overlay_scan so D :
  rows_scan_ops def ps = Ok so ->
  ∃ ov, buildOverlay start stop def (Some tb) idx = Ok ov ∧
    keyed_pk <$> mergeOverlay (scan_spec D start stop 0) ov =
    keyed_pk <$> scan_spec (apply_batch so D) start stop 0.
Proof.
  intros Hso. destruct (buildOverlay_ok so Hso) as (ov & Eov & Hf). exists ov. split; [done|].
  assert (mergeOverlay (scan_spec D start stop 0) ov =
    let o := default (MkOverlay [] ∅) ov in merge_loop (ov_masks o) (ov_adds o) (scan_spec D start stop 0)) as ->.
  { destruct ov as [ov|]; [done|]. cbn zeta. rewrite merge_nil_l. symmetry. apply filter_id. set_solver. }
  assert (∀ l, StronglySorted kv_lt l -> StronglySorted (λ a b, bytes_lt a.1 b.1) (keyed_pk <$> l)) as Hsf.
  { induction 1 as [|x l Hs' IH Hx]; cbn; constructor; [done|]. by rewrite Forall_fmap. }
  apply (sorted_ext fst).
  - apply Hsf, merge_sorted; [apply Hf|apply scan_sorted].
  - apply Hsf, scan_sorted.
  - intros x. by apply overlay_elem.
Qed.
End overlay_scan.
