(* ===== verification/SqlStore.v ===== *)
(** The SQL store: [sqlledger/store.go], the commit path of [sqlledger/txn.go] and
    the row reads of [sqlledger/table.go].

    The store binds a ledger and the backend the ledger runs on, so the state holds
    one ledger store, through whose backend the derived keyspaces are reached.  Table
    definitions are shared by reference between the catalog and the table handles of
    the engine and are assigned through those references: [q_defs] is the heap of
    definitions and [q_tables] maps lower-case names to references into it.  The
    methods run under the store's lock and are atomic here. *)

From S2P Require Import Prelude Errors Sha256 Hashing Node Aead Backend Cache Store Snapshot GoNum SqlCodec SqlIndex SqlTxn.

Record catalogMeta := MkMeta { ca_NextTableID : N; ca_NextIndexID : N; ca_Tables : list string }.

(** A [*tableDef]. *)
Abbreviation defptr := nat.

Record SqlStore (B : Type) := MkSql {
  q_led : Store B;
  q_dbName : string;
  q_meta : catalogMeta;
  q_defs : gmap defptr tableDef;
  q_tables : gmap string defptr
}.
Arguments MkSql {B}. Arguments q_led {B}. Arguments q_dbName {B}. Arguments q_meta {B}.
Arguments q_defs {B}. Arguments q_tables {B}.

Section setters.
Context {B : Type}.
Definition set_led (s : Store B) (q : SqlStore B) : SqlStore B :=
  MkSql s (q_dbName q) (q_meta q) (q_defs q) (q_tables q).
Definition set_meta (m : catalogMeta) (q : SqlStore B) : SqlStore B :=
  MkSql (q_led q) (q_dbName q) m (q_defs q) (q_tables q).
Definition set_defs (d : gmap defptr tableDef) (q : SqlStore B) : SqlStore B :=
  MkSql (q_led q) (q_dbName q) (q_meta q) d (q_tables q).
Definition set_qtables (t : gmap string defptr) (q : SqlStore B) : SqlStore B :=
  MkSql (q_led q) (q_dbName q) (q_meta q) (q_defs q) t.
End setters.

Definition set_autoInc (n : N) (d : tableDef) : tableDef :=
  MkTable (td_ID d) (td_Name d) (td_Columns d) (td_PKOrds d) (td_Comment d) (td_Indexes d) n.

Definition ErrTxnConflict : error := RawError "transaction write conflict".

Section sql.
Context `{H : Hasher} `{G : GCM} `{E : Entropy} `{MR : MapRange} {B : Type} `{BK : Backend B}.
Abbreviation M := (M (SqlStore B)).

(** A call of the ledger, and a call of the shared backend. *)
Definition led {A} (m : Errors.M (Store B) A) : M A := λ q,
  let '(o, s) := m (q_led q) in (o, set_led s q).
Definition db {A} (m : Errors.M B A) : M A := led (raw_backend m).

Definition deref (p : defptr) : M tableDef :=
  d ← gets (λ q, q_defs q !! p);
  match d with Some d => mret d | None => panic "nil pointer dereference" end.

(** The first table of the catalog map with that id. *)
Definition tableByID (id : N) : M (option defptr) := gets (λ q,
  snd <$> (list_find (λ np, td_ID <$> q_defs q !! np.2 = Some id) (range_map (q_tables q)) ≫= λ x, Some x.2)).

(** ** The derived keyspace *)

Definition appliedVersion : M N :=
  raw ← db (b_get [scanMetaKey]);
  match raw with
  | None => mret 0%N
  | Some r => mret (if decide (length r = 8) then unbe r else 0%N)
  end.

Definition marker (version : N) : BatchOp := bput [scanMetaKey] (be 8 version).

(** [commit]: one ledger batch, then the derived keyspace and the version marker. *)
Definition sqlCommit (ledOps : list Op) (scanOps : list BatchOp) : M unit :=
  led (PutBatch ledOps);;
  '(_, version) ← led Root;
  db (b_write (scanOps ++ [marker version])).

Fixpoint drop_loop (rounds : nat) : M unit :=
  match rounds with
  | O => panic "reconcile: round bound"
  | S rounds' =>
      kvs ← db (b_scan [scanPrefix] [u8 (bn scanPrefix + 1)] scanChunkSize);
      match kvs with
      | [] => mret tt
      | _ =>
          db (b_write ((λ kv, bdel (kv_Key kv)) <$> kvs));;
          if decide (length kvs < N.to_nat scanChunkSize) then mret tt else drop_loop rounds'
      end
  end.

(** One leaf of the snapshot: the entries of a row of a known table are queued, and
    the queue is written out when it holds a chunk. *)
Definition rebuild_leaf (ops : list BatchOp) (l : Leaf) : M (list BatchOp) :=
  let v := lf_Value l in
  if decide (length v < 9 ∨ head v ≠ Some tagRow) then mret ops
  else
    let id := unbe (take 8 (drop 1 v)) in
    p ← tableByID id;
    match p with
    | None => mret ops
    | Some p =>
        def ← deref p;
        r ← wrapping "rebuild: table %s" (lift (decodeRow (td_Columns def) (drop 9 v)));
        pkEnc ← lift (encodePK def r);
        let ops := ops ++ bput (scanKey id pkEnc) [] :: indexInsertOps def r pkEnc in
        if decide (N.to_nat scanChunkSize ≤ length ops) then db (b_write ops);; mret []
        else mret ops
    end.

Fixpoint rebuild_loop (rounds : nat) (version : N) (startAfter : option Hash) (ops : list BatchOp) :
    M (list BatchOp) :=
  match rounds with
  | O => panic "reconcile: round bound"
  | S rounds' =>
      '(leaves, done) ← led (SnapshotLeaves version startAfter (Z.of_N scanChunkSize));
      ops ← foldM rebuild_leaf ops leaves;
      if done : bool then mret ops
      else
        match last leaves with
        | None => panic "index out of range"
        | Some l => rebuild_loop rounds' version (Some (lf_Path l)) ops
        end
  end.

Definition reconcileScanSpace (rounds : nat) : M unit :=
  '(_, version) ← led Root;
  applied ← appliedVersion;
  if decide (applied = version) then mret tt
  else
    drop_loop rounds;;
    ops ← rebuild_loop rounds version None [];
    db (b_write (ops ++ [marker version])).

(** ** Rows *)

(** The decoded row of a ledger entry; [own] is the check of the table id. *)
Definition row_of_entry (def : tableDef) (own : bool) (raw : option bytes) : outcome row :=
  match raw with
  | None => Err (RawError "table %s: scan entry without a ledger row")
  | Some raw =>
      if decide (length raw < 9 ∨ head raw ≠ Some tagRow ∨
                 own = true ∧ unbe (take 8 (drop 1 raw)) ≠ td_ID def)
      then Err (RawError "table %s: row entry is corrupt")
      else decodeRow (td_Columns def) (drop 9 raw)
  end.

Definition readRow (def : tableDef) (pkEnc : bytes) : M row :=
  raw ← led (Get (rowKey (td_ID def) pkEnc)); lift (row_of_entry def true raw).
Definition readRowLocked (def : tableDef) (pkEnc : bytes) : M row :=
  raw ← led (Get (rowKey (td_ID def) pkEnc)); lift (row_of_entry def false raw).

Definition rowExists (def : tableDef) (pkEnc : bytes) : M bool :=
  raw ← led (Get (rowKey (td_ID def) pkEnc)); mret (bool_decide (is_Some raw)).

Definition readRowTxn (otb : option tableTxn) (def : tableDef) (pkEnc : bytes) : M row :=
  match otb ≫= λ tb, tt_rows tb !! pkEnc with
  | Some p =>
      match p_new p with
      | None => fail (RawError "table %s: scan resolved a row deleted in this transaction")
      | Some r => mret r
      end
  | None => readRow def pkEnc
  end.

Definition sql_version : M N := '(_, v) ← led Root; mret v.

(** ** Committing a transaction *)

Definition validatePendingLocked (def : tableDef) (p : pendingRow) : M unit :=
  raw ← led (Get (rowKey (td_ID def) (p_pkEnc p)));
  match p_old p, raw with
  | None, Some _ =>
      fail (NoteError ErrTxnConflict "table %s: a row this transaction inserts was created concurrently")
  | None, None => mret tt
  | Some _, None =>
      fail (NoteError ErrTxnConflict "table %s: a row this transaction rewrites was deleted concurrently")
  | Some old, Some raw =>
      oldEnc ← lift (encodeRow (td_Columns def) old);
      if decide (length raw < 9 ∨ drop 9 raw ≠ oldEnc) then
        fail (NoteError ErrTxnConflict "table %s: a row this transaction rewrites was changed concurrently")
      else mret tt
  end.

(** A committed entry in conflict with a buffered row stands unless the buffer
    deletes its row or moves it to another value. *)
Definition unique_entry (def : tableDef) (idx : indexDef) (tb : tableTxn) (p : pendingRow) (colsEnc : bytes)
    (kv : KV) : M unit :=
  let conflict := fail (NoteError ErrTxnConflict
    "table %s: unique index %s: a conflicting row was committed concurrently") in
  if decide (kv_Value kv = p_pkEnc p) then mret tt
  else
    match tt_rows tb !! kv_Value kv with
    | None => conflict
    | Some q =>
        match p_new q with
        | None => mret tt
        | Some qnew =>
            '(otherEnc, otherNull) ← lift (encodeIndexCols def idx qnew);
            if decide (otherNull = true ∨ otherEnc ≠ colsEnc) then mret tt else conflict
        end
    end.

Definition unique_row (def : tableDef) (idx : indexDef) (tb : tableTxn) (p : pendingRow) : M unit :=
  match p_new p with
  | None => mret tt
  | Some new =>
      '(colsEnc, hasNull) ← lift (encodeIndexCols def idx new);
      if hasNull : bool then mret tt
      else
        let start := secondarySpace (ix_ID idx) ++ colsEnc in
        match incBytes start with
        | None => fail (RawError "index keyspace overflow")
        | Some stop =>
            kvs ← db (b_scan start stop scanChunkSize);
            foldM (λ _ kv, unique_entry def idx tb p colsEnc kv) tt kvs
        end
  end.

Definition revalidateUniqueLocked (def : tableDef) (tb : tableTxn) : M unit :=
  foldM (λ _ idx,
      if ix_Unique idx : bool then
        foldM (λ _ kp, unique_row def idx tb kp.2) tt (range_map (tt_rows tb))
      else mret tt)
    tt (td_Indexes def).

Abbreviation ops_acc := (list Op * list BatchOp)%type.

Definition commit_row (moved : bool) (def : tableDef) (tb : tableTxn) (acc : ops_acc) (k : bytes) : M ops_acc :=
  match tt_rows tb !! k with
  | None => panic "nil pointer dereference"
  | Some p =>
      if decide (p_old p = None ∧ p_new p = None) then mret acc
      else
        (if moved then validatePendingLocked def p else mret tt);;
        '(lo, so) ← lift (buildRowOps def p);
        mret (acc.1 ++ lo, acc.2 ++ so)
  end.

Definition sorted_ids (tabs : gmap N tableTxn) : list N := merge_sort N.le (range_map tabs).*1.
Definition sorted_rows (tb : tableTxn) : list bytes := merge_sort bytes_le (range_map (tt_rows tb)).*1.

Definition commit_table (moved : bool) (txn : storeTxn) (acc : ops_acc) (id : N) : M ops_acc :=
  match tx_tables txn !! id with
  | None => panic "nil pointer dereference"
  | Some tb =>
      p ← tableByID id;
      match p with
      | None => fail (NoteError ErrTxnConflict "a table in the write-set was dropped")
      | Some p =>
          def ← deref p;
          acc ← foldM (commit_row moved def tb) acc (sorted_rows tb);
          (if moved then revalidateUniqueLocked def tb else mret tt);;
          mret (if hasAutoInc def then (acc.1 ++ [counter_op def], acc.2) else acc)
      end
  end.

Definition commitTxn (txn : storeTxn) : M unit :=
  if decide (size (tx_tables txn) = 0) then mret tt
  else
    '(_, version) ← led Root;
    let moved := bool_decide (version ≠ tx_baseVersion txn) in
    '(ledOps, scanOps) ← foldM (commit_table moved txn) ([], []) (sorted_ids (tx_tables txn));
    match ledOps with
    | [] => mret tt
    | _ => sqlCommit ledOps scanOps
    end.
End sql.
