(* ===== verification/Json.v ===== *)
(** JSON texts, as [encoding/json] writes and reads them for the catalog of the SQL
    layer.

    [print] is the compact form [json.Marshal] gives; strings are escaped as it escapes
    them (HTML characters and the line separators included) and bytes that are not
    UTF-8 become the replacement character.  [parse] accepts the grammar of JSON with
    white space, every escape and numbers in any notation.  Integers are kept, other
    numbers only as a literal: no field of the catalog takes them. *)

From S2P Require Import Prelude Errors GoNum.

Inductive json :=
| JNull
| JBool (b : bool)
| JInt (z : Z)
| JNumber (literal : bytes)
| JStr (s : bytes)
| JArr (l : list json)
| JObj (l : list (bytes * json)).

(** * UTF-8 *)

Definition in_bytes (lo hi : N) (b : byte) : bool := ((lo <=? bn b) && (bn b <=? hi))%N.
Definition tail_byte (b : byte) : bool := in_bytes 0x80 0xBF b.

(** The length of the UTF-8 sequence at the head, when there is one. *)
Definition rune_len (bs : bytes) : option nat :=
  match bs with
  | [] => None
  | b :: bs' =>
      if in_bytes 0 0x7F b then Some 1
      else if in_bytes 0xC2 0xDF b then
        match bs' with b1 :: _ => if tail_byte b1 then Some 2 else None | _ => None end
      else if in_bytes 0xE0 0xEF b then
        match bs' with
        | b1 :: b2 :: _ =>
            if (in_bytes (if decide (bn b = 0xE0)%N then 0xA0 else 0x80) (if decide (bn b = 0xED)%N then 0x9F else 0xBF) b1
                && tail_byte b2)%N then Some 3 else None
        | _ => None
        end
      else if in_bytes 0xF0 0xF4 b then
        match bs' with
        | b1 :: b2 :: b3 :: _ =>
            if (in_bytes (if decide (bn b = 0xF0)%N then 0x90 else 0x80) (if decide (bn b = 0xF4)%N then 0x8F else 0xBF) b1
                && tail_byte b2 && tail_byte b3)%N then Some 4 else None
        | _ => None
        end
      else None
  end.

Definition replacement : bytes := [u8 0xEF; u8 0xBF; u8 0xBD].

(** [utf8.AppendRune]. *)
Definition append_rune (r : N) : bytes :=
  (if r <? 0x80 then [u8 r]
   else if r <? 0x800 then [u8 (0xC0 + r / 64); u8 (0x80 + r mod 64)]
   else if (0xD800 <=? r) && (r <=? 0xDFFF) || (0x10FFFF <? r) then replacement
   else if r <? 0x10000 then [u8 (0xE0 + r / 4096); u8 (0x80 + r / 64 mod 64); u8 (0x80 + r mod 64)]
   else [u8 (0xF0 + r / 262144); u8 (0x80 + r / 4096 mod 64); u8 (0x80 + r / 64 mod 64); u8 (0x80 + r mod 64)])%N.

(** * Printing *)

Definition quote : byte := u8 34.
Definition backslash : byte := u8 92.
Definition hex_digit (n : N) : byte := u8 (if n <? 10 then 48 + n else 87 + n)%N.
Definition unicode_escape (r : N) : bytes :=
  [backslash; u8 117; hex_digit (r / 4096 mod 16); hex_digit (r / 256 mod 16); hex_digit (r / 16 mod 16); hex_digit (r mod 16)]%N.

(** A byte below 0x80. *)
Definition escape_ascii (b : byte) : bytes :=
  let n := bn b in
  if decide (b = quote ∨ b = backslash) then [backslash; b]
  else if decide (n = 8)%N then [backslash; u8 98]
  else if decide (n = 12)%N then [backslash; u8 102]
  else if decide (n = 10)%N then [backslash; u8 110]
  else if decide (n = 13)%N then [backslash; u8 114]
  else if decide (n = 9)%N then [backslash; u8 116]
  else if decide (n < 32 ∨ n = 38 ∨ n = 60 ∨ n = 62)%N then unicode_escape n
  else [b].

(** The line separators U+2028 and U+2029, as bytes. *)
Definition separator (bs : bytes) : option N :=
  if decide (take 3 bs = [u8 0xE2; u8 0x80; u8 0xA8]) then Some 0x2028%N
  else if decide (take 3 bs = [u8 0xE2; u8 0x80; u8 0xA9]) then Some 0x2029%N else None.

(** [keep] bytes of the current rune are still to be copied, [skip] to be passed over. *)
Fixpoint escape_from (keep skip : nat) (bs : bytes) : bytes :=
  match bs with
  | [] => []
  | b :: bs' =>
      match keep, skip with
      | S keep', _ => b :: escape_from keep' 0 bs'
      | O, S skip' => escape_from 0 skip' bs'
      | O, O =>
          if in_bytes 0 0x7F b then escape_ascii b ++ escape_from 0 0 bs'
          else
            match rune_len bs, separator bs with
            | None, _ => unicode_escape 0xFFFD ++ escape_from 0 0 bs'
            | Some n, Some r => unicode_escape r ++ escape_from 0 (n - 1) bs'
            | Some n, None => b :: escape_from (n - 1) 0 bs'
            end
      end
  end.
Definition print_string (s : bytes) : bytes := quote :: escape_from 0 0 s ++ [quote].

Fixpoint print_digits (fuel : nat) (n : N) (acc : bytes) : bytes :=
  match fuel with
  | O => acc
  | S fuel' =>
      let acc := u8 (48 + n mod 10)%N :: acc in
      if decide (n / 10 = 0)%N then acc else print_digits fuel' (n / 10) acc
  end.
Definition print_nat (n : N) : bytes := print_digits (S (N.to_nat (N.log2 n))) n [].
Definition print_int (z : Z) : bytes := if decide (z < 0)%Z then u8 45 :: print_nat (Z.abs_N z) else print_nat (Z.abs_N z).

Definition comma : byte := u8 44.
Fixpoint join (l : list bytes) : bytes :=
  match l with [] => [] | [x] => x | x :: l' => x ++ comma :: join l' end.

Fixpoint print (j : json) : bytes :=
  match j with
  | JNull => str "null"
  | JBool b => str (if b then "true" else "false")
  | JInt z => print_int z
  | JNumber lit => lit
  | JStr s => print_string s
  | JArr l => u8 91 :: join (print <$> l) ++ [u8 93]
  | JObj l => u8 123 :: join ((λ kv, print_string kv.1 ++ u8 58 :: print kv.2) <$> l) ++ [u8 125]
  end.

(** * Parsing *)

Definition is_space (b : byte) : bool := bool_decide (bn b ∈ [32; 9; 10; 13]%N).
Fixpoint skip_space (bs : bytes) : bytes :=
  match bs with b :: bs' => if is_space b then skip_space bs' else bs | [] => [] end.

Definition hex_value (b : byte) : option N :=
  if in_bytes 48 57 b then Some (bn b - 48)%N
  else if in_bytes 97 102 b then Some (bn b - 87)%N
  else if in_bytes 65 70 b then Some (bn b - 55)%N else None.
Definition hex4 (bs : bytes) : option (N * bytes) :=
  match bs with
  | a :: b :: c :: d :: r =>
      a ← hex_value a; b ← hex_value b; c ← hex_value c; d ← hex_value d;
      Some (((a * 16 + b) * 16 + c) * 16 + d, r)%N
  | _ => None
  end.

Definition surrogate (lo hi r : N) : bool := ((lo <=? r) && (r <=? hi))%N.

(** The rune of an escape [\uXXXX], taking a second one that completes a surrogate pair. *)
Definition escaped_rune (r : N) (bs : bytes) : bytes * bytes :=
  if surrogate 0xD800 0xDFFF r then
    let second := match bs with
                  | x :: u :: bs' => if decide (x = backslash ∧ u = u8 117) then hex4 bs' else None
                  | _ => None
                  end in
    match second with
    | Some (r2, bs') =>
        if (surrogate 0xD800 0xDBFF r && surrogate 0xDC00 0xDFFF r2)%N
        then (append_rune ((r - 0xD800) * 1024 + (r2 - 0xDC00) + 0x10000), bs')%N
        else (replacement, bs)
    | None => (replacement, bs)
    end
  else (append_rune r, bs).

Definition short_escape (c : byte) : option byte :=
  if decide (c = quote ∨ c = backslash ∨ c = u8 47) then Some c
  else if decide (c = u8 98) then Some (u8 8)
  else if decide (c = u8 102) then Some (u8 12)
  else if decide (c = u8 110) then Some (u8 10)
  else if decide (c = u8 114) then Some (u8 13)
  else if decide (c = u8 116) then Some (u8 9) else None.

(** A string after its opening quote, and what follows the closing one. *)
Fixpoint unquote (fuel : nat) (bs : bytes) : option (bytes * bytes) :=
  match fuel, bs with
  | S fuel', b :: bs' =>
      let push x r := '(s, r) ← unquote fuel' r; Some (x ++ s, r) in
      if decide (b = quote) then Some ([], bs')
      else if decide (b = backslash) then
        match bs' with
        | c :: r =>
            match short_escape c with
            | Some x => push [x] r
            | None =>
                if decide (c = u8 117) then
                  '(v, r) ← hex4 r; let '(x, r) := escaped_rune v r in push x r
                else None
            end
        | [] => None
        end
      else if decide (bn b < 32)%N then None
      else
        match rune_len bs with
        | Some n => push (take n bs) (drop n bs)
        | None => push replacement bs'
        end
  | _, _ => None
  end.

Definition is_digit (b : byte) : bool := in_bytes 48 57 b.
Fixpoint digits (bs : bytes) : bytes * bytes :=
  match bs with
  | b :: bs' => if is_digit b then let '(d, r) := digits bs' in (b :: d, r) else ([], bs)
  | [] => ([], [])
  end.
Definition decimal (ds : bytes) : N := foldl (λ a b, (a * 10 + (bn b - 48))%N) 0%N ds.

(** The fraction and the exponent of a number, empty when there is none. *)
Definition fraction (bs : bytes) : option (bytes * bytes) :=
  match bs with
  | b :: bs' =>
      if decide (b = u8 46) then
        let '(d, r) := digits bs' in if decide (d = []) then None else Some (b :: d, r)
      else Some ([], bs)
  | [] => Some ([], [])
  end.
Definition exponent (bs : bytes) : option (bytes * bytes) :=
  match bs with
  | b :: bs' =>
      if decide (b = u8 101 ∨ b = u8 69) then
        let '(sign, r) := match bs' with
                          | c :: r => if decide (c = u8 43 ∨ c = u8 45) then ([c], r) else ([], bs')
                          | [] => ([], [])
                          end in
        let '(d, r) := digits r in if decide (d = []) then None else Some (b :: sign ++ d, r)
      else Some ([], bs)
  | [] => Some ([], [])
  end.

(** A number, its sign already read. *)
Definition parse_number (neg : bool) (bs : bytes) : option (json * bytes) :=
  let '(ds, r) := digits bs in
  if decide (ds = [] ∨ (1 < length ds ∧ head ds = Some (u8 48))) then None
  else
    '(f, r) ← fraction r;
    '(e, r) ← exponent r;
    let sign := if neg then [u8 45] else [] in
    match f ++ e with
    | [] => Some (JInt (if neg then - Z.of_N (decimal ds) else Z.of_N (decimal ds)), r)
    | fe => Some (JNumber (sign ++ ds ++ fe), r)
    end.

(** A literal name. *)
Definition parse_word (w : bytes) (j : json) (bs : bytes) : option (json * bytes) :=
  if decide (take (length w) bs = w) then Some (j, drop (length w) bs) else None.

(** Items separated by commas up to [close]. *)
Fixpoint parse_items {A} (item : bytes -> option (A * bytes)) (close : byte) (fuel : nat) (bs : bytes) :
    option (list A * bytes) :=
  match fuel with
  | O => None
  | S fuel' =>
      '(x, r) ← item bs;
      match skip_space r with
      | c :: r =>
          if decide (c = comma) then '(xs, r) ← parse_items item close fuel' r; Some (x :: xs, r)
          else if decide (c = close) then Some ([x], r) else None
      | [] => None
      end
  end.
Definition parse_group {A} (item : bytes -> option (A * bytes)) (close : byte) (fuel : nat) (bs : bytes) :
    option (list A * bytes) :=
  match skip_space bs with
  | c :: r => if decide (c = close) then Some ([], r) else parse_items item close fuel bs
  | [] => None
  end.

Definition parse_member (value : bytes -> option (json * bytes)) (bs : bytes) : option ((bytes * json) * bytes) :=
  match skip_space bs with
  | q :: r =>
      if decide (q = quote) then
        '(k, r) ← unquote (length r) r;
        match skip_space r with
        | c :: r => if decide (c = u8 58) then '(v, r) ← value r; Some ((k, v), r) else None
        | [] => None
        end
      else None
  | [] => None
  end.

(** [fuel] bounds the nesting. *)
Fixpoint parse_value (fuel : nat) (bs : bytes) : option (json * bytes) :=
  match fuel with
  | O => None
  | S fuel' =>
      let bs := skip_space bs in
      match bs with
      | [] => None
      | b :: r =>
          if decide (b = u8 123) then
            '(l, r) ← parse_group (parse_member (parse_value fuel')) (u8 125) (length r) r; Some (JObj l, r)
          else if decide (b = u8 91) then
            '(l, r) ← parse_group (parse_value fuel') (u8 93) (length r) r; Some (JArr l, r)
          else if decide (b = quote) then '(s, r) ← unquote (length r) r; Some (JStr s, r)
          else if decide (b = u8 45) then parse_number true r
          else if is_digit b then parse_number false bs
          else if decide (b = u8 116) then parse_word (str "true") (JBool true) bs
          else if decide (b = u8 102) then parse_word (str "false") (JBool false) bs
          else if decide (b = u8 110) then parse_word (str "null") JNull bs
          else None
      end
  end.

Definition parse (bs : bytes) : option json :=
  '(j, r) ← parse_value (length bs) bs;
  if decide (skip_space r = []) then Some j else None.

(** * The round trip *)

Definition ascii_bytes (s : bytes) : Prop := Forall (λ b, (bn b < 128)%N) s.
#[export] Instance ascii_bytes_dec s : Decision (ascii_bytes s).
Proof. unfold ascii_bytes. apply _. Defined.

(** Texts of integers and ASCII strings. *)
Fixpoint plain (j : json) : bool :=
  match j with
  | JNull | JBool _ | JInt _ => true
  | JNumber _ => false
  | JStr s => bool_decide (ascii_bytes s)
  | JArr l => forallb plain l
  | JObj l => forallb (λ kv, bool_decide (ascii_bytes kv.1) && plain kv.2) l
  end.

Section json_ind.
Variable P : json -> Prop.
Hypothesis Pnull : P JNull.
Hypothesis Pbool : ∀ b, P (JBool b).
Hypothesis Pint : ∀ z, P (JInt z).
Hypothesis Pnumber : ∀ lit, P (JNumber lit).
Hypothesis Pstr : ∀ s, P (JStr s).
Hypothesis Parr : ∀ l, Forall P l -> P (JArr l).
Hypothesis Pobj : ∀ l, Forall (λ kv, P kv.2) l -> P (JObj l).

Fixpoint json_ind' (j : json) : P j :=
  match j with
  | JNull => Pnull
  | JBool b => Pbool b
  | JInt z => Pint z
  | JNumber lit => Pnumber lit
  | JStr s => Pstr s
  | JArr l => Parr l ((fix go l := match l return Forall P l with [] => Forall_nil_2 _ | x :: l' => Forall_cons_2 _ _ _ (json_ind' x) (go l') end) l)
  | JObj l => Pobj l ((fix go l := match l return Forall (λ kv, P kv.2) l with
                                   | [] => Forall_nil_2 _
                                   | kv :: l' => Forall_cons_2 _ kv _ (json_ind' kv.2) (go l')
                                   end) l)
  end.
End json_ind.

(** ** Strings *)

Lemma unquote_ascii b fuel r :
  (bn b < 128)%N -> unquote (S fuel) (escape_ascii b ++ r) = ('(s, r) ← unquote fuel r; Some (b :: s, r)).
Proof. intros Hb. destruct b; first [reflexivity | exfalso; vm_compute in Hb; discriminate Hb]. Qed.

Lemma escape_ascii_cons b bs : (bn b < 128)%N -> escape_from 0 0 (b :: bs) = escape_ascii b ++ escape_from 0 0 bs.
Proof.
  intros Hb. cbn [escape_from]. assert (in_bytes 0 0x7F b = true) as ->; [|done].
  unfold in_bytes. apply andb_true_iff. split; apply N.leb_le; lia.
Qed.

Lemma escape_ascii_length b : 1 ≤ length (escape_ascii b).
Proof. unfold escape_ascii. repeat case_decide; cbn; lia. Qed.

Lemma unquote_string s rest fuel :
  ascii_bytes s -> length (escape_from 0 0 s ++ quote :: rest) ≤ fuel ->
  unquote fuel (escape_from 0 0 s ++ quote :: rest) = Some (s, rest).
Proof.
  intros Hs. revert fuel. induction Hs as [|b s Hb Hs IH]; intros fuel Hf.
  { destruct fuel as [|fuel]; [cbn in Hf; lia|done]. }
  rewrite escape_ascii_cons in * by done. rewrite <-app_assoc in *. pose proof (escape_ascii_length b) as Hl.
  rewrite length_app in Hf. destruct fuel as [|fuel]; [lia|]. rewrite unquote_ascii by done. by rewrite IH by lia.
Qed.

(** ** Numbers *)

Definition digit_of (n : N) : byte := u8 (48 + n mod 10).

Lemma bn_digit n : bn (digit_of n) = (48 + n mod 10)%N.
Proof. unfold digit_of. rewrite bn_u8. pose proof (N.mod_lt n 10 ltac:(done)) as Hm.
  set (m := (n mod 10)%N) in *. clearbody m. rewrite N.mod_small; lia. Qed.

Lemma digit_of_digit n : is_digit (digit_of n) = true.
Proof.
  unfold is_digit, in_bytes. rewrite bn_digit. pose proof (N.mod_lt n 10 ltac:(done)) as Hm.
  set (m := (n mod 10)%N) in *. clearbody m. apply andb_true_iff. split; apply N.leb_le; lia.
Qed.

Lemma decimal_snoc ds b : decimal (ds ++ [b]) = (decimal ds * 10 + (bn b - 48))%N.
Proof. unfold decimal. by rewrite foldl_app. Qed.

Lemma print_digits_ok fuel n acc :
  (n < 10 ^ N.of_nat fuel)%N -> fuel ≠ 0 ->
  ∃ ds, print_digits fuel n acc = ds ++ acc ∧ ds ≠ [] ∧ Forall (λ b, is_digit b = true) ds ∧ decimal ds = n ∧
    (head ds = Some (u8 48) -> n = 0%N ∧ length ds = 1).
Proof.
  revert n acc. induction fuel as [|fuel IH]; intros n acc Hn Hz; [done|]. cbn [print_digits]. fold (digit_of n).
  assert (decimal [digit_of n] = n mod 10)%N as Hd.
  { unfold decimal. cbn [foldl]. rewrite bn_digit. generalize (n mod 10)%N. intros m. lia. }
  case_decide as Hq.
  - exists [digit_of n]. split_and!; [done|done|by repeat constructor; apply digit_of_digit|..].
    + rewrite Hd. rewrite (N.div_mod n 10) at 2 by done. by rewrite Hq.
    + intros [= Heq]. apply (f_equal bn) in Heq. rewrite bn_digit, bn_u8 in Heq. change (48 mod 256)%N with 48%N in Heq.
      assert (n mod 10 = 0)%N as Hm by (set (m := (n mod 10)%N) in *; clearbody m; lia).
      split; [|done]. by rewrite (N.div_mod n 10), Hq, Hm by done.
  - destruct fuel as [|fuel']; [rewrite N.pow_1_r in Hn; by rewrite N.div_small in Hq|].
    destruct (IH (n / 10)%N (digit_of n :: acc)) as (ds & -> & Hne & Hds & Hdec & Hhead); [|done|].
    { apply N.Div0.div_lt_upper_bound. replace (10 * 10 ^ N.of_nat (S fuel'))%N with (10 ^ N.of_nat (S (S fuel')))%N; [done|].
      rewrite (Nat2N.inj_succ (S fuel')), N.pow_succ_r'. done. }
    exists (ds ++ [digit_of n]). split_and!.
    + by rewrite <-app_assoc.
    + by destruct ds.
    + apply Forall_app. split; [done|]. repeat constructor. apply digit_of_digit.
    + rewrite decimal_snoc, Hdec, bn_digit. rewrite (N.div_mod n 10) at 3 by done.
      generalize (n mod 10)%N (n / 10)%N. intros m q. lia.
    + destruct ds as [|d ds]; [done|]. intros Hh. by destruct (Hhead Hh) as [Hn0 _].
Qed.

Lemma print_nat_ok n :
  print_nat n ≠ [] ∧ Forall (λ b, is_digit b = true) (print_nat n) ∧ decimal (print_nat n) = n ∧
  (head (print_nat n) = Some (u8 48) -> length (print_nat n) = 1).
Proof.
  unfold print_nat. destruct (print_digits_ok (S (N.to_nat (N.log2 n))) n []) as (ds & -> & Hne & Hds & Hdec & Hh); [|done|].
  - rewrite Nat2N.inj_succ, N2Nat.id. destruct (decide (n = 0)%N) as [->|Hn]; [done|].
    pose proof (N.log2_spec n ltac:(lia)) as [_ Hlt]. eapply N.lt_le_trans; [exact Hlt|]. apply N.pow_le_mono_l. lia.
  - rewrite app_nil_r. split_and!; try done. intros Hx. by destruct (Hh Hx).
Qed.

(** What follows a number in a text. *)
Definition ends_number (rest : bytes) : Prop :=
  match rest with
  | [] => True
  | b :: _ => is_digit b = false ∧ b ≠ u8 46 ∧ b ≠ u8 101 ∧ b ≠ u8 69
  end.

Lemma digits_app ds rest : Forall (λ b, is_digit b = true) ds -> ends_number rest -> digits (ds ++ rest) = (ds, rest).
Proof.
  intros Hds Hr. induction Hds as [|b ds Hb Hds IH]; cbn [app digits].
  - destruct rest as [|b rest]; [done|]. cbn. by destruct Hr as [-> _].
  - by rewrite Hb, IH.
Qed.

Lemma number_ends rest : ends_number rest -> fraction rest = Some ([], rest) ∧ exponent rest = Some ([], rest).
Proof.
  destruct rest as [|b rest]; [done|]. intros (_ & N1 & N2 & N3). cbn. rewrite !decide_False by tauto. done.
Qed.

Lemma parse_number_ok neg n rest :
  ends_number rest -> parse_number neg (print_nat n ++ rest) = Some (JInt (if neg then - Z.of_N n else Z.of_N n), rest).
Proof.
  intros Hr. destruct (print_nat_ok n) as (Hne & Hds & Hdec & Hh). unfold parse_number. rewrite digits_app by done.
  rewrite decide_False by (intros [?|[Hl Hx]]; [done|]; specialize (Hh Hx); lia).
  destruct (number_ends _ Hr) as [E1 E2].
  rewrite E1. cbn [mbind option_bind]. rewrite E2. cbn [mbind option_bind app]. by rewrite Hdec.
Qed.

(** ** Values *)

(** The first byte of a value: no white space and no closing bracket. *)
Definition opens (bs : bytes) : Prop :=
  ∃ b r, bs = b :: r ∧ is_space b = false ∧ b ≠ u8 93 ∧ b ≠ u8 125.

Lemma opens_skip bs rest : opens bs -> skip_space (bs ++ rest) = bs ++ rest.
Proof. intros (b & r & -> & Hs & _). cbn. by rewrite Hs. Qed.

Lemma digit_opens b r : is_digit b = true -> opens (b :: r).
Proof.
  intros Hd. exists b, r. split; [done|].
  destruct b; first [by split_and!; [reflexivity|discriminate|discriminate] | vm_compute in Hd; discriminate Hd].
Qed.

Lemma print_opens j : plain j = true -> opens (print j).
Proof.
  destruct j as [|[]|z|lit|s|l|l]; intros Hp; try done; try (by eexists _, _; split_and!; [reflexivity|..]).
  cbn [print]. unfold print_int. case_decide; [by eexists _, _; split_and!; [reflexivity|..]|].
  destruct (print_nat_ok (Z.abs_N z)) as (Hne & Hds & _). destruct (print_nat (Z.abs_N z)) as [|b ds]; [done|].
  apply Forall_cons in Hds as [Hb _]. by apply digit_opens.
Qed.

Lemma join_cons x y l : join (x :: y :: l) = x ++ comma :: join (y :: l).
Proof. done. Qed.

Lemma join_length (l : list bytes) : Forall (λ x, x ≠ []) l -> length l ≤ length (join l).
Proof.
  induction 1 as [|x l Hx Hl IH]; [done|]. assert (1 ≤ length x) by (destruct x; [done|cbn; lia]).
  destruct l as [|y l]; [cbn; lia|]. rewrite join_cons, length_app. cbn [length] in *. lia.
Qed.

Lemma join_elem (l : list bytes) x : x ∈ l -> length x ≤ length (join l).
Proof.
  induction l as [|y l IH]; [by intros ?%not_elem_of_nil|]. intros [->|Hx]%elem_of_cons.
  - destruct l; [done|]. rewrite join_cons, length_app. lia.
  - specialize (IH Hx). destruct l; [by apply not_elem_of_nil in Hx|]. rewrite join_cons, length_app. cbn [length]. lia.
Qed.

Section items.
Context {A : Type} (item : bytes -> option (A * bytes)) (pr : A -> bytes) (close : byte).
Hypothesis Hclose : close = u8 93 ∨ close = u8 125.

Lemma parse_items_ok l fuel rest :
  l ≠ [] -> length l ≤ fuel -> (∀ x r, x ∈ l -> ends_number r -> item (pr x ++ r) = Some (x, r)) ->
  parse_items item close fuel (join (pr <$> l) ++ close :: rest) = Some (l, rest).
Proof.
  revert fuel. induction l as [|x l IH]; intros fuel Hne Hf Hitem; [done|]. destruct fuel as [|fuel]; [cbn in Hf; lia|].
  cbn [parse_items]. destruct l as [|y l].
  - cbn [fmap list_fmap join]. rewrite Hitem; [|left|by destruct Hclose as [-> | ->]]. cbn [mbind option_bind].
    destruct Hclose as [-> | ->]; reflexivity.
  - cbn [fmap list_fmap]. rewrite join_cons, <-app_assoc, Hitem; [|left|done]. cbn [mbind option_bind app].
    change (skip_space (comma :: ?t)) with (comma :: t). cbn match. rewrite decide_True by done.
    specialize (IH fuel). cbn [fmap list_fmap] in IH. rewrite IH; [done|done|cbn in *; lia|]. intros z r Hz. apply Hitem. by right.
Qed.

Lemma parse_group_ok l fuel rest :
  length l ≤ fuel -> (∀ x r, x ∈ l -> ends_number r -> item (pr x ++ r) = Some (x, r)) -> (∀ x, x ∈ l -> opens (pr x)) ->
  parse_group item close fuel (join (pr <$> l) ++ close :: rest) = Some (l, rest).
Proof.
  intros Hf Hitem Hop. unfold parse_group. destruct l as [|x l].
  { cbn. destruct Hclose as [-> | ->]; reflexivity. }
  assert (opens (join (pr <$> x :: l))) as Ho.
  { destruct (Hop x ltac:(left)) as (b & r & Eb & Hb). destruct l as [|y l]; cbn [fmap list_fmap join]; [by exists b, r|].
    rewrite Eb. exists b. eexists. by split. }
  rewrite opens_skip by done. destruct Ho as (b & r & Eb & _ & N1 & N2). rewrite Eb at 1. cbn [app].
  rewrite decide_False by (destruct Hclose as [-> | ->]; done). by apply parse_items_ok.
Qed.
End items.

Lemma parse_member_ok value k j rest :
  ascii_bytes k -> value (print j ++ rest) = Some (j, rest) ->
  parse_member value ((print_string k ++ u8 58 :: print j) ++ rest) = Some ((k, j), rest).
Proof.
  intros Hk Hv. unfold parse_member, print_string. rewrite <-!app_assoc. cbn [app skip_space].
  change (is_space quote) with false. cbn match. rewrite decide_True by done. rewrite <-app_assoc. cbn [app].
  rewrite unquote_string by (done || reflexivity). cbn [mbind option_bind].
  change (skip_space (u8 58 :: ?t)) with (u8 58 :: t). cbn match. rewrite decide_True by done. by rewrite Hv.
Qed.

Lemma parse_print j : plain j = true -> ∀ fuel rest, length (print j) ≤ fuel -> ends_number rest ->
  parse_value fuel (print j ++ rest) = Some (j, rest).
Proof.
  induction j as [| | | | |l IH|l IH] using json_ind'; intros Hp fuel rest Hf Hr;
    (destruct fuel as [|fuel]; [destruct (print_opens _ Hp) as (? & ? & Eb & _); rewrite Eb in Hf; cbn in Hf; lia|]);
    cbn [parse_value]; rewrite opens_skip by (by apply print_opens).
  - reflexivity.
  - destruct b; reflexivity.
  - cbn [print]. unfold print_int. destruct (decide (z < 0)%Z) as [Hz|Hz]; cbn [app].
    + cbn match. rewrite !decide_False, decide_True, parse_number_ok by done. do 3 f_equal. lia.
    + destruct (print_nat_ok (Z.abs_N z)) as (Hne & Hds & _). destruct (print_nat (Z.abs_N z)) as [|b ds] eqn:En; [done|].
      apply Forall_cons in Hds as [Hb _]. cbn [app]. cbn match. rewrite Hb. change (b :: ds ++ rest) with ((b :: ds) ++ rest). rewrite <-En.
      assert (b ≠ u8 123 ∧ b ≠ u8 91 ∧ b ≠ quote ∧ b ≠ u8 45) as (N1 & N2 & N3 & N4).
      { clear -Hb. destruct b; first [by split_and!; discriminate | vm_compute in Hb; discriminate Hb]. }
      rewrite !decide_False, parse_number_ok by done. do 3 f_equal. lia.
  - done.
  - cbn [print]. unfold print_string. cbn [app]. cbn match. rewrite !decide_False, decide_True by done. rewrite <-app_assoc. cbn [app].
    apply bool_decide_eq_true in Hp. by rewrite unquote_string.
  - cbn [print app plain] in *. cbn match. rewrite decide_False, decide_True by done. rewrite <-app_assoc. cbn [app].
    rewrite Forall_forall in IH. rewrite forallb_forall in Hp. setoid_rewrite <-list_elem_of_In in Hp. cbn [length] in Hf. rewrite length_app in Hf.
    rewrite (parse_group_ok (parse_value fuel) print (u8 93)); [done|by left|..].
    + rewrite length_app. pose proof (join_length (print <$> l)) as Hl. rewrite length_fmap in Hl. cbn. etrans; [apply Hl|lia].
      apply Forall_fmap, Forall_forall. intros x Hx. destruct (print_opens x) as (? & ? & Eb & _); [by apply Hp|]. cbn. by rewrite Eb.
    + intros x r Hx Hr'. apply IH; [done|by apply Hp| |done].
      pose proof (join_elem (print <$> l) (print x)) as Hl. etrans; [apply Hl; by apply list_elem_of_fmap_2|]. cbn in Hf. lia.
    + intros x Hx. by apply print_opens, Hp.
  - cbn [print app plain] in *. cbn match. rewrite decide_True by done. rewrite <-app_assoc. cbn [app].
    rewrite Forall_forall in IH. rewrite forallb_forall in Hp. setoid_rewrite <-list_elem_of_In in Hp. cbn [length] in Hf. rewrite length_app in Hf.
    set (pr := λ kv : bytes * json, print_string kv.1 ++ u8 58 :: print kv.2) in *.
    assert (∀ kv, kv ∈ l -> ascii_bytes kv.1 ∧ plain kv.2 = true) as Hkv.
    { intros kv Hin. specialize (Hp kv Hin). apply andb_true_iff in Hp as [Hk%bool_decide_eq_true ?]. done. }
    rewrite (parse_group_ok (parse_member (parse_value fuel)) pr (u8 125)); [done|by right|..].
    + rewrite length_app. pose proof (join_length (pr <$> l)) as Hl. rewrite length_fmap in Hl. cbn. etrans; [apply Hl|lia].
      by apply Forall_fmap, Forall_forall.
    + intros [k x] r Hx Hr'. destruct (Hkv _ Hx) as [Hk Hpx]. apply parse_member_ok; [done|]. apply (IH (k, x)); [done..| |done].
      pose proof (join_elem (pr <$> l) (pr (k, x)) (list_elem_of_fmap_2 _ _ _ Hx)) as Hl.
      assert (length (pr (k, x)) = length (print_string k) + S (length (print x))) as El by (unfold pr; cbn [fst snd]; by rewrite length_app).
      cbn in Hf |- *. lia.
    + intros [k x] Hx. by eexists _, _; split_and!; [reflexivity|..].
Qed.

(** What [json.Marshal] writes [json.Unmarshal] reads back. *)
Lemma parse_print_all j : plain j = true -> parse (print j) = Some j.
Proof.
  intros Hp. unfold parse. pose proof (parse_print j Hp (length (print j)) [] ltac:(done) ltac:(done)) as E0.
  rewrite app_nil_r in E0. by rewrite E0.
Qed.
