(* ===== verification/SqlCatalog.v ===== *)
(** The persisted catalog: the JSON forms of [sqlledger/store.go], and opening a
    database.

    The engine numbers its column types; the class [QueryTypes] stands for that
    numbering, which the catalog stores.  Of an object's members that name a field more
    than once the last counts here.  Column ordinals are natural numbers: a negative one
    is refused here, where the code would fail on its first use. *)

From S2P Require Import Prelude Errors Sha256 Hashing Node Aead Backend Cache Store Snapshot GoNum SqlCodec SqlIndex SqlTxn SqlStore Json.

Class QueryTypes := {
  qcode : qtype -> Z;
  qtype_of : Z -> qtype;
  qcode_inv : ∀ t, is_ok (kindOfQType t) = true -> qtype_of (qcode t) = t ∧ in_int 32 (qcode t)
}.

(** * Encoding *)

Definition unstr (s : bytes) : string := String.string_of_list_byte s.
Definition jstring (s : string) : json := JStr (str s).
Definition jnat (n : nat) : json := JInt (Z.of_nat n).

(** A nil slice is [null]; the slices of the catalog are nil when they are empty. *)
Definition jlist {A} (f : A -> json) (l : list A) : json := match l with [] => JNull | _ => JArr (f <$> l) end.
(** A field with [omitempty]. *)
Definition jopt (empty : bool) (name : string) (j : json) : list (bytes * json) := if empty then [] else [(str name, j)].

Section encode.
Context `{QT : QueryTypes}.

Definition enc_meta (m : catalogMeta) : json :=
  JObj [(str "next_table_id", JInt (Z.of_N (ca_NextTableID m))); (str "next_index_id", JInt (Z.of_N (ca_NextIndexID m)));
        (str "tables", jlist jstring (ca_Tables m))].

Definition enc_col (c : colDef) : json :=
  JObj ([(str "name", jstring (cd_Name c)); (str "qtype", JInt (qcode (cd_QType c)))] ++
        jopt (bool_decide (cd_Length c = 0%Z)) "length" (JInt (cd_Length c)) ++
        jopt (bool_decide (cd_Precision c = 0%Z)) "precision" (JInt (cd_Precision c)) ++
        [(str "nullable", JBool (cd_Nullable c))] ++
        jopt (negb (cd_AutoInc c)) "auto_inc" (JBool (cd_AutoInc c))).

Definition enc_index (ix : indexDef) : json :=
  JObj [(str "id", JInt (Z.of_N (ix_ID ix))); (str "name", jstring (ix_Name ix)); (str "unique", JBool (ix_Unique ix));
        (str "col_ordinals", jlist jnat (ix_ColOrds ix))].

Definition enc_table (d : tableDef) : json :=
  JObj ([(str "id", JInt (Z.of_N (td_ID d))); (str "name", jstring (td_Name d)); (str "columns", jlist enc_col (td_Columns d));
         (str "pk_ordinals", jlist jnat (td_PKOrds d))] ++
        jopt (bool_decide (td_Comment d = "")) "comment" (jstring (td_Comment d)) ++
        jopt (bool_decide (td_Indexes d = [])) "indexes" (jlist enc_index (td_Indexes d))).

Definition marshalTagged (tag : byte) (j : json) : bytes := tag :: print j.
End encode.

(** * Decoding *)

Definition bad_json : error := RawError "json: cannot unmarshal".

Definition dec_uint64 (j : json) : outcome N :=
  match j with
  | JNull => Ok 0%N
  | JInt z => if decide (0 ≤ z < 2 ^ 64)%Z then Ok (Z.to_N z) else Err bad_json
  | _ => Err bad_json
  end.
Definition dec_int (w : Z) (j : json) : outcome Z :=
  match j with
  | JNull => Ok 0%Z
  | JInt z => if decide (in_int w z) then Ok z else Err bad_json
  | _ => Err bad_json
  end.
Definition dec_ord (j : json) : outcome nat :=
  z ← dec_int 64 j; if decide (0 ≤ z)%Z then Ok (Z.to_nat z) else Err bad_json.
Definition dec_bool (j : json) : outcome bool :=
  match j with JNull => Ok false | JBool b => Ok b | _ => Err bad_json end.
Definition dec_string (j : json) : outcome string :=
  match j with JNull => Ok "" | JStr s => Ok (unstr s) | _ => Err bad_json end.

Fixpoint mapO {A B} (f : A -> outcome B) (l : list A) : outcome (list B) :=
  match l with [] => Ok [] | x :: l' => y ← f x; ys ← mapO f l'; Ok (y :: ys) end.
Definition dec_list {A} (f : json -> outcome A) (j : json) : outcome (list A) :=
  match j with JNull => Ok [] | JArr l => mapO f l | _ => Err bad_json end.
Definition members (j : json) : outcome (list (bytes * json)) :=
  match j with JNull => Ok [] | JObj l => Ok l | _ => Err bad_json end.

Section decode.
Context `{CF : CaseFold} `{QT : QueryTypes}.

(** The field a member is for: the one of its name, else one that differs in case. *)
Definition field_for (names : list string) (key : string) : option string :=
  if decide (key ∈ names) then Some key else snd <$> list_find (λ n, EqualFold key n = true) names.
Definition is_null (j : json) : bool := match j with JNull => true | _ => false end.
Definition get_field (names : list string) (name : string) (l : list (bytes * json)) : json :=
  default JNull (last (snd <$> filter (λ kv, field_for names (unstr kv.1) = Some name ∧ is_null kv.2 = false) l)).

Definition meta_fields : list string := ["next_table_id"; "next_index_id"; "tables"].
Definition dec_meta (j : json) : outcome catalogMeta :=
  l ← members j;
  let f name := get_field meta_fields name l in
  t ← dec_uint64 (f "next_table_id"); i ← dec_uint64 (f "next_index_id"); ns ← dec_list dec_string (f "tables");
  Ok (MkMeta t i ns).

Definition col_fields : list string := ["name"; "qtype"; "length"; "precision"; "nullable"; "auto_inc"].
Definition dec_col (j : json) : outcome colDef :=
  l ← members j;
  let f name := get_field col_fields name l in
  n ← dec_string (f "name"); t ← dec_int 32 (f "qtype"); len ← dec_int 64 (f "length"); p ← dec_int 64 (f "precision");
  nl ← dec_bool (f "nullable"); a ← dec_bool (f "auto_inc");
  Ok (MkCol n (qtype_of t) len p nl a).

Definition index_fields : list string := ["id"; "name"; "unique"; "col_ordinals"].
Definition dec_index (j : json) : outcome indexDef :=
  l ← members j;
  let f name := get_field index_fields name l in
  i ← dec_uint64 (f "id"); n ← dec_string (f "name"); u ← dec_bool (f "unique"); os ← dec_list dec_ord (f "col_ordinals");
  Ok (MkIndex i n u os).

Definition table_fields : list string := ["id"; "name"; "columns"; "pk_ordinals"; "comment"; "indexes"].
Definition dec_table (j : json) : outcome tableDef :=
  l ← members j;
  let f name := get_field table_fields name l in
  i ← dec_uint64 (f "id"); n ← dec_string (f "name"); cs ← dec_list dec_col (f "columns"); pk ← dec_list dec_ord (f "pk_ordinals");
  c ← dec_string (f "comment"); ixs ← dec_list dec_index (f "indexes");
  Ok (MkTable i n cs pk c ixs 0).

Definition unmarshal {A} (dec : json -> outcome A) (bs : bytes) : outcome A :=
  match parse bs with Some j => dec j | None => Err bad_json end.
End decode.

(** * Opening a database *)

Definition tableKey `{CaseFold} (name : string) : bytes := str "sql/c/t/" ++ str (ToLower name).

(** A pointer no definition has yet. *)
Definition fresh_ptr (defs : gmap defptr tableDef) : defptr := foldr Nat.max 0 (S <$> (map_to_list defs).*1).

Section open.
Context `{H : Hasher} `{G : GCM} `{E : Entropy} `{MR : MapRange} `{CF : CaseFold} `{QT : QueryTypes} {B : Type} `{BK : Backend B}.
Abbreviation MQ := (M (SqlStore B)).

(** The counter of a table with an AUTO_INCREMENT column. *)
Definition load_counter (def : tableDef) : MQ tableDef :=
  if hasAutoInc def then
    craw ← led (Get (autoIncKey (td_ID def)));
    let n := match craw with
             | Some r => if decide (length r = 9 ∧ head r = Some tagAutoInc) then unbe (drop 1 r) else 0%N
             | None => 0%N
             end in
    mret (set_autoInc (if decide (n = 0%N) then 1%N else n) def)
  else mret def.

Definition loadTable (name : string) : MQ tableDef :=
  raw ← led (Get (tableKey name));
  match raw with
  | None => fail (RawError "catalog names table %q but its definition is missing")
  | Some raw =>
      if decide (length raw < 1 ∨ head raw ≠ Some tagCatalogTable) then fail (RawError "table %q definition is corrupt")
      else def ← lift (wrap_err "table %q definition" (unmarshal dec_table (drop 1 raw))); load_counter def
  end.

Definition add_table (lower : string) (def : tableDef) : MQ unit := modify (λ q,
  let p := fresh_ptr (q_defs q) in set_qtables (<[lower := p]> (q_tables q)) (set_defs (<[p := def]> (q_defs q)) q)).

Definition loadCatalog : MQ unit :=
  raw ← led (Get metaKey);
  match raw with
  | None => modify (set_meta (MkMeta 1 1 []))
  | Some raw =>
      if decide (length raw < 1 ∨ head raw ≠ Some tagCatalogMeta) then fail (RawError "catalog meta entry is corrupt")
      else
        meta ← lift (wrap_err "catalog meta" (unmarshal dec_meta (drop 1 raw)));
        modify (set_meta meta);;
        foldM (λ _ name, def ← loadTable name; add_table (ToLower name) def) tt (ca_Tables meta)
  end.

(** [Open]: the new store and what it returns. *)
Definition SqlOpen (rounds : nat) (led : Store B) (dbName : string) : outcome unit * SqlStore B :=
  (loadCatalog;; reconcileScanSpace rounds) (MkSql led dbName (MkMeta 0 0 []) ∅ ∅).
End open.

(** * The round trip *)

Definition ascii_string (s : string) : Prop := ascii_bytes (str s).
#[export] Instance ascii_string_dec s : Decision (ascii_string s).
Proof. unfold ascii_string. apply _. Defined.

Lemma unstr_str s : unstr (str s) = s.
Proof. apply String.string_of_list_byte_of_string. Qed.

(** The values the catalog can hold. *)
Record meta_fits (m : catalogMeta) : Prop := {
  mf_table : is_u64 (ca_NextTableID m);
  mf_index : is_u64 (ca_NextIndexID m);
  mf_names : Forall ascii_string (ca_Tables m)
}.
Record col_fits (c : colDef) : Prop := {
  cf_name : ascii_string (cd_Name c);
  cf_type : is_ok (kindOfQType (cd_QType c)) = true;
  cf_length : in_int 64 (cd_Length c);
  cf_precision : in_int 64 (cd_Precision c)
}.
Record index_fits (ix : indexDef) : Prop := {
  if_id : is_u64 (ix_ID ix);
  if_name : ascii_string (ix_Name ix);
  if_ords : Forall (λ n, in_int 64 (Z.of_nat n)) (ix_ColOrds ix)
}.
Record table_fits (d : tableDef) : Prop := {
  tf_id : is_u64 (td_ID d);
  tf_name : ascii_string (td_Name d);
  tf_comment : ascii_string (td_Comment d);
  tf_cols : Forall col_fits (td_Columns d);
  tf_pk : Forall (λ n, in_int 64 (Z.of_nat n)) (td_PKOrds d);
  tf_indexes : Forall index_fits (td_Indexes d)
}.

Section roundtrip.
Context `{CF : CaseFold} `{QT : QueryTypes}.

Lemma get_field_other names name k j l :
  field_for names (unstr k) ≠ Some name -> get_field names name ((k, j) :: l) = get_field names name l.
Proof. intros Hne. unfold get_field. rewrite filter_cons_False; [done|]. by intros [? _]. Qed.

Lemma get_field_this names name k j l :
  field_for names (unstr k) = Some name -> get_field names name l = JNull -> get_field names name ((k, j) :: l) = j.
Proof.
  intros Hk Hl. unfold get_field in *. destruct (is_null j) eqn:Ej.
  - rewrite filter_cons_False by (intros [_ Hx]; cbn [snd] in Hx; congruence).
    rewrite Hl. by destruct j.
  - rewrite filter_cons_True by done. cbn [fmap list_fmap snd].
    assert ((snd <$> filter (λ kv, field_for names (unstr kv.1) = Some name ∧ is_null kv.2 = false) l) = []) as ->; [|done].
    destruct (last (snd <$> filter _ l)) as [x|] eqn:Ex; [|by apply last_None in Ex]. exfalso. cbn in Hl. subst x.
    apply last_Some_elem_of, list_elem_of_fmap in Ex as ([k' x] & Ex & [[_ Hn] _]%list_elem_of_filter). cbn [snd] in *. by subst x.
Qed.

Lemma get_field_opt names name empty k j l :
  get_field names name (jopt empty k j ++ l) = if empty then get_field names name l else get_field names name ((str k, j) :: l).
Proof. by destruct empty. Qed.

Lemma get_field_last names name empty k j :
  get_field names name (jopt empty k j) = if empty then JNull else get_field names name [(str k, j)].
Proof. by destruct empty. Qed.

Lemma dec_uint64_int n : is_u64 n -> dec_uint64 (JInt (Z.of_N n)) = Ok n.
Proof. unfold is_u64, max64. intros Hn. cbn. rewrite decide_True by lia. by rewrite N2Z.id. Qed.
Lemma dec_int_int w z : in_int w z -> dec_int w (JInt z) = Ok z.
Proof. intros Hz. cbn. by rewrite decide_True. Qed.
Lemma dec_ord_nat n : in_int 64 (Z.of_nat n) -> dec_ord (jnat n) = Ok n.
Proof. intros Hn. unfold dec_ord, jnat. rewrite dec_int_int by done. cbn. rewrite decide_True by lia. by rewrite Nat2Z.id. Qed.
Lemma dec_string_str s : dec_string (jstring s) = Ok s.
Proof. cbn. by rewrite unstr_str. Qed.

Lemma dec_list_ok {A} (f : A -> json) (g : json -> outcome A) l :
  Forall (λ x, g (f x) = Ok x) l -> dec_list g (jlist f l) = Ok l.
Proof.
  intros Hl. assert (mapO g (f <$> l) = Ok l) as Hm; [|by destruct l].
  induction Hl as [|x l Hx Hl IH]; cbn [fmap list_fmap mapO]; [done|]. rewrite Hx. cbn [mbind outcome_bind]. by rewrite IH.
Qed.

Ltac by_ascii := refine (bool_decide_eq_true_1 _ _); vm_compute; reflexivity.

(** An omitted field has the zero value. *)
Ltac absent := repeat match goal with Hb : bool_decide _ = true |- _ => apply bool_decide_eq_true in Hb end; cbn; congruence.

Ltac fields := repeat first
  [ rewrite get_field_opt
  | rewrite get_field_last
  | rewrite get_field_this; [|vm_compute; reflexivity|]
  | rewrite get_field_other by (vm_compute; discriminate)
  | case_match ]; try done.

Lemma dec_enc_meta m : meta_fits m -> dec_meta (enc_meta m) = Ok m.
Proof.
  intros [H1 H2 H3]. unfold dec_meta, enc_meta. cbn [members mbind outcome_bind].
  set (l := [_; _; _]).
  assert (get_field meta_fields "next_table_id" l = JInt (Z.of_N (ca_NextTableID m))) as -> by (unfold l; fields).
  assert (get_field meta_fields "next_index_id" l = JInt (Z.of_N (ca_NextIndexID m))) as -> by (unfold l; fields).
  assert (get_field meta_fields "tables" l = jlist jstring (ca_Tables m)) as -> by (unfold l; fields).
  rewrite !dec_uint64_int by done. cbn [mbind outcome_bind]. rewrite dec_list_ok; [by destruct m|].
  apply Forall_forall. intros s _. apply dec_string_str.
Qed.

Lemma if_same {A} (b : bool) (x y : A) : (b = true -> x = y) -> (if b then x else y) = y.
Proof. destruct b; auto. Qed.

Lemma dec_enc_col c : col_fits c -> dec_col (enc_col c) = Ok c.
Proof.
  intros [Hn Ht Hl Hp]. destruct (qcode_inv (cd_QType c) Ht) as [Hq Hqi]. unfold dec_col, enc_col. cbn [members mbind outcome_bind].
  set (l := _ ++ _).
  assert (get_field col_fields "name" l = jstring (cd_Name c)) as -> by (unfold l; cbn [app]; fields).
  assert (get_field col_fields "qtype" l = JInt (qcode (cd_QType c))) as -> by (unfold l; cbn [app]; fields).
  assert (dec_int 64 (get_field col_fields "length" l) = Ok (cd_Length c)) as ->.
  { unfold l. cbn [app]. fields; rewrite ?dec_int_int by done; absent. }
  assert (dec_int 64 (get_field col_fields "precision" l) = Ok (cd_Precision c)) as ->.
  { unfold l. cbn [app]. fields; rewrite ?dec_int_int by done; absent. }
  assert (get_field col_fields "nullable" l = JBool (cd_Nullable c)) as -> by (unfold l; cbn [app]; fields).
  assert (dec_bool (get_field col_fields "auto_inc" l) = Ok (cd_AutoInc c)) as ->.
  { unfold l. cbn [app]. fields; by destruct (cd_AutoInc c). }
  rewrite dec_string_str, dec_int_int by done. cbn [mbind outcome_bind dec_bool]. rewrite Hq. by destruct c.
Qed.

Lemma dec_enc_index ix : index_fits ix -> dec_index (enc_index ix) = Ok ix.
Proof.
  intros [Hi Hn Ho]. unfold dec_index, enc_index. cbn [members mbind outcome_bind]. set (l := [_; _; _; _]).
  assert (get_field index_fields "id" l = JInt (Z.of_N (ix_ID ix))) as -> by (unfold l; fields).
  assert (get_field index_fields "name" l = jstring (ix_Name ix)) as -> by (unfold l; fields).
  assert (get_field index_fields "unique" l = JBool (ix_Unique ix)) as -> by (unfold l; fields).
  assert (get_field index_fields "col_ordinals" l = jlist jnat (ix_ColOrds ix)) as -> by (unfold l; fields).
  rewrite dec_uint64_int, dec_string_str by done. cbn [mbind outcome_bind dec_bool]. rewrite dec_list_ok; [by destruct ix|].
  eapply Forall_impl; [exact Ho|]. apply dec_ord_nat.
Qed.

(** The counter is not part of the definition. *)
Lemma dec_enc_table d : table_fits d -> dec_table (enc_table d) = Ok (set_autoInc 0 d).
Proof.
  intros [Hi Hn Hc Hcs Hpk Hix]. unfold dec_table, enc_table. cbn [members mbind outcome_bind]. set (l := _ ++ _).
  assert (get_field table_fields "id" l = JInt (Z.of_N (td_ID d))) as -> by (unfold l; cbn [app]; fields).
  assert (get_field table_fields "name" l = jstring (td_Name d)) as -> by (unfold l; cbn [app]; fields).
  assert (get_field table_fields "columns" l = jlist enc_col (td_Columns d)) as -> by (unfold l; cbn [app]; fields).
  assert (get_field table_fields "pk_ordinals" l = jlist jnat (td_PKOrds d)) as -> by (unfold l; cbn [app]; fields).
  assert (dec_string (get_field table_fields "comment" l) = Ok (td_Comment d)) as ->.
  { unfold l. cbn [app]. fields; rewrite ?dec_string_str; absent. }
  assert (dec_list dec_index (get_field table_fields "indexes" l) = Ok (td_Indexes d)) as ->.
  { assert (dec_list dec_index (jlist enc_index (td_Indexes d)) = Ok (td_Indexes d)) as Hd.
    { apply dec_list_ok. eapply Forall_impl; [exact Hix|]. apply dec_enc_index. }
    unfold l. cbn [app]. fields; absent. }
  rewrite dec_uint64_int, dec_string_str by done. cbn [mbind outcome_bind].
  rewrite !dec_list_ok; [done|eapply Forall_impl; [exact Hcs|]; apply dec_enc_col|eapply Forall_impl; [exact Hpk|]; apply dec_ord_nat].
Qed.

Lemma plain_list {A} (f : A -> json) l : Forall (λ x, plain (f x) = true) l -> plain (jlist f l) = true.
Proof.
  intros Hl. destruct l as [|x l]; [done|]. cbn [jlist plain]. apply forallb_forall. intros j (y & <- & Hy)%in_map_iff.
  rewrite Forall_forall in Hl. apply Hl. by apply list_elem_of_In.
Qed.

Lemma plain_string s : ascii_string s -> plain (jstring s) = true.
Proof. intros Hs. by apply bool_decide_eq_true. Qed.

Lemma unmarshal_marshal {A} (dec : json -> outcome A) j : plain j = true -> unmarshal dec (print j) = dec j.
Proof. intros Hp. unfold unmarshal. by rewrite parse_print_all. Qed.

Lemma plain_meta m : meta_fits m -> plain (enc_meta m) = true.
Proof.
  intros [_ _ Hn]. cbn [enc_meta plain forallb fst snd]. rewrite plain_list; [reflexivity|]. eapply Forall_impl; [exact Hn|]. apply plain_string.
Qed.

(** Members of an object. *)
Definition plain_members (l : list (bytes * json)) : bool := forallb (λ kv, bool_decide (ascii_bytes kv.1) && plain kv.2) l.

Lemma plain_opt empty name j : ascii_string name -> plain j = true -> plain_members (jopt empty name j) = true.
Proof. intros Hn Hj. destruct empty; [done|]. cbn. rewrite Hj. by rewrite bool_decide_true. Qed.

Lemma plain_app l l' : plain_members (l ++ l') = plain_members l && plain_members l'.
Proof. apply forallb_app. Qed.

Ltac plain_fields := repeat first
  [ rewrite plain_app; apply andb_true_iff; split
  | apply plain_opt; [by_ascii|]
  | progress (cbn [plain_members forallb fst snd plain]); repeat (apply andb_true_iff; split) ]; try reflexivity; try by_ascii.

Lemma plain_col c : col_fits c -> plain (enc_col c) = true.
Proof.
  intros [Hn _ _ _]. change (plain (enc_col c)) with (plain_members
    ([(str "name", jstring (cd_Name c)); (str "qtype", JInt (qcode (cd_QType c)))] ++
     jopt (bool_decide (cd_Length c = 0%Z)) "length" (JInt (cd_Length c)) ++
     jopt (bool_decide (cd_Precision c = 0%Z)) "precision" (JInt (cd_Precision c)) ++
     [(str "nullable", JBool (cd_Nullable c))] ++ jopt (negb (cd_AutoInc c)) "auto_inc" (JBool (cd_AutoInc c)))).
  plain_fields. by apply bool_decide_eq_true.
Qed.

Lemma plain_nats l : plain (jlist jnat l) = true.
Proof. apply plain_list. by apply Forall_forall. Qed.

Lemma plain_index ix : index_fits ix -> plain (enc_index ix) = true.
Proof.
  intros [_ Hn _]. cbn [enc_index plain forallb fst snd]. rewrite plain_nats, plain_string by done. reflexivity.
Qed.

Lemma plain_table d : table_fits d -> plain (enc_table d) = true.
Proof.
  intros [_ Hn Hc Hcs _ Hix].
  assert (plain (jlist enc_col (td_Columns d)) = true) as P1 by (apply plain_list; eapply Forall_impl; [exact Hcs|]; apply plain_col).
  assert (plain (jlist enc_index (td_Indexes d)) = true) as P2 by (apply plain_list; eapply Forall_impl; [exact Hix|]; apply plain_index).
  change (plain (enc_table d)) with (plain_members
    ([(str "id", JInt (Z.of_N (td_ID d))); (str "name", jstring (td_Name d)); (str "columns", jlist enc_col (td_Columns d));
      (str "pk_ordinals", jlist jnat (td_PKOrds d))] ++
     jopt (bool_decide (td_Comment d = "")) "comment" (jstring (td_Comment d)) ++
     jopt (bool_decide (td_Indexes d = [])) "indexes" (jlist enc_index (td_Indexes d)))).
  rewrite !plain_app. rewrite !plain_opt by (by_ascii || done || by apply plain_string).
  cbn [plain_members forallb fst snd]. rewrite P1, plain_nats, plain_string by done. reflexivity.
Qed.

(** A stored definition is read back. *)
Lemma unmarshal_meta m : meta_fits m -> unmarshal dec_meta (drop 1 (marshalTagged tagCatalogMeta (enc_meta m))) = Ok m.
Proof. intros Hm. cbn [marshalTagged drop]. rewrite drop_0, unmarshal_marshal by by apply plain_meta. by apply dec_enc_meta. Qed.
Lemma unmarshal_table d :
  table_fits d -> unmarshal dec_table (drop 1 (marshalTagged tagCatalogTable (enc_table d))) = Ok (set_autoInc 0 d).
Proof. intros Hd. cbn [marshalTagged drop]. rewrite drop_0, unmarshal_marshal by by apply plain_table. by apply dec_enc_table. Qed.
End roundtrip.
