(* ===== verification/SqlScan.v ===== *)
(** Reading a table: the partitions and iterators of [sqlledger/table.go] and
    [sqlledger/index.go].

    A scan walks a range of a derived keyspace in chunks, merges the overlay of the
    session's transaction into it and resolves every entry to its row.  The forward
    iterator does so incrementally, one row per call of [Next]; the reverse iterator
    reads the whole range of keys first and walks it backwards.  An iterator is a value
    that each call returns anew; the transaction buffer it points to is an argument. *)

From S2P Require Import Prelude Errors Sha256 Hashing Node Aead Backend Cache Store GoNum SqlCodec SqlIndex SqlTxn SqlStore.

(** * Partitions *)

Inductive partition :=
| fullScanPartition (prefix : bytes)
| indexRangePartition (start stop : bytes) (secondary : bool) (idxID : N) (reverse : bool) (seq : nat).

Definition indexByID (def : tableDef) (id : N) : option indexDef :=
  snd <$> list_find (λ ix, ix_ID ix = id) (td_Indexes def).

(** The index handles of a table: the primary key, then its indexes. *)
Definition GetIndexes (def : tableDef) : list (option indexDef) := None :: (Some <$> td_Indexes def).

Definition Partitions (def : tableDef) : list partition := [fullScanPartition (scanKey (td_ID def) [])].

Definition lookup_part (def : tableDef) (idx : option indexDef) (isReverse : bool)
    (parts : list partition) (irng : nat * list (cut * cut)) : outcome (list partition) :=
  b ← rangeBounds def idx irng.2;
  match b with
  | None => Err (RawError "index %s cannot serve the requested range")
  | Some (start, stop) =>
      Ok (parts ++ [indexRangePartition start stop (is_secondary idx)
                      (match idx with Some ix => ix_ID ix | None => 0%N end) isReverse irng.1])
  end.

Definition LookupPartitions (def : tableDef) (idx : option indexDef) (ranges : list (list (cut * cut)))
    (isEmptyRange isReverse : bool) : outcome (list partition) :=
  if isEmptyRange then Ok []
  else
    parts ← foldO (lookup_part def idx isReverse) [] (imap pair ranges);
    Ok (if isReverse then reverse parts else parts).

(** * Iterators *)

Record scanIter := MkScanIter {
  it_next : bytes;
  it_end : bytes;
  it_secondary : bool;
  it_ov : option scanOverlay;
  it_ovPos : nat;
  it_buf : list KV;
  it_pos : nat;
  it_done : bool
}.

Definition newScanIter (start stop : bytes) (secondary : bool) (ov : option scanOverlay) : scanIter :=
  MkScanIter start stop secondary ov 0 [] 0 false.

Record reverseIter := MkReverseIter { ri_pks : list bytes; ri_pos : Z }.

Inductive rowIter := ScanIter (it : scanIter) | ReverseIter (it : reverseIter).

(** The key that resumes a scan strictly after [k]. *)
Definition after_key (k : bytes) : bytes := k ++ [u8 0].

(** A chunk has arrived. *)
Definition it_fill (kvs : list KV) (it : scanIter) : scanIter :=
  MkScanIter (match last kvs with Some kv => after_key (kv_Key kv) | None => it_next it end)
    (it_end it) (it_secondary it) (it_ov it) (it_ovPos it) kvs 0
    (if decide (length kvs < N.to_nat scanChunkSize) then true else it_done it).
Definition it_advance (pos ovPos : nat) (it : scanIter) : scanIter :=
  MkScanIter (it_next it) (it_end it) (it_secondary it) (it_ov it) ovPos (it_buf it) pos (it_done it).

Definition ov_head (it : scanIter) : option KV :=
  match it_ov it with Some ov => ov_adds ov !! it_ovPos it | None => None end.
Definition it_masked (it : scanIter) (k : bytes) : bool :=
  match it_ov it with Some ov => bool_decide (k ∈ ov_masks ov) | None => false end.

(** [kv.Key[9:]] or the entry's value. *)
Definition resolve_entry (secondary : bool) (kv : KV) : outcome bytes :=
  if secondary then Ok (kv_Value kv)
  else if decide (length (kv_Key kv) < 9) then Panic "slice bounds out of range"
  else Ok (drop 9 (kv_Key kv)).

Section scan.
Context `{H : Hasher} `{G : GCM} `{E : Entropy} `{MR : MapRange} {B : Type} `{BK : Backend B}.
Abbreviation M := (M (SqlStore B)).

(** The loop of [Next], up to the entry it emits ([None] is [io.EOF]); [fuel] bounds
    its rounds. *)
Fixpoint next_entry (fuel : nat) (it : scanIter) : M (option KV * scanIter) :=
  match fuel with
  | O => panic "scan: round bound"
  | S fuel' =>
      it ← (if decide (length (it_buf it) ≤ it_pos it ∧ it_done it = false) then
              kvs ← db (b_scan (it_next it) (it_end it) scanChunkSize);
              mret (it_fill kvs it)
            else mret it);
      match it_buf it !! it_pos it, ov_head it with
      | Some b, Some o =>
          match bytes_cmp (kv_Key o) (kv_Key b) with
          | Lt => mret (Some o, it_advance (it_pos it) (S (it_ovPos it)) it)
          | Eq => mret (Some o, it_advance (S (it_pos it)) (S (it_ovPos it)) it)
          | Gt =>
              let it := it_advance (S (it_pos it)) (it_ovPos it) it in
              if it_masked it (kv_Key b) then next_entry fuel' it else mret (Some b, it)
          end
      | Some b, None =>
          let it := it_advance (S (it_pos it)) (it_ovPos it) it in
          if it_masked it (kv_Key b) then next_entry fuel' it else mret (Some b, it)
      | None, o =>
          if it_done it : bool then
            match o with
            | Some o => mret (Some o, it_advance (it_pos it) (S (it_ovPos it)) it)
            | None => mret (None, it)
            end
          else next_entry fuel' it
      end
  end.

Definition scan_Next (fuel : nat) (otb : option tableTxn) (def : tableDef) (it : scanIter) :
    M (option row * scanIter) :=
  '(kv, it) ← next_entry fuel it;
  match kv with
  | None => mret (None, it)
  | Some kv =>
      pkEnc ← lift (resolve_entry (it_secondary it) kv);
      r ← readRowTxn otb def pkEnc;
      mret (Some r, it)
  end.

(** The whole range of entries, chunk by chunk. *)
Fixpoint scan_all (fuel : nat) (next stop : bytes) (entries : list KV) : M (list KV) :=
  match fuel with
  | O => panic "scan: round bound"
  | S fuel' =>
      kvs ← db (b_scan next stop scanChunkSize);
      let entries := entries ++ kvs in
      if decide (length kvs < N.to_nat scanChunkSize) then mret entries
      else
        match last kvs with
        | None => panic "index out of range"
        | Some kv => scan_all fuel' (after_key (kv_Key kv)) stop entries
        end
  end.

Definition newReverseScanIter (fuel : nat) (start stop : bytes) (secondary : bool) (ov : option scanOverlay) :
    M reverseIter :=
  entries ← scan_all fuel start stop [];
  pks ← foldM (λ pks kv, pk ← lift (resolve_entry secondary kv); mret (pks ++ [pk])) [] (mergeOverlay entries ov);
  mret (MkReverseIter pks (Z.of_nat (length pks) - 1)).

Definition reverse_Next (otb : option tableTxn) (def : tableDef) (it : reverseIter) :
    M (option row * reverseIter) :=
  if decide (ri_pos it < 0)%Z then mret (None, it)
  else
    match ri_pks it !! Z.to_nat (ri_pos it) with
    | None => panic "index out of range"
    | Some pkEnc => r ← readRowTxn otb def pkEnc; mret (Some r, MkReverseIter (ri_pks it) (ri_pos it - 1))
    end.

Definition iter_Next (fuel : nat) (otb : option tableTxn) (def : tableDef) (it : rowIter) : M (option row * rowIter) :=
  match it with
  | ScanIter it => '(r, it) ← scan_Next fuel otb def it; mret (r, ScanIter it)
  | ReverseIter it => '(r, it) ← reverse_Next otb def it; mret (r, ReverseIter it)
  end.

Definition PartitionRows (fuel : nat) (otxn : option storeTxn) (def : tableDef) (p : partition) : M rowIter :=
  let otb := tableView otxn (td_ID def) in
  match p with
  | fullScanPartition prefix =>
      match incBytes prefix with
      | None => fail (RawError "table keyspace overflow")
      | Some stop =>
          ov ← lift (buildOverlay prefix stop def otb None);
          mret (ScanIter (newScanIter prefix stop false ov))
      end
  | indexRangePartition start stop secondary idxID reverse _ =>
      let idx := indexByID def idxID in
      if decide (secondary = true ∧ idx = None) then fail (RawError "table %s: unknown index id %d")
      else
        ov ← lift (buildOverlay start stop def otb (if secondary then idx else None));
        if reverse : bool then
          it ← newReverseScanIter fuel start stop secondary ov; mret (ReverseIter it)
        else mret (ScanIter (newScanIter start stop secondary ov))
  end.

(** Calling [Next] until the end of the rows. *)
Fixpoint drain (calls fuel : nat) (otb : option tableTxn) (def : tableDef) (it : rowIter) : M (list row) :=
  match calls with
  | O => panic "drain: call bound"
  | S calls' =>
      '(r, it) ← iter_Next fuel otb def it;
      match r with
      | None => mret []
      | Some r => rs ← drain calls' fuel otb def it; mret (r :: rs)
      end
  end.
End scan.
