(* ===== verification/SqlScanOk.v ===== *)
(** Scans return what they should: the iterators of [SqlScan] against sorted scans.

    With storage that keeps its contract, draining a forward iterator returns the rows
    of the merge of the committed range and the overlay, whatever the chunk borders,
    and the reverse iterator returns the same rows backwards; with [SqlOverlay] these
    are the rows of the range after the commit of the buffer. *)

From S2P Require Import Prelude Errors Sha256 Hashing Node Aead Backend Cache Store Tree StoreRead StoreFrame GoNum SqlCodec SqlIndex SqlTxn SqlOverlay SqlStore SqlScan.

(** * Chunked scans *)

Lemma after_key_lt k x : bytes_le (after_key k) x ↔ bytes_lt k x.
Proof.
  unfold after_key. revert x. induction k as [|b k IH]; intros [|y x]; cbn [app].
  - split; done.
  - rewrite bytes_le_cons. unfold bytes_lt. cbn. change (bn (u8 0)) with 0%N. split; [done|]. intros _.
    destruct (decide (bn y = 0%N)) as [E|]; [right|left; lia]. split; [by apply (inj bn)|]. by destruct x.
  - split; done.
  - rewrite bytes_le_cons, bytes_lt_cons, IH. done.
Qed.

Lemma limited_scan D start stop limit :
  (limit ≠ 0)%N -> scan_spec D start stop limit = take (N.to_nat limit) (scan_spec D start stop 0).
Proof.
  intros Hl. unfold scan_spec, limited. rewrite decide_False, (decide_True (P := 0%N = 0%N)) by done.
  by rewrite fmap_take.
Qed.

(** What is left of a scan after some of its entries is the scan that resumes after
    the last of them. *)
Lemma scan_resume D start stop l1 l2 kv :
  scan_spec D start stop 0 = l1 ++ l2 -> last l1 = Some kv ->
  scan_spec D (after_key (kv_Key kv)) stop 0 = l2.
Proof.
  intros Es Hl. pose proof (scan_sorted D start stop 0) as Hs. rewrite Es in Hs.
  assert (kv ∈ l1) as Hkv by (apply last_Some in Hl as [l' ->]; apply elem_of_app; right; left).
  apply (sorted_ext kv_Key); [apply scan_sorted|by apply StronglySorted_app_1_r in Hs|].
  intros x. rewrite elem_of_scan. unfold in_range. rewrite after_key_lt.
  assert (kv ∈ scan_spec D start stop 0) as [[Hst _] _]%elem_of_scan by (rewrite Es; apply elem_of_app; by left).
  split.
  - intros [[Hlt Hstop] Hx].
    assert (x ∈ l1 ++ l2) as [Hx1|?]%elem_of_app; [|exfalso|done].
    { rewrite <-Es. apply elem_of_scan. split; [|done]. split; [|done]. etrans; [exact Hst|]. apply bytes_le_lt_eq. by left. }
    apply last_Some in Hl as [l' ->]. rewrite <-app_assoc in Hs. apply elem_of_app in Hx1 as [Hx1| ->%list_elem_of_singleton].
    + assert (kv_lt x kv) as Hx2 by (eapply StronglySorted_app_1_elem_of; [exact Hs|done|left]).
      apply (irreflexivity bytes_lt (kv_Key x)). etrans; [exact Hx2|exact Hlt].
    + by apply (irreflexivity bytes_lt) in Hlt.
  - intros Hx. assert (x ∈ scan_spec D start stop 0) as [[_ Hstop] Hv]%elem_of_scan by (rewrite Es; apply elem_of_app; by right).
    split_and!; [|done..]. by eapply (StronglySorted_app_1_elem_of kv_lt).
Qed.

(** One chunk: all that is left when it is short, and a first part otherwise. *)
Lemma scan_chunk D start stop kvs :
  kvs = scan_spec D start stop scanChunkSize ->
  if decide (length kvs < N.to_nat scanChunkSize) then scan_spec D start stop 0 = kvs
  else ∃ kv, last kvs = Some kv ∧ scan_spec D start stop 0 = kvs ++ scan_spec D (after_key (kv_Key kv)) stop 0.
Proof.
  intros ->. rewrite limited_scan by done. set (l := scan_spec D start stop 0) in *. set (n := N.to_nat scanChunkSize).
  assert (0 < n) as Hn by (vm_compute; lia). clearbody n. case_decide as Hc; rewrite length_take in Hc.
  - rewrite take_ge by lia. done.
  - destruct (last (take n l)) as [kv|] eqn:El.
    + exists kv. split; [done|]. rewrite (scan_resume D start stop (take n l) (drop n l) kv); [by rewrite take_drop| |done].
      by rewrite take_drop.
    + apply last_None in El. apply (f_equal length) in El. rewrite length_take in El. cbn in El. lia.
Qed.

(** * The state across reads *)

Section reads.
Context `{H : Hasher} `{G : GCM} `{E : Entropy} `{MR : MapRange}.
Context {B : Type} `{BK : Backend B} `{!BackendSpec B} `{!BackendReliable B}.
Implicit Types q : SqlStore B.

Definition sql_contents q : gmap bytes bytes := contents (s_backend (q_led q)).

(** [q'] is [q] after some reads. *)
Definition sreads q q' : Prop := reads (q_led q) (q_led q') ∧ q' = set_led (q_led q') q.

#[export] Instance sreads_refl : Reflexive sreads.
Proof. intros q. split; [apply reads_refl|by destruct q]. Qed.
#[export] Instance sreads_trans : Transitive sreads.
Proof.
  intros q1 q2 q3 [R1 E1] [R2 E2]. split; [by eapply reads_trans|].
  rewrite E2 at 1. rewrite E1 at 1. by destruct q1.
Qed.

Lemma sreads_contents q q' : sreads q q' -> sql_contents q' = sql_contents q.
Proof. intros [R _]. by apply reads_contents. Qed.

Lemma sreads_repr q q' ot st : sreads q q' -> repr (q_led q) ot st -> repr (q_led q') ot st.
Proof. intros [R _]. by apply reads_repr. Qed.

Lemma led_reads {A} (m : M (Store B) A) q o s' :
  m (q_led q) = (o, s') -> reads (q_led q) s' -> led m q = (o, set_led s' q) ∧ sreads q (set_led s' q).
Proof. intros Em R. unfold led. rewrite Em. split; [done|]. split; [done|by destruct q]. Qed.

Lemma raw_reads {A} (m : M B A) (s : Store B) o b' :
  m (s_backend s) = (o, b') -> contents b' = contents (s_backend s) ->
  raw_backend m s = (o, set_backend b' s) ∧ reads s (set_backend b' s).
Proof.
  intros Em Hc. unfold raw_backend. rewrite Em. split; [done|]. split_and!; [done|by destruct s|].
  unfold store_ok. cbn. by rewrite Hc.
Qed.

Lemma db_scan_ok start stop limit q :
  ∃ q', db (b_scan start stop limit) q = (Ok (scan_spec (sql_contents q) start stop limit), q') ∧ sreads q q'.
Proof.
  destruct (scan_ok start stop limit (s_backend (q_led q))) as (b' & Eb & Hc).
  destruct (raw_reads _ _ _ _ Eb Hc) as [Er R]. eexists. unfold db. by apply led_reads.
Qed.

Lemma db_get_ok k q : ∃ q', db (b_get k) q = (Ok (sql_contents q !! k), q') ∧ sreads q q'.
Proof.
  destruct (get_ok k (s_backend (q_led q))) as (b' & Eb & Hc).
  destruct (raw_reads _ _ _ _ Eb Hc) as [Er R]. eexists. unfold db. by apply led_reads.
Qed.

Lemma led_Get_ok key q ot st :
  repr (q_led q) ot st ->
  ∃ q', led (Get key) q = (Ok (st !! pathOf (s_ck (q_led q)) key), q') ∧ sreads q q'.
Proof. intros Hr. destruct (Get_ok _ _ _ key Hr) as (s' & Eg & R). eexists. by apply led_reads. Qed.

(** ** Rows *)

(** The row a key resolves to: the buffered one, or that of the ledger. *)
Definition row_at (ck : bytes) (st : gmap Hash bytes) (otb : option tableTxn) (def : tableDef) (pkEnc : bytes) :
    outcome row :=
  match otb ≫= λ tb, tt_rows tb !! pkEnc with
  | Some p => match p_new p with
              | None => Err (RawError "table %s: scan resolved a row deleted in this transaction")
              | Some r => Ok r
              end
  | None => row_of_entry def true (st !! pathOf ck (rowKey (td_ID def) pkEnc))
  end.

Lemma readRowTxn_ok otb def pkEnc q ot st :
  repr (q_led q) ot st ->
  ∃ q', readRowTxn otb def pkEnc q = (row_at (s_ck (q_led q)) st otb def pkEnc, q') ∧ sreads q q'.
Proof.
  intros Hr. unfold readRowTxn, row_at, readRow. destruct (otb ≫= _) as [p|].
  - destruct (p_new p); by exists q.
  - destruct (led_Get_ok (rowKey (td_ID def) pkEnc) q ot st Hr) as (q' & Eg & R).
    exists q'. by rewrite (bind_ok _ _ _ _ _ Eg).
Qed.

(** * The forward iterator *)

Section iter.
Variable (D : gmap bytes bytes).

(** What an iterator has still to emit of the committed stream, and of the overlay. *)
Definition it_rest (it : scanIter) : list KV :=
  drop (it_pos it) (it_buf it) ++ (if it_done it then [] else scan_spec D (it_next it) (it_end it) 0).
Definition it_adds (it : scanIter) : list KV :=
  match it_ov it with Some ov => drop (it_ovPos it) (ov_adds ov) | None => [] end.
Definition it_masks (it : scanIter) : gset bytes :=
  match it_ov it with Some ov => ov_masks ov | None => ∅ end.
Definition it_out (it : scanIter) : list KV := merge_loop (it_masks it) (it_adds it) (it_rest it).

Lemma it_masked_spec it k : it_masked it k = bool_decide (k ∈ it_masks it).
Proof.
  unfold it_masked, it_masks. destruct (it_ov it); [done|]. symmetry. apply bool_decide_eq_false. set_solver.
Qed.

Lemma ov_head_spec it : ov_head it = head (it_adds it).
Proof.
  unfold ov_head, it_adds. destruct (it_ov it) as [ov|]; [|done].
  rewrite <-(Nat.add_0_r (it_ovPos it)) at 1. rewrite <-lookup_drop. by destruct (drop _ _).
Qed.

(** Filling the buffer changes nothing of what is still to come. *)
Lemma it_fill_rest it kvs :
  length (it_buf it) ≤ it_pos it -> it_done it = false ->
  kvs = scan_spec D (it_next it) (it_end it) scanChunkSize ->
  it_rest (it_fill kvs it) = it_rest it ∧ (it_done (it_fill kvs it) = true ∨ kvs ≠ []).
Proof.
  intros Hp Hd Ek. pose proof (scan_chunk _ _ _ _ Ek) as Hc.
  unfold it_rest, it_fill. cbn [it_pos it_buf it_done it_next it_end].
  rewrite drop_0, (drop_ge (it_buf it)), Hd by done. cbn [app]. case_decide as Hl.
  - rewrite Hc, app_nil_r. auto.
  - destruct Hc as (kv & Hl' & Hc). rewrite Hl', Hc. split; [done|]. right. by destruct kvs.
Qed.

(** The first part of a round: the buffer is filled when it is used up. *)
Lemma fill_round it q :
  sql_contents q = D ->
  ∃ it1 q1, (if decide (length (it_buf it) ≤ it_pos it ∧ it_done it = false) then
               kvs ← db (b_scan (it_next it) (it_end it) scanChunkSize); mret (it_fill kvs it)
             else mret it) q = (Ok it1, q1) ∧ sreads q q1 ∧
    it_rest it1 = it_rest it ∧ it_adds it1 = it_adds it ∧ it_masks it1 = it_masks it ∧
    it_secondary it1 = it_secondary it ∧
    (it_buf it1 !! it_pos it1 = None -> it_done it1 = true).
Proof.
  intros Hq. case_decide as Hc.
  - destruct Hc as [Hp Hd]. destruct (db_scan_ok (it_next it) (it_end it) scanChunkSize q) as (q1 & E1 & R1).
    rewrite Hq in E1. destruct (it_fill_rest it _ Hp Hd eq_refl) as [Hr Hn].
    do 2 eexists. rewrite (bind_ok _ _ _ _ _ E1). split; [done|]. split_and!; try done.
    destruct Hn as [?|Hn]; [done|]. cbn [it_fill it_buf it_pos]. by destruct (scan_spec _ _ _ _).
  - exists it, q. split_and!; try done. intros Hb%lookup_ge_None.
    destruct (it_done it) eqn:Hd; [done|]. exfalso. by apply Hc.
Qed.

Lemma rest_cons it b :
  it_buf it !! it_pos it = Some b -> it_rest it = b :: it_rest (it_advance (S (it_pos it)) (it_ovPos it) it).
Proof. intros Hb. unfold it_rest, it_advance. cbn. by rewrite (drop_S _ _ _ Hb). Qed.

Lemma adds_cons it o pos :
  ov_head it = Some o -> it_adds it = o :: it_adds (it_advance pos (S (it_ovPos it)) it).
Proof.
  unfold ov_head, it_adds, it_advance. cbn. destruct (it_ov it) as [ov|]; [|done]. intros Ho.
  by rewrite (drop_S _ _ _ Ho).
Qed.

Lemma merge_keep masks adds b rest :
  (adds = [] ∨ ∃ o adds', adds = o :: adds' ∧ bytes_cmp (kv_Key o) (kv_Key b) = Gt) ->
  merge_loop masks adds (b :: rest) =
  if decide (kv_Key b ∈ masks) then merge_loop masks adds rest else b :: merge_loop masks adds rest.
Proof. intros [->|(o & adds' & -> & Hc)]; [done|]. by rewrite merge_cons, Hc. Qed.

(** A run that emits the head of the merge. *)
Definition emits it q (r : outcome (option KV * scanIter) * SqlStore B) : Prop :=
  ∃ kv it' q', r = (Ok (kv, it'), q') ∧ sreads q q' ∧
    it_secondary it' = it_secondary it ∧ length (it_rest it') ≤ length (it_rest it) ∧
    it_out it = match kv with Some kv => kv :: it_out it' | None => [] end.

(** A committed entry ahead of the overlay is emitted, or skipped when masked. *)
Lemma emits_committed fuel it b q :
  (∀ it q, sql_contents q = D -> length (it_rest it) < fuel -> emits it q (next_entry fuel it q)) ->
  sql_contents q = D -> length (it_rest it) < S fuel -> it_buf it !! it_pos it = Some b ->
  (it_adds it = [] ∨ ∃ o adds', it_adds it = o :: adds' ∧ bytes_cmp (kv_Key o) (kv_Key b) = Gt) ->
  let it' := it_advance (S (it_pos it)) (it_ovPos it) it in
  emits it q ((if it_masked it' (kv_Key b) then next_entry fuel it' else mret (Some b, it')) q).
Proof.
  intros IH Hq Hf Hb Hadds it'. pose proof (rest_cons it b Hb) as Hc. fold it' in Hc. unfold emits.
  assert (it_out it = if decide (kv_Key b ∈ it_masks it) then it_out it' else b :: it_out it') as ->.
  { unfold it_out. rewrite Hc. by apply merge_keep. }
  rewrite it_masked_spec. change (it_masks it') with (it_masks it). rewrite Hc in Hf |- *. cbn [length] in Hf |- *.
  case_decide as Hmask; [rewrite bool_decide_true by done|rewrite bool_decide_false by done].
  - destruct (IH it' q Hq) as (kv & it2 & q2 & E2 & R2 & H2 & H3 & H4); [lia|].
    exists kv, it2, q2. split_and!; [done..|lia|done].
  - exists (Some b), it', q. split_and!; [done..|lia|done].
Qed.

(** An iterator with an empty buffer after the fill has no committed entry left. *)
Lemma rest_nil it : it_buf it !! it_pos it = None -> it_done it = true -> it_rest it = [].
Proof. intros Hb%lookup_ge_None Hd. unfold it_rest. by rewrite Hd, drop_ge. Qed.

Lemma emits_round fuel it q :
  (∀ it q, sql_contents q = D -> length (it_rest it) < fuel -> emits it q (next_entry fuel it q)) ->
  sql_contents q = D -> length (it_rest it) < S fuel -> (it_buf it !! it_pos it = None -> it_done it = true) ->
  emits it q ((match it_buf it !! it_pos it, ov_head it with
      | Some b, Some o =>
          match bytes_cmp (kv_Key o) (kv_Key b) with
          | Lt => mret (Some o, it_advance (it_pos it) (S (it_ovPos it)) it)
          | Eq => mret (Some o, it_advance (S (it_pos it)) (S (it_ovPos it)) it)
          | Gt =>
              let it := it_advance (S (it_pos it)) (it_ovPos it) it in
              if it_masked it (kv_Key b) then next_entry fuel it else mret (Some b, it)
          end
      | Some b, None =>
          let it := it_advance (S (it_pos it)) (it_ovPos it) it in
          if it_masked it (kv_Key b) then next_entry fuel it else mret (Some b, it)
      | None, o =>
          if it_done it : bool then
            match o with
            | Some o => mret (Some o, it_advance (it_pos it) (S (it_ovPos it)) it)
            | None => mret (None, it)
            end
          else next_entry fuel it
      end) q).
Proof.
  intros IH Hq Hf Hdn. destruct (it_buf it !! it_pos it) as [b|] eqn:Eb, (ov_head it) as [o|] eqn:Eo.
  - destruct (bytes_cmp (kv_Key o) (kv_Key b)) eqn:Ec.
    + exists (Some o), (it_advance (S (it_pos it)) (S (it_ovPos it)) it), q. split_and!; [done..| |].
      { rewrite (rest_cons it b Eb). cbn. lia. }
      unfold it_out. rewrite (rest_cons it b Eb), (adds_cons it o (S (it_pos it)) Eo), merge_cons, Ec. done.
    + exists (Some o), (it_advance (it_pos it) (S (it_ovPos it)) it), q. split_and!; [done..|].
      unfold it_out. rewrite (rest_cons it b Eb), (adds_cons it o (it_pos it) Eo), merge_cons, Ec.
      by rewrite <-(rest_cons it b Eb).
    + apply emits_committed; [done..|]. right. rewrite (adds_cons it o 0 Eo). eauto.
  - apply emits_committed; [done..|]. left. rewrite ov_head_spec in Eo. by destruct (it_adds it).
  - rewrite (Hdn eq_refl). exists (Some o), (it_advance (it_pos it) (S (it_ovPos it)) it), q.
    split_and!; [done..|]. unfold it_out. rewrite (adds_cons it o (it_pos it) Eo).
    change (it_rest (it_advance _ _ it)) with (it_rest it). by rewrite (rest_nil it), !merge_nil_r by auto.
  - rewrite (Hdn eq_refl). exists None, it, q. split_and!; [done..|]. unfold it_out.
    rewrite (rest_nil it), merge_nil_r by auto. rewrite ov_head_spec in Eo. by destruct (it_adds it).
Qed.

(** One call of the loop emits the head of the merge. *)
Lemma next_entry_ok fuel it q :
  sql_contents q = D -> length (it_rest it) < fuel -> emits it q (next_entry fuel it q).
Proof.
  revert it q. induction fuel as [|fuel IH]; intros it q Hq Hf; [lia|]. cbn [next_entry].
  destruct (fill_round it q Hq) as (it1 & q1 & E1 & R1 & Hr & Ha & Hm & Hs & Hdn).
  rewrite (bind_ok _ _ _ _ _ E1). assert (sql_contents q1 = D) as Hq1 by (by rewrite (sreads_contents _ _ R1)).
  rewrite <-Hr in Hf. destruct (emits_round fuel it1 q1 IH Hq1 Hf Hdn) as (kv & it' & q' & E2 & R2 & H2 & H3 & H4).
  exists kv, it', q'. rewrite <-Hr, <-Hs. assert (it_out it = it_out it1) as -> by (unfold it_out; by rewrite Hr, Ha, Hm).
  split_and!; [done|by etrans|done..].
Qed.

(** * Whole scans *)

(** The outcomes of a list of calls: all the results, or the first failure. *)
Fixpoint sequence {A} (l : list (outcome A)) : outcome (list A) :=
  match l with [] => Ok [] | o :: l' => a ← o; rest ← sequence l'; Ok (a :: rest) end.

Definition row_of_kv (ck : bytes) (st : gmap Hash bytes) (otb : option tableTxn) (def : tableDef) (secondary : bool)
    (kv : KV) : outcome row :=
  pk ← resolve_entry secondary kv; row_at ck st otb def pk.

Lemma ret_cons (r : row) (o : outcome (list row)) q :
  match o with
  | Ok rs => (mret (r :: rs) : M (SqlStore B) (list row)) q
  | Err e => (Err e, q)
  | Panic w => (Panic w, q)
  end = (rs ← o; Ok (r :: rs), q).
Proof. by destruct o. Qed.

Lemma drain_scan calls fuel otb def it q ot st :
  repr (q_led q) ot st -> sql_contents q = D -> length (it_rest it) < fuel -> length (it_out it) < calls ->
  ∃ q', drain calls fuel otb def (ScanIter it) q =
    (sequence (row_of_kv (s_ck (q_led q)) st otb def (it_secondary it) <$> it_out it), q') ∧ sreads q q'.
Proof.
  revert it q. induction calls as [|calls IH]; intros it q Hr Hq Hf Hc; [lia|]. cbn [drain iter_Next]. unfold scan_Next.
  destruct (next_entry_ok fuel it q Hq Hf) as (kv & it' & q1 & E1 & R1 & H2 & H3 & H4). rewrite H4 in Hc |- *.
  assert (s_ck (q_led q1) = s_ck (q_led q)) as Eck by (destruct R1 as [R1 _]; apply (reads_fields _ _ R1)).
  destruct kv as [kv|]; cbn [fmap list_fmap sequence] in *.
  2:{ exists q1. unfold mbind, M_bind. by rewrite E1. }
  rewrite <-H2. set (f := row_of_kv (s_ck (q_led q)) st otb def (it_secondary it')) in *.
  assert (f kv = resolve_entry (it_secondary it') kv ≫= row_at (s_ck (q_led q)) st otb def) as -> by done.
  unfold mbind, M_bind. rewrite E1. cbn [lift].
  destruct (resolve_entry (it_secondary it') kv) as [pk|e|w]; cbn; [|by exists q1..].
  destruct (readRowTxn_ok otb def pk q1 ot st (sreads_repr _ _ _ _ R1 Hr)) as (q2 & E2 & R2). rewrite E2, Eck.
  destruct (row_at (s_ck (q_led q)) st otb def pk) as [r|e|w]; cbn; [|exists q2; by split; [|etrans]..].
  assert (sreads q q2) as R by (by etrans).
  destruct (IH it' q2) as (q3 & E3 & R3).
  - by eapply sreads_repr.
  - by rewrite (sreads_contents _ _ R).
  - lia.
  - cbn in Hc. lia.
  - exists q3. assert (s_ck (q_led q2) = s_ck (q_led q)) as Eck2 by (destruct R as [R _]; apply (reads_fields _ _ R)).
    rewrite E3, Eck2. split; [|by etrans]. apply ret_cons.
Qed.

(** ** The reverse iterator *)

Lemma scan_all_ok fuel next stop acc q :
  sql_contents q = D -> length (scan_spec D next stop 0) < fuel ->
  ∃ q', scan_all fuel next stop acc q = (Ok (acc ++ scan_spec D next stop 0), q') ∧ sreads q q'.
Proof.
  revert next acc q. induction fuel as [|fuel IH]; intros next acc q Hq Hf; [lia|]. cbn [scan_all].
  destruct (db_scan_ok next stop scanChunkSize q) as (q1 & E1 & R1). rewrite (bind_ok _ _ _ _ _ E1), Hq.
  pose proof (scan_chunk D next stop _ eq_refl) as Hc. case_decide as Hl.
  - exists q1. by rewrite Hc.
  - destruct Hc as (kv & El & Es). rewrite El.
    destruct (IH (after_key (kv_Key kv)) (acc ++ scan_spec D next stop scanChunkSize) q1) as (q2 & E2 & R2).
    + by rewrite (sreads_contents _ _ R1).
    + rewrite Es, length_app in Hf. destruct (scan_spec D next stop scanChunkSize); [done|]. cbn in Hf. lia.
    + exists q2. rewrite E2, Es, app_assoc. split; [done|by etrans].
Qed.

Lemma resolve_ok secondary kv :
  secondary = true ∨ 9 ≤ length (kv_Key kv) -> resolve_entry secondary kv = Ok (entry_pk secondary kv).
Proof.
  unfold resolve_entry, entry_pk. destruct secondary; [done|]. intros [?|?]; [done|]. by rewrite decide_False by lia.
Qed.

Lemma resolve_all_ok secondary l acc q :
  Forall (λ kv, secondary = true ∨ 9 ≤ length (kv_Key kv)) l ->
  foldM (λ pks kv, pk ← lift (resolve_entry secondary kv); mret (pks ++ [pk])) acc l q =
  (Ok (acc ++ (entry_pk secondary <$> l)), q).
Proof.
  intros Hl. revert acc. induction Hl as [|kv l Hkv Hl IH]; intros acc; cbn [foldM fmap list_fmap].
  { by rewrite app_nil_r. }
  rewrite (resolve_ok _ _ Hkv). unfold lift, mbind, M_bind at 1. cbn. rewrite IH. by rewrite <-app_assoc.
Qed.

Lemma newReverse_ok fuel start stop secondary ov q :
  sql_contents q = D -> length (scan_spec D start stop 0) < fuel ->
  let l := mergeOverlay (scan_spec D start stop 0) ov in
  Forall (λ kv, secondary = true ∨ 9 ≤ length (kv_Key kv)) l ->
  ∃ q', newReverseScanIter fuel start stop secondary ov q =
    (Ok (MkReverseIter (entry_pk secondary <$> l) (Z.of_nat (length (entry_pk secondary <$> l)) - 1)), q') ∧ sreads q q'.
Proof.
  intros Hq Hf l Hl. destruct (scan_all_ok fuel start stop [] q Hq Hf) as (q1 & E1 & R1).
  exists q1. split; [|done]. unfold newReverseScanIter. rewrite (bind_ok _ _ _ _ _ E1). cbn [app]. fold l.
  by rewrite (bind_ok _ _ _ _ _ (resolve_all_ok secondary l [] q1 Hl)).
Qed.

Lemma reverse_drain calls fuel otb def pks n q ot st :
  repr (q_led q) ot st -> n ≤ length pks -> n < calls ->
  ∃ q', drain calls fuel otb def (ReverseIter (MkReverseIter pks (Z.of_nat n - 1))) q =
    (sequence (row_at (s_ck (q_led q)) st otb def <$> reverse (take n pks)), q') ∧ sreads q q'.
Proof.
  revert calls q. induction n as [|n IH]; intros calls q Hr Hn Hc; (destruct calls as [|calls]; [lia|]);
    cbn [drain iter_Next]; unfold reverse_Next; cbn [ri_pos ri_pks].
  { rewrite decide_True by lia. by exists q. }
  rewrite decide_False by lia. replace (Z.to_nat (Z.of_nat (S n) - 1)) with n by lia.
  destruct (lookup_lt_is_Some_2 pks n ltac:(lia)) as [pk Epk]. rewrite Epk, (take_S_r _ _ _ Epk), reverse_snoc.
  replace (Z.of_nat (S n) - 1 - 1)%Z with (Z.of_nat n - 1)%Z by lia. cbn [fmap list_fmap sequence].
  destruct (readRowTxn_ok otb def pk q ot st Hr) as (q1 & E1 & R1).
  unfold mbind, M_bind. rewrite E1.
  destruct (row_at (s_ck (q_led q)) st otb def pk) as [r|e|w]; cbn; [|by exists q1..].
  destruct (IH calls q1) as (q2 & E2 & R2); [by eapply sreads_repr|lia..|].
  exists q2. assert (s_ck (q_led q1) = s_ck (q_led q)) as Eck by (destruct R1 as [R _]; apply (reads_fields _ _ R)).
  rewrite E2, Eck. split; [|by etrans]. apply ret_cons.
Qed.

Lemma sequence_resolved secondary l (f : bytes -> outcome row) :
  Forall (λ kv, secondary = true ∨ 9 ≤ length (kv_Key kv)) l ->
  sequence ((λ kv, resolve_entry secondary kv ≫= f) <$> l) = sequence (f <$> (entry_pk secondary <$> l)).
Proof.
  induction 1 as [|kv l Hkv Hl IH]; [done|]. cbn [fmap list_fmap sequence].
  rewrite (resolve_ok _ _ Hkv). cbn. by rewrite IH.
Qed.
End iter.
End reads.

(** * Queries *)

(** The index, bounds and direction of a partition. *)
Definition part_index (def : tableDef) (p : partition) : option indexDef :=
  match p with
  | fullScanPartition _ => None
  | indexRangePartition _ _ secondary idxID _ _ => if secondary then indexByID def idxID else None
  end.
Definition part_bounds (p : partition) : option (bytes * bytes) :=
  match p with
  | fullScanPartition prefix => (prefix,.) <$> incBytes prefix
  | indexRangePartition start stop _ _ _ _ => Some (start, stop)
  end.
Definition part_secondary (p : partition) : bool :=
  match p with fullScanPartition _ => false | indexRangePartition _ _ secondary _ _ _ => secondary end.
Definition part_reverse (p : partition) : bool :=
  match p with fullScanPartition _ => false | indexRangePartition _ _ _ _ reverse _ => reverse end.

(** A partition of the table's keyspaces. *)
Record part_ok (def : tableDef) (p : partition) (start stop : bytes) : Prop := {
  po_bounds : part_bounds p = Some (start, stop);
  po_index : is_secondary (part_index def p) = part_secondary p;
  po_stop : stop ≠ [];
  po_space : ∀ k, in_range start stop k -> in_space def (part_index def p) k
}.

Lemma indexByID_of def id ix : indexByID def id = Some ix -> ix ∈ td_Indexes def ∧ ix_ID ix = id.
Proof.
  unfold indexByID. destruct (list_find _ _) as [[i x]|] eqn:E; [|done]. intros [= <-].
  apply list_find_Some in E as (Hl & Hid & _). split; [by eapply list_elem_of_lookup_2|done].
Qed.

Lemma part_index_of def p : index_of def (part_index def p).
Proof.
  destruct p as [prefix|start stop [] id rev sq]; cbn; try done.
  destruct (indexByID def id) eqn:E; [|done]. cbn. by apply indexByID_of in E as [? _].
Qed.

Lemma space_length def idx k : in_space def idx k -> 9 ≤ length k.
Proof.
  intros [s ->]. rewrite length_app. destruct idx as [ix|]; cbn [index_space]; unfold scanKey, secondarySpace;
    cbn [length]; rewrite ?length_app, length_be; cbn; lia.
Qed.

(** The partitions the code makes are partitions of the table's keyspaces. *)
Lemma full_part_ok def : ∃ stop, part_ok def (fullScanPartition (scanKey (td_ID def) [])) (scanKey (td_ID def) []) stop.
Proof.
  destruct (incBytes_space scanPrefix (be 8 (td_ID def) ++ [])) as [stop Hinc]; [done|].
  change (scanPrefix :: be 8 (td_ID def) ++ []) with (scanKey (td_ID def) []) in Hinc. exists stop. split.
  - cbn [part_bounds]. by rewrite Hinc.
  - done.
  - intros ->. apply incBytes_lt in Hinc. done.
  - intros k [Hle [Hs|Hlt]]; [subst; by apply incBytes_lt in Hinc|]. by apply (incBytes_range _ _ k Hinc).
Qed.

Lemma indexByID_self def ix : NoDup (ix_ID <$> td_Indexes def) -> ix ∈ td_Indexes def -> indexByID def (ix_ID ix) = Some ix.
Proof.
  intros Hnd Hin. unfold indexByID.
  destruct (list_find_elem_of (λ x, ix_ID x = ix_ID ix) (td_Indexes def) ix Hin eq_refl) as [[i y] Ef]. rewrite Ef. cbn. f_equal.
  apply list_find_Some in Ef as (Hi & Hid & _). apply list_elem_of_lookup in Hin as [j Hj].
  assert (i = j) as <-; [|congruence]. eapply NoDup_lookup; [exact Hnd| |]; rewrite list_lookup_fmap; [by rewrite Hi|].
  rewrite Hj. cbn. by rewrite Hid.
Qed.

Definition maybe_reverse {A} (b : bool) (l : list A) : list A := if b then reverse l else l.

(** The partition a lookup makes of a range. *)
Definition part_for (def : tableDef) (idx : option indexDef) (rev : bool) (rng : list (cut * cut)) (p : partition) : Prop :=
  ∃ start stop, rangeBounds def idx rng = Ok (Some (start, stop)) ∧ part_ok def p start stop ∧ part_index def p = idx ∧ part_reverse p = rev.

Lemma lookup_part_inv def idx rev acc ir acc' :
  def_ids def -> index_of def idx -> lookup_part def idx rev acc ir = Ok acc' ->
  ∃ p, acc' = acc ++ [p] ∧ part_for def idx rev ir.2 p.
Proof.
  intros [_ Hnd] Hi. unfold lookup_part.
  destruct (rangeBounds def idx ir.2) as [[[start stop]|]|e|w] eqn:Hb; cbn [mbind outcome_bind]; try done. intros [= <-].
  eexists. split; [done|]. exists start, stop. pose proof (rangeBounds_space _ _ _ _ _ Hb) as [Hne Hsp].
  set (p := indexRangePartition _ _ _ _ _ _). assert (part_index def p = idx) as Hidx.
  { cbn [part_index p]. destruct idx as [ix|]; cbn [is_secondary]; [by apply indexByID_self|done]. }
  split_and!; [done| |done|done].
  split; [done|by rewrite Hidx|done|]. rewrite Hidx. intros k [Hle [?|Hlt]]; [done|]. by apply Hsp.
Qed.

(** One partition per range; a reverse lookup visits them backwards. *)
Lemma lookup_parts_ok def idx ranges rev parts :
  def_ids def -> index_of def idx -> LookupPartitions def idx ranges false rev = Ok parts ->
  Forall2 (part_for def idx rev) ranges (maybe_reverse rev parts).
Proof.
  intros Hids Hi. unfold LookupPartitions.
  destruct (foldO (lookup_part def idx rev) [] (imap pair ranges)) as [l|e|w] eqn:Ef; cbn [mbind outcome_bind]; try done.
  intros [= <-]. assert (maybe_reverse rev (if rev then reverse l else l) = l) as -> by (destruct rev; cbn; by rewrite ?reverse_involutive).
  assert (∀ irs acc l, foldO (lookup_part def idx rev) acc irs = Ok l -> ∃ ps, l = acc ++ ps ∧ Forall2 (part_for def idx rev) irs.*2 ps) as Hall.
  { clear -Hids Hi. induction irs as [|ir irs IH]; intros acc l; cbn [foldO]; [intros [= <-]; exists []; by rewrite app_nil_r|].
    destruct (lookup_part def idx rev acc ir) as [acc'|e|w] eqn:Ea; cbn [mbind outcome_bind]; try done.
    apply lookup_part_inv in Ea as (p & -> & Hp); [|done..]. intros (ps & -> & Hps)%IH. exists (p :: ps). rewrite <-app_assoc.
    split; [done|]. by constructor. }
  destruct (Hall _ _ _ Ef) as (ps & -> & Hps). rewrite fmap_imap in Hps.
  assert (imap (λ n : nat, snd ∘ pair n) ranges = ranges) as Er; [|by rewrite <-Er].
  clear. induction ranges as [|x l IH]; cbn; [done|]. f_equal. exact IH.
Qed.

Section query.
Context `{H : Hasher} `{G : GCM} `{E : Entropy} `{MR : MapRange}.
Context {B : Type} `{BK : Backend B} `{!BackendSpec B} `{!BackendReliable B}.
Implicit Types q : SqlStore B.

(** What the engine does with a partition: open its iterator and read it to the end. *)
Definition query (calls fuel : nat) (otxn : option storeTxn) (def : tableDef) (p : partition) : M (SqlStore B) (list row) :=
  it ← PartitionRows fuel otxn def p; drain calls fuel (tableView otxn (td_ID def)) def it.

(** The rows of a partition, over the derived keyspace [D] and an overlay. *)
Lemma query_overlay calls fuel otxn def p start stop q ot st ov pks :
  repr (q_led q) ot st -> part_ok def p start stop ->
  buildOverlay start stop def (tableView otxn (td_ID def)) (part_index def p) = Ok ov ->
  keyed_pk (part_index def p) <$> mergeOverlay (scan_spec (sql_contents q) start stop 0) ov = pks ->
  Forall (λ x, in_range start stop x.1) pks ->
  length (scan_spec (sql_contents q) start stop 0) < fuel -> length pks < calls ->
  ∃ q', query calls fuel otxn def p q =
    (sequence (row_at (s_ck (q_led q)) st (tableView otxn (td_ID def)) def <$> maybe_reverse (part_reverse p) pks.*2), q') ∧
    sreads q q'.
Proof.
  intros Hr [Hb Hi Hs Hsp] Hov Hpks Hin Hf Hc. set (D := sql_contents q) in *. set (idx := part_index def p) in *.
  set (l := mergeOverlay (scan_spec D start stop 0) ov) in *. set (otb := tableView otxn (td_ID def)) in *.
  assert (pks.*2 = entry_pk (part_secondary p) <$> l) as Hsnd by (by rewrite <-Hpks, <-list_fmap_compose, <-Hi).
  assert (length l = length pks) as Hlen by (by rewrite <-Hpks, length_fmap).
  assert (Forall (λ kv, part_secondary p = true ∨ 9 ≤ length (kv_Key kv)) l) as Hl.
  { rewrite <-Hpks, Forall_fmap in Hin. eapply Forall_impl; [exact Hin|]. cbn. intros kv Hkv. right.
    by eapply space_length, Hsp. }
  assert (∀ sec, sec = part_secondary p -> it_out D (newScanIter start stop sec ov) = l ∧
    it_rest D (newScanIter start stop sec ov) = scan_spec D start stop 0) as Hit.
  { intros sec _. split; [|done]. unfold it_out, it_masks, it_adds, l. cbn [newScanIter it_ov it_ovPos].
    destruct ov; [by rewrite drop_0|]. rewrite merge_nil_l. apply filter_id. set_solver. }
  assert (∀ sec, sec = part_secondary p -> ∃ q', drain calls fuel otb def (ScanIter (newScanIter start stop sec ov)) q =
    (sequence (row_at (s_ck (q_led q)) st otb def <$> pks.*2), q') ∧ sreads q q') as Hfwd.
  { intros sec Hsec. destruct (Hit sec Hsec) as [Eo Er].
    destruct (drain_scan D calls fuel otb def (newScanIter start stop sec ov) q ot st) as (q' & Ed & R); [done|done|by rewrite Er|rewrite Eo; lia|].
    exists q'. split; [|done]. rewrite Ed, Eo, Hsnd, Hsec. f_equal. by apply sequence_resolved. }
  unfold query. destruct p as [prefix|st' sp' sec id rev sq]; cbn [part_bounds part_secondary part_reverse] in *.
  - destruct (incBytes prefix) as [e|] eqn:Ei; [|done]. injection Hb as -> ->.
    rewrite (bind_ok _ _ _ (ScanIter (newScanIter start stop false ov)) q); [by apply Hfwd|].
    unfold PartitionRows. rewrite Ei. cbn zeta. fold otb. subst idx. cbn [part_index] in Hov. by rewrite Hov.
  - injection Hb as -> ->.
    assert (∀ f, PartitionRows fuel otxn def (indexRangePartition start stop sec id f sq) q =
      (if f : bool then it ← newReverseScanIter fuel start stop sec ov; mret (ReverseIter it)
       else mret (ScanIter (newScanIter start stop sec ov))) q) as Epart.
    { intros f. unfold PartitionRows. cbn zeta. fold otb. rewrite decide_False.
      - subst idx. cbn [part_index] in Hov. by rewrite Hov.
      - intros [-> En]. unfold idx in Hi. cbn in Hi. by rewrite En in Hi. }
    destruct rev.
    + destruct (newReverse_ok D fuel start stop sec ov q eq_refl Hf Hl) as (q1 & E1 & R1). fold l in E1.
      rewrite (bind_ok _ _ _ (ReverseIter (MkReverseIter pks.*2 (Z.of_nat (length pks.*2) - 1))) q1).
      2:{ rewrite Epart, (bind_ok _ _ _ _ _ E1). by rewrite Hsnd. }
      destruct (reverse_drain calls fuel otb def pks.*2 (length pks.*2) q1 ot st) as (q2 & E2 & R2);
        [by eapply sreads_repr|done|by rewrite length_fmap|].
      exists q2. fold otb. rewrite E2, take_ge by done. split; [|by etrans]. do 4 f_equal.
      destruct R1 as [R1 _]. apply (reads_fields _ _ R1).
    + rewrite (bind_ok _ _ _ _ _ (Epart false)). by apply Hfwd.
Qed.
End query.
