(* ===== verification/SqlCommit.v ===== *)
(** The commit path of the SQL store.

    Writing derived keys leaves the ledger as it was and a commit of the ledger leaves
    the derived keys as they were; so the commit of a transaction is one ledger batch
    and one derived batch, both determined by the buffer and the catalog, and it
    happens only when every row the buffer rewrites is still the committed one. *)

From S2P Require Import Prelude Errors Sha256 Hashing Node Aead Backend Cache Store Tree StoreRead Records StoreCommit StoreFrame GoNum SqlCodec SqlIndex SqlTxn SqlOverlay SqlStore SqlScan SqlScanOk.

(** * Derived keys *)

(** The keys of the derived keyspaces and of the version marker. *)
Definition derived (k : bytes) : Prop :=
  match k with b :: _ => b = scanPrefix ∨ b = scanMetaKey ∨ b = secondaryPrefix | [] => False end.
#[export] Instance derived_dec k : Decision (derived k).
Proof. destruct k; apply _. Defined.

Definition derived_op (op : BatchOp) : Prop := derived (bo_Key op).

Section frame.
Context `{H : Hasher} `{G : GCM} `{E : Entropy} `{MR : MapRange}.
Context {B : Type} `{BK : Backend B} `{!BackendSpec B}.
Implicit Types s : Store B.

(** The ledger's records are elsewhere: writing derived keys leaves it as it was. *)
Lemma view_derived C C' ck cipher v ot st :
  (∀ k, ¬ derived k -> C' !! k = C !! k) -> view C ck cipher v ot st -> view C' ck cipher v ot st.
Proof.
  intros Hc []. split; try done.
  - rewrite Hc; [done|]. by intros [?|[?|?]].
  - intros p t Ht. rewrite Hc; [by apply v_stored|]. by intros [?|[?|?]].
  - intros l Hl. destruct (v_leaf l Hl) as (pt & ? & ? & rec & ? & ?). exists pt. split_and!; [done..|].
    exists rec. split; [|done]. rewrite Hc; [done|]. by intros [?|[?|?]].
Qed.

Lemma repr_derived s b' ot st :
  (∀ k, ¬ derived k -> contents b' !! k = contents (s_backend s) !! k) ->
  repr s ot st -> repr (set_backend b' s) ot st.
Proof.
  intros Hc []. split; cbn; try done.
  - unfold store_ok, cache_all in *. cbn. intros k n Hn. destruct (r_ok k n Hn) as [Hk Hw].
    split; [|done]. rewrite Hc; [done|]. by intros [?|[?|?]].
  - by eapply view_derived.
  - intros nk Hw Hv. rewrite Hc; [by apply r_fresh|]. by intros [?|[?|?]].
Qed.

(** A commit of the ledger writes no derived key. *)
Lemma PutBatch_derived ops s r s' k :
  PutBatch ops s = (Ok r, s') -> derived k -> contents (s_backend s') !! k = contents (s_backend s) !! k.
Proof.
  unfold PutBatch. pose proof (keeps_computeBatch ops s) as Hq. unfold mbind, M_bind.
  destruct (computeBatch ops s) as [[[[[acc c] h]|]|e|w] s1]; cbn in Hq; try done; intros Ec Hk.
  - apply commit_atomic in Ec as [(r' & _ & ckpt & ->)|[[[e He]|[w Hw]] _]]; [|done..].
    rewrite apply_batch_notin; [by rewrite (proj1 Hq)|]. intros op Hop <-.
    unfold commit_ops in Hop. rewrite !elem_of_app, !list_elem_of_fmap in Hop.
    destruct Hop as [(x & -> & _)|[(x & -> & _)|[(x & -> & _)|Hop]]].
    all: try (by destruct Hk as [?|[?|?]]).
    rewrite !elem_of_cons in Hop. destruct Hop as [->|[->|?%not_elem_of_nil]]; [by destruct Hk as [?|[?|?]]..|done].
  - unfold Root, gets in Ec. injection Ec as _ <-. by rewrite (proj1 Hq).
Qed.
End frame.

(** * Committing *)

Section commit.
Context `{H : Hasher} `{G : GCM} `{E : Entropy} `{MR : MapRange}.
Context {B : Type} `{BK : Backend B} `{!BackendSpec B} `{!BackendReliable B}.
Context `{!GCMSpec} `{!EntropyLive}.
Implicit Types q : SqlStore B.

Definition batch_changes (s : Store B) (st : gmap Hash bytes) (ops : list Op) : Prop :=
  upd_state (batch_map (s_ck s) ops) st ≠ st.
(** The ledger state and version a batch leads to. *)
Definition after_state (s : Store B) (st : gmap Hash bytes) (ops : list Op) : gmap Hash bytes :=
  if decide (upd_state (batch_map (s_ck s) ops) st = st) then st else batch_state s st ops.
Definition after_version (s : Store B) (st : gmap Hash bytes) (ops : list Op) : N :=
  if decide (upd_state (batch_map (s_ck s) ops) st = st) then s_version s else (s_version s + 1)%N.

Lemma apply_batch_ext ops m m' k : m !! k = m' !! k -> apply_batch ops m !! k = apply_batch ops m' !! k.
Proof.
  revert m m'. induction ops as [|op ops IH]; intros m m' Hk; [done|]. cbn. apply IH. unfold apply_op.
  destruct (decide (bo_Key op = k)) as [<-|Hne].
  - destruct (bo_Delete op); by rewrite ?lookup_delete_eq, ?lookup_insert_eq.
  - destruct (bo_Delete op); by rewrite ?lookup_delete_ne, ?lookup_insert_ne.
Qed.

(** [q'] is [q] after a commit of [lo] and [so]. *)
Record sql_committed q q' (st : gmap Hash bytes) (lo : list Op) (so : list BatchOp) : Prop := {
  sc_repr : ∃ ot', repr (q_led q') ot' (after_state (q_led q) st lo);
  sc_version : s_version (q_led q') = after_version (q_led q) st lo;
  sc_ck : s_ck (q_led q') = s_ck (q_led q);
  sc_same : q' = set_led (q_led q') q;
  sc_derived : ∀ k, derived k ->
    sql_contents q' !! k = apply_batch (so ++ [marker (s_version (q_led q'))]) (sql_contents q) !! k
}.

Lemma db_write_derived ops q ot st :
  repr (q_led q) ot st -> Forall derived_op ops ->
  ∃ q', db (b_write ops) q = (Ok tt, q') ∧ repr (q_led q') ot st ∧ sql_contents q' = apply_batch ops (sql_contents q) ∧
    s_version (q_led q') = s_version (q_led q) ∧ s_ck (q_led q') = s_ck (q_led q) ∧ q' = set_led (q_led q') q.
Proof.
  intros Hr Ho. unfold db, led, raw_backend. destruct (write_ok ops (s_backend (q_led q))) as (b' & -> & Hc).
  eexists. split; [done|]. split_and!; try (by destruct q).
  eapply repr_derived; [|exact Hr]. intros k Hk. rewrite Hc. apply apply_batch_notin.
  intros op Hop <-. rewrite Forall_forall in Ho. by apply Hk, Ho.
Qed.

Lemma sqlCommit_ok q ot st lo so :
  repr (q_led q) ot st -> batch_pre (q_led q) st lo -> Forall derived_op so ->
  ∃ q', sqlCommit lo so q = (Ok tt, q') ∧ sql_committed q q' st lo so.
Proof.
  intros Hr Hp Ho.
  assert (∃ r s1 ot1, PutBatch lo (q_led q) = (Ok r, s1) ∧ repr s1 ot1 (after_state (q_led q) st lo) ∧
    s_version s1 = after_version (q_led q) st lo ∧ s_ck s1 = s_ck (q_led q)) as (r & s1 & ot1 & E1 & Hr1 & Hv1 & Hk1).
  { unfold after_state, after_version.
    destruct (PutBatch_ok _ _ _ _ Hr Hp) as [(Est & s1 & E1 & R1)|(Est & otf & s1 & E1 & Hc)].
    - rewrite !decide_True by done. do 3 eexists. split; [exact E1|]. split; [by eapply reads_repr|].
      destruct (reads_fields _ _ R1) as (? & _ & _ & _ & ? & _). done.
    - rewrite !decide_False by done. do 3 eexists. split; [exact E1|]. split_and!; apply Hc. }
  unfold sqlCommit. rewrite (bind_ok _ _ _ r (set_led s1 q)) by (unfold led; by rewrite E1).
  rewrite (bind_ok _ _ _ (s_root s1, s_version s1) (set_led s1 q)) by done. cbn.
  destruct (db_write_derived (so ++ [marker (s_version s1)]) (set_led s1 q) ot1 _ Hr1) as (q' & E2 & Hr2 & Hc2 & Hv2 & Hk2 & Hq2).
  { apply Forall_app. split; [done|]. constructor; [|constructor]. right. by left. }
  exists q'. split; [done|]. cbn in Hv2, Hk2. split; [eauto|congruence|congruence|by rewrite Hq2|].
  intros k Hk. rewrite Hc2, Hv2. apply apply_batch_ext. by eapply PutBatch_derived.
Qed.
End commit.

(** * Reads leave everything but caches alone *)

Create HintDb sread.

Section quietly.
Context `{H : Hasher} `{G : GCM} `{E : Entropy} `{MR : MapRange}.
Context {B : Type} `{BK : Backend B} `{!BackendSpec B} `{!BackendReliable B}.
Implicit Types q : SqlStore B.

Definition quietly {A} (m : M (SqlStore B) A) : Prop :=
  ∀ q ot st, repr (q_led q) ot st -> sreads q (m q).2.

Lemma quietly_ret {A} (a : A) : quietly (mret a).
Proof. by intros q ot st _. Qed.
Lemma quietly_fail {A} e : quietly (fail e : M _ A).
Proof. by intros q ot st _. Qed.
Lemma quietly_panic {A} w : quietly (panic w : M _ A).
Proof. by intros q ot st _. Qed.
Lemma quietly_gets {A} (f : SqlStore B -> A) : quietly (gets f).
Proof. by intros q ot st _. Qed.
Lemma quietly_lift {A} (o : outcome A) : quietly (lift o).
Proof. by intros q ot st _. Qed.
Lemma quietly_bind {A A'} (m : M (SqlStore B) A) (f : A -> M (SqlStore B) A') :
  quietly m -> (∀ a, quietly (f a)) -> quietly (m ≫= f).
Proof.
  intros Hm Hf q ot st Hr. specialize (Hm q ot st Hr). unfold mbind, M_bind.
  destruct (m q) as [[a|e|w] q1]; cbn in Hm |- *; [|done..]. etrans; [done|]. by eapply Hf, sreads_repr.
Qed.
Lemma quietly_foldM {A A'} (f : A -> A' -> M (SqlStore B) A) a l :
  (∀ a b, quietly (f a b)) -> quietly (foldM f a l).
Proof. intros Hf. revert a. induction l as [|b l IH]; intros a; cbn; [apply quietly_ret|]. apply quietly_bind; auto. Qed.
Lemma quietly_Get k : quietly (led (Get k)).
Proof. intros q ot st Hr. destruct (led_Get_ok k q ot st Hr) as (q' & -> & R). done. Qed.
Lemma quietly_Root : quietly (led Root).
Proof. intros q ot st Hr. unfold led, Root, gets. cbn. split; [apply reads_refl|by destruct q]. Qed.
Lemma quietly_scan a b l : quietly (db (b_scan a b l)).
Proof. intros q ot st Hr. destruct (db_scan_ok a b l q) as (q' & -> & R). done. Qed.
Lemma quietly_get k : quietly (db (b_get k)).
Proof. intros q ot st Hr. destruct (db_get_ok k q) as (q' & -> & R). done. Qed.
End quietly.

#[export] Hint Resolve quietly_ret quietly_fail quietly_panic quietly_gets quietly_lift quietly_Get quietly_Root
  quietly_scan quietly_get : sread.

Ltac quietly :=
  repeat (intros; cbn beta zeta;
    first [ progress auto with sread
          | apply quietly_bind
          | apply quietly_foldM
          | match goal with
            | |- quietly (match ?x with _ => _ end) => destruct x
            | |- quietly ((match ?x with _ => _ end) _) => destruct x
            end ]).

Section txn.
Context `{H : Hasher} `{G : GCM} `{E : Entropy} `{MR : MapRange}.
Context {B : Type} `{BK : Backend B} `{!BackendSpec B} `{!BackendReliable B}.
Implicit Types q : SqlStore B.

Lemma quietly_deref p : quietly (B := B) (deref p).
Proof. unfold deref. quietly. Qed.
Lemma quietly_tableByID id : quietly (B := B) (tableByID id).
Proof. unfold tableByID. quietly. Qed.
Lemma quietly_validate def p : quietly (validatePendingLocked (B := B) def p).
Proof. unfold validatePendingLocked. quietly. Qed.
Lemma quietly_unique_entry def idx tb p c kv : quietly (unique_entry (B := B) def idx tb p c kv).
Proof. unfold unique_entry. quietly. Qed.
Hint Resolve quietly_deref quietly_tableByID quietly_validate quietly_unique_entry : sread.
Lemma quietly_unique_row def idx tb p : quietly (unique_row (B := B) def idx tb p).
Proof. unfold unique_row. quietly. Qed.
Hint Resolve quietly_unique_row : sread.
Lemma quietly_revalidate def tb : quietly (revalidateUniqueLocked (B := B) def tb).
Proof. unfold revalidateUniqueLocked. quietly. Qed.
Lemma quietly_commit_row moved def tb acc k : quietly (commit_row (B := B) moved def tb acc k).
Proof. unfold commit_row. quietly. Qed.
Hint Resolve quietly_revalidate quietly_commit_row : sread.
Lemma quietly_commit_table moved txn acc id : quietly (commit_table (B := B) moved txn acc id).
Proof. unfold commit_table. quietly. Qed.
End txn.

#[export] Hint Resolve quietly_deref quietly_tableByID quietly_validate quietly_unique_row quietly_revalidate
  quietly_commit_row quietly_commit_table : sread.

(** * What a transaction commits *)

Definition app_ops (a b : list Op * list BatchOp) : list Op * list BatchOp := (a.1 ++ b.1, a.2 ++ b.2).

Fixpoint rows_ops (def : tableDef) (ps : list pendingRow) : outcome (list Op * list BatchOp) :=
  match ps with
  | [] => Ok ([], [])
  | p :: ps' => ops ← buildRowOps def p; rest ← rows_ops def ps'; Ok (app_ops ops rest)
  end.

Lemma rows_ops_scan def ps lo so : rows_ops def ps = Ok (lo, so) -> rows_scan_ops def ps = Ok so.
Proof.
  revert lo so. induction ps as [|p ps IH]; intros lo so; cbn [rows_ops rows_scan_ops]; [by intros [= <- <-]|].
  destruct (buildRowOps def p) as [[l1 s1]|e|w]; cbn; try done.
  destruct (rows_ops def ps) as [[l2 s2]|e|w]; cbn; try done. intros [= <- <-]. by rewrite (IH l2 s2).
Qed.

Section plan.
Context `{MR : MapRange}.

(** The rows of a buffer in the order of the commit. *)
Definition pending_list (tb : tableTxn) : list pendingRow := omap (λ k, tt_rows tb !! k) (sorted_rows tb).

Definition table_ops (def : tableDef) (tb : tableTxn) : outcome (list Op * list BatchOp) :=
  ops ← rows_ops def (pending_list tb);
  Ok (if hasAutoInc def then app_ops ops ([counter_op def], []) else ops).

Fixpoint tables_ops (cat : N -> option tableDef) (tabs : gmap N tableTxn) (ids : list N) :
    outcome (list Op * list BatchOp) :=
  match ids with
  | [] => Ok ([], [])
  | id :: ids' =>
      match cat id, tabs !! id with
      | Some def, Some tb => ops ← table_ops def tb; rest ← tables_ops cat tabs ids'; Ok (app_ops ops rest)
      | _, _ => Err ErrTxnConflict
      end
  end.

Lemma sorted_rows_perm tb : sorted_rows tb ≡ₚ (map_to_list (tt_rows tb)).*1.
Proof. unfold sorted_rows. by rewrite merge_sort_Permutation, range_perm. Qed.

Lemma omap_lookup_fst {K A} `{Countable K} (m : gmap K A) (l : list (K * A)) :
  (∀ k a, (k, a) ∈ l -> m !! k = Some a) -> omap (λ k, m !! k) l.*1 = l.*2.
Proof.
  induction l as [|[k a] l IH]; intros Hl; [done|]. cbn. rewrite (Hl k a ltac:(left)). f_equal.
  apply IH. intros k' a' Hin. apply Hl. by right.
Qed.

Lemma pending_list_perm tb : pending_list tb ≡ₚ (map_to_list (tt_rows tb)).*2.
Proof.
  unfold pending_list. rewrite sorted_rows_perm. rewrite omap_lookup_fst; [done|].
  intros k a. by rewrite elem_of_map_to_list.
Qed.

Lemma elem_of_sorted_rows tb k : k ∈ sorted_rows tb ↔ is_Some (tt_rows tb !! k).
Proof.
  rewrite sorted_rows_perm, list_elem_of_fmap. split.
  - intros ([k' a] & -> & Hin%elem_of_map_to_list). eauto.
  - intros [a Ha]. exists (k, a). by rewrite elem_of_map_to_list.
Qed.

Lemma elem_of_sorted_ids tabs id : id ∈ sorted_ids tabs ↔ is_Some (tabs !! id).
Proof.
  unfold sorted_ids. rewrite merge_sort_Permutation, range_perm, list_elem_of_fmap. split.
  - intros ([k' a] & -> & Hin%elem_of_map_to_list). eauto.
  - intros [a Ha]. exists (id, a). by rewrite elem_of_map_to_list.
Qed.
End plan.

(** Some state of the row is written. *)
Definition touched (p : pendingRow) : Prop := ¬ (p_old p = None ∧ p_new p = None).
#[export] Instance touched_dec p : Decision (touched p).
Proof. unfold touched. apply _. Defined.

Section values.
Context `{H : Hasher} `{G : GCM} `{E : Entropy} `{MR : MapRange}.
Context {B : Type} `{BK : Backend B} `{!BackendSpec B} `{!BackendReliable B}.
Implicit Types q : SqlStore B.

(** The committed entry of the row is the one the transaction started from. *)
Definition base_ok (ck : bytes) (st : gmap Hash bytes) (def : tableDef) (p : pendingRow) : Prop :=
  match p_old p, st !! pathOf ck (rowKey (td_ID def) (p_pkEnc p)) with
  | None, None => True
  | Some old, Some raw => 9 ≤ length raw ∧ encodeRow (td_Columns def) old = Ok (drop 9 raw)
  | _, _ => False
  end.

Lemma validate_ok def p q ot st q' :
  repr (q_led q) ot st -> validatePendingLocked def p q = (Ok tt, q') -> base_ok (s_ck (q_led q)) st def p.
Proof.
  intros Hr. unfold validatePendingLocked, base_ok.
  destruct (led_Get_ok (rowKey (td_ID def) (p_pkEnc p)) q ot st Hr) as (q1 & E1 & _). rewrite (bind_ok _ _ _ _ _ E1).
  destruct (p_old p) as [old|], (st !! _) as [raw|]; try done.
  unfold lift, mbind, M_bind. destruct (encodeRow (td_Columns def) old) as [enc|e|w]; try done.
  case_decide as Hd; [done|]. intros _. split; [lia|]. f_equal. destruct (decide (drop 9 raw = enc)); [done|]. tauto.
Qed.

Lemma commit_row_ok (moved : bool) def tb acc k q ot st acc' q' :
  repr (q_led q) ot st -> commit_row moved def tb acc k q = (Ok acc', q') ->
  ∃ p ops, tt_rows tb !! k = Some p ∧ buildRowOps def p = Ok ops ∧ acc' = app_ops acc ops ∧
    (moved = true -> touched p -> base_ok (s_ck (q_led q)) st def p).
Proof.
  intros Hr. unfold commit_row, touched. destruct (tt_rows tb !! k) as [p|]; [|done]. case_decide as Hn.
  - intros [= <- <-]. exists p, ([], []). destruct Hn as [Ho Hw]. unfold buildRowOps. rewrite Ho, Hw.
    split_and!; [done..| |tauto]. unfold app_ops. cbn. rewrite !app_nil_r. by destruct acc.
  - intros Hb. apply bind_inv_ok in Hb as ([] & q1 & E1 & Hb). unfold lift, mbind, M_bind in Hb.
    destruct (buildRowOps def p) as [[lo so]|e|w] eqn:Eb; try done. injection Hb as <- <-.
    exists p, (lo, so). split_and!; [done..|]. intros -> _. by eapply validate_ok.
Qed.

Lemma commit_rows_ok (moved : bool) def tb acc ks q ot st acc' q' :
  repr (q_led q) ot st -> foldM (commit_row moved def tb) acc ks q = (Ok acc', q') ->
  ∃ ops, rows_ops def (omap (λ k, tt_rows tb !! k) ks) = Ok ops ∧ acc' = app_ops acc ops ∧
    (moved = true -> ∀ k p, k ∈ ks -> tt_rows tb !! k = Some p -> touched p -> base_ok (s_ck (q_led q)) st def p).
Proof.
  revert acc q. induction ks as [|k ks IH]; intros acc q Hr; cbn [foldM].
  { intros [= <- <-]. exists ([], []). split_and!; [done| |by intros _ k p ?%not_elem_of_nil].
    unfold app_ops. cbn. rewrite !app_nil_r. by destruct acc. }
  intros Hb. apply bind_inv_ok in Hb as (acc1 & q1 & E1 & Hb).
  pose proof (quietly_commit_row moved def tb acc k q ot st Hr) as R1. rewrite E1 in R1. cbn in R1.
  assert (s_ck (q_led q1) = s_ck (q_led q)) as Eck by (destruct R1 as [R _]; apply (reads_fields _ _ R)).
  apply (commit_row_ok _ _ _ _ _ _ _ _ _ _ Hr) in E1 as (p & ops & Hp & Eo & -> & Hv).
  destruct (IH _ _ (sreads_repr _ _ _ _ R1 Hr) Hb) as (ops' & Eo' & -> & Hv'). rewrite Eck in Hv'.
  exists (app_ops ops ops'). cbn. rewrite Hp. cbn. rewrite Eo, Eo'. cbn. split_and!; [done| |].
  - unfold app_ops. cbn. by rewrite !app_assoc.
  - intros Hm k' p' [->|Hk']%elem_of_cons Hp'; [|by eapply Hv']. rewrite Hp in Hp'. injection Hp' as <-. auto.
Qed.

(** ** The catalog *)

Definition table_ptr q (id : N) : option defptr :=
  snd <$> (list_find (λ np, td_ID <$> q_defs q !! np.2 = Some id) (range_map (q_tables q)) ≫= λ x, Some x.2).
Definition catalog q (id : N) : option tableDef := table_ptr q id ≫= λ p, q_defs q !! p.

Lemma tableByID_run id q : tableByID id q = (Ok (table_ptr q id), q).
Proof. done. Qed.

Lemma deref_run p q def q' : deref p q = (Ok def, q') -> q_defs q !! p = Some def ∧ q' = q.
Proof. unfold deref. rewrite bind_gets. destruct (q_defs q !! p); [|done]. by intros [= <- <-]. Qed.

Lemma catalog_id q id def : catalog q id = Some def -> td_ID def = id.
Proof.
  unfold catalog, table_ptr. destruct (list_find _ _) as [[i [n p]]|] eqn:Ef; cbn; [|done].
  apply list_find_Some in Ef as (_ & Hid & _). cbn in Hid. intros Hp. rewrite Hp in Hid. by injection Hid.
Qed.

Lemma sreads_catalog q q' id : sreads q q' -> catalog q' id = catalog q id.
Proof. intros [_ ->]. done. Qed.

Lemma commit_table_ok (moved : bool) txn acc id q ot st acc' q' :
  repr (q_led q) ot st -> commit_table moved txn acc id q = (Ok acc', q') ->
  ∃ def tb ops, catalog q id = Some def ∧ tx_tables txn !! id = Some tb ∧ table_ops def tb = Ok ops ∧
    acc' = app_ops acc ops ∧
    (moved = true -> ∀ k p, tt_rows tb !! k = Some p -> touched p -> base_ok (s_ck (q_led q)) st def p).
Proof.
  intros Hr. unfold commit_table. destruct (tx_tables txn !! id) as [tb|] eqn:Et; [|done].
  rewrite (bind_ok _ _ _ _ _ (tableByID_run id q)). unfold catalog. destruct (table_ptr q id) as [p|]; [|done].
  intros Hb. apply bind_inv_ok in Hb as (def & q0 & Ed & Hb). apply deref_run in Ed as [Ed ->].
  apply bind_inv_ok in Hb as (acc1 & q1 & E1 & Hb).
  apply bind_inv_ok in Hb as ([] & q2 & _ & Hb). injection Hb as <- _.
  apply (commit_rows_ok _ _ _ _ _ _ _ _ _ _ Hr) in E1 as (ops & Eo & -> & Hv).
  exists def, tb. unfold table_ops, pending_list. rewrite Eo. cbn. eexists. split_and!; [done..| |].
  - destruct (hasAutoInc def); unfold app_ops; cbn; by rewrite ?app_nil_r, ?app_assoc.
  - intros Hm k p' Hp'. eapply Hv; [done| |done]. apply elem_of_sorted_rows. eauto.
Qed.

Lemma app_ops_nil_r a : app_ops a ([], []) = a.
Proof. unfold app_ops. cbn. rewrite !app_nil_r. by destruct a. Qed.
Lemma app_ops_assoc a b c : app_ops a (app_ops b c) = app_ops (app_ops a b) c.
Proof. unfold app_ops. cbn. by rewrite !app_assoc. Qed.

(** The transaction's rows are what is committed now. *)
Definition txn_base (ck : bytes) (st : gmap Hash bytes) (cat : N -> option tableDef) (txn : storeTxn) : Prop :=
  ∀ id def tb k p, cat id = Some def -> tx_tables txn !! id = Some tb -> tt_rows tb !! k = Some p -> touched p ->
    base_ok ck st def p.

Lemma commit_tables_ok (moved : bool) txn acc ids q ot st acc' q' :
  repr (q_led q) ot st -> foldM (commit_table moved txn) acc ids q = (Ok acc', q') ->
  ∃ ops, tables_ops (catalog q) (tx_tables txn) ids = Ok ops ∧ acc' = app_ops acc ops ∧
    (moved = true -> ∀ id def tb k p, id ∈ ids -> catalog q id = Some def -> tx_tables txn !! id = Some tb ->
       tt_rows tb !! k = Some p -> touched p -> base_ok (s_ck (q_led q)) st def p).
Proof.
  revert acc q. induction ids as [|id ids IH]; intros acc q Hr; cbn [foldM].
  { intros [= <- <-]. exists ([], []). split_and!; [done|by rewrite app_ops_nil_r|]. by intros _ id def tb k p ?%not_elem_of_nil. }
  intros Hb. apply bind_inv_ok in Hb as (acc1 & q1 & E1 & Hb).
  pose proof (quietly_commit_table moved txn acc id q ot st Hr) as R1. rewrite E1 in R1. cbn in R1.
  assert (s_ck (q_led q1) = s_ck (q_led q)) as Eck by (destruct R1 as [R _]; apply (reads_fields _ _ R)).
  apply (commit_table_ok _ _ _ _ _ _ _ _ _ Hr) in E1 as (def & tb & ops & Hcat & Htb & Eo & -> & Hv).
  destruct (IH _ _ (sreads_repr _ _ _ _ R1 Hr) Hb) as (ops' & Eo' & -> & Hv').
  assert (∀ i, catalog q1 i = catalog q i) as Ecat by (intros i; by apply sreads_catalog).
  assert (tables_ops (catalog q1) (tx_tables txn) ids = tables_ops (catalog q) (tx_tables txn) ids) as Et.
  { clear -Ecat. induction ids as [|i ids IHi]; cbn; [done|]. by rewrite Ecat, IHi. }
  rewrite Et in Eo'. exists (app_ops ops ops'). cbn. rewrite Hcat, Htb, Eo. cbn. rewrite Eo'. cbn.
  split_and!; [done|by rewrite app_ops_assoc|].
  intros Hm id' def' tb' k p [->|Hin]%elem_of_cons Hc' Ht'; [rewrite Hcat in Hc'; rewrite Htb in Ht'; naive_solver|].
  rewrite <-Ecat in Hc'. rewrite <-Eck. by eapply Hv'.
Qed.

(** ** Every derived operation is one *)

Lemma index_ops_derived def r pk b ops : indexOps def r pk b = Ok ops -> Forall derived_op ops.
Proof.
  intros [_ Ho]%index_ops_spec. apply Forall_forall. intros op (ix & k & _ & Ek & ->)%Ho.
  apply (entry_at_space def (Some ix)) in Ek as [s ->]. destruct b; right; by right.
Qed.

Lemma row_ops_derived def p lo so : buildRowOps def p = Ok (lo, so) -> Forall derived_op so.
Proof.
  intros (od & oa & Eo & En & ->)%buildRowOps_scan. rewrite !Forall_app. split_and!.
  - unfold scan_op. destruct (p_new p), (p_old p); repeat constructor.
  - destruct (p_old p); cbn in Eo; [by eapply index_ops_derived|by injection Eo as <-].
  - destruct (p_new p); cbn in En; [by eapply index_ops_derived|by injection En as <-].
Qed.

Lemma rows_ops_derived def ps lo so : rows_ops def ps = Ok (lo, so) -> Forall derived_op so.
Proof.
  revert lo so. induction ps as [|p ps IH]; intros lo so; cbn [rows_ops]; [intros [= <- <-]; constructor|].
  destruct (buildRowOps def p) as [[l1 s1]|e|w] eqn:E1; cbn; try done.
  destruct (rows_ops def ps) as [[l2 s2]|e|w] eqn:E2; cbn; try done. intros [= <- <-].
  apply Forall_app. split; [by eapply row_ops_derived|by eapply IH].
Qed.

Lemma tables_ops_derived cat tabs ids lo so : tables_ops cat tabs ids = Ok (lo, so) -> Forall derived_op so.
Proof.
  revert lo so. induction ids as [|id ids IH]; intros lo so; cbn [tables_ops]; [intros [= <- <-]; constructor|].
  destruct (cat id) as [def|]; [|done]. destruct (tabs !! id) as [tb|]; [|done]. unfold table_ops.
  destruct (rows_ops def (pending_list tb)) as [[l1 s1]|e|w] eqn:E1; cbn; try done.
  destruct (tables_ops cat tabs ids) as [[l2 s2]|e|w] eqn:E2; cbn; try done. intros [= <- <-].
  apply Forall_app. split; [|by eapply IH]. apply rows_ops_derived in E1.
  destruct (hasAutoInc def); cbn; rewrite ?app_nil_r; done.
Qed.

(** A transaction without ledger operations has no derived ones. *)
Lemma row_ops_nil def p so : buildRowOps def p = Ok ([], so) -> so = [].
Proof.
  unfold buildRowOps. destruct (p_new p) as [new|].
  - destruct (encodeRow _ _) as [enc|e|w]; cbn; try done.
    destruct (match p_old p with Some _ => _ | None => _ end) as [od|e|w]; cbn; try done.
    by destruct (indexOps def new _ _).
  - destruct (p_old p) as [old|]; [by destruct (indexOps def old _ _)|by intros [= <-]].
Qed.

Lemma rows_ops_nil def ps so : rows_ops def ps = Ok ([], so) -> so = [].
Proof.
  revert so. induction ps as [|p ps IH]; intros so; cbn [rows_ops]; [by intros [= <-]|].
  destruct (buildRowOps def p) as [[l1 s1]|e|w] eqn:E1; cbn; try done.
  destruct (rows_ops def ps) as [[l2 s2]|e|w] eqn:E2; cbn; try done. intros [= [-> ->]%app_nil <-].
  by rewrite (row_ops_nil _ _ _ E1), (IH s2).
Qed.

Lemma tables_ops_nil cat tabs ids so : tables_ops cat tabs ids = Ok ([], so) -> so = [].
Proof.
  revert so. induction ids as [|id ids IH]; intros so; cbn [tables_ops]; [by intros [= <-]|].
  destruct (cat id) as [def|]; [|done]. destruct (tabs !! id) as [tb|]; [|done]. unfold table_ops.
  destruct (rows_ops def (pending_list tb)) as [[l1 s1]|e|w] eqn:E1; cbn; try done.
  destruct (tables_ops cat tabs ids) as [[l2 s2]|e|w] eqn:E2; cbn; try done.
  destruct (hasAutoInc def); intros [= [El ->]%app_nil <-]; [by apply app_nil in El as [_ ?]|].
  subst l1. cbn. by rewrite (rows_ops_nil _ _ _ E1), (IH s2).
Qed.
End values.

(** ** A commit with nothing to validate runs through *)

Section runs.
Context `{H : Hasher} `{G : GCM} `{E : Entropy} `{MR : MapRange} {B : Type} `{BK : Backend B}.
Implicit Types q : SqlStore B.

Lemma commit_row_run def tb acc k p ops q :
  tt_rows tb !! k = Some p -> buildRowOps def p = Ok ops -> commit_row false def tb acc k q = (Ok (app_ops acc ops), q).
Proof.
  intros Hp Eo. unfold commit_row. rewrite Hp. case_decide as Hn.
  - destruct Hn as [Ho Hw]. unfold buildRowOps in Eo. rewrite Ho, Hw in Eo. injection Eo as <-. by rewrite app_ops_nil_r.
  - rewrite Eo. by destruct ops.
Qed.

Lemma commit_rows_run def tb acc ks ops q :
  (∀ k, k ∈ ks -> is_Some (tt_rows tb !! k)) -> rows_ops def (omap (λ k, tt_rows tb !! k) ks) = Ok ops ->
  foldM (commit_row false def tb) acc ks q = (Ok (app_ops acc ops), q).
Proof.
  revert acc ops. induction ks as [|k ks IH]; intros acc ops Hk; cbn [foldM omap list_omap].
  { intros [= <-]. by rewrite app_ops_nil_r. }
  destruct (Hk k ltac:(left)) as [p Ep]. rewrite Ep. cbn [rows_ops].
  destruct (buildRowOps def p) as [o1|e|w] eqn:E1; cbn [mbind outcome_bind]; try done.
  destruct (rows_ops def _) as [o2|e|w] eqn:E2; cbn; try done. intros [= <-].
  rewrite (bind_ok _ _ _ _ _ (commit_row_run _ _ _ _ _ _ _ Ep E1)), app_ops_assoc.
  apply IH; [|done]. intros k' Hk'. apply Hk. by right.
Qed.

Lemma commit_table_run txn acc id def tb ops q :
  catalog q id = Some def -> tx_tables txn !! id = Some tb -> table_ops def tb = Ok ops ->
  commit_table false txn acc id q = (Ok (app_ops acc ops), q).
Proof.
  intros Hc Ht Eo. unfold commit_table. rewrite Ht, (bind_ok _ _ _ _ _ (tableByID_run id q)). unfold catalog in Hc.
  destruct (table_ptr q id) as [p|]; [|done]. cbn in Hc.
  rewrite (bind_ok _ _ _ def q) by (unfold deref; rewrite bind_gets, Hc; done).
  unfold table_ops in Eo. destruct (rows_ops def (pending_list tb)) as [o1|e|w] eqn:E1; cbn in Eo; try done. injection Eo as <-.
  rewrite (bind_ok _ _ _ (app_ops acc o1) q).
  2:{ apply commit_rows_run; [|done]. intros k. by rewrite elem_of_sorted_rows. }
  rewrite bind_ret. destruct (hasAutoInc def); [|done]. rewrite app_ops_assoc. unfold app_ops. cbn. by rewrite app_nil_r.
Qed.

Lemma commit_tables_run txn acc ids ops q :
  tables_ops (catalog q) (tx_tables txn) ids = Ok ops ->
  foldM (commit_table false txn) acc ids q = (Ok (app_ops acc ops), q).
Proof.
  revert acc ops. induction ids as [|id ids IH]; intros acc ops; cbn [tables_ops foldM].
  { intros [= <-]. by rewrite app_ops_nil_r. }
  destruct (catalog q id) as [def|] eqn:Ec; [|done]. destruct (tx_tables txn !! id) as [tb|] eqn:Et; [|done].
  destruct (table_ops def tb) as [o1|e|w] eqn:E1; cbn; try done.
  destruct (tables_ops (catalog q) (tx_tables txn) ids) as [o2|e|w]; cbn; try done. intros [= <-].
  rewrite (bind_ok _ _ _ _ _ (commit_table_run _ _ _ _ _ _ _ Ec Et E1)), app_ops_assoc. by apply IH.
Qed.
End runs.

(** ** The commit of a transaction *)

Section commit_txn.
Context `{H : Hasher} `{G : GCM} `{E : Entropy} `{MR : MapRange}.
Context {B : Type} `{BK : Backend B} `{!BackendSpec B} `{!BackendReliable B}.
Context `{!GCMSpec} `{!EntropyLive}.
Implicit Types q : SqlStore B.

Definition txn_ops q (txn : storeTxn) : outcome (list Op * list BatchOp) :=
  tables_ops (catalog q) (tx_tables txn) (sorted_ids (tx_tables txn)).

Lemma sql_committed_reads q q1 q2 st lo so :
  sreads q q1 -> sql_committed q1 q2 st lo so -> sql_committed q q2 st lo so.
Proof.
  intros R [Hr Hv Hk Hs Hd]. destruct R as [R Eq]. destruct (reads_fields _ _ R) as (Ek & _ & _ & _ & Ev & _).
  assert (after_state (q_led q1) st lo = after_state (q_led q) st lo ∧
    after_version (q_led q1) st lo = after_version (q_led q) st lo) as [Ea Eav].
  { unfold after_state, after_version. rewrite Ek, Ev. by rewrite (proj1 (batch_reads _ _ st lo R)). }
  split; [by rewrite <-Ea|congruence|congruence| |].
  - rewrite Hs, Eq. by destruct q.
  - intros k Hdk. rewrite (Hd k Hdk). unfold sql_contents. by rewrite (reads_contents _ _ R).
Qed.

(** The ledger accepts the batch of the transaction. *)
Definition txn_pre q (st : gmap Hash bytes) (txn : storeTxn) : Prop :=
  ∀ lo so, txn_ops q txn = Ok (lo, so) -> batch_pre (q_led q) st lo.

Lemma commitTxn_cases q ot st txn o q' :
  repr (q_led q) ot st -> txn_pre q st txn -> commitTxn txn q = (o, q') ->
  ((o = Ok tt ∧ txn_ops q txn = Ok ([], [])) ∨ is_ok o = false) ∧ sreads q q' ∨
  o = Ok tt ∧ ∃ lo so, txn_ops q txn = Ok (lo, so) ∧ lo ≠ [] ∧ sql_committed q q' st lo so ∧
    (s_version (q_led q) ≠ tx_baseVersion txn -> txn_base (s_ck (q_led q)) st (catalog q) txn).
Proof.
  intros Hr Hp. unfold commitTxn. case_decide as Hz.
  { intros [= <- <-]. left. split; [|done]. left. split; [done|]. apply map_size_empty_inv in Hz.
    unfold txn_ops, sorted_ids. rewrite Hz.
    assert ((range_map (∅ : gmap N tableTxn)).*1 = []) as ->; [|done].
    pose proof (length_range (∅ : gmap N tableTxn)) as Hl. rewrite map_size_empty in Hl. by destruct (range_map ∅). }
  rewrite (bind_ok _ _ _ (s_root (q_led q), s_version (q_led q)) q) by (unfold led, Root, gets; cbn; by destruct q).
  cbn zeta. set (moved := bool_decide _).
  pose proof (quietly_foldM (commit_table moved txn) ([], []) (sorted_ids (tx_tables txn))
    (λ a b, quietly_commit_table moved txn a b) q ot st Hr) as R1.
  unfold mbind at 1, M_bind at 1.
  destruct (foldM (commit_table moved txn) ([], []) (sorted_ids (tx_tables txn)) q) as [[[lo so]|e|w] q1] eqn:Ef;
    cbn in R1; [|intros [= <- <-]; by left; split; [right|]..].
  apply (commit_tables_ok _ _ _ _ _ _ _ _ _ Hr) in Ef as (ops & Eo & Ea & Hv). cbn in Ea.
  assert (txn_ops q txn = Ok (lo, so)) as Eo' by (unfold txn_ops; rewrite Eo; destruct ops; by injection Ea as <- <-).
  specialize (Hp _ _ Eo').
  destruct lo as [|op lo].
  { intros [= <- <-]. left. split; [|done]. left. split; [done|]. by rewrite (tables_ops_nil _ _ _ _ Eo') in Eo'. }
  assert (s_ck (q_led q1) = s_ck (q_led q)) as Eck by (destruct R1 as [R _]; apply (reads_fields _ _ R)).
  destruct (batch_reads _ _ st (op :: lo) (proj1 R1)) as [Es Hp1].
  destruct (sqlCommit_ok q1 ot st (op :: lo) so) as (q2 & E2 & Hc).
  { by eapply sreads_repr. }
  { by apply Hp1. }
  { by eapply tables_ops_derived. }
  rewrite E2. intros [= <- <-]. right. split; [done|]. exists (op :: lo), so. split_and!; [done..| |].
  - by eapply sql_committed_reads.
  - intros Hne. assert (moved = true) as Hm by (by apply bool_decide_eq_true).
    intros id def tb k p Hcat Htb. eapply Hv; [done|apply elem_of_sorted_ids; eauto|done..].
Qed.

(** A transaction no other commit got ahead of is committed. *)
Lemma commitTxn_runs q ot st txn ops :
  repr (q_led q) ot st -> txn_pre q st txn -> txn_ops q txn = Ok ops ->
  s_version (q_led q) = tx_baseVersion txn -> (commitTxn txn q).1 = Ok tt.
Proof.
  intros Hr Hp Eo Hv. unfold commitTxn. case_decide; [done|].
  rewrite (bind_ok _ _ _ (s_root (q_led q), s_version (q_led q)) q) by (unfold led, Root, gets; cbn; by destruct q).
  cbn zeta. rewrite bool_decide_false by tauto. destruct ops as [lo so].
  rewrite (bind_ok _ _ _ (lo, so) q) by (by apply (commit_tables_run txn ([], []) _ (lo, so))).
  destruct lo as [|op lo]; [done|]. destruct (sqlCommit_ok q ot st (op :: lo) so Hr) as (q2 & E2 & _).
  { by eapply Hp. }
  { by eapply tables_ops_derived. }
  by rewrite E2.
Qed.
End commit_txn.
