(* ===== verification/SqlTorn.v ===== *)
(** Commits on storage that fails.

    [sqlledger/store.go] commits in two steps: one ledger batch, then one write of the
    derived keyspaces and their version marker.  Nothing is assumed here of storage but
    its contract, so every call may fail and every record may be missing or altered.
    Whatever fails before the ledger batch is written leaves everything as it was; what
    fails afterwards leaves the ledger committed and the derived keyspaces, marker
    included, as they were. *)

From S2P Require Import Prelude Errors Sha256 Hashing Node Aead Backend Cache Store Tree StoreRead Records StoreCommit StoreFrame GoNum SqlCodec SqlIndex SqlTxn SqlOverlay SqlStore SqlScan SqlScanOk SqlCommit.

Create HintDb calm.

Section calm.
Context `{H : Hasher} `{G : GCM} `{E : Entropy} `{MR : MapRange}.
Context {B : Type} `{BK : Backend B} `{!BackendSpec B}.
Implicit Types q : SqlStore B.

(** Nothing changed but the cache and the entropy counter of the ledger. *)
Definition squiet q q' : Prop := quiet (q_led q) (q_led q') ∧ q' = set_led (q_led q') q.

#[export] Instance squiet_refl : Reflexive squiet.
Proof. intros q. split; [done|by destruct q]. Qed.
#[export] Instance squiet_trans : Transitive squiet.
Proof. intros q1 q2 q3 [Q1 E1] [Q2 E2]. split; [by etrans|]. rewrite E2 at 1. rewrite E1 at 1. by destruct q1. Qed.

(** Every run of the computation leaves the store so. *)
Definition calmly {A} (m : M (SqlStore B) A) : Prop := ∀ q, squiet q (m q).2.

Lemma calmly_pure {A} (m : M (SqlStore B) A) : (∀ q, (m q).2 = q) -> calmly m.
Proof. intros Hm q. by rewrite Hm. Qed.
Lemma calmly_ret {A} (a : A) : calmly (mret a).
Proof. by apply calmly_pure. Qed.
Lemma calmly_fail {A} e : calmly (fail e : M _ A).
Proof. by apply calmly_pure. Qed.
Lemma calmly_panic {A} w : calmly (panic w : M _ A).
Proof. by apply calmly_pure. Qed.
Lemma calmly_gets {A} (f : SqlStore B -> A) : calmly (gets f).
Proof. by apply calmly_pure. Qed.
Lemma calmly_lift {A} (o : outcome A) : calmly (lift o).
Proof. by apply calmly_pure. Qed.
Lemma calmly_bind {A A'} (m : M (SqlStore B) A) (f : A -> M (SqlStore B) A') :
  calmly m -> (∀ a, calmly (f a)) -> calmly (m ≫= f).
Proof.
  intros Hm Hf q. specialize (Hm q). unfold mbind, M_bind.
  destruct (m q) as [[a|e|w] q1]; cbn in Hm |- *; [|done..]. etrans; [done|apply Hf].
Qed.
Lemma calmly_foldM {A A'} (f : A -> A' -> M (SqlStore B) A) a l : (∀ a b, calmly (f a b)) -> calmly (foldM f a l).
Proof. intros Hf. revert a. induction l as [|b l IH]; intros a; cbn; [apply calmly_ret|]. apply calmly_bind; auto. Qed.
Lemma calmly_led {A} (m : M (Store B) A) : keeps m -> calmly (led m).
Proof. intros Hk q. unfold led. specialize (Hk (q_led q)). destruct (m (q_led q)) as [o s]. split; [done|by destruct q]. Qed.
Lemma calmly_Get k : calmly (led (Get k)).
Proof. apply calmly_led. auto with quiet. Qed.
Lemma calmly_Root : calmly (led Root).
Proof. apply calmly_led. unfold Root. auto with quiet. Qed.
Lemma calmly_scan a b l : calmly (db (b_scan a b l)).
Proof.
  apply calmly_led. intros s. unfold raw_backend. destruct (b_scan a b l (s_backend s)) as [o b'] eqn:Es.
  destruct (scan_spec_law _ _ _ _ _ _ Es) as [Hc _]. cbn. split; [done|by destruct s].
Qed.
End calm.

#[export] Hint Resolve calmly_ret calmly_fail calmly_panic calmly_gets calmly_lift calmly_Get calmly_Root calmly_scan : calm.

Ltac calmly :=
  repeat (intros; cbn beta zeta;
    first [ progress auto with calm
          | apply calmly_bind
          | apply calmly_foldM
          | match goal with
            | |- calmly (match ?x with _ => _ end) => destruct x
            | |- calmly ((match ?x with _ => _ end) _) => destruct x
            end ]).

Section torn.
Context `{H : Hasher} `{G : GCM} `{E : Entropy} `{MR : MapRange}.
Context {B : Type} `{BK : Backend B} `{!BackendSpec B}.
Implicit Types q : SqlStore B.

Lemma calmly_deref p : calmly (B := B) (deref p).
Proof. unfold deref. calmly. Qed.
Lemma calmly_tableByID id : calmly (B := B) (tableByID id).
Proof. unfold tableByID. calmly. Qed.
Lemma calmly_validate def p : calmly (validatePendingLocked (B := B) def p).
Proof. unfold validatePendingLocked. calmly. Qed.
Lemma calmly_unique_entry def idx tb p c kv : calmly (unique_entry (B := B) def idx tb p c kv).
Proof. unfold unique_entry. calmly. Qed.
Hint Resolve calmly_deref calmly_tableByID calmly_validate calmly_unique_entry : calm.
Lemma calmly_unique_row def idx tb p : calmly (unique_row (B := B) def idx tb p).
Proof. unfold unique_row. calmly. Qed.
Hint Resolve calmly_unique_row : calm.
Lemma calmly_revalidate def tb : calmly (revalidateUniqueLocked (B := B) def tb).
Proof. unfold revalidateUniqueLocked. calmly. Qed.
Lemma calmly_commit_row moved def tb acc k : calmly (commit_row (B := B) moved def tb acc k).
Proof. unfold commit_row. calmly. Qed.
Hint Resolve calmly_revalidate calmly_commit_row : calm.
Lemma calmly_commit_table moved txn acc id : calmly (commit_table (B := B) moved txn acc id).
Proof. unfold commit_table. calmly. Qed.

(** ** The operations are the transaction's, whatever storage says *)

Lemma rows_collected (moved : bool) def tb acc ks q acc' q' :
  foldM (commit_row (B := B) moved def tb) acc ks q = (Ok acc', q') ->
  ∃ ops, rows_ops def (omap (λ k, tt_rows tb !! k) ks) = Ok ops ∧ acc' = app_ops acc ops.
Proof.
  revert acc q. induction ks as [|k ks IH]; intros acc q; cbn [foldM].
  { intros [= <- <-]. exists ([], []). by rewrite app_ops_nil_r. }
  intros (acc1 & q1 & E1 & (ops & Eo & ->)%IH)%bind_inv_ok. unfold commit_row in E1. cbn [omap list_omap].
  destruct (tt_rows tb !! k) as [p|]; [|done]. cbn [rows_ops].
  assert (∃ o1, buildRowOps def p = Ok o1 ∧ acc1 = app_ops acc o1) as (o1 & Eb & ->).
  { case_decide as Hn.
    - injection E1 as <- _. destruct Hn as [Ho Hw]. exists ([], []). unfold buildRowOps. by rewrite Ho, Hw, app_ops_nil_r.
    - apply bind_inv_ok in E1 as (u & q2 & _ & E1). unfold lift, mbind, M_bind in E1.
      destruct (buildRowOps def p) as [[lo so]|e|w]; try done. injection E1 as <- _. by exists (lo, so). }
  exists (app_ops o1 ops). rewrite Eb. cbn [mbind outcome_bind]. rewrite Eo. cbn. by rewrite app_ops_assoc.
Qed.

Lemma tables_collected (moved : bool) txn acc ids q acc' q' :
  foldM (commit_table (B := B) moved txn) acc ids q = (Ok acc', q') ->
  ∃ ops, tables_ops (catalog q) (tx_tables txn) ids = Ok ops ∧ acc' = app_ops acc ops.
Proof.
  revert acc q. induction ids as [|id ids IH]; intros acc q; cbn [foldM].
  { intros [= <- <-]. exists ([], []). by rewrite app_ops_nil_r. }
  intros (acc1 & q1 & E1 & (ops & Eo & ->)%IH)%bind_inv_ok.
  pose proof (calmly_commit_table moved txn acc id q) as [_ Eq]. rewrite E1 in Eq. cbn [snd] in Eq.
  assert (catalog q1 = catalog q) as Ec by (rewrite Eq; done). rewrite Ec in Eo.
  unfold commit_table in E1. cbn [tables_ops]. destruct (tx_tables txn !! id) as [tb|]; [|done].
  rewrite (bind_ok _ _ _ _ _ (tableByID_run id q)) in E1. unfold catalog at 1. destruct (table_ptr q id) as [p|]; [|done].
  apply bind_inv_ok in E1 as (def & q0 & Ed & E1). apply deref_run in Ed as [Ed ->].
  apply bind_inv_ok in E1 as (acc2 & q2 & (o1 & Er & ->)%rows_collected & E1).
  apply bind_inv_ok in E1 as (u & q3 & _ & E1). injection E1 as <- _. cbn. rewrite Ed. unfold table_ops, pending_list.
  rewrite Er. cbn. rewrite Eo. cbn. eexists. split; [done|].
  destruct (hasAutoInc def); unfold app_ops; cbn; by rewrite ?app_nil_r, !app_assoc.
Qed.

(** ** A commit that fails *)

(** The ledger took the batch [lo]; nothing else was written. *)
Record torn q q' (lo : list Op) : Prop := {
  tn_batch : ∃ q1 r s, squiet q q1 ∧ PutBatch lo (q_led q1) = (Ok r, s) ∧
    contents (s_backend (q_led q')) = contents (s_backend s) ∧ s_root (q_led q') = s_root s ∧ s_version (q_led q') = s_version s;
  tn_derived : ∀ k, derived k -> sql_contents q' !! k = sql_contents q !! k;
  tn_same : q' = set_led (q_led q') q
}.

Lemma sqlCommit_fails lo so q o q' :
  sqlCommit lo so q = (o, q') -> is_ok o = false -> squiet q q' ∨ (∃ er, o = Err er) ∧ torn q q' lo.
Proof.
  unfold sqlCommit. intros Hrun Ho. unfold mbind at 1, M_bind at 1, led at 1 in Hrun.
  destruct (PutBatch lo (q_led q)) as [op s] eqn:Ep. pose proof (PutBatch_atomic _ _ _ _ Ep) as Hat.
  destruct op as [r|er|wh].
  2,3: injection Hrun as <- <-; destruct Hat as [[? ?]|[_ Hq]]; [done|]; left; split; [exact Hq|by destruct q].
  clear Hat. right. rewrite (bind_ok _ _ _ (s_root s, s_version s) (set_led s q)) in Hrun by done. cbn in Hrun.
  unfold db, led, raw_backend in Hrun. cbn [q_led set_led] in Hrun.
  destruct (b_write (so ++ [marker (s_version s)]) (s_backend s)) as [ow b'] eqn:Ew. injection Hrun as <- <-.
  destruct (write_spec _ _ _ _ Ew) as [[-> _]|[[er ->] Hc]]; [done|]. split; [by eexists|]. split; [|intros k Hk|by destruct q].
  - exists q, r, s. split_and!; [reflexivity|exact Ep|exact Hc|done..].
  - unfold sql_contents. cbn. rewrite Hc. by eapply PutBatch_derived.
Qed.

Lemma torn_after q q1 q' lo : squiet q q1 -> torn q1 q' lo -> torn q q' lo.
Proof.
  intros Hq [(q2 & r & s & Q2 & Ep & F) Hd Hs]. split.
  - exists q2, r, s. split; [by etrans|done].
  - intros k Hk. rewrite (Hd k Hk). unfold sql_contents. destruct Hq as [[-> _] _]. done.
  - rewrite Hs. destruct Hq as [_ ->]. by destruct q.
Qed.

Lemma commitTxn_fails txn q o q' :
  commitTxn txn q = (o, q') -> is_ok o = false ->
  squiet q q' ∨ (∃ er, o = Err er) ∧ ∃ lo so, txn_ops q txn = Ok (lo, so) ∧ lo ≠ [] ∧ torn q q' lo.
Proof.
  unfold commitTxn. case_decide as Hz; [by intros [= <- <-]|]. intros Hrun Ho.
  rewrite (bind_ok _ _ _ (s_root (q_led q), s_version (q_led q)) q) in Hrun by (unfold led, Root, gets; cbn; by destruct q).
  cbn zeta in Hrun. set (moved := bool_decide _) in Hrun.
  pose proof (calmly_foldM (commit_table moved txn) ([], []) (sorted_ids (tx_tables txn))
    (λ a b, calmly_commit_table moved txn a b) q) as R1.
  unfold mbind at 1, M_bind at 1 in Hrun.
  destruct (foldM (commit_table moved txn) ([], []) (sorted_ids (tx_tables txn)) q) as [[[lo so]|e|w] q1] eqn:Ef;
    cbn in R1; [|injection Hrun as <- <-; by left..].
  apply tables_collected in Ef as (ops & Eo & Ea).
  assert (txn_ops q txn = Ok (lo, so)) as Eo' by (unfold txn_ops; rewrite Eo; destruct ops; by injection Ea as <- <-).
  destruct lo as [|op lo]; [injection Hrun as <- <-; by left|].
  destruct (sqlCommit_fails _ _ _ _ _ Hrun Ho) as [Hq|[He Ht]]; [left; by etrans|right].
  split; [done|]. exists (op :: lo), so. split_and!; [done..|by eapply torn_after].
Qed.
End torn.
