(* ===== verification/SqlRefine.v ===== *)
(** The SQL store refines tables.

    The abstract state is a map from table ids to maps from primary keys to rows.
    [sql_ok] relates a store to its tables: rows are ledger entries, derived keyspaces
    hold exactly the entries of the rows.  A query, inside a transaction or not,
    returns the rows of its range in key order ([query_ok]); the commit of a
    transaction updates the tables by its buffer, or changes nothing
    ([commitTxn_refines]). *)

From S2P Require Import Prelude Errors Sha256 Hashing Node Aead Backend Cache Store Tree StoreRead Records StoreCommit StoreFrame GoNum SqlCodec SqlIndex SqlTxn SqlOverlay SqlStore SqlScan SqlScanOk SqlCommit.

(** * Tables as maps *)

Abbreviation database := (gmap N (gmap bytes row)).

Definition trow (T : database) (id : N) (pk : bytes) : option row := T !! id ≫= λ rows, rows !! pk.

(** The effect of a buffer on the rows of a table. *)
Definition apply_buffer (tb : tableTxn) (rows : gmap bytes row) : gmap bytes row :=
  merge (λ op r, match op with
                 | Some p => if decide (touched p) then p_new p else r
                 | None => r
                 end) (tt_rows tb) rows.

Lemma lookup_apply_buffer tb rows pk :
  apply_buffer tb rows !! pk =
  match tt_rows tb !! pk with
  | Some p => if decide (touched p) then p_new p else rows !! pk
  | None => rows !! pk
  end.
Proof. unfold apply_buffer. rewrite lookup_merge. by destruct (tt_rows tb !! pk), (rows !! pk). Qed.

Definition apply_txn (tabs : gmap N tableTxn) (T : database) : database :=
  merge (λ ob orows, match ob with
                     | Some tb => Some (apply_buffer tb (default ∅ orows))
                     | None => orows
                     end) tabs T.

Definition trows (T : database) (id : N) : gmap bytes row := default ∅ (T !! id).

Lemma lookup_trows T id pk : trows T id !! pk = trow T id pk.
Proof. unfold trows, trow. destruct (T !! id); cbn; [done|]. apply lookup_empty. Qed.

Lemma trows_apply tabs T id :
  trows (apply_txn tabs T) id = match tabs !! id with Some tb => apply_buffer tb (trows T id) | None => trows T id end.
Proof. unfold trows, apply_txn. rewrite lookup_merge. by destruct (tabs !! id), (T !! id). Qed.

(** ** The derived keyspaces of a table *)

(** The keyspace of every index of the table holds exactly the entries of its rows. *)
Definition derived_ok (D : gmap bytes bytes) (def : tableDef) (rows : gmap bytes row) : Prop :=
  ∀ idx k v, index_of def idx -> in_space def idx k ->
    D !! k = Some v ↔ ∃ pk r, rows !! pk = Some r ∧ entry_at def idx r pk = Ok k ∧ v = entry_value idx pk.

Definition buffer_keyed (tb : tableTxn) : Prop := map_Forall (λ k p, p_pkEnc p = k) (tt_rows tb).

(** The rows the buffer rewrites are the committed ones. *)
Definition buffer_based (tb : tableTxn) (rows : gmap bytes row) : Prop :=
  ∀ k p, tt_rows tb !! k = Some p -> touched p -> p_old p = rows !! k.

Lemma puts_touched def idx p k : puts def idx p k -> touched p.
Proof. intros (r & Hr & _) [_ Hn]. congruence. Qed.
Lemma dels_touched def idx p k : dels def idx p k -> touched p.
Proof. intros (r & Hr & _) [Hn _]. congruence. Qed.

Lemma derived_step D def tb rows ps so :
  def_ids def -> buffer_keyed tb -> buffer_based tb rows -> ps ≡ₚ (map_to_list (tt_rows tb)).*2 ->
  rows_scan_ops def ps = Ok so -> derived_ok D def rows -> derived_ok (apply_batch so D) def (apply_buffer tb rows).
Proof.
  intros Hd Hk Hb Hps Hso Hok idx k v Hi Hsp.
  assert (NoDup (p_pkEnc <$> ps)) as Hnd by (rewrite Hps; by apply (buffer_keys tb)).
  destruct (rows_ops_effect def idx Hd Hi ps so D k Hsp Hso Hnd) as (E1 & E2 & E3).
  assert (∀ p, p ∈ ps ↔ tt_rows tb !! p_pkEnc p = Some p) as Hin.
  { intros p. rewrite Hps, list_elem_of_fmap. split.
    - intros ([k' p'] & -> & Hp'%elem_of_map_to_list). cbn. by rewrite (Hk k' p' Hp').
    - intros Hp. exists (p_pkEnc p, p). by rewrite elem_of_map_to_list. }
  split.
  - intros Hv. destruct (decide (Exists (λ p, puts def idx p k) ps)) as [(p & Hp & Hpu)%Exists_exists|Hno].
    + rewrite (E1 p Hp Hpu) in Hv. injection Hv as <-. destruct Hpu as (r & Hr & He). exists (p_pkEnc p), r.
      split_and!; [|done..]. rewrite lookup_apply_buffer, (proj1 (Hin p) Hp), decide_True; [done|].
      by eapply (puts_touched def idx p k); exists r.
    + rewrite Exists_exists in Hno. assert (∀ p, p ∈ ps -> ¬ puts def idx p k) as Hnp by (intros p Hp ?; apply Hno; eauto).
      assert (∀ p, p ∈ ps -> ¬ dels def idx p k) as Hnd'.
      { intros p Hp Hde. rewrite (E2 p Hp Hde (Hnp p Hp)) in Hv. done. }
      rewrite E3 in Hv by auto. apply (Hok idx k v Hi Hsp) in Hv as (pk & r & Hr & He & ->). exists pk, r.
      split_and!; [|done..]. rewrite lookup_apply_buffer. destruct (tt_rows tb !! pk) as [p|] eqn:Ep; [|done].
      case_decide as Ht; [|done]. exfalso. assert (p_pkEnc p = pk) as Epk by (by apply (Hk pk p)).
      apply (Hnd' p); [apply Hin; by rewrite Epk|]. exists r. by rewrite Epk, (Hb pk p Ep Ht).
  - intros (pk & r & Hr & He & ->). rewrite lookup_apply_buffer in Hr.
    assert (∀ p, p ∈ ps -> puts def idx p k ∨ dels def idx p k -> tt_rows tb !! pk = Some p ∧ touched p) as Htouch.
    { intros p Hp Hpd. assert (p_pkEnc p = pk) as <-.
      { destruct Hpd as [(r' & _ & He')|(r' & _ & He')]; by eapply entry_at_inj. }
      split; [by apply Hin|]. destruct Hpd; [by eapply puts_touched|by eapply dels_touched]. }
    assert (rows !! pk = Some r -> (∀ p, tt_rows tb !! pk = Some p -> ¬ touched p) ->
      apply_batch so D !! k = Some (entry_value idx pk)) as Hold.
    { intros Hr' Hnt. rewrite E3.
      - apply (Hok idx k _ Hi Hsp). eauto.
      - intros p Hp. split; intros Hpd; edestruct (Htouch p Hp) as [Hp' Ht]; eauto; by eapply Hnt. }
    destruct (tt_rows tb !! pk) as [p|] eqn:Ep; [|apply Hold; [done|naive_solver]].
    case_decide as Ht; [|apply Hold; [done|naive_solver]].
    assert (p_pkEnc p = pk) as <- by (by apply (Hk pk p)). apply E1; [by apply Hin|]. by exists r.
Qed.

(** * The rows of a range *)

(** An entry of the specification: its key, and the primary key and row it stands for. *)
Abbreviation entry := (bytes * (bytes * row))%type.
Definition entry_le (a b : entry) : Prop := bytes_le a.1 b.1.
#[export] Instance entry_le_dec : RelDecision entry_le.
Proof. intros a b. unfold entry_le. apply _. Defined.
#[export] Instance entry_le_trans : Transitive entry_le.
Proof. intros a b c. unfold entry_le. apply bytes_le_trans. Qed.
#[export] Instance entry_le_total : Total entry_le.
Proof. intros a b. unfold entry_le. apply bytes_le_total. Qed.

(** The entries of the rows of a table in the keyspace of [idx], in range and in key
    order. *)
Definition entry_in (def : tableDef) (idx : option indexDef) (start stop : bytes) (pr : bytes * row) : option entry :=
  match entry_at def idx pr.2 pr.1 with
  | Ok k => if decide (in_range start stop k) then Some (k, pr) else None
  | _ => None
  end.
Definition spec_entries (def : tableDef) (idx : option indexDef) (start stop : bytes) (rows : gmap bytes row) : list entry :=
  merge_sort entry_le (omap (entry_in def idx start stop) (map_to_list rows)).
Definition spec_rows (def : tableDef) (idx : option indexDef) (start stop : bytes) (rows : gmap bytes row) : list row :=
  (λ e, e.2.2) <$> spec_entries def idx start stop rows.

Lemma elem_of_spec def idx start stop rows k pk r :
  (k, (pk, r)) ∈ spec_entries def idx start stop rows ↔
  rows !! pk = Some r ∧ entry_at def idx r pk = Ok k ∧ in_range start stop k.
Proof.
  unfold spec_entries. rewrite merge_sort_Permutation, list_elem_of_omap. unfold entry_in. split.
  - intros ([pk' r'] & Hin%elem_of_map_to_list & He). cbn in He.
    destruct (entry_at def idx r' pk') as [k'|e|w] eqn:Ea; try done. case_decide; [|done]. by injection He as <- <- <-.
  - intros (Hr & He & Hin). exists (pk, r). rewrite elem_of_map_to_list. cbn. by rewrite He, decide_True.
Qed.

Lemma spec_sorted def idx start stop rows :
  StronglySorted (λ a b, bytes_lt a.1 b.1) (spec_entries def idx start stop rows).
Proof.
  apply (sorted_strict fst); [apply (StronglySorted_merge_sort entry_le)|].
  unfold spec_entries. rewrite merge_sort_Permutation.
  assert (NoDup (omap (entry_in def idx start stop) (map_to_list rows))) as Hn.
  { pose proof (NoDup_map_to_list rows) as Hn. induction Hn as [|[pk r] l Hx Hn IH]; cbn; [constructor|].
    destruct (entry_in def idx start stop (pk, r)) as [e|] eqn:Ee; [|done]. constructor; [|done].
    intros (y & Hy & Ey)%list_elem_of_omap. unfold entry_in in *. apply Hx.
    repeat (case_match; try done). by simplify_eq. }
  apply NoDup_fmap_2_strong; [|done]. intros [k [pk r]] [k' [pk' r']] H1 H2 Heq. cbn in Heq. subst k'.
  assert (∀ e, e ∈ omap (entry_in def idx start stop) (map_to_list rows) ->
    rows !! e.2.1 = Some e.2.2 ∧ entry_at def idx e.2.2 e.2.1 = Ok e.1) as Hel.
  { intros [k0 [p0 r0]] Hin. assert ((k0, (p0, r0)) ∈ spec_entries def idx start stop rows) as (? & ? & _)%elem_of_spec.
    { unfold spec_entries. by rewrite merge_sort_Permutation. } done. }
  apply Hel in H1 as [Hr1 He1], H2 as [Hr2 He2]. cbn in *.
  assert (pk = pk') as <- by (by eapply entry_at_inj). congruence.
Qed.

Lemma scan_derived D def idx start stop rows :
  derived_ok D def rows -> index_of def idx -> (∀ k, in_range start stop k -> in_space def idx k) ->
  keyed_pk idx <$> scan_spec D start stop 0 = (λ e, (e.1, e.2.1)) <$> spec_entries def idx start stop rows.
Proof.
  intros Hd Hi Hsp.
  assert (∀ k v pk r, entry_at def idx r pk = Ok k -> v = entry_value idx pk -> entry_pk (is_secondary idx) (MkKV k v) = pk) as Hpk.
  { intros k v pk r He ->. unfold entry_pk. destruct idx as [ix|]; cbn [is_secondary entry_value]; [done|].
    cbn in *. injection He as <-. unfold scanKey. cbn [drop].
    by rewrite drop_app_ge_len by apply length_be. }
  apply (sorted_ext fst).
  - pose proof (scan_sorted D start stop 0) as Hs. induction Hs as [|x l Hs IH Hf]; cbn; constructor; [done|].
    by rewrite Forall_fmap.
  - pose proof (spec_sorted def idx start stop rows) as Hs. induction Hs as [|x l Hs IH Hf]; cbn; constructor; [done|].
    by rewrite Forall_fmap.
  - intros [k pk]. rewrite !list_elem_of_fmap. split.
    + intros ([k' v] & [= -> ->] & [Hr Hv]%elem_of_scan). cbn in Hr, Hv.
      apply (Hd idx k' v Hi (Hsp _ Hr)) in Hv as (pk & r & Hrow & He & Hv). exists (k', (pk, r)).
      split; [|by apply elem_of_spec]. cbn. f_equal. by eapply Hpk.
    + intros ([k' [pk' r]] & [= -> ->] & (Hrow & He & Hr)%elem_of_spec). cbn.
      exists (MkKV k' (entry_value idx pk')). split; [unfold keyed_pk; cbn; f_equal; symmetry; by eapply Hpk|].
      apply elem_of_scan. split; [done|]. cbn. apply (Hd idx _ _ Hi (Hsp _ Hr)). eauto.
Qed.

(** * The SQL store against its tables *)

Definition row_enc (def : tableDef) (r : row) : bytes :=
  match encodeRow (td_Columns def) r with Ok enc => enc | _ => [] end.

(** A row of the types of the table's columns, whose encoding has a Go length. *)
Definition row_fits (def : tableDef) (r : row) : Prop :=
  Forall2 fits_col (td_Columns def) r ∧ (Z.of_nat (length (row_enc def r)) < 2 ^ 63)%Z.

Lemma row_fits_enc def r :
  row_fits def r -> encodeRow (td_Columns def) r = Ok (row_enc def r) ∧ decodeRow (td_Columns def) (row_enc def r) = Ok r.
Proof.
  unfold row_fits, row_enc. intros [Hf Hl]. destruct (decodeRow_encodeRow _ _ Hf) as (data & E1 & E2).
  rewrite E1 in *. auto.
Qed.

Lemma rowKey_inj id id' pk pk' : is_u64 id -> is_u64 id' -> rowKey id pk = rowKey id' pk' -> id = id' ∧ pk = pk'.
Proof.
  intros Hi Hi'. unfold rowKey, rowKeyPrefix. rewrite <-!app_assoc. intros Eq%(inj (app _)).
  apply app_inj_len in Eq as [Eb ->]; [|by rewrite !length_be]. split; [|done]. by apply be8_inj.
Qed.

(** The version the marker of the derived keyspaces names. *)
Definition applied_of (D : gmap bytes bytes) : N :=
  match D !! [scanMetaKey] with
  | Some r => if decide (length r = 8) then unbe r else 0%N
  | None => 0%N
  end.

Definition is_row_key (k : bytes) : Prop := ∃ id pk, k = rowKey id pk.

Definition keys_apart `{Hasher} (ck : bytes) (ks : list bytes) : Prop :=
  ∀ k k', k ∈ ks -> k' ∈ ks -> pathOf ck k = pathOf ck k' -> k = k'.

(** The keys of the rows of the tables, and of the rows of a transaction. *)
Definition row_keys (T : database) : list bytes :=
  x ← map_to_list T; (λ pr, rowKey x.1 pr.1) <$> map_to_list x.2.
Definition txn_keys (tabs : gmap N tableTxn) : list bytes :=
  x ← map_to_list tabs; (λ pr, rowKey x.1 pr.1) <$> map_to_list (tt_rows x.2).

Lemma elem_of_row_keys T k : k ∈ row_keys T ↔ ∃ id pk r, trow T id pk = Some r ∧ k = rowKey id pk.
Proof.
  unfold row_keys, trow. rewrite list_elem_of_bind. split.
  - intros ([id rows] & ([pk r] & -> & Hr%elem_of_map_to_list)%list_elem_of_fmap & Hid%elem_of_map_to_list).
    exists id, pk, r. by rewrite Hid.
  - intros (id & pk & r & Hr & ->). destruct (T !! id) as [rows|] eqn:Hid; [|done]. exists (id, rows).
    rewrite elem_of_map_to_list, list_elem_of_fmap. split; [|done]. exists (pk, r). by rewrite elem_of_map_to_list.
Qed.

Lemma elem_of_txn_keys tabs k :
  k ∈ txn_keys tabs ↔ ∃ id tb pk p, tabs !! id = Some tb ∧ tt_rows tb !! pk = Some p ∧ k = rowKey id pk.
Proof.
  unfold txn_keys. rewrite list_elem_of_bind. split.
  - intros ([id tb] & ([pk p] & -> & Hr%elem_of_map_to_list)%list_elem_of_fmap & Hid%elem_of_map_to_list). eauto 10.
  - intros (id & tb & pk & p & Hid & Hp & ->). exists (id, tb).
    rewrite elem_of_map_to_list, list_elem_of_fmap. split; [|done]. exists (pk, p). by rewrite elem_of_map_to_list.
Qed.

Section refine.
Context `{H : Hasher} `{G : GCM} `{E : Entropy} `{MR : MapRange}.
Context {B : Type} `{BK : Backend B} `{!BackendSpec B} `{!BackendReliable B}.
Implicit Types q : SqlStore B.

(** The ids of the catalog tell tables and indexes apart. *)
Record catalog_ok q : Prop := {
  co_u64 : ∀ id def, catalog q id = Some def -> is_u64 id ∧ def_ids def;
  co_apart : ∀ id def ix id' def' ix', catalog q id = Some def -> catalog q id' = Some def' ->
    ix ∈ td_Indexes def -> ix' ∈ td_Indexes def' -> ix_ID ix = ix_ID ix' -> id = id'
}.

(** The store holds the tables [T]: every row is one ledger entry, the derived
    keyspaces hold exactly the entries of the rows, and the marker names the ledger's
    version.  [O] lists the ledger keys that are not rows (catalog, counters, the head
    of the history chain). *)
Record sql_ok (O : list bytes) q (st : gmap Hash bytes) (T : database) : Prop := {
  so_repr : ∃ ot, repr (q_led q) ot st;
  so_cat : catalog_ok q;
  so_rows : ∀ id pk r, trow T id pk = Some r -> ∃ def, catalog q id = Some def ∧ row_fits def r ∧
    st !! pathOf (s_ck (q_led q)) (rowKey id pk) = Some (row_payload def (row_enc def r));
  so_dom : ∀ h, is_Some (st !! h) -> ∃ k, h = pathOf (s_ck (q_led q)) k ∧ (k ∈ O ∨ k ∈ row_keys T);
  so_derived : ∀ id def, catalog q id = Some def -> derived_ok (sql_contents q) def (trows T id);
  so_marker : applied_of (sql_contents q) = s_version (q_led q)
}.

(** ** Reading *)

(** What the rows of a table are inside a transaction. *)
Definition visible (otb : option tableTxn) (rows : gmap bytes row) : gmap bytes row :=
  match otb with Some tb => apply_buffer tb rows | None => rows end.

(** A buffer that is based on the committed rows. *)
Record buffer_ok (def : tableDef) (rows : gmap bytes row) (tb : tableTxn) : Prop := {
  bo_keyed : buffer_keyed tb;
  bo_based : ∀ k p, tt_rows tb !! k = Some p -> p_old p = rows !! k;
  bo_ops : is_ok (rows_scan_ops def (pending_list tb)) = true
}.

Lemma drop_payload def enc : drop 9 (row_payload def enc) = enc.
Proof. unfold row_payload. cbn [drop]. by rewrite drop_app_ge_len by apply length_be. Qed.

Lemma row_of_payload def r : is_u64 (td_ID def) -> row_fits def r ->
  row_of_entry def true (Some (row_payload def (row_enc def r))) = Ok r.
Proof.
  intros Hu Hf. apply row_fits_enc in Hf as [_ Hd]. unfold row_of_entry, row_payload.
  fold (row_payload def (row_enc def r)). rewrite decide_False, drop_payload; [done|]. unfold row_payload. intros [Hl|[?|[_ Hid]]]; [|done|].
  - cbn in Hl. rewrite length_app, length_be in Hl. lia.
  - apply Hid. cbn [drop]. by rewrite drop_0, take_app_ge_len, unbe_be8 by (done || apply length_be).
Qed.

Lemma row_at_visible O q st T def otb pk r :
  sql_ok O q st T -> catalog q (td_ID def) = Some def ->
  (∀ tb, otb = Some tb -> buffer_ok def (trows T (td_ID def)) tb) ->
  visible otb (trows T (td_ID def)) !! pk = Some r -> row_at (s_ck (q_led q)) st otb def pk = Ok r.
Proof.
  intros Hok Hcat Hb Hv. unfold row_at, visible in *.
  assert (trows T (td_ID def) !! pk = Some r ->
    row_of_entry def true (st !! pathOf (s_ck (q_led q)) (rowKey (td_ID def) pk)) = Ok r) as Hcommitted.
  { rewrite lookup_trows. intros Hr. destruct (so_rows _ _ _ _ Hok _ _ _ Hr) as (def' & Hcat' & Hf & ->).
    rewrite Hcat in Hcat'. injection Hcat' as <-. apply row_of_payload; [|done].
    by destruct (co_u64 _ (so_cat _ _ _ _ Hok) _ _ Hcat). }
  destruct otb as [tb|]; cbn; [|auto]. specialize (Hb tb eq_refl). rewrite lookup_apply_buffer in Hv.
  destruct (tt_rows tb !! pk) as [p|] eqn:Ep; cbn; [|auto]. case_decide as Ht; [by rewrite Hv|].
  destruct (decide (p_old p = None)) as [Ho|Ho]; [|exfalso; apply Ht; intros [? _]; done].
  rewrite <-(bo_based _ _ _ Hb _ _ Ep), Ho in Hv. done.
Qed.

(** A query returns the rows of its range, as they are inside the transaction. *)
Lemma query_ok O q st T calls fuel otxn def p start stop :
  sql_ok O q st T -> catalog q (td_ID def) = Some def -> part_ok def p start stop ->
  let otb := tableView otxn (td_ID def) in
  let rows := trows T (td_ID def) in
  (∀ tb, otb = Some tb -> buffer_ok def rows tb) ->
  length (spec_rows def (part_index def p) start stop rows) < fuel ->
  length (spec_rows def (part_index def p) start stop (visible otb rows)) < calls ->
  ∃ q', query calls fuel otxn def p q =
    (Ok (maybe_reverse (part_reverse p) (spec_rows def (part_index def p) start stop (visible otb rows))), q') ∧ sreads q q'.
Proof.
  intros Hok Hcat Hp otb rows Hb Hf Hc. pose proof (so_repr _ _ _ _ Hok) as [ot Hr].
  pose proof (part_index_of def p) as Hi. pose proof (so_derived _ _ _ _ Hok _ _ Hcat) as Hder.
  destruct (co_u64 _ (so_cat _ _ _ _ Hok) _ _ Hcat) as [_ Hids]. set (idx := part_index def p) in *.
  set (es := spec_entries def idx start stop (visible otb rows)).
  assert (∃ ov, buildOverlay start stop def otb idx = Ok ov ∧
    keyed_pk idx <$> mergeOverlay (scan_spec (sql_contents q) start stop 0) ov = (λ e, (e.1, e.2.1)) <$> es) as (ov & Eov & Em).
  { destruct otb as [tb|]; [|by exists None; split; [|apply scan_derived; [..|apply Hp]]].
    destruct (Hb tb eq_refl) as [Hk Hbs Hops]. destruct (rows_scan_ops def (pending_list tb)) as [so|e|w] eqn:Eso; try done.
    destruct (overlay_scan def idx tb start stop (pending_list tb) Hids Hi Hk (pending_list_perm tb) (po_stop _ _ _ _ Hp)
      (po_space _ _ _ _ Hp) so (sql_contents q) Eso) as (ov & Eov & Em).
    exists ov. split; [done|]. rewrite Em. apply scan_derived; [|done|apply Hp].
    eapply derived_step; [done..| |by apply pending_list_perm|done|done]. intros k pr Hpr _. by apply Hbs. }
  destruct (query_overlay calls fuel otxn def p start stop q ot st ov _ Hr Hp Eov Em) as (q' & Eq & R).
  - rewrite Forall_fmap. apply Forall_forall. intros [k [pk r]] (_ & _ & Hin)%elem_of_spec. done.
  - assert (length (scan_spec (sql_contents q) start stop 0) = length (spec_rows def idx start stop rows)) as ->; [|done].
    pose proof (f_equal length (scan_derived _ _ idx start stop _ Hder Hi (po_space _ _ _ _ Hp))) as Hl.
    rewrite !length_fmap in Hl. unfold spec_rows. by rewrite length_fmap.
  - rewrite length_fmap. unfold spec_rows in Hc. rewrite length_fmap in Hc. exact Hc.
  - exists q'. split; [|done]. rewrite Eq. f_equal. fold otb.
    assert (∀ l, (∀ e, e ∈ l -> e ∈ es) -> sequence (row_at (s_ck (q_led q)) st otb def <$> ((λ e, (e.1, e.2.1)) <$> l).*2) =
      Ok ((λ e, e.2.2) <$> l)) as Hseq.
    { induction l as [|[k [pk r]] l IH]; intros Hl; [done|]. cbn [fmap list_fmap sequence fst snd].
      assert (row_at (s_ck (q_led q)) st otb def pk = Ok r) as ->.
      { destruct (proj1 (elem_of_spec _ _ _ _ _ _ _ _) (Hl _ ltac:(left))) as (Hv & _ & _). by eapply row_at_visible. }
      cbn [mbind outcome_bind]. setoid_rewrite IH; [done|]. intros e He. apply Hl. by right. }
    unfold maybe_reverse, spec_rows. fold idx es. destruct (part_reverse p); [|by apply Hseq].
    rewrite <-!fmap_reverse. apply Hseq. intros e. by rewrite elem_of_reverse.
Qed.

(** ** Committing: the ledger side *)

Lemma batch_map_snoc ck ops op :
  batch_map ck (ops ++ [op]) =
  <[pathOf ck (op_Key op) := if op_Delete op then None else Some (op_Value op)]> (batch_map ck ops).
Proof. unfold batch_map. by rewrite foldl_app. Qed.

Lemma batch_map_notin ck ops h : (∀ op, op ∈ ops -> pathOf ck (op_Key op) ≠ h) -> batch_map ck ops !! h = None.
Proof.
  induction ops as [|op ops IH] using rev_ind; intros Hn; [apply lookup_empty|]. rewrite batch_map_snoc.
  rewrite lookup_insert_ne by (apply Hn, elem_of_app; right; left). apply IH. intros op' Hin. apply Hn, elem_of_app. by left.
Qed.

Lemma batch_map_in ck ops h e :
  (∃ op, op ∈ ops ∧ pathOf ck (op_Key op) = h) ->
  (∀ op, op ∈ ops -> pathOf ck (op_Key op) = h -> (if op_Delete op then None else Some (op_Value op)) = e) ->
  batch_map ck ops !! h = Some e.
Proof.
  induction ops as [|op ops IH] using rev_ind; intros (op0 & Hin & Hh) Hall; [by apply not_elem_of_nil in Hin|].
  rewrite batch_map_snoc. destruct (decide (pathOf ck (op_Key op) = h)) as [E0|E0].
  - rewrite E0, lookup_insert_eq. f_equal. apply Hall; [apply elem_of_app; right; left|done].
  - rewrite lookup_insert_ne by done. apply IH; [|intros; apply Hall; [apply elem_of_app; by left|done]].
    apply elem_of_app in Hin as [?| ->%list_elem_of_singleton]; [eauto|done].
Qed.

Lemma batch_map_inv ck ops h e :
  batch_map ck ops !! h = Some e ->
  ∃ op, op ∈ ops ∧ pathOf ck (op_Key op) = h ∧ (if op_Delete op then None else Some (op_Value op)) = e.
Proof.
  induction ops as [|op ops IH] using rev_ind; [done|]. rewrite batch_map_snoc.
  intros [[<- <-]|[_ Hl]]%lookup_insert_Some.
  - exists op. split; [apply elem_of_app; right; left|done].
  - destruct (IH Hl) as (op' & ? & ?). exists op'. split; [apply elem_of_app; by left|done].
Qed.

(** The ledger operation of one row. *)
Definition row_op (id : N) (def : tableDef) (p : pendingRow) : Op :=
  match p_new p with
  | Some r => Put (rowKey id (p_pkEnc p)) (row_payload def (row_enc def r))
  | None => Del (rowKey id (p_pkEnc p))
  end.

Lemma buildRowOps_led def p lo so :
  buildRowOps def p = Ok (lo, so) -> ∀ op, op ∈ lo ↔ touched p ∧ op = row_op (td_ID def) def p.
Proof.
  unfold buildRowOps, row_op, row_enc, touched. destruct (p_new p) as [new|].
  - destruct (encodeRow _ new) as [enc|e|w]; cbn; try done.
    destruct (match p_old p with Some _ => _ | None => _ end) as [od|e|w]; cbn; try done.
    destruct (indexOps def new _ _) as [oa|e|w]; cbn; try done. intros [= <- <-] op.
    rewrite list_elem_of_singleton. naive_solver.
  - destruct (p_old p) as [old|].
    + destruct (indexOps def old _ _) as [od|e|w]; cbn; try done. intros [= <- <-] op.
      rewrite list_elem_of_singleton. naive_solver.
    + intros [= <- <-] op. split; [by intros ?%not_elem_of_nil|tauto].
Qed.

Lemma rows_ops_led def ps lo so :
  rows_ops def ps = Ok (lo, so) -> ∀ op, op ∈ lo ↔ ∃ p, p ∈ ps ∧ touched p ∧ op = row_op (td_ID def) def p.
Proof.
  revert lo so. induction ps as [|p ps IH]; intros lo so; cbn [rows_ops].
  { intros [= <- <-] op. split; [by intros ?%not_elem_of_nil|by intros (p & ?%not_elem_of_nil & _)]. }
  destruct (buildRowOps def p) as [[l1 s1]|e|w] eqn:E1; cbn; try done.
  destruct (rows_ops def ps) as [[l2 s2]|e|w] eqn:E2; cbn; try done. intros [= <- <-] op.
  rewrite elem_of_app, (buildRowOps_led _ _ _ _ E1), (IH l2 s2 eq_refl). setoid_rewrite elem_of_cons. naive_solver.
Qed.

Lemma elem_of_pending tb p : buffer_keyed tb -> p ∈ pending_list tb ↔ tt_rows tb !! p_pkEnc p = Some p.
Proof.
  intros Hk. rewrite pending_list_perm, list_elem_of_fmap. split.
  - intros ([k' p'] & -> & Hp'%elem_of_map_to_list). cbn. by rewrite (Hk k' p' Hp').
  - intros Hp. exists (p_pkEnc p, p). by rewrite elem_of_map_to_list.
Qed.

(** A row operation of the transaction, or the counter of one of its tables. *)
Definition led_op (cat : N -> option tableDef) (tabs : gmap N tableTxn) (op : Op) : Prop :=
  ∃ id def tb, cat id = Some def ∧ tabs !! id = Some tb ∧
    ((∃ p, p ∈ pending_list tb ∧ touched p ∧ op = row_op (td_ID def) def p) ∨ hasAutoInc def = true ∧ op = counter_op def).

Lemma tables_ops_led cat tabs ids lo so :
  tables_ops cat tabs ids = Ok (lo, so) ->
  (∀ op, op ∈ lo -> led_op cat tabs op) ∧
  (∀ id tb def p, id ∈ ids -> cat id = Some def -> tabs !! id = Some tb -> p ∈ pending_list tb -> touched p ->
     row_op (td_ID def) def p ∈ lo).
Proof.
  revert lo so. induction ids as [|id ids IH]; intros lo so; cbn [tables_ops].
  { intros [= <- <-]. split; [by intros op ?%not_elem_of_nil|by intros id tb def p ?%not_elem_of_nil]. }
  destruct (cat id) as [def|] eqn:Ec; [|done]. destruct (tabs !! id) as [tb|] eqn:Et; [|done]. unfold table_ops.
  destruct (rows_ops def (pending_list tb)) as [[l1 s1]|e|w] eqn:E1; cbn; try done.
  destruct (tables_ops cat tabs ids) as [[l2 s2]|e|w] eqn:E2; cbn; try done. intros [= <- <-].
  destruct (IH l2 s2 eq_refl) as [IH1 IH2]. pose proof (rows_ops_led _ _ _ _ E1) as Hl. split.
  - intros op [Hop|Hop]%elem_of_app; [|by apply IH1]. exists id, def, tb. split_and!; [done..|].
    destruct (hasAutoInc def); cbn in Hop; [apply elem_of_app in Hop as [Hop|Hop%list_elem_of_singleton]|];
      [left; by apply Hl|by right|left; by apply Hl].
  - intros id' tb' def' p [->|Hin]%elem_of_cons Hc' Ht' Hp Htp; apply elem_of_app; [left|right; by eapply IH2].
    rewrite Ec in Hc'. rewrite Et in Ht'. injection Hc' as <-. injection Ht' as <-.
    assert (row_op (td_ID def) def p ∈ l1) as Hin by (apply Hl; eauto).
    destruct (hasAutoInc def); cbn; [apply elem_of_app; by left|done].
Qed.

Lemma tables_ops_cat cat tabs ids ops id : tables_ops cat tabs ids = Ok ops -> id ∈ ids -> is_Some (cat id).
Proof.
  revert ops. induction ids as [|id' ids IH]; intros ops; cbn [tables_ops]; [by intros _ ?%not_elem_of_nil|].
  destruct (cat id') as [def|] eqn:Ec; [|done]. destruct (tabs !! id') as [tb|]; [|done].
  destruct (table_ops def tb) as [o1|e|w]; cbn; try done.
  destruct (tables_ops cat tabs ids) as [o2|e|w]; cbn; try done. intros _ [->|Hin]%elem_of_cons; eauto.
Qed.

(** The buffers of a transaction are keyed by their primary keys and hold rows of the
    types of the columns. *)
Record txn_wf (cat : N -> option tableDef) (tabs : gmap N tableTxn) : Prop := {
  tw_keyed : ∀ id tb, tabs !! id = Some tb -> buffer_keyed tb;
  tw_fits : ∀ id tb def k p r, tabs !! id = Some tb -> cat id = Some def -> tt_rows tb !! k = Some p ->
    p_old p = Some r ∨ p_new p = Some r -> row_fits def r
}.

(** Ledger keys that are not rows: the head of the history chain and the counters are
    among them. *)
Record other_keys (O : list bytes) (cat : N -> option tableDef) : Prop := {
  ok_head : HistoryKey ∈ O;
  ok_rows : ∀ k, k ∈ O -> ¬ is_row_key k;
  ok_counters : ∀ id def, cat id = Some def -> hasAutoInc def = true -> autoIncKey id ∈ O
}.

(** The ledger operations of buffers: one for every row they change, and counters. *)
Record commit_plan (cat : N -> option tableDef) (tabs : gmap N tableTxn) (lo : list Op) : Prop := {
  pl_led : ∀ op, op ∈ lo -> led_op cat tabs op;
  pl_rows : ∀ id tb def p, cat id = Some def -> tabs !! id = Some tb -> p ∈ pending_list tb -> touched p ->
    row_op (td_ID def) def p ∈ lo;
  pl_cat : ∀ id, is_Some (tabs !! id) -> is_Some (cat id)
}.

Lemma tables_ops_plan cat tabs lo so :
  tables_ops cat tabs (sorted_ids tabs) = Ok (lo, so) -> commit_plan cat tabs lo.
Proof.
  intros Hops. destruct (tables_ops_led _ _ _ _ _ Hops) as [Hl Hr]. split; [done| |].
  - intros id tb def p Hc Ht. apply (Hr id tb); [apply elem_of_sorted_ids; eauto|done..].
  - intros id Hid%elem_of_sorted_ids. by eapply tables_ops_cat.
Qed.

Section commit_led.
Variables (O : list bytes) (q : SqlStore B) (st : gmap Hash bytes) (T : database) (tabs : gmap N tableTxn).
Variables (lo : list Op).
Hypothesis Hok : sql_ok O q st T.
Hypothesis HO : other_keys O (catalog q).
Hypothesis Hwf : txn_wf (catalog q) tabs.
Hypothesis Hap : keys_apart (s_ck (q_led q)) (O ++ row_keys T ++ txn_keys tabs).
Hypothesis Hplan : commit_plan (catalog q) tabs lo.
Abbreviation ck := (s_ck (q_led q)).

Definition known (k : bytes) : Prop := k ∈ O ++ row_keys T ++ txn_keys tabs.

Lemma known_other k : k ∈ O -> known k.
Proof. intros. apply elem_of_app. by left. Qed.
Lemma known_row id pk r : trow T id pk = Some r -> known (rowKey id pk).
Proof. intros. unfold known. rewrite !elem_of_app, elem_of_row_keys. eauto 10. Qed.
Lemma known_txn id tb pk p : tabs !! id = Some tb -> tt_rows tb !! pk = Some p -> known (rowKey id pk).
Proof. intros. unfold known. rewrite !elem_of_app, !elem_of_txn_keys. eauto 10. Qed.

(** The change a transaction makes to a row: none, or its new state. *)
Definition row_change (id : N) (pk : bytes) : option (option row) :=
  tb ← tabs !! id; p ← tt_rows tb !! pk; if decide (touched p) then Some (p_new p) else None.

Lemma trow_apply id pk :
  trow (apply_txn tabs T) id pk = match row_change id pk with Some r => r | None => trow T id pk end.
Proof.
  unfold row_change. rewrite <-!lookup_trows, trows_apply. destruct (tabs !! id) as [tb|]; cbn; [|done].
  rewrite lookup_apply_buffer. destruct (tt_rows tb !! pk); cbn; [|done]. by case_decide.
Qed.

Lemma op_cases op :
  op ∈ lo ->
  (∃ id def pk r, catalog q id = Some def ∧ is_u64 id ∧ row_change id pk = Some r ∧ known (rowKey id pk) ∧
     op = match r with Some r => Put (rowKey id pk) (row_payload def (row_enc def r)) | None => Del (rowKey id pk) end) ∨
  (op_Delete op = false ∧ op_Key op ∈ O).
Proof.
  intros Hop. apply (pl_led _ _ _ Hplan) in Hop as (id & def & tb & Hc & Ht & Hop).
  pose proof (catalog_id _ _ _ Hc) as Hid. destruct Hop as [(p & Hp & Htp & ->)|[Ha ->]].
  - left. apply elem_of_pending in Hp; [|by eapply tw_keyed]. exists id, def, (p_pkEnc p), (p_new p).
    split_and!; [done|by apply (co_u64 _ (so_cat _ _ _ _ Hok) _ _ Hc)| |by eapply known_txn|unfold row_op; by rewrite Hid].
    unfold row_change. rewrite Ht. cbn. rewrite Hp. cbn. by rewrite decide_True.
  - right. split; [done|]. cbn. rewrite Hid. by eapply ok_counters.
Qed.

Lemma change_op id def pk r :
  catalog q id = Some def -> row_change id pk = Some r ->
  match r with Some r => Put (rowKey id pk) (row_payload def (row_enc def r)) | None => Del (rowKey id pk) end ∈ lo.
Proof.
  intros Hc. unfold row_change. destruct (tabs !! id) as [tb|] eqn:Et; cbn; [|done].
  destruct (tt_rows tb !! pk) as [p|] eqn:Ep; cbn; [|done]. case_decide as Htp; [|done]. intros [= <-].
  assert (p_pkEnc p = pk) as <- by (by apply (tw_keyed _ _ Hwf _ _ Et)).
  rewrite <-(catalog_id _ _ _ Hc). apply (pl_rows _ _ _ Hplan id tb def p); [done..| |done].
  apply elem_of_pending; [by eapply tw_keyed|done].
Qed.

(** The batch changes the path of a known row as the transaction says. *)
Lemma batch_row id def pk :
  catalog q id = Some def -> known (rowKey id pk) ->
  batch_map ck lo !! pathOf ck (rowKey id pk) =
  option_map (option_map (λ r, row_payload def (row_enc def r))) (row_change id pk).
Proof.
  intros Hc Hk. assert (is_u64 id) as Hu by (by apply (co_u64 _ (so_cat _ _ _ _ Hok) _ _ Hc)).
  assert (∀ op, op ∈ lo -> pathOf ck (op_Key op) = pathOf ck (rowKey id pk) -> ∃ r, row_change id pk = Some r ∧
    op = match r with Some r => Put (rowKey id pk) (row_payload def (row_enc def r)) | None => Del (rowKey id pk) end) as Hop.
  { intros op Hin Hp. apply op_cases in Hin as [(id' & def' & pk' & r & Hc' & Hu' & Hr & Hk' & ->)|[_ Ho]].
    - assert (rowKey id' pk' = rowKey id pk) as Eq by (destruct r; by apply Hap).
      apply rowKey_inj in Eq as [-> ->]; [|done..]. rewrite Hc in Hc'. injection Hc' as <-. eauto.
    - exfalso. apply (ok_rows _ _ HO (op_Key op) Ho). exists id, pk. apply Hap; [by apply known_other|done..]. }
  destruct (row_change id pk) as [r|] eqn:Er; cbn.
  - apply batch_map_in.
    + exists (match r with Some r => Put (rowKey id pk) (row_payload def (row_enc def r)) | None => Del (rowKey id pk) end).
      split; [by apply change_op|by destruct r].
    + intros op Hin Hp. destruct (Hop op Hin Hp) as (r' & [= <-] & ->). by destruct r.
  - apply batch_map_notin. intros op Hin Hp. by destruct (Hop op Hin Hp) as (r' & ? & _).
Qed.

(** A known row that the table does not have has no ledger entry. *)
Lemma st_absent id pk :
  is_u64 id -> known (rowKey id pk) -> trow T id pk = None -> st !! pathOf ck (rowKey id pk) = None.
Proof.
  intros Hu Hk Er. apply eq_None_not_Some. intros Hs. destruct (so_dom _ _ _ _ Hok _ Hs) as (k & Ek & Hin).
  assert (rowKey id pk = k) as <-.
  { apply Hap; [done| |done]. rewrite !elem_of_app. tauto. }
  destruct Hin as [Hin|(id' & pk' & r & Hr & Eq)%elem_of_row_keys]; [apply (ok_rows _ _ HO _ Hin); by eexists _, _|].
  destruct (so_rows _ _ _ _ Hok _ _ _ Hr) as (def' & Hc' & _).
  apply rowKey_inj in Eq as [<- <-]; [by rewrite Er in Hr|done|]; by eapply (co_u64 _ (so_cat _ _ _ _ Hok)).
Qed.

(** Rows of equal encodings are equal. *)
Lemma row_enc_inj def r r' : row_fits def r -> row_fits def r' -> row_enc def r = row_enc def r' -> r = r'.
Proof. intros [_ Hd]%row_fits_enc [_ Hd']%row_fits_enc Eq. rewrite Eq, Hd' in Hd. by injection Hd. Qed.

(** A row the transaction rewrites, and whose ledger entry is the one it is based on,
    is based on the row of the table. *)
Lemma base_trow id def tb k p :
  catalog q id = Some def -> tabs !! id = Some tb -> tt_rows tb !! k = Some p -> base_ok ck st def p ->
  p_old p = trow T id k.
Proof.
  intros Hc Ht Hp. assert (p_pkEnc p = k) as <- by (by apply (tw_keyed _ _ Hwf _ _ Ht)).
  unfold base_ok. rewrite (catalog_id _ _ _ Hc). destruct (trow T id (p_pkEnc p)) as [r|] eqn:Er.
  - destruct (so_rows _ _ _ _ Hok _ _ _ Er) as (def' & Hc' & Hf & ->). rewrite Hc in Hc'. injection Hc' as <-.
    destruct (p_old p) as [old|] eqn:Eo; [|done]. intros [_ Henc]. f_equal.
    assert (row_fits def old) as Hf' by (eapply tw_fits; eauto). apply (row_enc_inj def); [done..|].
    destruct (row_fits_enc _ _ Hf') as [He' _]. rewrite He', drop_payload in Henc. by injection Henc.
  - rewrite st_absent; [by destruct (p_old p)| |by eapply known_txn|done]. by apply (co_u64 _ (so_cat _ _ _ _ Hok) _ _ Hc).
Qed.

Lemma change_fits id def pk r : catalog q id = Some def -> row_change id pk = Some (Some r) -> row_fits def r ∧ known (rowKey id pk).
Proof.
  intros Hc. unfold row_change. destruct (tabs !! id) as [tb|] eqn:Et; cbn; [|done].
  destruct (tt_rows tb !! pk) as [p|] eqn:Ep; cbn; [|done]. case_decide; [|done]. intros [= Hn].
  split; [eapply tw_fits; eauto|by eapply known_txn].
Qed.

(** A batch that does not change the ledger's state does not change the tables. *)
Lemma same_state_same_tables :
  (∀ id, is_Some (tabs !! id) -> is_Some (catalog q id)) -> upd_state (batch_map ck lo) st = st ->
  ∀ id pk, trow (apply_txn tabs T) id pk = trow T id pk.
Proof.
  intros Hcats Hsame id pk. rewrite trow_apply. destruct (row_change id pk) as [r|] eqn:Ech; [|done].
  assert (is_Some (tabs !! id)) as Hid by (unfold row_change in Ech; destruct (tabs !! id); [eauto|done]).
  destruct (Hcats id Hid) as [def Hc]. assert (is_u64 id) as Hu by (by apply (co_u64 _ (so_cat _ _ _ _ Hok) _ _ Hc)).
  assert (known (rowKey id pk)) as Hk.
  { unfold row_change in Ech. destruct (tabs !! id) as [tb|] eqn:Et; cbn in Ech; [|done].
    destruct (tt_rows tb !! pk) as [p|] eqn:Ep; [|done]. by eapply known_txn. }
  assert (st !! pathOf ck (rowKey id pk) = option_map (λ r, row_payload def (row_enc def r)) r) as Hst.
  { rewrite <-Hsame at 1. rewrite lookup_upd_state, (batch_row id def pk Hc Hk), Ech. done. }
  destruct (trow T id pk) as [r0|] eqn:Er.
  - destruct (so_rows _ _ _ _ Hok _ _ _ Er) as (def' & Hc' & Hf & Hst'). rewrite Hc in Hc'. injection Hc' as <-.
    rewrite Hst in Hst'. destruct r as [r|]; [|done]. injection Hst' as Heq.
    f_equal. apply (row_enc_inj def); [by eapply change_fits|done|]. exact Heq.
  - rewrite (st_absent id pk Hu Hk Er) in Hst. by destruct r.
Qed.

(** The ledger state after the batch, away from the head of the chain. *)
Lemma after_lookup h :
  h ≠ history_path ck ∨ s_history (q_led q) = false ->
  after_state (q_led q) st lo !! h = match batch_map ck lo !! h with Some r => r | None => st !! h end.
Proof.
  intros Hh. unfold after_state. case_decide as Ed.
  - rewrite <-lookup_upd_state. by rewrite Ed.
  - unfold batch_state. destruct (s_history (q_led q)); [|apply lookup_upd_state].
    destruct Hh as [Hh|?]; [|done]. rewrite lookup_insert_ne by done. apply lookup_upd_state.
Qed.

Lemma row_not_head id pk : known (rowKey id pk) -> pathOf ck (rowKey id pk) ≠ history_path ck.
Proof.
  intros Hk Eq. apply (ok_rows _ _ HO HistoryKey (ok_head _ _ HO)). exists id, pk.
  symmetry. apply Hap; [done|apply known_other, HO|done].
Qed.

Lemma after_row id def pk r :
  catalog q id = Some def -> trow (apply_txn tabs T) id pk = Some r -> known (rowKey id pk) ->
  row_fits def r ∧ after_state (q_led q) st lo !! pathOf ck (rowKey id pk) = Some (row_payload def (row_enc def r)).
Proof.
  intros Hc Hr Hk. rewrite after_lookup by (left; by apply row_not_head). rewrite (batch_row id def pk Hc Hk).
  rewrite trow_apply in Hr. destruct (row_change id pk) as [r'|] eqn:Ech; cbn.
  - subst r'. split; [|done]. unfold row_change in Ech. destruct (tabs !! id) as [tb|] eqn:Et; cbn in Ech; [|done].
    destruct (tt_rows tb !! pk) as [p|] eqn:Ep; cbn in Ech; [|done]. case_decide; [|done]. injection Ech as Ech.
    eapply tw_fits; eauto.
  - destruct (so_rows _ _ _ _ Hok _ _ _ Hr) as (def' & Hc' & Hf & Hst). rewrite Hc in Hc'. by injection Hc' as <-.
Qed.

Lemma after_known id pk r : trow (apply_txn tabs T) id pk = Some r -> known (rowKey id pk) ∧ is_Some (catalog q id).
Proof.
  rewrite trow_apply. destruct (row_change id pk) as [r'|] eqn:Ech.
  - intros ->. unfold row_change in Ech. destruct (tabs !! id) as [tb|] eqn:Et; cbn in Ech; [|done].
    destruct (tt_rows tb !! pk) as [p|] eqn:Ep; cbn in Ech; [|done]. split; [by eapply known_txn|].
    apply (pl_cat _ _ _ Hplan). eauto.
  - intros Hr. split; [by eapply known_row|]. destruct (so_rows _ _ _ _ Hok _ _ _ Hr) as (def & -> & _). eauto.
Qed.

(** Every entry after the batch is of a row of the new tables, or not of a row. *)
Lemma after_dom h :
  is_Some (after_state (q_led q) st lo !! h) -> ∃ k, h = pathOf ck k ∧ (k ∈ O ∨ k ∈ row_keys (apply_txn tabs T)).
Proof.
  intros Hs. destruct (decide (h = history_path ck)) as [->|Hne]; [exists HistoryKey; split; [done|left; apply HO]|].
  rewrite after_lookup in Hs by (by left). destruct (batch_map ck lo !! h) as [e|] eqn:Eb.
  - apply batch_map_inv in Eb as (op & Hin & <- & <-).
    apply op_cases in Hin as [(id & def & pk & r & Hc & _ & Hr & _ & ->)|[_ Ho]]; [|eauto].
    destruct r as [r|]; [|by destruct Hs]. exists (rowKey id pk). split; [done|]. right. apply elem_of_row_keys.
    exists id, pk, r. by rewrite trow_apply, Hr.
  - destruct (so_dom _ _ _ _ Hok h Hs) as (k & -> & [?|(id & pk & r & Hr & ->)%elem_of_row_keys]); [eauto|].
    exists (rowKey id pk). split; [done|]. right. apply elem_of_row_keys. exists id, pk, r. split; [|done].
    destruct (so_rows _ _ _ _ Hok _ _ _ Hr) as (def & Hc & _).
    rewrite (batch_row id def pk Hc) in Eb by (by eapply known_row). rewrite trow_apply.
    destruct (row_change id pk); [done|exact Hr].
Qed.
End commit_led.

(** ** Committing: the derived side *)

Lemma derived_ext D D' def rows :
  (∀ idx k, index_of def idx -> in_space def idx k -> D' !! k = D !! k) -> derived_ok D def rows -> derived_ok D' def rows.
Proof. intros He Hd idx k v Hi Hk. rewrite (He idx k Hi Hk). by apply Hd. Qed.

Lemma rows_ops_space def ps so op :
  rows_scan_ops def ps = Ok so -> op ∈ so -> ∃ idx, index_of def idx ∧ in_space def idx (bo_Key op).
Proof.
  assert (∀ o pk b ops, opt_index_ops def o pk b = Ok ops -> op ∈ ops -> ∃ idx, index_of def idx ∧ in_space def idx (bo_Key op)) as Hx.
  { intros [r|] pk b ops; cbn [opt_index_ops]; [|intros [= <-] ?%not_elem_of_nil; done].
    intros [_ Ho]%index_ops_spec Hop. apply Ho in Hop as (ix & k & Hin & Ek & ->). exists (Some ix). split; [done|].
    apply (entry_at_space def (Some ix)) in Ek. by destruct b. }
  revert so. induction ps as [|p ps IH]; intros so; cbn [rows_scan_ops]; [intros [= <-] ?%not_elem_of_nil; done|].
  destruct (buildRowOps def p) as [[l1 s1]|e|w] eqn:E1; cbn; try done.
  destruct (rows_scan_ops def ps) as [s2|e|w] eqn:E2; cbn; try done. intros [= <-] [Hop|Hop]%elem_of_app; [|by eapply IH].
  apply buildRowOps_scan in E1 as (od & oa & Eo & En & ->). rewrite !elem_of_app in Hop.
  destruct Hop as [Hop|[Hop|Hop]]; [|exact (Hx _ _ _ _ Eo Hop)|exact (Hx _ _ _ _ En Hop)]. exists None. split; [done|].
  unfold scan_op in Hop. destruct (p_new p), (p_old p); first [apply list_elem_of_singleton in Hop as ->|by apply not_elem_of_nil in Hop];
    exists (p_pkEnc p); unfold index_space, scanKey; cbn [bo_Key bput bdel app]; by rewrite app_nil_r.
Qed.

(** The keyspaces of different tables are disjoint. *)
Lemma tables_apart q id def id' def' idx idx' k :
  catalog_ok q -> catalog q id = Some def -> catalog q id' = Some def' -> index_of def idx -> index_of def' idx' ->
  in_space def idx k -> in_space def' idx' k -> id = id'.
Proof.
  intros Hco Hc Hc' Hi Hi' [s Hs] [s' Hs']. subst k. rename Hs' into Hs.
  destruct (co_u64 _ Hco _ _ Hc) as [Hu [Hix _]], (co_u64 _ Hco _ _ Hc') as [Hu' [Hix' _]].
  rewrite Forall_forall in Hix, Hix'.
  assert (∀ a b (x y : bytes), is_u64 a -> is_u64 b -> be 8 a ++ x = be 8 b ++ y -> a = b) as Hbe.
  { intros a b x y Ha Hb Eq. apply app_inj_len in Eq as [Eq _]; [|by rewrite !length_be]. by apply be8_inj. }
  destruct idx as [ix|], idx' as [ix'|]; cbn [index_space] in Hs; try done.
  - apply (f_equal (drop 1)) in Hs. unfold secondarySpace in Hs. cbn [drop app] in Hs.
    apply Hbe in Hs; [|by apply Hix|by apply Hix']. by eapply (co_apart _ Hco).
  - apply (f_equal (drop 1)) in Hs. unfold scanKey in Hs. cbn [drop app] in Hs. rewrite !app_nil_r in Hs.
    rewrite (catalog_id _ _ _ Hc), (catalog_id _ _ _ Hc') in Hs. by apply Hbe in Hs.
Qed.

Lemma tables_ops_app cat tabs id ids lo so :
  tables_ops cat tabs (id :: ids) = Ok (lo, so) ->
  ∃ def tb s1 l2 s2, cat id = Some def ∧ tabs !! id = Some tb ∧ rows_scan_ops def (pending_list tb) = Ok s1 ∧
    tables_ops cat tabs ids = Ok (l2, s2) ∧ so = s1 ++ s2.
Proof.
  cbn [tables_ops]. destruct (cat id) as [def|]; [|done]. destruct (tabs !! id) as [tb|]; [|done]. unfold table_ops.
  destruct (rows_ops def (pending_list tb)) as [[l1 s1]|e|w] eqn:E1; cbn; try done.
  destruct (tables_ops cat tabs ids) as [[l2 s2]|e|w]; cbn; try done. intros [= <- <-].
  exists def, tb, s1, l2, s2. split_and!; [done..|by eapply rows_ops_scan|done|].
  destruct (hasAutoInc def); cbn; by rewrite ?app_nil_r.
Qed.

Lemma other_table q id def id' def' ps so D k idx :
  catalog_ok q -> catalog q id = Some def -> catalog q id' = Some def' -> id ≠ id' -> index_of def idx -> in_space def idx k ->
  rows_scan_ops def' ps = Ok so -> apply_batch so D !! k = D !! k.
Proof.
  intros Hco Hc Hc' Hne Hi Hk Hso. apply apply_batch_notin. intros op Hop <-.
  destruct (rows_ops_space _ _ _ _ Hso Hop) as (idx' & Hi' & Hk'). apply Hne. by eapply tables_apart.
Qed.

Lemma tables_derived q tabs ids lo so D id def rows :
  catalog_ok q -> catalog q id = Some def -> NoDup ids -> tables_ops (catalog q) tabs ids = Ok (lo, so) ->
  (∀ tb, tabs !! id = Some tb -> buffer_keyed tb ∧ buffer_based tb rows) -> derived_ok D def rows ->
  derived_ok (apply_batch so D) def
    (match tabs !! id with Some tb => if decide (id ∈ ids) then apply_buffer tb rows else rows | None => rows end).
Proof.
  intros Hco Hc Hnd Hops Htb. revert lo so D Hops. induction Hnd as [|id' ids Hnin Hnd IH]; intros lo so D Hops Hder.
  { injection Hops as <- <-. destruct (tabs !! id); [|done]. rewrite decide_False; [done|by intros ?%not_elem_of_nil]. }
  apply tables_ops_app in Hops as (def' & tb' & s1 & l2 & s2 & Hc' & Ht' & E1 & E2 & ->). rewrite apply_batch_app.
  destruct (decide (id = id')) as [<-|Hne].
  - rewrite Hc in Hc'. injection Hc' as <-. rewrite Ht'. rewrite decide_True by left.
    destruct (Htb _ Ht') as [Hk Hb]. destruct (co_u64 _ Hco _ _ Hc) as [_ Hids].
    eapply derived_ext; [|eapply derived_step; [done..|apply pending_list_perm|exact E1|exact Hder]].
    intros idx k Hi Hk'. clear IH E1 Hder. revert l2 s2 E2. generalize (apply_batch s1 D). intros D'.
    revert D'. induction ids as [|id2 ids IH2]; intros D' l2 s2 E2; [by injection E2 as <- <-|].
    apply not_elem_of_cons in Hnin as [Hn1 Hn2]. apply NoDup_cons in Hnd as [_ Hnd].
    apply tables_ops_app in E2 as (def2 & tb2 & s3 & l4 & s4 & Hc2 & Ht2 & E3 & E4 & ->). rewrite apply_batch_app.
    rewrite (IH2 Hn2 Hnd _ _ _ E4). by eapply (other_table q id def id2 def2).
  - specialize (IH l2 s2 (apply_batch s1 D) E2).
    assert (derived_ok (apply_batch s1 D) def rows) as Hder'.
    { eapply derived_ext; [|exact Hder]. intros idx k Hi Hk. by eapply (other_table q id def id' def'). }
    specialize (IH Hder'). destruct (tabs !! id) as [tb|]; [|done].
    destruct (decide (id ∈ ids)); [rewrite decide_True by (by right)|rewrite decide_False by (by intros [?|?]%elem_of_cons)]; done.
Qed.
End refine.

(** * The commit refines the update of the tables *)

Section commit_refine.
Context `{H : Hasher} `{G : GCM} `{E : Entropy} `{MR : MapRange}.
Context {B : Type} `{BK : Backend B} `{!BackendSpec B} `{!BackendReliable B}.
Context `{!GCMSpec} `{!EntropyLive}.
Implicit Types q : SqlStore B.

(** A transaction is based on tables: the rows it rewrites are their rows. *)
Definition txn_based (tabs : gmap N tableTxn) (T : database) : Prop :=
  ∀ id tb, tabs !! id = Some tb -> buffer_based tb (trows T id).

(** The hypotheses of a commit: well-formed buffers, ledger paths that do not collide,
    and a batch the ledger accepts. *)
Record commit_pre (O : list bytes) q (st : gmap Hash bytes) (T : database) (txn : storeTxn) : Prop := {
  cp_other : other_keys O (catalog q);
  cp_wf : txn_wf (catalog q) (tx_tables txn);
  cp_apart : keys_apart (s_ck (q_led q)) (O ++ row_keys T ++ txn_keys (tx_tables txn));
  cp_batch : txn_pre q st txn
}.

Lemma space_derived def idx k : in_space def idx k -> derived k ∧ k ≠ [scanMetaKey].
Proof. intros [s ->]. destruct idx; cbn; split; [right; by right|done|by left|done]. Qed.

Lemma sorted_ids_nodup tabs : NoDup (sorted_ids tabs).
Proof. unfold sorted_ids. rewrite merge_sort_Permutation, range_perm. apply NoDup_fst_map_to_list. Qed.

(** The marker after a commit names the ledger's version. *)
Lemma committed_marker q q' st lo so : sql_committed q q' st lo so -> applied_of (sql_contents q') = s_version (q_led q').
Proof.
  intros [[ot Hr] Hv Hk Hs Hd]. unfold applied_of. rewrite (Hd [scanMetaKey]) by (right; by left). rewrite apply_batch_app.
  rewrite (apply_batch_in _ _ _ (Some (be 8 (s_version (q_led q'))))).
  - rewrite decide_True by apply length_be. apply unbe_be8, (r_u64 _ _ _ Hr).
  - exists (marker (s_version (q_led q'))). split; [left|done].
  - intros op Hop%list_elem_of_singleton _. by subst op.
Qed.

(** A commit that follows the plan of buffers, whose derived operations make the
    derived keyspaces those of the new rows. *)
Lemma plan_sql_ok O q q' st T tabs lo so :
  sql_ok O q st T -> other_keys O (catalog q) -> txn_wf (catalog q) tabs ->
  keys_apart (s_ck (q_led q)) (O ++ row_keys T ++ txn_keys tabs) -> commit_plan (catalog q) tabs lo ->
  sql_committed q q' st lo so ->
  (∀ id def, catalog q id = Some def -> derived_ok (apply_batch so (sql_contents q)) def (trows (apply_txn tabs T) id)) ->
  sql_ok O q' (after_state (q_led q) st lo) (apply_txn tabs T).
Proof.
  intros Hok HO Hwf Hap Hplan [Hr Hv Hk Hs Hd] Hder.
  assert (∀ id, catalog q' id = catalog q id) as Hcat by (intros id; by rewrite Hs).
  split.
  - done.
  - destruct (so_cat _ _ _ _ Hok) as [C1 C2]. split; [intros id def; rewrite Hcat; apply C1|].
    intros id def ix id' def' ix'. rewrite !Hcat. apply C2.
  - intros id pk r Hrow. rewrite Hk. setoid_rewrite Hcat.
    destruct (after_known O q st T tabs lo Hok Hplan id pk r Hrow) as [Hkn [def Hc]]. exists def. split; [done|].
    by eapply after_row.
  - intros h Hh. rewrite Hk. by eapply after_dom.
  - intros id def. rewrite Hcat. intros Hc. eapply derived_ext; [|by apply Hder].
    intros idx k Hi Hsp. destruct (space_derived _ _ _ Hsp) as [Hdk Hne]. rewrite (Hd k Hdk), apply_batch_app.
    apply apply_batch_notin. intros op Hop%list_elem_of_singleton. subst op. cbn. congruence.
  - by eapply committed_marker.
Qed.

Lemma commit_sql_ok O q q' st T txn lo so :
  sql_ok O q st T -> commit_pre O q st T txn -> txn_based (tx_tables txn) T ->
  txn_ops q txn = Ok (lo, so) -> sql_committed q q' st lo so ->
  sql_ok O q' (after_state (q_led q) st lo) (apply_txn (tx_tables txn) T).
Proof.
  intros Hok [HO Hwf Hap Hb] Hbase Hops Hc. eapply plan_sql_ok; [done..|by eapply tables_ops_plan|done|].
  intros id def Hcat.
  pose proof (tables_derived q (tx_tables txn) _ lo so (sql_contents q) id def (trows T id) (so_cat _ _ _ _ Hok) Hcat
    (sorted_ids_nodup _) Hops (λ tb Ht, conj (tw_keyed _ _ Hwf _ _ Ht) (Hbase _ _ Ht)) (so_derived _ _ _ _ Hok _ _ Hcat)) as Hder.
  rewrite trows_apply. destruct (tx_tables txn !! id) as [tb|] eqn:Et; [|exact Hder].
  rewrite decide_True in Hder by (apply elem_of_sorted_ids; eauto). exact Hder.
Qed.

Lemma sql_ok_ext O q st T T' :
  (∀ id pk, trow T' id pk = trow T id pk) -> sql_ok O q st T -> sql_ok O q st T'.
Proof.
  intros He []. assert (∀ k, k ∈ row_keys T' ↔ k ∈ row_keys T) as Hk.
  { intros k. rewrite !elem_of_row_keys. by setoid_rewrite He. }
  split; [done..| | | |done].
  - intros id pk r. rewrite He. auto.
  - intros h Hh. destruct (so_dom0 h Hh) as (k & ? & ?). exists k. by rewrite Hk.
  - intros id def Hc. assert (trows T' id = trows T id) as -> by (apply map_eq; intros pk; by rewrite !lookup_trows).
    by apply so_derived0.
Qed.

Lemma sql_ok_reads O q q' st T : sreads q q' -> sql_ok O q st T -> sql_ok O q' st T.
Proof.
  intros R []. pose proof (sreads_contents _ _ R) as Ec. pose proof (λ id, sreads_catalog q q' id R) as Hcat.
  assert (s_ck (q_led q') = s_ck (q_led q) ∧ s_version (q_led q') = s_version (q_led q)) as [Ek Ev].
  { destruct R as [R _]. by destruct (reads_fields _ _ R) as (? & _ & _ & _ & ? & _). }
  split.
  - destruct so_repr0 as [ot Hr]. exists ot. by eapply sreads_repr.
  - destruct so_cat0 as [C1 C2]. split; [intros id def; rewrite Hcat; apply C1|].
    intros id def ix id' def' ix'. rewrite !Hcat. apply C2.
  - intros id pk r Hr. rewrite Ek. setoid_rewrite Hcat. auto.
  - rewrite Ek. done.
  - intros id def. rewrite Hcat, Ec. auto.
  - by rewrite Ec, Ev.
Qed.

(** A transaction without operations touches no row. *)
Lemma no_ops_untouched q txn so :
  txn_ops q txn = Ok ([], so) ->
  ∀ id tb k p, buffer_keyed tb -> tx_tables txn !! id = Some tb -> tt_rows tb !! k = Some p -> ¬ touched p.
Proof.
  intros Hops id tb k p Hk Ht Hp Htp. assert (id ∈ sorted_ids (tx_tables txn)) as Hin by (apply elem_of_sorted_ids; eauto).
  destruct (tables_ops_cat _ _ _ _ _ Hops Hin) as [def Hc].
  assert (row_op (td_ID def) def p ∈ []) as ?%not_elem_of_nil; [|done].
  eapply (proj2 (tables_ops_led _ _ _ _ _ Hops)); [done..| |done]. apply elem_of_pending; [done|].
  by rewrite (Hk k p Hp).
Qed.

Lemma upd_state_empty (st : gmap Hash bytes) : upd_state ∅ st = st.
Proof. apply map_eq. intros h. by rewrite lookup_upd_state, lookup_empty. Qed.

(** What [commitTxn] does on a store that holds [T]. *)
Lemma commitTxn_refines O q st T txn o q' :
  sql_ok O q st T -> commit_pre O q st T txn -> commitTxn txn q = (o, q') ->
  (s_version (q_led q) = tx_baseVersion txn -> txn_based (tx_tables txn) T) ->
  is_ok o = false ∧ sreads q q' ∨
  o = Ok tt ∧ txn_based (tx_tables txn) T ∧
  (∃ lo so, txn_ops q txn = Ok (lo, so) ∧ sql_ok O q' (after_state (q_led q) st lo) (apply_txn (tx_tables txn) T)) ∧
  (s_version (q_led q') = s_version (q_led q) + 1 ∨
   s_version (q_led q') = s_version (q_led q) ∧ ∀ id pk, trow (apply_txn (tx_tables txn) T) id pk = trow T id pk)%N.
Proof.
  intros Hok Hpre Hrun Hbase. destruct (so_repr _ _ _ _ Hok) as [ot Hr].
  destruct (commitTxn_cases q ot st txn o q' Hr (cp_batch _ _ _ _ _ Hpre) Hrun)
    as [[[[-> Hops]|?] R]|(-> & lo & so & Hops & _ & Hc & Hval)]; [right|by left|right].
  - pose proof (no_ops_untouched _ _ _ Hops) as Hno. split; [done|]. split.
    { intros id tb Ht k p Hp Htp. exfalso. eapply Hno; [|done..]. by eapply (cp_wf _ _ _ _ _ Hpre). }
    assert (∀ id pk, trow (apply_txn (tx_tables txn) T) id pk = trow T id pk) as Hsame.
    { intros id pk. rewrite trow_apply. unfold row_change.
      destruct (tx_tables txn !! id) as [tb|] eqn:Et; cbn; [|done]. destruct (tt_rows tb !! pk) as [p|] eqn:Ep; cbn; [|done].
      rewrite decide_False; [done|]. eapply Hno; [|done..]. by eapply (cp_wf _ _ _ _ _ Hpre). }
    split; [eexists _, _; split; [done|]; unfold after_state; rewrite decide_True by apply upd_state_empty;
      eapply sql_ok_ext; [done|by eapply sql_ok_reads]|]. right. split; [|done].
    destruct R as [R _]. by destruct (reads_fields _ _ R) as (_ & _ & _ & _ & -> & _).
  - split; [done|]. assert (txn_based (tx_tables txn) T) as Hb.
    { destruct (decide (s_version (q_led q) = tx_baseVersion txn)) as [|Hne]; [auto|]. intros id tb Ht k p Hp Htp.
      rewrite lookup_trows. assert (id ∈ sorted_ids (tx_tables txn)) as Hin by (apply elem_of_sorted_ids; eauto).
      destruct (tables_ops_cat _ _ _ _ _ Hops Hin) as [def Hcat].
      by eapply (base_trow O q st T (tx_tables txn) Hok); [apply Hpre|apply Hpre|apply Hpre|done..|eapply Hval]. }
    split; [done|]. split; [exists lo, so; split; [done|by eapply commit_sql_ok]|].
    rewrite (sc_version _ _ _ _ _ Hc). unfold after_version. case_decide as Hsame; [right|by left]. split; [done|].
    eapply same_state_same_tables; try done; [by apply Hpre..|by eapply tables_ops_plan|]. apply (tables_ops_plan _ _ _ _ Hops).
Qed.

(** The ledger state is determined by the store. *)
Lemma sql_state_unique O q st T st' T' : sql_ok O q st T -> sql_ok O q st' T' -> st = st'.
Proof.
  intros K1 K2. destruct (so_repr _ _ _ _ K1) as [ot Hr], (so_repr _ _ _ _ K2) as [ot' Hr'].
  assert (∀ k, st !! pathOf (s_ck (q_led q)) k = st' !! pathOf (s_ck (q_led q)) k) as Hk.
  { intros k. destruct (Get_ok _ _ _ k Hr) as (s1 & E1 & _), (Get_ok _ _ _ k Hr') as (s2 & E2 & _). congruence. }
  apply map_eq. intros h. destruct (st !! h) as [v|] eqn:Ev, (st' !! h) as [v'|] eqn:Ev'; [..|done].
  - destruct (so_dom _ _ _ _ K1 h) as (k & -> & _); [eauto|]. rewrite Hk in Ev. congruence.
  - destruct (so_dom _ _ _ _ K1 h) as (k & -> & _); [eauto|]. rewrite Hk in Ev. congruence.
  - destruct (so_dom _ _ _ _ K2 h) as (k & -> & _); [eauto|]. rewrite <-Hk in Ev'. congruence.
Qed.
End commit_refine.
