(* ===== verification/SqlTable.v ===== *)
(** Writing a table: the row editors, [TRUNCATE] and the AUTO_INCREMENT counter of
    [sqlledger/table.go], with the unique check of [sqlledger/index.go].

    An editor buffers the rows of one statement.  Closing it folds the buffer into the
    session's transaction or, outside a transaction, commits it.  The editor holds the
    store, the table and the transaction by reference; here it holds their values and
    each operation returns the editor with them updated, also when it fails. *)

From S2P Require Import Prelude Errors Sha256 Hashing Node Aead Backend Cache Store GoNum SqlCodec SqlIndex SqlTxn SqlStore SqlScan.

(** The engine's errors. *)
Definition ErrPrimaryKeyViolation : error := RawError "duplicate primary key given".
Definition UniqueKeyErr : error := RawError "duplicate unique key given".

Record tableEditor (B : Type) := MkEditor {
  ed_store : SqlStore B;
  ed_def : defptr;
  ed_txn : option storeTxn;
  ed_pending : gmap bytes pendingRow
}.
Arguments MkEditor {B}. Arguments ed_store {B}. Arguments ed_def {B}. Arguments ed_txn {B}. Arguments ed_pending {B}.

(** An explicitly supplied AUTO_INCREMENT value, 0 when there is none to take. *)
Definition auto_value (v : value) : N :=
  match v with
  | VInt64 x | VInt32 x => if decide (0 < x)%Z then Z.to_N x else 0
  | VUint64 x | VUint32 x => x
  | _ => 0
  end%N.

(** The value the engine asks the counter for. *)
Definition auto_given (v : option value) : N :=
  match v with
  | Some (VInt64 x) | Some (VInt x) | Some (VInt32 x) => if decide (0 < x)%Z then Z.to_N x else 0
  | Some (VUint64 x) | Some (VUint32 x) => x
  | _ => 0
  end%N.

(** [v + 1] in [uint64]. *)
Definition succ64 (v : N) : N := wrap_uint 64 (v + 1).

(** [if v >= def.autoIncNext { def.autoIncNext = v + 1 }]. *)
Definition bump (v : N) (def : tableDef) : tableDef :=
  if decide (td_autoIncNext def ≤ v)%N then set_autoInc (succ64 v) def else def.

(** ** The pending rows a unique check looks at *)

Section pendings.
Variables (def : tableDef) (idx : indexDef) (colsEnc pkEnc : bytes).

(** Another pending row holds the value. *)
Fixpoint pending_holds (ps : list pendingRow) : outcome bool :=
  match ps with
  | [] => Ok false
  | p :: ps' =>
      if decide (p_pkEnc p = pkEnc) then pending_holds ps'
      else
        match p_new p with
        | None => pending_holds ps'
        | Some new =>
            '(otherEnc, otherNull) ← encodeIndexCols def idx new;
            if decide (otherNull = false ∧ otherEnc = colsEnc) then Ok true
            else pending_holds ps'
        end
  end.

(** A pending row deletes or moves away a committed row that held the value. *)
Fixpoint pending_frees (ps : list pendingRow) : outcome bool :=
  match ps with
  | [] => Ok false
  | p :: ps' =>
      match p_old p with
      | None => pending_frees ps'
      | Some old =>
          if decide (p_pkEnc p = pkEnc) then pending_frees ps'
          else
            '(oldEnc, oldNull) ← encodeIndexCols def idx old;
            if decide (oldNull = true ∨ oldEnc ≠ colsEnc) then pending_frees ps'
            else
              match p_new p with
              | None => Ok true
              | Some new =>
                  '(newEnc, newNull) ← encodeIndexCols def idx new;
                  if decide (newNull = true ∨ newEnc ≠ colsEnc) then Ok true
                  else pending_frees ps'
              end
      end
  end.
End pendings.

(** The statement buffer folded over the transaction's: a statement row keeps the
    committed row the transaction's row was based on. *)
Definition fold_row (rows : gmap bytes pendingRow) (kp : bytes * pendingRow) : gmap bytes pendingRow :=
  match rows !! kp.1 with
  | Some q => <[kp.1 := set_new (p_new kp.2) q]> rows
  | None => <[kp.1 := kp.2]> rows
  end.

Section editor.
Context `{H : Hasher} `{G : GCM} `{E : Entropy} `{MR : MapRange} {B : Type} `{BK : Backend B}.
Abbreviation ME := (M (tableEditor B)).
Abbreviation MQ := (M (SqlStore B)).

Definition set_store (q : SqlStore B) (e : tableEditor B) : tableEditor B :=
  MkEditor q (ed_def e) (ed_txn e) (ed_pending e).
Definition set_pending (ps : gmap bytes pendingRow) (e : tableEditor B) : tableEditor B :=
  MkEditor (ed_store e) (ed_def e) (ed_txn e) ps.
Definition set_txn (t : option storeTxn) (e : tableEditor B) : tableEditor B :=
  MkEditor (ed_store e) (ed_def e) t (ed_pending e).

(** A call of the editor's store. *)
Definition on_store {A} (m : MQ A) : ME A := λ e,
  let '(o, q) := m (ed_store e) in (o, set_store q e).

Definition newEditor (q : SqlStore B) (def : defptr) (txn : option storeTxn) : tableEditor B :=
  MkEditor q def txn ∅.

Definition writable : ME unit :=
  t ← gets ed_txn;
  match t with
  | Some t => if tx_readOnly t : bool then fail (RawError "cannot write in a read-only transaction") else mret tt
  | None => mret tt
  end.

Definition txnRow (def : tableDef) (txn : option storeTxn) (key : bytes) : option pendingRow :=
  tb ← tableView txn (td_ID def); tt_rows tb !! key.

Definition effectivePending (def : tableDef) (txn : option storeTxn) (pending : gmap bytes pendingRow) : list pendingRow :=
  ((λ kp, match txnRow def txn kp.1 with
          | Some q => Pending (p_pkEnc kp.2) (p_old q) (p_new kp.2)
          | None => kp.2
          end) <$> range_map pending) ++
  match tableView txn (td_ID def) with
  | None => []
  | Some tb => snd <$> filter (λ kp, pending !! kp.1 = None) (range_map (tt_rows tb))
  end.

Definition DiscardChanges : ME unit := modify (set_pending ∅).

(** ** Unique indexes *)

Definition uniqueConflict (idx : indexDef) (colsEnc pkEnc : bytes) : MQ bool :=
  let start := secondarySpace (ix_ID idx) ++ colsEnc in
  match incBytes start with
  | None => fail (RawError "index keyspace overflow")
  | Some stop =>
      kvs ← db (b_scan start stop 2);
      mret (existsb (λ kv, bool_decide (kv_Value kv ≠ pkEnc)) kvs)
  end.

Definition check_index (def : tableDef) (r : row) (pkEnc : bytes) (pendings : list pendingRow) (idx : indexDef) : ME unit :=
  if negb (ix_Unique idx) then mret tt
  else
    '(colsEnc, hasNull) ← lift (encodeIndexCols def idx r);
    if hasNull : bool then mret tt
    else
      conflict ← on_store (uniqueConflict idx colsEnc pkEnc);
      conflict ← (if conflict : bool then
                    resolved ← lift (pending_frees def idx colsEnc pkEnc pendings); mret (negb resolved)
                  else lift (pending_holds def idx colsEnc pkEnc pendings));
      if conflict : bool then fail UniqueKeyErr else mret tt.

Definition checkUnique (def : tableDef) (r : row) (pkEnc : bytes) : ME unit :=
  pendings ← gets (λ e, effectivePending def (ed_txn e) (ed_pending e));
  foldM (λ _ idx, check_index def r pkEnc pendings idx) tt (td_Indexes def).

(** ** Rows *)

Definition get_def : ME tableDef := p ← gets ed_def; on_store (deref p).
Definition put_def (def : tableDef) : ME unit :=
  modify (λ e, set_store (set_defs (<[ed_def e := def]> (q_defs (ed_store e))) (ed_store e)) e).
Definition put_pending (key : bytes) (p : pendingRow) : ME unit :=
  modify (λ e, set_pending (<[key := p]> (ed_pending e)) e).

Definition auto_col (r : row) (ic : nat * colDef) : ME unit :=
  if negb (cd_AutoInc ic.2) then mret tt
  else
    match r !! ic.1 with
    | None => panic "index out of range"
    | Some None => mret tt
    | Some (Some x) =>
        let v := auto_value x in
        if decide (0 < v)%N then def ← get_def; put_def (bump v def) else mret tt
    end.

Definition row_present (def : tableDef) (key : bytes) : ME bool :=
  tp ← gets (λ e, txnRow def (ed_txn e) key);
  match tp with
  | Some tp => mret (bool_decide (is_Some (p_new tp)))
  | None => on_store (rowExists def key)
  end.

Definition Insert (r : row) : ME unit :=
  writable;;
  def ← get_def;
  pkEnc ← lift (encodePK def r);
  foldM (λ _ ic, auto_col r ic) tt (imap pair (td_Columns def));;
  p ← gets (λ e, ed_pending e !! pkEnc);
  (match p with
   | Some p =>
       if decide (is_Some (p_new p)) then fail ErrPrimaryKeyViolation
       else put_pending pkEnc (set_new (copy_row r) p)
   | None =>
       exists_ ← row_present def pkEnc;
       if exists_ : bool then fail ErrPrimaryKeyViolation
       else put_pending pkEnc (Pending pkEnc None (copy_row r))
   end);;
  checkUnique def r pkEnc.

Definition Delete (r : row) : ME unit :=
  writable;;
  def ← get_def;
  pkEnc ← lift (encodePK def r);
  p ← gets (λ e, ed_pending e !! pkEnc);
  put_pending pkEnc (match p with Some p => set_new None p | None => Pending pkEnc (copy_row r) None end).

Definition Update (oldRow newRow : row) : ME unit :=
  writable;;
  def ← get_def;
  oldPK ← lift (encodePK def oldRow);
  newPK ← lift (encodePK def newRow);
  if decide (oldPK = newPK) then
    p ← gets (λ e, ed_pending e !! oldPK);
    put_pending oldPK (match p with
                       | Some p => set_new (copy_row newRow) p
                       | None => Pending oldPK (copy_row oldRow) (copy_row newRow)
                       end);;
    checkUnique def newRow oldPK
  else Delete oldRow;; Insert newRow.

(** ** Closing the statement *)

Definition direct_ops (def : tableDef) (acc : list Op * list BatchOp) (kp : bytes * pendingRow) :
    outcome (list Op * list BatchOp) :=
  '(lo, so) ← buildRowOps def kp.2; Ok (acc.1 ++ lo, acc.2 ++ so).

Definition Close : ME unit :=
  pending ← gets ed_pending;
  if decide (size pending = 0) then mret tt
  else
    def ← get_def;
    txn ← gets ed_txn;
    match txn with
    | Some t =>
        let '(tb, t) := txn_table (td_ID def) t in
        let rows := foldl fold_row (tt_rows tb) (range_map pending) in
        modify (set_txn (Some (set_tables (<[td_ID def := MkTableTxn rows]> (tx_tables t)) t)));;
        modify (set_pending ∅)
    | None =>
        '(ledOps, scanOps) ← lift (foldO (direct_ops def) ([], []) (range_map pending));
        on_store (sqlCommit (if hasAutoInc def then ledOps ++ [counter_op def] else ledOps) scanOps)
    end.

(** ** AUTO_INCREMENT *)

Definition PeekNextAutoIncrementValue (p : defptr) : MQ N :=
  def ← deref p; mret (td_autoIncNext def).

Definition store_def (p : defptr) (def : tableDef) : MQ unit :=
  modify (λ q, set_defs (<[p := def]> (q_defs q)) q).

Definition GetNextAutoIncrementValue (p : defptr) (insertVal : option value) : MQ N :=
  def ← deref p;
  let given := auto_given insertVal in
  if decide (given = 0%N) then
    let v := td_autoIncNext def in
    store_def p (set_autoInc (succ64 v) def);; mret v
  else store_def p (bump given def);; mret given.

Definition SetAutoIncrementValue (p : defptr) (v : N) : MQ unit :=
  def ← deref p;
  store_def p (set_autoInc v def);;
  sqlCommit [counter_op (set_autoInc v def)] [].

(** ** TRUNCATE *)

(** The operations that remove one entry of the row keyspace and its row. *)
Definition remove_entry (def : tableDef) (acc : list Op * list BatchOp) (kv : KV) : MQ (list Op * list BatchOp) :=
  pkEnc ← lift (resolve_entry false kv);
  r ← readRowLocked def pkEnc;
  ops ← lift (indexOps def r pkEnc true);
  mret (acc.1 ++ [Del (rowKey (td_ID def) pkEnc)], acc.2 ++ bdel (kv_Key kv) :: ops).

(** One chunk of rows per ledger commit, until none is left; [rounds] bounds the
    chunks. *)
Fixpoint remove_rows (rounds : nat) (def : tableDef) (count : nat) : MQ nat :=
  match rounds with
  | O => panic "truncate: round bound"
  | S rounds' =>
      let start := scanKey (td_ID def) [] in
      kvs ← db (b_scan start (default [] (incBytes start)) scanChunkSize);
      match kvs with
      | [] => mret count
      | _ =>
          '(ledOps, scanOps) ← foldM (remove_entry def) ([], []) kvs;
          sqlCommit ledOps scanOps;;
          remove_rows rounds' def (count + length kvs)
      end
  end.
End editor.
