(* ===== verification/SqlEdit.v ===== *)
(** What a statement does: the row editors against the rows of the table.

    The rows an editor sees are those of the table under the transaction's buffer and
    the statement's.  Inserts, deletes and updates change that view row by row; closing
    the editor makes it the transaction's, discarding leaves the transaction as it was.
    The unique check keeps the values of unique indexes apart, except against rows
    that move onto a value another pending row has given up. *)

From S2P Require Import Prelude Errors Sha256 Hashing Node Aead Backend Cache Store Tree StoreRead Records StoreCommit GoNum SqlCodec SqlIndex SqlTxn SqlOverlay SqlStore SqlScan SqlScanOk SqlCommit SqlRefine SqlTable.

Lemma bind_lift {S A A'} (a : A) (f : A -> M S A') s : (lift (Ok a) ≫= f) s = f a s.
Proof. done. Qed.

(** * The buffer a statement leaves *)

(** Both buffers as one: a statement row over the transaction's row. *)
Definition merge_rows (tr pend : gmap bytes pendingRow) : gmap bytes pendingRow :=
  merge (λ q p, match p, q with
                | Some p, Some q => Some (set_new (p_new p) q)
                | Some p, None => Some p
                | None, q => q
                end) tr pend.

Lemma lookup_merge_rows tr pend k :
  merge_rows tr pend !! k =
  match pend !! k, tr !! k with
  | Some p, Some q => Some (set_new (p_new p) q)
  | Some p, None => Some p
  | None, q => q
  end.
Proof. unfold merge_rows. rewrite lookup_merge. by destruct (tr !! k), (pend !! k). Qed.

(** The fold of [Close] computes it, in whatever order it visits the rows. *)
Lemma fold_rows_lookup l tr k :
  NoDup l.*1 ->
  foldl fold_row tr l !! k =
  match list_to_map (M := gmap bytes pendingRow) l !! k, tr !! k with
  | Some p, Some q => Some (set_new (p_new p) q)
  | Some p, None => Some p
  | None, q => q
  end.
Proof.
  revert tr. induction l as [|[k' p] l IH]; intros tr Hnd; [done|]. cbn in Hnd. apply NoDup_cons in Hnd as [Hnin Hnd].
  cbn [foldl list_to_map foldr fst snd]. rewrite IH by done.
  assert (fold_row tr (k', p) !! k = if decide (k' = k) then Some (match tr !! k with Some q => set_new (p_new p) q | None => p end) else tr !! k) as ->.
  { unfold fold_row. cbn [fst snd]. case_decide as Ek.
    - subst k'. by destruct (tr !! k); rewrite lookup_insert_eq.
    - by destruct (tr !! k'); rewrite lookup_insert_ne. }
  case_decide as Ek.
  - subst k'. rewrite (not_elem_of_list_to_map_1 (M := gmap bytes)), lookup_insert_eq by done. by destruct (tr !! k).
  - by rewrite lookup_insert_ne.
Qed.

Lemma fold_rows_merge `{MR : MapRange} tr pend : foldl fold_row tr (range_map pend) = merge_rows tr pend.
Proof.
  apply map_eq. intros k. rewrite fold_rows_lookup, lookup_merge_rows by apply NoDup_range_fst.
  by rewrite list_to_map_range.
Qed.

(** * The rows a statement sees *)

Definition txn_rows (def : tableDef) (txn : option storeTxn) : gmap bytes pendingRow :=
  match tableView txn (td_ID def) with Some tb => tt_rows tb | None => ∅ end.

Definition stmt_buffer (def : tableDef) (txn : option storeTxn) (pend : gmap bytes pendingRow) : tableTxn :=
  MkTableTxn (merge_rows (txn_rows def txn) pend).

Definition stmt_view (def : tableDef) (rows : gmap bytes row) (txn : option storeTxn) (pend : gmap bytes pendingRow) :
    gmap bytes row := apply_buffer (stmt_buffer def txn pend) rows.

(** Without a statement buffer the view is the transaction's. *)
Lemma stmt_view_visible def rows txn : stmt_view def rows txn ∅ = visible (tableView txn (td_ID def)) rows.
Proof.
  apply map_eq. intros k. unfold stmt_view, visible, stmt_buffer, txn_rows. rewrite lookup_apply_buffer. cbn [tt_rows].
  rewrite lookup_merge_rows, lookup_empty. destruct (tableView txn (td_ID def)) as [tb|]; [by rewrite lookup_apply_buffer|].
  by rewrite lookup_empty.
Qed.

(** The buffers are keyed by primary key, based on the committed rows and hold rows of
    the columns' types. *)
Record stmt_ok (def : tableDef) (rows : gmap bytes row) (txn : option storeTxn) (pend : gmap bytes pendingRow) : Prop := {
  sk_txn : map_Forall (λ k p, p_pkEnc p = k) (txn_rows def txn);
  sk_pend : map_Forall (λ k p, p_pkEnc p = k) pend;
  sk_based : ∀ k p, tt_rows (stmt_buffer def txn pend) !! k = Some p -> p_old p = rows !! k;
  sk_fits : ∀ k p r, tt_rows (stmt_buffer def txn pend) !! k = Some p -> p_new p = Some r -> row_fits def r
}.

Lemma view_lookup def rows txn pend k :
  stmt_ok def rows txn pend ->
  stmt_view def rows txn pend !! k =
  match tt_rows (stmt_buffer def txn pend) !! k with Some p => p_new p | None => rows !! k end.
Proof.
  intros Hok. unfold stmt_view. rewrite lookup_apply_buffer.
  destruct (tt_rows (stmt_buffer def txn pend) !! k) as [p|] eqn:Ep; [|done]. case_decide as Ht; [done|].
  pose proof (sk_based _ _ _ _ Hok _ _ Ep). destruct (p_old p) eqn:Eo; [destruct Ht; intros [? _]; congruence|].
  destruct (p_new p) eqn:En; [destruct Ht; intros [_ ?]; congruence|congruence].
Qed.

Lemma stmt_keyed def rows txn pend : stmt_ok def rows txn pend -> buffer_keyed (stmt_buffer def txn pend).
Proof.
  intros [Ht Hp _ _] k p. cbn [stmt_buffer tt_rows]. rewrite lookup_merge_rows.
  destruct (pend !! k) as [p'|] eqn:Ep, (txn_rows def txn !! k) as [q|] eqn:Eq; intros [= <-]; cbn [p_pkEnc set_new];
    first [exact (Ht _ _ Eq)|exact (Hp _ _ Ep)].
Qed.

(** The pending row an edit leaves at a key: a new end state, over what was there. *)
Definition edit_row (k : bytes) (old new : option row) (p : option pendingRow) : pendingRow :=
  match p with Some p => set_new new p | None => Pending k old new end.

(** One edit changes the view at its key only. *)
Lemma edit_view def rows txn pend k old new :
  stmt_ok def rows txn pend ->
  (pend !! k = None -> txn_rows def txn !! k = None -> old = rows !! k) ->
  (∀ r, new = Some r -> row_fits def r) ->
  let pend' := <[k := edit_row k old new (pend !! k)]> pend in
  stmt_ok def rows txn pend' ∧
  stmt_view def rows txn pend' = partial_alter (λ _, new) k (stmt_view def rows txn pend).
Proof.
  intros Hok Hold Hfit pend'.
  assert (∀ k', k' ≠ k -> tt_rows (stmt_buffer def txn pend') !! k' = tt_rows (stmt_buffer def txn pend) !! k') as Hne.
  { intros k' Hk. cbn [stmt_buffer tt_rows]. rewrite !lookup_merge_rows. unfold pend'. by rewrite lookup_insert_ne. }
  assert (∃ p, tt_rows (stmt_buffer def txn pend') !! k = Some p ∧ p_old p = rows !! k ∧ p_new p = new) as (p & Ep & Eo & En).
  { pose proof (sk_based _ _ _ _ Hok k) as Hb. cbn [stmt_buffer tt_rows] in *. rewrite !lookup_merge_rows in *. unfold pend'.
    rewrite lookup_insert_eq. unfold edit_row. destruct (pend !! k) as [p'|], (txn_rows def txn !! k) as [q|]; eexists;
      (split; [done|]); cbn [set_new p_old p_new]; split; auto; by apply (Hb _ eq_refl). }
  assert (stmt_ok def rows txn pend') as Hok'.
  { split; [apply Hok| | |].
    - apply map_Forall_insert_2; [|apply Hok]. unfold edit_row. destruct (pend !! k) as [p'|] eqn:Ep'; [|done].
      exact (sk_pend _ _ _ _ Hok _ _ Ep').
    - intros k' p' Hp'. destruct (decide (k' = k)) as [->|Hk]; [congruence|]. rewrite Hne in Hp' by done.
      by apply (sk_based _ _ _ _ Hok).
    - intros k' p' r Hp' Hr. destruct (decide (k' = k)) as [->|Hk]; [apply Hfit; congruence|].
      rewrite Hne in Hp' by done. by eapply (sk_fits _ _ _ _ Hok). }
  split; [done|]. apply map_eq. intros k'. rewrite view_lookup by done. destruct (decide (k' = k)) as [->|Hk].
  - by rewrite lookup_partial_alter_eq, Ep.
  - rewrite lookup_partial_alter_ne, Hne, <-view_lookup by done. done.
Qed.

(** * Stores that differ in counters only *)

Definition def_like (d d' : tableDef) : Prop := ∃ n, d' = set_autoInc n d.

#[export] Instance def_like_refl : Reflexive def_like.
Proof. intros d. exists (td_autoIncNext d). by destruct d. Qed.
#[export] Instance def_like_trans : Transitive def_like.
Proof. intros d1 d2 d3 [n ->] [m ->]. by exists m. Qed.

Lemma bump_like v def : def_like def (bump v def).
Proof. unfold bump. case_decide; [by exists (succ64 v)|done]. Qed.

Section edit.
Context `{H : Hasher} `{G : GCM} `{E : Entropy} `{MR : MapRange}.
Context {B : Type} `{BK : Backend B} `{!BackendSpec B} `{!BackendReliable B}.
Implicit Types (q : SqlStore B) (e : tableEditor B).

(** [q'] is [q] after reads and moves of AUTO_INCREMENT counters. *)
Record stays q q' : Prop := {
  sy_reads : reads (q_led q) (q_led q');
  sy_tables : q_tables q' = q_tables q;
  sy_defs : ∀ p, option_Forall2 def_like (q_defs q !! p) (q_defs q' !! p)
}.

#[global] Instance stays_refl : Reflexive stays.
Proof. intros q. split; [apply reads_refl|done|]. intros p. reflexivity. Qed.
#[global] Instance stays_trans : Transitive stays.
Proof.
  intros q1 q2 q3 [R1 T1 D1] [R2 T2 D2]. split; [by eapply reads_trans|congruence|]. intros p. etrans; [apply D1|apply D2].
Qed.

Lemma sreads_stays q q' : sreads q q' -> stays q q'.
Proof. intros [R ->]. split; [done|done|]. intros p. cbn. reflexivity. Qed.

Lemma stays_ptr q q' id : stays q q' -> table_ptr q' id = table_ptr q id.
Proof.
  intros [_ Ht Hd]. unfold table_ptr. rewrite Ht. do 2 f_equal. apply list_find_ext. intros [n p]. cbn.
  destruct (Hd p) as [d d' [m ->]|]; done.
Qed.

Lemma stays_catalog q q' id : stays q q' -> option_Forall2 def_like (catalog q id) (catalog q' id).
Proof.
  intros Hs. unfold catalog. rewrite (stays_ptr _ _ _ Hs). destruct (table_ptr q id); cbn; [apply Hs|constructor].
Qed.

Lemma catalog_like q q' id def' : stays q q' -> catalog q' id = Some def' -> ∃ def, catalog q id = Some def ∧ def_like def def'.
Proof. intros Hs Hc. pose proof (stays_catalog q q' id Hs) as Hf. rewrite Hc in Hf. inversion Hf; subst; eauto. Qed.

Lemma sql_ok_stays O q q' st T : stays q q' -> sql_ok O q st T -> sql_ok O q' st T.
Proof.
  intros Hs Hok. pose proof (sy_reads _ _ Hs) as R. pose proof (reads_contents _ _ R) as Ec.
  destruct (reads_fields _ _ R) as (Ek & _ & _ & _ & Ev & _). split.
  - destruct (so_repr _ _ _ _ Hok) as [ot Hr]. exists ot. by eapply reads_repr.
  - destruct (so_cat _ _ _ _ Hok) as [C1 C2]. split.
    + intros id def' (def & Hc & n & ->)%(catalog_like _ _ _ _ Hs). destruct (C1 _ _ Hc) as [? []]. by repeat split.
    + intros id d1 ix id' d2 ix' (e1 & H1 & n & ->)%(catalog_like _ _ _ _ Hs) (e2 & H2 & m & ->)%(catalog_like _ _ _ _ Hs).
      exact (C2 _ _ _ _ _ _ H1 H2).
  - intros id pk r Hr. rewrite Ek. destruct (so_rows _ _ _ _ Hok _ _ _ Hr) as (def & Hc & Hf & Hst).
    pose proof (stays_catalog q q' id Hs) as Hl. rewrite Hc in Hl. inversion Hl as [d d' [n ->]|]; subst. eauto.
  - rewrite Ek. apply Hok.
  - intros id def' (def & Hc & n & ->)%(catalog_like _ _ _ _ Hs). unfold sql_contents. rewrite Ec.
    exact (so_derived _ _ _ _ Hok _ _ Hc).
  - unfold sql_contents. rewrite Ec, Ev. apply Hok.
Qed.

(** * Editor steps that keep the transaction *)

Definition calm e e' : Prop := stays (ed_store e) (ed_store e') ∧ ed_def e' = ed_def e ∧ ed_txn e' = ed_txn e.

#[global] Instance calm_refl : Reflexive calm.
Proof. intros e. by split_and!. Qed.
#[global] Instance calm_trans : Transitive calm.
Proof. intros e1 e2 e3 (? & ? & ?) (? & ? & ?). split_and!; [by etrans|congruence..]. Qed.

(** Runs that leave the transaction, and with [same] also the statement buffer. *)
Definition gentle (same : bool) {A} (m : M (tableEditor B) A) : Prop :=
  ∀ e ot st, repr (q_led (ed_store e)) ot st ->
    calm e (m e).2 ∧ (same = true -> ed_pending (m e).2 = ed_pending e).

Lemma calm_repr e e' ot st : calm e e' -> repr (q_led (ed_store e)) ot st -> repr (q_led (ed_store e')) ot st.
Proof. intros (Hs & _) Hr. eapply reads_repr; [apply Hs|done]. Qed.

Lemma gentle_pure same {A} (m : M (tableEditor B) A) : (∀ e, (m e).2 = e) -> gentle same m.
Proof. intros Hm e ot st _. by rewrite Hm. Qed.
Lemma gentle_weaken {A} (m : M (tableEditor B) A) : gentle true m -> gentle false m.
Proof. intros Hm e ot st Hr. split; [by eapply Hm|done]. Qed.
Lemma gentle_bind same {A A'} (m : M (tableEditor B) A) (f : A -> M (tableEditor B) A') :
  gentle same m -> (∀ a, gentle same (f a)) -> gentle same (m ≫= f).
Proof.
  intros Hm Hf e ot st Hr. specialize (Hm e ot st Hr). unfold mbind, M_bind.
  destruct (m e) as [[a|er|w] e1]; cbn in Hm |- *; [|done..]. destruct Hm as [Hc Hp].
  destruct (Hf a e1 ot st (calm_repr _ _ _ _ Hc Hr)) as [Hc' Hp']. split; [by etrans|]. intros Hs. rewrite Hp', Hp by done. done.
Qed.
Lemma gentle_foldM same {A A'} (f : A -> A' -> M (tableEditor B) A) a l :
  (∀ a b, gentle same (f a b)) -> gentle same (foldM f a l).
Proof.
  intros Hf. revert a. induction l as [|b l IH]; intros a; cbn; [by apply gentle_pure|]. apply gentle_bind; auto.
Qed.
Lemma gentle_store same {A} (m : M (SqlStore B) A) : quietly m -> gentle same (on_store m).
Proof.
  intros Hm e ot st Hr. specialize (Hm _ ot st Hr). unfold on_store. destruct (m (ed_store e)) as [o q].
  split; [|done]. split; [by apply sreads_stays|done].
Qed.
Lemma gentle_put k p : gentle false (put_pending k p : M (tableEditor B) unit).
Proof. intros e ot st Hr. split; [by split_and!|done]. Qed.

Lemma get_def_run e :
  get_def e = (match q_defs (ed_store e) !! ed_def e with Some def => Ok def | None => Panic "nil pointer dereference" end, e).
Proof.
  unfold get_def, on_store, deref. cbn. unfold mbind, M_bind. cbn.
  destruct (q_defs (ed_store e) !! ed_def e); cbn; by destruct e.
Qed.

Lemma gentle_bump same v : gentle same (def ← get_def (B := B); put_def (bump v def)).
Proof.
  intros e ot st Hr. unfold mbind, M_bind. rewrite get_def_run.
  destruct (q_defs (ed_store e) !! ed_def e) as [def|] eqn:Ed; cbn; [|done].
  split; [|done]. split; [|done]. split; [by destruct (ed_store e); apply reads_refl|done|]. intros p. cbn.
  destruct (decide (p = ed_def e)) as [->|Hne].
  - rewrite Ed, lookup_insert_eq. constructor. apply bump_like.
  - rewrite lookup_insert_ne by done. reflexivity.
Qed.
End edit.

#[export] Hint Resolve gentle_put gentle_bump : gentle.
#[export] Hint Extern 1 (gentle _ (mret _)) => apply gentle_pure; done : gentle.
#[export] Hint Extern 1 (gentle _ (fail _)) => apply gentle_pure; done : gentle.
#[export] Hint Extern 1 (gentle _ (panic _)) => apply gentle_pure; done : gentle.
#[export] Hint Extern 1 (gentle _ (gets _)) => apply gentle_pure; done : gentle.
#[export] Hint Extern 1 (gentle _ (lift _)) => apply gentle_pure; done : gentle.

Ltac gentle :=
  repeat (intros; cbn beta zeta;
    first [ progress auto with gentle
          | apply gentle_bind
          | apply gentle_foldM
          | apply gentle_store; solve [quietly]
          | match goal with
            | |- gentle _ (match ?x with _ => _ end) => destruct x
            | |- gentle _ ((match ?x with _ => _ end) _) => destruct x
            end ]).

Section steps.
Context `{H : Hasher} `{G : GCM} `{E : Entropy} `{MR : MapRange}.
Context {B : Type} `{BK : Backend B} `{!BackendSpec B} `{!BackendReliable B}.
Implicit Types (q : SqlStore B) (e : tableEditor B).

Lemma gentle_get_def same : gentle same (get_def (B := B)).
Proof. intros e ot st Hr. by rewrite get_def_run. Qed.
Hint Resolve gentle_get_def : gentle.

Lemma gentle_writable same : gentle same (writable (B := B)).
Proof. unfold writable. gentle. Qed.
Lemma quietly_rowExists def pk : quietly (rowExists (B := B) def pk).
Proof. unfold rowExists. quietly. Qed.
Hint Resolve quietly_rowExists : sread.
Lemma quietly_uniqueConflict idx c pk : quietly (uniqueConflict (B := B) idx c pk).
Proof. unfold uniqueConflict. quietly. Qed.
Hint Resolve quietly_uniqueConflict : sread.
Lemma gentle_row_present same def k : gentle same (row_present (B := B) def k).
Proof. unfold row_present. gentle. Qed.
Lemma gentle_auto_col same r ic : gentle same (auto_col (B := B) r ic).
Proof. unfold auto_col. gentle. Qed.
Lemma gentle_checkUnique same def r pk : gentle same (checkUnique (B := B) def r pk).
Proof. unfold checkUnique, check_index. gentle. Qed.
Hint Resolve gentle_writable gentle_row_present gentle_auto_col gentle_checkUnique : gentle.
Lemma gentle_Insert r : gentle false (Insert (B := B) r).
Proof. unfold Insert. gentle. Qed.
Lemma gentle_Delete r : gentle false (Delete (B := B) r).
Proof. unfold Delete. gentle. Qed.
Hint Resolve gentle_Insert gentle_Delete : gentle.
Lemma gentle_Update r r' : gentle false (Update (B := B) r r').
Proof. unfold Update. gentle. Qed.
End steps.
#[export] Hint Resolve gentle_get_def gentle_writable gentle_row_present gentle_auto_col gentle_checkUnique
  gentle_Insert gentle_Delete gentle_Update : gentle.

(** * Edits against the rows of the table *)

(** The ordinals of a definition name its columns. *)
Record def_wf (def : tableDef) : Prop := {
  dw_pk : td_PKOrds def ≠ [];
  dw_ords : ∀ ix ord, ix ∈ td_Indexes def -> ord ∈ ix_ColOrds ix -> ord < length (td_Columns def)
}.

Lemma copy_row_Some def r pk : def_wf def -> encodePK def r = Ok pk -> copy_row r = Some r.
Proof.
  intros [Hpk _]. unfold encodePK. destruct (td_PKOrds def) as [|ord ords]; [done|]. by destruct r.
Qed.

Section spec.
Context `{H : Hasher} `{G : GCM} `{E : Entropy} `{MR : MapRange}.
Context {B : Type} `{BK : Backend B} `{!BackendSpec B} `{!BackendReliable B}.
Variables (O : list bytes) (st : gmap Hash bytes) (T : database) (def : tableDef).
Hypothesis Hwf : def_wf def.
Hypothesis HO : ∀ k, k ∈ O -> ¬ is_row_key k.
Implicit Types (q : SqlStore B) (e : tableEditor B).
Abbreviation id := (td_ID def).
Abbreviation rows := (trows T id).

(** The editor of table [def] on a store that holds [T]. *)
Record ed_ok e : Prop := {
  eo_sql : sql_ok O (ed_store e) st T;
  eo_def : ∃ n, q_defs (ed_store e) !! ed_def e = Some (set_autoInc n def);
  eo_cat : ∃ n, catalog (ed_store e) id = Some (set_autoInc n def);
  eo_stmt : stmt_ok def rows (ed_txn e) (ed_pending e)
}.

Definition ed_view e : gmap bytes row := stmt_view def rows (ed_txn e) (ed_pending e).

Lemma ed_repr e : ed_ok e -> ∃ ot, repr (q_led (ed_store e)) ot st.
Proof. intros []. by apply so_repr in eo_sql0. Qed.

Lemma ed_u64 e : ed_ok e -> is_u64 id.
Proof. intros [Hs _ [n Hc] _]. by destruct (co_u64 _ (so_cat _ _ _ _ Hs) _ _ Hc). Qed.

Lemma like_ex (x y : option tableDef) :
  option_Forall2 def_like x y -> (∃ n, x = Some (set_autoInc n def)) -> ∃ n, y = Some (set_autoInc n def).
Proof. intros [d d' [m ->]|] [n Hx]; [|done]. injection Hx as ->. by exists m. Qed.

(** A gentle step keeps everything but the statement buffer. *)
Lemma ed_ok_calm e e' : ed_ok e -> calm e e' -> stmt_ok def rows (ed_txn e) (ed_pending e') -> ed_ok e'.
Proof.
  intros [Hs Hd Hc _] (Hst & Ed & Et) Hp. split.
  - by eapply sql_ok_stays.
  - rewrite Ed. eapply like_ex; [apply Hst|done].
  - eapply like_ex; [by apply stays_catalog|done].
  - by rewrite Et.
Qed.

Lemma still_ok {A} (m : M (tableEditor B) A) e o e' :
  gentle true m -> ed_ok e -> m e = (o, e') -> ed_ok e' ∧ calm e e' ∧ ed_pending e' = ed_pending e ∧ ed_view e' = ed_view e.
Proof.
  intros Hm Hok Hrun. destruct (ed_repr e Hok) as [ot Hr]. destruct (Hm e ot st Hr) as [Hc Hp]. rewrite Hrun in *.
  cbn in *. specialize (Hp eq_refl). split_and!; [|done..|].
  - eapply ed_ok_calm; [done..|]. rewrite Hp. apply Hok.
  - unfold ed_view. destruct Hc as (_ & _ & ->). by rewrite Hp.
Qed.

Lemma get_def_like e d e' : ed_ok e -> get_def e = (Ok d, e') -> e' = e ∧ ∃ n, d = set_autoInc n def.
Proof. intros [_ [n Hd] _ _]. rewrite get_def_run, Hd. intros [= <- <-]. eauto. Qed.

(** The ledger has an entry for a row exactly when the table has the row. *)
Lemma st_row q pk :
  sql_ok O q st T -> is_u64 id -> keys_apart (s_ck (q_led q)) (O ++ row_keys T ++ [rowKey id pk]) ->
  is_Some (st !! pathOf (s_ck (q_led q)) (rowKey id pk)) ↔ is_Some (rows !! pk).
Proof.
  intros Hok Hu Hap. rewrite lookup_trows. split.
  - intros Hs. destruct (so_dom _ _ _ _ Hok _ Hs) as (k & Ek & Hk).
    assert (rowKey id pk = k) as <-.
    { apply Hap; [..|done]; rewrite !elem_of_app, ?list_elem_of_singleton; tauto. }
    destruct Hk as [Hk|(id' & pk' & r & Hr & Eq)%elem_of_row_keys]; [destruct (HO _ Hk); by eexists _, _|].
    destruct (so_rows _ _ _ _ Hok _ _ _ Hr) as (def' & Hc' & _).
    apply rowKey_inj in Eq as [<- <-]; [eauto|done|]. by destruct (co_u64 _ (so_cat _ _ _ _ Hok) _ _ Hc').
  - intros [r Hr]. destruct (so_rows _ _ _ _ Hok _ _ _ Hr) as (def' & _ & _ & ->). eauto.
Qed.

Lemma row_present_ok e pk o e' :
  ed_ok e -> keys_apart (s_ck (q_led (ed_store e))) (O ++ row_keys T ++ [rowKey id pk]) -> ed_pending e !! pk = None ->
  row_present def pk e = (o, e') -> o = Ok (bool_decide (is_Some (ed_view e !! pk))).
Proof.
  intros Hok Hap Hp. unfold row_present. rewrite bind_gets. unfold ed_view. rewrite view_lookup by apply Hok.
  cbn [stmt_buffer tt_rows]. rewrite lookup_merge_rows, Hp. unfold txnRow, txn_rows.
  destruct (tableView (ed_txn e) id) as [tb|] eqn:Et; cbn; [destruct (tt_rows tb !! pk) as [q|]; cbn; [by intros [= <- <-]|]|rewrite lookup_empty].
  all: unfold on_store, rowExists; destruct (ed_repr e Hok) as [ot Hr];
    destruct (led_Get_ok (rowKey id pk) (ed_store e) ot st Hr) as (q' & Eg & _); rewrite (bind_ok _ _ _ _ _ Eg);
    intros [= <- <-]; f_equal; apply bool_decide_ext, st_row; [apply Hok|by eapply ed_u64|done].
Qed.

Lemma view_pending e k p : ed_ok e -> ed_pending e !! k = Some p -> ed_view e !! k = p_new p.
Proof.
  intros Hok Hp. unfold ed_view. rewrite view_lookup by apply Hok. cbn [stmt_buffer tt_rows].
  rewrite lookup_merge_rows, Hp. by destruct (txn_rows def (ed_txn e) !! k).
Qed.

Lemma view_committed e k :
  ed_ok e -> ed_pending e !! k = None -> txn_rows def (ed_txn e) !! k = None -> ed_view e !! k = rows !! k.
Proof.
  intros Hok Hp Ht. unfold ed_view. rewrite view_lookup by apply Hok. cbn [stmt_buffer tt_rows].
  by rewrite lookup_merge_rows, Hp, Ht.
Qed.

Lemma calm_ck e e' : calm e e' -> s_ck (q_led (ed_store e')) = s_ck (q_led (ed_store e)).
Proof. intros (Hs & _). by destruct (reads_fields _ _ (sy_reads _ _ Hs)) as (-> & _). Qed.

Lemma put_ok e k old new :
  ed_ok e -> (ed_pending e !! k = None -> txn_rows def (ed_txn e) !! k = None -> old = rows !! k) ->
  (∀ r, new = Some r -> row_fits def r) ->
  let e' := set_pending (<[k := edit_row k old new (ed_pending e !! k)]> (ed_pending e)) e in
  ed_ok e' ∧ calm e e' ∧ ed_view e' = partial_alter (λ _, new) k (ed_view e).
Proof.
  intros Hok Hold Hfit e'. destruct (edit_view def rows (ed_txn e) (ed_pending e) k old new) as [Hs Hv]; [apply Hok|done..|].
  assert (calm e e') as Hc by (by split_and!). split_and!; [by eapply ed_ok_calm|done|exact Hv].
Qed.

(** What a run that keeps the buffers leaves, and peeling one off a longer run. *)
Ltac still Hok Erun pat :=
  match type of Erun with
  | ?m _ = _ => let Hg := fresh in assert (gentle true m) as Hg by gentle;
      destruct (still_ok m _ _ _ Hg Hok Erun) as pat; clear Hg
  end.
Ltac peel Hrun Hok e1 Hok1 Hc1 Hv1 :=
  let a := fresh "a" in let E1 := fresh "E" in
  apply bind_inv_ok in Hrun as (a & e1 & E1 & Hrun);
  still Hok E1 ipattern:((Hok1 & Hc1 & ? & Hv1)).

Lemma Insert_ok e r pk u e' :
  ed_ok e -> encodePK def r = Ok pk -> row_fits def r ->
  keys_apart (s_ck (q_led (ed_store e))) (O ++ row_keys T ++ [rowKey id pk]) ->
  Insert r e = (Ok u, e') ->
  ed_ok e' ∧ calm e e' ∧ ed_view e !! pk = None ∧ ed_view e' = <[pk := r]> (ed_view e) ∧
  ∃ e1, ed_view e1 = ed_view e' ∧ ed_ok e1 ∧ checkUnique def r pk e1 = (Ok u, e') ∧
    ∀ k, k ≠ pk -> tt_rows (stmt_buffer def (ed_txn e1) (ed_pending e1)) !! k =
      tt_rows (stmt_buffer def (ed_txn e) (ed_pending e)) !! k.
Proof.
  intros Hok Hpk Hf Hap Hrun. pose proof (copy_row_Some _ _ _ Hwf Hpk) as Hcopy. unfold Insert in Hrun. peel Hrun Hok e1 Hok0 Hc Hv0.
  apply bind_inv_ok in Hrun as (d & e9 & Ed & Hrun). apply (get_def_like _ _ _ Hok0) in Ed as [-> [n ->]].
  change (encodePK (set_autoInc n def) r) with (encodePK def r) in Hrun. rewrite Hpk in Hrun. rewrite bind_lift in Hrun.
  peel Hrun Hok0 e2 Hok1 Hc0 Hv1. rewrite bind_gets in Hrun. apply bind_inv_ok in Hrun as ([] & e3 & Ep & Hrun).
  change (checkUnique (set_autoInc n def) r pk) with (checkUnique def r pk) in Hrun.
  assert (ed_view e2 = ed_view e) as Ev by congruence.
  assert (ed_view e2 !! pk = None ∧ ∃ e2', calm e2 e2' ∧ ed_pending e2' = ed_pending e2 ∧ ed_ok e2' ∧
    e3 = set_pending (<[pk := edit_row pk None (Some r) (ed_pending e2' !! pk)]> (ed_pending e2')) e2') as (Hno & e2' & Hcm & Hpe & Hok2 & ->).
  { destruct (ed_pending e2 !! pk) as [p|] eqn:Epp.
    - destruct (decide (is_Some (p_new p))) as [|Hn]; [done|]. injection Ep as <-. split.
      + rewrite (view_pending _ _ _ Hok1 Epp). by apply eq_None_not_Some.
      + exists e2. split_and!; [done|done|done|]. by rewrite Epp, Hcopy.
    - apply bind_inv_ok in Ep as (b & e2' & Eb & Ep).
      change (row_present (set_autoInc n def) pk) with (row_present def pk) in Eb.
      still Hok1 Eb ipattern:((Hok2 & Hcm & Hpe & Hve)).
      apply row_present_ok in Eb; [|done| |done].
      2:{ by rewrite (calm_ck _ _ Hc0), (calm_ck _ _ Hc). }
      injection Eb as ->. case_bool_decide as Hb; [done|]. injection Ep as <-. split; [by apply eq_None_not_Some|].
      exists e2'. split_and!; [done|done|done|]. by rewrite Hpe, Epp, Hcopy. }
  assert (ed_view e2' = ed_view e) as Ev2.
  { rewrite <-Ev. unfold ed_view. destruct Hcm as (_ & _ & ->). by rewrite Hpe. }
  destruct (put_ok e2' pk None (Some r) Hok2) as (Hok3 & Hc3 & Hv3); [|by intros r0 [= <-]|].
  { intros Hp0 Ht0. rewrite <-(view_committed _ _ Hok2 Hp0 Ht0), Ev2, <-Ev. done. }
  still Hok3 Hrun ipattern:((Hok4 & Hc4 & Hp4 & Hv4)).
  split_and!; [done| |congruence|rewrite Hv4, Hv3, Ev2; done|].
  2:{ eexists. split_and!; [symmetry; exact Hv4|exact Hok3|exact Hrun|]. intros k Hne. cbn [stmt_buffer tt_rows set_pending ed_txn ed_pending].
      rewrite !lookup_merge_rows, lookup_insert_ne by done. destruct Hcm as (_ & _ & ->), Hc0 as (_ & _ & ->), Hc as (_ & _ & ->).
      by assert (ed_pending e2' = ed_pending e) as -> by congruence. }
  etrans; [exact Hc|]. etrans; [exact Hc0|]. etrans; [exact Hcm|]. by etrans.
Qed.

Lemma Delete_ok e r pk u e' :
  ed_ok e -> encodePK def r = Ok pk -> ed_view e !! pk = Some r -> Delete r e = (Ok u, e') ->
  ed_ok e' ∧ calm e e' ∧ ed_view e' = delete pk (ed_view e).
Proof.
  intros Hok Hpk Hv Hrun. pose proof (copy_row_Some _ _ _ Hwf Hpk) as Hcopy. unfold Delete in Hrun. peel Hrun Hok e0 Hok0 Hc Hv0.
  apply bind_inv_ok in Hrun as (d & e9 & Ed & Hrun). apply (get_def_like _ _ _ Hok0) in Ed as [-> [n ->]].
  change (encodePK (set_autoInc n def) r) with (encodePK def r) in Hrun. rewrite Hpk in Hrun. rewrite bind_lift in Hrun.
  rewrite bind_gets in Hrun. injection Hrun as <- <-.
  destruct (put_ok e0 pk (Some r) None Hok0) as (Hok3 & Hc3 & Hv3); [|done|].
  { intros Hp0 Ht0. rewrite <-(view_committed _ _ Hok0 Hp0 Ht0). congruence. }
  rewrite Hcopy. split_and!; [exact Hok3|by etrans|]. unfold delete, map_delete. rewrite <-Hv0. exact Hv3.
Qed.

Lemma Update_ok e old new opk npk u e' :
  ed_ok e -> encodePK def old = Ok opk -> encodePK def new = Ok npk -> row_fits def new -> ed_view e !! opk = Some old ->
  keys_apart (s_ck (q_led (ed_store e))) (O ++ row_keys T ++ [rowKey id npk]) ->
  Update old new e = (Ok u, e') ->
  ed_ok e' ∧ calm e e' ∧ delete opk (ed_view e) !! npk = None ∧ ed_view e' = <[npk := new]> (delete opk (ed_view e)).
Proof.
  intros Hok Ho Hn Hf Hv Hap Hrun. unfold Update in Hrun. peel Hrun Hok e1 Hok1 Hc1 Hv1.
  apply bind_inv_ok in Hrun as (d & e9 & Ed & Hrun). apply (get_def_like _ _ _ Hok1) in Ed as [-> [n ->]].
  change (encodePK (set_autoInc n def)) with (encodePK def) in Hrun. rewrite Ho, Hn in Hrun. rewrite !bind_lift in Hrun.
  change (checkUnique (set_autoInc n def)) with (checkUnique (B := B) def) in Hrun. case_decide as Eq.
  - subst npk. rewrite bind_gets in Hrun. apply bind_inv_ok in Hrun as ([] & e2 & Ep & Hrun). injection Ep as <-.
    rewrite (copy_row_Some _ _ _ Hwf Ho), (copy_row_Some _ _ _ Hwf Hn) in Hrun.
    destruct (put_ok e1 opk (Some old) (Some new) Hok1) as (Hok3 & Hc3 & Hv3); [|by intros r [= <-]|].
    { intros Hp0 Ht0. rewrite <-(view_committed _ _ Hok1 Hp0 Ht0). congruence. }
    still Hok3 Hrun ipattern:((Hok4 & Hc4 & _ & Hv4)).
    split_and!; [done|etrans; [exact Hc1|]; by etrans|apply lookup_delete_eq|].
    rewrite Hv4, insert_delete_eq, <-Hv1. exact Hv3.
  - apply bind_inv_ok in Hrun as ([] & e2 & Ed & Hrun).
    destruct (Delete_ok e1 old opk _ _ Hok1 Ho ltac:(congruence) Ed) as (Hok2 & Hc2 & Hv2).
    destruct (Insert_ok e2 new npk u e' Hok2 Hn Hf) as (Hok3 & Hc3 & Hno & Hv3 & _); [|done|].
    { by rewrite (calm_ck _ _ Hc2), (calm_ck _ _ Hc1). }
    rewrite Hv2, Hv1 in *. split_and!; [done|etrans; [exact Hc1|]; by etrans|done|done].
Qed.

End spec.

(** * Statements *)

(** The row operations the engine drives an editor with. *)
Inductive row_edit := EInsert (r : row) | EDelete (r : row) | EUpdate (old new : row).

Definition pk_of (def : tableDef) (r : row) : bytes := match encodePK def r with Ok pk => pk | _ => [] end.

(** What an edit does to the rows of a table. *)
Definition apply_edit (def : tableDef) (ed : row_edit) (rows : gmap bytes row) : gmap bytes row :=
  match ed with
  | EInsert r => <[pk_of def r := r]> rows
  | EDelete r => delete (pk_of def r) rows
  | EUpdate old new => <[pk_of def new := new]> (delete (pk_of def old) rows)
  end.

(** The row it adds is not there yet. *)
Definition edit_fresh (def : tableDef) (ed : row_edit) (rows : gmap bytes row) : Prop :=
  match ed with
  | EInsert r => rows !! pk_of def r = None
  | EDelete _ => True
  | EUpdate old new => delete (pk_of def old) rows !! pk_of def new = None
  end.

(** The engine's side: new rows are of the columns' types and have a key, and the rows
    it deletes or rewrites are the ones it read. *)
Definition new_row (def : tableDef) (r : row) : Prop := is_ok (encodePK def r) = true ∧ row_fits def r.
Definition seen_row (def : tableDef) (rows : gmap bytes row) (r : row) : Prop :=
  is_ok (encodePK def r) = true ∧ rows !! pk_of def r = Some r.
Definition edit_valid (def : tableDef) (ed : row_edit) (rows : gmap bytes row) : Prop :=
  match ed with
  | EInsert r => new_row def r
  | EDelete r => seen_row def rows r
  | EUpdate old new => seen_row def rows old ∧ new_row def new
  end.

Fixpoint edits_valid (def : tableDef) (eds : list row_edit) (rows : gmap bytes row) : Prop :=
  match eds with
  | [] => True
  | ed :: eds' => edit_valid def ed rows ∧ edits_valid def eds' (apply_edit def ed rows)
  end.
Fixpoint edits_fresh (def : tableDef) (eds : list row_edit) (rows : gmap bytes row) : Prop :=
  match eds with
  | [] => True
  | ed :: eds' => edit_fresh def ed rows ∧ edits_fresh def eds' (apply_edit def ed rows)
  end.
Definition apply_edits (def : tableDef) (eds : list row_edit) (rows : gmap bytes row) : gmap bytes row :=
  foldl (λ rows ed, apply_edit def ed rows) rows eds.

(** The ledger keys of the rows a statement adds. *)
Definition edit_key (def : tableDef) (ed : row_edit) : list bytes :=
  match ed with
  | EInsert r | EUpdate _ r => [rowKey (td_ID def) (pk_of def r)]
  | EDelete _ => []
  end.
Definition edit_keys (def : tableDef) (eds : list row_edit) : list bytes := eds ≫= edit_key def.

Section statement.
Context `{H : Hasher} `{G : GCM} `{E : Entropy} `{MR : MapRange}.
Context {B : Type} `{BK : Backend B} `{!BackendSpec B} `{!BackendReliable B}.
Implicit Types (q : SqlStore B) (e : tableEditor B).

Definition run_edit (ed : row_edit) : M (tableEditor B) unit :=
  match ed with EInsert r => Insert r | EDelete r => Delete r | EUpdate old new => Update old new end.

(** A statement as the engine runs it: its row operations, with the buffer discarded
    when one fails, then the close. *)
Definition statement (eds : list row_edit) : M (tableEditor B) unit := λ e,
  match foldM (λ _ ed, run_edit ed) tt eds e with
  | (Ok _, e1) => Close e1
  | (Err er, e1) => (DiscardChanges;; Close;; fail er) e1
  | (Panic w, e1) => (Panic w, e1)
  end.

Lemma keys_apart_sub ck l l' : (∀ k, k ∈ l' -> k ∈ l) -> keys_apart ck l -> keys_apart ck l'.
Proof. intros Hs Ha k k' Hk Hk'. by apply Ha; apply Hs. Qed.

Section run.
Variables (O : list bytes) (st : gmap Hash bytes) (T : database) (def : tableDef).
Hypothesis Hwf : def_wf def.
Hypothesis HO : ∀ k, k ∈ O -> ¬ is_row_key k.
Abbreviation ok := (ed_ok O st T def).
Abbreviation vw := (ed_view T def).

Lemma run_edit_ok e ed u e' :
  ok e -> edit_valid def ed (vw e) ->
  keys_apart (s_ck (q_led (ed_store e))) (O ++ row_keys T ++ edit_key def ed) -> run_edit ed e = (Ok u, e') ->
  ok e' ∧ calm e e' ∧ edit_fresh def ed (vw e) ∧ vw e' = apply_edit def ed (vw e).
Proof.
  intros Hok Hval Hap Hrun. destruct ed as [r|r|old new]; cbn [run_edit edit_valid apply_edit edit_fresh edit_key] in *.
  - destruct Hval as [Hpk Hf]. unfold pk_of in *. destruct (encodePK def r) as [pk|er|w] eqn:Epk; try done.
    destruct (Insert_ok O st T def Hwf HO e r pk u e') as (? & ? & ? & ? & _); auto.
  - destruct Hval as [Hpk Hv]. unfold pk_of in *. destruct (encodePK def r) as [pk|er|w] eqn:Epk; try done.
    destruct (Delete_ok O st T def Hwf e r pk u e') as (? & ? & ?); auto.
  - destruct Hval as [[Hpk Hv] [Hpk' Hf]]. unfold pk_of in *. destruct (encodePK def old) as [opk|er|w] eqn:Eo; try done.
    destruct (encodePK def new) as [npk|er|w] eqn:En; try done. by eapply Update_ok.
Qed.

Lemma run_edits_ok eds e u e' :
  ok e -> edits_valid def eds (vw e) ->
  keys_apart (s_ck (q_led (ed_store e))) (O ++ row_keys T ++ edit_keys def eds) ->
  foldM (λ _ ed, run_edit ed) tt eds e = (Ok u, e') ->
  ok e' ∧ calm e e' ∧ edits_fresh def eds (vw e) ∧ vw e' = apply_edits def eds (vw e).
Proof.
  revert e. induction eds as [|ed eds IH]; intros e Hok Hval Hap; cbn [foldM edits_valid edits_fresh].
  { intros [= <- <-]. by split_and!. }
  destruct Hval as [Hv1 Hv2]. intros ([] & e1 & E1 & Hrun)%bind_inv_ok.
  destruct (run_edit_ok e ed tt e1 Hok Hv1) as (Hok1 & Hc1 & Hf1 & Ev1); [|done|].
  { eapply keys_apart_sub; [|exact Hap]. intros k. unfold edit_keys. cbn [mbind list_bind]. rewrite !elem_of_app. tauto. }
  rewrite <-Ev1 in Hv2. destruct (IH e1 Hok1 Hv2) as (Hok2 & Hc2 & Hf2 & Ev2); [|done|].
  { rewrite (calm_ck _ _ Hc1). eapply keys_apart_sub; [|exact Hap]. intros k. unfold edit_keys. cbn [mbind list_bind].
    rewrite !elem_of_app. tauto. }
  rewrite Ev1 in *. split_and!; [done|by etrans|done..].
Qed.

(** ** Closing *)

(** Runs of edits that fail, or that panic, keep the transaction as well. *)
Lemma run_edits_calm eds e o e' : ok e -> foldM (λ _ ed, run_edit ed) tt eds e = (o, e') -> calm e e'.
Proof.
  intros Hok Hrun. destruct (ed_repr _ _ _ _ _ Hok) as [ot Hr].
  assert (gentle false (foldM (λ (_ : unit) ed, run_edit ed) tt eds)) as Hg.
  { apply gentle_foldM. intros _ [r|r|old new]; cbn [run_edit]; gentle. }
  destruct (Hg e ot st Hr) as [Hc _]. by rewrite Hrun in Hc.
Qed.

Lemma merge_rows_empty tr : merge_rows tr ∅ = tr.
Proof. apply map_eq. intros k. by rewrite lookup_merge_rows, lookup_empty. Qed.

(** [t'] is [t] with another buffer for table [id]. *)
Definition txn_at (id : N) (t t' : storeTxn) : Prop :=
  tx_baseVersion t' = tx_baseVersion t ∧ tx_readOnly t' = tx_readOnly t ∧ tx_savepoints t' = tx_savepoints t ∧
  ∀ id', id' ≠ id -> tx_tables t' !! id' = tx_tables t !! id'.

(** Closing in a transaction always succeeds and folds the buffers into one. *)
Lemma Close_run e t n :
  q_defs (ed_store e) !! ed_def e = Some (set_autoInc n def) -> ed_txn e = Some t ->
  ∃ t', Close e = (Ok tt, set_pending ∅ (set_txn (Some t') e)) ∧ txn_at (td_ID def) t t' ∧
    txn_rows def (Some t') = merge_rows (txn_rows def (Some t)) (ed_pending e) ∧ (ed_pending e = ∅ -> t' = t).
Proof.
  intros Hd Ht. unfold Close. rewrite bind_gets. case_decide as Hsz.
  - apply map_size_empty_inv in Hsz. exists t. rewrite Hsz, merge_rows_empty. split_and!; try done.
    rewrite <-Hsz. destruct e; cbn in *. by subst.
  - pose proof (get_def_run e) as Eg. rewrite Hd in Eg. rewrite (bind_ok _ _ _ _ _ Eg), bind_gets, Ht. unfold txn_table. cbn.
    assert (∃ t0 tb, match tx_tables t !! td_ID def with
                     | Some tb => (tb, t)
                     | None => (MkTableTxn ∅, set_tables (<[td_ID def := MkTableTxn ∅]> (tx_tables t)) t)
                     end = (tb, t0) ∧ txn_at (td_ID def) t t0 ∧ tt_rows tb = txn_rows def (Some t)) as (t0 & tb & -> & Hat & Etb).
    { unfold txn_rows. cbn. destruct (tx_tables t !! td_ID def) as [tb|]; [by exists t, tb|].
      eexists _, _. split; [done|]. split; [|done]. split_and!; [done..|]. intros id' Hne. cbn. by rewrite lookup_insert_ne. }
    rewrite Etb, fold_rows_merge. eexists. split; [done|]. split_and!.
    + destruct Hat as (? & ? & ? & Hat). split_and!; [done..|]. intros id' Hne. cbn. rewrite lookup_insert_ne by done. auto.
    + unfold txn_rows at 1. cbn. by rewrite lookup_insert_eq.
    + intros Hp. by rewrite Hp, map_size_empty in Hsz.
Qed.

(** It hands the statement's view over to the transaction. *)
Lemma Close_ok e t :
  ok e -> ed_txn e = Some t ->
  ∃ t', Close e = (Ok tt, set_pending ∅ (set_txn (Some t') e)) ∧ ok (set_pending ∅ (set_txn (Some t') e)) ∧
    txn_at (td_ID def) t t' ∧ visible (tableView (Some t') (td_ID def)) (trows T (td_ID def)) = vw e ∧
    (ed_pending e = ∅ -> t' = t).
Proof.
  intros Hok Ht. destruct (eo_def _ _ _ _ _ Hok) as [n Hd]. destruct (Close_run e t n Hd Ht) as (t' & Ec & Hat & Hrows & Hp).
  exists t'. split; [done|]. pose proof (stmt_keyed _ _ _ _ (eo_stmt _ _ _ _ _ Hok)) as Hkey. rewrite <-Ht in Hrows.
  assert (stmt_buffer def (Some t') ∅ = stmt_buffer def (ed_txn e) (ed_pending e)) as Hb.
  { unfold stmt_buffer at 1. by rewrite merge_rows_empty, Hrows. }
  split_and!; [|done| |done].
  - split; [apply Hok..|]. cbn [set_pending set_txn ed_txn ed_pending]. split.
    + rewrite Hrows. exact Hkey.
    + apply map_Forall_empty.
    + rewrite Hb. apply Hok.
    + rewrite Hb. apply Hok.
  - rewrite <-stmt_view_visible. unfold stmt_view. by rewrite Hb.
Qed.

(** A statement in a transaction: its edits become the transaction's view of the
    table, or it fails and the transaction is what it was. *)
Lemma statement_ok eds e t o e' :
  ok e -> ed_pending e = ∅ -> ed_txn e = Some t ->
  let before := visible (tableView (Some t) (td_ID def)) (trows T (td_ID def)) in
  edits_valid def eds before ->
  keys_apart (s_ck (q_led (ed_store e))) (O ++ row_keys T ++ edit_keys def eds) ->
  statement eds e = (o, e') ->
  stays (ed_store e) (ed_store e') ∧ ed_def e' = ed_def e ∧
  match o with
  | Ok _ => ok e' ∧ ed_pending e' = ∅ ∧ edits_fresh def eds before ∧ ∃ t', ed_txn e' = Some t' ∧ txn_at (td_ID def) t t' ∧
      visible (tableView (Some t') (td_ID def)) (trows T (td_ID def)) = apply_edits def eds before
  | Err _ => ok e' ∧ ed_pending e' = ∅ ∧ ed_txn e' = Some t
  | Panic _ => ed_txn e' = Some t
  end.
Proof.
  intros Hok Hp Ht before Hval Hap Hrun. unfold statement in Hrun.
  assert (vw e = before) as Hv by (unfold ed_view; by rewrite Hp, Ht, stmt_view_visible).
  destruct (foldM _ tt eds e) as [[u|er|w] e1] eqn:Ef; pose proof (run_edits_calm _ _ _ _ Hok Ef) as Hc.
  - rewrite <-Hv in *. destruct (run_edits_ok eds e u e1 Hok Hval Hap Ef) as (Hok1 & _ & Hf & Ev).
    destruct Hc as (Hs & Hd & Et). rewrite Ht in Et.
    destruct (Close_ok e1 t Hok1 Et) as (t' & Ec & Hok2 & Hat & Hvis & _). rewrite Ec in Hrun. injection Hrun as <- <-.
    split_and!; [done..|]. exists t'. split_and!; [done..|congruence].
  - assert (ok (set_pending ∅ e1)) as Hok1.
    { eapply (ed_ok_calm O st T def e); [done|exact Hc|]. cbn [ed_pending set_pending]. rewrite <-Hp. apply Hok. }
    destruct Hc as (Hs & Hd & Et). rewrite Ht in Et.
    cbn in Hrun. unfold mbind, M_bind in Hrun. cbn in Hrun.
    destruct (Close_ok (set_pending ∅ e1) t Hok1 Et) as (t' & Ec & Hok2 & Hat & Hvis & Ht'). rewrite Ec in Hrun.
    injection Hrun as <- <-. rewrite Ht' in * by done. by split_and!.
  - injection Hrun as <- <-. destruct Hc as (Hs & Hd & Et). split_and!; [done..|congruence].
Qed.
End run.
End statement.
