(* ===== verification/SqlUnique.v ===== *)
(** Unique indexes: what the check of [sqlledger/table.go] establishes.

    [uniqueConflict] reads at most two entries and still decides whether another
    committed row holds the value.  A statement that passes [checkUnique] leaves the
    values of unique indexes apart, as long as no other row the transaction touched
    held the value before. *)

From S2P Require Import Prelude Errors Sha256 Hashing Node Aead Backend Cache Store Tree StoreRead Records StoreCommit GoNum SqlCodec SqlIndex SqlTxn SqlOverlay SqlStore SqlScan SqlScanOk SqlCommit SqlRefine SqlTable SqlEdit.

(** The rows of a table hold no value of a unique index twice. *)
Definition unique_in (def : tableDef) (rows : gmap bytes row) : Prop :=
  ∀ ix pk1 pk2 r1 r2 c, ix ∈ td_Indexes def -> ix_Unique ix = true ->
    rows !! pk1 = Some r1 -> rows !! pk2 = Some r2 ->
    encodeIndexCols def ix r1 = Ok (c, false) -> encodeIndexCols def ix r2 = Ok (c, false) -> pk1 = pk2.

(** A list without repetitions has an element other than [x] when its first two do. *)
Lemma two_enough {A} `{EqDecision A} (l : list A) (x : A) :
  NoDup l -> existsb (λ y, bool_decide (y ≠ x)) (take 2 l) = true ↔ ∃ y, y ∈ l ∧ y ≠ x.
Proof.
  intros Hnd. rewrite existsb_exists. setoid_rewrite bool_decide_eq_true. split.
  - intros (y & Hy%list_elem_of_In & Hne). exists y. split; [|done]. rewrite <-(take_drop 2 l). apply elem_of_app. by left.
  - intros (y & Hy & Hne). destruct l as [|a [|b l]]; [by apply not_elem_of_nil in Hy|exists y|].
    + split; [by apply list_elem_of_In|done].
    + destruct (decide (a = x)) as [->|]; [exists b|exists a]; cbn; [|by auto].
      split; [auto|]. intros ->. apply NoDup_cons in Hnd as [Hx _]. apply Hx. left.
Qed.

Section value.
Context `{MR : MapRange}.
Variables (D : gmap bytes bytes) (def : tableDef) (rows : gmap bytes row) (ix : indexDef) (r0 : row) (c : bytes) (h0 : bool).
Hypothesis Hder : derived_ok D def rows.
Hypothesis Hix : ix ∈ td_Indexes def.
Hypothesis Henc : encodeIndexCols def ix r0 = Ok (c, h0).
Abbreviation start := (secondarySpace (ix_ID ix) ++ c).

(** The entries under a value are those of the rows that hold it. *)
Lemma under_value stop kv :
  incBytes start = Some stop ->
  kv ∈ scan_spec D start stop 0 ↔
  ∃ pk r h, rows !! pk = Some r ∧ encodeIndexCols def ix r = Ok (c, h) ∧ kv = MkKV (start ++ pk) pk.
Proof.
  intros Hinc. rewrite elem_of_scan. destruct kv as [k v]. cbn [kv_Key kv_Value].
  assert (in_range start stop k ↔ start `prefix_of` k) as ->.
  { rewrite <-(incBytes_range _ _ k Hinc). unfold in_range. pose proof (incBytes_lt _ _ Hinc) as Hlt.
    destruct stop; [by destruct start|]. naive_solver. }
  assert (∀ s, in_space def (Some ix) (start ++ s)) as Hsp by (intros s; exists (c ++ s); by rewrite app_assoc).
  split.
  - intros [[s ->] Hv]. apply (Hder (Some ix) _ _ Hix (Hsp s)) in Hv as (pk & r & Hr & He & ->).
    cbn [entry_at entry_value] in *. unfold index_key in He.
    destruct (encodeIndexCols def ix r) as [[c' h]|e|w] eqn:Ec; cbn [mbind outcome_bind] in He; try done.
    injection He as He.
    destruct (encode_index_app_inj _ _ _ _ _ _ _ _ _ _ _ _ _ Ec Henc He) as [-> ->]. eauto 10.
  - intros (pk & r & h & Hr & Ec & [= -> ->]). split; [by eexists|].
    apply (Hder (Some ix) _ _ Hix (Hsp pk)). exists pk, r. split_and!; [done| |done]. cbn. unfold index_key. rewrite Ec.
    cbn [mbind outcome_bind]. by rewrite app_assoc.
Qed.
End value.

Section check.
Context `{H : Hasher} `{G : GCM} `{E : Entropy} `{MR : MapRange}.
Context {B : Type} `{BK : Backend B} `{!BackendSpec B} `{!BackendReliable B}.
Variables (O : list bytes) (st : gmap Hash bytes) (T : database) (def : tableDef).
Implicit Types (q : SqlStore B) (e : tableEditor B).
Abbreviation rows := (trows T (td_ID def)).
Abbreviation ok := (ed_ok O st T def).

(** Another committed row holds the value [c]. *)
Definition held (ix : indexDef) (c pk : bytes) : Prop :=
  ∃ pk' r h, rows !! pk' = Some r ∧ encodeIndexCols def ix r = Ok (c, h) ∧ pk' ≠ pk.

Lemma uniqueConflict_ok e ix r0 c h0 pk :
  ok e -> ix ∈ td_Indexes def -> encodeIndexCols def ix r0 = Ok (c, h0) ->
  ∃ b q', uniqueConflict ix c pk (ed_store e) = (Ok b, q') ∧ (b = true ↔ held ix c pk).
Proof.
  intros Hok Hix Henc. unfold uniqueConflict.
  destruct (incBytes_space secondaryPrefix (be 8 (ix_ID ix) ++ c)) as [stop Hinc]; [done|].
  change (secondaryPrefix :: be 8 (ix_ID ix) ++ c) with (secondarySpace (ix_ID ix) ++ c) in Hinc. rewrite Hinc.
  destruct (db_scan_ok (secondarySpace (ix_ID ix) ++ c) stop 2 (ed_store e)) as (q' & Es & _).
  rewrite (bind_ok _ _ _ _ _ Es), limited_scan by done. eexists _, q'. split; [done|]. change (N.to_nat 2) with 2.
  assert (derived_ok (sql_contents (ed_store e)) def rows) as Hder.
  { destruct (eo_cat _ _ _ _ _ Hok) as [n Hc]. exact (so_derived _ _ _ _ (eo_sql _ _ _ _ _ Hok) _ _ Hc). }
  pose proof (λ kv, under_value _ _ _ _ _ _ _ Hder Hix Henc stop kv Hinc) as Hu.
  set (l := scan_spec (sql_contents (ed_store e)) (secondarySpace (ix_ID ix) ++ c) stop 0) in *.
  assert (existsb (λ kv, bool_decide (kv_Value kv ≠ pk)) (take 2 l) =
    existsb (λ y, bool_decide (y ≠ pk)) (take 2 (kv_Value <$> l))) as ->.
  { rewrite <-fmap_take. generalize (take 2 l). induction l0 as [|kv l0 IH]; cbn; [done|by rewrite IH]. }
  rewrite two_enough.
  - split.
    + intros (y & (kv & -> & (pk' & r & h & Hr & Ec & ->)%Hu)%list_elem_of_fmap & Hne). by exists pk', r, h.
    + intros (pk' & r & h & Hr & Ec & Hne). exists pk'. split; [|done]. apply list_elem_of_fmap.
      eexists (MkKV _ pk'). split; [done|]. apply Hu. eauto 10.
  - apply NoDup_fmap_2_strong.
    + intros kv kv' (pk1 & ? & ? & _ & _ & ->)%Hu (pk2 & ? & ? & _ & _ & ->)%Hu. cbn. by intros ->.
    + pose proof (scan_sorted (sql_contents (ed_store e)) (secondarySpace (ix_ID ix) ++ c) stop 0) as Hs. fold l in Hs.
      clear -Hs. induction Hs as [|x l Hs IH Hf]; constructor; [|done]. intros Hin. rewrite Forall_forall in Hf.
      specialize (Hf x Hin). unfold kv_lt, bytes_lt in Hf. by rewrite bytes_cmp_refl in Hf.
Qed.

(** ** The pending rows *)

Lemma pending_holds_ok ix c pk ps :
  pending_holds def ix c pk ps = Ok false ->
  ∀ p new, p ∈ ps -> p_pkEnc p ≠ pk -> p_new p = Some new -> encodeIndexCols def ix new ≠ Ok (c, false).
Proof.
  induction ps as [|p0 ps IH]; cbn; [by intros _ p new ?%not_elem_of_nil|].
  case_decide as Epk; [|destruct (p_new p0) as [n0|] eqn:En; [destruct (encodeIndexCols def ix n0) as [[c' h']|er|w] eqn:Ec; cbn; try done; case_decide as Hd; [done|]|]].
  all: intros Hf p new [->|Hin]%elem_of_cons Hne Hp; [|by eapply IH].
  - done.
  - rewrite En in Hp. injection Hp as <-. rewrite Ec. intros [= -> ->]. by apply Hd.
  - congruence.
Qed.

Lemma pending_frees_ok ix c pk ps :
  pending_frees def ix c pk ps = Ok true ->
  ∃ p old, p ∈ ps ∧ p_pkEnc p ≠ pk ∧ p_old p = Some old ∧ encodeIndexCols def ix old = Ok (c, false).
Proof.
  induction ps as [|p0 ps IH]; cbn; [done|].
  assert (pending_frees def ix c pk ps = Ok true ->
    ∃ p old, p ∈ p0 :: ps ∧ p_pkEnc p ≠ pk ∧ p_old p = Some old ∧ encodeIndexCols def ix old = Ok (c, false)) as Hrec.
  { intros (p & old & Hin & Hp)%IH. exists p, old. split; [by right|done]. }
  destruct (p_old p0) as [old|] eqn:Eo; [|done]. case_decide as Epk; [done|].
  destruct (encodeIndexCols def ix old) as [[c' h']|er|w] eqn:Ec; cbn; try done. case_decide as Hd; [done|].
  intros _. exists p0, old. split_and!; [left|done..|]. rewrite Ec. destruct h'; [destruct Hd; by left|].
  destruct (decide (c' = c)) as [->|]; [done|]. destruct Hd. by right.
Qed.

(** The pending rows of the check are those of the statement's buffer. *)
Lemma elem_of_effective e k p :
  ok e -> tt_rows (stmt_buffer def (ed_txn e) (ed_pending e)) !! k = Some p ->
  p ∈ effectivePending def (ed_txn e) (ed_pending e).
Proof.
  intros Hok. cbn [stmt_buffer tt_rows]. rewrite lookup_merge_rows. unfold effectivePending, txnRow, txn_rows. rewrite elem_of_app.
  pose proof (sk_txn _ _ _ _ (eo_stmt _ _ _ _ _ Hok)) as Hkt. pose proof (sk_pend _ _ _ _ (eo_stmt _ _ _ _ _ Hok)) as Hkp.
  unfold txn_rows in Hkt. destruct (ed_pending e !! k) as [p'|] eqn:Ep.
  - intros Hp. left. apply list_elem_of_fmap. exists (k, p'). split; [|by apply elem_of_range]. cbn [fst snd].
    destruct (tableView (ed_txn e) (td_ID def)) as [tb|]; cbn; [|by rewrite lookup_empty in Hp; injection Hp].
    destruct (tt_rows tb !! k) as [q|] eqn:Eq; [|by injection Hp]. injection Hp as <-.
    rewrite (Hkp _ _ Ep). unfold set_new. by rewrite (Hkt _ _ Eq).
  - intros Hq. right. destruct (tableView (ed_txn e) (td_ID def)) as [tb|]; [|by rewrite lookup_empty in Hq].
    apply list_elem_of_fmap. exists (k, p). split; [done|]. apply list_elem_of_filter. split; [done|]. by apply elem_of_range.
Qed.

Lemma effective_elem e p :
  ok e -> p ∈ effectivePending def (ed_txn e) (ed_pending e) ->
  tt_rows (stmt_buffer def (ed_txn e) (ed_pending e)) !! p_pkEnc p = Some p.
Proof.
  intros Hok. cbn [stmt_buffer tt_rows]. rewrite lookup_merge_rows. unfold effectivePending, txnRow, txn_rows. rewrite elem_of_app.
  pose proof (sk_txn _ _ _ _ (eo_stmt _ _ _ _ _ Hok)) as Hkt. pose proof (sk_pend _ _ _ _ (eo_stmt _ _ _ _ _ Hok)) as Hkp.
  unfold txn_rows in Hkt. intros [([k p'] & -> & Hp%elem_of_range)%list_elem_of_fmap|Hp].
  - cbn [fst snd]. pose proof (Hkp _ _ Hp) as Ek. cbn in Ek.
    destruct (tableView (ed_txn e) (td_ID def)) as [tb|]; cbn; [|by rewrite Ek, Hp, lookup_empty].
    destruct (tt_rows tb !! k) as [q|] eqn:Eq; cbn; rewrite Ek, Hp, Eq; [|done].
    unfold set_new. by rewrite (Hkt _ _ Eq).
  - destruct (tableView (ed_txn e) (td_ID def)) as [tb|]; [|by apply not_elem_of_nil in Hp].
    apply list_elem_of_fmap in Hp as ([k p'] & -> & [Hn Hp%elem_of_range]%list_elem_of_filter). cbn [fst snd] in *.
    pose proof (Hkt _ _ Hp) as Ek. cbn in Ek. by rewrite Ek, Hn, Hp.
Qed.

(** No other row that the transaction or the statement touched held the values of [r]
    when the transaction began. *)
Definition not_reused e (r : row) (pk : bytes) : Prop :=
  ∀ ix c k p old, ix ∈ td_Indexes def -> ix_Unique ix = true -> encodeIndexCols def ix r = Ok (c, false) ->
    tt_rows (stmt_buffer def (ed_txn e) (ed_pending e)) !! k = Some p -> k ≠ pk -> p_old p = Some old ->
    encodeIndexCols def ix old ≠ Ok (c, false).

Lemma check_index_ok e e0 r pk ix u e' :
  ok e -> ok e0 -> not_reused e r pk -> ix ∈ td_Indexes def -> ix_Unique ix = true ->
  check_index def r pk (effectivePending def (ed_txn e) (ed_pending e)) ix e0 = (Ok u, e') ->
  ∀ c, encodeIndexCols def ix r = Ok (c, false) ->
  ¬ held ix c pk ∧ pending_holds def ix c pk (effectivePending def (ed_txn e) (ed_pending e)) = Ok false.
Proof.
  intros Hok Hok0 Hnr Hix Hun Hrun c Hc. unfold check_index in Hrun. rewrite Hun, Hc in Hrun. cbn [negb] in Hrun. rewrite bind_lift in Hrun.
  destruct (uniqueConflict_ok e0 ix r c false pk Hok0 Hix Hc) as (b & q' & Eb & Hb).
  apply bind_inv_ok in Hrun as (b' & e1 & E1 & Hrun). unfold on_store in E1. rewrite Eb in E1. injection E1 as <- <-.
  apply bind_inv_ok in Hrun as (conf & e2 & E2 & Hrun). destruct conf; [done|]. destruct b.
  - exfalso. apply bind_inv_ok in E2 as (res & e3 & E3 & E2). injection E2 as E2 _. destruct res; [|done].
    injection E3 as E3 _. apply pending_frees_ok in E3 as (p & old & Hin & Hne & Ho & Henc).
    apply (effective_elem e) in Hin; [|done]. by eapply Hnr.
  - injection E2 as E2 _. split; [|done]. intros Hh. by apply Hb in Hh.
Qed.

Lemma checkUnique_sound e r pk u e' :
  ok e -> ed_view T def e !! pk = Some r -> unique_in def (delete pk (ed_view T def e)) -> not_reused e r pk ->
  checkUnique def r pk e = (Ok u, e') -> unique_in def (ed_view T def e).
Proof.
  intros Hok Hv Hu Hnr Hrun. unfold checkUnique in Hrun. rewrite bind_gets in Hrun.
  set (ps := effectivePending def (ed_txn e) (ed_pending e)) in *.
  assert (∀ l e0, ok e0 -> foldM (λ _ idx, check_index def r pk ps idx) tt l e0 = (Ok u, e') ->
    ∀ ix, ix ∈ l -> ∃ e1 e2 u', ok e1 ∧ check_index def r pk ps ix e1 = (Ok u', e2)) as Hall.
  { clear Hrun. induction l as [|ix0 l IH]; intros e0 Hok0 Hrun ix; [by intros ?%not_elem_of_nil|]. cbn [foldM] in Hrun.
    apply bind_inv_ok in Hrun as ([] & e1 & E1 & Hrun). intros [->|Hin]%elem_of_cons; [eauto 10|]. eapply IH; [|done..].
    assert (gentle true (check_index (B := B) def r pk ps ix0)) as Hg by (unfold check_index; gentle; apply gentle_store, quietly_uniqueConflict).
    by destruct (still_ok _ _ _ _ _ _ _ _ Hg Hok0 E1) as (? & _). }
  assert (∀ ix pk2 r2 c, ix ∈ td_Indexes def -> ix_Unique ix = true -> pk2 ≠ pk -> ed_view T def e !! pk2 = Some r2 ->
    encodeIndexCols def ix r = Ok (c, false) -> encodeIndexCols def ix r2 = Ok (c, false) -> False) as Hone.
  { intros ix pk2 r2 c Hix Hun Hne Hv2 Hc Hc2. destruct (Hall _ _ Hok Hrun ix Hix) as (e1 & e2 & u' & Hok1 & E1).
    destruct (check_index_ok e e1 r pk ix u' e2 Hok Hok1 Hnr Hix Hun E1 c Hc) as [Hh Hp].
    unfold ed_view in Hv2. rewrite view_lookup in Hv2 by apply Hok.
    destruct (tt_rows (stmt_buffer def (ed_txn e) (ed_pending e)) !! pk2) as [p|] eqn:Ep.
    - eapply (pending_holds_ok ix c pk ps Hp p r2); [by eapply elem_of_effective| |done..].
      by rewrite (stmt_keyed _ _ _ _ (eo_stmt _ _ _ _ _ Hok) _ _ Ep).
    - apply Hh. by exists pk2, r2, false. }
  intros ix pk1 pk2 r1 r2 c Hix Hun H1 H2 E1 E2.
  destruct (decide (pk1 = pk)) as [->|N1], (decide (pk2 = pk)) as [->|N2]; [done|..].
  - exfalso. rewrite Hv in H1. injection H1 as <-. by eapply (Hone ix pk2 r2 c).
  - exfalso. rewrite Hv in H2. injection H2 as <-. by eapply (Hone ix pk1 r1 c).
  - eapply (Hu ix pk1 pk2 r1 r2 c); [done..| | |done|done]; by rewrite lookup_delete_ne.
Qed.

(** An insert that succeeds keeps the unique values apart. *)
Lemma Insert_unique e r pk u e' :
  def_wf def -> (∀ k, k ∈ O -> ¬ is_row_key k) -> ok e -> encodePK def r = Ok pk -> row_fits def r ->
  keys_apart (s_ck (q_led (ed_store e))) (O ++ row_keys T ++ [rowKey (td_ID def) pk]) ->
  unique_in def (ed_view T def e) -> not_reused e r pk -> Insert r e = (Ok u, e') -> unique_in def (ed_view T def e').
Proof.
  intros Hwf HO Hok Hpk Hf Hap Hu Hnr Hrun.
  destruct (Insert_ok O st T def Hwf HO e r pk u e' Hok Hpk Hf Hap Hrun) as (Hok' & _ & Hno & Ev & e1 & Ev1 & Hok1 & Hchk & Hbuf).
  rewrite <-Ev1. eapply checkUnique_sound; [done| | | |done].
  - rewrite Ev1, Ev. apply lookup_insert_eq.
  - rewrite Ev1, Ev, delete_insert_id by done. exact Hu.
  - intros ix c k p old Hix Hun Hc Hp Hne. eapply Hnr; [done..| |done]. by rewrite <-Hbuf.
Qed.
End check.
