(* ===== verification/SqlSession.v ===== *)
(** Sessions: the transaction interface of [sqlledger/txn.go] over a shared store.

    Every session has at most one open transaction.  Statements run through editors;
    commits of different sessions interleave freely ([SqlWorld]).  The second half shows
    that the rows a transaction may hold can always be encoded and indexed, so that a
    commit does not fail for them. *)

From S2P Require Import Prelude Errors Sha256 Hashing Node Aead Backend Cache Store Tree StoreRead Records StoreCommit StoreFrame GoNum SqlCodec SqlIndex SqlTxn SqlOverlay SqlStore SqlScan SqlScanOk SqlCommit SqlRefine SqlTable SqlEdit.

Record Session (B : Type) := MkSession { se_store : SqlStore B; se_txn : option storeTxn }.
Arguments MkSession {B}. Arguments se_store {B}. Arguments se_txn {B}.

Section session.
Context `{H : Hasher} `{G : GCM} `{E : Entropy} `{MR : MapRange} {B : Type} `{BK : Backend B}.
Abbreviation MS := (M (Session B)).

Definition with_store {A} (m : M (SqlStore B) A) : MS A := λ s,
  let '(o, q) := m (se_store s) in (o, MkSession q (se_txn s)).
Definition put_txn (t : option storeTxn) : MS unit := modify (λ s, MkSession (se_store s) t).

Definition NewSession (q : SqlStore B) : Session B := MkSession q None.

Definition StartTransaction (readOnly : bool) : MS unit :=
  version ← with_store sql_version;
  put_txn (Some (MkStoreTxn version readOnly ∅ [])).

Definition CommitTransaction : MS unit :=
  txn ← gets se_txn;
  match txn with
  | None => mret tt
  | Some txn => put_txn None;; with_store (commitTxn txn)
  end.

Definition Rollback : MS unit := put_txn None.

(** [TRUNCATE] drops the transaction's rows of the table and commits directly. *)
Definition Truncate (rounds : nat) (p : defptr) : MS nat :=
  def ← with_store (deref p);
  txn ← gets se_txn;
  (match txn with
   | Some t => put_txn (Some (set_tables (delete (td_ID def) (tx_tables t)) t))
   | None => mret tt
   end);;
  with_store (remove_rows rounds def 0).
End session.

(** * Rows that fit can be indexed *)

Lemma coerce_fits col v :
  fits (cd_QType col) v -> ∃ kind c, col_kind col = Ok kind ∧ coerce kind v = Ok c.
Proof.
  unfold col_kind. destruct (cd_QType col), v; cbn [fits kindOfQType]; intros Hf; try done; eexists _, _; by split.
Qed.

Lemma encode_index_total cols r ords buf hn :
  Forall2 fits_col cols r -> Forall (λ ord, ord < length cols) ords ->
  is_ok (encode_index_cols cols r ords buf hn) = true.
Proof.
  intros Hf Ho. revert buf hn. induction Ho as [|ord ords Hord Ho IH]; intros buf hn; cbn [encode_index_cols]; [done|].
  destruct (lookup_lt_is_Some_2 cols ord Hord) as [col Hcol]. destruct (Forall2_lookup_l _ _ _ _ _ Hf Hcol) as (o & -> & Hfo).
  destruct o as [v|]; [|apply IH]. rewrite Hcol. destruct (coerce_fits col v Hfo) as (kind & c & -> & Hc).
  cbn [mbind outcome_bind]. unfold encodeKeyCol. rewrite Hc. cbn [mbind outcome_bind wrap_err]. apply IH.
Qed.

Lemma indexOps_total def r pk b : def_wf def -> row_fits def r -> is_ok (indexOps def r pk b) = true.
Proof.
  intros [_ Hw] [Hf _]. unfold indexOps.
  assert (∀ l, (∀ ix, ix ∈ l -> ix ∈ td_Indexes def) -> is_ok (index_ops def r pk b l) = true) as Hall; [|by apply Hall].
  induction l as [|ix l IH]; intros Hl; cbn [index_ops]; [done|]. unfold encodeIndexCols.
  assert (is_ok (encode_index_cols (td_Columns def) r (ix_ColOrds ix) [] false) = true) as Hok.
  { apply encode_index_total; [done|]. apply Forall_forall. intros ord Hord. eapply Hw; [apply Hl; left|done]. }
  destruct (encode_index_cols _ _ _ _ _) as [[c h]|e|w]; try done. cbn [mbind outcome_bind].
  assert (is_ok (index_ops def r pk b l) = true) as Hok' by (apply IH; intros; apply Hl; by right).
  by destruct (index_ops def r pk b l).
Qed.

Definition row_pending (def : tableDef) (p : pendingRow) : Prop :=
  ∀ r, p_old p = Some r ∨ p_new p = Some r -> row_fits def r.

Lemma buildRowOps_total def p : def_wf def -> row_pending def p -> is_ok (buildRowOps def p) = true.
Proof.
  intros Hw Hp. unfold buildRowOps, row_pending in *. destruct (p_new p) as [new|], (p_old p) as [old|]; [..|done].
  - destruct (row_fits_enc def new) as [-> _]; [auto|]. cbn [mbind outcome_bind].
    pose proof (indexOps_total def old (p_pkEnc p) true Hw ltac:(auto)). destruct (indexOps def old _ _); try done. cbn [mbind outcome_bind].
    pose proof (indexOps_total def new (p_pkEnc p) false Hw ltac:(auto)). by destruct (indexOps def new _ _).
  - destruct (row_fits_enc def new) as [-> _]; [auto|]. cbn [mbind outcome_bind].
    pose proof (indexOps_total def new (p_pkEnc p) false Hw ltac:(auto)). by destruct (indexOps def new _ _).
  - pose proof (indexOps_total def old (p_pkEnc p) true Hw ltac:(auto)). by destruct (indexOps def old _ _).
Qed.

Lemma rows_ops_total def ps : def_wf def -> Forall (row_pending def) ps -> is_ok (rows_ops def ps) = true.
Proof.
  intros Hw Hps. induction Hps as [|p ps Hp Hps IH]; cbn [rows_ops]; [done|].
  pose proof (buildRowOps_total def p Hw Hp). destruct (buildRowOps def p) as [[l1 s1]|e|w]; try done.
  by destruct (rows_ops def ps) as [[l2 s2]|e|w].
Qed.

(** A table's buffer at the end of a statement serves its queries. *)
Lemma stmt_buffer_ok `{MR : MapRange} def rows txn tb :
  def_wf def -> (∀ k r, rows !! k = Some r -> row_fits def r) -> stmt_ok def rows txn ∅ ->
  tableView txn (td_ID def) = Some tb -> buffer_ok def rows tb.
Proof.
  intros Hw Hr Hok Ht. assert (tt_rows (stmt_buffer def txn ∅) = tt_rows tb) as Hb.
  { cbn [stmt_buffer tt_rows]. rewrite merge_rows_empty. unfold txn_rows. by rewrite Ht. }
  split.
  - intros k p Hp. apply (stmt_keyed _ _ _ _ Hok). by rewrite Hb.
  - intros k p Hp. apply (sk_based _ _ _ _ Hok). by rewrite Hb.
  - assert (Forall (row_pending def) (pending_list tb)) as Hf.
    { apply Forall_forall. intros p Hp r Hpr. rewrite pending_list_perm, list_elem_of_fmap in Hp.
      destruct Hp as ([k p'] & -> & Hp%elem_of_map_to_list). cbn [snd] in *. rewrite <-Hb in Hp. destruct Hpr as [Ho|Hn].
      - apply (Hr k). by rewrite <-(sk_based _ _ _ _ Hok _ _ Hp).
      - by eapply (sk_fits _ _ _ _ Hok). }
    pose proof (rows_ops_total def _ Hw Hf) as Hops.
    destruct (rows_ops def (pending_list tb)) as [[lo so]|e|w] eqn:Eo; try done. by rewrite (rows_ops_scan _ _ _ _ Eo).
Qed.
