(* ===== verification/SqlRelease.v ===== *)
(** Unique values that a transaction has released.

    [checkUnique] of [sqlledger/table.go] looks at the pending rows in one of two ways:
    without a committed conflict it compares their values with the new row's, with one it
    only asks whether the committed row gives the value up.  Once it does, pending rows
    that hold the value are not looked at, and an insert of that value succeeds beside
    them. *)

From S2P Require Import Prelude Errors Sha256 Hashing Node Aead Backend Cache Store Tree StoreRead Records StoreCommit GoNum SqlCodec SqlIndex SqlTxn SqlOverlay SqlStore SqlScan SqlScanOk SqlCommit SqlRefine SqlTable SqlEdit SqlUnique SqlSession.

Section pendings.
Variables (def : tableDef) (ix : indexDef) (c pk : bytes).

(** The pending row gives up the value that its committed row holds. *)
Definition releases (p : pendingRow) : Prop :=
  p_pkEnc p ≠ pk ∧ (∃ old, p_old p = Some old ∧ encodeIndexCols def ix old = Ok (c, false)) ∧
  ∀ new, p_new p = Some new -> encodeIndexCols def ix new ≠ Ok (c, false).

Lemma pending_frees_true ps p :
  (∀ q r, q ∈ ps -> p_old q = Some r ∨ p_new q = Some r -> is_ok (encodeIndexCols def ix r) = true) ->
  p ∈ ps -> releases p -> pending_frees def ix c pk ps = Ok true.
Proof.
  induction ps as [|q ps IH]; intros Hok Hp Hr; [by apply not_elem_of_nil in Hp|]. cbn [pending_frees].
  assert (p ∈ ps -> pending_frees def ix c pk ps = Ok true) as Hrec.
  { intros Hin. apply IH; [|done..]. intros q' r Hq'. apply Hok. by right. }
  pose proof (Hok q) as Hq. apply elem_of_cons in Hp as [->|Hp].
  - destruct Hr as (Hne & (old & Eo & Ec) & Hnew). rewrite Eo, decide_False by done. rewrite Ec. cbn [mbind outcome_bind].
    rewrite decide_False by naive_solver. destruct (p_new q) as [new|] eqn:En; [|done].
    specialize (Hq new ltac:(left) ltac:(by right)). specialize (Hnew new eq_refl).
    destruct (encodeIndexCols def ix new) as [[c' h']|er|w]; try done. cbn [mbind outcome_bind]. rewrite decide_True; [done|].
    destruct h'; [by left|]. right. congruence.
  - specialize (Hrec Hp). destruct (p_old q) as [old|] eqn:Eo; [|done]. case_decide; [done|].
    pose proof (Hq old ltac:(left) ltac:(by left)) as Hold. destruct (encodeIndexCols def ix old) as [[c' h']|er|w]; try done.
    cbn [mbind outcome_bind]. case_decide; [done|]. destruct (p_new q) as [new|] eqn:En; [|done].
    pose proof (Hq new ltac:(left) ltac:(by right)) as Hnew. destruct (encodeIndexCols def ix new) as [[c2 h2]|er|w]; try done.
    cbn [mbind outcome_bind]. by case_decide.
Qed.
End pendings.

Section release.
Context `{H : Hasher} `{G : GCM} `{E : Entropy} `{MR : MapRange}.
Context {B : Type} `{BK : Backend B} `{!BackendSpec B} `{!BackendReliable B}.
Variables (O : list bytes) (st : gmap Hash bytes) (T : database) (def : tableDef).
Hypothesis Hwf : def_wf def.
Hypothesis HO : ∀ k, k ∈ O -> ¬ is_row_key k.
Implicit Types e : tableEditor B.
Abbreviation rows := (trows T (td_ID def)).
Abbreviation ok := (ed_ok O st T def).
Abbreviation view := (ed_view T def).

Lemma index_total ix r : ix ∈ td_Indexes def -> row_fits def r -> is_ok (encodeIndexCols def ix r) = true.
Proof.
  intros Hix [Hf _]. apply encode_index_total; [done|]. apply Forall_forall. intros ord Hord. by eapply (dw_ords _ Hwf).
Qed.

(** Every row the check meets has index values. *)
Lemma pending_total e ix q r :
  ok e -> ix ∈ td_Indexes def -> q ∈ effectivePending def (ed_txn e) (ed_pending e) -> p_old q = Some r ∨ p_new q = Some r ->
  is_ok (encodeIndexCols def ix r) = true.
Proof.
  intros Hok Hix Hq Hr. apply index_total; [done|]. apply (effective_elem O st T def e) in Hq; [|done].
  pose proof (eo_stmt _ _ _ _ _ Hok) as Hs. destruct Hr as [Ho|Hn]; [|by eapply (sk_fits _ _ _ _ Hs)].
  rewrite (sk_based _ _ _ _ Hs _ _ Hq), lookup_trows in Ho. pose proof (eo_sql _ _ _ _ _ Hok) as Hsql.
  destruct (so_rows _ _ _ _ Hsql _ _ _ Ho) as (def' & Hc' & Hf & _). destruct (eo_cat _ _ _ _ _ Hok) as [n Hc].
  rewrite Hc in Hc'. injection Hc' as <-. exact Hf.
Qed.

(** ** The steps of an insert that is not refused for its key *)

Lemma auto_cols_run r l e :
  ok e -> Forall (λ ic, ic.1 < length r) l ->
  ∃ e', foldM (λ _ ic, auto_col r ic) tt l e = (Ok tt, e') ∧ ok e' ∧ ed_pending e' = ed_pending e ∧ ed_txn e' = ed_txn e ∧
    calm e e'.
Proof.
  revert e. induction l as [|[i col] l IH]; intros e Hok Hl; cbn [foldM]; [by exists e|].
  apply Forall_cons in Hl as [Hi Hl]. cbn [fst] in Hi.
  assert (∃ e1, auto_col r (i, col) e = (Ok tt, e1)) as [e1 E1].
  { unfold auto_col. cbn [fst snd]. destruct (negb (cd_AutoInc col)); [by eexists|].
    destruct (lookup_lt_is_Some_2 r i Hi) as [o ->]. destruct o as [x|]; [|by eexists]. cbn zeta. case_decide; [|by eexists].
    destruct (eo_def _ _ _ _ _ Hok) as [n Hd]. rewrite (bind_ok _ _ _ (set_autoInc n def) e); [by eexists|].
    by rewrite get_def_run, Hd. }
  destruct (still_ok O st T def _ _ _ _ (gentle_auto_col true r (i, col)) Hok E1) as (Hok1 & Hc1 & Hp1 & _).
  destruct (IH e1 Hok1 Hl) as (e2 & E2 & Hok2 & Hp2 & Ht2 & Hc2). exists e2. rewrite (bind_ok _ _ _ _ _ E1).
  split_and!; [done|done|congruence| |by etrans]. rewrite Ht2. by destruct Hc1 as (_ & _ & ->).
Qed.

Lemma Insert_runs e r pk :
  ok e -> encodePK def r = Ok pk -> row_fits def r -> (∀ t, ed_txn e = Some t -> tx_readOnly t = false) ->
  keys_apart (s_ck (q_led (ed_store e))) (O ++ row_keys T ++ [rowKey (td_ID def) pk]) -> view e !! pk = None ->
  ∃ e1, Insert r e = checkUnique def r pk e1 ∧ ok e1 ∧ view e1 = <[pk := r]> (view e) ∧
    ∀ k, k ≠ pk -> tt_rows (stmt_buffer def (ed_txn e1) (ed_pending e1)) !! k =
      tt_rows (stmt_buffer def (ed_txn e) (ed_pending e)) !! k.
Proof.
  intros Hok Hpk Hf Hro Hap Hno. pose proof (copy_row_Some _ _ _ Hwf Hpk) as Hcopy. unfold Insert.
  rewrite (bind_ok writable _ e tt e).
  2:{ unfold writable. rewrite bind_gets. destruct (ed_txn e) as [t|] eqn:Et; [|done]. by rewrite (Hro t eq_refl). }
  destruct (eo_def _ _ _ _ _ Hok) as [n Hd].
  rewrite (bind_ok get_def _ e (set_autoInc n def) e) by (by rewrite get_def_run, Hd).
  change (encodePK (set_autoInc n def) r) with (encodePK def r). rewrite Hpk, bind_lift.
  destruct (auto_cols_run r (imap pair (td_Columns def)) e Hok) as (e2 & E2 & Hok2 & Hp2 & Ht2 & Hc2).
  { apply Forall_forall. intros [i col] (j & y & [= -> ->] & Hcol)%elem_of_lookup_imap. cbn.
    rewrite <-(Forall2_length _ _ _ (proj1 Hf)). by eapply lookup_lt_Some. }
  rewrite (bind_ok _ _ _ _ _ E2), bind_gets. change (checkUnique (set_autoInc n def) r pk) with (checkUnique (B := B) def r pk).
  assert (view e2 = view e) as Ev2 by (unfold ed_view; by rewrite Ht2, Hp2).
  assert (∃ e3, (match ed_pending e2 !! pk with
    | Some p => if decide (is_Some (p_new p)) then fail ErrPrimaryKeyViolation else put_pending pk (set_new (copy_row r) p)
    | None => exists_ ← row_present (set_autoInc n def) pk;
        if exists_ : bool then fail ErrPrimaryKeyViolation else put_pending pk (Pending pk None (copy_row r)) end) e2 =
      (Ok tt, set_pending (<[pk := edit_row pk None (Some r) (ed_pending e3 !! pk)]> (ed_pending e3)) e3) ∧
    ok e3 ∧ ed_pending e3 = ed_pending e2 ∧ ed_txn e3 = ed_txn e2) as (e3 & E3 & Hok3 & Hp3 & Ht3).
  { destruct (ed_pending e2 !! pk) as [p|] eqn:Ep.
    - exists e2. rewrite decide_False; [by rewrite Ep, Hcopy|]. rewrite <-Ev2, (view_pending _ _ _ _ _ _ _ Hok2 Ep) in Hno.
      rewrite Hno. by intros [].
    - change (row_present (set_autoInc n def) pk) with (row_present (B := B) def pk).
      destruct (row_present def pk e2) as [o e3] eqn:Er. exists e3.
      destruct (still_ok O st T def _ _ _ _ (gentle_row_present true def pk) Hok2 Er) as (Hok3 & Hc3 & Hp3 & _).
      apply (row_present_ok O st T def HO) in Er as Eo; [|done| |done].
      2:{ by rewrite (calm_ck _ _ Hc2). }
      assert (o = Ok false) as -> by (by rewrite Eo, Ev2, Hno). rewrite (bind_ok _ _ _ _ _ Er).
      assert (ed_pending e3 !! pk = None) as Ep3 by (by rewrite Hp3). split_and!; [by rewrite Ep3, Hcopy|done|done|apply Hc3]. }
  rewrite (bind_ok _ _ _ _ _ E3). eexists. split; [reflexivity|].
  assert (view e3 = view e) as Ev3 by (unfold ed_view; by rewrite Ht3, Hp3, Ht2, Hp2).
  destruct (put_ok O st T def e3 pk None (Some r) Hok3) as (Hok4 & _ & Hv4); [|by intros r0 [= <-]|].
  { intros Hp0 Ht0. rewrite <-(view_committed _ _ _ _ _ _ Hok3 Hp0 Ht0), Ev3. done. }
  split_and!; [exact Hok4|rewrite Hv4, Ev3; done|]. intros k Hne. cbn [stmt_buffer tt_rows set_pending ed_txn ed_pending].
  rewrite !lookup_merge_rows, lookup_insert_ne by done. by rewrite Ht3, Hp3, Ht2, Hp2.
Qed.

(** ** The check of a released value *)

Lemma check_released e e0 r pk ix c k old :
  ok e -> ok e0 -> ix ∈ td_Indexes def -> encodeIndexCols def ix r = Ok (c, false) ->
  rows !! k = Some old -> k ≠ pk -> encodeIndexCols def ix old = Ok (c, false) ->
  (∀ new, view e !! k = Some new -> encodeIndexCols def ix new ≠ Ok (c, false)) ->
  ∃ e', check_index def r pk (effectivePending def (ed_txn e) (ed_pending e)) ix e0 = (Ok tt, e').
Proof.
  intros Hok Hok0 Hix Hc Hk Hne Eold Hrel. unfold check_index. destruct (negb (ix_Unique ix)); [by eexists|].
  rewrite Hc, bind_lift. destruct (uniqueConflict_ok O st T def e0 ix r c false pk Hok0 Hix Hc) as (b & q' & Eb & Hb).
  rewrite (bind_ok _ _ _ b (set_store q' e0)) by (unfold on_store; by rewrite Eb).
  assert (b = true) as -> by (apply Hb; by exists k, old, false).
  assert (∃ p, tt_rows (stmt_buffer def (ed_txn e) (ed_pending e)) !! k = Some p ∧ p_new p = view e !! k) as (p & Ep & En).
  { unfold ed_view. rewrite view_lookup by apply Hok.
    destruct (tt_rows (stmt_buffer def (ed_txn e) (ed_pending e)) !! k) as [p|] eqn:Ep; [by exists p|]. exfalso.
    eapply Hrel; [|exact Eold]. unfold ed_view. rewrite view_lookup by apply Hok. by rewrite Ep. }
  rewrite (pending_frees_true def ix c pk _ p); [by eexists| |by eapply elem_of_effective|].
  - intros q r0 Hq. by apply (pending_total e).
  - pose proof (eo_stmt _ _ _ _ _ Hok) as Hs. split_and!.
    + by rewrite (stmt_keyed _ _ _ _ Hs _ _ Ep).
    + exists old. by rewrite (sk_based _ _ _ _ Hs _ _ Ep).
    + intros new. rewrite En. apply Hrel.
Qed.

(** ** An insert beside a pending row *)

Lemma Insert_released e r pk ix c k old k2 r2 :
  ok e -> encodePK def r = Ok pk -> row_fits def r -> (∀ t, ed_txn e = Some t -> tx_readOnly t = false) ->
  keys_apart (s_ck (q_led (ed_store e))) (O ++ row_keys T ++ [rowKey (td_ID def) pk]) -> view e !! pk = None ->
  ix ∈ td_Indexes def -> ix_Unique ix = true -> (∀ ix', ix' ∈ td_Indexes def -> ix_Unique ix' = true -> ix' = ix) ->
  encodeIndexCols def ix r = Ok (c, false) ->
  rows !! k = Some old -> k ≠ pk -> encodeIndexCols def ix old = Ok (c, false) ->
  (∀ new, view e !! k = Some new -> encodeIndexCols def ix new ≠ Ok (c, false)) ->
  view e !! k2 = Some r2 -> encodeIndexCols def ix r2 = Ok (c, false) ->
  ∃ e', Insert r e = (Ok tt, e') ∧ ok e' ∧ view e' = <[pk := r]> (view e) ∧ ¬ unique_in def (view e').
Proof.
  intros Hok Hpk Hf Hro Hap Hno Hix Hun Honly Hc Hk Hne Eold Hrel Hk2 Ec2.
  destruct (Insert_runs e r pk Hok Hpk Hf Hro Hap Hno) as (e1 & -> & Hok1 & Hv1 & Hbuf).
  assert (∀ new, view e1 !! k = Some new -> encodeIndexCols def ix new ≠ Ok (c, false)) as Hrel1.
  { intros new. rewrite Hv1, lookup_insert_ne by congruence. apply Hrel. }
  set (ps := effectivePending def (ed_txn e1) (ed_pending e1)).
  assert (∀ l e0, ok e0 -> l ⊆ td_Indexes def -> ∃ e', foldM (λ _ idx, check_index def r pk ps idx) tt l e0 = (Ok tt, e') ∧ ok e' ∧
    ed_pending e' = ed_pending e0 ∧ ed_txn e' = ed_txn e0) as Hall.
  { induction l as [|ix' l IH]; intros e0 Hok0 Hsub; cbn [foldM]; [by exists e0|].
    assert (∃ e2, check_index def r pk ps ix' e0 = (Ok tt, e2)) as [e2 E2].
    { destruct (ix_Unique ix') eqn:Eu; [|unfold check_index; rewrite Eu; by eexists].
      assert (ix' ∈ td_Indexes def) as Hix' by (apply Hsub; left).
      rewrite (Honly ix' Hix' Eu). eapply (check_released e1); eauto. }
    assert (gentle true (check_index (B := B) def r pk ps ix')) as Hg
      by (unfold check_index; gentle; apply gentle_store, quietly_uniqueConflict).
    destruct (still_ok _ _ _ _ _ _ _ _ Hg Hok0 E2) as (Hok2 & Hc2 & Hp2 & _). rewrite (bind_ok _ _ _ _ _ E2).
    destruct (IH e2 Hok2) as (e3 & E3 & Hok3 & Hp3 & Ht3); [set_solver|]. exists e3. split_and!; [done|done|congruence|].
    rewrite Ht3. apply Hc2. }
  destruct (Hall (td_Indexes def) e1 Hok1) as (e' & Er & Hok' & Hp' & Ht'); [done|]. exists e'.
  assert (view e' = <[pk := r]> (view e)) as Hv' by (rewrite <-Hv1; unfold ed_view; by rewrite Hp', Ht').
  split_and!; [unfold checkUnique; by rewrite bind_gets|done|done|]. intros Hu.
  assert (pk ≠ k2) as Hne2 by congruence. apply Hne2.
  eapply (Hu ix pk k2 r r2 c); [done|done| | |done|done]; rewrite Hv'; [apply lookup_insert_eq|by rewrite lookup_insert_ne].
Qed.
End release.
