(* ===== verification/SqlRemove.v ===== *)
(** Removing the rows of a table: the loop of TRUNCATE and DROP TABLE.

    Every round scans one chunk of the table's row keyspace and commits the removal of
    its rows: the commit of a buffer that deletes them ([chunk_table]).  The loop ends
    when the keyspace is empty, after one round more than there are chunks, and leaves
    the table without rows and all other tables as they were. *)

From S2P Require Import Prelude Errors Sha256 Hashing Node Aead Backend Cache Store Tree StoreRead Records StoreCommit StoreFrame GoNum SqlCodec SqlIndex SqlTxn SqlOverlay SqlStore SqlScan SqlScanOk SqlCommit SqlRefine SqlTable SqlEdit SqlSession.

Section remove.
Context `{H : Hasher} `{G : GCM} `{E : Entropy} `{MR : MapRange}.
Context {B : Type} `{BK : Backend B} `{!BackendSpec B} `{!BackendReliable B}.
Context `{!GCMSpec} `{!EntropyLive}.
Implicit Types q : SqlStore B.

(** ** The row keyspace of a table *)

Abbreviation row_start def := (scanKey (td_ID def) []).
Abbreviation row_stop def := (default [] (incBytes (scanKey (td_ID def) []))).

Lemma row_range def k : in_range (row_start def) (row_stop def) k ↔ in_space def None k.
Proof.
  destruct (incBytes_space scanPrefix (be 8 (td_ID def) ++ [])) as [stop Hinc]; [done|].
  change (scanPrefix :: be 8 (td_ID def) ++ []) with (scanKey (td_ID def) []) in Hinc. rewrite Hinc. change (default [] (Some stop)) with stop.
  unfold in_space, index_space, in_range. rewrite <-(incBytes_range _ _ k Hinc). split; [|naive_solver].
  intros [Hle [->|Hlt]]; [|done]. by apply incBytes_lt in Hinc.
Qed.

Lemma elem_of_row_scan D def rows kv :
  derived_ok D def rows ->
  kv ∈ scan_spec D (row_start def) (row_stop def) 0 ↔ ∃ pk r, rows !! pk = Some r ∧ kv = MkKV (scanKey (td_ID def) pk) [].
Proof.
  intros Hd. rewrite elem_of_scan, row_range. destruct kv as [k v]. cbn [kv_Key kv_Value]. split.
  - intros [Hs Hv]. apply (Hd None k v I Hs) in Hv as (pk & r & Hr & [= <-] & ->). by exists pk, r.
  - intros (pk & r & Hr & [= -> ->]). assert (in_space def None (scanKey (td_ID def) pk)) as Hs.
    { by apply (entry_at_space def None r pk). }
    split; [done|]. apply (Hd None _ _ I Hs). eauto.
Qed.

(** ** One chunk *)

(** The rows of a chunk as a buffer that deletes them. *)
Definition chunk_rows (rows : gmap bytes row) (kvs : list KV) : list pendingRow :=
  omap (λ kv, let pk := drop 9 (kv_Key kv) in (λ r, Pending pk (Some r) None) <$> rows !! pk) kvs.
Definition chunk_table (ps : list pendingRow) : tableTxn := MkTableTxn (list_to_map ((λ p, (p_pkEnc p, p)) <$> ps)).

Definition chunk (def : tableDef) : M (SqlStore B) (list KV * (list Op * list BatchOp)) :=
  kvs ← db (b_scan (row_start def) (row_stop def) scanChunkSize);
  ops ← foldM (remove_entry def) ([], []) kvs;
  mret (kvs, ops).

(** The entries are of rows of the table. *)
Definition of_rows (ck : bytes) (st : gmap Hash bytes) (def : tableDef) (rows : gmap bytes row) (kv : KV) : Prop :=
  ∃ pk r, kv_Key kv = scanKey (td_ID def) pk ∧ rows !! pk = Some r ∧ row_fits def r ∧
    st !! pathOf ck (rowKey (td_ID def) pk) = Some (row_payload def (row_enc def r)).

Lemma readRowLocked_ok def pk r q ot st :
  repr (q_led q) ot st -> row_fits def r ->
  st !! pathOf (s_ck (q_led q)) (rowKey (td_ID def) pk) = Some (row_payload def (row_enc def r)) ->
  ∃ q', readRowLocked def pk q = (Ok r, q') ∧ sreads q q'.
Proof.
  intros Hr Hf Hst. unfold readRowLocked.
  destruct (led_Get_ok (rowKey (td_ID def) pk) q ot st Hr) as (q1 & E1 & R1). rewrite (bind_ok _ _ _ _ _ E1), Hst.
  exists q1. split; [|done]. unfold lift. f_equal. unfold row_of_entry. rewrite decide_False, drop_payload.
  - by apply row_fits_enc.
  - unfold row_payload. intros [Hl|[?|[? _]]]; [|done..]. cbn in Hl. rewrite length_app, length_be in Hl. lia.
Qed.

Lemma drop_scanKey id pk : drop 9 (scanKey id pk) = pk.
Proof. unfold scanKey. cbn [drop]. by rewrite drop_app_ge_len by apply length_be. Qed.

Lemma remove_entry_ok def rows st kv acc q ot :
  repr (q_led q) ot st -> def_wf def -> of_rows (s_ck (q_led q)) st def rows kv ->
  ∃ p ops q', remove_entry def acc kv q = (Ok (app_ops acc ops), q') ∧ sreads q q' ∧
    chunk_rows rows [kv] = [p] ∧ buildRowOps def p = Ok ops.
Proof.
  intros Hr Hw (pk & r & Ek & Hrow & Hfit & Hst). unfold remove_entry.
  rewrite (resolve_ok false kv) by (right; rewrite Ek; unfold scanKey; cbn; rewrite length_app, length_be; lia).
  unfold entry_pk. rewrite (bind_ok _ _ _ (drop 9 (kv_Key kv)) q) by done. rewrite Ek, drop_scanKey.
  destruct (readRowLocked_ok def pk r q ot st Hr Hfit Hst) as (q1 & E1 & R1). rewrite (bind_ok _ _ _ _ _ E1).
  pose proof (indexOps_total def r pk true Hw Hfit) as Hio. destruct (indexOps def r pk true) as [io|e|w] eqn:Eio; try done.
  rewrite (bind_ok _ _ _ io q1) by done.
  exists (Pending pk (Some r) None), ([Del (rowKey (td_ID def) pk)], bdel (scanKey (td_ID def) pk) :: io), q1. split_and!; [done..| |].
  - unfold chunk_rows. cbn [omap list_omap]. by rewrite Ek, drop_scanKey, Hrow.
  - unfold buildRowOps. cbn [p_new p_old p_pkEnc]. by rewrite Eio.
Qed.

Lemma remove_entries_ok def rows st kvs acc q ot :
  repr (q_led q) ot st -> def_wf def -> Forall (of_rows (s_ck (q_led q)) st def rows) kvs ->
  ∃ ops q', foldM (remove_entry def) acc kvs q = (Ok (app_ops acc ops), q') ∧ sreads q q' ∧
    rows_ops def (chunk_rows rows kvs) = Ok ops.
Proof.
  intros Hr Hw Hf. revert acc q Hr Hf. induction kvs as [|kv kvs IH]; intros acc q Hr Hf; cbn [foldM].
  { exists ([], []), q. rewrite app_ops_nil_r. done. }
  apply Forall_cons in Hf as [Hkv Hf].
  destruct (remove_entry_ok def rows st kv acc q ot Hr Hw Hkv) as (p & ops & q1 & E1 & R1 & Ep & Eo).
  assert (s_ck (q_led q1) = s_ck (q_led q)) as Eck by (destruct R1 as [R _]; apply (reads_fields _ _ R)).
  destruct (IH (app_ops acc ops) q1) as (ops' & q2 & E2 & R2 & Eops); [by eapply sreads_repr|by rewrite Eck|].
  exists (app_ops ops ops'), q2. rewrite (bind_ok _ _ _ _ _ E1), E2, app_ops_assoc. split_and!; [done|by etrans|].
  assert (chunk_rows rows (kv :: kvs) = p :: chunk_rows rows kvs) as ->.
  { unfold chunk_rows in *. cbn [omap list_omap] in *. destruct (rows !! _); [|done]. cbn in *. by injection Ep as ->. }
  cbn [rows_ops]. by rewrite Eo, Eops.
Qed.

Section one_chunk.
Variables (O : list bytes) (q : SqlStore B) (st : gmap Hash bytes) (T : database) (def : tableDef).
Hypothesis Hok : sql_ok O q st T.
Hypothesis Hcat : catalog q (td_ID def) = Some def.
Hypothesis Hwf : def_wf def.
Abbreviation rows := (trows T (td_ID def)).
Abbreviation kvs := (scan_spec (sql_contents q) (row_start def) (row_stop def) scanChunkSize).
Abbreviation ps := (chunk_rows rows kvs).
Abbreviation tabs := ({[td_ID def := chunk_table ps]} : gmap N tableTxn).

Lemma chunk_kvs kv : kv ∈ kvs -> ∃ pk r, rows !! pk = Some r ∧ kv = MkKV (scanKey (td_ID def) pk) [].
Proof.
  intros Hin. apply (elem_of_row_scan (sql_contents q) def rows kv); [by apply (so_derived _ _ _ _ Hok)|].
  rewrite limited_scan in Hin by done. rewrite <-(take_drop (N.to_nat scanChunkSize)). apply elem_of_app. by left.
Qed.

Lemma chunk_of_rows : Forall (of_rows (s_ck (q_led q)) st def rows) kvs.
Proof.
  apply Forall_forall. intros kv (pk & r & Hr & ->)%chunk_kvs. exists pk, r. split_and!; [done..| |].
  all: rewrite lookup_trows in Hr; destruct (so_rows _ _ _ _ Hok _ _ _ Hr) as (def' & Hc' & Hf & Hst).
  all: rewrite Hcat in Hc'; by injection Hc' as <-.
Qed.

Lemma chunk_ok :
  ∃ ops q1, chunk def q = (Ok (kvs, ops), q1) ∧ sreads q q1 ∧ rows_ops def ps = Ok ops.
Proof.
  destruct (so_repr _ _ _ _ Hok) as [ot Hr]. unfold chunk.
  destruct (db_scan_ok (row_start def) (row_stop def) scanChunkSize q) as (q1 & E1 & R1). rewrite (bind_ok _ _ _ _ _ E1).
  assert (s_ck (q_led q1) = s_ck (q_led q)) as Eck by (destruct R1 as [R _]; apply (reads_fields _ _ R)).
  destruct (remove_entries_ok def rows st kvs ([], []) q1 ot) as (ops & q2 & E2 & R2 & Eo);
    [by eapply sreads_repr|done|rewrite Eck; apply chunk_of_rows|].
  rewrite (bind_ok _ _ _ _ _ E2). exists ops, q2. split_and!; [by destruct ops|by etrans|done].
Qed.

Lemma elem_of_chunk p : p ∈ ps ↔ ∃ pk r, rows !! pk = Some r ∧ MkKV (scanKey (td_ID def) pk) [] ∈ kvs ∧ p = Pending pk (Some r) None.
Proof.
  unfold chunk_rows. rewrite list_elem_of_omap. split.
  - intros (kv & Hin & Hp). pose proof (chunk_kvs kv Hin) as (pk & r & Hr & ->). cbn [kv_Key] in Hp.
    rewrite drop_scanKey, Hr in Hp. injection Hp as <-. eauto.
  - intros (pk & r & Hr & Hin & ->). eexists. split; [exact Hin|]. cbn [kv_Key]. by rewrite drop_scanKey, Hr.
Qed.

Lemma chunk_pks : p_pkEnc <$> ps = drop 9 <$> (kv_Key <$> kvs).
Proof.
  pose proof chunk_kvs as Hk. induction kvs as [|kv l IH]; [done|]. unfold chunk_rows. cbn [omap list_omap fmap list_fmap].
  destruct (Hk kv ltac:(left)) as (pk & r & Hr & ->). cbn [kv_Key]. rewrite drop_scanKey, Hr. cbn [fmap option_fmap option_map].
  cbn [list_fmap p_pkEnc]. f_equal. apply IH. intros kv' Hin. apply Hk. by right.
Qed.

Lemma chunk_nodup : NoDup (p_pkEnc <$> ps).
Proof.
  rewrite chunk_pks. apply NoDup_fmap_2_strong.
  - intros k k' (x & -> & Hx)%list_elem_of_fmap (y & -> & Hy)%list_elem_of_fmap Ek.
    apply chunk_kvs in Hx as (pk & r & _ & ->), Hy as (pk' & r' & _ & ->). cbn [kv_Key] in *.
    rewrite !drop_scanKey in Ek. by subst.
  - pose proof (scan_sorted (sql_contents q) (row_start def) (row_stop def) scanChunkSize) as Hs.
    induction Hs as [|kv l Hs IH Hf]; cbn; constructor; [|done].
    intros (kv' & Ek & Hin)%list_elem_of_fmap. rewrite Forall_forall in Hf. specialize (Hf _ Hin). unfold kv_lt in Hf.
    rewrite Ek in Hf. by apply (irreflexivity bytes_lt) in Hf.
Qed.

Lemma chunk_lookup pk p : tt_rows (chunk_table ps) !! pk = Some p ↔ p ∈ ps ∧ p_pkEnc p = pk.
Proof.
  cbn [chunk_table tt_rows]. rewrite <-elem_of_list_to_map.
  - rewrite list_elem_of_fmap. split; [intros (x & [= -> ->] & Hx); done|]. intros [Hp <-]. eauto.
  - rewrite <-list_fmap_compose. apply chunk_nodup.
Qed.

Lemma chunk_keyed : buffer_keyed (chunk_table ps).
Proof. intros pk p [_ ?]%chunk_lookup. done. Qed.

Lemma chunk_perm : ps ≡ₚ (map_to_list (tt_rows (chunk_table ps))).*2.
Proof.
  cbn [chunk_table tt_rows]. rewrite map_to_list_to_map.
  - rewrite <-list_fmap_compose. cbn. by rewrite list_fmap_id.
  - rewrite <-list_fmap_compose. apply chunk_nodup.
Qed.

Lemma chunk_based : buffer_based (chunk_table ps) rows.
Proof. intros pk p [(pk' & r & Hr & _ & ->)%elem_of_chunk Hpk]%chunk_lookup _. cbn in *. by subst. Qed.

Lemma chunk_touched p : p ∈ ps -> touched p.
Proof. intros (pk & r & _ & _ & ->)%elem_of_chunk [? _]. done. Qed.

Lemma chunk_wf : txn_wf (catalog q) tabs.
Proof.
  split.
  - intros id tb [<- <-]%lookup_singleton_Some. apply chunk_keyed.
  - intros id tb def' pk p r [<- <-]%lookup_singleton_Some Hc [(pk' & r' & Hr & Hin & ->)%elem_of_chunk Hpk]%chunk_lookup Ho.
    cbn in Ho. destruct Ho as [[= <-]|?]; [|done]. rewrite lookup_trows in Hr.
    destruct (so_rows _ _ _ _ Hok _ _ _ Hr) as (def2 & Hc2 & Hf & _). rewrite Hc in Hc2. by injection Hc2 as <-.
Qed.

Lemma chunk_plan lo so : rows_ops def ps = Ok (lo, so) -> commit_plan (catalog q) tabs lo.
Proof.
  intros Ho. pose proof (rows_ops_led _ _ _ _ Ho) as Hl. split.
  - intros op (p & Hp & Ht & ->)%Hl. exists (td_ID def), def, (chunk_table ps). rewrite lookup_singleton_eq. split_and!; [done..|].
    left. exists p. split_and!; [|done..]. rewrite pending_list_perm. by rewrite <-chunk_perm.
  - intros id tb def' p Hc [<- <-]%lookup_singleton_Some. rewrite Hcat in Hc. injection Hc as <-.
    rewrite pending_list_perm, <-chunk_perm. intros Hp Ht. apply Hl. eauto.
  - intros id [tb [<- _]%lookup_singleton_Some]. eauto.
Qed.

Lemma chunk_known : ∀ k, k ∈ txn_keys tabs -> k ∈ row_keys T.
Proof.
  intros k (id & tb & pk & p & [<- <-]%lookup_singleton_Some & [(pk' & r & Hr & _ & ->)%elem_of_chunk Hpk]%chunk_lookup & ->)%elem_of_txn_keys.
  cbn in Hpk. subst pk'. apply elem_of_row_keys. rewrite lookup_trows in Hr. eauto.
Qed.

(** What the chunk leaves. *)
Lemma chunk_left pk : apply_buffer (chunk_table ps) rows !! pk = if decide (MkKV (scanKey (td_ID def) pk) [] ∈ kvs) then None else rows !! pk.
Proof.
  rewrite lookup_apply_buffer. destruct (tt_rows (chunk_table ps) !! pk) as [p|] eqn:Ep.
  - apply chunk_lookup in Ep as [Hp Hpk]. rewrite decide_True by by apply chunk_touched.
    apply elem_of_chunk in Hp as (pk' & r & Hr & Hin & ->). cbn in *. subst pk'. by rewrite decide_True.
  - case_decide as Hin; [|done]. destruct (chunk_kvs _ Hin) as (pk' & r & Hr & [= Hpk]). subst pk'.
    assert (tt_rows (chunk_table ps) !! pk = Some (Pending pk (Some r) None)) as Hx; [|congruence].
    apply chunk_lookup. split; [|done]. apply elem_of_chunk. eauto.
Qed.

Lemma chunk_size : size (apply_buffer (chunk_table ps) rows) + length kvs = size rows.
Proof.
  set (dm := (λ p, default [] (p_old p)) <$> tt_rows (chunk_table ps)).
  assert (size dm = length kvs) as <-.
  { unfold dm. rewrite map_size_fmap. rewrite <-(length_map_to_list (tt_rows (chunk_table ps))).
    rewrite <-(length_fmap snd). change (snd <$> ?l) with (l.*2). rewrite <-chunk_perm.
    rewrite <-(length_fmap p_pkEnc), chunk_pks. by rewrite !length_fmap. }
  rewrite <-map_size_disj_union.
  - f_equal. apply map_eq. intros pk. rewrite lookup_union, chunk_left. unfold dm. rewrite lookup_fmap.
    destruct (tt_rows (chunk_table ps) !! pk) as [p|] eqn:Ep; cbn.
    + apply chunk_lookup in Ep as [(pk' & r & Hr & Hin & ->)%elem_of_chunk Hpk]. cbn in *. subst pk'.
      by rewrite decide_True, Hr.
    + assert (∀ o : option row, o ∪ None = o) as -> by (by intros []). case_decide as Hin; [|done]. destruct (chunk_kvs _ Hin) as (pk' & r & Hr & [= Hpk]). subst pk'.
      assert (tt_rows (chunk_table ps) !! pk = Some (Pending pk (Some r) None)) as Hx; [|congruence].
      apply chunk_lookup. split; [|done]. apply elem_of_chunk. eauto.
  - apply map_disjoint_spec. intros pk r r' Hl Hd. rewrite chunk_left in Hl. unfold dm in Hd. rewrite lookup_fmap in Hd.
    destruct (tt_rows (chunk_table ps) !! pk) as [p|] eqn:Ep; [|done].
    apply chunk_lookup in Ep as [(pk' & r2 & Hr & Hin & ->)%elem_of_chunk Hpk]. cbn in *. subst pk'. by rewrite decide_True in Hl.
Qed.

(** A batch of deletions of one table's rows leaves the other tables' keyspaces. *)
Lemma chunk_derived lo so :
  rows_ops def ps = Ok (lo, so) ->
  ∀ id def', catalog q id = Some def' -> derived_ok (apply_batch so (sql_contents q)) def' (trows (apply_txn tabs T) id).
Proof.
  intros Ho id def' Hc. rewrite trows_apply. pose proof (so_derived _ _ _ _ Hok _ _ Hc) as Hd. pose proof (rows_ops_scan _ _ _ _ Ho) as Hso.
  destruct (decide (id = td_ID def)) as [->|Hne].
  - rewrite lookup_singleton_eq. rewrite Hcat in Hc. injection Hc as <-.
    destruct (co_u64 _ (so_cat _ _ _ _ Hok) _ _ Hcat) as [_ Hids].
    by eapply derived_step; [|apply chunk_keyed|apply chunk_based|apply chunk_perm|..].
  - rewrite lookup_singleton_ne by done. eapply derived_ext; [|exact Hd]. intros idx k Hi Hk.
    by eapply (other_table q id def' (td_ID def) def); [apply Hok|..].
Qed.

Lemma chunk_commit lo so q1 :
  other_keys O (catalog q) -> keys_apart (s_ck (q_led q)) (O ++ row_keys T) -> batch_pre (q_led q) st lo ->
  rows_ops def ps = Ok (lo, so) -> sreads q q1 ->
  ∃ q2, sqlCommit lo so q1 = (Ok tt, q2) ∧ sql_committed q q2 st lo so ∧
    sql_ok O q2 (after_state (q_led q) st lo) (apply_txn tabs T).
Proof.
  intros HO Hap Hb Ho R1. destruct (so_repr _ _ _ _ Hok) as [ot Hr].
  destruct (sqlCommit_ok q1 ot st lo so) as (q2 & E2 & Hc); [by eapply sreads_repr|by apply (batch_reads _ _ st lo (proj1 R1))|by eapply rows_ops_derived|].
  apply (sql_committed_reads _ _ _ _ _ _ R1) in Hc. exists q2. split_and!; [done..|].
  eapply plan_sql_ok; [done|done|apply chunk_wf| |by eapply chunk_plan|done|by eapply chunk_derived].
  eapply keys_apart_sub; [|exact Hap]. intros k. rewrite !elem_of_app. intros [?|[?|?%chunk_known]]; auto.
Qed.

Lemma short_chunk_left : length kvs < N.to_nat scanChunkSize -> apply_buffer (chunk_table ps) rows = ∅.
Proof.
  intros Hl. pose proof (scan_chunk (sql_contents q) (row_start def) (row_stop def) _ eq_refl) as Hc. rewrite decide_True in Hc by done.
  apply map_empty. intros pk. rewrite chunk_left. case_decide as Hin; [done|]. destruct (rows !! pk) as [r|] eqn:Hr; [|done].
  exfalso. apply Hin. rewrite <-Hc. apply (elem_of_row_scan _ def rows); [by apply (so_derived _ _ _ _ Hok)|]. eauto.
Qed.

Lemma chunk_bound n :
  kvs ≠ [] -> size rows ≤ N.to_nat scanChunkSize * n ->
  ∃ n', n = S n' ∧ size (apply_buffer (chunk_table ps) rows) ≤ N.to_nat scanChunkSize * n'.
Proof.
  intros Hne Hs. pose proof chunk_size as Hsz. assert (0 < length kvs) as Hl by (destruct kvs; [done|cbn; lia]).
  destruct n as [|n']; [lia|]. exists n'. split; [done|].
  destruct (decide (length kvs < N.to_nat scanChunkSize)) as [Hlt|Hge]; [rewrite (short_chunk_left Hlt), map_size_empty; lia|lia].
Qed.

Lemma chunk_rows_left id pk r : trow (apply_txn tabs T) id pk = Some r -> trow T id pk = Some r.
Proof.
  rewrite <-!lookup_trows, trows_apply. destruct (decide (id = td_ID def)) as [->|Hne].
  - rewrite lookup_singleton_eq, chunk_left. by case_decide.
  - by rewrite lookup_singleton_ne.
Qed.

Lemma chunk_keys_left k : k ∈ row_keys (apply_txn tabs T) -> k ∈ row_keys T.
Proof. intros (id & pk & r & Hr%chunk_rows_left & ->)%elem_of_row_keys. apply elem_of_row_keys. eauto. Qed.

(** Entries that are not rows stay. *)
Lemma chunk_others lo so k :
  other_keys O (catalog q) -> keys_apart (s_ck (q_led q)) (O ++ row_keys T) -> rows_ops def ps = Ok (lo, so) ->
  k ∈ O -> k ≠ HistoryKey -> after_state (q_led q) st lo !! pathOf (s_ck (q_led q)) k = st !! pathOf (s_ck (q_led q)) k.
Proof.
  intros HO Hap Ho Hk Hne. rewrite after_lookup.
  - rewrite batch_map_notin; [done|]. intros op (p & Hp & _ & ->)%(rows_ops_led _ _ _ _ Ho) Heq.
    apply elem_of_chunk in Hp as (pk & r & Hr & _ & ->). cbn in Heq. rewrite lookup_trows in Hr.
    apply (ok_rows _ _ HO k Hk). exists (td_ID def), pk. symmetry. apply Hap; [|apply elem_of_app; by left|done].
    rewrite elem_of_app, elem_of_row_keys. right. by exists (td_ID def), pk, r.
  - left. intros Heq. apply Hne. apply Hap; [apply elem_of_app; by left|apply elem_of_app; left; apply HO|done].
Qed.
End one_chunk.

(** The derived operations of deletions are deletions. *)
Lemma row_deletes def p lo so : p_new p = None -> buildRowOps def p = Ok (lo, so) -> Forall (λ op, bo_Delete op = true) so.
Proof.
  intros Hn. unfold buildRowOps. rewrite Hn. destruct (p_old p) as [old|]; [|intros [= <- <-]; constructor].
  destruct (indexOps def old (p_pkEnc p) true) as [io|e|w] eqn:Ei; cbn; try done. intros [= <- <-]. constructor; [done|].
  apply index_ops_spec in Ei as [_ Ei]. apply Forall_forall. intros op (ix & k & _ & _ & ->)%Ei. done.
Qed.

Lemma rows_deletes def ps lo so :
  Forall (λ p, p_new p = None) ps -> rows_ops def ps = Ok (lo, so) -> Forall (λ op, bo_Delete op = true) so.
Proof.
  intros Hps. revert lo so. induction Hps as [|p ps Hp Hps IH]; intros lo so; cbn [rows_ops]; [intros [= <- <-]; constructor|].
  destruct (buildRowOps def p) as [[l1 s1]|e|w] eqn:E1; cbn; try done.
  destruct (rows_ops def ps) as [[l2 s2]|e|w] eqn:E2; cbn; try done. intros [= <- <-].
  apply Forall_app. split; [by eapply row_deletes|by eapply IH].
Qed.

Lemma deletes_none (ops : list BatchOp) (D : gmap bytes bytes) (k : bytes) :
  Forall (λ op, bo_Delete op = true) ops -> D !! k = None -> apply_batch ops D !! k = None.
Proof.
  intros Ho. revert D. induction Ho as [|op ops Hop Ho IH]; intros D Hk; [done|]. cbn. apply IH. unfold apply_op. rewrite Hop.
  by apply lookup_delete_None; right.
Qed.

(** ** The loop *)

(** The ledger accepts every batch of the removal. *)
Fixpoint removal_pre (rounds : nat) (def : tableDef) q (st : gmap Hash bytes) : Prop :=
  match rounds with
  | 0 => True
  | S rounds' => ∀ kvs lo so q1, chunk def q = (Ok (kvs, (lo, so)), q1) -> kvs ≠ [] ->
      batch_pre (q_led q) st lo ∧
      ∀ q2, sqlCommit lo so q1 = (Ok tt, q2) -> removal_pre rounds' def q2 (after_state (q_led q) st lo)
  end.

(** The tables without the rows of one of them. *)
Definition emptied (id : N) (T : database) : database := <[id := ∅]> T.

Lemma trows_emptied id T id' : trows (emptied id T) id' = if decide (id' = id) then ∅ else trows T id'.
Proof.
  unfold emptied, trows. case_decide as Hid; [subst; by rewrite lookup_insert_eq|by rewrite lookup_insert_ne].
Qed.

Lemma remove_rows_step rounds def count q kvs lo so q1 :
  chunk def q = (Ok (kvs, (lo, so)), q1) ->
  remove_rows (S rounds) def count q =
  match kvs with [] => (Ok count, q1) | _ => (sqlCommit lo so;; remove_rows rounds def (count + length kvs)) q1 end.
Proof.
  unfold chunk. intros Ec. apply bind_inv_ok in Ec as (kvs' & q0 & E0 & Ec). apply bind_inv_ok in Ec as (ops & q2 & E2 & Ec).
  injection Ec as -> -> ->. cbn [remove_rows]. rewrite (bind_ok _ _ _ _ _ E0). destruct kvs as [|kv kvs]; [by injection E2 as _ _ <-|].
  by rewrite (bind_ok _ _ _ _ _ E2).
Qed.

(** Entries that are not rows are the same. *)
Definition same_others (O : list bytes) (ck : bytes) (st st' : gmap Hash bytes) : Prop :=
  ∀ k, k ∈ O -> k ≠ HistoryKey -> st' !! pathOf ck k = st !! pathOf ck k.

Lemma emptied_apply (T : database) id tb rows' :
  rows' = apply_buffer tb (trows T id) -> ∀ id', trows (emptied id (apply_txn {[id := tb]} T)) id' = trows (emptied id T) id'.
Proof.
  intros -> id'. rewrite !trows_emptied. case_decide; [done|]. by rewrite trows_apply, lookup_singleton_ne.
Qed.

Lemma sql_ok_rows O q st T T' : (∀ id, trows T' id = trows T id) -> sql_ok O q st T -> sql_ok O q st T'.
Proof. intros He. apply sql_ok_ext. intros id pk. by rewrite <-!lookup_trows, He. Qed.

Lemma remove_rows_ok rounds n def O q st T count :
  sql_ok O q st T -> catalog q (td_ID def) = Some def -> def_wf def -> other_keys O (catalog q) ->
  keys_apart (s_ck (q_led q)) (O ++ row_keys T) -> removal_pre rounds def q st ->
  size (trows T (td_ID def)) ≤ N.to_nat scanChunkSize * n -> n < rounds ->
  ∃ q' st', remove_rows rounds def count q = (Ok (count + size (trows T (td_ID def))), q') ∧
    sql_ok O q' st' (emptied (td_ID def) T) ∧ q' = set_led (q_led q') q ∧ s_ck (q_led q') = s_ck (q_led q) ∧
    same_others O (s_ck (q_led q)) st st' ∧
    ∀ k, derived k -> k ≠ [scanMetaKey] -> sql_contents q !! k = None -> sql_contents q' !! k = None.
Proof.
  revert n q st T count. induction rounds as [|rounds IH]; intros n q st T count Hok Hcat Hwf HO Hap Hpre Hsz Hn; [lia|].
  destruct (chunk_ok O q st T def Hok Hcat Hwf) as ([lo so] & q1 & E1 & R1 & Eo).
  rewrite (remove_rows_step _ _ _ _ _ _ _ _ E1). pose proof (chunk_size O q st T def Hok Hcat) as Hsize.
  cbn [removal_pre] in Hpre. specialize (Hpre _ _ _ _ E1).
  destruct (scan_spec (sql_contents q) (row_start def) (row_stop def) scanChunkSize) as [|kv kvs] eqn:Ek.
  - assert (trows T (td_ID def) = ∅) as Hz.
    { pose proof (scan_chunk (sql_contents q) (row_start def) (row_stop def) _ eq_refl) as Hc. rewrite Ek in Hc.
      rewrite decide_True in Hc by (vm_compute; lia). apply map_empty. intros pk. destruct (_ !! pk) as [r|] eqn:Hr; [|done].
      assert (MkKV (scanKey (td_ID def) pk) [] ∈ []) as []%not_elem_of_nil. rewrite <-Hc.
      apply (elem_of_row_scan _ def (trows T (td_ID def))); [by apply (so_derived _ _ _ _ Hok)|]. eauto. }
    exists q1, st. rewrite Hz, map_size_empty, Nat.add_0_r. split_and!; [done| |apply R1|apply (reads_fields _ _ (proj1 R1))|done|by rewrite (sreads_contents _ _ R1)].
    eapply sql_ok_rows, sql_ok_reads, Hok; [|done]. intros id'. rewrite trows_emptied. case_decide; [|done]. by subst.
  - rewrite <-Ek in *. assert (scan_spec (sql_contents q) (row_start def) (row_stop def) scanChunkSize ≠ []) as Hne by (by rewrite Ek).
    destruct (Hpre Hne) as [Hb Hnext].
    destruct (chunk_commit O q st T def Hok Hcat lo so q1 HO Hap Hb Eo R1) as (q2 & E2 & Hc & Hok2).
    rewrite (bind_ok _ _ _ _ _ E2). specialize (Hnext q2 E2).
    assert (∀ id, catalog q2 id = catalog q id) as Hcat2 by (intros id; by rewrite (sc_same _ _ _ _ _ Hc)).
    destruct (chunk_bound O q st T def Hok Hcat n Hne Hsz) as (n' & -> & Hsz').
    set (T2 := apply_txn _ T) in *.
    assert (trows T2 (td_ID def) = apply_buffer (chunk_table (chunk_rows (trows T (td_ID def))
      (scan_spec (sql_contents q) (row_start def) (row_stop def) scanChunkSize))) (trows T (td_ID def))) as HT2.
    { unfold T2. by rewrite trows_apply, lookup_singleton_eq. }
    destruct (IH n' q2 (after_state (q_led q) st lo) T2 (count + length (scan_spec (sql_contents q) (row_start def) (row_stop def) scanChunkSize)))
      as (q' & st' & E' & Hok' & Hq' & Hck' & Hoth & Hnone); try done.
    + by rewrite Hcat2.
    + destruct HO as [O1 O2 O3]. split; [done..|]. intros id def'. rewrite Hcat2. apply O3.
    + rewrite (sc_ck _ _ _ _ _ Hc). eapply keys_apart_sub; [|exact Hap]. intros k. rewrite !elem_of_app.
      intros [?|?%(chunk_keys_left O q st T def Hok Hcat)]; auto.
    + by rewrite HT2.
    + lia.
    + exists q', st'. rewrite (sc_ck _ _ _ _ _ Hc) in *. split_and!.
      * rewrite Ek in E' |- *. rewrite E'. do 2 f_equal. rewrite HT2. rewrite Ek in Hsize. rewrite Ek. lia.
      * eapply sql_ok_rows, Hok'. intros id. symmetry. by eapply emptied_apply.
      * rewrite Hq'. rewrite (sc_same _ _ _ _ _ Hc). done.
      * congruence.
      * intros k Hk Hkh. rewrite (Hoth k Hk Hkh). by eapply chunk_others.
      * intros k Hd Hk Hn0. apply Hnone; [done..|]. rewrite (sc_derived _ _ _ _ _ Hc k Hd), apply_batch_app.
        rewrite apply_batch_notin by (intros op ->%list_elem_of_singleton; cbn; congruence). apply deletes_none; [|done].
        eapply rows_deletes; [|exact Eo]. apply Forall_forall. intros p0 (pk & r & _ & _ & ->)%(elem_of_chunk O q st T def Hok Hcat). done.
Qed.
End remove.
