(* ===== verification/SqlDdl.v ===== *)
(** The catalog's DDL: [sqlledger/database.go], and the DDL entry points of
    [sqlledger/index.go].

    Every operation writes the catalog through one ledger commit and assigns the
    definitions in memory only after the commit succeeded.  A column as the engine
    describes it is an [engineColumn]: what the code asks of the engine's column and
    type objects.  Dropping a table first removes its rows, one commit per chunk;
    [rounds] bounds the chunks of the loops over a keyspace. *)

From S2P Require Import Prelude Errors Sha256 Hashing Node Aead Backend Cache Store GoNum SqlCodec SqlIndex SqlTxn SqlStore Json SqlCatalog SqlScan SqlTable SqlSession.

(** The length limits of a string type and the precision of a datetime type. *)
Record engineColumn := MkEngineCol {
  ec_Name : string;
  ec_Type : qtype;
  ec_String : option (Z * Z);
  ec_Datetime : option Z;
  ec_Nullable : bool;
  ec_AutoIncrement : bool
}.

Definition colDefOf (col : engineColumn) : outcome colDef :=
  kind ← wrap_err "column %q" (kindOfQType (ec_Type col));
  let len := match ec_String col with
             | Some (chars, byts) => if decide (kind = kindBytes) then byts else chars
             | None => 0%Z
             end in
  Ok (MkCol (ec_Name col) (ec_Type col) len (default 0%Z (ec_Datetime col)) (ec_Nullable col) (ec_AutoIncrement col)).

(** A column of an index, with its prefix length. *)
Record indexColumn := MkIndexCol { ic_Name : string; ic_Length : Z }.

Definition ErrTableAlreadyExists : error := RawError "table with name %s already exists".
Definition ErrTableNotFound : error := RawError "table not found: %s".

Definition set_Name (n : string) (d : tableDef) : tableDef :=
  MkTable (td_ID d) n (td_Columns d) (td_PKOrds d) (td_Comment d) (td_Indexes d) (td_autoIncNext d).
Definition set_Indexes (l : list indexDef) (d : tableDef) : tableDef :=
  MkTable (td_ID d) (td_Name d) (td_Columns d) (td_PKOrds d) (td_Comment d) l (td_autoIncNext d).
Definition set_IndexName (n : string) (ix : indexDef) : indexDef := MkIndex (ix_ID ix) n (ix_Unique ix) (ix_ColOrds ix).

(** Go strings compare byte by byte. *)
Definition string_le (a b : string) : Prop := bytes_le (str a) (str b).
#[export] Instance string_le_dec : RelDecision string_le.
Proof. intros a b. unfold string_le. apply _. Defined.

Section ddl.
Context `{H : Hasher} `{G : GCM} `{E : Entropy} `{MR : MapRange} `{CF : CaseFold} `{QT : QueryTypes} {B : Type} `{BK : Backend B}.
Abbreviation MQ := (M (SqlStore B)).

Definition catalogOps (meta : catalogMeta) (defs : list tableDef) : list Op :=
  Put metaKey (marshalTagged tagCatalogMeta (enc_meta meta)) ::
  ((λ def, Put (tableKey (td_Name def)) (marshalTagged tagCatalogTable (enc_table def))) <$> defs).

(** ** Tables *)

Definition GetTableInsensitive (name : string) : MQ (option defptr) := gets (λ q, q_tables q !! ToLower name).

Definition GetTableNames : MQ (list string) := gets (λ q,
  merge_sort string_le (td_Name <$> omap (λ np, q_defs q !! np.2) (range_map (q_tables q)))).

Definition createTable (name : string) (schema : list engineColumn) (pkOrdinals : list nat) (comment : string) : MQ unit :=
  let lower := ToLower name in
  old ← gets (λ q, q_tables q !! lower);
  if decide (is_Some old) then fail ErrTableAlreadyExists
  else if decide (length pkOrdinals = 0) then fail (RawError "table %s: a primary key is required")
  else
    meta ← gets q_meta;
    cols ← lift (wrap_err "table %s" (mapO colDefOf schema));
    let def := MkTable (ca_NextTableID meta) name cols pkOrdinals comment [] 0 in
    let def := if hasAutoInc def then set_autoInc 1 def else def in
    let newMeta := MkMeta (wrap64 (ca_NextTableID meta + 1)) (ca_NextIndexID meta) (ca_Tables meta ++ [name]) in
    sqlCommit (catalogOps newMeta [def]) [];;
    modify (set_meta newMeta);;
    add_table lower def.

Definition dropTable (rounds : nat) (name : string) : MQ unit :=
  let lower := ToLower name in
  p ← gets (λ q, q_tables q !! lower);
  match p with
  | None => fail ErrTableNotFound
  | Some p =>
      def ← deref p;
      remove_rows rounds def 0;;
      meta ← gets q_meta;
      let newMeta := MkMeta (ca_NextTableID meta) (ca_NextIndexID meta) (filter (λ n, EqualFold n name = false) (ca_Tables meta)) in
      sqlCommit [Put metaKey (marshalTagged tagCatalogMeta (enc_meta newMeta)); Del (tableKey (td_Name def)); Del (autoIncKey (td_ID def))] [];;
      modify (set_meta newMeta);;
      modify (λ q, set_qtables (delete lower (q_tables q)) q)
  end.

Definition renameTable (oldName newName : string) : MQ unit :=
  let oldLower := ToLower oldName in
  p ← gets (λ q, q_tables q !! oldLower);
  match p with
  | None => fail ErrTableNotFound
  | Some p =>
      taken ← gets (λ q, q_tables q !! ToLower newName);
      if decide (is_Some taken) then fail ErrTableAlreadyExists
      else
        def ← deref p;
        meta ← gets q_meta;
        let renamed := set_Name newName def in
        let newMeta := MkMeta (ca_NextTableID meta) (ca_NextIndexID meta)
                         ((λ n, if EqualFold n oldName then newName else n) <$> ca_Tables meta) in
        sqlCommit (catalogOps newMeta [renamed] ++ [Del (tableKey oldName)]) [];;
        modify (set_meta newMeta);;
        modify (λ q, set_qtables (delete oldLower (q_tables q)) q);;
        store_def p renamed;;
        modify (λ q, set_qtables (<[ToLower newName := p]> (q_tables q)) q)
  end.

(** ** Indexes *)

Definition index_named (name : string) (def : tableDef) : option nat :=
  fst <$> list_find (λ ix, EqualFold (ix_Name ix) name = true) (td_Indexes def).

(** Columns by lower-case name; of equal names the last counts. *)
Definition colByName (def : tableDef) : gmap string nat :=
  foldl (λ m ic, <[ToLower (cd_Name ic.2) := ic.1]> m) ∅ (imap pair (td_Columns def)).

Definition index_ordinal (cols : gmap string nat) (ic : indexColumn) : outcome nat :=
  match cols !! ToLower (ic_Name ic) with
  | None => Err (RawError "index %s: unknown column %q")
  | Some ord => if decide (0 < ic_Length ic)%Z then Err (RawError "index %s: prefix lengths are not supported") else Ok ord
  end.

(** The entry of one row, and the values seen so far when the index is unique. *)
Definition index_entry (def : tableDef) (idx : indexDef) (acc : list BatchOp * gmap bytes bytes) (kv : KV) :
    MQ (list BatchOp * gmap bytes bytes) :=
  pkEnc ← lift (resolve_entry false kv);
  r ← readRowLocked def pkEnc;
  '(colsEnc, hasNull) ← lift (encodeIndexCols def idx r);
  seen ← (if ix_Unique idx && negb hasNull then
            match acc.2 !! colsEnc with
            | Some prev => if decide (prev = pkEnc) then mret (<[colsEnc := pkEnc]> acc.2) else fail UniqueKeyErr
            | None => mret (<[colsEnc := pkEnc]> acc.2)
            end
          else mret acc.2);
  mret (acc.1 ++ [bput (secondarySpace (ix_ID idx) ++ colsEnc ++ pkEnc) pkEnc], seen).

Fixpoint build_index (rounds : nat) (def : tableDef) (idx : indexDef) (next stop : bytes)
    (acc : list BatchOp * gmap bytes bytes) : MQ (list BatchOp) :=
  match rounds with
  | O => panic "create index: round bound"
  | S rounds' =>
      kvs ← db (b_scan next stop scanChunkSize);
      match last kvs with
      | None => mret acc.1
      | Some l =>
          acc ← foldM (index_entry def idx) acc kvs;
          if decide (length kvs < N.to_nat scanChunkSize) then mret acc.1
          else build_index rounds' def idx (after_key (kv_Key l)) stop acc
      end
  end.

Definition createIndex (rounds : nat) (p : defptr) (name : string) (unique : bool) (columns : list indexColumn) : MQ unit :=
  def ← deref p;
  if decide (is_Some (index_named name def)) then fail (RawError "index %s already exists on table %s")
  else
    meta ← gets q_meta;
    ords ← lift (mapO (index_ordinal (colByName def)) columns);
    let idx := MkIndex (ca_NextIndexID meta) name unique ords in
    let start := scanKey (td_ID def) [] in
    entries ← build_index rounds def idx start (default [] (incBytes start)) ([], ∅);
    let updated := set_Indexes (td_Indexes def ++ [idx]) def in
    let newMeta := MkMeta (ca_NextTableID meta) (wrap64 (ca_NextIndexID meta + 1)) (ca_Tables meta) in
    sqlCommit (catalogOps newMeta [updated]) entries;;
    modify (set_meta newMeta);;
    store_def p updated.

Fixpoint index_keys (rounds : nat) (next stop : bytes) (ops : list BatchOp) : MQ (list BatchOp) :=
  match rounds with
  | O => panic "drop index: round bound"
  | S rounds' =>
      kvs ← db (b_scan next stop scanChunkSize);
      let ops := ops ++ ((λ kv, bdel (kv_Key kv)) <$> kvs) in
      if decide (length kvs < N.to_nat scanChunkSize) then mret ops
      else
        match last kvs with
        | None => panic "index out of range"
        | Some l => index_keys rounds' (after_key (kv_Key l)) stop ops
        end
  end.

Definition dropIndex (rounds : nat) (p : defptr) (name : string) : MQ unit :=
  def ← deref p;
  match index_named name def with
  | None => fail (RawError "index %s does not exist on table %s")
  | Some pos =>
      meta ← gets q_meta;
      let idxID := match td_Indexes def !! pos with Some ix => ix_ID ix | None => 0%N end in
      let updated := set_Indexes (take pos (td_Indexes def) ++ drop (S pos) (td_Indexes def)) def in
      let start := secondarySpace idxID in
      scanOps ← index_keys rounds start (default [] (incBytes start)) [];
      sqlCommit (catalogOps meta [updated]) scanOps;;
      store_def p updated
  end.

Definition renameIndex (p : defptr) (from to : string) : MQ unit :=
  def ← deref p;
  match index_named from def with
  | None => fail (RawError "index %s does not exist on table %s")
  | Some pos =>
      meta ← gets q_meta;
      let updated := set_Indexes (alter (set_IndexName to) pos (td_Indexes def)) def in
      sqlCommit (catalogOps meta [updated]) [];;
      store_def p updated
  end.

(** ** Entry points *)

(** The index name of an index declared without one. *)
Definition join_names (cols : list indexColumn) : string := String.concat "_" (ic_Name <$> cols).

Definition CreateIndex (rounds : nat) (p : defptr) (btree : bool) (name : string) (unique : bool) (columns : list indexColumn) : MQ unit :=
  if negb btree then fail (RawError "only BTREE indexes are supported")
  else createIndex rounds p (if decide (name = "") then join_names columns else name) unique columns.

Definition CreateTable (supported_collation : bool) (name : string) (schema : list engineColumn) (pkOrdinals : list nat)
    (comment : string) : MQ unit :=
  if negb supported_collation then fail (RawError "only the default (binary-comparable) collation is supported")
  else createTable name schema pkOrdinals comment.

Definition DropIndex (rounds : nat) (p : defptr) (name : string) : MQ unit := dropIndex rounds p name.
Definition RenameIndex (p : defptr) (from to : string) : MQ unit := renameIndex p from to.
Definition RenameTable (oldName newName : string) : MQ unit := renameTable oldName newName.

(** [DROP TABLE] discards the session's rows of the table. *)
Definition DropTable (rounds : nat) (name : string) : M (Session B) unit :=
  txn ← gets se_txn;
  (match txn with
   | None => mret tt
   | Some t =>
       p ← with_store (GetTableInsensitive name);
       match p with
       | None => mret tt
       | Some p => def ← with_store (deref p); put_txn (Some (set_tables (delete (td_ID def) (tx_tables t)) t))
       end
   end);;
  with_store (dropTable rounds name).
End ddl.
