(* ===== verification/SqlSchema.v ===== *)
(** What the SQL layer shows the engine: column types and schemas
    ([sqlledger/codec.go], [sqlledger/table.go]), index descriptions
    ([sqlledger/index.go]) and the databases of a store ([sqlledger/engine.go]).

    The engine's type objects are third-party: [EngineTypes] is what the code builds them
    with and asks of them.  The constant answers of the interfaces are not repeated. *)

From S2P Require Import Prelude Errors Sha256 Hashing Node Aead Backend Cache Store GoNum SqlCodec SqlIndex SqlTxn SqlStore Json SqlCatalog SqlScan SqlTable SqlSession SqlDdl.

Class EngineTypes (Ty : Type) := {
  ty_basic : qtype -> Ty;    (* types.Int8 to types.Float64 *)
  CreateStringWithDefaults : qtype -> Z -> outcome Ty;
  CreateBinary : qtype -> Z -> outcome Ty;
  CreateDatetimeType : qtype -> Z -> outcome Ty;
  ty_Type : Ty -> qtype;
  ty_StringType : Ty -> option (Z * Z);
  ty_DatetimeType : Ty -> option Z
}.

(** A column of an engine schema. *)
Record schemaColumn (Ty : Type) := MkSchemaCol {
  sc_Name : string;
  sc_Type : Ty;
  sc_Nullable : bool;
  sc_AutoIncrement : bool;
  sc_Source : string;
  sc_PrimaryKey : bool
}.
Arguments MkSchemaCol {Ty}. Arguments sc_Name {Ty}. Arguments sc_Type {Ty}. Arguments sc_Nullable {Ty}.
Arguments sc_AutoIncrement {Ty}. Arguments sc_Source {Ty}. Arguments sc_PrimaryKey {Ty}.

Section schema.
Context {Ty : Type} `{ET : EngineTypes Ty}.

Definition sqlType (c : colDef) : outcome Ty :=
  let qt := cd_QType c in
  match qt with
  | T_INT8 | T_INT16 | T_INT24 | T_INT32 | T_INT64 | T_UINT8 | T_UINT16 | T_UINT24 | T_UINT32 | T_UINT64
  | T_FLOAT32 | T_FLOAT64 => Ok (ty_basic qt)
  | T_CHAR | T_VARCHAR | T_TEXT => CreateStringWithDefaults qt (cd_Length c)
  | T_BINARY | T_VARBINARY | T_BLOB => CreateBinary qt (cd_Length c)
  | T_DATETIME | T_TIMESTAMP => CreateDatetimeType qt (cd_Precision c)
  | T_OTHER _ => Err (RawError "column type %v is not supported")
  end.

(** A column whose type cannot be built panics. *)
Definition schema_column (def : tableDef) (ic : nat * colDef) : outcome (schemaColumn Ty) :=
  let '(i, c) := ic in
  match sqlType c with
  | Ok typ =>
      let pk := bool_decide (i ∈ td_PKOrds def) in
      Ok (MkSchemaCol (cd_Name c) typ (cd_Nullable c && negb pk) (cd_AutoInc c) (td_Name def) pk)
  | Err _ => Panic "table %s: %v"
  | Panic w => Panic w
  end.

Definition PrimaryKeySchema (def : tableDef) : outcome (list (schemaColumn Ty) * list nat) :=
  schema ← mapO (schema_column def) (imap pair (td_Columns def));
  Ok (schema, td_PKOrds def).

Definition Schema (def : tableDef) : outcome (list (schemaColumn Ty)) := '(s, _) ← PrimaryKeySchema def; Ok s.

(** ** Index descriptions *)

Definition index_ID (idx : option indexDef) : string := match idx with None => "PRIMARY" | Some ix => ix_Name ix end.
Definition IsUnique (idx : option indexDef) : bool := match idx with None => true | Some ix => ix_Unique ix end.

Definition column_expression (def : tableDef) (ord : nat) : outcome string :=
  match td_Columns def !! ord with
  | None => out_of_range
  | Some c => Ok (td_Name def ++ "." ++ cd_Name c)%string
  end.
Definition Expressions (def : tableDef) (idx : option indexDef) : outcome (list string) :=
  mapO (column_expression def) (index_ords def idx).

(** The type of a column that cannot be built is nil. *)
Definition ColumnExpressionTypes (def : tableDef) (idx : option indexDef) : outcome (list (string * option Ty)) :=
  mapO (λ ord, match td_Columns def !! ord with
               | None => out_of_range
               | Some c =>
                   typ ← match sqlType c with Ok t => Ok (Some t) | Err _ => Ok None | Panic w => Panic w end;
                   Ok ((td_Name def ++ "." ++ cd_Name c)%string, typ)
               end) (index_ords def idx).

(** What the engine passes back when it creates a table of such a schema. *)
Definition engine_column (c : schemaColumn Ty) : engineColumn :=
  MkEngineCol (sc_Name c) (ty_Type (sc_Type c)) (ty_StringType (sc_Type c)) (ty_DatetimeType (sc_Type c)) (sc_Nullable c) (sc_AutoIncrement c).
End schema.

(** * Databases *)

(** Bytewise comparison with ASCII letters folded. *)
Definition fold_byte (b : byte) : byte := if decide (65 ≤ bn b ∧ bn b ≤ 90)%N then u8 (bn b + 32) else b.

Fixpoint equalsFold (a b : bytes) : bool :=
  match a, b with
  | [], [] => true
  | x :: a', y :: b' => if decide (fold_byte x = fold_byte y) then equalsFold a' b' else false
  | _, _ => false
  end.

Definition ErrDatabaseNotFound : error := RawError "database not found: %s".

(** The database of the store and the engine's information schema, by their names. *)
Inductive provided := ProvidedStore | ProvidedInfo.
Record Provider := MkProvider { pr_db : string; pr_info : string }.

Definition NewProvider {B} (info : string) (q : SqlStore B) : Provider := MkProvider (q_dbName q) info.

Definition prDatabase (p : Provider) (name : string) : outcome provided :=
  if equalsFold (str name) (str (pr_db p)) then Ok ProvidedStore
  else if equalsFold (str name) (str (pr_info p)) then Ok ProvidedInfo
  else Err ErrDatabaseNotFound.

Definition HasDatabase (p : Provider) (name : string) : bool :=
  equalsFold (str name) (str (pr_db p)) || equalsFold (str name) (str (pr_info p)).

Definition AllDatabases (p : Provider) : list provided := [ProvidedStore; ProvidedInfo].

(** * Lemmas *)

(** Names are compared as they are folded: an equivalence on names. *)
Lemma equalsFold_spec a b : equalsFold a b = true ↔ fold_byte <$> a = fold_byte <$> b.
Proof.
  revert b. induction a as [|x a IH]; intros [|y b]; cbn [equalsFold fmap list_fmap]; [done..|]. case_decide as Hxy.
  - rewrite IH, Hxy. split; [by intros ->|by intros [= ->]].
  - split; [done|]. by intros [= ? _].
Qed.

(** The databases that are announced are those that are found. *)
Lemma provider_complete p name : HasDatabase p name = true ↔ ∃ d, prDatabase p name = Ok d ∧ d ∈ AllDatabases p.
Proof.
  unfold HasDatabase, prDatabase, AllDatabases. rewrite orb_true_iff.
  destruct (equalsFold (str name) (str (pr_db p))); [split; [intros _; exists ProvidedStore; split; [done|left]|by left]|].
  destruct (equalsFold (str name) (str (pr_info p))); [split; [intros _; exists ProvidedInfo; split; [done|right; left]|by right]|].
  split; [by intros [?|?]|by intros (d & ? & _)].
Qed.

Section roundtrip.
Context {Ty : Type} `{ET : EngineTypes Ty}.

(** A type that reports what it was built from. *)
Definition reports (c : colDef) (t : Ty) : Prop :=
  ty_Type t = cd_QType c ∧ default 0%Z (ty_DatetimeType t) = cd_Precision c ∧
  match ty_StringType t with
  | Some (chars, byts) => cd_Length c = if decide (kindOfQType (cd_QType c) = Ok kindBytes) then byts else chars
  | None => cd_Length c = 0%Z
  end.

(** The column as a table created from the schema has it: key columns are not nullable. *)
Definition shown_column (def : tableDef) (i : nat) (c : colDef) : colDef :=
  MkCol (cd_Name c) (cd_QType c) (cd_Length c) (cd_Precision c) (cd_Nullable c && negb (bool_decide (i ∈ td_PKOrds def))) (cd_AutoInc c).

Lemma column_roundtrip def i c s :
  (∀ t, sqlType c = Ok t -> reports c t) -> is_ok (kindOfQType (cd_QType c)) = true -> schema_column def (i, c) = Ok s ->
  colDefOf (engine_column s) = Ok (shown_column def i c).
Proof.
  intros Hr Hk. cbn [schema_column]. destruct (sqlType c) as [t|e|w] eqn:Et; try done. cbn zeta. intros [= <-].
  destruct (Hr t eq_refl) as (Hty & Hp & Hl). unfold colDefOf, engine_column. cbn [ec_Type ec_String ec_Datetime ec_Name ec_Nullable ec_AutoIncrement sc_Type sc_Name sc_Nullable sc_AutoIncrement].
  rewrite Hty, Hp. destruct (kindOfQType (cd_QType c)) as [k|e|w] eqn:Ek; try done. cbn [wrap_err mbind outcome_bind].
  unfold shown_column. do 2 f_equal. destruct (ty_StringType t) as [[chars byts]|]; [|done]. rewrite Hl.
  destruct (decide (k = kindBytes)) as [->|Hne]; [by rewrite decide_True|]. rewrite decide_False; [done|]. by intros [= ->].
Qed.

Lemma mapO_lookup {X Y} (f : X -> outcome Y) l r i x : mapO f l = Ok r -> l !! i = Some x -> ∃ y, r !! i = Some y ∧ f x = Ok y.
Proof.
  revert r i. induction l as [|z l IH]; intros r i; cbn [mapO]; [done|].
  destruct (f z) as [y|e|w] eqn:Ez; cbn [mbind outcome_bind]; try done.
  destruct (mapO f l) as [ys|e|w] eqn:El; cbn [mbind outcome_bind]; try done. intros [= <-].
  destruct i as [|i]; cbn; [intros [= <-]; eauto|]. by apply IH.
Qed.

(** A table created from the schema of a table has its columns. *)
Lemma schema_roundtrip def schema pks :
  (∀ c t, c ∈ td_Columns def -> sqlType c = Ok t -> reports c t) ->
  Forall (λ c, is_ok (kindOfQType (cd_QType c)) = true) (td_Columns def) ->
  PrimaryKeySchema def = Ok (schema, pks) ->
  pks = td_PKOrds def ∧ ∀ i c, td_Columns def !! i = Some c ->
    ∃ s, schema !! i = Some s ∧ colDefOf (engine_column s) = Ok (shown_column def i c).
Proof.
  intros Hr Hk. unfold PrimaryKeySchema. destruct (mapO _ _) as [ss|e|w] eqn:Em; cbn [mbind outcome_bind]; try done.
  intros [= <- <-]. split; [done|]. intros i c Hc.
  destruct (mapO_lookup _ _ _ i (i, c) Em) as (s & Hs & Es); [by rewrite list_lookup_imap, Hc|].
  exists s. split; [done|]. rewrite Forall_forall in Hk. assert (c ∈ td_Columns def) as Hin by (by eapply list_elem_of_lookup_2).
  eapply column_roundtrip; [by intros t; apply Hr|by apply Hk|done].
Qed.

(** The columns of a well-formed index have a name. *)
Lemma Expressions_total def idx :
  Forall (λ o, o < length (td_Columns def)) (index_ords def idx) -> is_ok (Expressions def idx) = true.
Proof.
  unfold Expressions. induction 1 as [|o l Ho Hl IH]; [done|]. cbn [mapO].
  assert (is_ok (column_expression def o) = true) as He.
  { destruct (lookup_lt_is_Some_2 _ _ Ho) as [c Hc]. unfold column_expression. by rewrite Hc. }
  destruct (column_expression def o); try done. cbn [mbind outcome_bind]. by destruct (mapO _ l).
Qed.
End roundtrip.
