(* ===== verification/SqlIndexBuild.v ===== *)
(** Building an index: the loop of CREATE INDEX over the rows of a table.

    The loop reads the table's rows chunk by chunk; its result is that of a fold over
    all rows ([index_build]), which is an entry per row, or the error of a unique index
    on rows that share a value. *)

From S2P Require Import Prelude Errors Sha256 Hashing Node Aead Backend Cache Store Tree StoreRead Records StoreCommit StoreFrame GoNum SqlCodec SqlIndex SqlTxn SqlOverlay SqlStore Json SqlCatalog SqlScan SqlScanOk SqlCommit SqlRefine SqlTable SqlEdit SqlSession SqlRemove SqlDdl.

(** * The fold over rows *)

Definition index_step (def : tableDef) (idx : indexDef) (acc : list BatchOp * gmap bytes bytes) (x : bytes * row) :
    outcome (list BatchOp * gmap bytes bytes) :=
  '(colsEnc, hasNull) ← encodeIndexCols def idx x.2;
  seen ← (if ix_Unique idx && negb hasNull then
            match acc.2 !! colsEnc with
            | Some prev => if decide (prev = x.1) then Ok (<[colsEnc := x.1]> acc.2) else Err UniqueKeyErr
            | None => Ok (<[colsEnc := x.1]> acc.2)
            end
          else Ok acc.2);
  Ok (acc.1 ++ [bput (secondarySpace (ix_ID idx) ++ colsEnc ++ x.1) x.1], seen).

Fixpoint index_build (def : tableDef) (idx : indexDef) (acc : list BatchOp * gmap bytes bytes) (l : list (bytes * row)) :
    outcome (list BatchOp * gmap bytes bytes) :=
  match l with [] => Ok acc | x :: l' => acc ← index_step def idx acc x; index_build def idx acc l' end.

Lemma index_build_app def idx acc l1 l2 :
  index_build def idx acc (l1 ++ l2) = (acc ← index_build def idx acc l1; index_build def idx acc l2).
Proof. revert acc. induction l1 as [|x l1 IH]; intros acc; cbn; [done|]. destruct (index_step def idx acc x); cbn; auto. Qed.

(** Two rows with the same value of the index, neither with a NULL in it. *)
Definition clash (def : tableDef) (idx : indexDef) (x y : bytes * row) : Prop :=
  ix_Unique idx = true ∧ x.1 ≠ y.1 ∧ ∃ c, encodeIndexCols def idx x.2 = Ok (c, false) ∧ encodeIndexCols def idx y.2 = Ok (c, false).

(** The entry of a row. *)
Definition index_put (def : tableDef) (idx : indexDef) (x : bytes * row) : BatchOp :=
  match encodeIndexCols def idx x.2 with
  | Ok (c, _) => bput (secondarySpace (ix_ID idx) ++ c ++ x.1) x.1
  | _ => bput [] []
  end.

(** The values seen so far are those of the rows so far. *)
Definition seen_ok (def : tableDef) (idx : indexDef) (seen : gmap bytes bytes) (l : list (bytes * row)) : Prop :=
  ix_Unique idx = true -> ∀ c pk, seen !! c = Some pk ↔ ∃ r, (pk, r) ∈ l ∧ encodeIndexCols def idx r = Ok (c, false).

Section build.
Variables (def : tableDef) (idx : indexDef).

Lemma index_step_spec ops seen l x c (h : bool) :
  seen_ok def idx seen l -> encodeIndexCols def idx x.2 = Ok (c, h) ->
  (∃ y, y ∈ l ∧ clash def idx y x) ∧ index_step def idx (ops, seen) x = Err UniqueKeyErr ∨
  (∀ y, y ∈ l -> ¬ clash def idx y x) ∧
    ∃ seen', index_step def idx (ops, seen) x = Ok (ops ++ [index_put def idx x], seen') ∧ seen_ok def idx seen' (l ++ [x]).
Proof.
  intros Hs He. destruct x as [pk r]. unfold index_step, index_put. cbn [fst snd] in *. rewrite He. cbn [mbind outcome_bind].
  destruct (ix_Unique idx) eqn:Eu; [specialize (Hs Eu)|].
  2:{ right. split; [intros y _ (? & _); congruence|]. eexists. split; [done|]. intros ?. congruence. }
  destruct h; cbn [andb negb].
  { right. split; [intros y _ (_ & _ & c' & _ & Hc); cbn in Hc; congruence|]. eexists. split; [done|]. intros _ c' pk'.
    rewrite Hs. setoid_rewrite elem_of_app. setoid_rewrite list_elem_of_singleton. split.
    - intros (r' & Hin & He'). eauto.
    - intros (r' & [Hin|[= -> ->]] & He'); [eauto|congruence]. }
  assert (∀ pk', seen !! c = Some pk' -> pk' ≠ pk -> ∃ y, y ∈ l ∧ clash def idx y (pk, r)) as Hcl.
  { intros pk' Hp Hne. apply Hs in Hp as (r' & Hin & He'). exists (pk', r'). split; [done|]. split_and!; [done..|eauto]. }
  assert ((∀ pk', seen !! c = Some pk' -> pk' = pk) ->
    (∀ y, y ∈ l -> ¬ clash def idx y (pk, r)) ∧ seen_ok def idx (<[c := pk]> seen) (l ++ [(pk, r)])) as Hno.
  { intros Hsame. split.
    - intros [pk' r'] Hin (_ & Hne & c' & Hc1 & Hc2). cbn in *. rewrite He in Hc2. injection Hc2 as <-. apply Hne.
      apply Hsame. apply Hs. eauto.
    - intros _ c' pk'. setoid_rewrite elem_of_app. setoid_rewrite list_elem_of_singleton. rewrite lookup_insert. case_decide as Hc.
      + subst c'. split; [intros [= <-]; eauto|]. intros (r' & [Hin|[= -> ->]] & He'); [|done]. f_equal. symmetry. apply Hsame, Hs. eauto.
      + rewrite Hs. split; [intros (r' & Hin & He'); eauto|]. intros (r' & [Hin|[= -> ->]] & He'); [eauto|congruence]. }
  destruct (seen !! c) as [prev|] eqn:Ep.
  - case_decide as Hp.
    + right. destruct Hno as [N1 N2]; [congruence|]. split; [done|]. eexists. split; [done|]. done.
    + left. split; [by eapply Hcl|done].
  - right. destruct Hno as [N1 N2]; [done|]. split; [done|]. eexists. split; [done|]. done.
Qed.

Lemma index_build_spec ops seen l l' :
  seen_ok def idx seen l -> (∀ x, x ∈ l' -> is_ok (encodeIndexCols def idx x.2) = true) ->
  (∀ x y, x ∈ l -> y ∈ l -> ¬ clash def idx x y) ->
  (∃ x y, x ∈ l ++ l' ∧ y ∈ l ++ l' ∧ clash def idx x y) ∧ index_build def idx (ops, seen) l' = Err UniqueKeyErr ∨
  (∀ x y, x ∈ l ++ l' -> y ∈ l ++ l' -> ¬ clash def idx x y) ∧
    ∃ seen', index_build def idx (ops, seen) l' = Ok (ops ++ (index_put def idx <$> l'), seen').
Proof.
  revert ops seen l. induction l' as [|x l' IH]; intros ops seen l Hs Ht Hcl; cbn [index_build fmap list_fmap].
  { right. rewrite !app_nil_r. split; [done|]. eauto. }
  pose proof (Ht x ltac:(left)) as Hx. destruct (encodeIndexCols def idx x.2) as [[c h]|e|w] eqn:He; try done.
  destruct (index_step_spec ops seen l x c h Hs He) as [[(y & Hin & Hc) Hstep]|(Hno & seen' & Hstep & Hs')]; rewrite Hstep; cbn [mbind outcome_bind].
  - left. split; [|done]. exists y, x. split_and!; [apply elem_of_app; by left|apply elem_of_app; right; left|done].
  - assert (∀ a b, clash def idx a b -> clash def idx b a) as Hsym.
    { intros a b (Hu & Hne & c' & H1 & H2). split_and!; [done|by apply not_eq_sym|eauto]. }
    destruct (IH (ops ++ [index_put def idx x]) seen' (l ++ [x]) Hs') as [[Hex Hb]|(Hnone & seen2 & Hb)].
    + intros z Hz. apply Ht. by right.
    + intros a b [Ha|Ha%list_elem_of_singleton]%elem_of_app [Hb|Hb%list_elem_of_singleton]%elem_of_app; subst.
      * by apply Hcl. * by apply Hno. * intros ?%Hsym. by eapply Hno. * by intros (_ & ? & _).
    + left. rewrite <-app_assoc in Hex. by rewrite Hb.
    + right. rewrite <-app_assoc in Hnone. split; [done|]. exists seen2. by rewrite Hb, <-app_assoc.
Qed.
End build.

(** * The loop *)

Section loop.
Context `{H : Hasher} `{G : GCM} `{E : Entropy} `{MR : MapRange}.
Context {B : Type} `{BK : Backend B} `{!BackendSpec B} `{!BackendReliable B}.
Implicit Types q : SqlStore B.
Variables (def : tableDef) (idx : indexDef) (ck : bytes) (st : gmap Hash bytes) (rows : gmap bytes row).

(** The row an entry of the row keyspace stands for. *)
Definition row_of (kv : KV) : bytes * row := (drop 9 (kv_Key kv), default [] (rows !! drop 9 (kv_Key kv))).

Lemma index_entry_ok acc kv q ot :
  repr (q_led q) ot st -> s_ck (q_led q) = ck -> of_rows ck st def rows kv ->
  ∃ q', index_entry def idx acc kv q = (index_step def idx acc (row_of kv), q') ∧ sreads q q'.
Proof.
  intros Hr <- (pk & r & Ek & Hrow & Hfit & Hst). unfold index_entry.
  rewrite (resolve_ok false kv) by (right; rewrite Ek; unfold scanKey; cbn; rewrite length_app, length_be; lia).
  unfold entry_pk. rewrite (bind_ok _ _ _ (drop 9 (kv_Key kv)) q) by done. unfold row_of. rewrite Ek, drop_scanKey, Hrow.
  destruct (readRowLocked_ok def pk r q ot st Hr Hfit Hst) as (q1 & E1 & R1). rewrite (bind_ok _ _ _ _ _ E1). exists q1.
  split; [|done]. unfold index_step. cbn [fst snd default id]. change (default [] (Some r)) with r. unfold lift, mbind at 1, M_bind at 1.
  destruct (encodeIndexCols def idx r) as [[c h]|e|w]; cbn [mbind outcome_bind]; [|done..].
  destruct (ix_Unique idx && negb h); [|done]. destruct (acc.2 !! c) as [prev|]; [|done]. by case_decide.
Qed.

Lemma index_entries_ok acc kvs q ot :
  repr (q_led q) ot st -> s_ck (q_led q) = ck -> Forall (of_rows ck st def rows) kvs ->
  ∃ q', foldM (index_entry def idx) acc kvs q = (index_build def idx acc (row_of <$> kvs), q') ∧ sreads q q'.
Proof.
  intros Hr Hck Hf. revert acc q Hr Hck. induction Hf as [|kv kvs Hkv Hf IH]; intros acc q Hr Hck; cbn [foldM fmap list_fmap index_build].
  { by exists q. }
  destruct (index_entry_ok acc kv q ot Hr Hck Hkv) as (q1 & E1 & R1). unfold mbind at 1, M_bind at 1. rewrite E1.
  destruct (index_step def idx acc (row_of kv)) as [acc'|e|w]; cbn [mbind outcome_bind]; [|by exists q1..].
  destruct (IH acc' q1) as (q2 & E2 & R2); [by eapply sreads_repr|destruct R1 as [R _]; rewrite <-Hck; apply (reads_fields _ _ R)|].
  exists q2. split; [done|by etrans].
Qed.

Definition ops_of (o : outcome (list BatchOp * gmap bytes bytes)) : outcome (list BatchOp) := acc ← o; Ok acc.1.

Lemma build_index_ok rounds next stop acc q ot :
  repr (q_led q) ot st -> s_ck (q_led q) = ck ->
  Forall (of_rows ck st def rows) (scan_spec (sql_contents q) next stop 0) ->
  length (scan_spec (sql_contents q) next stop 0) < N.to_nat scanChunkSize * rounds ->
  ∃ q', build_index rounds def idx next stop acc q =
    (ops_of (index_build def idx acc (row_of <$> scan_spec (sql_contents q) next stop 0)), q') ∧ sreads q q'.
Proof.
  revert next acc q. induction rounds as [|rounds IH]; intros next acc q Hr Hck Hf Hl; [lia|]. cbn [build_index].
  destruct (db_scan_ok next stop scanChunkSize q) as (q1 & E1 & R1). rewrite (bind_ok _ _ _ _ _ E1).
  pose proof (scan_chunk (sql_contents q) next stop _ eq_refl) as Hc.
  set (kvs := scan_spec (sql_contents q) next stop scanChunkSize) in *.
  assert (s_ck (q_led q1) = ck) as Hck1 by (destruct R1 as [R _]; rewrite <-Hck; apply (reads_fields _ _ R)).
  pose proof (sreads_repr _ _ _ _ R1 Hr) as Hr1.
  destruct (last kvs) as [l|] eqn:El.
  2:{ apply last_None in El. rewrite El in Hc. rewrite decide_True in Hc by (vm_compute; lia). exists q1. by rewrite Hc. }
  assert (Forall (of_rows ck st def rows) kvs) as Hfk.
  { case_decide; [by rewrite Hc in Hf|]. destruct Hc as (kv & _ & Es). rewrite Es in Hf. by apply Forall_app in Hf as [? _]. }
  destruct (index_entries_ok acc kvs q1 ot Hr1 Hck1 Hfk) as (q2 & E2 & R2). unfold mbind, M_bind. rewrite E2.
  case_decide as Hlen.
  - rewrite Hc. exists q2. split; [|by etrans]. by destruct (index_build def idx acc (row_of <$> kvs)).
  - destruct Hc as (kv & El' & Es). assert (kv = l) as -> by congruence. rewrite Es, fmap_app, index_build_app.
    destruct (index_build def idx acc (row_of <$> kvs)) as [acc'|e|w]; cbn [mbind outcome_bind ops_of]; [|exists q2; split; [done|by etrans]..].
    rewrite Es in Hf, Hl. apply Forall_app in Hf as [_ Hf]. rewrite length_app in Hl.
    pose proof (sreads_contents _ _ R1) as C1. pose proof (sreads_contents _ _ R2) as C2.
    destruct (IH (after_key (kv_Key l)) acc' q2) as (q3 & E3 & R3).
    + by eapply sreads_repr.
    + destruct R2 as [R _]. rewrite <-Hck1. apply (reads_fields _ _ R).
    + by rewrite C2, C1.
    + rewrite C2, C1. lia.
    + exists q3. rewrite E3, C2, C1. split; [done|]. etrans; [exact R1|]. by etrans.
Qed.
End loop.
