(* ===== verification/SqlCat.v ===== *)
(** The catalog against a map of definitions.

    [cat_map] is the catalog as the map from lower-case names to definitions that the
    heap of definitions and the table map stand for.  [cat_wf] is the invariant of the
    persisted counters and that map: names and ids tell tables apart, ids in use are
    below the counters.  [db_ok] adds that the ledger stores exactly this catalog
    ([persisted]) and that no derived entry exists for an id not given out yet. *)

From S2P Require Import Prelude Errors Sha256 Hashing Node Aead Backend Cache Store Tree StoreRead Records StoreCommit StoreFrame GoNum SqlCodec SqlIndex SqlTxn SqlOverlay SqlStore Json SqlCatalog SqlScan SqlScanOk SqlCommit SqlRefine SqlTable SqlEdit SqlSession SqlRemove SqlDdl.

(** * Catalogs as maps *)

Record cat_wf `{CF : CaseFold} (m : catalogMeta) (A : gmap string tableDef) : Prop := {
  cw_name : ∀ n def, A !! n = Some def -> ToLower (td_Name def) = n;
  cw_id : ∀ n def n' def', A !! n = Some def -> A !! n' = Some def' -> td_ID def = td_ID def' -> n = n';
  cw_ix : ∀ n def n' def' ix ix', A !! n = Some def -> A !! n' = Some def' ->
    ix ∈ td_Indexes def -> ix' ∈ td_Indexes def' -> ix_ID ix = ix_ID ix' -> n = n';
  cw_nodup : ∀ n def, A !! n = Some def -> NoDup (ix_ID <$> td_Indexes def);
  cw_id_lt : ∀ n def, A !! n = Some def -> (td_ID def < ca_NextTableID m)%N;
  cw_ix_lt : ∀ n def ix, A !! n = Some def -> ix ∈ td_Indexes def -> (ix_ID ix < ca_NextIndexID m)%N;
  cw_u64 : is_u64 (ca_NextTableID m) ∧ is_u64 (ca_NextIndexID m);
  cw_defs : ∀ n def, A !! n = Some def -> def_wf def;
  cw_tables : ∀ n, n ∈ (ToLower <$> ca_Tables m) ↔ is_Some (A !! n);
  cw_once : NoDup (ToLower <$> ca_Tables m)
}.

Section maps.
Context `{CF : CaseFold}.
Implicit Types A : gmap string tableDef.

(** The counters of [m'] are not behind those of [m]. *)
Definition counters_le (m m' : catalogMeta) : Prop :=
  (ca_NextTableID m ≤ ca_NextTableID m')%N ∧ (ca_NextIndexID m ≤ ca_NextIndexID m')%N ∧
  is_u64 (ca_NextTableID m') ∧ is_u64 (ca_NextIndexID m').

(** The names of [m] are those of the tables, each once. *)
Definition names_ok (m : catalogMeta) A : Prop :=
  NoDup (ToLower <$> ca_Tables m) ∧ ∀ n, n ∈ (ToLower <$> ca_Tables m) ↔ is_Some (A !! n).

Lemma cat_wf_sub m m' A A' :
  cat_wf m A -> (∀ n def, A' !! n = Some def -> A !! n = Some def) -> counters_le m m' -> names_ok m' A' -> cat_wf m' A'.
Proof.
  intros Hw Hs (Ht & Hi & Ut & Ui) [Hn1 Hn2]. split; try done.
  - intros n def Hn%Hs. by eapply (cw_name _ _ Hw).
  - intros n def n' def' Hn%Hs Hn'%Hs. by eapply (cw_id _ _ Hw).
  - intros n def n' def' ix ix' Hn%Hs Hn'%Hs. by eapply (cw_ix _ _ Hw).
  - intros n def Hn%Hs. by eapply (cw_nodup _ _ Hw).
  - intros n def Hn%Hs. pose proof (cw_id_lt _ _ Hw _ _ Hn). lia.
  - intros n def ix Hn%Hs Hix. pose proof (cw_ix_lt _ _ Hw _ _ _ Hn Hix). lia.
  - intros n def Hn%Hs. by eapply (cw_defs _ _ Hw).
Qed.

(** A definition that fits beside the others. *)
Record fits_beside (m : catalogMeta) A (n : string) (def : tableDef) : Prop := {
  fb_name : ToLower (td_Name def) = n;
  fb_id : ∀ n' def', n' ≠ n -> A !! n' = Some def' -> td_ID def' ≠ td_ID def;
  fb_ix : ∀ n' def' ix ix', n' ≠ n -> A !! n' = Some def' -> ix ∈ td_Indexes def -> ix' ∈ td_Indexes def' -> ix_ID ix ≠ ix_ID ix';
  fb_nodup : NoDup (ix_ID <$> td_Indexes def);
  fb_id_lt : (td_ID def < ca_NextTableID m)%N;
  fb_ix_lt : ∀ ix, ix ∈ td_Indexes def -> (ix_ID ix < ca_NextIndexID m)%N;
  fb_wf : def_wf def
}.

Lemma cat_wf_put m m' A0 A n def :
  cat_wf m A0 -> (∀ n' d, n' ≠ n -> A !! n' = Some d -> A0 !! n' = Some d) -> fits_beside m' A n def ->
  counters_le m m' -> names_ok m' (<[n := def]> A) -> cat_wf m' (<[n := def]> A).
Proof.
  intros Hw Hdel Hf (Ht & Hi & Ut & Ui) [Hn1 Hn2]. destruct Hf.
  split; try done.
  - intros n' d [[<- <-]|[Hne Hl]]%lookup_insert_Some; [done|]. by eapply (cw_name _ _ Hw), Hdel.
  - intros n1 d1 n2 d2 [[<- <-]|[Hne1 Hl1]]%lookup_insert_Some [[<- <-]|[Hne2 Hl2]]%lookup_insert_Some Hid; [done|..].
    + by destruct (fb_id0 n2 d2).
    + by destruct (fb_id0 n1 d1).
    + by eapply (cw_id _ _ Hw); [eapply Hdel..|].
  - intros n1 d1 n2 d2 ix ix' [[<- <-]|[Hne1 Hl1]]%lookup_insert_Some [[<- <-]|[Hne2 Hl2]]%lookup_insert_Some Hix Hix' Hid; [done|..].
    + by destruct (fb_ix0 n2 d2 ix ix').
    + by destruct (fb_ix0 n1 d1 ix' ix).
    + by eapply (cw_ix _ _ Hw); [eapply Hdel..| | |].
  - intros n' d [[<- <-]|[Hne Hl]]%lookup_insert_Some; [done|]. by eapply (cw_nodup _ _ Hw), Hdel.
  - intros n' d [[<- <-]|[Hne Hl]]%lookup_insert_Some; [done|]. pose proof (cw_id_lt _ _ Hw n' d ltac:(auto)). lia.
  - intros n' d ix [[<- <-]|[Hne Hl]]%lookup_insert_Some Hix; [auto|]. pose proof (cw_ix_lt _ _ Hw n' d ix ltac:(auto) Hix). lia.
  - intros n' d [[<- <-]|[Hne Hl]]%lookup_insert_Some; [done|]. by eapply (cw_defs _ _ Hw), Hdel.
Qed.
End maps.

Section cat.
Context `{H : Hasher} `{G : GCM} `{E : Entropy} `{MR : MapRange} `{CF : CaseFold} `{QT : QueryTypes}.
Context {B : Type} `{BK : Backend B} `{!BackendSpec B} `{!BackendReliable B}.
Context `{!GCMSpec} `{!EntropyLive}.
Implicit Types q : SqlStore B.
Implicit Types A : gmap string tableDef.

Definition cat_map q : gmap string tableDef := omap (λ p, q_defs q !! p) (q_tables q).

Lemma lookup_cat_map q n : cat_map q !! n = q_tables q !! n ≫= λ p, q_defs q !! p.
Proof. unfold cat_map. by rewrite lookup_omap. Qed.

(** Table handles are live and not shared. *)
Record ptrs_ok q : Prop := {
  pt_live : ∀ n p, q_tables q !! n = Some p -> is_Some (q_defs q !! p);
  pt_inj : ∀ n n' p, q_tables q !! n = Some p -> q_tables q !! n' = Some p -> n = n'
}.

Lemma catalog_iff q id def :
  cat_wf (q_meta q) (cat_map q) ->
  catalog q id = Some def ↔ ∃ n, cat_map q !! n = Some def ∧ td_ID def = id.
Proof.
  intros Hw. unfold catalog, table_ptr. destruct (list_find _ (range_map (q_tables q))) as [[i [n p]]|] eqn:Ef; cbn.
  - apply list_find_Some in Ef as (Hi & Hid & _). cbn in Hid.
    assert (q_tables q !! n = Some p) as Hn.
    { apply elem_of_map_to_list. rewrite <-(range_perm (q_tables q)). by eapply list_elem_of_lookup_2. }
    destruct (q_defs q !! p) as [d|] eqn:Ed; [|done]. injection Hid as Hid.
    assert (cat_map q !! n = Some d) as Hm by (by rewrite lookup_cat_map, Hn). split.
    + intros [= <-]. eauto.
    + intros (n' & Hn' & Hd). assert (n' = n) as -> by (eapply (cw_id _ _ Hw); [done..|congruence]). congruence.
  - apply list_find_None in Ef. split; [done|]. intros (n & Hn & Hid). exfalso. rewrite lookup_cat_map in Hn.
    destruct (q_tables q !! n) as [p|] eqn:Ep; [|done]. cbn in Hn.
    rewrite Forall_forall in Ef. apply (Ef (n, p)); cbn; [|rewrite Hn; cbn; by rewrite Hid].
    rewrite (range_perm (q_tables q)). by apply elem_of_map_to_list.
Qed.

Lemma cat_u64 m A n def : cat_wf m A -> A !! n = Some def -> is_u64 (td_ID def) ∧ def_ids def.
Proof.
  intros Hw Hn. destruct (cw_u64 _ _ Hw) as [U1 U2]. pose proof (cw_id_lt _ _ Hw _ _ Hn). unfold is_u64 in *. split; [lia|]. split.
  - apply Forall_forall. intros ix Hix. pose proof (cw_ix_lt _ _ Hw _ _ _ Hn Hix). unfold is_u64. lia.
  - by eapply cw_nodup.
Qed.

Lemma cat_catalog_ok q : cat_wf (q_meta q) (cat_map q) -> catalog_ok q.
Proof.
  intros Hw. split.
  - intros id def (n & Hn & <-)%catalog_iff; [|done]. by eapply cat_u64.
  - intros id def ix id' def' ix' (n & Hn & <-)%catalog_iff (n' & Hn' & <-)%catalog_iff Hix Hix' Hid; [|done..].
    assert (n = n') as <- by (by eapply (cw_ix _ _ Hw)). congruence.
Qed.

(** ** The database with its catalog *)

(** No derived entry is in the keyspace of an id that was not given out. *)
Definition spaces_fresh (m : catalogMeta) (D : gmap bytes bytes) : Prop :=
  (∀ id s, is_u64 id -> (ca_NextTableID m ≤ id)%N -> D !! scanKey id s = None) ∧
  (∀ id s, is_u64 id -> (ca_NextIndexID m ≤ id)%N -> D !! (secondarySpace id ++ s) = None).

(** The ledger stores the catalog. *)
Record persisted (ck : bytes) (st : gmap Hash bytes) (m : catalogMeta) A : Prop := {
  pe_meta : st !! pathOf ck metaKey = Some (marshalTagged tagCatalogMeta (enc_meta m)) ∨
            st !! pathOf ck metaKey = None ∧ m = MkMeta 1 1 [];
  pe_defs : ∀ n def, A !! n = Some def ->
    st !! pathOf ck (tableKey (td_Name def)) = Some (marshalTagged tagCatalogTable (enc_table def));
  pe_meta_fits : meta_fits m;
  pe_fits : ∀ n def, A !! n = Some def -> table_fits def
}.

(** The ledger keys of the catalog are among those that are not rows. *)
Record cat_keys (O : list bytes) A : Prop := {
  ck_meta : metaKey ∈ O;
  ck_defs : ∀ n def, A !! n = Some def -> tableKey (td_Name def) ∈ O;
  ck_counters : ∀ n def, A !! n = Some def -> autoIncKey (td_ID def) ∈ O;
  ck_head : HistoryKey ∈ O;
  ck_rows : ∀ k, k ∈ O -> ¬ is_row_key k
}.

Record db_ok (O : list bytes) q (st : gmap Hash bytes) (T : database) : Prop := {
  db_sql : sql_ok O q st T;
  db_ptrs : ptrs_ok q;
  db_cat : cat_wf (q_meta q) (cat_map q);
  db_fresh : spaces_fresh (q_meta q) (sql_contents q);
  db_stored : persisted (s_ck (q_led q)) st (q_meta q) (cat_map q);
  db_keys : cat_keys O (cat_map q)
}.

Lemma cat_other_keys O q : cat_wf (q_meta q) (cat_map q) -> cat_keys O (cat_map q) -> other_keys O (catalog q).
Proof.
  intros Hw Hk. split; [apply Hk|apply Hk|]. intros id def (n & Hn & <-)%catalog_iff _; [|done]. by eapply ck_counters.
Qed.

(** ** The keys of the catalog are distinct *)

Lemma tableKey_inj a b : tableKey a = tableKey b ↔ ToLower a = ToLower b.
Proof.
  unfold tableKey. split; [|by intros ->]. intros Eq%(inj (app _)). apply (f_equal unstr) in Eq. by rewrite !unstr_str in Eq.
Qed.

Lemma meta_not_table n : metaKey ≠ tableKey n.
Proof. intros Eq%(f_equal (take 7)). vm_compute in Eq. done. Qed.
Lemma meta_not_counter id : metaKey ≠ autoIncKey id.
Proof. intros Eq%(f_equal (take 7)). vm_compute in Eq. done. Qed.
Lemma table_not_counter n id : tableKey n ≠ autoIncKey id.
Proof. intros Eq%(f_equal (take 7)). vm_compute in Eq. done. Qed.
Lemma meta_not_head : metaKey ≠ HistoryKey.
Proof. by vm_compute. Qed.
Lemma table_not_head n : tableKey n ≠ HistoryKey.
Proof. intros Eq%(f_equal head). vm_compute in Eq. done. Qed.

(** ** A commit of entries that are not rows *)

Section catalog_commit.
Variables (O : list bytes) (q q1 : SqlStore B) (st : gmap Hash bytes) (T : database) (lo : list Op) (so : list BatchOp).
Hypothesis Hok : sql_ok O q st T.
Hypothesis Hhead : HistoryKey ∈ O.
Hypothesis Hrows : ∀ k, k ∈ O -> ¬ is_row_key k.
Hypothesis Hap : keys_apart (s_ck (q_led q)) (O ++ row_keys T).
Hypothesis Hlo : Forall (λ op, op_Key op ∈ O) lo.
Hypothesis Hc : sql_committed q q1 st lo so.
Abbreviation ck := (s_ck (q_led q)).

Lemma apart_keys k k' : k ∈ O ∨ k ∈ row_keys T -> k' ∈ O ∨ k' ∈ row_keys T -> pathOf ck k = pathOf ck k' -> k = k'.
Proof. intros Hk Hk'. apply Hap; by rewrite elem_of_app. Qed.

(** The entry of a key that is not the head of the chain. *)
Lemma after_key_state k :
  k ∈ O ∨ k ∈ row_keys T -> k ≠ HistoryKey ->
  after_state (q_led q) st lo !! pathOf ck k = match batch_map ck lo !! pathOf ck k with Some r => r | None => st !! pathOf ck k end.
Proof. intros Hk Hne. apply after_lookup. left. intros Eq. apply Hne. apply apart_keys; [done|by left|done]. Qed.

Lemma after_same k :
  k ∈ O ∨ k ∈ row_keys T -> k ≠ HistoryKey -> (∀ op, op ∈ lo -> op_Key op ≠ k) ->
  after_state (q_led q) st lo !! pathOf ck k = st !! pathOf ck k.
Proof.
  intros Hk Hne Hno. rewrite after_key_state by done. rewrite batch_map_notin; [done|]. intros op Hop Eq.
  apply (Hno op Hop). apply apart_keys; [left|done..]. rewrite Forall_forall in Hlo. auto.
Qed.

Lemma after_op op :
  op ∈ lo -> op_Key op ≠ HistoryKey -> (∀ op', op' ∈ lo -> op_Key op' = op_Key op -> op' = op) ->
  after_state (q_led q) st lo !! pathOf ck (op_Key op) = if op_Delete op then None else Some (op_Value op).
Proof.
  rewrite Forall_forall in Hlo. intros Hop Hne Hu. rewrite after_key_state by auto.
  rewrite (batch_map_in ck lo _ (if op_Delete op then None else Some (op_Value op))); [done|eauto|].
  intros op' Hop' Eq. assert (op_Key op' = op_Key op) as Ek by (apply apart_keys; auto). by rewrite (Hu op' Hop' Ek).
Qed.

Lemma after_rows id pk r : trow T id pk = Some r -> after_state (q_led q) st lo !! pathOf ck (rowKey id pk) = st !! pathOf ck (rowKey id pk).
Proof.
  intros Hr. assert (rowKey id pk ∈ row_keys T) as Hin by (apply elem_of_row_keys; eauto). apply after_same; [by right|..].
  - intros Eq. apply (Hrows HistoryKey Hhead). by exists id, pk.
  - intros op Hop Eq. rewrite Forall_forall in Hlo. apply (Hrows (op_Key op)); [auto|]. rewrite Eq. by exists id, pk.
Qed.

(** The catalog the commit stores: every definition is written, or its entry kept. *)
Lemma persisted_after m m' A A' :
  persisted ck st m A -> Put metaKey (marshalTagged tagCatalogMeta (enc_meta m')) ∈ lo ->
  (∀ op, op ∈ lo -> op_Key op = metaKey -> op = Put metaKey (marshalTagged tagCatalogMeta (enc_meta m'))) ->
  (∀ n def, A' !! n = Some def -> tableKey (td_Name def) ∈ O ∧
     let put := Put (tableKey (td_Name def)) (marshalTagged tagCatalogTable (enc_table def)) in
     (put ∈ lo ∧ ∀ op, op ∈ lo -> op_Key op = tableKey (td_Name def) -> op = put) ∨
     A !! n = Some def ∧ ∀ op, op ∈ lo -> op_Key op ≠ tableKey (td_Name def)) ->
  meta_fits m' -> (∀ n def, A' !! n = Some def -> table_fits def) ->
  persisted ck (after_state (q_led q) st lo) m' A'.
Proof.
  intros Hp Hm Hm1 Hd Hf Hfs. split; [| |done..].
  - left. refine (after_op _ Hm _ _); [apply meta_not_head|exact Hm1].
  - intros n def Hn. destruct (Hd n def Hn) as (Hin & [[Hput Hu]|[Hold Hno]]).
    + refine (after_op _ Hput _ _); [apply table_not_head|exact Hu].
    + rewrite after_same; [by eapply (pe_defs _ _ _ _ Hp)|by left|apply table_not_head|done].
Qed.

(** The definitions may change with the commit, as long as the columns of tables with
    rows do not and the derived keyspaces fit the new definitions. *)
Lemma catalog_commit_ok q2 :
  q_led q2 = q_led q1 -> catalog_ok q2 ->
  (∀ id def pk r, catalog q id = Some def -> trow T id pk = Some r ->
     ∃ def', catalog q2 id = Some def' ∧ td_Columns def' = td_Columns def) ->
  (∀ id def, catalog q2 id = Some def -> derived_ok (apply_batch so (sql_contents q)) def (trows T id)) ->
  sql_ok O q2 (after_state (q_led q) st lo) T.
Proof.
  intros Hled Hco Hcols Hder. destruct Hc as [Hr Hv Hk Hs Hd]. split.
  - by rewrite Hled.
  - done.
  - intros id pk r Hrow. destruct (so_rows _ _ _ _ Hok _ _ _ Hrow) as (def & Hcat & Hf & Hst).
    destruct (Hcols _ _ _ _ Hcat Hrow) as (def' & Hcat' & Hcs). exists def'. split; [done|].
    unfold row_fits, row_enc, row_payload in *. rewrite Hcs, Hled, Hk, (after_rows id pk r Hrow).
    split; [done|]. rewrite (catalog_id _ _ _ Hcat) in Hst. by rewrite (catalog_id _ _ _ Hcat').
  - intros h Hh. rewrite Hled, Hk. destruct (decide (h = history_path ck)) as [->|Hne]; [exists HistoryKey; split; [done|by left]|].
    rewrite after_lookup in Hh by (by left). destruct (batch_map ck lo !! h) as [e|] eqn:Eb.
    + apply batch_map_inv in Eb as (op & Hin & <- & _). exists (op_Key op). split; [done|]. left. rewrite Forall_forall in Hlo. auto.
    + by apply (so_dom _ _ _ _ Hok).
  - intros id def Hcat. eapply derived_ext; [|by apply Hder].
    intros idx k Hi Hsp. destruct (space_derived _ _ _ Hsp) as [Hdk Hne]. unfold sql_contents at 1. rewrite Hled.
    fold (sql_contents q1). rewrite (Hd k Hdk), apply_batch_app.
    apply apply_batch_notin. intros op Hop%list_elem_of_singleton. subst op. cbn. congruence.
  - unfold sql_contents. rewrite Hled. fold (sql_contents q1). by eapply committed_marker.
Qed.
End catalog_commit.
End cat.
