(* ===== verification/SqlDdlOk.v ===== *)
(** The DDL against the catalog map.

    Every operation of [SqlDdl] either fails and changes nothing or succeeds with the
    catalog and the tables its specification says, stored in the ledger and with derived
    keyspaces that fit. *)

From S2P Require Import Prelude Errors Sha256 Hashing Node Aead Backend Cache Store Tree StoreRead Records StoreCommit StoreFrame GoNum SqlCodec SqlIndex SqlTxn SqlOverlay SqlStore Json SqlCatalog SqlScan SqlScanOk SqlCommit SqlRefine SqlTable SqlEdit SqlSession SqlRemove SqlDdl SqlIndexBuild SqlCat.

Section ddl_ok.
Context `{H : Hasher} `{G : GCM} `{E : Entropy} `{MR : MapRange} `{CF : CaseFold} `{QT : QueryTypes}.
Context {B : Type} `{BK : Backend B} `{!BackendSpec B} `{!BackendReliable B}.
Context `{!GCMSpec} `{!EntropyLive}.
Implicit Types q : SqlStore B.
Implicit Types A : gmap string tableDef.
Implicit Types m : catalogMeta.

(** ** Pointers *)

Lemma fresh_ptr_new (defs : gmap defptr tableDef) : defs !! fresh_ptr defs = None.
Proof.
  apply eq_None_not_Some. intros [d Hd]. unfold fresh_ptr in Hd.
  assert (∀ l (x : nat), x ∈ l -> x < foldr Nat.max 0 (S <$> l)) as Hlt.
  { induction l as [|y l IH]; intros x Hx; [by apply not_elem_of_nil in Hx|]. cbn [fmap list_fmap foldr].
    apply elem_of_cons in Hx as [->|Hx]; [lia|]. specialize (IH x Hx). lia. }
  set (p := foldr Nat.max 0 (S <$> (map_to_list defs).*1)) in *.
  assert (p ∈ (map_to_list defs).*1) as Hp%Hlt; [|unfold p in *; lia].
  apply list_elem_of_fmap. exists (p, d). split; [done|]. by apply elem_of_map_to_list.
Qed.

(** A table under a new pointer. *)
Definition with_table (n : string) (def : tableDef) q : SqlStore B :=
  let p := fresh_ptr (q_defs q) in set_qtables (<[n := p]> (q_tables q)) (set_defs (<[p := def]> (q_defs q)) q).

Lemma ptr_not_fresh q n p : ptrs_ok q -> q_tables q !! n = Some p -> p ≠ fresh_ptr (q_defs q).
Proof. intros Hp Hn ->. destruct (pt_live _ Hp _ _ Hn) as [d Hd]. by rewrite fresh_ptr_new in Hd. Qed.

Lemma with_table_map n def q : ptrs_ok q -> cat_map (with_table n def q) = <[n := def]> (cat_map q).
Proof.
  intros Hp. apply map_eq. intros n'. rewrite lookup_cat_map. cbn. rewrite !lookup_insert. case_decide as Hn.
  - cbn. by rewrite lookup_insert_eq.
  - rewrite lookup_cat_map. destruct (q_tables q !! n') as [p|] eqn:Ep; [|done]. cbn.
    rewrite lookup_insert_ne; [done|]. symmetry. by eapply ptr_not_fresh.
Qed.

Lemma with_table_ptrs n def q : ptrs_ok q -> ptrs_ok (with_table n def q).
Proof.
  intros Hp. split; cbn.
  - intros n' p [[<- <-]|[Hne Hl]]%lookup_insert_Some; [by rewrite lookup_insert_eq|].
    rewrite lookup_insert_ne; [by eapply pt_live|]. intros <-. by eapply ptr_not_fresh.
  - intros n1 n2 p [[<- <-]|[Hne Hl]]%lookup_insert_Some [[<- Hx]|[Hne2 Hl2]]%lookup_insert_Some; [done|..].
    + exfalso. by eapply ptr_not_fresh.
    + exfalso. subst p. by eapply ptr_not_fresh.
    + by eapply pt_inj.
Qed.

(** ** A catalog commit and the assignments that follow it *)

Lemma fresh_committed q q1 st lo so m :
  sql_committed q q1 st lo so -> spaces_fresh m (apply_batch so (sql_contents q)) -> spaces_fresh m (sql_contents q1).
Proof.
  intros Hc [F1 F2].
  assert (∀ k, derived k -> k ≠ [scanMetaKey] -> sql_contents q1 !! k = apply_batch so (sql_contents q) !! k) as Hk.
  { intros k Hd Hne. rewrite (sc_derived _ _ _ _ _ Hc k Hd), apply_batch_app. apply apply_batch_notin.
    intros op ->%list_elem_of_singleton. cbn. congruence. }
  split; intros id s Hu Hlt; rewrite Hk; [by apply F1|by left|done|by apply F2|right; by right|done].
Qed.

Lemma db_after O q q1 q2 st T m' A' lo so :
  db_ok O q st T -> keys_apart (s_ck (q_led q)) (O ++ row_keys T) -> Forall (λ op, op_Key op ∈ O) lo ->
  sql_committed q q1 st lo so ->
  q_led q2 = q_led q1 -> q_meta q2 = m' -> cat_map q2 = A' -> ptrs_ok q2 ->
  cat_wf m' A' -> cat_keys O A' ->
  (∀ n def pk r, cat_map q !! n = Some def -> trow T (td_ID def) pk = Some r ->
     ∃ n' def', A' !! n' = Some def' ∧ td_ID def' = td_ID def ∧ td_Columns def' = td_Columns def) ->
  (∀ n def, A' !! n = Some def -> derived_ok (apply_batch so (sql_contents q)) def (trows T (td_ID def))) ->
  spaces_fresh m' (apply_batch so (sql_contents q)) ->
  persisted (s_ck (q_led q)) (after_state (q_led q) st lo) m' A' ->
  db_ok O q2 (after_state (q_led q) st lo) T.
Proof.
  intros Hdb Hap Hlo Hc Hled <- <- Hptrs Hw Hk Hcols Hder Hfr Hps. split; try done.
  - eapply (catalog_commit_ok O q q1); try done; [apply Hdb|apply Hk|apply Hk|by apply cat_catalog_ok|..].
    + intros id def pk r Hcat Hr. apply catalog_iff in Hcat as (n & Hn & <-); [|apply Hdb].
      destruct (Hcols _ _ _ _ Hn Hr) as (n' & def' & Hn' & Hid & Hcs). exists def'. split; [|done]. apply catalog_iff; [done|]. eauto.
    + intros id def (n & Hn & <-)%catalog_iff; [|done]. by eapply Hder.
  - unfold sql_contents. rewrite Hled. by eapply fresh_committed.
  - by rewrite Hled, (sc_ck _ _ _ _ _ Hc).
Qed.

(** ** CREATE TABLE *)

Definition new_table m (name : string) (cols : list colDef) (pk : list nat) (comment : string) : tableDef :=
  let def := MkTable (ca_NextTableID m) name cols pk comment [] 0 in if hasAutoInc def then set_autoInc 1 def else def.
Definition create_meta m (name : string) : catalogMeta :=
  MkMeta (wrap64 (ca_NextTableID m + 1)) (ca_NextIndexID m) (ca_Tables m ++ [name]).

(** A table of a new id has no rows and no entries. *)
Lemma new_id_rows O q st T pk :
  db_ok O q st T -> trow T (ca_NextTableID (q_meta q)) pk = None.
Proof.
  intros Hdb. destruct (trow T _ pk) as [r|] eqn:Hr; [|done]. exfalso.
  destruct (so_rows _ _ _ _ (db_sql _ _ _ _ Hdb) _ _ _ Hr) as (def & Hc & _).
  apply catalog_iff in Hc as (n & Hn & Hid); [|apply Hdb]. pose proof (cw_id_lt _ _ (db_cat _ _ _ _ Hdb) _ _ Hn). lia.
Qed.

Lemma scan_space def k : in_space def None k -> ∃ s, k = scanKey (td_ID def) s.
Proof. intros [s ->]. exists s. unfold index_space, scanKey. by rewrite app_nil_r. Qed.

Lemma new_table_derived O q st T def :
  db_ok O q st T -> td_ID def = ca_NextTableID (q_meta q) -> td_Indexes def = [] ->
  derived_ok (sql_contents q) def (trows T (td_ID def)).
Proof.
  intros Hdb Hid Hix [ix|] k v Hi Hsp; [cbn in Hi; rewrite Hix in Hi; by apply not_elem_of_nil in Hi|].
  apply scan_space in Hsp as [s ->]. rewrite Hid. split.
  - rewrite (proj1 (db_fresh _ _ _ _ Hdb)); [done|apply (db_cat _ _ _ _ Hdb)|lia].
  - intros (pk & r & Hr & _). by rewrite lookup_trows, (new_id_rows O q st T pk Hdb) in Hr.
Qed.

Lemma new_table_fields m name cols pk comment :
  td_ID (new_table m name cols pk comment) = ca_NextTableID m ∧ td_Name (new_table m name cols pk comment) = name ∧
  td_Indexes (new_table m name cols pk comment) = [] ∧ td_PKOrds (new_table m name cols pk comment) = pk.
Proof. unfold new_table. by destruct (hasAutoInc _). Qed.

Lemma names_ok_snoc m name A n def :
  names_ok m A -> ToLower name = n -> A !! n = None -> names_ok (create_meta m name) (<[n := def]> A).
Proof.
  intros [Hn1 Hn2] <- Ha. unfold names_ok, create_meta. cbn. rewrite fmap_app. cbn. split.
  - apply NoDup_app. split_and!; [done| |apply NoDup_singleton]. intros n Hn ->%list_elem_of_singleton.
    apply Hn2 in Hn. rewrite Ha in Hn. by destruct Hn.
  - intros n'. rewrite elem_of_app, list_elem_of_singleton, Hn2, lookup_insert. case_decide; naive_solver.
Qed.

Lemma cat_names m A : cat_wf m A -> names_ok m A.
Proof. intros Hw. split; [apply Hw|apply Hw]. Qed.

Lemma ptrs_ok_ext q q' : q_tables q' = q_tables q -> q_defs q' = q_defs q -> ptrs_ok q -> ptrs_ok q'.
Proof. intros Et Ed [P1 P2]. split; rewrite Et, ?Ed; done. Qed.
Lemma cat_map_ext q q' : q_tables q' = q_tables q -> q_defs q' = q_defs q -> cat_map q' = cat_map q.
Proof. unfold cat_map. by intros -> ->. Qed.

Lemma committed_fields q q1 st lo so :
  sql_committed q q1 st lo so -> q_meta q1 = q_meta q ∧ q_defs q1 = q_defs q ∧ q_tables q1 = q_tables q.
Proof. intros Hc. by rewrite (sc_same _ _ _ _ _ Hc). Qed.

Lemma not_in_tables q n : ptrs_ok q -> cat_map q !! n = None -> q_tables q !! n = None.
Proof.
  intros Hp. rewrite lookup_cat_map. destruct (q_tables q !! n) as [p|] eqn:Ep; [|done].
  destruct (pt_live _ Hp _ _ Ep) as [d Hd]. cbn. congruence.
Qed.

Lemma create_wf m A name cols pk comment :
  cat_wf m A -> A !! ToLower name = None -> pk ≠ [] -> is_u64 (ca_NextTableID m + 1) ->
  cat_wf (create_meta m name) (<[ToLower name := new_table m name cols pk comment]> A).
Proof.
  intros Hw Hnew Hpk Hroom. destruct (new_table_fields m name cols pk comment) as (Fid & Fn & Fi & Fpk).
  eapply (cat_wf_put m _ A); [done|done|..].
  - split; rewrite ?Fid, ?Fn, ?Fi; try done.
    + intros n' d Hne Hd. pose proof (cw_id_lt _ _ Hw _ _ Hd). lia.
    + intros n' d ix ix' _ _ ?%not_elem_of_nil. done.
    + constructor.
    + cbn. rewrite wrap64_small by done. lia.
    + intros ix ?%not_elem_of_nil. done.
    + split; rewrite ?Fpk, ?Fi; [done|]. by intros ix ord ?%not_elem_of_nil.
  - unfold counters_le, create_meta. cbn. rewrite wrap64_small by done. destruct (cw_u64 _ _ Hw). split_and!; [lia|done..].
  - by apply names_ok_snoc; [apply cat_names| |].
Qed.

(** The definitions that the catalog operations write, and the others. *)
Lemma catalog_stored O q st T m' (def : tableDef) A' dels :
  db_ok O q st T -> keys_apart (s_ck (q_led q)) (O ++ row_keys T) -> cat_keys O A' -> cat_wf m' A' ->
  A' !! ToLower (td_Name def) = Some def -> Forall (λ op, ∃ n, op = Del (tableKey n) ∧ A' !! ToLower n = None ∧ tableKey n ∈ O) dels ->
  (∀ n d, n ≠ ToLower (td_Name def) -> A' !! n = Some d -> cat_map q !! n = Some d) ->
  meta_fits m' -> table_fits def ->
  let lo := catalogOps m' [def] ++ dels in
  Forall (λ op, op_Key op ∈ O) lo ∧ persisted (s_ck (q_led q)) (after_state (q_led q) st lo) m' A'.
Proof.
  intros Hdb Hap Hk Hw Hdef Hdels Hold Hmf Htf lo. rewrite Forall_forall in Hdels.
  assert (∀ op, op ∈ lo -> op = Put metaKey (marshalTagged tagCatalogMeta (enc_meta m')) ∨
    op = Put (tableKey (td_Name def)) (marshalTagged tagCatalogTable (enc_table def)) ∨
    ∃ n, op = Del (tableKey n) ∧ A' !! ToLower n = None ∧ tableKey n ∈ O) as Hops.
  { intros op. unfold lo, catalogOps. rewrite elem_of_app. cbn [fmap list_fmap]. rewrite !elem_of_cons, elem_of_nil.
    intros [[?|[?|[]]]|?]; auto. }
  assert (Forall (λ op, op_Key op ∈ O) lo) as Hlo.
  { apply Forall_forall. intros op [->|[->|(n & -> & _ & ?)]]%Hops; cbn; [apply Hk|by eapply ck_defs|done]. }
  split; [done|]. apply (persisted_after O q st T lo (ck_head _ _ Hk) Hap Hlo _ m' _ A' (db_stored _ _ _ _ Hdb)); try done.
  - left.
  - intros op [->|[->|(n & -> & _)]]%Hops Hkey; [done| |]; by destruct (meta_not_table _ (eq_sym Hkey)).
  - intros n d Hn. split; [by eapply ck_defs|]. cbn zeta. pose proof (cw_name _ _ Hw _ _ Hn) as Hname.
    destruct (decide (n = ToLower (td_Name def))) as [Heq|Hne].
    + left. assert (d = def) as -> by congruence. split; [right; left|].
      intros op [->|[->|(n' & -> & Hno & _)]]%Hops Hkey; [by destruct (meta_not_table _ Hkey)|done|].
      apply (tableKey_inj n') in Hkey. congruence.
    + right. split; [by apply Hold|]. intros op [->|[->|(n' & -> & Hno & _)]]%Hops Hkey.
      * by destruct (meta_not_table _ Hkey).
      * apply (tableKey_inj (td_Name def)) in Hkey. congruence.
      * apply (tableKey_inj n') in Hkey. congruence.
  - intros n d Hn. destruct (decide (n = ToLower (td_Name def))) as [->|Hne]; [congruence|].
    eapply (pe_fits _ _ _ _ (db_stored _ _ _ _ Hdb)). by apply Hold.
Qed.

Lemma createTable_run q name schema pk comment cols q1 :
  q_tables q !! ToLower name = None -> pk ≠ [] -> mapO colDefOf schema = Ok cols ->
  let def := new_table (q_meta q) name cols pk comment in
  sqlCommit (catalogOps (create_meta (q_meta q) name) [def]) [] q = (Ok tt, q1) ->
  createTable name schema pk comment q = (Ok tt, with_table (ToLower name) def (set_meta (create_meta (q_meta q) name) q1)).
Proof.
  intros Hn Hpk Hcols def E1. unfold createTable. rewrite bind_gets, Hn, decide_False by (by intros []).
  rewrite decide_False by (by destruct pk). rewrite bind_gets. unfold lift, wrap_err. rewrite Hcols. unfold mbind at 1, M_bind at 1.
  fold (create_meta (q_meta q) name). cbn zeta. rewrite (bind_ok _ _ _ _ _ E1). by rewrite bind_modify.
Qed.

Lemma createTable_ok O q st T name schema pk comment cols :
  db_ok O q st T -> keys_apart (s_ck (q_led q)) (O ++ row_keys T) ->
  cat_map q !! ToLower name = None -> pk ≠ [] -> mapO colDefOf schema = Ok cols ->
  let m' := create_meta (q_meta q) name in
  let def := new_table (q_meta q) name cols pk comment in
  let A' := <[ToLower name := def]> (cat_map q) in
  is_u64 (ca_NextTableID (q_meta q) + 1) -> meta_fits m' -> table_fits def -> cat_keys O A' ->
  batch_pre (q_led q) st (catalogOps m' [def]) ->
  ∃ q' st', createTable name schema pk comment q = (Ok tt, q') ∧ db_ok O q' st' T ∧ q_meta q' = m' ∧ cat_map q' = A'.
Proof.
  intros Hdb Hap Hnew Hpk Hcols m' def A' Hroom Hmf Htf Hk Hb.
  pose proof (db_cat _ _ _ _ Hdb) as Hw. pose proof (db_ptrs _ _ _ _ Hdb) as Hp.
  destruct (so_repr _ _ _ _ (db_sql _ _ _ _ Hdb)) as [ot Hr].
  destruct (sqlCommit_ok q ot st (catalogOps m' [def]) [] Hr Hb ltac:(constructor)) as (q1 & E1 & Hc).
  destruct (committed_fields _ _ _ _ _ Hc) as (Fm & Fd & Ft).
  destruct (new_table_fields (q_meta q) name cols pk comment) as (Fid & Fn & Fi & _). fold def in Fid, Fn, Fi.
  assert (ptrs_ok (set_meta m' q1)) as Hp1 by (by eapply (ptrs_ok_ext q)).
  assert (cat_map (with_table (ToLower name) def (set_meta m' q1)) = A') as Hmap.
  { rewrite with_table_map by done. unfold A'. f_equal. by apply cat_map_ext. }
  pose proof (create_wf _ _ name cols pk comment Hw Hnew Hpk Hroom) as Hw'.
  destruct (catalog_stored O q st T m' def A' [] Hdb Hap Hk Hw') as [Hlo Hps]; [rewrite Fn; apply lookup_insert_eq|constructor| |done..|].
  { intros n d. rewrite Fn. intros Hne. unfold A'. by rewrite lookup_insert_ne. }
  rewrite app_nil_r in *.
  eexists _, (after_state (q_led q) st (catalogOps m' [def])). split_and!; [by apply createTable_run; [apply not_in_tables| | |]| |done|done].
  eapply (db_after O q q1 _ st T m' A' _ [] Hdb Hap Hlo Hc); try done; [by apply with_table_ptrs|..].
  - intros n d pk' r Hn _. exists n, d. split; [|done]. unfold A'. rewrite lookup_insert_ne; [done|]. congruence.
  - intros n d. unfold A'. intros [[<- <-]|[Hne Hn]]%lookup_insert_Some; cbn.
    + by apply (new_table_derived O q st).
    + apply (so_derived _ _ _ _ (db_sql _ _ _ _ Hdb)). apply catalog_iff; [done|]. eauto.
  - destruct (db_fresh _ _ _ _ Hdb) as [F1 F2]. cbn. split; intros id s Hu Hlt; [apply F1|apply F2]; try done.
    revert Hlt. unfold m', create_meta. cbn. rewrite wrap64_small by done. lia.
Qed.

(** ** A definition assigned in place *)

Definition with_def (p : defptr) (def : tableDef) q : SqlStore B := set_defs (<[p := def]> (q_defs q)) q.

Lemma with_def_map n p def q : ptrs_ok q -> q_tables q !! n = Some p -> cat_map (with_def p def q) = <[n := def]> (cat_map q).
Proof.
  intros Hp Hn. apply map_eq. intros n'. rewrite lookup_cat_map. cbn. rewrite lookup_insert, lookup_cat_map. case_decide as Hd.
  - subst n'. rewrite Hn. cbn. by rewrite lookup_insert_eq.
  - destruct (q_tables q !! n') as [p'|] eqn:Ep; [|done]. cbn. rewrite lookup_insert_ne; [done|]. intros ->.
    apply Hd. by eapply pt_inj.
Qed.

Lemma with_def_ptrs p def q : ptrs_ok q -> ptrs_ok (with_def p def q).
Proof.
  intros [P1 P2]. split; [|done]. intros n' p' Hn'. cbn. rewrite lookup_insert. case_decide; [eauto|by eapply P1].
Qed.

Lemma in_tables q n def : cat_map q !! n = Some def -> ∃ p, q_tables q !! n = Some p ∧ q_defs q !! p = Some def.
Proof. rewrite lookup_cat_map. destruct (q_tables q !! n) as [p|]; [|done]. eauto. Qed.

Lemma names_ok_same m m' A n def : names_ok m A -> ca_Tables m' = ca_Tables m -> is_Some (A !! n) -> names_ok m' (<[n := def]> A).
Proof.
  intros [Hn1 Hn2] Et Hn. split; rewrite Et; [done|]. intros n'. rewrite Hn2, lookup_insert. case_decide; [|done]. subst. naive_solver.
Qed.

(** A key in the keyspace of an index of another id. *)
Lemma other_space def ix k id s :
  is_u64 (ix_ID ix) -> is_u64 id -> ix_ID ix ≠ id -> k = secondarySpace id ++ s -> ¬ in_space def (Some ix) k.
Proof.
  intros Hu Hu' Hne -> [s' Hs]. cbn [index_space] in Hs. unfold secondarySpace in Hs.
  apply (f_equal (drop 1)) in Hs. cbn [drop app] in Hs. apply app_inj_len in Hs as [Hs _]; [|by rewrite !length_be].
  apply Hne. symmetry. by apply be8_inj.
Qed.

(** The derived operations of a change to one table's indexes. *)
Definition index_ops_of (q : SqlStore B) (n : string) (so : list BatchOp) : Prop :=
  ∀ op, op ∈ so -> ∃ id s, bo_Key op = secondarySpace id ++ s ∧ is_u64 id ∧
    ∀ n' def' ix', n' ≠ n -> cat_map q !! n' = Some def' -> ix' ∈ td_Indexes def' -> ix_ID ix' ≠ id.

Lemma index_ops_others q n so n' def' rows :
  cat_wf (q_meta q) (cat_map q) -> index_ops_of q n so -> n' ≠ n -> cat_map q !! n' = Some def' ->
  derived_ok (sql_contents q) def' rows -> derived_ok (apply_batch so (sql_contents q)) def' rows.
Proof.
  intros Hw Hso Hne Hn'. apply derived_ext. intros idx k Hi Hsp. apply apply_batch_notin. intros op Hop <-.
  destruct (Hso op Hop) as (id & s & Hk & Hu & Hoth). destruct idx as [ix|].
  - destruct (cat_u64 _ _ _ _ Hw Hn') as [_ [Hus _]]. rewrite Forall_forall in Hus. cbn in Hi.
    eapply (other_space def' ix); [by apply Hus|exact Hu|by eapply Hoth|exact Hk|exact Hsp].
  - apply scan_space in Hsp as [s' Hs']. rewrite Hk in Hs'. done.
Qed.

Lemma redefine_ok O q st T n p def updated m' so :
  db_ok O q st T -> keys_apart (s_ck (q_led q)) (O ++ row_keys T) ->
  q_tables q !! n = Some p -> q_defs q !! p = Some def ->
  td_ID updated = td_ID def -> td_Columns updated = td_Columns def -> td_Name updated = td_Name def ->
  fits_beside m' (cat_map q) n updated -> counters_le (q_meta q) m' -> ca_Tables m' = ca_Tables (q_meta q) ->
  meta_fits m' -> table_fits updated -> Forall derived_op so -> index_ops_of q n so ->
  derived_ok (apply_batch so (sql_contents q)) updated (trows T (td_ID def)) ->
  spaces_fresh m' (apply_batch so (sql_contents q)) ->
  batch_pre (q_led q) st (catalogOps m' [updated]) ->
  ∃ q1, sqlCommit (catalogOps m' [updated]) so q = (Ok tt, q1) ∧ q_meta q1 = q_meta q ∧
    let q' := with_def p updated (set_meta m' q1) in
    db_ok O q' (after_state (q_led q) st (catalogOps m' [updated])) T ∧ q_meta q' = m' ∧ cat_map q' = <[n := updated]> (cat_map q).
Proof.
  intros Hdb Hap Hn Hd Eid Ecols Ename Hfb Hcl Htabs Hmf Htf Hso Hix Hder Hfr Hb.
  pose proof (db_cat _ _ _ _ Hdb) as Hw. pose proof (db_ptrs _ _ _ _ Hdb) as Hp.
  assert (cat_map q !! n = Some def) as Hm by (by rewrite lookup_cat_map, Hn).
  pose proof (cw_name _ _ Hw _ _ Hm) as Hname.
  destruct (so_repr _ _ _ _ (db_sql _ _ _ _ Hdb)) as [ot Hr].
  destruct (sqlCommit_ok q ot st (catalogOps m' [updated]) so Hr Hb Hso) as (q1 & E1 & Hc). exists q1.
  destruct (committed_fields _ _ _ _ _ Hc) as (Fm & Fd & Ft). split; [done|]. split; [done|]. intros q'.
  set (A' := <[n := updated]> (cat_map q)).
  assert (ptrs_ok (set_meta m' q1)) as Hp1 by (by eapply (ptrs_ok_ext q)).
  assert (cat_map q' = A') as Hmap.
  { unfold q'. rewrite (with_def_map n) by (cbn; congruence || done). unfold A'. f_equal. by apply cat_map_ext. }
  assert (cat_wf m' A') as Hw'.
  { eapply (cat_wf_put (q_meta q) m' (cat_map q)); try done. apply (names_ok_same (q_meta q)); [by apply cat_names|done|eauto]. }
  assert (cat_keys O A') as Hk.
  { destruct (db_keys _ _ _ _ Hdb) as [K1 K2 K3 K4 K5]. split; [done| | |done|done].
    - intros n' d [[<- <-]|[_ Hn']]%lookup_insert_Some; [rewrite Ename|]; by eapply K2.
    - intros n' d [[<- <-]|[_ Hn']]%lookup_insert_Some; [rewrite Eid|]; by eapply K3. }
  destruct (catalog_stored O q st T m' updated A' [] Hdb Hap Hk Hw') as [Hlo Hps];
    [rewrite Ename, Hname; apply lookup_insert_eq|constructor| |done..|].
  { intros n' d. rewrite Ename, Hname. intros Hne. unfold A'. by rewrite lookup_insert_ne. }
  rewrite app_nil_r in *. split_and!; [|done..].
  eapply (db_after O q q1 q' st T m' A' _ so Hdb Hap Hlo Hc); try done; [by apply with_def_ptrs|..].
  - intros n' d pk r Hn' _. destruct (decide (n' = n)) as [->|Hne].
    + exists n, updated. split; [apply lookup_insert_eq|]. split; congruence.
    + exists n', d. split; [|done]. unfold A'. by rewrite lookup_insert_ne.
  - intros n' d. unfold A'. intros [[<- <-]|[Hne Hn']]%lookup_insert_Some; [by rewrite Eid|].
    eapply index_ops_others; [done|done|by apply not_eq_sym|done|].
    apply (so_derived _ _ _ _ (db_sql _ _ _ _ Hdb)). apply catalog_iff; [done|]. eauto.
Qed.

(** ** Indexes with the same entries *)

(** Every index of [updated] has the id and the columns of one of [def]. *)
Definition indexes_of (def updated : tableDef) : Prop :=
  ∀ ix, ix ∈ td_Indexes updated -> ∃ ix0, ix0 ∈ td_Indexes def ∧ ix_ID ix = ix_ID ix0 ∧ ix_ColOrds ix = ix_ColOrds ix0.

Lemma same_entries D def updated rows :
  td_ID updated = td_ID def -> td_Columns updated = td_Columns def -> indexes_of def updated ->
  derived_ok D def rows -> derived_ok D updated rows.
Proof.
  intros Eid Ecols Hix Hd [ix|] k v Hi Hsp.
  - destruct (Hix ix Hi) as (ix0 & Hin & Ei & Eo).
    assert (∀ r pk, entry_at updated (Some ix) r pk = entry_at def (Some ix0) r pk) as He.
    { intros r pk. cbn [entry_at]. unfold index_key, encodeIndexCols. by rewrite Ei, Eo, Ecols. }
    assert (in_space def (Some ix0) k) as Hsp0 by (unfold in_space in *; cbn [index_space] in *; by rewrite <-Ei).
    rewrite (Hd (Some ix0) k v Hin Hsp0). by setoid_rewrite He.
  - assert (in_space def None k) as Hsp0 by (unfold in_space in *; cbn [index_space] in *; by rewrite <-Eid).
    rewrite (Hd None k v I Hsp0). cbn. by rewrite Eid.
Qed.

Lemma same_beside m A n def updated :
  cat_wf m A -> A !! n = Some def -> td_ID updated = td_ID def -> td_Name updated = td_Name def ->
  td_PKOrds updated = td_PKOrds def -> td_Columns updated = td_Columns def -> indexes_of def updated ->
  NoDup (ix_ID <$> td_Indexes updated) -> fits_beside m A n updated.
Proof.
  intros Hw Hn Eid Ename Epk Ecols Hix Hnd. split; try done.
  - rewrite Ename. by eapply cw_name.
  - intros n' d Hne Hd Heq. apply Hne. eapply (cw_id _ _ Hw); [done..|]. congruence.
  - intros n' d ix ix' Hne Hd (ix0 & Hin & Ei & _)%Hix Hix' Heq. apply Hne. eapply (cw_ix _ _ Hw); [exact Hd|exact Hn|done..|congruence].
  - rewrite Eid. by eapply cw_id_lt.
  - intros ix (ix0 & Hin & -> & _)%Hix. by eapply cw_ix_lt.
  - destruct (cw_defs _ _ Hw _ _ Hn) as [D1 D2]. split; [by rewrite Epk|]. intros ix ord (ix0 & Hin & _ & ->)%Hix. rewrite Ecols. eauto.
Qed.

Lemma counters_refl m A : cat_wf m A -> counters_le m m.
Proof. intros Hw. destruct (cw_u64 _ _ Hw). unfold counters_le. split_and!; [lia|lia|done..]. Qed.

Lemma set_meta_same q m : q_meta q = m -> set_meta m q = q.
Proof. intros <-. by destruct q. Qed.

Lemma deref_ok p q def : q_defs q !! p = Some def -> deref p q = (Ok def, q).
Proof. intros Hd. unfold deref. by rewrite bind_gets, Hd. Qed.

(** ** RENAME INDEX *)

Lemma elem_of_alter {X} (f : X -> X) i (l : list X) x : x ∈ alter f i l -> x ∈ l ∨ ∃ y, y ∈ l ∧ x = f y.
Proof.
  intros [j Hj]%list_elem_of_lookup. rewrite list_lookup_alter in Hj. case_decide.
  - subst j. destruct (l !! i) as [y|] eqn:Ey; [|done]. injection Hj as <-. right. exists y. split; [by eapply list_elem_of_lookup_2|done].
  - left. by eapply list_elem_of_lookup_2.
Qed.

Definition rename_index (pos : nat) (to : string) (def : tableDef) : tableDef :=
  set_Indexes (alter (set_IndexName to) pos (td_Indexes def)) def.

Lemma rename_index_of def pos to : indexes_of def (rename_index pos to def) ∧ ix_ID <$> td_Indexes (rename_index pos to def) = ix_ID <$> td_Indexes def.
Proof.
  split.
  - intros ix [Hin|(ix0 & Hin & ->)]%elem_of_alter; eauto.
  - unfold rename_index, set_Indexes. cbn [td_Indexes]. apply list_eq. intros i. rewrite !list_lookup_fmap, list_lookup_alter.
    case_decide; [subst|done]. by destruct (td_Indexes def !! i).
Qed.

Lemma renameIndex_ok O q st T n p def from to pos :
  db_ok O q st T -> keys_apart (s_ck (q_led q)) (O ++ row_keys T) ->
  q_tables q !! n = Some p -> q_defs q !! p = Some def -> index_named from def = Some pos ->
  let updated := rename_index pos to def in
  table_fits updated -> batch_pre (q_led q) st (catalogOps (q_meta q) [updated]) ->
  ∃ q' st', renameIndex p from to q = (Ok tt, q') ∧ db_ok O q' st' T ∧ q_meta q' = q_meta q ∧ cat_map q' = <[n := updated]> (cat_map q).
Proof.
  intros Hdb Hap Hn Hd Hpos updated Htf Hb. pose proof (db_cat _ _ _ _ Hdb) as Hw.
  assert (cat_map q !! n = Some def) as Hm by (by rewrite lookup_cat_map, Hn).
  destruct (rename_index_of def pos to) as [Hix Hids]. fold updated in Hix, Hids.
  destruct (redefine_ok O q st T n p def updated (q_meta q) [] Hdb Hap Hn Hd) as (q1 & E1 & Fm & Hdb' & Hm' & Hc'); try done.
  - apply (same_beside _ _ _ def); try done. rewrite Hids. by eapply cw_nodup.
  - by eapply counters_refl.
  - apply (db_stored _ _ _ _ Hdb).
  - by intros op ?%not_elem_of_nil.
  - apply (same_entries _ def); try done. apply (so_derived _ _ _ _ (db_sql _ _ _ _ Hdb)). apply catalog_iff; eauto.
  - apply (db_fresh _ _ _ _ Hdb).
  - eexists _, _. split; [|done]. unfold renameIndex. rewrite (bind_ok _ _ _ _ _ (deref_ok _ _ _ Hd)), Hpos, bind_gets.
    cbn zeta. fold (rename_index pos to def). fold updated. rewrite (bind_ok _ _ _ _ _ E1). unfold store_def, modify.
    do 2 f_equal. by rewrite set_meta_same.
Qed.

(** ** DROP INDEX *)

Abbreviation index_start id := (secondarySpace id).
Abbreviation index_stop id := (default [] (incBytes (secondarySpace id))).

Lemma index_range id k : in_range (index_start id) (index_stop id) k ↔ secondarySpace id `prefix_of` k.
Proof.
  destruct (incBytes_space secondaryPrefix (be 8 id)) as [stop Hinc]; [done|].
  change (secondaryPrefix :: be 8 id) with (secondarySpace id) in Hinc. rewrite Hinc. change (default [] (Some stop)) with stop.
  unfold in_range. rewrite <-(incBytes_range _ _ k Hinc). split; [|naive_solver].
  intros [Hle [->|Hlt]]; [|done]. by apply incBytes_lt in Hinc.
Qed.

Lemma index_keys_ok rounds next stop ops q :
  length (scan_spec (sql_contents q) next stop 0) < N.to_nat scanChunkSize * rounds ->
  ∃ q', index_keys rounds next stop ops q =
    (Ok (ops ++ ((λ kv, bdel (kv_Key kv)) <$> scan_spec (sql_contents q) next stop 0)), q') ∧ sreads q q'.
Proof.
  revert next ops q. induction rounds as [|rounds IH]; intros next ops q Hf; [lia|]. cbn [index_keys].
  destruct (db_scan_ok next stop scanChunkSize q) as (q1 & E1 & R1). rewrite (bind_ok _ _ _ _ _ E1).
  pose proof (scan_chunk (sql_contents q) next stop _ eq_refl) as Hc. case_decide as Hl.
  - exists q1. by rewrite Hc.
  - destruct Hc as (kv & El & Es). rewrite El.
    destruct (IH (after_key (kv_Key kv)) (ops ++ ((λ kv, bdel (kv_Key kv)) <$> scan_spec (sql_contents q) next stop scanChunkSize)) q1)
      as (q2 & E2 & R2).
    + rewrite (sreads_contents _ _ R1). rewrite Es, length_app in Hf. lia.
    + exists q2. rewrite E2, (sreads_contents _ _ R1), Es, fmap_app, app_assoc. split; [done|by etrans].
Qed.

Lemma length_omap {X Y} (f : X -> option Y) l : length (omap f l) ≤ length l.
Proof.
  induction l as [|x l IHl]; [done|]. cbn [omap list_omap length]. destruct (f x); cbn [length]; [by apply le_n_S|by apply le_S].
Qed.

(** An index has one entry per row. *)
Lemma index_scan_length D def ix rows :
  derived_ok D def rows -> ix ∈ td_Indexes def ->
  length (scan_spec D (index_start (ix_ID ix)) (index_stop (ix_ID ix)) 0) ≤ size rows.
Proof.
  intros Hd Hix.
  assert (∀ k, in_range (index_start (ix_ID ix)) (index_stop (ix_ID ix)) k -> in_space def (Some ix) k) as Hr by (intros k; apply index_range).
  pose proof (f_equal length (scan_derived D def (Some ix) _ _ rows Hd Hix Hr)) as Hl. rewrite !length_fmap in Hl. rewrite Hl.
  unfold spec_entries. rewrite merge_sort_Permutation. rewrite <-(length_map_to_list rows).
  apply length_omap.
Qed.

Definition drop_index (pos : nat) (def : tableDef) : tableDef :=
  set_Indexes (take pos (td_Indexes def) ++ drop (S pos) (td_Indexes def)) def.

Lemma drop_index_of def pos ix :
  td_Indexes def !! pos = Some ix -> NoDup (ix_ID <$> td_Indexes def) ->
  indexes_of def (drop_index pos def) ∧ NoDup (ix_ID <$> td_Indexes (drop_index pos def)) ∧
  ∀ ix', ix' ∈ td_Indexes (drop_index pos def) -> ix_ID ix' ≠ ix_ID ix.
Proof.
  intros Hpos Hnd. unfold drop_index, set_Indexes, indexes_of. cbn [td_Indexes]. set (l := td_Indexes def) in *.
  rewrite <-(take_drop_middle _ _ _ Hpos), fmap_app, fmap_cons in Hnd.
  apply NoDup_app in Hnd as (N1 & N2 & [N3 N4]%NoDup_cons). split_and!.
  - intros ix' Hin. exists ix'. split; [|done]. rewrite <-(take_drop_middle _ _ _ Hpos).
    apply elem_of_app in Hin as [?|?]; apply elem_of_app; [by left|right; by right].
  - rewrite fmap_app. apply NoDup_app. split_and!; [done| |done]. intros x Hx Hx'. apply (N2 x Hx). by right.
  - intros ix' [Hin|Hin]%elem_of_app Heq.
    + apply (N2 (ix_ID ix')); [by apply list_elem_of_fmap_2|]. rewrite Heq. left.
    + apply N3. rewrite <-Heq. by apply list_elem_of_fmap_2.
Qed.

(** The derived operations that remove the entries of an index. *)
Definition drop_entries (D : gmap bytes bytes) (id : N) : list BatchOp :=
  (λ kv, bdel (kv_Key kv)) <$> scan_spec D (index_start id) (index_stop id) 0.

Lemma elem_of_drop_entries D id op :
  op ∈ drop_entries D id ↔ ∃ k v, op = bdel k ∧ D !! k = Some v ∧ secondarySpace id `prefix_of` k.
Proof.
  unfold drop_entries. rewrite list_elem_of_fmap. setoid_rewrite elem_of_scan. setoid_rewrite index_range. split.
  - intros ([k v] & -> & Hp & Hv). eauto.
  - intros (k & v & -> & Hv & Hp). by exists (MkKV k v).
Qed.

Lemma drop_entries_at D id k :
  apply_batch (drop_entries D id) D !! k = if decide (secondarySpace id `prefix_of` k) then None else D !! k.
Proof.
  case_decide as Hp.
  - destruct (D !! k) as [v|] eqn:Hv.
    + apply apply_batch_in; [exists (bdel k); split; [|done]; apply elem_of_drop_entries; eauto|].
      intros op (k' & v' & -> & _)%elem_of_drop_entries _. done.
    + rewrite apply_batch_notin; [done|]. intros op (k' & v' & -> & Hv' & _)%elem_of_drop_entries Hk. cbn in Hk. congruence.
  - apply apply_batch_notin. intros op (k' & v' & -> & _ & Hp')%elem_of_drop_entries Hk. cbn in Hk. by subst.
Qed.

Lemma fresh_sub m (D D' : gmap bytes bytes) : (∀ k, D !! k = None -> D' !! k = None) -> spaces_fresh m D -> spaces_fresh m D'.
Proof. intros Hs [F1 F2]. split; intros; apply Hs; [by apply F1|by apply F2]. Qed.

Lemma sreads_fields q q' :
  sreads q q' -> q_meta q' = q_meta q ∧ q_defs q' = q_defs q ∧ q_tables q' = q_tables q ∧ s_ck (q_led q') = s_ck (q_led q).
Proof. intros [R ->]. cbn. split_and!; [done..|]. apply (reads_fields _ _ R). Qed.

Lemma db_ok_reads O q q' st T : sreads q q' -> db_ok O q st T -> db_ok O q' st T.
Proof.
  intros R [D1 D2 D3 D4 D5 D6]. destruct (sreads_fields _ _ R) as (Fm & Fd & Ft & Fk).
  assert (cat_map q' = cat_map q) as Ec by (by apply cat_map_ext). split; rewrite ?Fm, ?Ec, ?Fk, ?(sreads_contents _ _ R); try done.
  - by eapply sql_ok_reads.
  - by eapply ptrs_ok_ext.
Qed.

Lemma dropIndex_ok O q st T n p def name pos ix rounds :
  db_ok O q st T -> keys_apart (s_ck (q_led q)) (O ++ row_keys T) ->
  q_tables q !! n = Some p -> q_defs q !! p = Some def -> index_named name def = Some pos -> td_Indexes def !! pos = Some ix ->
  let updated := drop_index pos def in
  size (trows T (td_ID def)) < N.to_nat scanChunkSize * rounds ->
  table_fits updated -> batch_pre (q_led q) st (catalogOps (q_meta q) [updated]) ->
  ∃ q' st', dropIndex rounds p name q = (Ok tt, q') ∧ db_ok O q' st' T ∧ q_meta q' = q_meta q ∧ cat_map q' = <[n := updated]> (cat_map q).
Proof.
  intros Hdb Hap Hn Hd Hpos Hix updated Hrounds Htf Hb. pose proof (db_cat _ _ _ _ Hdb) as Hw.
  assert (cat_map q !! n = Some def) as Hm by (by rewrite lookup_cat_map, Hn).
  assert (ix ∈ td_Indexes def) as Hin by (by eapply list_elem_of_lookup_2).
  destruct (drop_index_of def pos ix Hix (cw_nodup _ _ Hw _ _ Hm)) as (Hof & Hnd & Hne). fold updated in Hof, Hnd, Hne.
  assert (derived_ok (sql_contents q) def (trows T (td_ID def))) as Hder.
  { apply (so_derived _ _ _ _ (db_sql _ _ _ _ Hdb)). apply catalog_iff; eauto. }
  destruct (cat_u64 _ _ _ _ Hw Hm) as [_ [Hus _]]. rewrite Forall_forall in Hus.
  pose proof (index_scan_length _ _ ix _ Hder Hin) as Hlen.
  destruct (index_keys_ok rounds (index_start (ix_ID ix)) (index_stop (ix_ID ix)) [] q) as (q0 & E0 & R0); [lia|].
  cbn [app] in E0. change (_ <$> scan_spec _ _ _ _) with (drop_entries (sql_contents q) (ix_ID ix)) in E0.
  set (so := drop_entries (sql_contents q) (ix_ID ix)) in *. destruct (sreads_fields _ _ R0) as (Fm & Fd & Ft & Fk).
  pose proof (db_ok_reads _ _ _ _ _ R0 Hdb) as Hdb0. pose proof (cat_map_ext _ _ Ft Fd) as Ec. pose proof (sreads_contents _ _ R0) as Eq.
  destruct (redefine_ok O q0 st T n p def updated (q_meta q) so Hdb0) as (q1 & E1 & Fm1 & Hdb' & Hm' & Hc');
    rewrite ?Fk, ?Ft, ?Fd, ?Fm, ?Ec, ?Eq; try done.
  - apply (same_beside _ _ _ def); try done.
  - by eapply counters_refl.
  - apply (db_stored _ _ _ _ Hdb).
  - apply Forall_forall. intros op (k & v & -> & _ & [s ->])%elem_of_drop_entries. right. by right.
  - intros op (k & v & -> & _ & [s ->])%elem_of_drop_entries. exists (ix_ID ix), s. split; [done|]. split; [by apply Hus|].
    intros n' def' ix' Hne' Hn'. rewrite Ec in Hn'. intros Hix' Heq. apply Hne'. by eapply (cw_ix _ _ Hw).
  - apply (derived_ext (sql_contents q)); [|by apply (same_entries _ def)].
    intros [ix'|] k Hi Hsp; unfold so; rewrite drop_entries_at, decide_False; try done.
    + intros [s ->]. cbn in Hi. eapply (other_space updated ix'); [|by apply (Hus ix Hin)|by apply Hne|reflexivity|exact Hsp].
      destruct (Hof ix' Hi) as (ix0 & Hin0 & -> & _). by apply Hus.
    + intros [s ->]. by apply scan_space in Hsp as [s' ?].
  - eapply fresh_sub, (db_fresh _ _ _ _ Hdb). intros k Hk. unfold so. rewrite drop_entries_at. by case_decide.
  - apply (batch_reads _ _ st _ (proj1 R0)). exact Hb.
  - eexists _, _. split; [|rewrite Ec in Hc'; done]. unfold dropIndex. rewrite (bind_ok _ _ _ _ _ (deref_ok _ _ _ Hd)), Hpos, bind_gets, Hix.
    cbn zeta. fold (drop_index pos def). fold updated. rewrite (bind_ok _ _ _ _ _ E0), (bind_ok _ _ _ _ _ E1). unfold store_def, modify.
    do 2 f_equal. rewrite set_meta_same; [done|congruence].
Qed.

(** ** CREATE INDEX *)

Lemma colByName_lt def n i : colByName def !! n = Some i -> i < length (td_Columns def).
Proof.
  unfold colByName. set (l := imap pair (td_Columns def)).
  assert (Forall (λ ic, ic.1 < length (td_Columns def)) l) as Hl.
  { apply Forall_lookup. intros j [i' c] Hj. unfold l in Hj. rewrite list_lookup_imap in Hj.
    destruct (td_Columns def !! j) as [c'|] eqn:Ec; [|done]. injection Hj as <- <-. cbn. by eapply lookup_lt_Some. }
  clearbody l. assert (∀ (cs : gmap string nat), (∀ n i, cs !! n = Some i -> i < length (td_Columns def)) ->
    ∀ n i, foldl (λ (cs : gmap string nat) ic, <[ToLower (cd_Name ic.2) := ic.1]> cs) cs l !! n = Some i -> i < length (td_Columns def)) as Hf.
  { induction Hl as [|[i' c] l Hi Hl IH]; intros cs Hm; cbn [foldl]; [done|]. apply IH. intros n' j.
    rewrite lookup_insert. case_decide; [by intros [= <-]|by apply Hm]. }
  apply Hf. intros n' j. by rewrite lookup_empty.
Qed.

Lemma index_ordinals_lt def columns ords :
  mapO (index_ordinal (colByName def)) columns = Ok ords -> Forall (λ o, o < length (td_Columns def)) ords.
Proof.
  revert ords. induction columns as [|c columns IH]; intros ords; cbn [mapO]; [intros [= <-]; constructor|].
  destruct (index_ordinal (colByName def) c) as [o|e|w] eqn:Eo; cbn [mbind outcome_bind]; try done.
  destruct (mapO _ columns) as [os|e|w]; cbn [mbind outcome_bind]; try done. intros [= <-]. constructor; [|by apply IH].
  unfold index_ordinal in Eo. destruct (colByName def !! ToLower (ic_Name c)) as [o'|] eqn:Ec; [|done].
  case_decide; [done|]. injection Eo as <-. by eapply colByName_lt.
Qed.

Definition add_index (idx : indexDef) (def : tableDef) : tableDef := set_Indexes (td_Indexes def ++ [idx]) def.
Definition index_meta m : catalogMeta := MkMeta (ca_NextTableID m) (wrap64 (ca_NextIndexID m + 1)) (ca_Tables m).

(** The entries of the rows of a table in a new index. *)
Section new_index.
Variables (D : gmap bytes bytes) (def : tableDef) (idx : indexDef) (rows : gmap bytes row) (l : list (bytes * row)).
Hypothesis Hl : ∀ pk r, (pk, r) ∈ l ↔ rows !! pk = Some r.
Hypothesis Henc : ∀ pk r, (pk, r) ∈ l -> is_ok (encodeIndexCols def idx r) = true.
Hypothesis Hu : is_u64 (ix_ID idx).
Abbreviation so := (index_put def idx <$> l).

Lemma elem_of_entries op : op ∈ so ↔ ∃ pk r k, rows !! pk = Some r ∧ index_key def idx r pk = Ok k ∧ op = bput k pk.
Proof.
  rewrite list_elem_of_fmap. unfold index_put, index_key. split.
  - intros ([pk r] & -> & Hin). specialize (Henc pk r Hin). cbn [snd fst] in *.
    destruct (encodeIndexCols def idx r) as [[c h]|e|w] eqn:Ee; try done. exists pk, r, (secondarySpace (ix_ID idx) ++ c ++ pk).
    split; [by apply Hl|]. rewrite Ee. done.
  - intros (pk & r & k & Hr & Hk & ->). exists (pk, r). split; [|by apply Hl]. cbn [snd fst].
    destruct (encodeIndexCols def idx r) as [[c h]|e|w]; try done. cbn in Hk. by injection Hk as <-.
Qed.

Lemma entries_space op : op ∈ so -> ∃ s, bo_Key op = secondarySpace (ix_ID idx) ++ s.
Proof.
  intros (pk & r & k & _ & Hk & ->)%elem_of_entries. apply (entry_at_space def (Some idx)) in Hk as [s ->]. by exists s.
Qed.

Lemma entries_elsewhere k : ¬ secondarySpace (ix_ID idx) `prefix_of` k -> apply_batch so D !! k = D !! k.
Proof. intros Hk. apply apply_batch_notin. intros op (s & Hs)%entries_space <-. apply Hk. rewrite Hs. by eexists. Qed.

Lemma entries_at k v :
  (∀ s, D !! (secondarySpace (ix_ID idx) ++ s) = None) -> secondarySpace (ix_ID idx) `prefix_of` k ->
  apply_batch so D !! k = Some v ↔ ∃ pk r, rows !! pk = Some r ∧ index_key def idx r pk = Ok k ∧ v = pk.
Proof.
  intros Hnew [s ->]. set (k := secondarySpace (ix_ID idx) ++ s).
  assert (∀ pk r, rows !! pk = Some r -> index_key def idx r pk = Ok k -> apply_batch so D !! k = Some pk) as Hput.
  { intros pk r Hr Hk. apply apply_batch_in.
    - exists (bput k pk). split; [|done]. apply elem_of_entries. eauto 10.
    - intros op (pk' & r' & k' & Hr' & Hk' & ->)%elem_of_entries Hkey. cbn in Hkey |- *. subst k'.
      f_equal. by eapply (index_key_inj def idx r' r). }
  split.
  - intros Hv. destruct (decide (Exists (λ op, bo_Key op = k) so)) as [(op & Hop & Hk)%Exists_exists|Hno].
    + apply elem_of_entries in Hop as (pk & r & k' & Hr & Hk' & ->). cbn in Hk. subst k'. exists pk, r. split_and!; [done..|].
      rewrite (Hput pk r Hr Hk') in Hv. by injection Hv.
    + rewrite apply_batch_notin in Hv; [assert (D !! k = None) by apply Hnew; congruence|]. intros op Hop Hk. apply Hno, Exists_exists. eauto.
  - intros (pk & r & Hr & Hk & ->). by eapply Hput.
Qed.

Lemma new_index_derived :
  derived_ok D def rows -> (∀ s, D !! (secondarySpace (ix_ID idx) ++ s) = None) ->
  (∀ ix, ix ∈ td_Indexes def -> is_u64 (ix_ID ix) ∧ ix_ID ix ≠ ix_ID idx) ->
  derived_ok (apply_batch so D) (add_index idx def) rows.
Proof.
  intros Hd Hnew Hix [ix|] k v Hi Hsp.
  - cbn in Hi. apply elem_of_app in Hi as [Hi|Hi%list_elem_of_singleton].
    + destruct (Hix ix Hi) as [Hui Hne]. rewrite entries_elsewhere; [by apply (Hd (Some ix))|]. intros [s ->].
      exact (other_space (add_index idx def) ix _ _ s Hui Hu Hne eq_refl Hsp).
    + subst ix. by apply entries_at.
  - rewrite entries_elsewhere; [by apply (Hd None)|]. intros [s ->]. by apply scan_space in Hsp as [s' ?].
Qed.

Lemma new_index_fresh m :
  spaces_fresh m D -> ix_ID idx = ca_NextIndexID m -> is_u64 (ca_NextIndexID m + 1) -> spaces_fresh (index_meta m) (apply_batch so D).
Proof.
  intros [F1 F2] Hid Hroom. split; intros id s Hui; cbn [index_meta ca_NextTableID ca_NextIndexID]; rewrite ?wrap64_small by done; intros Hle.
  - rewrite entries_elsewhere; [by apply F1|]. by intros [s' ?].
  - rewrite entries_elsewhere; [apply F2; [done|lia]|]. intros Hp.
    eapply (other_space def (MkIndex (ix_ID idx) EmptyString false [])); [exact Hu|exact Hui| |reflexivity|exact Hp]. cbn. lia.
Qed.
End new_index.

(** The rows of a table as a scan of its row keyspace lists them. *)
Definition table_rows (D : gmap bytes bytes) (def : tableDef) (rows : gmap bytes row) : list (bytes * row) :=
  row_of rows <$> scan_spec D (scanKey (td_ID def) []) (default [] (incBytes (scanKey (td_ID def) []))) 0.

Lemma elem_of_table_rows D def rows pk r :
  derived_ok D def rows -> (pk, r) ∈ table_rows D def rows ↔ rows !! pk = Some r.
Proof.
  intros Hd. unfold table_rows. rewrite list_elem_of_fmap. setoid_rewrite (elem_of_row_scan D def rows _ Hd). unfold row_of. split.
  - intros (kv & Heq & pk' & r' & Hr & ->). cbn [kv_Key] in Heq. rewrite drop_scanKey, Hr in Heq. by injection Heq as -> ->.
  - intros Hr. exists (MkKV (scanKey (td_ID def) pk) []). split; [cbn [kv_Key]; by rewrite drop_scanKey, Hr|]. eauto.
Qed.

Lemma table_scan_length D def rows : derived_ok D def rows ->
  length (scan_spec D (scanKey (td_ID def) []) (default [] (incBytes (scanKey (td_ID def) []))) 0) ≤ size rows.
Proof.
  intros Hd. assert (∀ k, in_range (scanKey (td_ID def) []) (default [] (incBytes (scanKey (td_ID def) []))) k -> in_space def None k) as Hr
    by (intros k; apply row_range).
  pose proof (f_equal length (scan_derived D def None _ _ rows Hd I Hr)) as Hl. rewrite !length_fmap in Hl. rewrite Hl.
  unfold spec_entries. rewrite merge_sort_Permutation. rewrite <-(length_map_to_list rows). apply length_omap.
Qed.

Lemma table_rows_fit O q st T def :
  db_ok O q st T -> catalog q (td_ID def) = Some def ->
  (∀ pk r, trows T (td_ID def) !! pk = Some r -> row_fits def r) ∧
  Forall (of_rows (s_ck (q_led q)) st def (trows T (td_ID def)))
    (scan_spec (sql_contents q) (scanKey (td_ID def) []) (default [] (incBytes (scanKey (td_ID def) []))) 0).
Proof.
  intros Hdb Hc. pose proof (db_sql _ _ _ _ Hdb) as Hok.
  assert (∀ pk r, trows T (td_ID def) !! pk = Some r -> row_fits def r ∧
    st !! pathOf (s_ck (q_led q)) (rowKey (td_ID def) pk) = Some (row_payload def (row_enc def r))) as Hf.
  { intros pk r Hr. rewrite lookup_trows in Hr. destruct (so_rows _ _ _ _ Hok _ _ _ Hr) as (def' & Hc' & ? & ?).
    rewrite Hc in Hc'. by injection Hc' as <-. }
  split; [intros pk r Hr; by eapply Hf|]. apply Forall_forall. intros kv.
  rewrite (elem_of_row_scan _ def (trows T (td_ID def))) by by apply (so_derived _ _ _ _ Hok).
  intros (pk & r & Hr & ->). exists pk, r. destruct (Hf pk r Hr). done.
Qed.

Lemma add_index_beside m A n def idx :
  cat_wf m A -> A !! n = Some def -> ix_ID idx = ca_NextIndexID m -> is_u64 (ca_NextIndexID m + 1) ->
  Forall (λ o, o < length (td_Columns def)) (ix_ColOrds idx) -> fits_beside (index_meta m) A n (add_index idx def).
Proof.
  intros Hw Hn Hid Hroom Hords. rewrite Forall_forall in Hords.
  assert (∀ n' d ix, A !! n' = Some d -> ix ∈ td_Indexes d -> (ix_ID ix < ix_ID idx)%N) as Hlt.
  { intros n' d ix Hd Hix. rewrite Hid. by eapply (cw_ix_lt _ _ Hw). }
  split; cbn [add_index set_Indexes td_ID td_Name td_Indexes index_meta ca_NextTableID ca_NextIndexID].
  - by eapply cw_name.
  - intros n' d Hne Hd Heq. apply Hne. by eapply (cw_id _ _ Hw).
  - intros n' d ix ix' Hne Hd [Hix|Hix%list_elem_of_singleton]%elem_of_app Hix' Heq.
    + apply Hne. by eapply (cw_ix _ _ Hw); [exact Hd|exact Hn|..].
    + subst. specialize (Hlt _ _ _ Hd Hix'). lia.
  - rewrite fmap_app. apply NoDup_app. split_and!; [by eapply cw_nodup| |apply NoDup_singleton].
    intros x (ix & -> & Hix)%list_elem_of_fmap Hx%list_elem_of_singleton. specialize (Hlt _ _ _ Hn Hix). lia.
  - by eapply cw_id_lt.
  - rewrite wrap64_small by done. intros ix [Hix|Hix%list_elem_of_singleton]%elem_of_app.
    + specialize (Hlt _ _ _ Hn Hix). lia. + subst. lia.
  - destruct (cw_defs _ _ Hw _ _ Hn) as [D1 D2]. split; [done|]. intros ix ord [Hix|Hix%list_elem_of_singleton]%elem_of_app; [by apply D2|].
    subst. apply Hords.
Qed.

(** Some rows of the table share a value of the unique index. *)
Definition has_clash (def : tableDef) (idx : indexDef) (rows : gmap bytes row) : Prop :=
  ∃ pk r pk' r', rows !! pk = Some r ∧ rows !! pk' = Some r' ∧ clash def idx (pk, r) (pk', r').

(** The loop on a table of the database. *)
Lemma build_table_index O q st T def idx rounds :
  db_ok O q st T -> catalog q (td_ID def) = Some def -> Forall (λ o, o < length (td_Columns def)) (ix_ColOrds idx) ->
  let rows := trows T (td_ID def) in
  size rows < N.to_nat scanChunkSize * rounds ->
  ∃ o q', build_index rounds def idx (scanKey (td_ID def) []) (default [] (incBytes (scanKey (td_ID def) []))) ([], ∅) q = (o, q') ∧
    sreads q q' ∧
    (has_clash def idx rows ∧ o = Err UniqueKeyErr ∨
     ¬ has_clash def idx rows ∧ o = Ok (index_put def idx <$> table_rows (sql_contents q) def rows) ∧
       ∀ pk r, (pk, r) ∈ table_rows (sql_contents q) def rows -> is_ok (encodeIndexCols def idx r) = true).
Proof.
  intros Hdb Hc Hords rows Hsz. pose proof (db_sql _ _ _ _ Hdb) as Hok. destruct (so_repr _ _ _ _ Hok) as [ot Hr].
  pose proof (so_derived _ _ _ _ Hok _ _ Hc) as Hd. fold rows in Hd.
  destruct (table_rows_fit O q st T def Hdb Hc) as [Hfit Hof]. fold rows in Hfit, Hof.
  pose proof (table_scan_length _ _ _ Hd) as Hlen.
  destruct (build_index_ok def idx _ st rows rounds _ _ ([], ∅) q ot Hr eq_refl Hof ltac:(lia)) as (q' & E1 & R1).
  fold (table_rows (sql_contents q) def rows) in E1. eexists _, q'. split; [exact E1|]. split; [done|].
  assert (∀ pk r, (pk, r) ∈ table_rows (sql_contents q) def rows -> is_ok (encodeIndexCols def idx r) = true) as Henc.
  { intros pk r Hin%elem_of_table_rows; [|done]. unfold encodeIndexCols. apply encode_index_total; [|done]. by apply (Hfit pk r Hin). }
  destruct (index_build_spec def idx [] ∅ [] (table_rows (sql_contents q) def rows)) as [[Hex Hb]|(Hno & seen & Hb)].
  - intros _ c pk. rewrite lookup_empty. split; [done|]. by intros (r & ?%not_elem_of_nil & _).
  - intros [pk r] Hin. by eapply Henc.
  - by intros x y ?%not_elem_of_nil.
  - left. rewrite Hb. split; [|done]. destruct Hex as ([pk r] & [pk' r'] & Hx & Hy & Hcl). exists pk, r, pk', r'.
    by rewrite <-!(elem_of_table_rows (sql_contents q) def rows) by done.
  - right. rewrite Hb. split_and!; [|done..]. intros (pk & r & pk' & r' & Hx & Hy & Hcl).
    by eapply (Hno (pk, r) (pk', r')); [apply elem_of_table_rows..|].
Qed.

Definition new_index m (name : string) (unique : bool) (ords : list nat) : indexDef := MkIndex (ca_NextIndexID m) name unique ords.

(** What is left of CREATE INDEX after its checks. *)
Lemma createIndex_run q p def name unique columns ords rounds :
  q_defs q !! p = Some def -> index_named name def = None -> mapO (index_ordinal (colByName def)) columns = Ok ords ->
  let idx := new_index (q_meta q) name unique ords in
  createIndex rounds p name unique columns q =
  (entries ← build_index rounds def idx (scanKey (td_ID def) []) (default [] (incBytes (scanKey (td_ID def) []))) ([], ∅);
   sqlCommit (catalogOps (index_meta (q_meta q)) [add_index idx def]) entries;;
   modify (set_meta (index_meta (q_meta q)));; store_def p (add_index idx def)) q.
Proof.
  intros Hd Hnone Hords idx. unfold createIndex.
  rewrite (bind_ok _ _ _ _ _ (deref_ok _ _ _ Hd)), Hnone, decide_False by (by intros []). rewrite bind_gets. unfold lift. by rewrite Hords.
Qed.

Section create_index.
Variables (O : list bytes) (q : SqlStore B) (st : gmap Hash bytes) (T : database) (n : string) (p : defptr) (def : tableDef).
Variables (name : string) (unique : bool) (columns : list indexColumn) (ords : list nat) (rounds : nat).
Hypothesis Hdb : db_ok O q st T.
Hypothesis Hn : q_tables q !! n = Some p.
Hypothesis Hd : q_defs q !! p = Some def.
Hypothesis Hnone : index_named name def = None.
Hypothesis Hords : mapO (index_ordinal (colByName def)) columns = Ok ords.
Hypothesis Hsz : size (trows T (td_ID def)) < N.to_nat scanChunkSize * rounds.
Abbreviation idx := (new_index (q_meta q) name unique ords).
Abbreviation rows := (trows T (td_ID def)).

Lemma index_table : cat_map q !! n = Some def ∧ catalog q (td_ID def) = Some def.
Proof.
  assert (cat_map q !! n = Some def) as Hm by (by rewrite lookup_cat_map, Hn). split; [done|].
  apply catalog_iff; [apply Hdb|eauto].
Qed.

Lemma createIndex_clash :
  has_clash def idx rows -> ∃ q', createIndex rounds p name unique columns q = (Err UniqueKeyErr, q') ∧ sreads q q'.
Proof.
  intros Hcl. destruct index_table as [Hm Hc]. pose proof (index_ordinals_lt _ _ _ Hords) as Hlt.
  destruct (build_table_index O q st T def idx rounds Hdb Hc Hlt Hsz) as (o & q0 & E0 & R0 & [[_ ->]|[? _]]); [|done].
  exists q0. split; [|done]. rewrite (createIndex_run q p def name unique columns ords) by done. unfold mbind at 1, M_bind at 1. by rewrite E0.
Qed.

Lemma createIndex_ok :
  ¬ has_clash def idx rows -> keys_apart (s_ck (q_led q)) (O ++ row_keys T) ->
  is_u64 (ca_NextIndexID (q_meta q) + 1) -> meta_fits (index_meta (q_meta q)) -> table_fits (add_index idx def) ->
  batch_pre (q_led q) st (catalogOps (index_meta (q_meta q)) [add_index idx def]) ->
  ∃ q' st', createIndex rounds p name unique columns q = (Ok tt, q') ∧ db_ok O q' st' T ∧
    q_meta q' = index_meta (q_meta q) ∧ cat_map q' = <[n := add_index idx def]> (cat_map q).
Proof.
  intros Hcl Hap Hroom Hmf Htf Hb. pose proof (db_cat _ _ _ _ Hdb) as Hw. destruct index_table as [Hm Hc].
  pose proof (index_ordinals_lt _ _ _ Hords) as Hlt.
  destruct (build_table_index O q st T def idx rounds Hdb Hc Hlt Hsz) as (o & q0 & E0 & R0 & [[? _]|(_ & -> & Henc)]); [done|].
  set (so := index_put def idx <$> _) in *. pose proof (so_derived _ _ _ _ (db_sql _ _ _ _ Hdb) _ _ Hc) as Hder.
  pose proof (λ pk r, elem_of_table_rows _ _ _ pk r Hder) as Hl.
  destruct (sreads_fields _ _ R0) as (Fm & Fd & Ft & Fk). pose proof (cat_map_ext _ _ Ft Fd) as Ec. pose proof (sreads_contents _ _ R0) as Eq.
  destruct (cw_u64 _ _ Hw) as [Ut Ui]. pose proof (db_fresh _ _ _ _ Hdb) as [F1 F2].
  destruct (redefine_ok O q0 st T n p def (add_index idx def) (index_meta (q_meta q)) so (db_ok_reads _ _ _ _ _ R0 Hdb))
    as (q1 & E1 & Fm1 & Hdb' & Hm' & Hc'); rewrite ?Fk, ?Ft, ?Fd, ?Fm, ?Ec, ?Eq; try done.
  - by apply add_index_beside.
  - unfold counters_le, index_meta. cbn. rewrite wrap64_small by done. split_and!; [lia|lia|done..].
  - apply Forall_forall. intros op (s & Hs)%(entries_space def idx _ _ Hl Henc). unfold derived_op. rewrite Hs. right. by right.
  - intros op (s & Hs)%(entries_space def idx _ _ Hl Henc). exists (ix_ID idx), s. split_and!; [done..|].
    rewrite Ec. intros n' def' ix' _ Hn' Hix'. pose proof (cw_ix_lt _ _ Hw _ _ _ Hn' Hix'). cbn. lia.
  - apply (new_index_derived _ _ _ _ _ Hl Henc Ui Hder).
    + intros s. apply F2; [done|reflexivity].
    + intros ix Hix. destruct (cat_u64 _ _ _ _ Hw Hm) as [_ [Hus _]]. rewrite Forall_forall in Hus. split; [auto|].
      pose proof (cw_ix_lt _ _ Hw _ _ _ Hm Hix). cbn. lia.
  - by apply (new_index_fresh _ _ _ _ _ Hl Henc Ui).
  - apply (batch_reads _ _ st _ (proj1 R0)). exact Hb.
  - eexists _, _. rewrite (createIndex_run q p def name unique columns ords) by done.
    split; [rewrite (bind_ok _ _ _ _ _ E0), (bind_ok _ _ _ _ _ E1), bind_modify; done|]. rewrite Ec in Hc'. done.
Qed.
End create_index.
End ddl_ok.
