(* ===== verification/SqlDbCommit.v ===== *)
(** Transactions on a database with its catalog.

    A commit of a transaction writes rows, counters and derived entries of tables of the
    catalog: the stored catalog stays, and so does everything [db_ok] says. *)

From S2P Require Import Prelude Errors Sha256 Hashing Node Aead Backend Cache Store Tree StoreRead Records StoreCommit StoreFrame GoNum SqlCodec SqlIndex SqlTxn SqlOverlay SqlStore Json SqlCatalog SqlScan SqlScanOk SqlCommit SqlRefine SqlTable SqlEdit SqlSession SqlRemove SqlDdl SqlIndexBuild SqlCat SqlDdlOk.

Section db_commit.
Context `{H : Hasher} `{G : GCM} `{E : Entropy} `{MR : MapRange} `{CF : CaseFold} `{QT : QueryTypes}.
Context {B : Type} `{BK : Backend B} `{!BackendSpec B} `{!BackendReliable B}.
Context `{!GCMSpec} `{!EntropyLive}.
Implicit Types q : SqlStore B.

(** The derived operations of a transaction are in keyspaces of its tables. *)
Lemma tables_ops_space cat tabs ids lo so op :
  tables_ops cat tabs ids = Ok (lo, so) -> op ∈ so ->
  ∃ id def idx, cat id = Some def ∧ index_of def idx ∧ in_space def idx (bo_Key op).
Proof.
  revert lo so. induction ids as [|id ids IH]; intros lo so; [intros [= <- <-] ?%not_elem_of_nil; done|].
  intros (def & tb & s1 & l2 & s2 & Hc & _ & Es & Eo & ->)%tables_ops_app [Hop|Hop]%elem_of_app; [|by eapply IH].
  destruct (rows_ops_space _ _ _ _ Es Hop) as (idx & Hi & Hk). by exists id, def, idx.
Qed.

Section committed.
Variables (O : list bytes) (q q' : SqlStore B) (st : gmap Hash bytes) (T : database) (txn : storeTxn) (lo : list Op) (so : list BatchOp).
Hypothesis Hdb : db_ok O q st T.
Hypothesis Hpre : commit_pre O q st T txn.
Hypothesis Hops : txn_ops q txn = Ok (lo, so).
Hypothesis Hc : sql_committed q q' st lo so.

(** An entry of the catalog is not written. *)
Lemma catalog_entry_stays k :
  k ∈ O -> k ≠ HistoryKey -> (∀ id, k ≠ autoIncKey id) ->
  after_state (q_led q) st lo !! pathOf (s_ck (q_led q)) k = st !! pathOf (s_ck (q_led q)) k.
Proof.
  intros Hk Hne Hcnt. destruct Hpre as [HO Hwf Hap _]. pose proof (tables_ops_plan _ _ _ _ Hops) as [Hled _ _].
  rewrite after_lookup.
  - rewrite batch_map_notin; [done|]. intros op Hop Heq.
    destruct (Hled op Hop) as (id & def & tb & Hcat & Htb & [(p & Hp & _ & ->)|(Hauto & ->)]).
    + assert (op_Key (row_op (td_ID def) def p) = rowKey (td_ID def) (p_pkEnc p)) as Ekey by (unfold row_op; by destruct (p_new p)).
      rewrite Ekey in Heq. apply (ok_rows _ _ HO k Hk). exists (td_ID def), (p_pkEnc p). symmetry. apply Hap; [|apply elem_of_app; by left|exact Heq].
      rewrite !elem_of_app. right. right. apply elem_of_txn_keys. pose proof (catalog_id _ _ _ Hcat) as ->.
      apply (elem_of_pending tb) in Hp; [|by eapply tw_keyed]. by exists id, tb, (p_pkEnc p), p.
    + apply (Hcnt (td_ID def)). symmetry. apply Hap; [|apply elem_of_app; by left|exact Heq].
      apply elem_of_app. left. pose proof (catalog_id _ _ _ Hcat) as Hid. rewrite Hid. by eapply (ok_counters _ _ HO).
  - left. intros Heq. apply Hne. apply Hap; [apply elem_of_app; by left|apply elem_of_app; left; apply HO|done].
Qed.

Lemma committed_db T' : sql_ok O q' (after_state (q_led q) st lo) T' -> db_ok O q' (after_state (q_led q) st lo) T'.
Proof.
  intros Hok'. destruct Hdb as [_ Hp Hw Hf [P1 P2 P3 P4] Hk]. destruct (committed_fields _ _ _ _ _ Hc) as (Fm & Fd & Ft).
  pose proof (cat_map_ext _ _ Ft Fd) as Ec. split; rewrite ?Fm, ?Ec, ?(sc_ck _ _ _ _ _ Hc); try done.
  - by eapply ptrs_ok_ext.
  - eapply fresh_committed; [done|]. destruct Hf as [F1 F2]. split; intros id s Hu Hle.
    + rewrite apply_batch_notin; [by apply F1|]. intros op Hop Heq.
      destruct (tables_ops_space _ _ _ _ _ _ Hops Hop) as (id' & def & idx & Hcat & Hi & Hsp). apply catalog_iff in Hcat as (n & Hn & <-); [|done].
      rewrite Heq in Hsp. destruct idx as [ix|]; [by destruct Hsp as [s' ?]|]. apply scan_space in Hsp as [s' Hsp].
      pose proof (cw_id_lt _ _ Hw _ _ Hn). destruct (cat_u64 _ _ _ _ Hw Hn) as [Hud _].
      apply (f_equal (drop 1)) in Hsp. unfold scanKey in Hsp. cbn [drop] in Hsp.
      apply app_inj_len in Hsp as [Hsp _]; [|by rewrite !length_be]. apply be8_inj in Hsp; [lia|done..].
    + rewrite apply_batch_notin; [by apply F2|]. intros op Hop Heq.
      destruct (tables_ops_space _ _ _ _ _ _ Hops Hop) as (id' & def & idx & Hcat & Hi & Hsp). apply catalog_iff in Hcat as (n & Hn & <-); [|done].
      rewrite Heq in Hsp. destruct idx as [ix|]; [|by apply scan_space in Hsp as [s' ?]].
      pose proof (cw_ix_lt _ _ Hw _ _ _ Hn Hi). destruct (cat_u64 _ _ _ _ Hw Hn) as [_ [Hix _]]. rewrite Forall_forall in Hix.
      eapply (other_space def ix); [by apply Hix|exact Hu|lia|reflexivity|exact Hsp].
  - split; [| |done..].
    + rewrite catalog_entry_stays; [done|apply Hk|apply meta_not_head|apply meta_not_counter].
    + intros n def Hn. rewrite catalog_entry_stays; [by eapply P2|by eapply ck_defs|apply table_not_head|apply table_not_counter].
Qed.
End committed.

(** A commit leaves a database with its catalog, or changes nothing. *)
Lemma commitTxn_db O q st T txn o q' :
  db_ok O q st T -> commit_pre O q st T txn -> commitTxn txn q = (o, q') ->
  (s_version (q_led q) = tx_baseVersion txn -> txn_based (tx_tables txn) T) ->
  is_ok o = false ∧ sreads q q' ∨ o = Ok tt ∧ ∃ st', db_ok O q' st' (apply_txn (tx_tables txn) T).
Proof.
  intros Hdb Hpre Hrun Hb. pose proof (db_sql _ _ _ _ Hdb) as Hok. destruct (so_repr _ _ _ _ Hok) as [ot Hr].
  destruct (commitTxn_refines _ _ _ _ _ _ _ Hok Hpre Hrun Hb) as [?|(-> & _ & (lo & so & Hops & Hok') & _)]; [by left|right].
  split; [done|]. exists (after_state (q_led q) st lo).
  destruct (commitTxn_cases q ot st txn _ q' Hr (cp_batch _ _ _ _ _ Hpre) Hrun) as [[[[_ Hn]|?] R]|(_ & lo' & so' & Hops' & _ & Hc & _)]; [|done|].
  - rewrite Hn in Hops. injection Hops as <- <-. pose proof (db_ok_reads _ _ _ _ _ R Hdb) as [_ D2 D3 D4 D5 D6].
    assert (after_state (q_led q) st [] = st) as Est by (unfold after_state; by rewrite decide_True by apply upd_state_empty).
    rewrite Est in *. by split.
  - rewrite Hops in Hops'. injection Hops' as <- <-. by eapply committed_db.
Qed.
End db_commit.
