(* ===== verification/SqlTableDdl.v ===== *)
(** RENAME TABLE, DROP TABLE and TRUNCATE against the catalog map. *)

From S2P Require Import Prelude Errors Sha256 Hashing Node Aead Backend Cache Store Tree StoreRead Records StoreCommit StoreFrame GoNum SqlCodec SqlIndex SqlTxn SqlOverlay SqlStore Json SqlCatalog SqlScan SqlScanOk SqlCommit SqlRefine SqlTable SqlEdit SqlSession SqlRemove SqlDdl SqlIndexBuild SqlCat SqlDdlOk.

Section tables.
Context `{H : Hasher} `{G : GCM} `{E : Entropy} `{MR : MapRange} `{CF : CaseFold} `{QT : QueryTypes}.
Context {B : Type} `{BK : Backend B} `{!BackendSpec B} `{!BackendReliable B}.
Context `{!GCMSpec} `{!EntropyLive}.
Implicit Types q : SqlStore B.
Implicit Types A : gmap string tableDef.
Implicit Types m : catalogMeta.

(** Folding agrees with lower case on the names of the catalog and [name]. *)
Definition folds m (name : string) : Prop :=
  ∀ nm, nm ∈ ca_Tables m -> EqualFold nm name = bool_decide (ToLower nm = ToLower name).

(** ** RENAME TABLE *)

Definition rename_meta m (old new : string) : catalogMeta :=
  MkMeta (ca_NextTableID m) (ca_NextIndexID m) ((λ n, if EqualFold n old then new else n) <$> ca_Tables m).
Definition with_renamed (old new : string) (p : defptr) (def : tableDef) q : SqlStore B :=
  set_qtables (<[new := p]> (delete old (q_tables q))) (set_defs (<[p := def]> (q_defs q)) q).

Lemma rename_lower m old new :
  folds m old ->
  ToLower <$> ca_Tables (rename_meta m old new) =
  (λ n, if decide (n = ToLower old) then ToLower new else n) <$> (ToLower <$> ca_Tables m).
Proof.
  intros Hf. cbn. rewrite <-!list_fmap_compose. apply list_fmap_ext. intros i n Hn%list_elem_of_lookup_2. cbn.
  rewrite (Hf n Hn). case_bool_decide; case_decide; done.
Qed.

Lemma names_ok_rename m A old new def :
  names_ok m A -> folds m old -> is_Some (A !! ToLower old) -> A !! ToLower new = None ->
  names_ok (rename_meta m old new) (<[ToLower new := def]> (delete (ToLower old) A)).
Proof.
  intros [Hn1 Hn2] Hf Hold Hnew. unfold names_ok. rewrite (rename_lower _ _ _ Hf).
  assert (ToLower new ∉ (ToLower <$> ca_Tables m)) as Hni by (rewrite Hn2, Hnew; by intros []).
  set (l := ToLower <$> ca_Tables m) in *. split.
  - apply NoDup_fmap_2_strong; [|done]. intros x y Hx Hy. repeat case_decide; congruence.
  - intros n. rewrite list_elem_of_fmap, lookup_insert. split.
    + intros (x & -> & Hx). destruct (decide (x = ToLower old)) as [->|Hxo]; [by rewrite decide_True|].
      rewrite decide_False by (intros <-; done). rewrite lookup_delete_ne by done. by apply Hn2.
    + case_decide as Hn.
      * intros _. subst n. exists (ToLower old). rewrite decide_True by done. split; [done|]. by apply Hn2.
      * intros Hs. destruct (decide (n = ToLower old)) as [->|Hne]; [rewrite lookup_delete_eq in Hs; by destruct Hs|].
        rewrite lookup_delete_ne in Hs by done. exists n. rewrite decide_False by done. split; [done|]. by apply Hn2.
Qed.

Lemma with_renamed_map old new p def q :
  ptrs_ok q -> q_tables q !! old = Some p -> old ≠ new ->
  cat_map (with_renamed old new p def q) = <[new := def]> (delete old (cat_map q)).
Proof.
  intros Hp Hold Hne. apply map_eq. intros n. rewrite lookup_cat_map. cbn. rewrite !lookup_insert. case_decide as Hn.
  { cbn. by rewrite lookup_insert_eq. }
  rewrite !lookup_delete. case_decide as Hn'; [done|]. rewrite lookup_cat_map. destruct (q_tables q !! n) as [p'|] eqn:Ep; [|done]. cbn.
  rewrite lookup_insert_ne; [done|]. intros ->. apply Hn'. by eapply pt_inj.
Qed.

Lemma with_renamed_ptrs old new p def q :
  ptrs_ok q -> q_tables q !! old = Some p -> ptrs_ok (with_renamed old new p def q).
Proof.
  intros [P1 P2] Hold. split; cbn.
  - intros n p' [[<- <-]|[_ [_ Hn]%lookup_delete_Some]]%lookup_insert_Some; [by rewrite lookup_insert_eq|].
    rewrite lookup_insert. case_decide; [eauto|by eapply P1].
  - assert (∀ n, delete old (q_tables q) !! n ≠ Some p) as Hno.
    { intros n [Hne Hn]%lookup_delete_Some. apply Hne. by eapply P2. }
    intros n n' p' [[<- <-]|[_ Hn]]%lookup_insert_Some [[<- Hp']|[_ Hn']]%lookup_insert_Some; [done|..].
    + by apply Hno in Hn'. + subst. by apply Hno in Hn. + apply lookup_delete_Some in Hn as [_ Hn], Hn' as [_ Hn']. by eapply P2.
Qed.

(** The catalog with a table under another name. *)
Definition renamed_map A (old new : string) (def : tableDef) : gmap string tableDef :=
  <[ToLower new := set_Name new def]> (delete (ToLower old) A).

Lemma renamed_other A old new def n d :
  n ≠ ToLower new -> renamed_map A old new def !! n = Some d -> A !! n = Some d ∧ n ≠ ToLower old.
Proof. intros Hn. unfold renamed_map. rewrite lookup_insert_ne, lookup_delete_Some by done. intros [? ?]. done. Qed.

Lemma renamed_wf m A old new def :
  cat_wf m A -> folds m old -> A !! ToLower old = Some def -> A !! ToLower new = None ->
  cat_wf (rename_meta m old new) (renamed_map A old new def).
Proof.
  intros Hw Hf Hold Hnew. assert (ToLower old ≠ ToLower new) as Hne by congruence.
  eapply (cat_wf_put m _ A); [done|intros n d Hn [_ Hd]%lookup_delete_Some; done|..].
  - assert (fits_beside m A (ToLower old) (set_Name (td_Name def) (set_Name new def))) as Hfb.
    { eapply (same_beside _ _ _ def); try done; [intros ix Hix; by exists ix|exact (cw_nodup _ _ Hw _ _ Hold)]. }
    split; [done|..].
    + intros n' d _ [Hn' Hd]%lookup_delete_Some. exact (fb_id _ _ _ _ Hfb n' d (not_eq_sym Hn') Hd).
    + intros n' d ix ix' _ [Hn' Hd]%lookup_delete_Some. exact (fb_ix _ _ _ _ Hfb n' d ix ix' (not_eq_sym Hn') Hd).
    + exact (fb_nodup _ _ _ _ Hfb).
    + exact (fb_id_lt _ _ _ _ Hfb).
    + exact (fb_ix_lt _ _ _ _ Hfb).
    + destruct (fb_wf _ _ _ _ Hfb) as [W1 W2]. by split.
  - exact (counters_refl _ _ Hw).
  - apply names_ok_rename; [by apply cat_names|done|eauto|done].
Qed.

(** The rows and entries of the table are those of its new definition. *)
Lemma renamed_derived O q st T old new def n d :
  db_ok O q st T -> cat_map q !! ToLower old = Some def -> renamed_map (cat_map q) old new def !! n = Some d ->
  derived_ok (sql_contents q) d (trows T (td_ID d)).
Proof.
  intros Hdb Hold Hd. pose proof (db_cat _ _ _ _ Hdb) as Hw. destruct (decide (n = ToLower new)) as [->|Hn].
  - unfold renamed_map in Hd. rewrite lookup_insert_eq in Hd. injection Hd as <-.
    apply (same_entries _ def); [done|done|intros ix Hix; by exists ix|].
    apply (so_derived _ _ _ _ (db_sql _ _ _ _ Hdb)). apply catalog_iff; [done|]. by exists (ToLower old).
  - apply renamed_other in Hd as [Hd _]; [|done]. apply (so_derived _ _ _ _ (db_sql _ _ _ _ Hdb)). apply catalog_iff; eauto.
Qed.

Lemma renameTable_ok O q st T old new def :
  db_ok O q st T -> keys_apart (s_ck (q_led q)) (O ++ row_keys T) -> folds (q_meta q) old ->
  cat_map q !! ToLower old = Some def -> cat_map q !! ToLower new = None ->
  let renamed := set_Name new def in
  let m' := rename_meta (q_meta q) old new in
  let A' := renamed_map (cat_map q) old new def in
  meta_fits m' -> table_fits renamed -> cat_keys O A' ->
  batch_pre (q_led q) st (catalogOps m' [renamed] ++ [Del (tableKey old)]) ->
  ∃ q' st', renameTable old new q = (Ok tt, q') ∧ db_ok O q' st' T ∧ q_meta q' = m' ∧ cat_map q' = A'.
Proof.
  intros Hdb Hap Hf Hold Hnew renamed m' A' Hmf Htf Hk Hb.
  pose proof (db_cat _ _ _ _ Hdb) as Hw. pose proof (db_ptrs _ _ _ _ Hdb) as Hp.
  destruct (in_tables _ _ _ Hold) as (p & Ep & Ed). pose proof (not_in_tables _ _ Hp Hnew) as Hnt.
  assert (ToLower old ≠ ToLower new) as Hne by congruence. pose proof (cw_name _ _ Hw _ _ Hold) as Hname.
  set (lo := catalogOps m' [renamed] ++ [Del (tableKey old)]) in *.
  destruct (so_repr _ _ _ _ (db_sql _ _ _ _ Hdb)) as [ot Hr].
  destruct (sqlCommit_ok q ot st lo [] Hr Hb ltac:(constructor)) as (q1 & E1 & Hc).
  destruct (committed_fields _ _ _ _ _ Hc) as (Fm & Fd & Ft).
  assert (ptrs_ok (set_meta m' q1)) as Hp1 by (by eapply (ptrs_ok_ext q)).
  assert (q_tables (set_meta m' q1) !! ToLower old = Some p) as Ep1 by (cbn; by rewrite Ft).
  assert (cat_map (with_renamed (ToLower old) (ToLower new) p renamed (set_meta m' q1)) = A') as Hmap.
  { rewrite with_renamed_map by done. unfold A', renamed_map. do 2 f_equal. by apply cat_map_ext. }
  assert (cat_wf m' A') as Hw' by (by apply renamed_wf).
  destruct (catalog_stored O q st T m' renamed A' [Del (tableKey old)] Hdb Hap Hk Hw') as [Hlo Hps]; try done.
  { apply lookup_insert_eq. }
  { constructor; [|constructor]. exists old. split; [done|]. split.
    - unfold A', renamed_map. by rewrite lookup_insert_ne, lookup_delete_eq by (by apply not_eq_sym).
    - assert (tableKey old = tableKey (td_Name def)) as -> by (by apply tableKey_inj). by eapply (ck_defs _ _ (db_keys _ _ _ _ Hdb)). }
  { intros n d Hn Hd. by apply (renamed_other _ old new def). }
  fold lo in Hlo, Hps.
  exists (with_renamed (ToLower old) (ToLower new) p renamed (set_meta m' q1)), (after_state (q_led q) st lo).
  split_and!; [|eapply (db_after O q q1 _ st T m' A' lo [] Hdb Hap Hlo Hc); try done|done|done].
  - unfold renameTable. rewrite bind_gets, Ep, bind_gets, Hnt, decide_False by (by intros []).
    rewrite (bind_ok _ _ _ _ _ (deref_ok _ _ _ Ed)), bind_gets. cbn zeta. fold renamed. fold (rename_meta (q_meta q) old new).
    fold m'. fold lo. rewrite (bind_ok _ _ _ _ _ E1), !bind_modify. unfold store_def. rewrite bind_modify. unfold modify. cbn. done.
  - by apply with_renamed_ptrs.
  - intros n d pk r Hd _. destruct (decide (n = ToLower old)) as [->|Hn].
    + exists (ToLower new), renamed. split; [apply lookup_insert_eq|]. rewrite Hold in Hd. injection Hd as <-. done.
    + exists n, d. split; [|done]. unfold A', renamed_map. rewrite lookup_insert_ne by congruence. by rewrite lookup_delete_ne.
  - intros n d Hd. by eapply renamed_derived.
  - exact (db_fresh _ _ _ _ Hdb).
Qed.

(** ** Removing rows *)

Lemma remove_db_ok O q st T def rounds n count :
  db_ok O q st T -> catalog q (td_ID def) = Some def -> keys_apart (s_ck (q_led q)) (O ++ row_keys T) ->
  removal_pre rounds def q st -> size (trows T (td_ID def)) ≤ N.to_nat scanChunkSize * n -> n < rounds ->
  ∃ q' st', remove_rows rounds def count q = (Ok (count + size (trows T (td_ID def))), q') ∧
    db_ok O q' st' (emptied (td_ID def) T) ∧ q' = set_led (q_led q') q ∧ s_ck (q_led q') = s_ck (q_led q).
Proof.
  intros Hdb Hc Hap Hpre Hsz Hn. pose proof (db_cat _ _ _ _ Hdb) as Hw.
  assert (def_wf def) as Hwf by (apply catalog_iff in Hc as (nm & Hnm & _); [by eapply cw_defs|done]).
  destruct (remove_rows_ok rounds n def O q st T count) as (q' & st' & Er & Hok & Hq & Hck & Hoth & Hnone); try done;
    [apply Hdb|by apply cat_other_keys; [|apply Hdb]|].
  exists q', st'. split_and!; [done| |done|done].
  assert (q_meta q' = q_meta q ∧ q_defs q' = q_defs q ∧ q_tables q' = q_tables q) as (Fm & Fd & Ft) by (rewrite Hq; done).
  pose proof (cat_map_ext _ _ Ft Fd) as Ec. pose proof (db_keys _ _ _ _ Hdb) as Hk. split; rewrite ?Fm, ?Ec, ?Hck; try done.
  - by apply (ptrs_ok_ext q); [..|apply Hdb].
  - destruct (db_fresh _ _ _ _ Hdb) as [F1 F2]. split; intros id s Hu Hle; apply Hnone; try done.
    + by left. + by apply F1. + right. by right. + by apply F2.
  - destruct (db_stored _ _ _ _ Hdb) as [P1 P2 P3 P4]. split; [| |done..].
    + rewrite Hoth; [done|apply Hk|apply meta_not_head].
    + intros nm d Hd. rewrite Hoth; [by eapply P2|by eapply ck_defs|apply table_not_head].
Qed.

(** TRUNCATE: the table has no rows any more, for the session either. *)
Lemma Truncate_ok O q st T p def rounds n otxn :
  db_ok O q st T -> q_defs q !! p = Some def -> catalog q (td_ID def) = Some def ->
  keys_apart (s_ck (q_led q)) (O ++ row_keys T) -> removal_pre rounds def q st ->
  size (trows T (td_ID def)) ≤ N.to_nat scanChunkSize * n -> n < rounds ->
  ∃ s' st', Truncate rounds p (MkSession q otxn) = (Ok (size (trows T (td_ID def))), s') ∧
    db_ok O (se_store s') st' (emptied (td_ID def) T) ∧ q_meta (se_store s') = q_meta q ∧ cat_map (se_store s') = cat_map q ∧
    visible (tableView (se_txn s') (td_ID def)) (trows (emptied (td_ID def) T) (td_ID def)) = ∅ ∧
    (∀ id, id ≠ td_ID def -> tableView (se_txn s') id = tableView otxn id).
Proof.
  intros Hdb Hd Hc Hap Hpre Hsz Hn.
  destruct (remove_db_ok O q st T def rounds n 0 Hdb Hc Hap Hpre Hsz Hn) as (q' & st' & Er & Hdb' & Hq & _).
  set (otxn' := (λ t, set_tables (delete (td_ID def) (tx_tables t)) t) <$> otxn).
  exists (MkSession q' otxn'), st'. split_and!.
  - unfold Truncate. rewrite (bind_ok _ _ _ def (MkSession q otxn)) by (unfold with_store; cbn; by rewrite (deref_ok _ _ _ Hd)).
    rewrite bind_gets. rewrite (bind_ok _ _ _ tt (MkSession q otxn')) by (by destruct otxn). unfold with_store. cbn [se_store].
    by rewrite Er.
  - done.
  - cbn [se_store]. by rewrite Hq.
  - cbn [se_store]. by rewrite Hq.
  - rewrite trows_emptied, decide_True by done. cbn [se_txn]. unfold otxn'. destruct otxn as [t|]; [|done]. cbn.
    by rewrite lookup_delete_eq.
  - intros id Hid. cbn [se_txn]. unfold otxn'. destruct otxn as [t|]; [|done]. cbn. by rewrite lookup_delete_ne.
Qed.

(** ** DROP TABLE *)

Definition drop_meta m (name : string) : catalogMeta :=
  MkMeta (ca_NextTableID m) (ca_NextIndexID m) (filter (λ n, EqualFold n name = false) (ca_Tables m)).
Definition drop_ops m (name : string) (def : tableDef) : list Op :=
  [Put metaKey (marshalTagged tagCatalogMeta (enc_meta (drop_meta m name))); Del (tableKey (td_Name def)); Del (autoIncKey (td_ID def))].

Lemma names_ok_drop m A name :
  names_ok m A -> folds m name -> names_ok (drop_meta m name) (delete (ToLower name) A).
Proof.
  intros [Hn1 Hn2] Hf. unfold names_ok. cbn [drop_meta ca_Tables]. split.
  - eapply sublist_NoDup; [exact Hn1|]. apply fmap_sublist, sublist_filter.
  - intros n. rewrite list_elem_of_fmap, lookup_delete. setoid_rewrite list_elem_of_filter. split.
    + intros (x & -> & Hx & Hin). rewrite (Hf x Hin) in Hx. apply bool_decide_eq_false in Hx. rewrite decide_False by congruence.
      apply Hn2. by apply list_elem_of_fmap_2.
    + case_decide as Hn; [by intros []|]. intros (x & -> & Hin)%Hn2%list_elem_of_fmap. exists x. split_and!; [done| |done].
      rewrite (Hf x Hin). apply bool_decide_eq_false. congruence.
Qed.

Lemma drop_persisted O q st T name def :
  db_ok O q st T -> keys_apart (s_ck (q_led q)) (O ++ row_keys T) ->
  cat_map q !! ToLower name = Some def -> meta_fits (drop_meta (q_meta q) name) ->
  let lo := drop_ops (q_meta q) name def in
  Forall (λ op, op_Key op ∈ O) lo ∧
  persisted (s_ck (q_led q)) (after_state (q_led q) st lo) (drop_meta (q_meta q) name) (delete (ToLower name) (cat_map q)).
Proof.
  intros Hdb Hap Hm Hmf lo. pose proof (db_keys _ _ _ _ Hdb) as Hk. pose proof (db_cat _ _ _ _ Hdb) as Hw.
  pose proof (cw_name _ _ Hw _ _ Hm) as Hname.
  assert (Forall (λ op, op_Key op ∈ O) lo) as Hlo.
  { repeat constructor; cbn; [apply Hk|by eapply (ck_defs _ _ Hk)|by eapply (ck_counters _ _ Hk)]. }
  assert (∀ op, op ∈ lo -> op = Put metaKey (marshalTagged tagCatalogMeta (enc_meta (drop_meta (q_meta q) name))) ∨
    op = Del (tableKey (td_Name def)) ∨ op = Del (autoIncKey (td_ID def))) as Hops.
  { intros op. unfold lo, drop_ops. rewrite !elem_of_cons, elem_of_nil. naive_solver. }
  split; [done|]. apply (persisted_after O q st T lo (ck_head _ _ Hk) Hap Hlo (q_meta q) _ (cat_map q)); try done; [apply Hdb|left|..].
  - intros op [->|[->| ->]]%Hops Hkey; [done|by destruct (meta_not_table _ (eq_sym Hkey))|by destruct (meta_not_counter _ (eq_sym Hkey))].
  - intros nm d [Hne Hd]%lookup_delete_Some. split; [by eapply (ck_defs _ _ Hk)|]. right. split; [done|].
    intros op [->|[->| ->]]%Hops Hkey; [by destruct (meta_not_table _ Hkey)| |by destruct (table_not_counter _ _ (eq_sym Hkey))].
    apply (tableKey_inj (td_Name def)) in Hkey. pose proof (cw_name _ _ Hw _ _ Hd). congruence.
  - intros nm d [_ Hd]%lookup_delete_Some. by eapply (pe_fits _ _ _ _ (db_stored _ _ _ _ Hdb)).
Qed.

(** The catalog commit of a table without rows. *)
Lemma drop_catalog_ok O q st T name def :
  db_ok O q st T -> keys_apart (s_ck (q_led q)) (O ++ row_keys T) -> folds (q_meta q) name ->
  cat_map q !! ToLower name = Some def -> trows T (td_ID def) = ∅ -> meta_fits (drop_meta (q_meta q) name) ->
  batch_pre (q_led q) st (drop_ops (q_meta q) name def) ->
  ∃ q1 st', sqlCommit (drop_ops (q_meta q) name def) [] q = (Ok tt, q1) ∧
    let q' := set_qtables (delete (ToLower name) (q_tables q1)) (set_meta (drop_meta (q_meta q) name) q1) in
    db_ok O q' st' T ∧ cat_map q' = delete (ToLower name) (cat_map q).
Proof.
  intros Hdb Hap Hf Hm Hnone Hmf Hb. pose proof (db_cat _ _ _ _ Hdb) as Hw.
  destruct (drop_persisted O q st T name def Hdb Hap Hm Hmf) as [Hlo Hps].
  set (m' := drop_meta (q_meta q) name) in *. set (lo := drop_ops (q_meta q) name def) in *.
  destruct (so_repr _ _ _ _ (db_sql _ _ _ _ Hdb)) as [ot Hr].
  destruct (sqlCommit_ok q ot st lo [] Hr Hb ltac:(constructor)) as (q1 & E1 & Hc).
  destruct (committed_fields _ _ _ _ _ Hc) as (Fm & Fd & Ft).
  exists q1, (after_state (q_led q) st lo). split; [done|]. intros q'. set (A' := delete (ToLower name) (cat_map q)) in *.
  assert (cat_map q' = A') as Hmap.
  { apply map_eq. intros nm. unfold A'. rewrite lookup_cat_map, lookup_delete. cbn. rewrite lookup_delete, Ft, Fd.
    by case_decide; [|rewrite lookup_cat_map]. }
  assert (∀ nm d, A' !! nm = Some d -> ToLower name ≠ nm ∧ cat_map q !! nm = Some d) as Hsub by (intros nm d; apply lookup_delete_Some).
  split; [|done]. eapply (db_after O q q1 q' st T m' A' lo [] Hdb Hap Hlo Hc); try done.
  - destruct (db_ptrs _ _ _ _ Hdb) as [P1 P2]. split; cbn; rewrite Ft, ?Fd.
    + intros nm p' [_ Hp']%lookup_delete_Some. by eapply P1.
    + intros nm nm' p' [_ Hp]%lookup_delete_Some [_ Hp']%lookup_delete_Some. by eapply P2.
  - eapply (cat_wf_sub (q_meta q)); [done|by intros nm d [_ ?]%Hsub|exact (counters_refl _ _ Hw)|].
    apply names_ok_drop; [by apply cat_names|done].
  - destruct (db_keys _ _ _ _ Hdb) as [K1 K2 K3 K4 K5]. split; [done| | |done|done]; intros nm d [_ Hd]%Hsub; [by eapply K2|by eapply K3].
  - intros nm d pk r Hd Hrow. exists nm, d. split; [|done]. unfold A'. rewrite lookup_delete_ne; [done|]. intros <-.
    rewrite Hm in Hd. injection Hd as <-. by rewrite <-lookup_trows, Hnone, lookup_empty in Hrow.
  - intros nm d [_ Hd]%Hsub. apply (so_derived _ _ _ _ (db_sql _ _ _ _ Hdb)). apply catalog_iff; [done|]. eauto.
  - exact (db_fresh _ _ _ _ Hdb).
Qed.

Lemma emptied_keys id T k : k ∈ row_keys (emptied id T) -> k ∈ row_keys T.
Proof.
  rewrite !elem_of_row_keys. intros (id' & pk & r & Hr & ->). exists id', pk, r. split; [|done].
  rewrite <-lookup_trows in *. rewrite trows_emptied in Hr. by case_decide; [rewrite lookup_empty in Hr|].
Qed.

Lemma dropTable_ok O q st T name def rounds n :
  db_ok O q st T -> keys_apart (s_ck (q_led q)) (O ++ row_keys T) -> folds (q_meta q) name ->
  cat_map q !! ToLower name = Some def ->
  removal_pre rounds def q st -> size (trows T (td_ID def)) ≤ N.to_nat scanChunkSize * n -> n < rounds ->
  meta_fits (drop_meta (q_meta q) name) ->
  (∀ q1 st1, (remove_rows rounds def 0 q).2 = q1 -> db_ok O q1 st1 (emptied (td_ID def) T) ->
     batch_pre (q_led q1) st1 (drop_ops (q_meta q) name def)) ->
  ∃ q' st', dropTable rounds name q = (Ok tt, q') ∧ db_ok O q' st' (emptied (td_ID def) T) ∧
    q_meta q' = drop_meta (q_meta q) name ∧ cat_map q' = delete (ToLower name) (cat_map q).
Proof.
  intros Hdb Hap Hf Hm Hpre Hsz Hn Hmf Hb. destruct (in_tables _ _ _ Hm) as (p & Ep & Ed).
  assert (catalog q (td_ID def) = Some def) as Hc by (apply catalog_iff; [apply Hdb|eauto]).
  destruct (remove_db_ok O q st T def rounds n 0 Hdb Hc Hap Hpre Hsz Hn) as (q1 & st1 & Er & Hdb1 & Hq1 & Hck1).
  assert (q_meta q1 = q_meta q ∧ q_defs q1 = q_defs q ∧ q_tables q1 = q_tables q) as (Fm & Fd & Ft) by (rewrite Hq1; done).
  pose proof (cat_map_ext _ _ Ft Fd) as Ec. specialize (Hb q1 st1 ltac:(by rewrite Er) Hdb1).
  destruct (drop_catalog_ok O q1 st1 (emptied (td_ID def) T) name def Hdb1) as (q2 & st2 & E2 & Hdb2 & Hmap2); rewrite ?Fm, ?Ec; try done.
  - rewrite Hck1. eapply keys_apart_sub; [|exact Hap]. intros k. rewrite !elem_of_app. intros [?|?%emptied_keys]; auto.
  - by rewrite trows_emptied, decide_True.
  - rewrite Fm, Ec in *. eexists _, st2. split; [|split; [exact Hdb2|done]].
    unfold dropTable. rewrite bind_gets, Ep, (bind_ok _ _ _ _ _ (deref_ok _ _ _ Ed)), (bind_ok _ _ _ _ _ Er), bind_gets, Fm.
    cbn zeta. fold (drop_meta (q_meta q) name). fold (drop_ops (q_meta q) name def). rewrite (bind_ok _ _ _ _ _ E2), bind_modify. done.
Qed.
End tables.
