(* ===== verification/SqlDdlSpec.v ===== *)
(** The DDL as operations on a catalog map and tables, and the refinement.

    [ddl_spec] says what every DDL statement does to the persisted counters, the map of
    definitions and the rows, and which error it returns; [run_ddl] is the statement as
    the engine runs it; [statement_refines] that the code does what the specification says. *)

From S2P Require Import Prelude Errors Sha256 Hashing Node Aead Backend Cache Store Tree StoreRead Records StoreCommit StoreFrame GoNum SqlCodec SqlIndex SqlTxn SqlOverlay SqlStore Json SqlCatalog SqlScan SqlScanOk SqlCommit SqlRefine SqlTable SqlEdit SqlSession SqlRemove SqlDdl SqlIndexBuild SqlCat SqlDdlOk SqlTableDdl.

Inductive ddl :=
| DCreateTable (name : string) (schema : list engineColumn) (pk : list nat) (comment : string)
| DDropTable (name : string)
| DRenameTable (old new : string)
| DCreateIndex (table name : string) (unique : bool) (columns : list indexColumn)
| DDropIndex (table name : string)
| DRenameIndex (table from to : string)
| DTruncate (table : string).

(** ** Deciding clashes *)

Lemma clash_encs def idx x y :
  clash def idx x y ↔ ix_Unique idx = true ∧ x.1 ≠ y.1 ∧
    match encodeIndexCols def idx x.2, encodeIndexCols def idx y.2 with Ok (c, false), Ok (c', false) => c = c' | _, _ => False end.
Proof.
  unfold clash. split.
  - intros (Hu & Hne & c & -> & ->). done.
  - intros (Hu & Hne & Hc). split_and!; [done..|].
    destruct (encodeIndexCols def idx x.2) as [[c []]|e|w], (encodeIndexCols def idx y.2) as [[c' []]|e'|w']; try done.
    subst. eauto.
Qed.

Definition same_enc (o o' : outcome (bytes * bool)) : bool :=
  match o, o' with Ok (c, false), Ok (c', false) => bool_decide (c = c') | _, _ => false end.

#[export] Instance clash_dec def idx x y : Decision (clash def idx x y).
Proof.
  refine (cast_if (decide (ix_Unique idx = true ∧ x.1 ≠ y.1 ∧
    same_enc (encodeIndexCols def idx x.2) (encodeIndexCols def idx y.2) = true))).
  - abstract (apply clash_encs; destruct a as (? & ? & Hs); split_and!; [done..|]; revert Hs;
      destruct (encodeIndexCols def idx x.2) as [[c []]|e|w], (encodeIndexCols def idx y.2) as [[c' []]|e'|w']; cbn; try done;
      by intros ?%bool_decide_eq_true).
  - abstract (intros (? & ? & Hs)%clash_encs; apply n; split_and!; [done..|]; revert Hs;
      destruct (encodeIndexCols def idx x.2) as [[c []]|e|w], (encodeIndexCols def idx y.2) as [[c' []]|e'|w']; cbn; try done;
      intros ->; by apply bool_decide_eq_true).
Defined.

#[export] Instance has_clash_dec def idx rows : Decision (has_clash def idx rows).
Proof.
  refine (cast_if (decide (Exists (λ x, Exists (λ y, clash def idx x y) (map_to_list rows)) (map_to_list rows)))).
  - abstract (apply Exists_exists in e as ([pk r] & Hx%elem_of_map_to_list & ([pk' r'] & Hy%elem_of_map_to_list & Hc)%Exists_exists);
      by exists pk, r, pk', r').
  - abstract (intros (pk & r & pk' & r' & Hx & Hy & Hc); apply n, Exists_exists; exists (pk, r); split; [by apply elem_of_map_to_list|];
      apply Exists_exists; exists (pk', r'); split; [by apply elem_of_map_to_list|done]).
Defined.

(** ** The specification *)

Section spec.
Context `{CF : CaseFold}.
Abbreviation result := (catalogMeta * gmap string tableDef * database)%type.

(** The operations on a table that exists. *)
Definition on_table (A : gmap string tableDef) (table : string) (f : tableDef -> outcome result) : outcome result :=
  match A !! ToLower table with None => Err ErrTableNotFound | Some def => f def end.

Definition ddl_spec (d : ddl) (m : catalogMeta) (A : gmap string tableDef) (T : database) : outcome result :=
  match d with
  | DCreateTable name schema pk comment =>
      if decide (is_Some (A !! ToLower name)) then Err ErrTableAlreadyExists
      else if decide (length pk = 0) then Err (RawError "table %s: a primary key is required")
      else cols ← wrap_err "table %s" (mapO colDefOf schema);
           Ok (create_meta m name, <[ToLower name := new_table m name cols pk comment]> A, T)
  | DDropTable name => on_table A name (λ def, Ok (drop_meta m name, delete (ToLower name) A, emptied (td_ID def) T))
  | DRenameTable old new => on_table A old (λ def,
      if decide (is_Some (A !! ToLower new)) then Err ErrTableAlreadyExists
      else Ok (rename_meta m old new, <[ToLower new := set_Name new def]> (delete (ToLower old) A), T))
  | DCreateIndex table name unique columns => on_table A table (λ def,
      if decide (is_Some (index_named name def)) then Err (RawError "index %s already exists on table %s")
      else ords ← mapO (index_ordinal (colByName def)) columns;
           let idx := new_index m name unique ords in
           if decide (has_clash def idx (trows T (td_ID def))) then Err UniqueKeyErr
           else Ok (index_meta m, <[ToLower table := add_index idx def]> A, T))
  | DDropIndex table name => on_table A table (λ def,
      match index_named name def with
      | None => Err (RawError "index %s does not exist on table %s")
      | Some pos => Ok (m, <[ToLower table := drop_index pos def]> A, T)
      end)
  | DRenameIndex table from to => on_table A table (λ def,
      match index_named from def with
      | None => Err (RawError "index %s does not exist on table %s")
      | Some pos => Ok (m, <[ToLower table := rename_index pos to def]> A, T)
      end)
  | DTruncate table => on_table A table (λ def, Ok (m, A, emptied (td_ID def) T))
  end.
End spec.

Section refine.
Context `{H : Hasher} `{G : GCM} `{E : Entropy} `{MR : MapRange} `{CF : CaseFold} `{QT : QueryTypes}.
Context {B : Type} `{BK : Backend B} `{!BackendSpec B} `{!BackendReliable B}.
Context `{!GCMSpec} `{!EntropyLive}.
Implicit Types q : SqlStore B.

(** An index statement names a table, whose handle the engine looks up. *)
Definition with_handle (table : string) (f : defptr -> M (SqlStore B) unit) : M (SqlStore B) unit :=
  p ← GetTableInsensitive table; match p with None => fail ErrTableNotFound | Some p => f p end.

(** TRUNCATE outside a transaction; the number of rows it reports is dropped. *)
Definition truncate_alone (rounds : nat) (p : defptr) : M (SqlStore B) unit := λ q,
  let '(o, s') := Truncate rounds p (MkSession q None) in (_ ← o; Ok tt, se_store s').

Definition run_ddl (rounds : nat) (d : ddl) : M (SqlStore B) unit :=
  match d with
  | DCreateTable name schema pk comment => createTable name schema pk comment
  | DDropTable name => dropTable rounds name
  | DRenameTable old new => renameTable old new
  | DCreateIndex table name unique columns => with_handle table (λ p, createIndex rounds p name unique columns)
  | DDropIndex table name => with_handle table (λ p, dropIndex rounds p name)
  | DRenameIndex table from to => with_handle table (λ p, renameIndex p from to)
  | DTruncate table => with_handle table (truncate_alone rounds)
  end.

(** The ledger accepts the batches of a statement that leads to [m'] and [A']. *)
Definition ddl_batches (O : list bytes) (rounds : nat) q (st : gmap Hash bytes) (T : database) (d : ddl)
    (m' : catalogMeta) (A' : gmap string tableDef) : Prop :=
  let written table := ∀ def, A' !! ToLower table = Some def -> batch_pre (q_led q) st (catalogOps m' [def]) in
  match d with
  | DCreateTable name _ _ _ => written name
  | DDropTable name => ∀ def, cat_map q !! ToLower name = Some def -> removal_pre rounds def q st ∧
      ∀ q1 st1, (remove_rows rounds def 0 q).2 = q1 -> db_ok O q1 st1 (emptied (td_ID def) T) ->
        batch_pre (q_led q1) st1 (drop_ops (q_meta q) name def)
  | DRenameTable old new => ∀ def, A' !! ToLower new = Some def -> batch_pre (q_led q) st (catalogOps m' [def] ++ [Del (tableKey old)])
  | DCreateIndex table _ _ _ | DDropIndex table _ | DRenameIndex table _ _ => written table
  | DTruncate table => ∀ def, cat_map q !! ToLower table = Some def -> removal_pre rounds def q st
  end.

(** The names a statement folds. *)
Definition ddl_folds (d : ddl) (m : catalogMeta) : Prop :=
  match d with DDropTable name => folds m name | DRenameTable old _ => folds m old | _ => True end.

(** What a statement that succeeds needs: room in the counters, definitions the catalog's
    encoding keeps, ledger keys that do not collide, and batches the ledger accepts. *)
Record ddl_pre (O : list bytes) (rounds : nat) q (st : gmap Hash bytes) (T : database) (d : ddl)
    (m' : catalogMeta) (A' : gmap string tableDef) : Prop := {
  dp_room : is_u64 (ca_NextTableID (q_meta q) + 1) ∧ is_u64 (ca_NextIndexID (q_meta q) + 1);
  dp_meta : meta_fits m';
  dp_fits : ∀ n def, A' !! n = Some def -> table_fits def;
  dp_keys : cat_keys O A';
  dp_folds : ddl_folds d (q_meta q);
  dp_batches : ddl_batches O rounds q st T d m' A'
}.

(** The statement succeeded with the given catalog and rows. *)
Definition ddl_done (O : list bytes) (rounds : nat) (d : ddl) q (m' : catalogMeta) (A' : gmap string tableDef) (T' : database) : Prop :=
  ∃ q' st', run_ddl rounds d q = (Ok tt, q') ∧ db_ok O q' st' T' ∧ q_meta q' = m' ∧ cat_map q' = A'.
Definition ddl_failed (rounds : nat) (d : ddl) q (e : error) : Prop := ∃ q', run_ddl rounds d q = (Err e, q') ∧ sreads q q'.

Lemma handle_ok table q f p : q_tables q !! ToLower table = Some p -> with_handle table f q = f p q.
Proof. intros Hp. unfold with_handle, GetTableInsensitive. by rewrite bind_gets, Hp. Qed.

Lemma handle_none table q f : ptrs_ok q -> cat_map q !! ToLower table = None -> with_handle table f q = (Err ErrTableNotFound, q).
Proof. intros Hp Hn%not_in_tables; [|done]. unfold with_handle, GetTableInsensitive. by rewrite bind_gets, Hn. Qed.

Section statement.
Variables (O : list bytes) (q : SqlStore B) (st : gmap Hash bytes) (T : database) (rounds : nat).
Hypothesis Hdb : db_ok O q st T.
Hypothesis Hap : keys_apart (s_ck (q_led q)) (O ++ row_keys T).
Hypothesis Hrounds : ∀ n def, cat_map q !! n = Some def ->
  size (trows T (td_ID def)) + N.to_nat scanChunkSize ≤ N.to_nat scanChunkSize * rounds.

Definition as_specified (d : ddl) : Prop :=
  match ddl_spec d (q_meta q) (cat_map q) T with
  | Ok (m', A', T') => ddl_pre O rounds q st T d m' A' -> ddl_done O rounds d q m' A' T'
  | Err e => ddl_failed rounds d q e
  | Panic _ => False
  end.

Lemma mapO_no_panic {X Y} (f : X -> outcome Y) l : (∀ x w, f x ≠ Panic w) -> ∀ w, mapO f l ≠ Panic w.
Proof.
  intros Hf. induction l as [|x l IH]; intros w; cbn; [done|]. specialize (Hf x). destruct (f x) as [y|e|w']; cbn; [|done|by destruct (Hf w')].
  specialize (IH w). destruct (mapO f l); cbn; congruence.
Qed.

Lemma create_table_refines name schema pk comment : as_specified (DCreateTable name schema pk comment).
Proof.
  unfold as_specified. cbn [ddl_spec]. pose proof (db_ptrs _ _ _ _ Hdb) as Hp. case_decide as He.
  { destruct He as [def (p & Ep & _)%in_tables]. exists q. split; [|done]. cbn [run_ddl]. unfold createTable.
    rewrite bind_gets, Ep, decide_True by eauto. done. }
  assert (cat_map q !! ToLower name = None) as Hnew by (by apply eq_None_not_Some). pose proof (not_in_tables _ _ Hp Hnew) as Hn.
  case_decide as Hpk.
  { exists q. split; [|done]. cbn [run_ddl]. unfold createTable. rewrite bind_gets, Hn, decide_False by (by intros []). by rewrite decide_True. }
  destruct (mapO colDefOf schema) as [cols|e|w] eqn:Ec; cbn [wrap_err mbind outcome_bind].
  - intros [[Hr1 _] Hm Hf Hk _ Hb]. apply (createTable_ok O q st T); try done; [by intros ->|by apply (Hf (ToLower name)), lookup_insert_eq|].
    apply Hb, lookup_insert_eq.
  - exists q. split; [|done]. cbn [run_ddl]. unfold createTable. rewrite bind_gets, Hn, decide_False by (by intros []).
    rewrite decide_False by done. rewrite bind_gets. unfold lift. by rewrite Ec.
  - eapply mapO_no_panic; [|exact Ec]. intros c w'. unfold colDefOf. destruct (kindOfQType (ec_Type c)) eqn:Ek; cbn; try done.
    by destruct (ec_Type c).
Qed.

Lemma drop_table_refines name : as_specified (DDropTable name).
Proof.
  unfold as_specified. cbn [ddl_spec]. unfold on_table. pose proof (db_ptrs _ _ _ _ Hdb) as Hp.
  destruct (cat_map q !! ToLower name) as [def|] eqn:Hm.
  - intros [_ Hmf _ _ Hf Hb]. destruct (Hb def Hm) as [Hpre Hlast]. pose proof (Hrounds _ _ Hm).
    apply (dropTable_ok O q st T name def rounds (pred rounds)); try done; [nia|].
    destruct rounds; [unfold scanChunkSize in *; cbn in *; lia|lia].
  - exists q. split; [|done]. cbn [run_ddl]. unfold dropTable. by rewrite bind_gets, (not_in_tables _ _ Hp Hm).
Qed.

Lemma rename_table_refines old new : as_specified (DRenameTable old new).
Proof.
  unfold as_specified. cbn [ddl_spec]. unfold on_table. pose proof (db_ptrs _ _ _ _ Hdb) as Hp.
  destruct (cat_map q !! ToLower old) as [def|] eqn:Hm; [case_decide as Hnew|].
  - destruct Hnew as [d (p' & Ep' & _)%in_tables]. destruct (in_tables _ _ _ Hm) as (p & Ep & _). exists q. split; [|done].
    cbn [run_ddl]. unfold renameTable. rewrite bind_gets, Ep, bind_gets, Ep', decide_True by eauto. done.
  - intros [_ Hmf Hf Hk Hfo Hb]. apply eq_None_not_Some in Hnew.
    apply (renameTable_ok O q st T); try done; [by apply (Hf (ToLower new)), lookup_insert_eq|]. apply Hb, lookup_insert_eq.
  - exists q. split; [|done]. cbn [run_ddl]. unfold renameTable. by rewrite bind_gets, (not_in_tables _ _ Hp Hm).
Qed.

Lemma chunk_room def n : cat_map q !! n = Some def -> size (trows T (td_ID def)) < N.to_nat scanChunkSize * rounds.
Proof. intros Hm. pose proof (Hrounds _ _ Hm). assert (0 < N.to_nat scanChunkSize) by (vm_compute; lia). lia. Qed.

Lemma create_index_refines table name unique columns : as_specified (DCreateIndex table name unique columns).
Proof.
  unfold as_specified. cbn [ddl_spec]. unfold on_table.
  destruct (cat_map q !! ToLower table) as [def|] eqn:Hm; [|exists q; split; [by apply handle_none; [apply Hdb|]|done]].
  destruct (in_tables _ _ _ Hm) as (p & Ep & Ed). pose proof (chunk_room _ _ Hm) as Hsz.
  assert (run_ddl rounds (DCreateIndex table name unique columns) q = createIndex rounds p name unique columns q) as Hrun
    by exact (handle_ok table q _ p Ep).
  unfold ddl_done, ddl_failed. rewrite Hrun. case_decide as Hnamed.
  { exists q. split; [|done]. unfold createIndex. by rewrite (bind_ok _ _ _ _ _ (deref_ok _ _ _ Ed)), decide_True. }
  assert (index_named name def = None) as Hnone by (by apply eq_None_not_Some).
  destruct (mapO (index_ordinal (colByName def)) columns) as [ords|e|w] eqn:Eo; cbn [mbind outcome_bind].
  - cbn zeta. case_decide as Hcl; [by eapply (createIndex_clash O q st T (ToLower table) p def)|].
    intros [[_ Hr2] Hmf Hf Hk _ Hb]. apply (createIndex_ok O q st T (ToLower table) p def); try done;
      [by apply (Hf (ToLower table)), lookup_insert_eq|]. apply Hb, lookup_insert_eq.
  - exists q. split; [|done]. unfold createIndex. rewrite (bind_ok _ _ _ _ _ (deref_ok _ _ _ Ed)), decide_False by done.
    rewrite bind_gets. unfold lift. by rewrite Eo.
  - eapply mapO_no_panic; [|exact Eo]. intros c w'. unfold index_ordinal. destruct (colByName def !! _); [by case_decide|done].
Qed.

Lemma index_named_pos name def pos : index_named name def = Some pos -> ∃ ix, td_Indexes def !! pos = Some ix.
Proof.
  unfold index_named. destruct (list_find _ _) as [[i ix]|] eqn:Ef; [|done]. cbn. intros [= <-].
  apply list_find_Some in Ef as (Hi & _). eauto.
Qed.

Lemma drop_index_refines table name : as_specified (DDropIndex table name).
Proof.
  unfold as_specified. cbn [ddl_spec]. unfold on_table.
  destruct (cat_map q !! ToLower table) as [def|] eqn:Hm; [|exists q; split; [by apply handle_none; [apply Hdb|]|done]].
  destruct (in_tables _ _ _ Hm) as (p & Ep & Ed). pose proof (chunk_room _ _ Hm) as Hsz.
  assert (run_ddl rounds (DDropIndex table name) q = dropIndex rounds p name q) as Hrun
    by exact (handle_ok table q _ p Ep).
  unfold ddl_done, ddl_failed. rewrite Hrun. destruct (index_named name def) as [pos|] eqn:Hpos.
  - intros [_ Hmf Hf Hk _ Hb]. destruct (index_named_pos _ _ _ Hpos) as [ix Hix].
    apply (dropIndex_ok O q st T (ToLower table) p def name pos ix); try done;
      [by apply (Hf (ToLower table)), lookup_insert_eq|]. apply Hb, lookup_insert_eq.
  - exists q. split; [|done]. unfold dropIndex. by rewrite (bind_ok _ _ _ _ _ (deref_ok _ _ _ Ed)), Hpos.
Qed.

Lemma rename_index_refines table from to : as_specified (DRenameIndex table from to).
Proof.
  unfold as_specified. cbn [ddl_spec]. unfold on_table.
  destruct (cat_map q !! ToLower table) as [def|] eqn:Hm; [|exists q; split; [by apply handle_none; [apply Hdb|]|done]].
  destruct (in_tables _ _ _ Hm) as (p & Ep & Ed).
  assert (run_ddl rounds (DRenameIndex table from to) q = renameIndex p from to q) as Hrun
    by exact (handle_ok table q _ p Ep).
  unfold ddl_done, ddl_failed. rewrite Hrun. destruct (index_named from def) as [pos|] eqn:Hpos.
  - intros [_ Hmf Hf Hk _ Hb]. apply (renameIndex_ok O q st T (ToLower table) p def from to pos); try done;
      [by apply (Hf (ToLower table)), lookup_insert_eq|]. apply Hb, lookup_insert_eq.
  - exists q. split; [|done]. unfold renameIndex. by rewrite (bind_ok _ _ _ _ _ (deref_ok _ _ _ Ed)), Hpos.
Qed.

Lemma truncate_refines table : as_specified (DTruncate table).
Proof.
  unfold as_specified. cbn [ddl_spec]. unfold on_table. pose proof (db_cat _ _ _ _ Hdb) as Hw.
  destruct (cat_map q !! ToLower table) as [def|] eqn:Hm; [|exists q; split; [by apply handle_none; [apply Hdb|]|done]].
  destruct (in_tables _ _ _ Hm) as (p & Ep & Ed). pose proof (Hrounds _ _ Hm).
  assert (catalog q (td_ID def) = Some def) as Hc by (apply catalog_iff; eauto).
  intros [_ _ _ _ _ Hb]. specialize (Hb def Hm).
  destruct (Truncate_ok O q st T p def rounds (pred rounds) None) as (s' & st' & Et & Hdb' & Hmeta & Hcat & _); try done; [nia| |].
  { destruct rounds; [unfold scanChunkSize in *; cbn in *; lia|lia]. }
  exists (se_store s'), st'. split_and!; [|done..].
  transitivity (truncate_alone rounds p q); [exact (handle_ok table q _ p Ep)|]. unfold truncate_alone. by rewrite Et.
Qed.

Lemma statement_refines d : as_specified d.
Proof.
  destruct d; [apply create_table_refines|apply drop_table_refines|apply rename_table_refines|apply create_index_refines|
    apply drop_index_refines|apply rename_index_refines|apply truncate_refines].
Qed.
End statement.
End refine.
