(* ===== verification/SqlReopen.v ===== *)
(** Opening a database.

    [stored_db] is what the ledger of a database holds: the rows, the catalog and nothing
    else.  [loadCatalog_ok] shows that opening reads the stored catalog back, with the
    AUTO_INCREMENT counters as they were last committed ([reloaded]); [open_current] that
    a database whose derived keyspaces are current is ready at once. *)

From S2P Require Import Prelude Errors Sha256 Hashing Node Aead Backend Cache Store Tree StoreRead Records StoreCommit StoreFrame StoreOpen Ledger GoNum SqlCodec SqlIndex SqlTxn SqlOverlay SqlStore Json SqlCatalog SqlScan SqlScanOk SqlCommit SqlRefine SqlTable SqlEdit SqlSession SqlRemove SqlDdl SqlIndexBuild SqlCat SqlDdlOk.

Section reopen.
Context `{H : Hasher} `{G : GCM} `{E : Entropy} `{MR : MapRange} `{CF : CaseFold} `{QT : QueryTypes}.
Context {B : Type} `{BK : Backend B} `{!BackendSpec B} `{!BackendReliable B}.
Context `{!GCMSpec} `{!EntropyLive}.
Implicit Types q : SqlStore B.
Implicit Types A : gmap string tableDef.
Implicit Types m : catalogMeta.

(** ** What the ledger of a database holds *)

Record stored_db (O : list bytes) (led : Store B) (st : gmap Hash bytes) (T : database) m A : Prop := {
  sd_repr : ∃ ot, repr led ot st;
  sd_rows : ∀ id pk r, trow T id pk = Some r -> ∃ n def, A !! n = Some def ∧ td_ID def = id ∧ row_fits def r ∧
    st !! pathOf (s_ck led) (rowKey id pk) = Some (row_payload def (row_enc def r));
  sd_dom : ∀ h, is_Some (st !! h) -> ∃ k, h = pathOf (s_ck led) k ∧ (k ∈ O ∨ k ∈ row_keys T);
  sd_cat : cat_wf m A;
  sd_stored : persisted (s_ck led) st m A;
  sd_keys : cat_keys O A
}.

(** The derived keyspaces of the tables of a catalog. *)
Definition keyspaces_ok (D : gmap bytes bytes) m A (T : database) : Prop :=
  (∀ n def, A !! n = Some def -> derived_ok D def (trows T (td_ID def))) ∧ spaces_fresh m D.

Lemma stored_of_db O q st T : db_ok O q st T -> stored_db O (q_led q) st T (q_meta q) (cat_map q).
Proof.
  intros [Hs _ Hw _ Hp Hk]. split; try done; [apply Hs| |apply Hs].
  intros id pk r Hr. destruct (so_rows _ _ _ _ Hs _ _ _ Hr) as (def & (n & Hn & Hid)%catalog_iff & Hf & Hst); [|done]. by exists n, def.
Qed.

Lemma keyspaces_of_db O q st T : db_ok O q st T -> keyspaces_ok (sql_contents q) (q_meta q) (cat_map q) T.
Proof.
  intros [Hs _ Hw Hf _ _]. split; [|done]. intros n def Hn. apply (so_derived _ _ _ _ Hs). apply catalog_iff; eauto.
Qed.

Lemma db_of_stored O q st T :
  stored_db O (q_led q) st T (q_meta q) (cat_map q) -> ptrs_ok q -> keyspaces_ok (sql_contents q) (q_meta q) (cat_map q) T ->
  applied_of (sql_contents q) = s_version (q_led q) -> db_ok O q st T.
Proof.
  intros [Hr Hrows Hdom Hw Hp Hk] Hptr [Hder Hfr] Hm. split; try done. split; try done.
  - by apply cat_catalog_ok.
  - intros id pk r (n & def & Hn & Hid & Hf & Hst)%Hrows. exists def. split; [|done]. apply catalog_iff; eauto.
  - intros id def (n & Hn & <-)%catalog_iff; [|done]. by eapply Hder.
Qed.

(** The database is that of the ledger, whichever store of the ledger is used. *)
Lemma stored_led O (led led' : Store B) st T m A :
  stored_db O led st T m A -> (∃ ot, repr led' ot st) -> s_ck led' = s_ck led -> stored_db O led' st T m A.
Proof. intros [_ Hrows Hdom Hw Hp Hk] Hr Eck. split; rewrite ?Eck; done. Qed.

(** ** Ledgers that can be opened again *)

(** The records of the ledger, and what it keeps of them in memory, are the same. *)
Record same_ledger (s s' : Store B) : Prop := {
  sl_contents : ∀ k, ¬ derived k -> contents (s_backend s') !! k = contents (s_backend s) !! k;
  sl_ck : s_ck s' = s_ck s;
  sl_cipher : s_cipher s' = s_cipher s;
  sl_mac : s_ckptMAC s' = s_ckptMAC s;
  sl_root : s_root s' = s_root s;
  sl_version : s_version s' = s_version s;
  sl_history : s_history s' = s_history s;
  sl_head : s_historyHead s' = s_historyHead s
}.

Lemma same_reads s s' : reads s s' -> same_ledger s s'.
Proof.
  intros R. destruct (reads_fields _ _ R) as (F1 & F2 & F3 & F4 & F5 & F6 & F7 & F8 & F9 & F10). split; try done.
  intros k _. by rewrite (reads_contents _ _ R).
Qed.

Lemma same_trans s1 s2 s3 : same_ledger s1 s2 -> same_ledger s2 s3 -> same_ledger s1 s3.
Proof.
  intros [] []. split; try congruence. intros k Hk. rewrite sl_contents1 by done. by apply sl_contents0.
Qed.

Record durable (key : bytes32) (sk : option bytes32) (s : Store B) (st : gmap Hash bytes) : Prop := {
  du_ckpt : checkpointed s;
  du_keys : keyed s key sk;
  du_chain : chain_ok s st
}.

Lemma durable_same key sk s s' st : same_ledger s s' -> durable key sk s st -> durable key sk s' st.
Proof.
  intros [Hc Hk Hci Hm Hro Hv Hh Hhd] [(rec & Hrec & Hf) (K1 & K2 & K3) D3]. split.
  - exists rec. rewrite Hc, Hro, Hv, Hh; [|by intros [?|[?|?]]]. split; [done|].
    intros s2 E1 E2. apply Hf; congruence.
  - unfold keyed. rewrite Hk, Hci, Hm. done.
  - unfold chain_ok in *. by rewrite Hk, Hv, Hh, Hhd.
Qed.

(** ** Definitions as they are read back *)

Definition stored_counter (ck : bytes) (st : gmap Hash bytes) (id : N) : N :=
  match st !! pathOf ck (autoIncKey id) with
  | Some r => if decide (length r = 9 ∧ head r = Some tagAutoInc) then unbe (drop 1 r) else 0%N
  | None => 0%N
  end.

Definition reloaded (ck : bytes) (st : gmap Hash bytes) (def : tableDef) : tableDef :=
  let n := stored_counter ck st (td_ID def) in
  set_autoInc (if hasAutoInc def then if decide (n = 0%N) then 1%N else n else 0%N) def.

Lemma cat_wf_reloaded ck st m A : cat_wf m A -> cat_wf m (reloaded ck st <$> A).
Proof.
  intros Hw. assert (∀ n def, (reloaded ck st <$> A) !! n = Some def -> ∃ d, A !! n = Some d ∧ def = reloaded ck st d) as Hl.
  { intros n def. rewrite lookup_fmap. intros (d & Hd & ->)%fmap_Some. eauto. }
  split; try apply Hw.
  - intros n def (d & Hd & ->)%Hl. by apply (cw_name _ _ Hw n d).
  - intros n def n' def' (d & Hd & ->)%Hl (d' & Hd' & ->)%Hl. by apply (cw_id _ _ Hw n d n' d').
  - intros n def n' def' ix ix' (d & Hd & ->)%Hl (d' & Hd' & ->)%Hl. by apply (cw_ix _ _ Hw n d n' d' ix ix').
  - intros n def (d & Hd & ->)%Hl. by apply (cw_nodup _ _ Hw n d).
  - intros n def (d & Hd & ->)%Hl. by apply (cw_id_lt _ _ Hw n d).
  - intros n def ix (d & Hd & ->)%Hl. by apply (cw_ix_lt _ _ Hw n d ix).
  - intros n def (d & Hd & ->)%Hl. destruct (cw_defs _ _ Hw _ _ Hd). by split.
  - intros n. rewrite lookup_fmap, fmap_is_Some. apply (cw_tables _ _ Hw).
Qed.

Lemma stored_reloaded O led st T m A :
  stored_db O led st T m A -> stored_db O led st T m (reloaded (s_ck led) st <$> A).
Proof.
  intros [Hr Hrows Hdom Hw [P1 P2 P3 P4] [K1 K2 K3 K4 K5]].
  assert (∀ n def, (reloaded (s_ck led) st <$> A) !! n = Some def -> ∃ d, A !! n = Some d ∧ def = reloaded (s_ck led) st d) as Hl.
  { intros n def. rewrite lookup_fmap. intros (d & Hd & ->)%fmap_Some. eauto. }
  split; try done; [|by apply cat_wf_reloaded|..].
  - intros id pk r (n & def & Hn & Hid & Hf & Hst)%Hrows. exists n, (reloaded (s_ck led) st def). by rewrite lookup_fmap, Hn.
  - split; try done.
    + intros n def (d & Hd & ->)%Hl. exact (P2 n d Hd).
    + intros n def (d & Hd & ->)%Hl. destruct (P4 n d Hd). by split.
  - split; try done; intros n def (d & Hd & ->)%Hl; [exact (K2 n d Hd)|exact (K3 n d Hd)].
Qed.

Lemma keyspaces_reloaded ck st D m A T : keyspaces_ok D m A T -> keyspaces_ok D m (reloaded ck st <$> A) T.
Proof.
  intros [Hd Hf]. split; [|done]. intros n def. rewrite lookup_fmap. intros (d & Hn & ->)%fmap_Some.
  apply (same_entries _ d); try done; [|exact (Hd n d Hn)]. intros ix Hix. by exists ix.
Qed.

(** ** Loading the catalog *)

Lemma loadTable_ok q ot st name def :
  repr (q_led q) ot st -> table_fits def ->
  st !! pathOf (s_ck (q_led q)) (tableKey name) = Some (marshalTagged tagCatalogTable (enc_table def)) ->
  ∃ q', loadTable name q = (Ok (reloaded (s_ck (q_led q)) st def), q') ∧ sreads q q'.
Proof.
  intros Hr Hf Hst. unfold loadTable. destruct (led_Get_ok (tableKey name) q ot st Hr) as (q1 & E1 & R1).
  rewrite (bind_ok _ _ _ _ _ E1), Hst, decide_False by (intros [?|?]; [cbn in *; lia|done]).
  rewrite unmarshal_table by done. cbn [wrap_err]. rewrite bind_lift. unfold load_counter, reloaded.
  change (hasAutoInc (set_autoInc 0 def)) with (hasAutoInc def). change (td_ID (set_autoInc 0 def)) with (td_ID def).
  destruct (hasAutoInc def); [|by exists q1].
  destruct (led_Get_ok (autoIncKey (td_ID def)) q1 ot st) as (q2 & E2 & R2); [by eapply sreads_repr|].
  rewrite (bind_ok _ _ _ _ _ E2). destruct (sreads_fields _ _ R1) as (_ & _ & _ & ->).
  exists q2. split; [done|by etrans].
Qed.

(** Tables are added one by one, beside the ledger's reads. *)
Lemma load_tables_ok A (st : gmap Hash bytes) ot names q :
  repr (q_led q) ot st -> ptrs_ok q ->
  (∀ n, n ∈ names -> ∃ def, A !! ToLower n = Some def ∧ table_fits def ∧
     st !! pathOf (s_ck (q_led q)) (tableKey n) = Some (marshalTagged tagCatalogTable (enc_table def))) ->
  ∃ q', foldM (λ _ name, def ← loadTable name; add_table (ToLower name) def) tt names q = (Ok tt, q') ∧
    reads (q_led q) (q_led q') ∧ q_meta q' = q_meta q ∧ ptrs_ok q' ∧
    ∀ n, cat_map q' !! n = if decide (n ∈ (ToLower <$> names)) then reloaded (s_ck (q_led q)) st <$> A !! n else cat_map q !! n.
Proof.
  revert q. induction names as [|name names IH]; intros q Hr Hp Hn.
  { exists q. split_and!; [done|apply reads_refl|done..]. }
  destruct (Hn name) as (def & Hd & Hf & Hst); [left|].
  destruct (loadTable_ok q ot st name def Hr Hf Hst) as (q1 & E1 & R1). destruct (sreads_fields _ _ R1) as (Fm & Fd & Ft & Fk).
  assert (ptrs_ok q1) as Hp1 by (by eapply ptrs_ok_ext).
  set (def' := reloaded (s_ck (q_led q)) st def) in *. set (q2 := with_table (ToLower name) def' q1).
  destruct (IH q2) as (q' & E' & R' & Em & Hp' & Hl).
  { by eapply (sreads_repr _ _ _ _ R1). } { by apply with_table_ptrs. }
  { change (q_led q2) with (q_led q1). rewrite Fk. intros n Hin. apply Hn. by right. }
  exists q'. split_and!; [|by eapply reads_trans; [apply R1|]|by rewrite Em|done|].
  - cbn [foldM]. rewrite (bind_ok _ _ _ tt q2); [exact E'|]. by rewrite (bind_ok _ _ _ _ _ E1).
  - intros n. rewrite Hl. change (q_led q2) with (q_led q1). rewrite Fk. cbn [fmap list_fmap].
    destruct (decide (n ∈ (ToLower <$> names))) as [Hin|Hni]; [by rewrite decide_True by (by right)|].
    unfold q2. rewrite with_table_map by done. destruct (decide (n = ToLower name)) as [->|Hne].
    + rewrite decide_True by left. by rewrite lookup_insert_eq, Hd.
    + rewrite decide_False by (by intros [?|?]%elem_of_cons). rewrite lookup_insert_ne by done. by rewrite (cat_map_ext _ _ Ft Fd).
Qed.

Definition unopened (led : Store B) (name : string) : SqlStore B := MkSql led name (MkMeta 0 0 []) ∅ ∅.

Lemma loadCatalog_ok O (led : Store B) st T m A name :
  stored_db O led st T m A ->
  ∃ q', loadCatalog (unopened led name) = (Ok tt, q') ∧ reads led (q_led q') ∧ q_meta q' = m ∧ ptrs_ok q' ∧
    cat_map q' = reloaded (s_ck led) st <$> A.
Proof.
  intros Hs. destruct (sd_repr _ _ _ _ _ _ Hs) as [ot Hr]. pose proof (sd_cat _ _ _ _ _ _ Hs) as Hw.
  destruct (sd_stored _ _ _ _ _ _ Hs) as [Pm Pd Pf Pt]. unfold loadCatalog.
  destruct (led_Get_ok metaKey (unopened led name) ot st Hr) as (q1 & E1 & R1). rewrite (bind_ok _ _ _ _ _ E1).
  destruct (sreads_fields _ _ R1) as (Fm & Fd & Ft & Fk). cbn in Fm, Fd, Ft, Fk. cbn [unopened q_led].
  assert (∀ m', ptrs_ok (set_meta m' q1)) as Hp1 by (intros m'; split; cbn; rewrite Ft; intros ??; by rewrite lookup_empty).
  assert (∀ m', cat_map (set_meta m' q1) = ∅) as He.
  { intros m'. unfold cat_map. cbn. rewrite Ft. apply omap_empty. }
  destruct Pm as [->|[-> ->]].
  - rewrite decide_False by (intros [?|?]; [cbn in *; lia|done]). rewrite unmarshal_meta by done. cbn [wrap_err].
    rewrite bind_lift, bind_modify.
    destruct (load_tables_ok A st ot (ca_Tables m) (set_meta m q1)) as (q' & E' & R' & Em & Hp' & Hl); [by eapply (sreads_repr _ _ _ _ R1)|done|..].
    + intros n Hn. destruct (proj1 (cw_tables _ _ Hw (ToLower n))) as [def Hd]; [by apply list_elem_of_fmap_2|].
      exists def. split_and!; [done|by eapply Pt|]. cbn. rewrite Fk, <-(Pd _ _ Hd). do 2 f_equal. apply tableKey_inj.
      symmetry. by apply (cw_name _ _ Hw).
    + exists q'. split_and!; [done|by eapply reads_trans; [apply R1|]|by rewrite Em|done|].
      apply map_eq. intros n. rewrite Hl, lookup_fmap, He. cbn. rewrite Fk. case_decide as Hin; [done|].
      rewrite (cw_tables _ _ Hw) in Hin. rewrite <-eq_None_not_Some in Hin. by rewrite Hin.
  - exists (set_meta (MkMeta 1 1 []) q1). split_and!; [done|apply R1|done..|]. rewrite He. symmetry.
    apply map_eq. intros n. rewrite lookup_fmap, lookup_empty. destruct (A !! n) as [def|] eqn:Ha; [|done].
    assert (n ∈ (ToLower <$> ca_Tables (MkMeta 1 1 []))) as Hin by (apply (cw_tables _ _ Hw); eauto). by apply not_elem_of_nil in Hin.
Qed.

(** ** Opening a database whose keyspaces are current *)

Lemma appliedVersion_ok q : ∃ q', appliedVersion q = (Ok (applied_of (sql_contents q)), q') ∧ sreads q q'.
Proof.
  unfold appliedVersion, applied_of. destruct (db_get_ok [scanMetaKey] q) as (q' & E' & R'). rewrite (bind_ok _ _ _ _ _ E').
  exists q'. split; [|done]. by destruct (sql_contents q !! [scanMetaKey]).
Qed.

Lemma reconcile_current q rounds :
  applied_of (sql_contents q) = s_version (q_led q) -> ∃ q', reconcileScanSpace rounds q = (Ok tt, q') ∧ sreads q q'.
Proof.
  intros Hm. unfold reconcileScanSpace. rewrite (bind_ok _ _ _ (s_root (q_led q), s_version (q_led q)) q) by (by destruct q).
  destruct (appliedVersion_ok q) as (q1 & E1 & R1). rewrite (bind_ok _ _ _ _ _ E1), Hm, decide_True by done. by exists q1.
Qed.

Definition opened (O : list bytes) (led : Store B) (st : gmap Hash bytes) (T : database) m A q' : Prop :=
  db_ok O q' st T ∧ q_meta q' = m ∧ cat_map q' = reloaded (s_ck led) st <$> A ∧ same_ledger led (q_led q').

Lemma open_current O (led : Store B) st T m A rounds name :
  stored_db O led st T m A -> keyspaces_ok (contents (s_backend led)) m A T ->
  applied_of (contents (s_backend led)) = s_version led ->
  ∃ q', SqlOpen rounds led name = (Ok tt, q') ∧ opened O led st T m A q'.
Proof.
  intros Hs Hk Hm. unfold SqlOpen. destruct (loadCatalog_ok O led st T m A name Hs) as (q1 & E1 & R1 & Em & Hp & Hc).
  rewrite (bind_ok _ _ _ _ _ E1). destruct (reads_fields _ _ R1) as (F1 & _ & _ & _ & F5 & _).
  assert (applied_of (sql_contents q1) = s_version (q_led q1)) as Hm1 by (unfold sql_contents; by rewrite (reads_contents _ _ R1), F5).
  destruct (reconcile_current q1 rounds Hm1) as (q2 & E2 & R2). exists q2. split; [done|].
  destruct (sreads_fields _ _ R2) as (Gm & Gd & Gt & Gk). pose proof (proj1 R2) as R2'. pose proof (reads_trans _ _ _ R1 R2') as R.
  split; [|rewrite Gm, (cat_map_ext _ _ Gt Gd); split_and!; [done..|by apply same_reads]]. apply (db_ok_reads _ _ _ _ _ R2).
  apply db_of_stored; rewrite ?Em, ?Hc; try done.
  - apply (stored_led _ led); [by apply stored_reloaded| |done]. destruct (sd_repr _ _ _ _ _ _ Hs) as [ot Hr].
    exists ot. by eapply reads_repr.
  - unfold sql_contents. rewrite (reads_contents _ _ R1). by apply keyspaces_reloaded.
Qed.
End reopen.
