(* ===== verification/SqlRebuild.v ===== *)
(** Rebuilding the derived keyspaces.

    A database whose marker is not the ledger's version drops its row keyspace and derives
    it, and the index entries, from the leaves of the ledger.  [leaf_ops] are the entries
    of one leaf; [reconcile_ok] says what the keyspaces hold afterwards: the row keyspace
    is that of the rows whatever it held before, every index entry of a row is there, and
    entries of the index keyspaces that no row derives are still there. *)

From S2P Require Import Prelude Errors Sha256 Hashing Node Aead Backend Cache Store Tree StoreRead Records StoreCommit StoreFrame Snapshot StoreOpen Ledger GoNum SqlCodec SqlIndex SqlTxn SqlOverlay SqlStore Json SqlCatalog SqlScan SqlScanOk SqlCommit SqlRefine SqlTable SqlEdit SqlSession SqlRemove SqlDdl SqlIndexBuild SqlCat SqlDdlOk SqlReopen.

Section rebuild.
Context `{H : Hasher} `{G : GCM} `{E : Entropy} `{MR : MapRange} `{CF : CaseFold} `{QT : QueryTypes}.
Context {B : Type} `{BK : Backend B} `{!BackendSpec B} `{!BackendReliable B}.
Context `{!GCMSpec} `{!EntropyLive}.
Implicit Types q : SqlStore B.
Implicit Types A : gmap string tableDef.

(** ** Steps that leave the ledger's state and the catalog *)

Record carried (ot : option tree) (st : gmap Hash bytes) q q' : Prop := {
  cy_repr : repr (q_led q') ot st;
  cy_ledger : same_ledger (q_led q) (q_led q');
  cy_same : q' = set_led (q_led q') q
}.

Lemma carried_reads ot st q q' : repr (q_led q) ot st -> sreads q q' -> carried ot st q q'.
Proof.
  intros Hr R. pose proof (sreads_repr _ _ _ _ R Hr) as Hr'. destruct R as [R Es].
  split; [done|by apply same_reads|done].
Qed.

Lemma carried_trans ot st q1 q2 q3 : carried ot st q1 q2 -> carried ot st q2 q3 -> carried ot st q1 q3.
Proof. intros [A1 A2 A3] [B1 B2 B3]. split; [done|by eapply same_trans|]. rewrite B3, A3. by destruct q1. Qed.

Lemma cy_version ot st q q' : carried ot st q q' -> s_version (q_led q') = s_version (q_led q).
Proof. intros [_ [] _]. done. Qed.
Lemma cy_ck ot st q q' : carried ot st q q' -> s_ck (q_led q') = s_ck (q_led q).
Proof. intros [_ [] _]. done. Qed.

Lemma carried_fields ot st q q' : carried ot st q q' ->
  q_meta q' = q_meta q ∧ q_defs q' = q_defs q ∧ q_tables q' = q_tables q ∧ catalog q' = catalog q.
Proof. intros [_ _ ->]. done. Qed.

Lemma carried_write ops q ot st :
  repr (q_led q) ot st -> Forall derived_op ops ->
  ∃ q', db (b_write ops) q = (Ok tt, q') ∧ carried ot st q q' ∧ sql_contents q' = apply_batch ops (sql_contents q).
Proof.
  intros Hr Ho. unfold db, led, raw_backend. destruct (write_ok ops (s_backend (q_led q))) as (b' & -> & Hc).
  assert (∀ k, ¬ derived k -> contents b' !! k = contents (s_backend (q_led q)) !! k) as Hsame.
  { intros k Hk. rewrite Hc. apply apply_batch_notin. intros op Hop <-. rewrite Forall_forall in Ho. by apply Hk, Ho. }
  eexists. split_and!; [done| |done]. split; [by apply repr_derived|by split|by destruct q].
Qed.

(** ** Dropping the row keyspace *)

Abbreviation row_first := [scanPrefix].
Abbreviation row_end := [u8 (bn scanPrefix + 1)].
Abbreviation row_space k := (row_first `prefix_of` k).

Lemma rows_range k : in_range row_first row_end k ↔ row_space k.
Proof.
  assert (incBytes row_first = Some row_end) as Hinc by reflexivity. unfold in_range. rewrite <-(incBytes_range _ _ k Hinc).
  split; [|naive_solver]. intros [Hle [?|Hlt]]; [done|done].
Qed.

Lemma row_space_derived k : row_space k -> derived k ∧ k ≠ [scanMetaKey].
Proof. intros [s ->]. split; [by left|done]. Qed.

Lemma scan_nodup D start stop limit : NoDup (scan_spec D start stop limit).
Proof.
  pose proof (scan_sorted D start stop limit) as Hs. induction Hs as [|kv l Hs IH Hf]; constructor; [|done].
  intros Hin. rewrite Forall_forall in Hf. specialize (Hf _ Hin). unfold kv_lt in Hf. by apply (irreflexivity bytes_lt) in Hf.
Qed.

(** One round deletes the first entries of the keyspace. *)
Section drop_round.
Variables (D : gmap bytes bytes) (start stop : bytes) (n : nat).
Abbreviation L := (scan_spec D start stop 0).
Abbreviation dels := ((λ kv, bdel (kv_Key kv)) <$> take n L).
Abbreviation D' := (apply_batch dels D).

Lemma drop_round_at k : D' !! k = if decide (k ∈ (kv_Key <$> take n L)) then None else D !! k.
Proof.
  case_decide as Hk.
  - apply apply_batch_in.
    + apply list_elem_of_fmap in Hk as (kv & -> & Hin). exists (bdel (kv_Key kv)). split; [|done]. apply list_elem_of_fmap. eauto.
    + intros op (kv & -> & _)%list_elem_of_fmap _. done.
  - apply apply_batch_notin. intros op (kv & -> & Hin)%list_elem_of_fmap Hkey. apply Hk. cbn in Hkey. subst k. by apply list_elem_of_fmap_2.
Qed.

Lemma drop_round_left : length (scan_spec D' start stop 0) ≤ length L - n.
Proof.
  rewrite <-length_drop. apply submseteq_length, NoDup_submseteq; [apply scan_nodup|].
  intros kv Hkv. apply elem_of_scan in Hkv as [Hr Hv]. rewrite drop_round_at in Hv. case_decide as Hk; [done|].
  assert (kv ∈ L) as Hin by (by apply elem_of_scan). rewrite <-(take_drop n L) in Hin. apply elem_of_app in Hin as [Hin|?]; [|done].
  exfalso. apply Hk. by apply list_elem_of_fmap_2.
Qed.
End drop_round.

(** What [D] holds outside the row keyspace. *)
Definition no_rows (D D' : gmap bytes bytes) : Prop := ∀ k, D' !! k = if decide (row_space k) then None else D !! k.

Lemma drop_loop_ok rounds q ot st :
  repr (q_led q) ot st -> length (scan_spec (sql_contents q) row_first row_end 0) < N.to_nat scanChunkSize * rounds ->
  ∃ q', drop_loop rounds q = (Ok tt, q') ∧ carried ot st q q' ∧ no_rows (sql_contents q) (sql_contents q').
Proof.
  revert q. induction rounds as [|rounds IH]; intros q Hr Hl; [lia|]. cbn [drop_loop].
  destruct (db_scan_ok row_first row_end scanChunkSize q) as (q1 & E1 & R1). rewrite (bind_ok _ _ _ _ _ E1).
  rewrite limited_scan by done. set (L := scan_spec (sql_contents q) row_first row_end 0) in *. set (n := N.to_nat scanChunkSize) in *.
  assert (0 < n) as Hn by (vm_compute; lia). clearbody n. pose proof (carried_reads _ _ _ _ Hr R1) as K1.
  assert (∀ k, row_space k -> (sql_contents q !! k) = None ∨ k ∈ (kv_Key <$> L)) as Hcov.
  { intros k Hk. destruct (sql_contents q !! k) as [v|] eqn:Ev; [right|by left]. apply list_elem_of_fmap. exists (MkKV k v). split; [done|].
    apply elem_of_scan. by rewrite rows_range. }
  destruct (take n L) as [|kv kvs] eqn:Et.
  { exists q1. split_and!; [done..|]. intros k. rewrite (sreads_contents _ _ R1). case_decide as Hk; [|done].
    destruct (Hcov k Hk) as [|Hin]; [done|]. destruct L; [by apply not_elem_of_nil in Hin|]. destruct n; [lia|done]. }
  rewrite <-Et. assert (Forall derived_op ((λ kv, bdel (kv_Key kv)) <$> take n L)) as Hd.
  { apply Forall_fmap, Forall_forall. intros kv' Hin. apply row_space_derived. apply rows_range.
    assert (kv' ∈ L) as [? _]%elem_of_scan by (rewrite <-(take_drop n L); apply elem_of_app; by left). done. }
  destruct (carried_write _ q1 ot st (cy_repr _ _ _ _ K1) Hd) as (q2 & E2 & K2 & C2). rewrite (bind_ok _ _ _ _ _ E2).
  rewrite (sreads_contents _ _ R1) in C2. pose proof (carried_trans _ _ _ _ _ K1 K2) as K.
  assert (∀ k, k ∈ (kv_Key <$> take n L) -> row_space k) as Hsp.
  { intros k (kv' & -> & Hin)%list_elem_of_fmap. apply rows_range.
    assert (kv' ∈ L) as [? _]%elem_of_scan by (rewrite <-(take_drop n L); apply elem_of_app; by left). done. }
  pose proof (drop_round_at (sql_contents q) row_first row_end n) as Hat. fold L in Hat. rewrite <-C2 in Hat.
  case_decide as Hs.
  - exists q2. split_and!; [done..|]. intros k. rewrite Hat. rewrite length_take in Hs. rewrite take_ge in Hsp |- * by lia.
    case_decide as Hin; [by rewrite decide_True by auto|]. case_decide as Hk; [|done]. by destruct (Hcov k Hk).
  - destruct (IH q2) as (q3 & E3 & K3 & N3); [apply K|..].
    { rewrite C2. pose proof (drop_round_left (sql_contents q) row_first row_end n) as Hlen. fold L in Hlen.
      rewrite length_take in Hs. lia. }
    exists q3. split_and!; [done|by eapply carried_trans|]. intros k. rewrite N3. case_decide as Hk; [done|].
    rewrite Hat, decide_False; [done|]. intros Hin. by apply Hk, Hsp.
Qed.

(** ** The entries of a leaf *)

(** A value that looks like a row of a table of the catalog: the tag and a known id. *)
Definition leaf_table (cat : N -> option tableDef) (v : bytes) : option tableDef :=
  if decide (length v < 9 ∨ head v ≠ Some tagRow) then None else cat (unbe (take 8 (drop 1 v))).

Definition row_entries (def : tableDef) (r : row) (pk : bytes) : list BatchOp :=
  bput (scanKey (td_ID def) pk) [] :: indexInsertOps def r pk.

Definition leaf_ops (cat : N -> option tableDef) (l : Leaf) : list BatchOp :=
  match leaf_table cat (lf_Value l) with
  | Some def => match decodeRow (td_Columns def) (drop 9 (lf_Value l)) with
                | Ok r => match encodePK def r with Ok pk => row_entries def r pk | _ => [] end
                | _ => []
                end
  | None => []
  end.

(** A leaf the rebuild can read. *)
Definition leaf_readable (cat : N -> option tableDef) (l : Leaf) : Prop :=
  ∀ def, leaf_table cat (lf_Value l) = Some def ->
    ∃ r pk, decodeRow (td_Columns def) (drop 9 (lf_Value l)) = Ok r ∧ encodePK def r = Ok pk.

Lemma elem_of_row_entries def r pk op :
  is_ok (indexOps def r pk false) = true ->
  op ∈ row_entries def r pk ↔ ∃ idx k, index_of def idx ∧ entry_at def idx r pk = Ok k ∧ op = bput k (entry_value idx pk).
Proof.
  intros Hok. unfold row_entries, indexInsertOps. destruct (indexOps def r pk false) as [ops|e|w] eqn:Eo; try done.
  apply index_ops_spec in Eo as [Ho1 Ho2]. rewrite elem_of_cons. split.
  - intros [->|Hop]; [by exists None, (scanKey (td_ID def) pk)|]. destruct (Ho2 op Hop) as (ix & k & Hix & Hk & ->). by exists (Some ix), k.
  - intros ([ix|] & k & Hi & Hk & ->); [|left; by injection Hk as <-]. right. destruct (Ho1 ix Hi) as (k' & Hk' & Hin).
    cbn in Hk. rewrite Hk in Hk'. by injection Hk' as <-.
Qed.

Lemma row_entries_derived def r pk : Forall derived_op (row_entries def r pk).
Proof.
  destruct (is_ok (indexOps def r pk false)) eqn:Hok.
  - apply Forall_forall. intros op (idx & k & _ & Hk & ->)%elem_of_row_entries; [|done].
    by apply entry_at_space, space_derived in Hk as [? _].
  - unfold row_entries, indexInsertOps. destruct (indexOps def r pk false); try done; (constructor; [by left|constructor]).
Qed.

Lemma rebuild_leaf_ok l ops q ot st :
  repr (q_led q) ot st -> Forall derived_op ops -> leaf_readable (catalog q) l ->
  ∃ ops' q', rebuild_leaf ops l q = (Ok ops', q') ∧ carried ot st q q' ∧ Forall derived_op ops' ∧
    apply_batch ops' (sql_contents q') = apply_batch (ops ++ leaf_ops (catalog q) l) (sql_contents q).
Proof.
  intros Hr Ho Hl. unfold rebuild_leaf, leaf_ops, leaf_readable, leaf_table in *. cbn zeta.
  pose proof (carried_reads ot st q q Hr ltac:(done)) as K0.
  destruct (decide (length (lf_Value l) < 9 ∨ head (lf_Value l) ≠ Some tagRow)) as [Ht|Ht].
  { exists ops, q. by rewrite app_nil_r. }
  set (id := unbe (take 8 (drop 1 (lf_Value l)))) in *. rewrite (bind_ok _ _ _ _ _ (tableByID_run id q)).
  unfold catalog in *. destruct (table_ptr q id) as [p|] eqn:Ep; cbn [mbind option_bind] in *; [|exists ops, q; by rewrite app_nil_r].
  destruct (q_defs q !! p) as [def|] eqn:Ed.
  - destruct (Hl def eq_refl) as (r & pk & Er & Epk). rewrite (bind_ok _ _ _ _ _ (deref_ok _ _ _ Ed)), Er, Epk.
    rewrite (bind_ok _ _ _ r q) by done. rewrite (bind_ok _ _ _ pk q) by (unfold lift; by rewrite Epk).
    assert (td_ID def = id) as Eid by (apply (catalog_id q); unfold catalog; by rewrite Ep). rewrite <-Eid.
    change (bput (scanKey (td_ID def) pk) [] :: indexInsertOps def r pk) with (row_entries def r pk).
    assert (Forall derived_op (ops ++ row_entries def r pk)) as Ho' by (apply Forall_app; split; [done|apply row_entries_derived]).
    case_decide as Hlen; [|by exists (ops ++ row_entries def r pk), q].
    destruct (carried_write _ q ot st Hr Ho') as (q1 & E1 & K1 & C1). rewrite (bind_ok _ _ _ _ _ E1).
    exists [], q1. split_and!; [done..|]. by rewrite C1.
  - exfalso. unfold table_ptr in Ep. destruct (list_find _ _) as [[i [n p']]|] eqn:Ef; [|done]. cbn in Ep. injection Ep as ->.
    apply list_find_Some in Ef as (_ & Hid & _). cbn in Hid. by rewrite Ed in Hid.
Qed.

Lemma rebuild_leaves_ok ls ops q ot st :
  repr (q_led q) ot st -> Forall derived_op ops -> Forall (leaf_readable (catalog q)) ls ->
  ∃ ops' q', foldM rebuild_leaf ops ls q = (Ok ops', q') ∧ carried ot st q q' ∧ Forall derived_op ops' ∧
    apply_batch ops' (sql_contents q') = apply_batch (ops ++ (ls ≫= leaf_ops (catalog q))) (sql_contents q).
Proof.
  intros Hr Ho Hls. remember (catalog q) as cat eqn:Ecat. revert ops q Hr Ho Ecat.
  induction Hls as [|l ls Hl Hls IH]; intros ops q Hr Ho ->; cbn [foldM mbind list_bind].
  { exists ops, q. rewrite app_nil_r. split_and!; [done|by apply carried_reads|done..]. }
  destruct (rebuild_leaf_ok l ops q ot st Hr Ho Hl) as (ops1 & q1 & E1 & K1 & Ho1 & C1). rewrite (bind_ok _ _ _ _ _ E1).
  destruct (carried_fields _ _ _ _ K1) as (_ & _ & _ & Fc).
  destruct (IH ops1 q1) as (ops2 & q2 & E2 & K2 & Ho2 & C2); [apply K1|done|done|].
  exists ops2, q2. split_and!; [done|by eapply carried_trans|done|]. by rewrite C2, apply_batch_app, C1, <-apply_batch_app, app_assoc.
Qed.

Lemma rebuild_loop_ok rounds sa ops q ot st :
  repr (q_led q) ot st -> (∀ t, ot = Some t -> t_hash t ≠ placeholderHash) -> Forall derived_op ops ->
  Forall (leaf_readable (catalog q)) (snapshot_of sa st) ->
  0 < rounds -> length (snapshot_of sa st) ≤ N.to_nat scanChunkSize * rounds ->
  ∃ ops' q', rebuild_loop rounds (s_version (q_led q)) sa ops q = (Ok ops', q') ∧ carried ot st q q' ∧ Forall derived_op ops' ∧
    apply_batch ops' (sql_contents q') = apply_batch (ops ++ (snapshot_of sa st ≫= leaf_ops (catalog q))) (sql_contents q).
Proof.
  intros Hr Hne Ho Hls Hpos Hlen. revert sa ops q Hr Ho Hls Hpos Hlen.
  induction rounds as [|rounds IH]; intros sa ops q Hr Ho Hls Hpos Hlen; [lia|]. cbn [rebuild_loop].
  destruct (SnapshotLeaves_ok (q_led q) (s_version (q_led q)) ot st sa (Z.of_N scanChunkSize)) as (s1 & E1 & R1);
    [apply Hr|apply Hr|done|done|].
  change (Z.to_nat (Z.of_N scanChunkSize)) with (N.to_nat scanChunkSize) in E1.
  destruct (led_reads _ _ _ _ E1 R1) as [E1' R1']. rewrite (bind_ok _ _ _ _ _ E1'). set (q1 := set_led s1 q) in *.
  pose proof (carried_reads _ _ _ _ Hr R1') as K1. destruct (carried_fields _ _ _ _ K1) as (_ & _ & _ & Fc).
  set (n := N.to_nat scanChunkSize) in *. assert (0 < n) as Hn by (vm_compute; lia). clearbody n. clear E1 E1'.
  set (L := snapshot_of sa st) in *. rewrite <-(take_drop n L) in Hls. apply Forall_app in Hls as [Hl1 Hl2].
  destruct (rebuild_leaves_ok (take n L) ops q1 ot st) as (ops2 & q2 & E2 & K2 & Ho2 & C2); [apply K1|done|by rewrite Fc|].
  rewrite (bind_ok _ _ _ _ _ E2). pose proof (carried_trans _ _ _ _ _ K1 K2) as K. rewrite Fc, (sreads_contents _ _ R1') in C2.
  case_bool_decide as Hd.
  - exists ops2, q2. split_and!; [done..|]. by rewrite C2, take_ge.
  - destruct (last (take n L)) as [x|] eqn:Ex; [|apply last_None, (f_equal length) in Ex; rewrite length_take in Ex; cbn in Ex; lia].
    pose proof (snapshot_resume sa st n x Ex) as Es. fold L in Es. destruct (carried_fields _ _ _ _ K) as (_ & _ & _ & Fc2).
    destruct (IH (Some (lf_Path x)) ops2 q2) as (ops3 & q3 & E3 & K3 & Ho3 & C3); rewrite ?Es, ?Fc2, ?length_drop; try done; [apply K|nia..|].
    rewrite (cy_version _ _ _ _ K) in E3. exists ops3, q3. split_and!; [done|by eapply carried_trans|done|].
    rewrite C3, Es, Fc2, apply_batch_app, C2, <-apply_batch_app, <-app_assoc. by rewrite <-bind_app, take_drop.
Qed.

(** ** The keyspaces after a rebuild *)

(** Rows are under the encoding of their primary key, and no other entry of the ledger
    looks like a row of a table. *)
Definition rows_keyed A (T : database) : Prop :=
  ∀ n def pk r, A !! n = Some def -> trow T (td_ID def) pk = Some r -> encodePK def r = Ok pk.
Definition others_plain (O : list bytes) (ck : bytes) (st : gmap Hash bytes) A : Prop :=
  ∀ k v n def, k ∈ O -> st !! pathOf ck k = Some v -> A !! n = Some def ->
    9 ≤ length v -> head v = Some tagRow -> unbe (take 8 (drop 1 v)) ≠ td_ID def.

(** The derived entries of the rows. *)
Definition entry_of A (T : database) (k v : bytes) : Prop :=
  ∃ n def pk r idx, A !! n = Some def ∧ trow T (td_ID def) pk = Some r ∧ index_of def idx ∧
    entry_at def idx r pk = Ok k ∧ v = entry_value idx pk.

(** What a rebuild makes of the keyspaces [D]. *)
Definition rebuilt A (T : database) (D D' : gmap bytes bytes) : Prop :=
  ∀ k, k ≠ [scanMetaKey] ->
    (∃ v, entry_of A T k v ∧ D' !! k = Some v) ∨
    ((∀ v, ¬ entry_of A T k v) ∧ D' !! k = if decide (row_space k) then None else D !! k).

(** The index keyspaces hold entries of rows only, and none for ids not given out yet. *)
Definition index_sound A (T : database) (D : gmap bytes bytes) : Prop :=
  ∀ n def ix k v, A !! n = Some def -> ix ∈ td_Indexes def -> in_space def (Some ix) k -> D !! k = Some v -> entry_of A T k v.
Definition index_fresh (m : catalogMeta) (D : gmap bytes bytes) : Prop :=
  ∀ id s, is_u64 id -> (ca_NextIndexID m ≤ id)%N -> D !! (secondarySpace id ++ s) = None.

Section reconcile.
Variables (O : list bytes) (q : SqlStore B) (st : gmap Hash bytes) (T : database).
Hypothesis Hs : stored_db O (q_led q) st T (q_meta q) (cat_map q).
Hypothesis Hkeyed : rows_keyed (cat_map q) T.
Hypothesis Hplain : others_plain O (s_ck (q_led q)) st (cat_map q).
Abbreviation A := (cat_map q).
Abbreviation all_ops := (snapshot_of None st ≫= leaf_ops (catalog q)).

Lemma cat_iff id def : catalog q id = Some def ↔ ∃ n, A !! n = Some def ∧ td_ID def = id.
Proof. apply catalog_iff, Hs. Qed.

Lemma elem_of_snapshot l : l ∈ snapshot_of None st ↔ st !! lf_Path l = Some (lf_Value l).
Proof. unfold snapshot_of. rewrite list_elem_of_filter, elem_of_state_leaves. cbn. naive_solver. Qed.

(** The value of a row is read as that row. *)
Lemma payload_table n def enc : A !! n = Some def -> leaf_table (catalog q) (row_payload def enc) = Some def.
Proof.
  intros Hn. assert (is_u64 (td_ID def)) as Hu by (eapply cat_u64; [apply Hs|done]). unfold leaf_table, row_payload. rewrite decide_False.
  - cbn [drop]. rewrite drop_0, take_app_length' by (by rewrite length_be). rewrite unbe_be8 by done. apply cat_iff. eauto.
  - intros [Hl|?]; [|done]. cbn in Hl. rewrite length_app, length_be in Hl. lia.
Qed.

Lemma payload_row n def pk r :
  A !! n = Some def -> trow T (td_ID def) pk = Some r ->
  st !! pathOf (s_ck (q_led q)) (rowKey (td_ID def) pk) = Some (row_payload def (row_enc def r)) ∧ row_fits def r ∧
  decodeRow (td_Columns def) (drop 9 (row_payload def (row_enc def r))) = Ok r ∧ encodePK def r = Ok pk.
Proof.
  intros Hn Hr. destruct (sd_rows _ _ _ _ _ _ Hs _ _ _ Hr) as (n' & def' & Hn' & Hid & Hf & Hst).
  assert (n' = n) as -> by (by eapply (cw_id _ _ (sd_cat _ _ _ _ _ _ Hs))). simplify_eq. split_and!; [done|done| |by eapply Hkeyed].
  destruct (row_fits_enc _ _ Hf) as [_ Hd]. unfold row_payload.
  change (tagRow :: be 8 (td_ID def) ++ row_enc def r) with ((tagRow :: be 8 (td_ID def)) ++ row_enc def r).
  by rewrite drop_app_length' by (cbn; by rewrite length_be).
Qed.

(** A leaf of a table of the catalog is the row it was written for. *)
Lemma leaf_row l def :
  l ∈ snapshot_of None st -> leaf_table (catalog q) (lf_Value l) = Some def ->
  ∃ n pk r, A !! n = Some def ∧ trow T (td_ID def) pk = Some r ∧ lf_Value l = row_payload def (row_enc def r).
Proof.
  intros Hl%elem_of_snapshot Ht. destruct (sd_dom _ _ _ _ _ _ Hs (lf_Path l)) as (k & Hk & [Ho|(id & pk & r & Hr & ->)%elem_of_row_keys]); [eauto|..].
  - exfalso. unfold leaf_table in Ht. case_decide as Hd; [done|]. apply cat_iff in Ht as (n & Hn & Hid).
    rewrite Hk in Hl. apply (Hplain k _ n def Ho Hl Hn); [lia| |done].
    destruct (decide (head (lf_Value l) = Some tagRow)); [done|]. naive_solver.
  - destruct (sd_rows _ _ _ _ _ _ Hs _ _ _ Hr) as (n & def' & Hn & <- & _ & Hst). rewrite Hk, Hst in Hl. injection Hl as Hv.
    rewrite <-Hv, (payload_table n) in Ht by done. injection Ht as ->. by exists n, pk, r.
Qed.

Lemma leaves_readable : Forall (leaf_readable (catalog q)) (snapshot_of None st).
Proof.
  apply Forall_forall. intros l Hl def Ht. destruct (leaf_row l def Hl Ht) as (n & pk & r & Hn & Hr & ->).
  destruct (payload_row n def pk r Hn Hr) as (_ & _ & Hd & Hpk). eauto.
Qed.

Lemma entries_total n def pk r : A !! n = Some def -> trow T (td_ID def) pk = Some r -> is_ok (indexOps def r pk false) = true.
Proof.
  intros Hn Hr. destruct (payload_row n def pk r Hn Hr) as (_ & Hf & _). apply indexOps_total; [|done].
  eapply (cw_defs _ _ (sd_cat _ _ _ _ _ _ Hs)), Hn.
Qed.

Lemma elem_of_all_ops op : op ∈ all_ops ↔ ∃ k v, entry_of A T k v ∧ op = bput k v.
Proof.
  rewrite list_elem_of_bind. split.
  - intros (l & Hop & Hl). unfold leaf_ops in Hop. destruct (leaf_table (catalog q) (lf_Value l)) as [def|] eqn:Ht;
      [|by apply not_elem_of_nil in Hop].
    destruct (leaf_row l def Hl Ht) as (n & pk & r & Hn & Hr & Hv). destruct (payload_row n def pk r Hn Hr) as (_ & _ & Hd & Hpk).
    rewrite Hv, Hd, Hpk in Hop. apply elem_of_row_entries in Hop as (idx & k & Hi & Hk & ->); [|by eapply entries_total].
    exists k, (entry_value idx pk). split; [|done]. by exists n, def, pk, r, idx.
  - intros (k & v & (n & def & pk & r & idx & Hn & Hr & Hi & Hk & ->) & ->).
    destruct (payload_row n def pk r Hn Hr) as (Hst & _ & Hd & Hpk).
    exists (MkLeaf (pathOf (s_ck (q_led q)) (rowKey (td_ID def) pk)) (row_payload def (row_enc def r))). rewrite elem_of_snapshot.
    split; [|done]. unfold leaf_ops. cbn [lf_Value]. rewrite (payload_table n) by done. rewrite Hd, Hpk.
    apply elem_of_row_entries; [by eapply entries_total|]. by exists idx, k.
Qed.

(** A key is the entry of one row only. *)
Lemma same_space n def n' def' idx idx' r' pk' k :
  A !! n = Some def -> A !! n' = Some def' -> index_of def idx -> index_of def' idx' ->
  in_space def idx k -> entry_at def' idx' r' pk' = Ok k -> def' = def ∧ idx' = idx.
Proof.
  intros Hn Hn' Hi Hi' Hk He'. pose proof (sd_cat _ _ _ _ _ _ Hs) as Hw. pose proof (entry_at_space _ _ _ _ _ He') as Hk'.
  assert (td_ID def = td_ID def') as Eid.
  { eapply (tables_apart q); [by apply cat_catalog_ok|apply cat_iff; eauto|apply cat_iff; eauto|exact Hi|exact Hi'|done..]. }
  assert (n = n') as <- by (by eapply (cw_id _ _ Hw)). simplify_eq. split; [done|].
  destruct idx as [ix|], idx' as [ix'|]; [|by destruct Hk as [s ->], Hk' as [s' ?]..|done].
  f_equal. eapply spaces_apart; [eapply cat_u64; done|done..].
Qed.

Lemma entry_fun k v v' : entry_of A T k v -> entry_of A T k v' -> v = v'.
Proof.
  intros (n & def & pk & r & idx & Hn & Hr & Hi & Hk & ->) (n' & def' & pk' & r' & idx' & Hn' & Hr' & Hi' & Hk' & ->).
  destruct (same_space n def n' def' idx idx' r' pk' k) as [-> ->]; [done..|by eapply entry_at_space|done|].
  f_equal. by eapply entry_at_inj.
Qed.

Lemma all_ops_rebuilt D D1 version :
  no_rows D D1 -> rebuilt A T D (apply_batch (all_ops ++ [marker version]) D1).
Proof.
  intros HD k Hk. rewrite apply_batch_app, (apply_batch_notin [_]) by (intros op ->%list_elem_of_singleton; cbn; congruence).
  destruct (decide (Exists (λ op, bo_Key op = k) all_ops)) as [(op & Hop & <-)%Exists_exists|Hno].
  - left. pose proof Hop as (k & v & He & ->)%elem_of_all_ops. exists v. split; [done|]. apply apply_batch_in; [eauto|].
    intros op' (k' & v' & He' & ->)%elem_of_all_ops Hk'. cbn in *. subst k'. f_equal. by eapply entry_fun.
  - right. split.
    + intros v He. apply Hno, Exists_exists. exists (bput k v). split; [|done]. apply elem_of_all_ops. eauto.
    + rewrite apply_batch_notin; [apply HD|]. intros op Hop Hk'. apply Hno, Exists_exists. eauto.
Qed.

Lemma reconcile_ok rounds ot :
  repr (q_led q) ot st -> (∀ t, ot = Some t -> t_hash t ≠ placeholderHash) -> is_u64 (s_version (q_led q)) ->
  applied_of (sql_contents q) ≠ s_version (q_led q) ->
  length (scan_spec (sql_contents q) row_first row_end 0) < N.to_nat scanChunkSize * rounds -> size st ≤ N.to_nat scanChunkSize * rounds ->
  ∃ q', reconcileScanSpace rounds q = (Ok tt, q') ∧ carried ot st q q' ∧
    rebuilt A T (sql_contents q) (sql_contents q') ∧ applied_of (sql_contents q') = s_version (q_led q').
Proof.
  intros Hr Hne Hu Hm Hk1 Hk2. unfold reconcileScanSpace.
  rewrite (bind_ok _ _ _ (s_root (q_led q), s_version (q_led q)) q) by (by destruct q).
  destruct (appliedVersion_ok q) as (q1 & E1 & R1). rewrite (bind_ok _ _ _ _ _ E1), decide_False by done.
  pose proof (carried_reads _ _ _ _ Hr R1) as K1. pose proof (sreads_contents _ _ R1) as C1.
  destruct (drop_loop_ok rounds q1 ot st) as (q2 & E2 & K2 & N2); [apply K1|by rewrite C1|]. rewrite (bind_ok _ _ _ _ _ E2).
  pose proof (carried_trans _ _ _ _ _ K1 K2) as K12. destruct (carried_fields _ _ _ _ K12) as (_ & _ & _ & Fc).
  destruct (rebuild_loop_ok rounds None [] q2 ot st) as (ops & q3 & E3 & K3 & Ho3 & C3);
    [apply K12|done|constructor|rewrite Fc; apply leaves_readable|lia| |].
  { unfold snapshot_of. etrans; [apply length_filter|]. rewrite state_leaves_perm, length_fmap. by rewrite length_map_to_list. }
  rewrite (cy_version _ _ _ _ K12) in E3. rewrite (bind_ok _ _ _ _ _ E3).
  destruct (carried_write (ops ++ [marker (s_version (q_led q))]) q3 ot st) as (q4 & E4 & K4 & C4);
    [apply K3|apply Forall_app; split; [done|]; constructor; [right; by left|constructor]|].
  pose proof (carried_trans _ _ _ _ _ K12 (carried_trans _ _ _ _ _ K3 K4)) as K. exists q4. split_and!; [done..| |].
  - rewrite C4, apply_batch_app, C3, <-apply_batch_app, Fc. apply all_ops_rebuilt. by rewrite <-C1.
  - rewrite C4, apply_batch_app, (cy_version _ _ _ _ K). unfold applied_of. change (apply_batch [?op] ?x) with (apply_op x op).
    unfold apply_op. cbn [marker bput bo_Delete bo_Key bo_Value]. by rewrite lookup_insert_eq, length_be, decide_True, unbe_be8.
Qed.

(** The row keyspaces are right whatever they held; the keyspaces of the indexes are if
    they held no entry but those of the rows. *)
Lemma rebuilt_rows D D' n def k v :
  rebuilt A T D D' -> A !! n = Some def -> in_space def None k ->
  D' !! k = Some v ↔ ∃ pk r, trow T (td_ID def) pk = Some r ∧ k = scanKey (td_ID def) pk ∧ v = [].
Proof.
  intros Hb Hn Hsp. assert (row_space k) as Hrs by (apply scan_space in Hsp as [s ->]; by eexists). destruct (row_space_derived _ Hrs) as [_ Hne].
  destruct (Hb k Hne) as [(v' & He & ->)|[Hno ->]].
  - split.
    + intros [= <-]. destruct He as (n' & def' & pk & r & idx & Hn' & Hr & Hi & Hk & ->).
      destruct (same_space n def n' def' None idx r pk k) as [-> ->]; [done..|]. injection Hk as <-. by exists pk, r.
    + intros (pk & r & Hr & -> & ->). f_equal. eapply entry_fun; [exact He|]. by exists n, def, pk, r, None.
  - rewrite decide_True by done. split; [done|]. intros (pk & r & Hr & -> & ->). exfalso. apply (Hno []). by exists n, def, pk, r, None.
Qed.

Lemma rebuilt_derived D D' n def :
  rebuilt A T D D' -> index_sound A T D -> A !! n = Some def -> derived_ok D' def (trows T (td_ID def)).
Proof.
  intros Hb Hsound Hn [ix|] k v Hi Hsp.
  - destruct (space_derived _ _ _ Hsp) as [_ Hne].
    assert ((∃ pk r, trows T (td_ID def) !! pk = Some r ∧ entry_at def (Some ix) r pk = Ok k ∧ v = entry_value (Some ix) pk) ↔ entry_of A T k v) as ->.
    { split.
      - intros (pk & r & Hr & Hk & ->). rewrite lookup_trows in Hr. by exists n, def, pk, r, (Some ix).
      - intros (n' & def' & pk & r & idx & Hn' & Hr & Hi' & Hk & ->).
        destruct (same_space n def n' def' (Some ix) idx r pk k) as [-> ->]; [done..|]. exists pk, r. by rewrite lookup_trows. }
    destruct (Hb k Hne) as [(v' & He & ->)|[Hno ->]].
    + split; [by intros [= <-]|]. intros He'. f_equal. by eapply entry_fun.
    + rewrite decide_False by (by intros [s ->]; destruct Hsp as [s' ?]). split; [|by intros ?%Hno]. by eapply Hsound.
  - rewrite (rebuilt_rows D D' n def k v Hb Hn Hsp). apply exist_proper. intros pk. apply exist_proper. intros r.
    rewrite lookup_trows. cbn [entry_at entry_value]. split; [intros (? & -> & ->)|intros (? & [= <-] & ->)]; done.
Qed.

Lemma rebuilt_keyspaces D D' : rebuilt A T D D' -> index_sound A T D -> index_fresh (q_meta q) D -> keyspaces_ok D' (q_meta q) A T.
Proof.
  intros Hb Hsound Hfr. pose proof (sd_cat _ _ _ _ _ _ Hs) as Hw. split; [intros n def Hn; by eapply rebuilt_derived|].
  split; intros id s Hu Hle.
  - destruct (Hb (scanKey id s)) as [(v & (n & def & pk & r & idx & Hn & Hr & Hi & Hk & _) & _)|[_ ->]]; [done| |].
    + exfalso. apply entry_at_space in Hk as [s' Hk]. destruct idx as [ix|]; [done|]. cbn [index_space] in Hk.
      destruct (cat_u64 _ _ _ _ Hw Hn) as [Hud _]. pose proof (cw_id_lt _ _ Hw _ _ Hn).
      apply (f_equal (drop 1)) in Hk. unfold scanKey in Hk. cbn [drop app] in Hk. rewrite app_nil_r in Hk.
      apply app_inj_len in Hk as [Hk _]; [|by rewrite !length_be]. apply be8_inj in Hk; [lia|done..].
    + rewrite decide_True; [done|]. by exists (be 8 id ++ s).
  - destruct (Hb (secondarySpace id ++ s)) as [(v & (n & def & pk & r & idx & Hn & Hr & Hi & Hk & _) & _)|[_ ->]]; [done| |].
    + exfalso. apply entry_at_space in Hk. destruct idx as [ix|]; [|by apply scan_space in Hk as [s' ?]].
      pose proof (cw_ix_lt _ _ Hw _ _ _ Hn Hi). destruct (cat_u64 _ _ _ _ Hw Hn) as [_ [Hix _]]. rewrite Forall_forall in Hix.
      eapply (other_space def ix); [by apply Hix|exact Hu|lia|reflexivity|exact Hk].
    + rewrite decide_False by (by intros [s' ?]). by apply Hfr.
Qed.
End reconcile.

(** ** Opening a database whose keyspaces are stale *)

Section reload.
Variables (ck : bytes) (st : gmap Hash bytes) (A : gmap string tableDef) (T : database).
Abbreviation A' := (reloaded ck st <$> A).

Lemma lookup_reloaded n def : A' !! n = Some def ↔ ∃ d, A !! n = Some d ∧ def = reloaded ck st d.
Proof. rewrite lookup_fmap, fmap_Some. done. Qed.

Lemma entry_of_reloaded k v : entry_of A' T k v ↔ entry_of A T k v.
Proof.
  split.
  - intros (n & def & pk & r & idx & (d & Hd & ->)%lookup_reloaded & Hr & Hi & Hk & ->). by exists n, d, pk, r, idx; destruct idx.
  - intros (n & d & pk & r & idx & Hd & Hr & Hi & Hk & ->). exists n, (reloaded ck st d), pk, r, idx.
    rewrite lookup_reloaded. split_and!; [eauto|..]; by destruct idx.
Qed.

Lemma rebuilt_reloaded D D' : rebuilt A' T D D' ↔ rebuilt A T D D'.
Proof. unfold rebuilt. by setoid_rewrite entry_of_reloaded. Qed.

Lemma rows_keyed_reloaded : rows_keyed A T -> rows_keyed A' T.
Proof. intros Hk n def pk r (d & Hd & ->)%lookup_reloaded Hr. exact (Hk n d pk r Hd Hr). Qed.

Lemma others_plain_reloaded O : others_plain O ck st A -> others_plain O ck st A'.
Proof. intros Ho k v n def Hin Hv (d & Hd & ->)%lookup_reloaded. exact (Ho k v n d Hin Hv Hd). Qed.

Lemma index_sound_reloaded D : index_sound A T D -> index_sound A' T D.
Proof. intros Hi n def ix k v (d & Hd & ->)%lookup_reloaded Hix Hsp Hv. apply entry_of_reloaded. exact (Hi n d ix k v Hd Hix Hsp Hv). Qed.
End reload.

Lemma open_rebuilds O (led : Store B) ot st T m A rounds name :
  stored_db O led st T m A -> rows_keyed A T -> others_plain O (s_ck led) st A ->
  repr led ot st -> (∀ t, ot = Some t -> t_hash t ≠ placeholderHash) -> is_u64 (s_version led) ->
  applied_of (contents (s_backend led)) ≠ s_version led ->
  length (scan_spec (contents (s_backend led)) row_first row_end 0) < N.to_nat scanChunkSize * rounds ->
  size st ≤ N.to_nat scanChunkSize * rounds ->
  ∃ q', SqlOpen rounds led name = (Ok tt, q') ∧ rebuilt A T (contents (s_backend led)) (sql_contents q') ∧
    (index_sound A T (contents (s_backend led)) -> index_fresh m (contents (s_backend led)) -> opened O led st T m A q').
Proof.
  intros Hs Hkeyed Hplain Hr Hne Hu Hm Hl Hsz. unfold SqlOpen.
  destruct (loadCatalog_ok O led st T m A name Hs) as (q1 & E1 & R1 & Em & Hp & Hc). rewrite (bind_ok _ _ _ _ _ E1).
  destruct (reads_fields _ _ R1) as (F1 & _ & _ & _ & F5 & _). pose proof (reads_contents _ _ R1) as C1. fold (sql_contents q1) in C1.
  pose proof (reads_repr _ _ _ _ R1 Hr) as Hr1.
  assert (stored_db O (q_led q1) st T (q_meta q1) (cat_map q1)) as Hs1
    by (rewrite Em, Hc; apply (stored_led _ led); [by apply stored_reloaded|eauto|done]).
  destruct (reconcile_ok O q1 st T Hs1) with (rounds := rounds) (ot := ot) as (q2 & E2 & K2 & Hb & Ha);
    rewrite ?Hc, ?F1, ?F5, ?C1; try done; [by apply rows_keyed_reloaded|by apply others_plain_reloaded|].
  exists q2. split; [done|]. rewrite Hc, C1, rebuilt_reloaded in Hb. split; [done|]. intros Hsound Hfresh.
  destruct (carried_fields _ _ _ _ K2) as (Gm & Gd & Gt & _). pose proof (cat_map_ext _ _ Gt Gd) as Gc.
  split; [|rewrite Gm, Gc; split_and!; [done..|eapply same_trans; [by apply same_reads|apply K2]]].
  apply db_of_stored; rewrite ?Gm, ?Gc; [|by eapply ptrs_ok_ext| |done].
  - apply (stored_led _ (q_led q1)); [done|exists ot; apply K2|by eapply cy_ck].
  - apply (rebuilt_keyspaces O q1 st T Hs1) with (D := contents (s_backend led)); rewrite ?Hc, ?Em.
    + by rewrite rebuilt_reloaded.
    + by apply index_sound_reloaded.
    + done.
Qed.
End rebuild.
