(* ===== verification/SqlWorld.v ===== *)
(** Interleaved sessions.

    The calls of any number of sessions run one after another on the shared store, in
    any order.  [world_ok] is the invariant; [calls_serial] shows that the tables are at
    every point the result of the committed transactions applied one after another,
    each of them based on the rows it replaces: no update is lost. *)

From S2P Require Import Prelude Errors Sha256 Hashing Node Aead Backend Cache Store Tree StoreRead Records StoreCommit StoreFrame GoNum SqlCodec SqlIndex SqlTxn SqlOverlay SqlStore SqlScan SqlScanOk SqlCommit SqlRefine SqlTable SqlEdit SqlSession.

(** The shared store and the open transaction of every session. *)
Record World (B : Type) := MkWorld { w_store : SqlStore B; w_txns : gmap nat storeTxn }.
Arguments MkWorld {B}. Arguments w_store {B}. Arguments w_txns {B}.

Inductive call := CallBegin (readOnly : bool) | CallStmt (table : defptr) (eds : list row_edit) | CallCommit | CallRollback.

Section run.
Context `{H : Hasher} `{G : GCM} `{E : Entropy} `{MR : MapRange} {B : Type} `{BK : Backend B}.

Definition put_session (i : nat) (w : World B) (q : SqlStore B) (t : option storeTxn) : World B :=
  MkWorld q (partial_alter (λ _, t) i (w_txns w)).

(** One call of session [i]. *)
Definition run_call (i : nat) (c : call) (w : World B) : outcome unit * World B :=
  let in_session m := let '(o, s) := m (MkSession (w_store w) (w_txns w !! i)) in
                      (o, put_session i w (se_store s) (se_txn s)) in
  match c with
  | CallBegin ro => in_session (StartTransaction ro)
  | CallCommit => in_session CommitTransaction
  | CallRollback => in_session Rollback
  | CallStmt p eds =>
      let '(o, e) := statement eds (newEditor (w_store w) p (w_txns w !! i)) in
      (o, put_session i w (ed_store e) (ed_txn e))
  end.
End run.

(** * Buffers of transactions that were overtaken *)

(** Rows of an edit have the columns' types. *)
Definition edit_fits (def : tableDef) (ed : row_edit) : Prop :=
  match ed with
  | EInsert r | EDelete r => row_fits def r
  | EUpdate old new => row_fits def old ∧ row_fits def new
  end.

Definition rows_wf (def : tableDef) (rows : gmap bytes pendingRow) : Prop :=
  map_Forall (λ k p, p_pkEnc p = k ∧ row_pending def p) rows.

Lemma edit_row_wf def k old new pend :
  rows_wf def pend -> (∀ r, old = Some r ∨ new = Some r -> row_fits def r) ->
  rows_wf def (<[k := edit_row k old new (pend !! k)]> pend).
Proof.
  intros Hw Hf. apply map_Forall_insert_2; [|done]. unfold edit_row. destruct (pend !! k) as [p|] eqn:Ep.
  - destruct (Hw _ _ Ep) as [Hk Hp]. split; [done|]. intros r [Ho|Hn]; [apply Hp; by left|apply Hf; by right].
  - split; [done|]. intros r [Ho|Hn]; apply Hf; auto.
Qed.

Lemma merge_rows_wf def tr pend : rows_wf def tr -> rows_wf def pend -> rows_wf def (merge_rows tr pend).
Proof.
  intros Ht Hp k p. rewrite lookup_merge_rows. destruct (pend !! k) as [p'|] eqn:Ep, (tr !! k) as [q|] eqn:Eq; intros [= <-].
  - destruct (Ht _ _ Eq) as [Hk Hq], (Hp _ _ Ep) as [_ Hp']. split; [done|].
    intros r [Ho|Hn]; [apply Hq; by left|apply Hp'; by right].
  - exact (Hp _ _ Ep).
  - exact (Ht _ _ Eq).
Qed.

Lemma copy_row_inv r r' : copy_row r = Some r' -> r' = r.
Proof. by destruct r; intros [= <-]. Qed.

Section overtaken.
Context `{H : Hasher} `{G : GCM} `{E : Entropy} `{MR : MapRange}.
Context {B : Type} `{BK : Backend B} `{!BackendSpec B} `{!BackendReliable B}.
Implicit Types (q : SqlStore B) (e : tableEditor B).
Variables (def : tableDef) (ot : option tree) (st : gmap Hash bytes).

(** An editor whose statement buffer is well formed. *)
Record ed_wf e : Prop := {
  ew_repr : repr (q_led (ed_store e)) ot st;
  ew_def : ∃ n, q_defs (ed_store e) !! ed_def e = Some (set_autoInc n def);
  ew_pend : rows_wf def (ed_pending e)
}.

Lemma ed_wf_calm e e' : ed_wf e -> calm e e' -> rows_wf def (ed_pending e') -> ed_wf e'.
Proof.
  intros [Hr Hd _] Hc Hp. split; [by eapply calm_repr| |done]. destruct Hc as (Hs & -> & _).
  eapply like_ex; [apply Hs|done].
Qed.

Lemma still_wf {A} (m : M (tableEditor B) A) e o e' :
  gentle true m -> ed_wf e -> m e = (o, e') -> ed_wf e' ∧ calm e e' ∧ ed_pending e' = ed_pending e.
Proof.
  intros Hm Hw Hrun. destruct (Hm e ot st (ew_repr _ Hw)) as [Hc Hp]. rewrite Hrun in *. cbn in *. specialize (Hp eq_refl).
  split_and!; [|done..]. eapply ed_wf_calm; [done..|]. rewrite Hp. apply Hw.
Qed.

Ltac skip Hrun Hw e1 Hw1 Hp1 :=
  let a := fresh "a" in let E1 := fresh "E" in
  apply bind_inv_ok in Hrun as (a & e1 & E1 & Hrun);
  match type of E1 with
  | ?m _ = _ => let Hg := fresh in assert (gentle true m) as Hg by gentle;
      destruct (still_wf m _ _ _ Hg Hw E1) as (Hw1 & _ & Hp1); clear Hg E1
  end.

Lemma put_wf e k old new :
  ed_wf e -> (∀ r, old = Some r ∨ new = Some r -> row_fits def r) ->
  ed_wf (set_pending (<[k := edit_row k old new (ed_pending e !! k)]> (ed_pending e)) e).
Proof. intros Hw Hf. eapply ed_wf_calm; [done|by split_and!|]. apply edit_row_wf; [apply Hw|done]. Qed.

Lemma put_any e p k new : ed_wf e -> ed_pending e !! k = Some p -> (∀ r, new = Some r -> row_fits def r) ->
  ed_wf (set_pending (<[k := set_new new p]> (ed_pending e)) e).
Proof.
  intros Hw Hp Hf. assert (set_new new p = edit_row k (p_old p) new (ed_pending e !! k)) as -> by by rewrite Hp.
  apply put_wf; [done|]. intros r [Ho|Hn]; [|auto]. destruct (ew_pend _ Hw _ _ Hp) as [_ Hpp]. apply Hpp. by left.
Qed.

Lemma Insert_wf e r u e' : ed_wf e -> row_fits def r -> Insert r e = (Ok u, e') -> ed_wf e'.
Proof.
  intros Hw Hf Hrun. unfold Insert in Hrun. skip Hrun Hw e1 Hw1 Hp1. skip Hrun Hw1 e2 Hw2 Hp2. skip Hrun Hw2 e3 Hw3 Hp3.
  skip Hrun Hw3 e4 Hw4 Hp4. rewrite bind_gets in Hrun. apply bind_inv_ok in Hrun as ([] & e5 & Ep & Hrun).
  assert (∀ r', copy_row r = Some r' -> row_fits def r') as Hcp by (by intros r' ->%copy_row_inv).
  assert (ed_wf e5) as Hw5.
  { destruct (ed_pending e4 !! a1) as [p|] eqn:Epp.
    - case_decide; [done|]. injection Ep as <-. by apply put_any.
    - skip Ep Hw4 e6 Hw6 Hp6. destruct a3; [done|]. injection Ep as <-.
      assert (Pending a1 None (copy_row r) = edit_row a1 None (copy_row r) (ed_pending e6 !! a1)) as -> by by rewrite Hp6, Epp.
      apply put_wf; [done|]. intros r' [?|?]; [done|auto]. }
  assert (gentle true (checkUnique (B := B) a0 r a1)) as Hg by gentle.
  by destruct (still_wf _ _ _ _ Hg Hw5 Hrun) as (? & _).
Qed.

Lemma Delete_wf e r u e' : ed_wf e -> row_fits def r -> Delete r e = (Ok u, e') -> ed_wf e'.
Proof.
  intros Hw Hf Hrun. unfold Delete in Hrun. skip Hrun Hw e1 Hw1 Hp1. skip Hrun Hw1 e2 Hw2 Hp2. skip Hrun Hw2 e3 Hw3 Hp3.
  rewrite bind_gets in Hrun. injection Hrun as <- <-. apply (put_wf e3 a1 (copy_row r) None); [done|].
  intros r' [->%copy_row_inv|?]; done.
Qed.

Lemma Update_wf e old new u e' :
  ed_wf e -> row_fits def old -> row_fits def new -> Update old new e = (Ok u, e') -> ed_wf e'.
Proof.
  intros Hw Ho Hn Hrun. unfold Update in Hrun. skip Hrun Hw e1 Hw1 Hp1. skip Hrun Hw1 e2 Hw2 Hp2. skip Hrun Hw2 e3 Hw3 Hp3.
  skip Hrun Hw3 e4 Hw4 Hp4. case_decide.
  - rewrite bind_gets in Hrun. apply bind_inv_ok in Hrun as ([] & e5 & Ep & Hrun). injection Ep as <-.
    assert (gentle true (checkUnique (B := B) a0 new a1)) as Hg by gentle. eapply (still_wf _ _ _ _ Hg); [|done].
    apply (put_wf e4 a1 (copy_row old) (copy_row new)); [done|]. intros r [->%copy_row_inv| ->%copy_row_inv]; done.
  - apply bind_inv_ok in Hrun as ([] & e5 & Ed & Hrun). eapply (Insert_wf e5 new); [|done|exact Hrun]. exact (Delete_wf e4 old _ _ Hw4 Ho Ed).
Qed.

Lemma run_edits_wf eds e u e' :
  ed_wf e -> Forall (edit_fits def) eds -> foldM (λ _ ed, run_edit ed) tt eds e = (Ok u, e') -> ed_wf e'.
Proof.
  intros Hw Hf. revert e Hw. induction Hf as [|ed eds Hed Hf IH]; intros e Hw; cbn [foldM]; [by intros [= <- <-]|].
  intros ([] & e1 & E1 & Hrun)%bind_inv_ok. eapply IH; [|done].
  destruct ed as [r|r|old new]; cbn [run_edit edit_fits] in *; [exact (Insert_wf e r _ _ Hw Hed E1)|exact (Delete_wf e r _ _ Hw Hed E1)|].
  destruct Hed as [Ho Hn]. exact (Update_wf e old new _ _ Hw Ho Hn E1).
Qed.

(** A statement leaves a well-formed transaction, whatever the store looks like. *)
Lemma statement_wf eds e t o e' :
  ed_wf e -> ed_pending e = ∅ -> ed_txn e = Some t -> Forall (edit_fits def) eds -> statement eds e = (o, e') ->
  stays (ed_store e) (ed_store e') ∧ ∃ t', ed_txn e' = Some t' ∧ txn_at (td_ID def) t t' ∧
  (rows_wf def (txn_rows def (Some t)) -> rows_wf def (txn_rows def (Some t'))).
Proof.
  intros Hw Hp Ht Hf Hrun. unfold statement in Hrun.
  assert (gentle false (foldM (λ (_ : unit) ed, run_edit ed) tt eds)) as Hg.
  { apply gentle_foldM. intros _ [r|r|old new]; cbn [run_edit]; gentle. }
  destruct (Hg e ot st (ew_repr _ Hw)) as [Hc _].
  assert (∀ t0, txn_at (td_ID def) t0 t0) as Hrefl by done.
  destruct (foldM _ tt eds e) as [[u|er|w] e1] eqn:Ef; cbn in Hc; destruct (Hc) as (Hs & Hd & Et); rewrite Ht in Et.
  - apply run_edits_wf in Ef; [|done..]. destruct (ew_def _ Ef) as [n Hn].
    destruct (Close_run def e1 t n Hn Et) as (t' & Ec & Hat & Hrows & _). rewrite Ec in Hrun. injection Hrun as <- <-.
    split; [done|]. exists t'. split_and!; [done..|]. intros Htr. rewrite Hrows. apply merge_rows_wf; [done|apply Ef].
  - destruct (like_ex def _ _ (sy_defs _ _ Hs (ed_def e)) (ew_def _ Hw)) as [n Hn]. rewrite <-Hd in Hn.
    destruct (Close_run def (set_pending ∅ e1) t n Hn Et) as (t' & Ec & Hat & _ & Ht').
    cbn in Hrun. unfold mbind, M_bind in Hrun. cbn in Hrun. rewrite Ec in Hrun. injection Hrun as <- <-.
    split; [done|]. rewrite Ht' in * by done. by exists t.
  - injection Hrun as <- <-. split; [done|]. by exists t.
Qed.
End overtaken.

(** * The invariant of interleaved sessions *)

Section world.
Context `{H : Hasher} `{G : GCM} `{E : Entropy} `{MR : MapRange}.
Context {B : Type} `{BK : Backend B} `{!BackendSpec B} `{!BackendReliable B}.
Context `{!GCMSpec} `{!EntropyLive}.
Variable (O : list bytes).
Implicit Types (q : SqlStore B) (w : World B).

(** An open transaction: its buffers are of known tables and well formed, and based on
    the tables unless a commit has overtaken it. *)
Record txn_ok q (T : database) (t : storeTxn) : Prop := {
  to_base : (tx_baseVersion t ≤ s_version (q_led q))%N;
  to_cat : ∀ id, is_Some (tx_tables t !! id) -> is_Some (catalog q id);
  to_wf : ∀ id def, catalog q id = Some def -> rows_wf def (txn_rows def (Some t));
  to_based : tx_baseVersion t = s_version (q_led q) ->
    ∀ id def, catalog q id = Some def -> stmt_ok def (trows T id) (Some t) ∅
}.

Record world_ok (st : gmap Hash bytes) (T : database) w : Prop := {
  wo_sql : sql_ok O (w_store w) st T;
  wo_defs : ∀ id def, catalog (w_store w) id = Some def -> def_wf def;
  wo_other : other_keys O (catalog (w_store w));
  wo_txns : ∀ i t, w_txns w !! i = Some t -> txn_ok (w_store w) T t
}.

(** What a call needs: a statement runs in a transaction, on rows of the right types
    that the engine has read there; the ledger accepts a commit's batch; and the ledger
    paths involved do not collide. *)
Definition call_pre (st : gmap Hash bytes) (T : database) (i : nat) (c : call) w : Prop :=
  let q := w_store w in
  match c with
  | CallBegin _ | CallRollback => True
  | CallStmt p eds => ∃ id def t, table_ptr q id = Some p ∧ catalog q id = Some def ∧ w_txns w !! i = Some t ∧
      Forall (edit_fits def) eds ∧
      (tx_baseVersion t = s_version (q_led q) ->
         edits_valid def eds (visible (tableView (Some t) id) (trows T id)) ∧
         keys_apart (s_ck (q_led q)) (O ++ row_keys T ++ edit_keys def eds))
  | CallCommit => ∀ t, w_txns w !! i = Some t ->
      keys_apart (s_ck (q_led q)) (O ++ row_keys T ++ txn_keys (tx_tables t)) ∧ txn_pre q st t
  end.

(** The buffers a call commits, when it is a commit that succeeds. *)
Definition commits (i : nat) (c : call) w (o : outcome unit) : option (gmap N tableTxn) :=
  match c, o with
  | CallCommit, Ok _ => tx_tables <$> w_txns w !! i
  | _, _ => None
  end.

Lemma txn_rows_at id def t t' : txn_at id t t' -> td_ID def ≠ id -> txn_rows def (Some t') = txn_rows def (Some t).
Proof. intros (_ & _ & _ & Ht) Hne. unfold txn_rows. cbn. by rewrite Ht. Qed.

Lemma stmt_ok_rows def rows t t' :
  txn_rows def (Some t') = txn_rows def (Some t) -> stmt_ok def rows (Some t) ∅ -> stmt_ok def rows (Some t') ∅.
Proof. intros Eq [K1 K2 K3 K4]. unfold stmt_buffer in *. split; unfold stmt_buffer; by rewrite ?Eq. Qed.

Lemma stmt_ok_like n def rows t : stmt_ok def rows t ∅ -> stmt_ok (set_autoInc n def) rows t ∅.
Proof. intros []. by split. Qed.

Lemma stays_version q q' : stays q q' -> s_version (q_led q') = s_version (q_led q).
Proof. intros [R _ _]. by destruct (reads_fields _ _ R) as (_ & _ & _ & _ & -> & _). Qed.

Lemma txn_ok_stays q q' T t : stays q q' -> txn_ok q T t -> txn_ok q' T t.
Proof.
  intros Hs [Hb Hc Hw Hbase]. pose proof (stays_version _ _ Hs) as Ev. split.
  - by rewrite Ev.
  - intros id [d Hid]%Hc. pose proof (stays_catalog q q' id Hs) as Hl. rewrite Hid in Hl. inversion Hl; eauto.
  - intros id def' (def & Hid & n & ->)%(catalog_like _ _ _ _ Hs). exact (Hw _ _ Hid).
  - intros Hv id def' (def & Hid & n & ->)%(catalog_like _ _ _ _ Hs). apply stmt_ok_like. apply Hbase; [congruence|done].
Qed.

Lemma world_ok_stays st T w q' txns :
  world_ok st T w -> stays (w_store w) q' -> (∀ i t, txns !! i = Some t -> txn_ok q' T t) -> world_ok st T (MkWorld q' txns).
Proof.
  intros [Hs Hd Ho Ht] Hst Ht'. split; cbn [w_store w_txns].
  - by eapply sql_ok_stays.
  - intros id def' (def & Hid & n & ->)%(catalog_like _ _ _ _ Hst). destruct (Hd _ _ Hid). by split.
  - destruct Ho as [O1 O2 O3]. split; [done..|]. intros id def' (def & Hid & n & ->)%(catalog_like _ _ _ _ Hst). exact (O3 _ _ Hid).
  - done.
Qed.

(** Replacing one session's transaction. *)
Lemma put_session_ok st T w q' i ot :
  world_ok st T w -> stays (w_store w) q' -> (∀ t, ot = Some t -> txn_ok q' T t) -> world_ok st T (put_session i w q' ot).
Proof.
  intros Hw Hs Ht. eapply world_ok_stays; [done..|]. intros j t Hj. destruct (decide (j = i)) as [->|Hne].
  - rewrite lookup_partial_alter_eq in Hj. auto.
  - rewrite lookup_partial_alter_ne in Hj by done. eapply txn_ok_stays; [done|]. by eapply wo_txns.
Qed.

Lemma rows_wf_stmt def rows txn : (∀ k r, rows !! k = Some r -> row_fits def r) -> stmt_ok def rows txn ∅ -> rows_wf def (txn_rows def txn).
Proof.
  intros Hr [Hk _ Hb Hf]. cbn [stmt_buffer tt_rows] in *. rewrite merge_rows_empty in *. intros k p Hp. split; [exact (Hk _ _ Hp)|].
  intros r [Ho|Hn]; [|by eapply Hf]. apply (Hr k). by rewrite <-(Hb _ _ Hp).
Qed.

Lemma begin_ok st T w i ro o w' :
  world_ok st T w -> run_call i (CallBegin ro) w = (o, w') -> o = Ok tt ∧ world_ok st T w'.
Proof.
  intros Hw Hrun. cbn in Hrun. unfold mbind, M_bind in Hrun. cbn in Hrun. injection Hrun as <- <-. split; [done|].
  assert (set_led (q_led (w_store w)) (w_store w) = w_store w) as -> by (by destruct (w_store w)).
  apply put_session_ok; [done|done|]. intros t [= <-]. split; cbn.
  - done.
  - intros id. rewrite lookup_empty. by intros [].
  - intros id def Hc. unfold txn_rows. cbn. rewrite lookup_empty. apply map_Forall_empty.
  - intros _ id def Hc. assert (txn_rows def (Some (MkStoreTxn (s_version (q_led (w_store w))) ro ∅ [])) = ∅) as Ht.
    { unfold txn_rows. cbn. by rewrite lookup_empty. }
    split; [rewrite Ht; apply map_Forall_empty|apply map_Forall_empty|..]; intros k p; cbn [stmt_buffer tt_rows];
      rewrite merge_rows_empty, Ht, lookup_empty; done.
Qed.

Lemma stmt_call_ok st T w i p eds o w' :
  world_ok st T w -> call_pre st T i (CallStmt p eds) w -> run_call i (CallStmt p eds) w = (o, w') -> world_ok st T w'.
Proof.
  intros Hw (id & def & t & Hptr & Hcat & Hti & Hfit & Hval) Hrun. cbn in Hrun. rewrite Hti in Hrun.
  destruct (so_repr _ _ _ _ (wo_sql _ _ _ Hw)) as [ot Hr]. pose proof (wo_txns _ _ _ Hw _ _ Hti) as [Tb Tc Tw Tbase].
  assert (td_ID def = id) as Eid by (by eapply catalog_id).
  assert (q_defs (w_store w) !! p = Some def) as Hdef by (unfold catalog in Hcat; by rewrite Hptr in Hcat).
  set (e0 := newEditor (w_store w) p (Some t)) in *. destruct (statement eds e0) as [o' e'] eqn:Est. injection Hrun as <- <-.
  assert (∃ n, Some def = Some (set_autoInc n def)) as Hauto by (exists (td_autoIncNext def); by destruct def).
  assert (ed_wf def ot st e0) as Hew by (split; [done|by cbn; rewrite Hdef|apply map_Forall_empty]).
  destruct (statement_wf def ot st eds e0 t _ _ Hew eq_refl eq_refl Hfit Est) as (Hs & t' & Et & Hat & Hwf). cbn in Hs.
  apply put_session_ok; [done|done|]. intros t1 Ht1. rewrite Et in Ht1. injection Ht1 as <-.
  pose proof (Hat) as (Eb & _ & _ & Hother). split.
  - rewrite Eb, (stays_version _ _ Hs). done.
  - intros id' Hid'. assert (is_Some (catalog (w_store w) id')) as [d Hd].
    { destruct (decide (id' = id)) as [->|Hne]; [eauto|]. apply Tc. rewrite <-Hother by congruence. done. }
    pose proof (stays_catalog _ _ id' Hs) as Hl. rewrite Hd in Hl. inversion Hl; eauto.
  - intros id' def' (d & Hd & n & ->)%(catalog_like _ _ _ _ Hs). change (rows_wf d (txn_rows d (Some t'))).
    destruct (decide (id' = id)) as [->|Hne].
    + rewrite Hcat in Hd. injection Hd as <-. apply Hwf. by eapply Tw.
    + erewrite txn_rows_at; [by eapply Tw|done|]. rewrite (catalog_id _ _ _ Hd). congruence.
  - rewrite Eb, (stays_version _ _ Hs). intros Ev id' def' (d & Hd & n & ->)%(catalog_like _ _ _ _ Hs). apply stmt_ok_like.
    destruct (decide (id' = id)) as [->|Hne].
    2:{ eapply (stmt_ok_rows _ _ t); [|by eapply Tbase]. eapply txn_rows_at; [done|]. rewrite (catalog_id _ _ _ Hd). congruence. }
    rewrite Hcat in Hd. injection Hd as <-. destruct (Hval Ev) as [Hv Hap]. rewrite <-Eid in *.
    assert (ed_ok O st T def e0) as Hok.
    { split; cbn; [apply Hw|by rewrite Hdef|by rewrite Hcat|]. by apply Tbase. }
    destruct (statement_ok O st T def (wo_defs _ _ _ Hw _ _ Hcat) (ok_rows _ _ (wo_other _ _ _ Hw)) eds e0 t _ _ Hok eq_refl eq_refl Hv Hap Est)
      as (_ & _ & Hres). destruct o' as [u|er|wh].
    + destruct Hres as (Hok' & Hp' & _). pose proof (eo_stmt _ _ _ _ _ Hok') as Hst. rewrite Hp', Et in Hst. done.
    + destruct Hres as (Hok' & Hp' & _). pose proof (eo_stmt _ _ _ _ _ Hok') as Hst. rewrite Hp', Et in Hst. done.
    + rewrite Et in Hres. injection Hres as ->. by apply Tbase.
Qed.

Lemma txn_ok_wf q T t : txn_ok q T t -> txn_wf (catalog q) (tx_tables t).
Proof.
  intros [_ Hc Hw _]. assert (∀ id tb def, tx_tables t !! id = Some tb -> catalog q id = Some def -> rows_wf def (tt_rows tb)) as Hrows.
  { intros id tb def Ht Hcat. specialize (Hw id def Hcat). unfold txn_rows in Hw. cbn in Hw.
    by rewrite (catalog_id _ _ _ Hcat), Ht in Hw. }
  split.
  - intros id tb Ht k p Hp. destruct (Hc id) as [def Hcat]; [eauto|]. by destruct (Hrows id tb def Ht Hcat _ _ Hp).
  - intros id tb def k p r Ht Hcat Hp Hr. destruct (Hrows id tb def Ht Hcat _ _ Hp) as [_ Hf]. by apply Hf.
Qed.

Lemma txn_ok_based q T t : txn_ok q T t -> s_version (q_led q) = tx_baseVersion t -> txn_based (tx_tables t) T.
Proof.
  intros Hok Hv id tb Ht k p Hp Htp. destruct (to_cat _ _ _ Hok id) as [def Hcat]; [eauto|].
  pose proof (to_based _ _ _ Hok (eq_sym Hv) id def Hcat) as Hs. apply (sk_based _ _ _ _ Hs). cbn [stmt_buffer tt_rows].
  rewrite merge_rows_empty. unfold txn_rows. cbn. by rewrite (catalog_id _ _ _ Hcat), Ht.
Qed.

Lemma txn_ok_moved q q' T T' t :
  (∀ id, catalog q' id = catalog q id) -> txn_ok q T t ->
  (s_version (q_led q') = s_version (q_led q) + 1 ∨
   s_version (q_led q') = s_version (q_led q) ∧ ∀ id pk, trow T' id pk = trow T id pk)%N ->
  txn_ok q' T' t.
Proof.
  intros Hcat [Hb Hc Hw Hbase] Hv. split.
  - destruct Hv as [->|[-> _]]; lia.
  - intros id. rewrite Hcat. apply Hc.
  - intros id def. rewrite Hcat. apply Hw.
  - intros Ev id def. rewrite Hcat. intros Hid. destruct Hv as [Hv|[Hv Hsame]]; [lia|].
    assert (trows T' id = trows T id) as -> by (apply map_eq; intros pk; by rewrite !lookup_trows).
    apply Hbase; [congruence|done].
Qed.

Lemma commit_call_ok st T w i o w' :
  world_ok st T w -> call_pre st T i CallCommit w -> run_call i CallCommit w = (o, w') ->
  (is_ok o = false ∨ w_txns w !! i = None) ∧ world_ok st T w' ∨
  ∃ t st' lo so, w_txns w !! i = Some t ∧ o = Ok tt ∧ txn_based (tx_tables t) T ∧ txn_ops (w_store w) t = Ok (lo, so) ∧
    st' = after_state (q_led (w_store w)) st lo ∧ world_ok st' (apply_txn (tx_tables t) T) w'.
Proof.
  intros Hw Hpre Hrun. cbn in Hrun. unfold CommitTransaction in Hrun. rewrite bind_gets in Hrun. cbn [se_txn] in Hrun.
  destruct (w_txns w !! i) as [t|] eqn:Et.
  2:{ cbn in Hrun. injection Hrun as <- <-. left. split; [by right|]. by apply put_session_ok. }
  cbn in Hrun. unfold mbind, M_bind in Hrun. cbn in Hrun. unfold with_store in Hrun. cbn in Hrun.
  destruct (commitTxn t (w_store w)) as [o' q'] eqn:Ec. cbn in Hrun. injection Hrun as <- <-.
  pose proof (wo_txns _ _ _ Hw _ _ Et) as Hto. destruct (Hpre t Et) as [Hap Hbp].
  assert (commit_pre O (w_store w) st T t) as Hcp by (split; [apply Hw|by eapply txn_ok_wf|done..]).
  destruct (commitTxn_refines O (w_store w) st T t o' q' (wo_sql _ _ _ Hw) Hcp Ec (txn_ok_based _ _ _ Hto))
    as [[Ho R]|(-> & Hb & (lo & so & Hops & Hs') & Hv)].
  - left. split; [by left|]. apply put_session_ok; [done|by apply sreads_stays|done].
  - right. exists t, (after_state (q_led (w_store w)) st lo), lo, so. split_and!; [done..|].
    assert (∀ id, catalog q' id = catalog (w_store w) id) as Hcat.
    { destruct (so_repr _ _ _ _ (wo_sql _ _ _ Hw)) as [ot Hr].
      destruct (commitTxn_cases _ _ _ _ _ _ Hr Hbp Ec) as [[_ R]|(_ & lo' & so' & _ & _ & Hc & _)]; intros id;
        [by apply sreads_catalog|by rewrite (sc_same _ _ _ _ _ Hc)]. }
    split; cbn [put_session w_store w_txns].
    + done.
    + intros id def. rewrite Hcat. apply (wo_defs _ _ _ Hw).
    + destruct (wo_other _ _ _ Hw) as [O1 O2 O3]. split; [done..|]. intros id def. rewrite Hcat. apply O3.
    + intros j t1 Hj. destruct (decide (j = i)) as [->|Hne]; [by rewrite lookup_partial_alter_eq in Hj|].
      rewrite lookup_partial_alter_ne in Hj by done. eapply txn_ok_moved; [done|by eapply wo_txns|done].
Qed.

(** One call keeps the invariant; the tables change by the buffers it commits. *)
Lemma call_ok st T w i c o w' :
  world_ok st T w -> call_pre st T i c w -> run_call i c w = (o, w') ->
  match commits i c w o with
  | None => world_ok st T w'
  | Some tabs => txn_based tabs T ∧ ∃ st', world_ok st' (apply_txn tabs T) w'
  end.
Proof.
  intros Hw Hpre Hrun. destruct c as [ro|p eds| |]; cbn [commits].
  - by destruct (begin_ok _ _ _ _ _ _ _ Hw Hrun).
  - by eapply stmt_call_ok.
  - destruct (commit_call_ok _ _ _ _ _ _ Hw Hpre Hrun) as [[[Ho|Ho] Hw']|(t & st' & lo & so & Ht & -> & Hb & _ & _ & Hw')].
    + by destruct o.
    + rewrite Ho. by destruct o.
    + rewrite Ht. cbn. eauto.
  - cbn in Hrun. injection Hrun as <- <-. by apply put_session_ok.
Qed.

(** Runs of calls of different sessions on a store that holds the first database, each
    with its precondition met; the list is that of the buffers they commit, in order. *)
Inductive calls : database -> World B -> list (nat * call) -> list (gmap N tableTxn) -> World B -> Prop :=
| calls_nil T w : calls T w [] [] w
| calls_quiet T w i c cs o w1 l w2 :
    (∀ st, world_ok st T w -> call_pre st T i c w) -> run_call i c w = (o, w1) -> commits i c w o = None ->
    calls T w1 cs l w2 -> calls T w ((i, c) :: cs) l w2
| calls_commit T w i c cs o w1 tabs l w2 :
    (∀ st, world_ok st T w -> call_pre st T i c w) -> run_call i c w = (o, w1) -> commits i c w o = Some tabs ->
    calls (apply_txn tabs T) w1 cs l w2 -> calls T w ((i, c) :: cs) (tabs :: l) w2.

(** Transactions applied one after another, each based on the tables it is applied to. *)
Inductive serial : database -> list (gmap N tableTxn) -> database -> Prop :=
| serial_nil T : serial T [] T
| serial_cons T tabs l T' : txn_based tabs T -> serial (apply_txn tabs T) l T' -> serial T (tabs :: l) T'.

Lemma calls_serial T w cs l w' :
  calls T w cs l w' -> ∀ st, world_ok st T w -> ∃ st' T', world_ok st' T' w' ∧ serial T l T'.
Proof.
  induction 1 as [T w|T w i c cs o w1 l w2 Hpre Hrun Hc _ IH|T w i c cs o w1 tabs l w2 Hpre Hrun Hc _ IH]; intros st Hw.
  - exists st, T. split; [done|constructor].
  - pose proof (call_ok st T w i c o w1 Hw (Hpre st Hw) Hrun) as Hcall. rewrite Hc in Hcall. by apply (IH st).
  - pose proof (call_ok st T w i c o w1 Hw (Hpre st Hw) Hrun) as Hcall. rewrite Hc in Hcall. destruct Hcall as (Hb & st1 & Hw1).
    destruct (IH _ Hw1) as (st' & T' & ? & ?). exists st', T'. split; [done|by constructor].
Qed.
End world.
