(* ===== verification/SqlQuery.v ===== *)
(** Queries of a session: full scans and index lookups against the rows the session
    sees.

    [session_query] says what any partition yields in a world of interleaved sessions;
    [full_query] and [lookup_query] specialise it to the partitions that
    [sqlledger/table.go] makes. *)

From S2P Require Import Prelude Errors Sha256 Hashing Node Aead Backend Cache Store Tree StoreRead Records StoreCommit GoNum SqlCodec SqlIndex SqlTxn SqlOverlay SqlStore SqlScan SqlScanOk SqlCommit SqlRefine SqlTable SqlEdit SqlSession SqlWorld.

Definition entry_row (e : entry) : bytes * row := e.2.

(** Rows that match every column range of a lookup, in the order of SQL. *)
Definition matching (def : tableDef) (idx : option indexDef) (rng : list (cut * cut)) (r : row) : Prop :=
  ∃ vals, index_vals (td_Columns def) r (index_ords def idx) = Some vals ∧ matches_range sql_cmp vals rng.

Lemma fits_wf qt v : fits qt v -> value_wf v.
Proof.
  destruct qt, v; cbn [fits value_wf]; try done; try tauto. all: unfold f32_quiet, in_uint; lia.
Qed.

Lemma row_fits_wf def r : row_fits def r -> row_wf r.
Proof.
  intros [Hf _]. apply Forall_forall. intros o Ho. apply list_elem_of_lookup in Ho as [i Hi].
  destruct (Forall2_lookup_r _ _ _ _ _ Hf Hi) as (col & _ & Hc). destruct o as [v|]; [|done]. by apply (fits_wf (cd_QType col)).
Qed.

Lemma bytes_lt_app_l p a b : bytes_lt (p ++ a) (p ++ b) ↔ bytes_lt a b.
Proof. unfold bytes_lt. by rewrite bytes_cmp_app_l. Qed.

Lemma spec_length def idx start stop rows : length (spec_rows def idx start stop rows) ≤ size rows.
Proof.
  unfold spec_rows, spec_entries. rewrite length_fmap, (Permutation_length (merge_sort_Permutation _ _)).
  rewrite <-length_map_to_list. induction (map_to_list rows) as [|pr l IH]; cbn; [done|].
  destruct (entry_in def idx start stop pr); cbn; lia.
Qed.

(** Over the whole row keyspace the entries are the rows, in key order. *)
Lemma spec_full def start stop rows :
  (∀ s, in_range start stop (scanKey (td_ID def) s)) ->
  let l := entry_row <$> spec_entries def None start stop rows in
  l ≡ₚ map_to_list rows ∧ StronglySorted (λ a b, bytes_lt a.1 b.1) l.
Proof.
  intros Hall l. unfold l. split.
  - unfold spec_entries. rewrite merge_sort_Permutation.
    assert (∀ m : list (bytes * row), entry_row <$> omap (entry_in def None start stop) m = m) as Hm; [|by rewrite Hm].
    induction m as [|[pk r] m IH]; [done|].
    assert (entry_in def None start stop (pk, r) = Some (scanKey (td_ID def) pk, (pk, r))) as He.
    { unfold entry_in. cbn [entry_at fst snd]. by rewrite decide_True by apply Hall. }
    cbn [omap list_omap]. rewrite He. cbn [fmap list_fmap]. f_equal. exact IH.
  - pose proof (spec_sorted def None start stop rows) as Hs.
    assert (Forall (λ e, e.1 = scanKey (td_ID def) (entry_row e).1) (spec_entries def None start stop rows)) as Hk.
    { apply Forall_forall. intros [k [pk r]] (_ & He & _)%elem_of_spec. by injection He as <-. }
    induction Hs as [|e l0 Hs IH Hf]; [constructor|]. apply Forall_cons in Hk as [He Hk]. cbn. constructor; [by apply IH|].
    rewrite Forall_fmap. rewrite Forall_forall in Hf, Hk |- *. intros e' Hin. specialize (Hf e' Hin). rewrite He, (Hk e' Hin) in Hf.
    unfold scanKey in Hf. rewrite !app_comm_cons in Hf. by apply bytes_lt_app_l in Hf.
Qed.

Section queries.
Context `{H : Hasher} `{G : GCM} `{E : Entropy} `{MR : MapRange}.
Context {B : Type} `{BK : Backend B} `{!BackendSpec B} `{!BackendReliable B}.
Variables (O : list bytes) (st : gmap Hash bytes) (T : database) (w : World B) (i : nat) (id : N) (def : tableDef).
Hypothesis Hw : world_ok O st T w.
Hypothesis Hcat : catalog (w_store w) id = Some def.
Hypothesis Hbase : ∀ t, w_txns w !! i = Some t -> tx_baseVersion t = s_version (q_led (w_store w)).

(** The rows session [i] sees. *)
Definition session_rows : gmap bytes row := visible (tableView (w_txns w !! i) id) (trows T id).

Lemma committed_fits k r : trows T id !! k = Some r -> row_fits def r.
Proof.
  rewrite lookup_trows. intros Hr. destruct (so_rows _ _ _ _ (wo_sql _ _ _ _ Hw) _ _ _ Hr) as (def' & Hc & Hf & _).
  rewrite Hcat in Hc. by injection Hc as <-.
Qed.

Lemma session_stmt t : w_txns w !! i = Some t -> stmt_ok def (trows T id) (Some t) ∅.
Proof. intros Ht. apply (to_based _ _ _ (wo_txns _ _ _ _ Hw _ _ Ht)); [by apply Hbase|done]. Qed.

Lemma session_fits k r : session_rows !! k = Some r -> row_fits def r.
Proof.
  pose proof session_stmt as Hs. pose proof (committed_fits k r) as Hcom. pose proof (catalog_id _ _ _ Hcat) as Eid.
  unfold session_rows. destruct (w_txns w !! i) as [t|]; [|done]. specialize (Hs t eq_refl).
  rewrite <-Eid, <-stmt_view_visible, Eid, view_lookup by done.
  destruct (tt_rows _ !! k) as [p|] eqn:Ep; [|done]. by apply (sk_fits _ _ _ _ Hs k p).
Qed.

Lemma session_buffer tb : tableView (w_txns w !! i) id = Some tb -> buffer_ok def (trows T id) tb.
Proof.
  pose proof session_stmt as Hs. pose proof committed_fits as Hcom. pose proof (catalog_id _ _ _ Hcat) as Eid.
  pose proof (wo_defs _ _ _ _ Hw id def Hcat) as Hwf. destruct (w_txns w !! i) as [t|]; [|done]. intros Htb.
  eapply (stmt_buffer_ok def _ (Some t)); [done..|by apply Hs|by rewrite Eid].
Qed.

Lemma session_query calls fuel p start stop :
  part_ok def p start stop -> size (trows T id) < fuel -> size session_rows < calls ->
  ∃ q', query calls fuel (w_txns w !! i) def p (w_store w) =
    (Ok (maybe_reverse (part_reverse p) (spec_rows def (part_index def p) start stop session_rows)), q') ∧ sreads (w_store w) q'.
Proof.
  intros Hp Hf Hc. pose proof (catalog_id _ _ _ Hcat) as Eid.
  destruct (query_ok O (w_store w) st T calls fuel (w_txns w !! i) def p start stop) as (q' & Eq & R); rewrite ?Eid; try done.
  - apply Hw.
  - apply session_buffer.
  - eapply Nat.le_lt_trans; [apply spec_length|done].
  - eapply Nat.le_lt_trans; [apply spec_length|done].
  - exists q'. split; [|done]. rewrite Eq, Eid. done.
Qed.

Lemma full_query calls fuel :
  size (trows T id) < fuel -> size session_rows < calls ->
  ∃ p l q', Partitions def = [p] ∧ query calls fuel (w_txns w !! i) def p (w_store w) = (Ok l.*2, q') ∧ sreads (w_store w) q' ∧
    l ≡ₚ map_to_list session_rows ∧ StronglySorted (λ a b, bytes_lt a.1 b.1) l.
Proof.
  intros Hf Hc. destruct (full_part_ok def) as [stop Hp]. destruct (session_query calls fuel _ _ _ Hp Hf Hc) as (q' & Eq & R).
  exists (fullScanPartition (scanKey (td_ID def) [])), (entry_row <$> spec_entries def None (scanKey (td_ID def) []) stop session_rows), q'.
  assert (∀ s, in_range (scanKey (td_ID def) []) stop (scanKey (td_ID def) s)) as Hall.
  { pose proof (po_bounds _ _ _ _ Hp) as Hb. cbn [part_bounds] in Hb.
    destruct (incBytes (scanKey (td_ID def) [])) as [e|] eqn:Ei; [|done]. injection Hb as ->.
    intros s. destruct (proj2 (incBytes_range _ _ (scanKey (td_ID def) s) Ei)) as [? ?]; [|by split; [|right]].
    exists s. unfold scanKey. by rewrite app_nil_r. }
  split_and!; [done| |done|by apply spec_full..].
  rewrite Eq. cbn [part_reverse maybe_reverse part_index]. unfold spec_rows. by rewrite <-list_fmap_compose.
Qed.

(** A row that fits has an entry in every index. *)
Lemma entry_key_at idx r pk :
  index_of def idx -> row_fits def r -> encodePK def r = Ok pk ->
  ∃ k, entry_key def idx r = Ok k ∧ entry_at def idx r pk = Ok k.
Proof.
  intros Hi [Hf _] Hpk. unfold entry_key. rewrite Hpk. cbn [mbind outcome_bind]. destruct idx as [ix|]; [|by eexists].
  cbn [entry_at]. unfold index_key. pose proof (wo_defs _ _ _ _ Hw _ _ Hcat) as [_ Hords].
  assert (is_ok (encodeIndexCols def ix r) = true) as Hok.
  { apply encode_index_total; [done|]. apply Forall_forall. intros ord Ho. by eapply Hords. }
  destruct (encodeIndexCols def ix r) as [[c h]|e|wh]; try done. by eexists.
Qed.

(** A lookup returns visible rows only, in the order of the index, and every visible
    row that matches the range is among them. *)
Lemma lookup_query calls fuel idx rng rev p :
  index_of def idx -> Forall (λ lh, cut_wf lh.1 ∧ cut_wf lh.2) rng ->
  Forall (λ lh, cut_ordered lh.1 ∧ cut_ordered lh.2) rng -> part_for def idx rev rng p ->
  size (trows T id) < fuel -> size session_rows < calls ->
  ∃ (l : list entry) q',
    query calls fuel (w_txns w !! i) def p (w_store w) = (Ok (maybe_reverse rev l.*2.*2), q') ∧ sreads (w_store w) q' ∧
    StronglySorted (λ a b, bytes_lt a.1 b.1) l ∧
    (∀ k pk r, (k, (pk, r)) ∈ l -> session_rows !! pk = Some r ∧ entry_at def idx r pk = Ok k) ∧
    (∀ pk r, session_rows !! pk = Some r -> encodePK def r = Ok pk -> keys_ordered def idx r ->
       matching def idx rng r -> (pk, r) ∈ l.*2).
Proof.
  intros Hi Hcuts Hord (start & stop & Hb & Hpo & Eidx & Erev) Hf Hc.
  destruct (session_query calls fuel p start stop Hpo Hf Hc) as (q' & Eq & R). rewrite Eidx, Erev in Eq.
  exists (spec_entries def idx start stop session_rows), q'. split_and!; [|done|apply spec_sorted|..].
  - rewrite Eq. unfold spec_rows. by rewrite <-list_fmap_compose.
  - intros k pk r (? & ? & _)%elem_of_spec. done.
  - intros pk r Hr Hpk Hko (vals & Hv & Hm). pose proof (session_fits _ _ Hr) as Hfit.
    pose proof (row_fits_wf _ _ Hfit) as Hrw.
    apply matches_range_sql in Hm; [|done..|by eapply index_vals_ordered].
    destruct (entry_key_at idx r pk Hi Hfit Hpk) as (k & Ek & Ea). apply list_elem_of_fmap. exists (k, (pk, r)). split; [done|].
    apply elem_of_spec. split_and!; [done..|].
    destruct (rangeBounds_superset def idx rng r k vals start stop) as [Hle Hlt]; [done..|by split; [|right]].
Qed.
End queries.
