(* ===== verification/SqlVerify.v ===== *)
(** Verified reads: [sqlledger/verify.go].

    A row is returned with the ledger's proof for its key and the root the proof holds
    against.  The evidence of an honest store verifies and carries the row of the table;
    conversely evidence that verifies against the store's root carries that row, or
    shows that there is none. *)

From S2P Require Import Prelude Errors Sha256 Hashing Node Smt Proofs Aead Backend Cache Store Tree StoreRead Records StoreCommit StoreProof GoNum SqlCodec SqlIndex SqlTxn SqlOverlay SqlStore SqlScan SqlScanOk SqlCommit SqlRefine SqlTable SqlEdit.

Record VerifiedRow := MkVerifiedRow {
  vr_Row : option row;
  vr_Key : bytes;
  vr_Value : option bytes;
  vr_Proof : Proof;
  vr_Root : Hash;
  vr_Version : N
}.

(** The key columns from the caller's values, in key order. *)
Fixpoint encode_pk_values (cols : list colDef) (ords : list nat) (vals : list value) (buf : bytes) : outcome bytes :=
  match ords, vals with
  | [], _ => Ok buf
  | ord :: ords', v :: vals' =>
      match cols !! ord with
      | None => out_of_range
      | Some col =>
          kind ← col_kind col;
          buf ← wrap_err "primary-key column %q" (encodeKeyCol buf kind v);
          encode_pk_values cols ords' vals' buf
      end
  | _ :: _, [] => out_of_range
  end.

Section verify.
Context `{H : Hasher} `{G : GCM} `{E : Entropy} `{MR : MapRange} `{CF : CaseFold} {B : Type} `{BK : Backend B}.
Abbreviation MQ := (M (SqlStore B)).

Definition VerifiedGet (table : string) (pkValues : list value) : MQ VerifiedRow :=
  p ← gets (λ q, q_tables q !! ToLower table);
  match p with
  | None => fail (RawError "table %q does not exist")
  | Some p =>
      def ← deref p;
      if decide (length pkValues = length (td_PKOrds def)) then
        pkEnc ← lift (encode_pk_values (td_Columns def) (td_PKOrds def) pkValues []);
        let key := rowKey (td_ID def) pkEnc in
        '(root, version) ← led Root;
        proof ← led (Prove key);
        raw ← led (Get key);
        match raw with
        | None => mret (MkVerifiedRow None key None proof root version)
        | Some raw =>
            if decide (length raw < 9 ∨ head raw ≠ Some tagRow) then fail (RawError "table %q: row entry is corrupt")
            else
              r ← lift (decodeRow (td_Columns def) (drop 9 raw));
              mret (MkVerifiedRow (Some r) key (Some raw) proof root version)
        end
      else fail (RawError "table %q has %d primary-key columns, got %d values")
  end.

Definition VerifyRow (vr : VerifiedRow) (root : Hash) : MQ bool :=
  match vr_Value vr with
  | None => led (VerifyAbsent root (vr_Key vr) (vr_Proof vr))
  | Some v => led (VerifyValue root (vr_Key vr) v (vr_Proof vr))
  end.
End verify.

Section verified.
Context `{H : Hasher} `{G : GCM} `{E : Entropy} `{MR : MapRange} `{CF : CaseFold}.
Context {B : Type} `{BK : Backend B} `{!BackendSpec B} `{!BackendReliable B}.
Variables (O : list bytes) (st : gmap Hash bytes) (T : database) (def : tableDef).
Hypothesis HO : ∀ k, k ∈ O -> ¬ is_row_key k.
Implicit Types q : SqlStore B.

(** The ledger entry of a row. *)
Lemma st_entry q pk :
  sql_ok O q st T -> catalog q (td_ID def) = Some def ->
  keys_apart (s_ck (q_led q)) (O ++ row_keys T ++ [rowKey (td_ID def) pk]) ->
  st !! pathOf (s_ck (q_led q)) (rowKey (td_ID def) pk) =
  (λ r, row_payload def (row_enc def r)) <$> trow T (td_ID def) pk.
Proof.
  intros Hok Hcat Hap. destruct (co_u64 _ (so_cat _ _ _ _ Hok) _ _ Hcat) as [Hu _].
  pose proof (st_row O st T def HO q pk Hok Hu Hap) as Hs. rewrite lookup_trows in Hs.
  destruct (trow T (td_ID def) pk) as [r|] eqn:Er; cbn [fmap option_fmap option_map].
  - destruct (so_rows _ _ _ _ Hok _ _ _ Er) as (def' & Hc' & _ & ->). rewrite Hcat in Hc'. by injection Hc' as <-.
  - apply eq_None_not_Some. rewrite Hs. by intros [].
Qed.

(** An honest store returns the row with evidence that verifies against its root. *)
Lemma VerifiedGet_ok q table vals p pk :
  sql_ok O q st T -> q_tables q !! ToLower table = Some p -> q_defs q !! p = Some def ->
  catalog q (td_ID def) = Some def -> length vals = length (td_PKOrds def) ->
  encode_pk_values (td_Columns def) (td_PKOrds def) vals [] = Ok pk ->
  keys_apart (s_ck (q_led q)) (O ++ row_keys T ++ [rowKey (td_ID def) pk]) ->
  ∃ vr q', VerifiedGet table vals q = (Ok vr, q') ∧ sreads q q' ∧
    vr_Row vr = trow T (td_ID def) pk ∧ vr_Key vr = rowKey (td_ID def) pk ∧
    vr_Root vr = s_root (q_led q) ∧ vr_Version vr = s_version (q_led q) ∧
    (VerifyRow vr (s_root (q_led q)) q).1 = Ok true.
Proof.
  intros Hok Ht Hd Hcat Hlen Henc Hap. destruct (so_repr _ _ _ _ Hok) as [ot Hr]. unfold VerifiedGet.
  rewrite bind_gets, Ht. rewrite (bind_ok _ _ _ def q) by (unfold deref; rewrite bind_gets; by rewrite Hd).
  rewrite decide_True by done. rewrite Henc, bind_lift. cbn zeta. set (key := rowKey (td_ID def) pk) in *.
  rewrite (bind_ok _ _ _ (s_root (q_led q), s_version (q_led q)) q) by (unfold led, Root, gets; cbn; by destruct q).
  destruct (Prove_ok _ _ _ key Hr) as (s1 & Ep & R1). destruct (led_reads _ q _ _ Ep R1) as [Ep' R1'].
  set (q1 := set_led s1 q) in *. rewrite (bind_ok _ _ _ _ _ Ep'). assert (repr (q_led q1) ot st) as Hr1 by (by eapply sreads_repr).
  destruct (led_Get_ok key q1 ot st Hr1) as (q2 & Eg & R2). rewrite (bind_ok _ _ _ _ _ Eg).
  assert (s_ck (q_led q1) = s_ck (q_led q)) as -> by (destruct R1' as [R _]; apply (reads_fields _ _ R)).
  unfold key. rewrite (st_entry q pk Hok Hcat Hap). fold key.
  set (m := commitments (s_ck (q_led q)) st) in *. set (path := pathOf (s_ck (q_led q)) key) in *.
  assert (Verify (s_root (q_led q)) path (spec_prove m path) = Ok (statement_of m path)) as Hver.
  { rewrite (repr_root _ _ _ Hr). apply Verify_complete_aux. }
  assert (m !! path = vhOf (s_ck (q_led q)) path <$> st !! path) as Hm by apply lookup_commitments.
  unfold path, key in Hm. rewrite (st_entry q pk Hok Hcat Hap) in Hm. fold key path in Hm.
  assert (sreads q q2) as R by (by etrans). destruct (trow T (td_ID def) pk) as [r|] eqn:Er; cbn [fmap option_fmap option_map] in Hm |- *.
  - destruct (so_rows _ _ _ _ Hok _ _ _ Er) as (def' & Hc' & Hf & _). rewrite Hcat in Hc'. injection Hc' as <-.
    rewrite decide_False.
    2:{ unfold row_payload. intros [Hl|?]; [|done]. cbn in Hl. rewrite length_app, length_be in Hl. lia. }
    rewrite drop_payload, (proj2 (row_fits_enc def r Hf)), bind_lift. eexists _, q2. split_and!; [done..|].
    unfold VerifyRow. cbn [vr_Value vr_Key vr_Proof]. unfold led, VerifyValue. rewrite bind_gets. fold path.
    rewrite Hver, bind_lift. cbn. unfold statement_of. rewrite Hm. cbn. by rewrite bool_decide_true.
  - eexists _, q2. split_and!; [done..|]. unfold VerifyRow. cbn [vr_Value vr_Key vr_Proof]. unfold led, VerifyAbsent. rewrite bind_gets.
    fold path. rewrite Hver, bind_lift. cbn. unfold statement_of. by rewrite Hm.
Qed.

(** Evidence that verifies against the store's root carries the row of the table. *)
Lemma VerifyRow_sound q pk vr :
  sql_ok O q st T -> catalog q (td_ID def) = Some def ->
  keys_apart (s_ck (q_led q)) (O ++ row_keys T ++ [rowKey (td_ID def) pk]) ->
  let path := pathOf (s_ck (q_led q)) (rowKey (td_ID def) pk) in
  no_collision (verify_msgs path (vr_Proof vr)) (spec_msgs (commitments (s_ck (q_led q)) st)) ->
  (∀ v v', vr_Value vr = Some v -> st !! path = Some v' ->
     vhOf (s_ck (q_led q)) path v = vhOf (s_ck (q_led q)) path v' -> v = v') ->
  vr_Key vr = rowKey (td_ID def) pk -> (VerifyRow vr (s_root (q_led q)) q).1 = Ok true ->
  vr_Value vr = (λ r, row_payload def (row_enc def r)) <$> trow T (td_ID def) pk.
Proof.
  intros Hok Hcat Hap path Hnc Hinj Hkey Hv. destruct (so_repr _ _ _ _ Hok) as [ot Hr].
  rewrite <-(st_entry q pk Hok Hcat Hap). fold path. set (m := commitments (s_ck (q_led q)) st) in *.
  assert (m !! path = vhOf (s_ck (q_led q)) path <$> st !! path) as Hm by apply lookup_commitments.
  assert (∀ s, Verify (s_root (q_led q)) path (vr_Proof vr) = Ok s -> s = statement_of m path) as Hs.
  { intros s. rewrite (repr_root _ _ _ Hr). by apply Verify_sound_aux. }
  unfold VerifyRow in Hv. destruct (vr_Value vr) as [v|]; unfold led, VerifyValue, VerifyAbsent in Hv;
    rewrite bind_gets, Hkey in Hv; fold path in Hv;
    destruct (Verify (s_root (q_led q)) path (vr_Proof vr)) as [s|er|w] eqn:Ev; cbn in Hv; try done;
    injection Hv as Hv; rewrite (Hs s eq_refl) in Hv; unfold statement_of in Hv; rewrite Hm in Hv;
    destruct (st !! path) as [v'|] eqn:Est; cbn in Hv; try done.
  f_equal. apply Hinj; [done..|]. by apply bool_decide_eq_true in Hv.
Qed.
End verified.
