(* ===== verification/SqlHeap.v ===== *)
(** Savepoints and the sharing of buffers: the pointers of [sqlledger/txn.go].

    A transaction maps table ids to pointers to buffers, and a buffer maps keys to
    pointers to pending rows.  Closing a statement assigns to rows through those
    pointers, and a savepoint keeps a copy of the tables to return to.  The model here
    has the pointers: [heap] holds the objects, [ptxn] a transaction as the code has
    it.  [holds] relates it to the plain values of [SqlTxn]; since [snapshotTables]
    copies every row, no object of a savepoint is one a statement can reach. *)

From S2P Require Import Prelude Errors GoNum SqlCodec SqlIndex SqlTxn SqlTable SqlEdit.

Abbreviation ptr := nat.

Record heap := MkHeap { h_rows : gmap ptr pendingRow; h_tabs : gmap ptr (gmap bytes ptr); h_next : ptr }.

(** A transaction by reference: [tables] and the savepoints with their copies. *)
Record ptxn := MkPtxn { pt_tables : gmap N ptr; pt_saves : list (string * gmap N ptr) }.

Record txnheap := MkTxnHeap { th_heap : heap; th_txn : option ptxn }.

Definition ErrSavepointDoesNotExist : error := RawError "SAVEPOINT does not exist".
Definition no_transaction : error := RawError "savepoint %s: no active transaction".

(** * Objects *)

Definition alloc_row (r : pendingRow) : M heap ptr := λ h,
  (Ok (h_next h), MkHeap (<[h_next h := r]> (h_rows h)) (h_tabs h) (S (h_next h))).
Definition alloc_tab (m : gmap bytes ptr) : M heap ptr := λ h,
  (Ok (h_next h), MkHeap (h_rows h) (<[h_next h := m]> (h_tabs h)) (S (h_next h))).
Definition load_row (p : ptr) : M heap pendingRow := λ h,
  (match h_rows h !! p with Some r => Ok r | None => Panic "nil pointer dereference" end, h).
Definition load_tab (p : ptr) : M heap (gmap bytes ptr) := λ h,
  (match h_tabs h !! p with Some m => Ok m | None => Panic "nil pointer dereference" end, h).
Definition store_row (p : ptr) (r : pendingRow) : M heap unit :=
  modify (λ h, MkHeap (<[p := r]> (h_rows h)) (h_tabs h) (h_next h)).
Definition store_tab (p : ptr) (m : gmap bytes ptr) : M heap unit :=
  modify (λ h, MkHeap (h_rows h) (<[p := m]> (h_tabs h)) (h_next h)).

(** * Operations *)

Section ops.
Context `{MR : MapRange} `{CF : CaseFold}.

Definition copy_cell (rows : gmap bytes ptr) (kp : bytes * ptr) : M heap (gmap bytes ptr) :=
  cp ← load_row kp.2; p ← alloc_row cp; mret (<[kp.1 := p]> rows).

Definition copy_table (out : gmap N ptr) (it : N * ptr) : M heap (gmap N ptr) :=
  m ← load_tab it.2;
  rows ← foldM copy_cell ∅ (range_map m);
  t ← alloc_tab rows;
  mret (<[it.1 := t]> out).

Definition snapshotTables (tables : gmap N ptr) : M heap (gmap N ptr) :=
  foldM copy_table ∅ (range_map tables).

(** The last savepoint of that name, and the first. *)
Definition last_named (name : string) (names : list string) : option nat :=
  (λ ix, length names - 1 - ix.1) <$> list_find (λ n, EqualFold n name = true) (reverse names).
Definition first_named (name : string) (names : list string) : option nat :=
  fst <$> list_find (λ n, EqualFold n name = true) names.

(** [append(l[:i], l[i+1:]...)] for the first of that name. *)
Definition dropSavepoint {A} (nm : A -> string) (name : string) (l : list A) : list A :=
  match first_named name (nm <$> l) with Some i => take i l ++ drop (S i) l | None => l end.

Definition on_heap {A} (m : M heap A) : M txnheap A := λ s,
  let '(o, h) := m (th_heap s) in (o, MkTxnHeap h (th_txn s)).
Definition active (name : string) : M txnheap ptxn :=
  t ← gets th_txn;
  match t with Some t => mret t | None => fail no_transaction end.
Definition put_ptxn (t : ptxn) : M txnheap unit := modify (λ s, MkTxnHeap (th_heap s) (Some t)).

Definition CreateSavepoint (name : string) : M txnheap unit :=
  t ← active name;
  cp ← on_heap (snapshotTables (pt_tables t));
  put_ptxn (MkPtxn (pt_tables t) (dropSavepoint fst name (pt_saves t) ++ [(name, cp)])).

Definition RollbackToSavepoint (name : string) : M txnheap unit :=
  t ← active name;
  match last_named name (fst <$> pt_saves t) with
  | None => fail ErrSavepointDoesNotExist
  | Some i =>
      match pt_saves t !! i with
      | None => panic "index out of range"
      | Some sp =>
          cp ← on_heap (snapshotTables sp.2);
          put_ptxn (MkPtxn cp (take (S i) (pt_saves t)))
      end
  end.

Definition ReleaseSavepoint (name : string) : M txnheap unit :=
  t ← active name;
  match last_named name (fst <$> pt_saves t) with
  | None => fail ErrSavepointDoesNotExist
  | Some i => put_ptxn (MkPtxn (pt_tables t) (take i (pt_saves t)))
  end.

(** What [DropTable] and [Truncate] do to the transaction: [delete(txn.tables, id)]. *)
Definition forgetTable (id : N) : M txnheap unit :=
  s ← gets th_txn;
  match s with
  | None => mret tt
  | Some t => put_ptxn (MkPtxn (delete id (pt_tables t)) (pt_saves t))
  end.

(** The buffer of a table, allocated when there is none. *)
Definition txn_table_ptr (id : N) (t : ptxn) : M heap (ptr * ptxn) :=
  match pt_tables t !! id with
  | Some b => mret (b, t)
  | None => b ← alloc_tab ∅; mret (b, MkPtxn (<[id := b]> (pt_tables t)) (pt_saves t))
  end.

(** [if q, ok := tt.rows[k]; ok { q.new = p.new } else { tt.rows[k] = p }]. *)
Definition fold_cell (b : ptr) (_ : unit) (kp : bytes * ptr) : M heap unit :=
  rows ← load_tab b;
  match rows !! kp.1 with
  | Some q => p ← load_row kp.2; r ← load_row q; store_row q (set_new (p_new p) r)
  | None => store_tab b (<[kp.1 := kp.2]> rows)
  end.

(** [Close] of an editor with the statement buffer [pending], in a transaction. *)
Definition closeStatement (id : N) (pending : gmap bytes ptr) : M txnheap unit :=
  s ← gets th_txn;
  match s with
  | None => mret tt
  | Some t =>
      if decide (size pending = 0) then mret tt
      else
        '(b, t) ← on_heap (txn_table_ptr id t);
        on_heap (foldM (fold_cell b) tt (range_map pending));;
        put_ptxn t
  end.
End ops.

(** * Objects and values *)

Definition tab_is (h : heap) (t : ptr) (tb : tableTxn) : Prop :=
  ∃ m, h_tabs h !! t = Some m ∧ ∀ k, option_Forall2 (λ p r, h_rows h !! p = Some r) (m !! k) (tt_rows tb !! k).
Definition tabs_are (h : heap) (ts : gmap N ptr) (tabs : gmap N tableTxn) : Prop :=
  ∀ id, option_Forall2 (tab_is h) (ts !! id) (tabs !! id).

(** The pointer to the row of a key. *)
Definition slot (h : heap) (ts : gmap N ptr) (id : N) (k : bytes) : option ptr :=
  t ← ts !! id; m ← h_tabs h !! t; m !! k.

(** The objects of [ts] have addresses in the range from [a] to [b]. *)
Definition within (h : heap) (ts : gmap N ptr) (a b : ptr) : Prop :=
  (∀ id t, ts !! id = Some t -> a ≤ t < b) ∧ (∀ id k p, slot h ts id k = Some p -> a ≤ p < b).

(** No object of [ts] is reached twice. *)
Definition unshared (h : heap) (ts : gmap N ptr) : Prop :=
  (∀ id id' t, ts !! id = Some t -> ts !! id' = Some t -> id = id') ∧
  (∀ id k id' k' p, slot h ts id k = Some p -> slot h ts id' k' = Some p -> id = id' ∧ k = k').

(** No object is reached from both. *)
Definition apart (h : heap) (ts ts' : gmap N ptr) : Prop :=
  (∀ id id' t, ts !! id = Some t -> ts' !! id' = Some t -> False) ∧
  (∀ id k id' k' p, slot h ts id k = Some p -> slot h ts' id' k' = Some p -> False).

(** [h'] is [h] with more objects. *)
Definition grows (h h' : heap) : Prop :=
  h_next h ≤ h_next h' ∧ (∀ p, p < h_next h -> h_rows h' !! p = h_rows h !! p) ∧
  (∀ p, p < h_next h -> h_tabs h' !! p = h_tabs h !! p).

#[export] Instance grows_refl : Reflexive grows.
Proof. done. Qed.
#[export] Instance grows_trans : Transitive grows.
Proof.
  intros h1 h2 h3 (? & R1 & T1) (? & R2 & T2). split_and!; [lia|..]; intros p Hp.
  - by rewrite R2, R1 by lia.
  - by rewrite T2, T1 by lia.
Qed.

Lemma grows_slot h h' ts a id k : grows h h' -> within h ts a (h_next h) -> slot h' ts id k = slot h ts id k.
Proof.
  intros (_ & _ & Ht) [Hw _]. unfold slot. destruct (ts !! id) as [t|] eqn:Et; cbn; [|done]. rewrite Ht; [done|].
  by apply (Hw id).
Qed.

Lemma grows_within h h' ts a : grows h h' -> within h ts a (h_next h) -> within h' ts a (h_next h').
Proof.
  intros Hg Hw. pose proof (proj1 Hg) as Hn. split.
  - intros id t Ht. apply Hw in Ht. lia.
  - intros id k p. rewrite (grows_slot _ _ _ _ _ _ Hg Hw). intros Hp%Hw. lia.
Qed.

Lemma grows_tabs h h' ts tabs a : grows h h' -> within h ts a (h_next h) -> tabs_are h ts tabs -> tabs_are h' ts tabs.
Proof.
  intros Hg [Hw1 Hw2] Ha id. specialize (Ha id). destruct Hg as (_ & Hr & Ht).
  destruct (ts !! id) as [t|] eqn:Et; inversion Ha as [? tb (m & Hm & Hrows)|]; subst; constructor.
  exists m. rewrite Ht by (by apply (Hw1 id)). split; [done|]. intros k. specialize (Hrows k).
  destruct (m !! k) as [p|] eqn:Ek; inversion Hrows as [? r Hp|]; subst; constructor.
  rewrite Hr; [done|]. apply (Hw2 id k). unfold slot. rewrite Et. cbn. by rewrite Hm.
Qed.

(** ** Copies *)

Section copies.
Context `{MR : MapRange}.

(** The insertions of a loop over a map rebuild it. *)
Definition ins_all {K A} `{Countable K} (d : gmap K A) (l : list (K * A)) : gmap K A :=
  foldl (λ d ka, <[ka.1 := ka.2]> d) d l.

Lemma ins_all_range {K A} `{Countable K} (m : gmap K A) : ins_all ∅ (range_map m) = m.
Proof.
  assert (∀ l (d : gmap K A) k, NoDup l.*1 ->
    ins_all d l !! k = match (list_to_map l : gmap K A) !! k with Some a => Some a | None => d !! k end) as Hl.
  { induction l as [|[k' a] l IH]; intros d k Hnd; [done|]. cbn in Hnd. apply NoDup_cons in Hnd as [Hnin Hnd].
    unfold ins_all in *. cbn [foldl fst snd]. rewrite IH by done. cbn. destruct (decide (k' = k)) as [->|Hne].
    - by rewrite !lookup_insert_eq, (not_elem_of_list_to_map_1 (M := gmap K)).
    - by rewrite !lookup_insert_ne. }
  apply map_eq. intros k. rewrite Hl by apply NoDup_range_fst. rewrite list_to_map_range, lookup_empty. by destruct (m !! k).
Qed.

(** [rows] are copies, at addresses from [n] on, of the rows that [src] points to. *)
Definition cells_copied (h0 h : heap) (n : ptr) (src rows : gmap bytes ptr) : Prop :=
  (∀ k, option_Forall2 (λ p' p, h_rows h !! p' = h_rows h0 !! p ∧ n ≤ p' < h_next h) (rows !! k) (src !! k)) ∧
  (∀ k k' p, rows !! k = Some p -> rows !! k' = Some p -> k = k').

Lemma copy_cells_ok h0 n l h src rows :
  (∀ kp, kp ∈ l -> is_Some (h_rows h0 !! kp.2) ∧ kp.2 < h_next h0) -> grows h0 h -> n ≤ h_next h ->
  cells_copied h0 h n src rows ->
  ∃ rows' h', foldM copy_cell rows l h = (Ok rows', h') ∧ grows h h' ∧ h_tabs h' = h_tabs h ∧
    cells_copied h0 h' n (ins_all src l) rows'.
Proof.
  revert h src rows. induction l as [|[k0 p0] l IH]; intros h src rows Hl Hg Hn Hc; [by exists rows, h|].
  destruct (Hl (k0, p0) ltac:(left)) as [[r0 Hr0] Hp0]. cbn [fst snd] in *.
  assert (h_rows h !! p0 = Some r0) as Hr by (destruct Hg as (_ & Hgr & _); by rewrite Hgr).
  set (h1 := MkHeap (<[h_next h := r0]> (h_rows h)) (h_tabs h) (S (h_next h))).
  assert (grows h h1) as Hg1.
  { split_and!; cbn; [lia|..]; intros p Hp; [|done]. by rewrite lookup_insert_ne by lia. }
  destruct (IH h1 (<[k0 := p0]> src) (<[k0 := h_next h]> rows)) as (rows' & h' & E1 & G1 & T1 & C1).
  { intros kp Hin. apply Hl. by right. }
  { by etrans. }
  { cbn. lia. }
  { destruct Hc as [Hc Hi]. split.
    - intros k. destruct (decide (k = k0)) as [->|Hne].
      + rewrite !lookup_insert_eq. constructor. cbn. rewrite lookup_insert_eq, Hr0. split; [done|lia].
      + rewrite !lookup_insert_ne by done. specialize (Hc k).
        destruct (rows !! k) as [p'|], (src !! k) as [p|]; inversion Hc as [? ? [Hcp Hb]|]; subst; constructor.
        cbn. rewrite lookup_insert_ne by lia. split; [done|lia].
    - assert (∀ k p, rows !! k = Some p -> p < h_next h) as Hlt.
      { intros k p Hp. specialize (Hc k). rewrite Hp in Hc. inversion Hc as [? ? [_ ?]|]; subst. lia. }
      intros k k' p. destruct (decide (k = k0)) as [->|Hne], (decide (k' = k0)) as [->|Hne'];
        rewrite ?lookup_insert_eq, ?lookup_insert_ne by done; [done|intros [= <-] Hp%Hlt; lia|intros Hp%Hlt [= <-]; lia|apply Hi]. }
  exists rows', h'. split_and!; [|by etrans|done|done].
  cbn [foldM].
  rewrite (bind_ok _ _ _ (<[k0 := h_next h]> rows) h1); [exact E1|].
  unfold copy_cell. cbn [fst snd]. by rewrite (bind_ok (load_row p0) _ h r0 h) by (unfold load_row; by rewrite Hr).
Qed.

(** [out] holds copies, at addresses from [n] on, of the tables that [src] points to. *)
Definition tables_copied (h0 h : heap) (n : ptr) (src out : gmap N ptr) : Prop :=
  (∀ id, option_Forall2 (λ t' t, n ≤ t' < h_next h ∧ ∃ m' m, h_tabs h !! t' = Some m' ∧ h_tabs h0 !! t = Some m ∧
     cells_copied h0 h n m m') (out !! id) (src !! id)) ∧ unshared h out.

Lemma copied_within h0 h n src out : tables_copied h0 h n src out -> within h out n (h_next h).
Proof.
  intros [Hc _]. split.
  - intros id t Ht. specialize (Hc id). rewrite Ht in Hc. by inversion Hc as [? ? [? _]|].
  - intros id k p Hp. unfold slot in Hp. specialize (Hc id). destruct (out !! id) as [t|]; cbn in Hp; [|done].
    inversion Hc as [? t0 (_ & m' & m & Hm' & _ & Hcc & _)|]; subst. rewrite Hm' in Hp. cbn in Hp.
    specialize (Hcc k). rewrite Hp in Hcc. by inversion Hcc as [? ? [_ ?]|].
Qed.

Lemma cells_grow h0 h h' n src rows : grows h h' -> cells_copied h0 h n src rows -> cells_copied h0 h' n src rows.
Proof.
  intros (Hn & Hr & _) [Hc Hi]. split; [|done]. intros k. specialize (Hc k).
  destruct (rows !! k), (src !! k); inversion Hc as [? ? [Hp Hb]|]; subst; constructor. rewrite Hr by lia. split; [done|lia].
Qed.

Lemma copied_grow h0 h h' n src out : grows h h' -> tables_copied h0 h n src out -> tables_copied h0 h' n src out.
Proof.
  intros Hg Hc. pose proof (copied_within _ _ _ _ _ Hc) as Hw. destruct Hc as [Hc [U1 U2]]. split.
  - intros id. specialize (Hc id). destruct (out !! id) as [t'|], (src !! id) as [t|];
      inversion Hc as [? ? (Hb & m' & m & Hm' & Hm & Hcc)|]; subst; constructor.
    pose proof Hg as (Hn & _ & Ht). split; [lia|]. exists m', m. rewrite Ht by lia. split_and!; [done..|by eapply cells_grow].
  - split; [done|]. intros id k id' k' p. rewrite !(grows_slot _ _ _ _ _ _ Hg Hw). apply U2.
Qed.

Lemma copy_tables_ok h0 n l h src out :
  (∀ it, it ∈ l -> ∃ m, h_tabs h0 !! it.2 = Some m ∧ it.2 < h_next h0 ∧ ∀ k p, m !! k = Some p -> is_Some (h_rows h0 !! p) ∧ p < h_next h0) ->
  grows h0 h -> n ≤ h_next h -> tables_copied h0 h n src out ->
  ∃ out' h', foldM copy_table out l h = (Ok out', h') ∧ grows h h' ∧ tables_copied h0 h' n (ins_all src l) out'.
Proof.
  revert h src out. induction l as [|[id0 t0] l IH]; intros h src out Hl Hg Hn Hc; [by exists out, h|].
  destruct (Hl (id0, t0) ltac:(left)) as (m & Hm & Ht0 & Hrows). cbn [fst snd] in *.
  assert (h_tabs h !! t0 = Some m) as Hm1 by (destruct Hg as (_ & _ & Hgt); by rewrite Hgt).
  destruct (copy_cells_ok h0 (h_next h) (range_map m) h ∅ ∅) as (rows & h1 & E1 & G1 & T1 & C1).
  { intros [k p] Hin%elem_of_range. by apply (Hrows k). }
  { done. } { done. }
  { split; [intros k; rewrite !lookup_empty; constructor|]. intros k k' p. by rewrite lookup_empty. }
  rewrite ins_all_range in C1.
  set (h2 := MkHeap (h_rows h1) (<[h_next h1 := rows]> (h_tabs h1)) (S (h_next h1))).
  assert (grows h1 h2) as G2.
  { split_and!; cbn; [lia|done|]. intros p Hp. by rewrite lookup_insert_ne by lia. }
  assert (grows h h2) as G by (by etrans).
  pose proof (proj1 G1) as Hn1. pose proof (copied_within _ _ _ _ _ Hc) as Hw.
  assert (∀ id k p, slot h2 (<[id0 := h_next h1]> out) id k = Some p ->
    id = id0 ∧ rows !! k = Some p ∧ h_next h ≤ p ∨ id ≠ id0 ∧ slot h out id k = Some p ∧ p < h_next h) as Hslot.
  { intros id k p. unfold slot at 1. destruct (decide (id = id0)) as [->|Hne].
    - rewrite lookup_insert_eq. cbn. rewrite lookup_insert_eq. cbn. intros Hp. left. split_and!; [done..|].
      destruct C1 as [C1 _]. specialize (C1 k). rewrite Hp in C1. by inversion C1 as [? ? [_ ?]|]; subst; lia.
    - rewrite lookup_insert_ne by done. intros Hp. right. split; [done|].
      assert (slot h out id k = Some p) as Hs by (rewrite <-(grows_slot _ _ _ _ _ _ G Hw); exact Hp).
      split; [done|]. apply Hw in Hs. lia. }
  destruct (IH h2 (<[id0 := t0]> src) (<[id0 := h_next h1]> out)) as (out' & h' & E2 & G3 & C3).
  { intros it Hin. apply Hl. by right. }
  { by etrans. }
  { cbn. lia. }
  { pose proof (copied_grow _ _ _ _ _ _ G Hc) as [Hc' _]. destruct Hc as [_ [U1 U2]]. split.
    - intros id. destruct (decide (id = id0)) as [->|Hne].
      + rewrite !lookup_insert_eq. constructor. split; [cbn; lia|]. exists rows, m. cbn. rewrite lookup_insert_eq.
        split_and!; [done..|]. destruct C1 as [C1 I1]. split; [|done]. intros k. specialize (C1 k).
        destruct (rows !! k), (m !! k); inversion C1 as [? ? [Hp Hb]|]; subst; constructor. cbn. split; [done|lia].
      + rewrite !lookup_insert_ne by done. apply Hc'.
    - split.
      + intros id id' t. destruct (decide (id = id0)) as [->|Hne], (decide (id' = id0)) as [->|Hne'];
          rewrite ?lookup_insert_eq, ?lookup_insert_ne by done; [done|intros [= <-] Hx%(proj1 Hw); lia|intros Hx%(proj1 Hw) [= <-]; lia|apply U1].
      + intros id k id' k' p Hs%Hslot Hs'%Hslot.
        destruct Hs as [(-> & Hp & Hb)|(Hne & Hp & Hb)], Hs' as [(-> & Hp' & Hb')|(Hne' & Hp' & Hb')]; try lia.
        * split; [done|]. destruct C1 as [_ I1]. by eapply I1.
        * by eapply U2. }
  exists out', h'. split_and!; [|by etrans|done]. cbn [foldM].
  rewrite (bind_ok _ _ _ (<[id0 := h_next h1]> out) h2); [exact E2|].
  unfold copy_table. cbn [fst snd]. rewrite (bind_ok (load_tab t0) _ h m h) by (unfold load_tab; by rewrite Hm1).
  by rewrite (bind_ok _ _ _ _ _ E1).
Qed.

(** A snapshot is a copy of all rows in objects of its own. *)
Lemma snapshot_ok h ts tabs :
  tabs_are h ts tabs -> within h ts 0 (h_next h) ->
  ∃ ts' h', snapshotTables ts h = (Ok ts', h') ∧ grows h h' ∧ tabs_are h' ts' tabs ∧
    within h' ts' (h_next h) (h_next h') ∧ unshared h' ts'.
Proof.
  intros Ha Hw. destruct (copy_tables_ok h (h_next h) (range_map ts) h ∅ ∅) as (out & h' & E1 & G1 & C1).
  - intros [id t] Hin%elem_of_range. specialize (Ha id). rewrite Hin in Ha. inversion Ha as [? tb (m & Hm & Hr)|]; subst.
    exists m. cbn [snd]. split_and!; [done|by apply (proj1 Hw id)|]. intros k p Hp. specialize (Hr k). rewrite Hp in Hr.
    inversion Hr; subst. split; [eauto|]. apply (proj2 Hw id k). unfold slot. rewrite Hin. cbn. by rewrite Hm.
  - done.
  - done.
  - split; [intros id; rewrite !lookup_empty; constructor|]. split; [intros id id' t; by rewrite lookup_empty|].
    intros id k id' k' p. unfold slot. by rewrite lookup_empty.
  - rewrite ins_all_range in C1. exists out, h'. split_and!; [done..| |by eapply copied_within|apply C1].
    intros id. specialize (Ha id). destruct C1 as [C1 _]. specialize (C1 id).
    destruct (out !! id) as [t'|], (ts !! id) as [t|], (tabs !! id) as [tb|]; inversion Ha as [? ? Hti|]; inversion C1 as [? ? Hci|]; subst; constructor.
    destruct Hti as (m0 & Hm0 & Hr), Hci as (_ & m' & m & Hm' & Hm & Hcc & _). exists m'. split; [done|].
    rewrite Hm in Hm0. injection Hm0 as ->. intros k. specialize (Hr k). specialize (Hcc k).
    destruct (m' !! k), (m0 !! k), (tt_rows tb !! k); inversion Hr; inversion Hcc as [? ? [Hx _]|]; subst; constructor. congruence.
Qed.
End copies.

(** * Transactions by reference and by value *)

(** [t] stands for the tables [tabs] and the savepoints [saves]: what it points to has
    those values, no object of the tables is reached twice, and none is an object of a
    savepoint. *)
Record holds (h : heap) (t : ptxn) (tabs : gmap N tableTxn) (saves : list savepoint) : Prop := {
  ho_tabs : tabs_are h (pt_tables t) tabs;
  ho_within : within h (pt_tables t) 0 (h_next h);
  ho_unshared : unshared h (pt_tables t);
  ho_saves : Forall2 (λ s sp, s.1 = sp_name sp ∧ tabs_are h s.2 (sp_tables sp) ∧ within h s.2 0 (h_next h) ∧
                              apart h (pt_tables t) s.2) (pt_saves t) saves
}.

Lemma grows_apart h h' ts ts' a b :
  grows h h' -> within h ts a (h_next h) -> within h ts' b (h_next h) -> apart h ts ts' -> apart h' ts ts'.
Proof.
  intros Hg W1 W2 [A1 A2]. split; [done|]. intros id k id' k' p.
  rewrite (grows_slot _ _ _ _ _ _ Hg W1), (grows_slot _ _ _ _ _ _ Hg W2). apply A2.
Qed.

Lemma grows_holds h h' t tabs saves : grows h h' -> holds h t tabs saves -> holds h' t tabs saves.
Proof.
  intros Hg [Ht Hw [U1 U2] Hs]. split.
  - by eapply grows_tabs.
  - by eapply grows_within.
  - split; [done|]. intros id k id' k' p. rewrite !(grows_slot _ _ _ _ _ _ Hg Hw). apply U2.
  - eapply Forall2_impl; [exact Hs|]. intros s sp (? & ? & ? & ?).
    split_and!; [done|by eapply grows_tabs|by eapply grows_within|by eapply grows_apart].
Qed.

(** Objects above an address are apart from those below. *)
Lemma within_apart h ts ts' a b c d : within h ts a b -> within h ts' c d -> b ≤ c ∨ d ≤ a -> apart h ts ts'.
Proof.
  intros [W1 W2] [X1 X2] Hle. split.
  - intros id id' t Ht%W1 Ht'%X1. lia.
  - intros id k id' k' p Hp%W2 Hp'%X2. lia.
Qed.

Section sim.
Context `{MR : MapRange} `{CF : CaseFold}.

Lemma Forall2_dropSavepoint {A A'} (R : A -> A' -> Prop) (nm : A -> string) (nm' : A' -> string) name l l' :
  (∀ a a', R a a' -> nm a = nm' a') -> Forall2 R l l' -> Forall2 R (dropSavepoint nm name l) (dropSavepoint nm' name l').
Proof.
  intros HR Hl. unfold dropSavepoint. assert (nm <$> l = nm' <$> l') as ->.
  { induction Hl; cbn; [done|]. f_equal; auto. }
  destruct (first_named name (nm' <$> l')); [|done]. apply Forall2_app; [by apply Forall2_take|by apply Forall2_drop].
Qed.

Lemma saves_names h t tabs saves : holds h t tabs saves -> (fst <$> pt_saves t) = (sp_name <$> saves).
Proof. intros [_ _ _ Hs]. induction Hs as [|s sp l l' (E0 & _)]; cbn; [done|]. by f_equal. Qed.

(** Creating a savepoint adds a copy of the tables. *)
Lemma create_ok h t tabs saves name :
  holds h t tabs saves ->
  ∃ h' t', CreateSavepoint name (MkTxnHeap h (Some t)) = (Ok tt, MkTxnHeap h' (Some t')) ∧
    holds h' t' tabs (dropSavepoint sp_name name saves ++ [MkSavepoint name tabs]).
Proof.
  intros Hh. pose proof Hh as [Ht Hw Hu _]. destruct (snapshot_ok h (pt_tables t) tabs Ht Hw) as (cp & h' & Es & Hg & Hc & Hcw & _).
  eexists h', _. split.
  { unfold CreateSavepoint. rewrite (bind_ok _ _ _ t (MkTxnHeap h (Some t))) by done.
    by rewrite (bind_ok _ _ _ cp (MkTxnHeap h' (Some t))) by (unfold on_heap; cbn [th_heap]; by rewrite Es). }
  destruct (grows_holds h h' t tabs saves Hg Hh) as [Ht' Hw' Hu' Hs']. split; [done..|]. cbn [pt_saves pt_tables].
  apply Forall2_app.
  - eapply Forall2_dropSavepoint; [|done]. intros s sp. by intros (? & _).
  - constructor; [|constructor]. split_and!; [done|done| |].
    + split; [intros id p Hp|intros id k p Hp]; apply Hcw in Hp; lia.
    + eapply (within_apart h' (pt_tables t) cp 0 (h_next h) (h_next h) (h_next h')); [|done|lia].
      split; [apply Hw|]. intros id k p Hp. rewrite (grows_slot _ _ _ _ _ _ Hg Hw) in Hp. by apply Hw in Hp.
Qed.

Lemma last_named_lt name names i : last_named name names = Some i -> i < length names.
Proof.
  unfold last_named. destruct (list_find _ _) as [[j n]|] eqn:Ef; cbn; [|done]. intros [= <-].
  apply list_find_Some in Ef as (Hj%lookup_lt_Some & _). rewrite length_reverse in Hj. lia.
Qed.

(** Rolling back makes the tables a copy of the savepoint's, which stays. *)
Lemma rollback_ok h t tabs saves name i sp :
  holds h t tabs saves -> last_named name (sp_name <$> saves) = Some i -> saves !! i = Some sp ->
  ∃ h' t', RollbackToSavepoint name (MkTxnHeap h (Some t)) = (Ok tt, MkTxnHeap h' (Some t')) ∧
    holds h' t' (sp_tables sp) (take (S i) saves).
Proof.
  intros Hh Hi Hsp. pose proof Hh as [_ _ _ Hs]. destruct (Forall2_lookup_r _ _ _ _ _ Hs Hsp) as (s & Es & _ & Ht & Hw & _).
  destruct (snapshot_ok h s.2 (sp_tables sp) Ht Hw) as (cp & h' & Ec & Hg & Hc & Hcw & Hcu).
  eexists h', (MkPtxn cp (take (S i) (pt_saves t))). split.
  { unfold RollbackToSavepoint. rewrite (bind_ok _ _ _ t (MkTxnHeap h (Some t))) by done.
    rewrite (saves_names _ _ _ _ Hh), Hi, Es.
    by rewrite (bind_ok _ _ _ cp (MkTxnHeap h' (Some t))) by (unfold on_heap; cbn [th_heap]; by rewrite Ec). }
  split; cbn [pt_tables pt_saves]; [done| |done|].
  - split; [intros id p Hp|intros id k p Hp]; apply Hcw in Hp; lia.
  - apply Forall2_take. eapply Forall2_impl; [exact Hs|]. intros s' sp' (? & Ht' & Hw' & _).
    split_and!; [done|by eapply grows_tabs|by eapply grows_within|].
    eapply (within_apart h' cp s'.2 (h_next h) (h_next h') 0 (h_next h)); [done| |lia].
    split; [apply Hw'|]. intros id k p Hp. rewrite (grows_slot _ _ _ _ _ _ Hg Hw') in Hp. by apply Hw' in Hp.
Qed.

Lemma release_ok h t tabs saves name i :
  holds h t tabs saves -> last_named name (sp_name <$> saves) = Some i ->
  ∃ t', ReleaseSavepoint name (MkTxnHeap h (Some t)) = (Ok tt, MkTxnHeap h (Some t')) ∧ holds h t' tabs (take i saves).
Proof.
  intros Hh Hi. eexists (MkPtxn (pt_tables t) (take i (pt_saves t))). split.
  { unfold ReleaseSavepoint. rewrite (bind_ok _ _ _ t (MkTxnHeap h (Some t))) by done.
    by rewrite (saves_names _ _ _ _ Hh), Hi. }
  destruct Hh as [Ht Hw Hu Hs]. split; [done..|]. by apply Forall2_take.
Qed.

Lemma missing_savepoint h t tabs saves name :
  holds h t tabs saves -> last_named name (sp_name <$> saves) = None ->
  RollbackToSavepoint name (MkTxnHeap h (Some t)) = (Err ErrSavepointDoesNotExist, MkTxnHeap h (Some t)) ∧
  ReleaseSavepoint name (MkTxnHeap h (Some t)) = (Err ErrSavepointDoesNotExist, MkTxnHeap h (Some t)).
Proof.
  intros Hh Hi. unfold RollbackToSavepoint, ReleaseSavepoint.
  rewrite !(bind_ok _ _ _ t (MkTxnHeap h (Some t))) by done. by rewrite (saves_names _ _ _ _ Hh), Hi.
Qed.

(** ** Closing a statement *)

(** Assigning to a row of the tables. *)
Lemma store_row_holds h t tabs saves id tb k q r :
  holds h t tabs saves -> slot h (pt_tables t) id k = Some q -> tabs !! id = Some tb ->
  holds (MkHeap (<[q := r]> (h_rows h)) (h_tabs h) (h_next h)) t (<[id := MkTableTxn (<[k := r]> (tt_rows tb))]> tabs) saves.
Proof.
  intros [Ht Hw [U1 U2] Hs] Hq Htb. split; [|exact Hw|by split|].
  - intros id'. specialize (Ht id'). destruct (pt_tables t !! id') as [b|] eqn:Eb.
    2:{ destruct (decide (id' = id)) as [->|Hne]; [by rewrite Htb in Ht; inversion Ht|].
        rewrite lookup_insert_ne by done. inversion Ht. constructor. }
    assert (∀ tb0, tabs !! id' = Some tb0 -> tab_is h b tb0) as Hb by (intros tb0 E0; rewrite E0 in Ht; by inversion Ht).
    assert (is_Some (tabs !! id')) as [tb0 Etb0] by (inversion Ht; eauto). destruct (Hb _ Etb0) as (m & Hm & Hrows).
    assert (∀ k', slot h (pt_tables t) id' k' = m !! k') as Hslot by (intros k'; unfold slot; rewrite Eb; cbn; by rewrite Hm).
    destruct (decide (id' = id)) as [->|Hne].
    + rewrite lookup_insert_eq. constructor. exists m. split; [done|]. rewrite Htb in Etb0. injection Etb0 as ->.
      rewrite Hslot in Hq. intros k'. cbn [tt_rows h_rows]. destruct (decide (k' = k)) as [->|Hk].
      * rewrite Hq, lookup_insert_eq. constructor. by rewrite lookup_insert_eq.
      * rewrite (lookup_insert_ne (tt_rows tb0)) by done. specialize (Hrows k').
        destruct (m !! k') as [p|] eqn:Ep, (tt_rows tb0 !! k') as [r0|]; inversion Hrows; subst; constructor.
        rewrite lookup_insert_ne; [done|]. intros <-. apply Hk. apply (U2 id k' id k q); rewrite Hslot; done.
    + rewrite lookup_insert_ne, Etb0 by done. constructor. exists m. split; [done|]. intros k'. specialize (Hrows k'). cbn [h_rows].
      destruct (m !! k') as [p|] eqn:Ep, (tt_rows tb0 !! k') as [r0|]; inversion Hrows; subst; constructor.
      rewrite lookup_insert_ne; [done|]. intros <-. apply Hne. apply (U2 id' k' id k q); [by rewrite Hslot|done].
  - eapply Forall2_impl; [exact Hs|]. intros s sp (? & Hts & ? & [A1 A2]). split_and!; [done| |done|by split].
    intros id'. specialize (Hts id'). destruct (s.2 !! id') as [b|] eqn:Eb, (sp_tables sp !! id') as [tb0|];
      inversion Hts as [? ? (m & Hm & Hrows)|]; subst; constructor. exists m. split; [done|].
    intros k'. specialize (Hrows k'). cbn [h_rows]. destruct (m !! k') as [p|] eqn:Ep, (tt_rows tb0 !! k') as [r0|]; inversion Hrows; subst; constructor.
    rewrite lookup_insert_ne; [done|]. intros <-. apply (A2 id k id' k' q); [done|]. unfold slot. rewrite Eb. cbn. by rewrite Hm.
Qed.

(** A pointer that neither the tables nor the savepoints have. *)
Definition loose (h : heap) (t : ptxn) (p : ptr) : Prop :=
  p < h_next h ∧ (∀ id k, slot h (pt_tables t) id k ≠ Some p) ∧ Forall (λ s, ∀ id k, slot h s.2 id k ≠ Some p) (pt_saves t).

(** Adding a row to a buffer of the tables. *)
Lemma store_tab_slots h t tabs saves id b m k p :
  holds h t tabs saves -> pt_tables t !! id = Some b -> h_tabs h !! b = Some m ->
  let h' := MkHeap (h_rows h) (<[b := <[k := p]> m]> (h_tabs h)) (h_next h) in
  (∀ id' k', slot h' (pt_tables t) id' k' = if decide (id' = id ∧ k' = k) then Some p else slot h (pt_tables t) id' k') ∧
  (∀ s id' k', s ∈ pt_saves t -> slot h' s.2 id' k' = slot h s.2 id' k').
Proof.
  intros [_ _ [U1 _] Hs] Hb Hm h'. split.
  - intros id' k'. unfold slot. destruct (pt_tables t !! id') as [b'|] eqn:Eb'; cbn.
    2:{ rewrite decide_False; [done|]. intros [-> _]. congruence. }
    destruct (decide (b' = b)) as [->|Hne].
    + assert (id' = id) as -> by (by eapply U1). rewrite lookup_insert_eq. cbn. destruct (decide (k' = k)) as [->|Hk].
      * by rewrite lookup_insert_eq, decide_True.
      * rewrite lookup_insert_ne, decide_False, Hm by (done || naive_solver). done.
    + rewrite lookup_insert_ne by done. rewrite decide_False; [done|]. intros [-> _]. congruence.
  - intros s id' k' Hin. unfold slot. destruct (s.2 !! id') as [b'|] eqn:Eb'; cbn; [|done].
    rewrite lookup_insert_ne; [done|]. intros <-. apply list_elem_of_lookup in Hin as [i Hi].
    destruct (Forall2_lookup_l _ _ _ _ _ Hs Hi) as (sp & _ & _ & _ & _ & [A1 _]). by eapply A1.
Qed.

Lemma store_tab_holds h t tabs saves id b tb m k p r :
  holds h t tabs saves -> pt_tables t !! id = Some b -> h_tabs h !! b = Some m -> tabs !! id = Some tb ->
  m !! k = None -> h_rows h !! p = Some r -> loose h t p ->
  holds (MkHeap (h_rows h) (<[b := <[k := p]> m]> (h_tabs h)) (h_next h)) t (<[id := MkTableTxn (<[k := r]> (tt_rows tb))]> tabs) saves.
Proof.
  intros Hh Hb Hm Htb Hk Hp (Hlt & Hl1 & Hl2). destruct (store_tab_slots h t tabs saves id b m k p Hh Hb Hm) as [Hsl Hss].
  destruct Hh as [Ht Hw [U1 U2] Hs]. split.
  - intros id'. destruct (decide (id' = id)) as [->|Hne].
    + specialize (Ht id). rewrite Hb, Htb in Ht. inversion Ht as [? ? (m0 & Hm0 & Hrows)|]; subst. rewrite Hm in Hm0. injection Hm0 as <-.
      rewrite Hb, lookup_insert_eq. constructor. exists (<[k := p]> m). cbn. rewrite lookup_insert_eq. split; [done|].
      intros k'. destruct (decide (k' = k)) as [->|Hk']; [rewrite !lookup_insert_eq; by constructor|by rewrite !lookup_insert_ne].
    + rewrite lookup_insert_ne by done. specialize (Ht id'). destruct (pt_tables t !! id') as [b'|] eqn:Eb', (tabs !! id') as [tb'|];
        inversion Ht as [? ? (m0 & Hm0 & Hrows)|]; subst; constructor. exists m0. cbn. rewrite lookup_insert_ne; [done|].
      intros <-. apply Hne. by eapply U1.
  - split; [apply Hw|]. intros id' k' p'. rewrite Hsl. case_decide; [intros [= <-]; cbn [h_next]; lia|apply Hw].
  - split; [done|]. intros id1 k1 id2 k2 p'. rewrite !Hsl. repeat case_decide.
    + naive_solver.
    + intros [= <-] Hx. by apply Hl1 in Hx.
    + intros Hx [= <-]. by apply Hl1 in Hx.
    + apply U2.
  - apply Forall2_same_length_lookup_2; [by eapply Forall2_length|]. intros i s sp Hi Hi'.
    destruct (Forall2_lookup_lr _ _ _ _ _ _ Hs Hi Hi') as (En & Hts & Hws & [A1 A2]).
    assert (∀ id' k', slot (MkHeap (h_rows h) (<[b := <[k := p]> m]> (h_tabs h)) (h_next h)) s.2 id' k' = slot h s.2 id' k') as Hsame
      by (intros; apply Hss; by eapply list_elem_of_lookup_2).
    split_and!; [done| | |].
    + intros id'. specialize (Hts id'). destruct (s.2 !! id') as [b'|] eqn:Eb', (sp_tables sp !! id') as [tb'|];
        inversion Hts as [? ? (m0 & Hm0 & Hrows)|]; subst; constructor. exists m0. cbn. rewrite lookup_insert_ne; [done|].
      intros <-. by eapply A1.
    + split; [apply Hws|]. intros id' k' p'. rewrite Hsame. apply Hws.
    + split; [done|]. intros id1 k1 id2 k2 p'. rewrite Hsl, Hsame. case_decide; [|apply A2].
      intros [= <-] Hx. rewrite Forall_forall in Hl2. by apply (Hl2 s ltac:(by eapply list_elem_of_lookup_2) id2 k2).
Qed.

(** The rows of a statement: their values, in objects of their own. *)
Record pend_ok (h : heap) (t : ptxn) (l : list (bytes * ptr)) (vl : list (bytes * pendingRow)) : Prop := {
  pd_vals : Forall2 (λ kp kr, kp.1 = kr.1 ∧ h_rows h !! kp.2 = Some kr.2) l vl;
  pd_nodup : NoDup l.*2;
  pd_loose : Forall (λ kp, loose h t kp.2) l
}.

Lemma fold_cell_ok h t tabs saves id b tb k p r l vl :
  holds h t tabs saves -> pt_tables t !! id = Some b -> tabs !! id = Some tb -> pend_ok h t ((k, p) :: l) ((k, r) :: vl) ->
  ∃ h', fold_cell b tt (k, p) h = (Ok tt, h') ∧
    holds h' t (<[id := MkTableTxn (fold_row (tt_rows tb) (k, r))]> tabs) saves ∧ pend_ok h' t l vl.
Proof.
  intros Hh Hb Htb [Hv Hnd Hl]. apply Forall2_cons in Hv as [[_ Hp] Hv]. cbn [fst snd] in *.
  cbn in Hnd. apply NoDup_cons in Hnd as [Hnin Hnd]. apply Forall_cons in Hl as [Hlp Hl]. cbn [snd] in Hlp.
  pose proof (ho_tabs _ _ _ _ Hh id) as Hid. rewrite Hb, Htb in Hid. inversion Hid as [? ? (m & Hm & Hrows)|]; subst.
  unfold fold_cell. rewrite (bind_ok _ _ _ m h) by (unfold load_tab; by rewrite Hm). cbn [fst snd].
  specialize (Hrows k). unfold fold_row. cbn [fst snd]. destruct (m !! k) as [q|] eqn:Ek.
  - inversion Hrows as [? r0 Hq|]; subst. eexists. split.
    { rewrite (bind_ok _ _ _ r h) by (unfold load_row; by rewrite Hp).
      by rewrite (bind_ok _ _ _ r0 h) by (unfold load_row; by rewrite Hq). }
    assert (slot h (pt_tables t) id k = Some q) as Hslot by (unfold slot; rewrite Hb; cbn; by rewrite Hm).
    split; [by apply store_row_holds|]. split; [|done|done].
    apply Forall2_same_length_lookup_2; [by eapply Forall2_length|]. intros i kp kr Hi Hi'.
    destruct (Forall2_lookup_lr _ _ _ _ _ _ Hv Hi Hi') as [? Hkp]. split; [done|]. cbn [h_rows].
    rewrite lookup_insert_ne; [done|]. intros Heq. rewrite Forall_forall in Hl.
    destruct (Hl kp ltac:(by eapply list_elem_of_lookup_2)) as (_ & Hno & _). apply (Hno id k). congruence.
  - inversion Hrows as [|E0]; subst. eexists. split; [done|]. split; [by eapply store_tab_holds|].
    destruct (store_tab_slots h t tabs saves id b m k p Hh Hb Hm) as [Hsl Hss].
    split; [done|done|]. rewrite Forall_forall in Hl |- *. intros kp Hin. destruct (Hl kp Hin) as (? & Hn1 & Hn2).
    split_and!; [done| |].
    + intros id' k'. rewrite Hsl. case_decide; [|apply Hn1]. intros [= Heq]. apply Hnin. rewrite Heq. by apply list_elem_of_fmap_2.
    + rewrite Forall_forall in Hn2 |- *. intros s Hs id' k'. rewrite Hss by done. by apply Hn2.
Qed.

Lemma fold_cells_ok h t tabs saves id b tb l vl :
  holds h t tabs saves -> pt_tables t !! id = Some b -> tabs !! id = Some tb -> pend_ok h t l vl ->
  ∃ h', foldM (fold_cell b) tt l h = (Ok tt, h') ∧ holds h' t (<[id := MkTableTxn (foldl fold_row (tt_rows tb) vl)]> tabs) saves.
Proof.
  revert h tabs tb vl. induction l as [|[k p] l IH]; intros h tabs tb vl Hh Hb Htb Hp.
  { pose proof (pd_vals _ _ _ _ Hp) as Hv. apply Forall2_nil_inv_l in Hv as ->. exists h. split; [done|]. cbn [foldl].
    rewrite insert_id; [done|]. by destruct tb. }
  pose proof (pd_vals _ _ _ _ Hp) as Hv. apply Forall2_cons_inv_l in Hv as ([k' r] & vl' & [Ek _] & _ & ->). cbn in Ek. subst k'.
  destruct (fold_cell_ok _ _ _ _ _ _ _ _ _ _ _ _ Hh Hb Htb Hp) as (h1 & E1 & Hh1 & Hp1).
  destruct (IH h1 _ (MkTableTxn (fold_row (tt_rows tb) (k, r))) vl' Hh1 Hb ltac:(by rewrite lookup_insert_eq) Hp1) as (h' & E2 & Hh').
  exists h'. cbn [foldM]. rewrite (bind_ok _ _ _ _ _ E1). split; [done|]. by rewrite insert_insert_eq in Hh'.
Qed.

(** The buffer of a table, with the tables in which it is allocated. *)
Lemma txn_table_ptr_ok h t tabs saves id l vl :
  holds h t tabs saves -> pend_ok h t l vl ->
  ∃ h1 t1 b tabs1, txn_table_ptr id t h = (Ok (b, t1), h1) ∧ holds h1 t1 tabs1 saves ∧ pt_tables t1 !! id = Some b ∧
    tabs1 !! id = Some (match tabs !! id with Some tb => tb | None => MkTableTxn ∅ end) ∧
    (∀ tb, <[id := tb]> tabs1 = <[id := tb]> tabs) ∧ pend_ok h1 t1 l vl.
Proof.
  intros Hh Hp.
  unfold txn_table_ptr. pose proof (ho_tabs _ _ _ _ Hh id) as Hid. destruct (pt_tables t !! id) as [b|] eqn:Eb.
  - destruct (tabs !! id) as [tb|] eqn:Etb; [|by inversion Hid]. exists h, t, b, tabs. by split_and!.
  - destruct (tabs !! id) as [tb|] eqn:Etb; [by inversion Hid|]. set (h1 := MkHeap (h_rows h) (<[h_next h := ∅]> (h_tabs h)) (S (h_next h))).
    set (t1 := MkPtxn (<[id := h_next h]> (pt_tables t)) (pt_saves t)).
    assert (grows h h1) as Hg by (split_and!; cbn; [lia|done|intros p Hlt; by rewrite lookup_insert_ne by lia]).
    assert (∀ id' k', slot h1 (pt_tables t1) id' k' = slot h (pt_tables t) id' k') as Hsl.
    { intros id' k'. unfold slot. cbn. destruct (decide (id' = id)) as [->|Hne'].
      - rewrite lookup_insert_eq, Eb. cbn. by rewrite lookup_insert_eq.
      - rewrite lookup_insert_ne by done. destruct (pt_tables t !! id') as [b'|] eqn:Eb'; cbn; [|done].
        rewrite lookup_insert_ne; [done|]. apply (ho_within _ _ _ _ Hh) in Eb'. lia. }
    exists h1, t1, (h_next h), (<[id := MkTableTxn ∅]> tabs). destruct (grows_holds _ _ _ _ _ Hg Hh) as [Gt Gw [Gu1 Gu2] Gs].
    split_and!; [done| |by unfold t1; cbn; rewrite lookup_insert_eq|by rewrite lookup_insert_eq|intros tb; by rewrite insert_insert_eq|].
    + split.
      * intros id'. unfold t1; cbn [pt_tables]. destruct (decide (id' = id)) as [->|Hne'].
        -- rewrite !lookup_insert_eq. constructor. exists ∅. cbn. rewrite lookup_insert_eq. split; [done|]. intros k. rewrite !lookup_empty. constructor.
        -- rewrite !lookup_insert_ne by done. apply Gt.
      * split; [|intros id' k' p'; rewrite Hsl; intros Hx%(ho_within _ _ _ _ Hh); cbn; lia].
        intros id' b'. unfold t1; cbn [pt_tables]. destruct (decide (id' = id)) as [->|Hne'];
          [rewrite lookup_insert_eq; intros [= <-]; cbn; lia|rewrite lookup_insert_ne by done; apply Gw].
      * split; [|intros id1 k1 id2 k2 p'; rewrite !Hsl; apply (ho_unshared _ _ _ _ Hh)].
        intros id1 id2 b'. unfold t1; cbn [pt_tables]. destruct (decide (id1 = id)) as [->|N1], (decide (id2 = id)) as [->|N2];
          rewrite ?lookup_insert_eq, ?lookup_insert_ne by done; [done|..|apply Gu1];
          [intros [= <-] Hx|intros Hx [= <-]]; apply (ho_within _ _ _ _ Hh) in Hx; lia.
      * unfold t1; cbn [pt_saves]. pose proof (ho_saves _ _ _ _ Hh) as Hs. apply Forall2_same_length_lookup_2; [by eapply Forall2_length|].
        intros i s sp Hi Hi'. destruct (Forall2_lookup_lr _ _ _ _ _ _ Gs Hi Hi') as (? & ? & ? & [A1 A2]).
        destruct (Forall2_lookup_lr _ _ _ _ _ _ Hs Hi Hi') as (_ & _ & Hws & [B1 B2]). split_and!; [done..|]. split.
        -- intros id1 id2 b'. unfold t1; cbn [pt_tables]. destruct (decide (id1 = id)) as [->|N1];
             [rewrite lookup_insert_eq; intros [= <-] Hx%Hws; lia|rewrite lookup_insert_ne by done; apply B1].
        -- intros id1 k1 id2 k2 p'. rewrite Hsl, (grows_slot _ _ _ _ _ _ Hg Hws). apply B2.
    + destruct Hp as [Hv Hnd Hl]. split; [done|done|]. rewrite Forall_forall in Hl |- *. intros kp Hin.
      destruct (Hl kp Hin) as (Hlt & Hn1 & Hn2). split_and!; [cbn; lia|intros id' k'; rewrite Hsl; apply Hn1|].
      rewrite Forall_forall in Hn2 |- *. intros s Hin' id' k'. apply list_elem_of_lookup in Hin' as Hlk. destruct Hlk as [i Hi].
      destruct (Forall2_lookup_l _ _ _ _ _ (ho_saves _ _ _ _ Hh) Hi) as (sp & _ & _ & _ & Hws & _).
      rewrite (grows_slot _ _ _ _ _ _ Hg Hws). by apply Hn2.
Qed.

(** Closing a statement folds its rows into the tables. *)
Lemma close_ok h t tabs saves id pend vl :
  holds h t tabs saves -> pend_ok h t (range_map pend) vl -> pend ≠ ∅ ->
  ∃ h' t', closeStatement id pend (MkTxnHeap h (Some t)) = (Ok tt, MkTxnHeap h' (Some t')) ∧
    holds h' t' (<[id := MkTableTxn (foldl fold_row (match tabs !! id with Some tb => tt_rows tb | None => ∅ end) vl)]> tabs) saves.
Proof.
  intros Hh Hp Hne. unfold closeStatement. rewrite bind_gets. cbn [th_txn].
  rewrite decide_False by (by intros ?%map_size_empty_inv).
  destruct (txn_table_ptr_ok h t tabs saves id _ _ Hh Hp) as (h1 & t1 & b & tabs1 & E1 & Hh1 & Hb1 & Ht1 & Hi1 & Hp1).
  destruct (fold_cells_ok h1 t1 tabs1 saves id b _ (range_map pend) vl Hh1 Hb1 Ht1 Hp1) as (h' & E2 & Hh'). exists h', t1. split.
  { rewrite (bind_ok _ _ _ (b, t1) (MkTxnHeap h1 (Some t))) by (unfold on_heap; cbn [th_heap]; by rewrite E1).
    by rewrite (bind_ok _ _ _ tt (MkTxnHeap h' (Some t))) by (unfold on_heap; cbn [th_heap]; by rewrite E2). }
  rewrite Hi1 in Hh'. by destruct (tabs !! id).
Qed.

(** ** Statements and savepoints *)

(** An editor allocates the rows of its buffer, and closes. *)
Definition alloc_cell (m : gmap bytes ptr) (kr : bytes * pendingRow) : M heap (gmap bytes ptr) :=
  p ← alloc_row kr.2; mret (<[kr.1 := p]> m).
Definition runStatement (id : N) (rows : gmap bytes pendingRow) : M txnheap unit :=
  pend ← on_heap (foldM alloc_cell ∅ (range_map rows)); closeStatement id pend.

Lemma alloc_cells_ok n l h src pend :
  n ≤ h_next h ->
  (∀ k, option_Forall2 (λ p r, h_rows h !! p = Some r ∧ n ≤ p < h_next h) (pend !! k) (src !! k)) ->
  (∀ k k' p, pend !! k = Some p -> pend !! k' = Some p -> k = k') ->
  ∃ pend' h', foldM alloc_cell pend l h = (Ok pend', h') ∧ grows h h' ∧
    (∀ k, option_Forall2 (λ p r, h_rows h' !! p = Some r ∧ n ≤ p < h_next h') (pend' !! k) (ins_all src l !! k)) ∧
    (∀ k k' p, pend' !! k = Some p -> pend' !! k' = Some p -> k = k').
Proof.
  revert h src pend. induction l as [|[k0 r0] l IH]; intros h src pend Hn Hc Hi; [by exists pend, h|].
  set (h1 := MkHeap (<[h_next h := r0]> (h_rows h)) (h_tabs h) (S (h_next h))).
  assert (grows h h1) as Hg by (split_and!; cbn; [lia|intros p Hp; by rewrite lookup_insert_ne by lia|done]).
  assert (∀ k p, pend !! k = Some p -> p < h_next h) as Hlt.
  { intros k p Hp. specialize (Hc k). rewrite Hp in Hc. inversion Hc as [? ? [_ ?]|]; subst. lia. }
  destruct (IH h1 (<[k0 := r0]> src) (<[k0 := h_next h]> pend)) as (pend' & h' & E1 & G1 & C1 & I1).
  - cbn. lia.
  - intros k. destruct (decide (k = k0)) as [->|Hne].
    + rewrite !lookup_insert_eq. constructor. cbn. rewrite lookup_insert_eq. split; [done|lia].
    + rewrite !lookup_insert_ne by done. specialize (Hc k).
      destruct (pend !! k), (src !! k); inversion Hc as [? ? [Hcp Hb]|]; subst; constructor.
      cbn. rewrite lookup_insert_ne by lia. split; [done|lia].
  - intros k k' p. destruct (decide (k = k0)) as [->|Hne], (decide (k' = k0)) as [->|Hne'];
      rewrite ?lookup_insert_eq, ?lookup_insert_ne by done; [done|intros [= <-] Hp%Hlt; lia|intros Hp%Hlt [= <-]; lia|apply Hi].
  - exists pend', h'. split_and!; [|by etrans|done|done]. cbn [foldM]. by rewrite (bind_ok _ _ _ (<[k0 := h_next h]> pend) h1).
Qed.

(** What the statement does to the tables. *)
Definition fold_statement (id : N) (rows : gmap bytes pendingRow) (tabs : gmap N tableTxn) : gmap N tableTxn :=
  if decide (size rows = 0) then tabs
  else <[id := MkTableTxn (merge_rows (match tabs !! id with Some tb => tt_rows tb | None => ∅ end) rows)]> tabs.

Lemma runStatement_ok h t tabs saves id rows :
  holds h t tabs saves ->
  ∃ h' t', runStatement id rows (MkTxnHeap h (Some t)) = (Ok tt, MkTxnHeap h' (Some t')) ∧ holds h' t' (fold_statement id rows tabs) saves.
Proof.
  intros Hh. destruct (alloc_cells_ok (h_next h) (range_map rows) h ∅ ∅) as (pend & h1 & E1 & G1 & C1 & I1).
  { done. } { intros k. rewrite !lookup_empty. constructor. } { intros k k' p. by rewrite lookup_empty. }
  rewrite ins_all_range in C1. pose proof (grows_holds _ _ _ _ _ G1 Hh) as Hh1.
  unfold runStatement. rewrite (bind_ok _ _ _ pend (MkTxnHeap h1 (Some t))) by (unfold on_heap; cbn [th_heap]; by rewrite E1).
  assert (pend = ∅ ↔ rows = ∅) as Hemp.
  { split; intros ->; apply map_empty; intros k; specialize (C1 k); rewrite lookup_empty in C1; by inversion C1. }
  unfold fold_statement. destruct (decide (rows = ∅)) as [->|Hne].
  { rewrite decide_True by apply map_size_empty. exists h1, t. rewrite (proj2 Hemp eq_refl). by split. }
  rewrite decide_False by (by intros ?%map_size_empty_inv).
  set (val := λ kp : bytes * ptr, (kp.1, default (Pending [] None None) (h_rows h1 !! kp.2))).
  assert (∀ k p, pend !! k = Some p -> ∃ r, rows !! k = Some r ∧ h_rows h1 !! p = Some r ∧ h_next h ≤ p < h_next h1) as Hpv.
  { intros k p Hp. specialize (C1 k). rewrite Hp in C1. inversion C1 as [? r [? ?]|]; subst. eauto. }
  destruct (close_ok h1 t tabs saves id pend (val <$> range_map pend) Hh1) as (h' & t' & E2 & Hh').
  - split.
    + apply Forall2_fmap_r, Forall_Forall2_diag, Forall_forall. intros [k p] Hin%elem_of_range. split; [done|].
      destruct (Hpv _ _ Hin) as (r & _ & Hr & _). cbn. by rewrite Hr.
    + apply NoDup_fmap_2_strong; [|eapply NoDup_fmap_1, NoDup_range_fst].
      intros [k p] [k' p'] Hk%elem_of_range Hk'%elem_of_range. cbn. intros <-. by rewrite (I1 k k' p).
    + apply Forall_forall. intros [k p] Hin%elem_of_range. destruct (Hpv _ _ Hin) as (r & _ & _ & Hb). cbn [snd]. split_and!; [lia|..].
      * intros id' k'. rewrite (grows_slot _ _ _ _ _ _ G1 (ho_within _ _ _ _ Hh)). intros Hx%(ho_within _ _ _ _ Hh). lia.
      * apply Forall_forall. intros s Hs id' k'. apply list_elem_of_lookup in Hs as [i Hi].
        destruct (Forall2_lookup_l _ _ _ _ _ (ho_saves _ _ _ _ Hh) Hi) as (sp & _ & _ & _ & Hws & _).
        rewrite (grows_slot _ _ _ _ _ _ G1 Hws). intros Hx%Hws. lia.
  - by rewrite Hemp.
  - exists h', t'. split; [done|]. assert (∀ tr, foldl fold_row tr (val <$> range_map pend) = merge_rows tr rows) as <-; [|done].
    intros tr. assert ((val <$> range_map pend).*1 = (range_map pend).*1) as Hfst by (rewrite <-list_fmap_compose; by apply list_fmap_ext).
    apply map_eq. intros k. rewrite fold_rows_lookup, lookup_merge_rows by (rewrite Hfst; apply NoDup_range_fst).
    assert ((list_to_map (val <$> range_map pend) : gmap bytes pendingRow) !! k = rows !! k) as ->; [|done].
    destruct (rows !! k) as [r|] eqn:Er.
    + apply elem_of_list_to_map_1; [rewrite Hfst; apply NoDup_range_fst|]. specialize (C1 k). rewrite Er in C1.
      inversion C1 as [p ? [Hp _] Ep|]; subst. apply list_elem_of_fmap. exists (k, p). split; [unfold val; cbn; by rewrite Hp|].
      by apply elem_of_range.
    + apply not_elem_of_list_to_map_1. rewrite Hfst. intros ([k' p] & -> & Hin%elem_of_range)%list_elem_of_fmap. cbn in *.
      destruct (Hpv _ _ Hin) as (r & ? & _). congruence.
Qed.

(** ** Forgetting a buffer *)

Lemma delete_slot h ts id id' k p : slot h (delete id ts) id' k = Some p -> slot h ts id' k = Some p.
Proof.
  unfold slot. destruct (decide (id' = id)) as [->|Hne]; [by rewrite lookup_delete_eq|by rewrite lookup_delete_ne by congruence].
Qed.

Lemma delete_ptr (ts : gmap N ptr) id id' t : delete id ts !! id' = Some t -> ts !! id' = Some t.
Proof. by intros [_ ?]%lookup_delete_Some. Qed.

Lemma forget_ok h t tabs saves id :
  holds h t tabs saves ->
  ∃ t', forgetTable id (MkTxnHeap h (Some t)) = (Ok tt, MkTxnHeap h (Some t')) ∧ holds h t' (delete id tabs) saves.
Proof.
  intros [Ht [W1 W2] [U1 U2] Hs]. eexists (MkPtxn (delete id (pt_tables t)) (pt_saves t)). split; [done|].
  split; cbn [pt_tables pt_saves].
  - intros id'. destruct (decide (id' = id)) as [->|Hne]; [rewrite !lookup_delete_eq; constructor|].
    rewrite !lookup_delete_ne by congruence. apply Ht.
  - split; eauto using delete_slot, delete_ptr.
  - split; eauto using delete_slot, delete_ptr.
  - eapply Forall2_impl; [exact Hs|]. intros s sp (? & ? & ? & A1 & A2). split_and!; [done..|].
    split; eauto using delete_slot, delete_ptr.
Qed.

(** ** Names *)

Lemma dropSavepoint_cons {A} (nm : A -> string) n x l :
  dropSavepoint nm n (x :: l) = if EqualFold (nm x) n then l else x :: dropSavepoint nm n l.
Proof.
  unfold dropSavepoint, first_named. cbn [fmap list_fmap list_find].
  destruct (EqualFold (nm x) n) eqn:En; [by rewrite decide_True|]. rewrite decide_False by congruence.
  destruct (list_find _ (nm <$> l)) as [[i y]|]; done.
Qed.

Definition names_of {A} (nm : A -> string) (n : string) (l : list A) : bool := existsb (λ x, EqualFold (nm x) n) l.

Lemma dropSavepoint_app {A} (nm : A -> string) n l1 l2 :
  dropSavepoint nm n (l1 ++ l2) = if names_of nm n l1 then dropSavepoint nm n l1 ++ l2 else l1 ++ dropSavepoint nm n l2.
Proof.
  induction l1 as [|x l1 IH]; [done|]. cbn [app names_of existsb]. rewrite !dropSavepoint_cons, IH. fold (names_of nm n l1).
  destruct (EqualFold (nm x) n); [done|]. cbn [orb]. by destruct (names_of nm n l1).
Qed.

Lemma dropSavepoint_names n (l : list savepoint) : sp_name <$> dropSavepoint sp_name n l = dropSavepoint id n (sp_name <$> l).
Proof.
  induction l as [|x l IH]; [done|]. cbn [fmap list_fmap]. rewrite !dropSavepoint_cons. cbn [id].
  destruct (EqualFold (sp_name x) n); [done|]. cbn [fmap list_fmap]. by rewrite IH.
Qed.

Lemma dropSavepoint_Forall {A} (nm : A -> string) n (P : A -> Prop) l : Forall P l -> Forall P (dropSavepoint nm n l).
Proof.
  intros Hl. induction Hl as [|x l Hx Hl IH]; [constructor|]. rewrite dropSavepoint_cons. destruct (EqualFold (nm x) n); [done|].
  by constructor.
Qed.

Lemma last_named_inv n names i : last_named n names = Some i -> ∃ x, names !! i = Some x ∧ EqualFold x n = true.
Proof.
  unfold last_named. destruct (list_find _ (reverse names)) as [[j x]|] eqn:Ef; [|done]. cbn. intros [= <-].
  apply list_find_Some in Ef as (Hj & Hx & _). exists x. split; [|done].
  pose proof (lookup_lt_Some _ _ _ Hj) as Hlt. rewrite length_reverse in Hlt.
  rewrite reverse_lookup in Hj by done. rewrite <-Hj. f_equal. lia.
Qed.

Lemma last_named_mid name (pre post : list string) :
  Forall (λ n, EqualFold n name = false) post -> last_named name (pre ++ name :: post) = Some (length pre).
Proof.
  intros Hp. unfold last_named. rewrite reverse_app, reverse_cons, <-app_assoc. cbn [app].
  rewrite list_find_app_r.
  - cbn [list_find app]. rewrite decide_True by apply EqualFold_refl. cbn. f_equal. rewrite length_app, length_reverse. cbn. lia.
  - apply list_find_None, Forall_reverse. eapply Forall_impl; [exact Hp|]. intros n Hn. by rewrite Hn.
Qed.

(** ** What a session does in a transaction *)

Inductive sp_op :=
| OpStatement (id : N) (rows : gmap bytes pendingRow)
| OpSave (name : string)
| OpRollbackTo (name : string)
| OpRelease (name : string)
| OpForget (id : N).

Definition run_sp_op (op : sp_op) : M txnheap unit :=
  match op with
  | OpStatement id rows => runStatement id rows
  | OpSave n => CreateSavepoint n
  | OpRollbackTo n => RollbackToSavepoint n
  | OpRelease n => ReleaseSavepoint n
  | OpForget id => forgetTable id
  end.

(** An operation that fails is answered with its error; the session goes on. *)
Fixpoint run_sp_ops (ops : list sp_op) (s : txnheap) : list (outcome unit) * txnheap :=
  match ops with
  | [] => ([], s)
  | op :: ops' =>
      let '(o, s1) := run_sp_op op s in
      let '(os, s2) := run_sp_ops ops' s1 in (o :: os, s2)
  end.

(** The specification has no pointers: the tables, and a stack of tables by name. *)
Abbreviation sp_state := (gmap N tableTxn * list savepoint)%type.

Definition spec_sp_op (op : sp_op) (s : sp_state) : outcome unit * sp_state :=
  let '(tabs, saves) := s in
  match op with
  | OpStatement id rows => (Ok tt, (fold_statement id rows tabs, saves))
  | OpSave n => (Ok tt, (tabs, dropSavepoint sp_name n saves ++ [MkSavepoint n tabs]))
  | OpRollbackTo n =>
      match (i ← last_named n (sp_name <$> saves); sp ← saves !! i; Some (i, sp)) with
      | Some (i, sp) => (Ok tt, (sp_tables sp, take (S i) saves))
      | None => (Err ErrSavepointDoesNotExist, s)
      end
  | OpRelease n =>
      match last_named n (sp_name <$> saves) with
      | Some i => (Ok tt, (tabs, take i saves))
      | None => (Err ErrSavepointDoesNotExist, s)
      end
  | OpForget id => (Ok tt, (delete id tabs, saves))
  end.

Fixpoint spec_sp_ops (ops : list sp_op) (s : sp_state) : list (outcome unit) * sp_state :=
  match ops with
  | [] => ([], s)
  | op :: ops' =>
      let '(o, s1) := spec_sp_op op s in
      let '(os, s2) := spec_sp_ops ops' s1 in (o :: os, s2)
  end.

Lemma sp_op_ok h t tabs saves op :
  holds h t tabs saves ->
  let '(o, (tabs', saves')) := spec_sp_op op (tabs, saves) in
  ∃ h' t', run_sp_op op (MkTxnHeap h (Some t)) = (o, MkTxnHeap h' (Some t')) ∧ holds h' t' tabs' saves'.
Proof.
  intros Hh. destruct op as [id rows|n|n|n|id]; cbn [spec_sp_op run_sp_op].
  - by apply runStatement_ok.
  - by apply create_ok.
  - destruct (last_named n (sp_name <$> saves)) as [i|] eqn:Ei; cbn.
    2:{ destruct (missing_savepoint h t tabs saves n Hh Ei) as [-> _]. by exists h, t. }
    pose proof (last_named_lt _ _ _ Ei) as Hlt. rewrite length_fmap in Hlt.
    destruct (lookup_lt_is_Some_2 saves i Hlt) as [sp Hsp]. rewrite Hsp. by apply (rollback_ok h t tabs saves n i sp).
  - destruct (last_named n (sp_name <$> saves)) as [i|] eqn:Ei.
    + destruct (release_ok h t tabs saves n i Hh Ei) as (t' & E1 & Hh'). by exists h, t'.
    + destruct (missing_savepoint h t tabs saves n Hh Ei) as [_ ->]. by exists h, t.
  - destruct (forget_ok h t tabs saves id Hh) as (t' & E1 & Hh'). by exists h, t'.
Qed.

(** The pointers do not matter: every run is the one of the specification. *)
Lemma sp_ops_ok h t tabs saves ops :
  holds h t tabs saves ->
  let '(os, (tabs', saves')) := spec_sp_ops ops (tabs, saves) in
  ∃ h' t', run_sp_ops ops (MkTxnHeap h (Some t)) = (os, MkTxnHeap h' (Some t')) ∧ holds h' t' tabs' saves'.
Proof.
  revert h t tabs saves. induction ops as [|op ops IH]; intros h t tabs saves Hh; cbn [run_sp_ops spec_sp_ops]; [by exists h, t|].
  pose proof (sp_op_ok h t tabs saves op Hh) as Hop. destruct (spec_sp_op op (tabs, saves)) as [o [tabs1 saves1]].
  destruct Hop as (h1 & t1 & -> & Hh1). specialize (IH h1 t1 tabs1 saves1 Hh1).
  destruct (spec_sp_ops ops (tabs1, saves1)) as [os [tabs2 saves2]]. destruct IH as (h2 & t2 & -> & Hh2). by exists h2, t2.
Qed.

(** ** Operations that leave a savepoint in place *)

(** None of the operations makes another savepoint [name], releases it, or goes back to
    or releases one that lies below it; [old] are the names of those. *)
Fixpoint leaves_savepoint (name : string) (old : list string) (ops : list sp_op) : Prop :=
  match ops with
  | [] => True
  | OpSave n :: ops' =>
      EqualFold name n = false ∧ EqualFold n name = false ∧ leaves_savepoint name (dropSavepoint id n old) ops'
  | OpRollbackTo n :: ops' => names_of id n old = false ∧ leaves_savepoint name old ops'
  | OpRelease n :: ops' => EqualFold name n = false ∧ names_of id n old = false ∧ leaves_savepoint name old ops'
  | (OpStatement _ _ | OpForget _) :: ops' => leaves_savepoint name old ops'
  end.

(** [sp] lies on the savepoints [pre], and no later one has its name. *)
Definition lies_on (sp : savepoint) (pre : list savepoint) (saves : list savepoint) : Prop :=
  ∃ post, saves = pre ++ sp :: post ∧ Forall (λ s, EqualFold (sp_name s) (sp_name sp) = false) post.

Lemma lies_on_save sp pre saves n tabs :
  EqualFold (sp_name sp) n = false -> EqualFold n (sp_name sp) = false -> lies_on sp pre saves ->
  lies_on sp (dropSavepoint sp_name n pre) (dropSavepoint sp_name n saves ++ [MkSavepoint n tabs]).
Proof.
  intros H1 H2 (post & -> & Hp). rewrite dropSavepoint_app. destruct (names_of sp_name n pre) eqn:En.
  - exists (post ++ [MkSavepoint n tabs]). split; [by rewrite <-app_assoc|]. apply Forall_app. split; [done|]. by repeat constructor.
  - exists (dropSavepoint sp_name n post ++ [MkSavepoint n tabs]). rewrite dropSavepoint_cons, H1. split.
    + rewrite <-app_assoc. cbn [app]. f_equal. clear -En. induction pre as [|x pre IH]; [done|].
      cbn [names_of existsb] in En. apply orb_false_elim in En as [Ex En]. rewrite dropSavepoint_cons, Ex. by rewrite <-IH.
    + apply Forall_app. split; [by apply dropSavepoint_Forall|]. by repeat constructor.
Qed.

(** The last savepoint of a name that no lower one has is at [sp] or above it. *)
Lemma last_named_above sp pre post n i :
  names_of id n (sp_name <$> pre) = false -> last_named n (sp_name <$> pre ++ sp :: post) = Some i ->
  i = length pre ∧ EqualFold (sp_name sp) n = true ∨ length pre < i.
Proof.
  intros Hn (x & Hx & Hex)%last_named_inv. rewrite list_lookup_fmap in Hx.
  destruct (Nat.lt_trichotomy i (length pre)) as [Hlt|[->|Hgt]]; [|left|by right].
  - exfalso. rewrite lookup_app_l in Hx by done. rewrite fmap_Some in Hx. destruct Hx as (s & Hs & ->).
    assert (names_of id n (sp_name <$> pre) = true) as Ht; [|congruence].
    apply existsb_exists. exists (sp_name s). split; [|done]. apply list_elem_of_In, list_elem_of_fmap_2.
    by eapply list_elem_of_lookup_2.
  - rewrite list_lookup_middle in Hx by done. injection Hx as <-. done.
Qed.

Lemma lies_on_take sp pre saves i : length pre < i -> lies_on sp pre saves -> lies_on sp pre (take i saves).
Proof.
  intros Hi (post & -> & Hp). rewrite take_app_ge by lia. destruct (i - length pre) as [|j] eqn:Ej; [lia|]. cbn [take].
  exists (take j post). split; [done|]. by apply Forall_take.
Qed.

Lemma lies_on_step sp pre tabs saves op ops :
  lies_on sp pre saves -> leaves_savepoint (sp_name sp) (sp_name <$> pre) (op :: ops) ->
  ∃ pre', lies_on sp pre' (spec_sp_op op (tabs, saves)).2.2 ∧ leaves_savepoint (sp_name sp) (sp_name <$> pre') ops.
Proof.
  intros Hl Hv. destruct op as [id rows|n|n|n|id]; cbn [leaves_savepoint] in Hv; cbn [spec_sp_op].
  - by exists pre.
  - destruct Hv as (H1 & H2 & Hv). exists (dropSavepoint sp_name n pre). rewrite dropSavepoint_names.
    split; [by apply lies_on_save|done].
  - destruct Hv as (Hn & Hv). exists pre. split; [|done].
    destruct (last_named n (sp_name <$> saves)) as [i|] eqn:Ei; cbn; [|done].
    destruct (saves !! i) as [s|]; [cbn|done]. apply lies_on_take; [|done].
    destruct Hl as (post & -> & _). destruct (last_named_above _ _ _ _ _ Hn Ei) as [[-> _]|?]; lia.
  - destruct Hv as (Hne & Hn & Hv). exists pre. split; [|done].
    destruct (last_named n (sp_name <$> saves)) as [i|] eqn:Ei; [cbn|done]. apply lies_on_take; [|done].
    destruct Hl as (post & -> & _). destruct (last_named_above _ _ _ _ _ Hn Ei) as [[_ ?]|?]; [congruence|done].
  - by exists pre.
Qed.

Lemma lies_on_ops sp pre tabs saves ops :
  lies_on sp pre saves -> leaves_savepoint (sp_name sp) (sp_name <$> pre) ops ->
  ∃ pre', lies_on sp pre' (spec_sp_ops ops (tabs, saves)).2.2.
Proof.
  revert pre tabs saves. induction ops as [|op ops IH]; intros pre tabs saves Hl Hv; cbn [spec_sp_ops]; [by exists pre|].
  destruct (lies_on_step sp pre tabs saves op ops Hl Hv) as (pre1 & Hl1 & Hv1).
  destruct (spec_sp_op op (tabs, saves)) as [o [tabs1 saves1]]. cbn [snd] in Hl1.
  destruct (IH pre1 tabs1 saves1 Hl1 Hv1) as [pre2 Hl2].
  destruct (spec_sp_ops ops (tabs1, saves1)) as [os [tabs2 saves2]]. by exists pre2.
Qed.

(** Going back to the savepoint restores its tables and leaves it on top. *)
Lemma spec_returns sp pre tabs saves :
  lies_on sp pre saves -> spec_sp_op (OpRollbackTo (sp_name sp)) (tabs, saves) = (Ok tt, (sp_tables sp, pre ++ [sp])).
Proof.
  intros (post & -> & Hp). cbn [spec_sp_op]. rewrite fmap_app. cbn [fmap list_fmap].
  rewrite last_named_mid by (by rewrite Forall_fmap). rewrite length_fmap. cbn. rewrite list_lookup_middle by done. cbn.
  rewrite take_app_ge by lia. replace (S (length pre) - length pre) with 1 by lia. cbn. by rewrite take_0.
Qed.
End sim.
