(* ===== verification/Demo.v ===== *)
(** A concrete ledger: a cheap hash, the cipher and storage the program runs with, fixed
    keys and a deterministic nonce source, and a few stores built by running the
    operations.  The theorems of the development are instantiated at these. *)

From S2P Require Import Prelude Errors Sha256 Hashing Node Smt Proofs Aead AesGcm Backend Cache Store Tree StoreRead Update StoreWrite Records StoreCommit StoreOpen StoreProof Prune Ledger.

(** A cheap hash of 61 bits: the theorems hold for every hash function, and the
    instances evaluate it often.  The published vectors use SHA-256. *)
#[export] Instance demo_hasher : Hasher := λ m,
  copy32 (be 8 (foldl (λ a b, N.land (N.shiftl a 5 + a + bn b + 1) 0x1fffffffffffffff) 5381 m))%N.

#[export] Existing Instance canonical_range.
#[export] Existing Instance aes_gcm.

(** Nonces counted up from zero. *)
#[export] Instance counter_entropy : Entropy := λ i, Some (be 12 (N.of_nat i)).
#[export] Instance counter_live : EntropyLive.
Proof. intros i. by eexists. Qed.

Definition demo_key : bytes32 := copy32 (u8 <$> (N.of_nat <$> seq 0 32)).
Definition demo_sk : bytes32 := copy32 (u8 <$> (N.of_nat <$> seq 100 32)).
Definition demo_ck : bytes := b32 demo_key.

(** * Deciding the cryptographic side conditions at concrete states *)

Definition commits_apartb `{Hasher} (ck : bytes) (kvs : list (Hash * bytes)) : bool :=
  apartb (λ x, vhOf ck x.1 x.2) kvs kvs.

Lemma commits_apartb_sound `{Hasher} ck kvs : commits_apartb ck kvs = true -> commits_apart ck kvs.
Proof.
  intros Hb p v p' v' Hx Hy E0. by pose proof (apartb_sound _ _ _ _ _ Hb Hx Hy E0) as [= -> ->].
Qed.

Definition root_apartb `{Hasher} (ck : bytes) (st : gmap Hash bytes) : bool :=
  bool_decide (st = ∅) || negb (bool_decide (spec_root (commitments ck st) = placeholderHash)).

Lemma root_apartb_sound `{Hasher} ck st : root_apartb ck st = true -> root_apart ck st.
Proof.
  unfold root_apartb, root_apart. intros [Hb|Hb]%orb_true_iff.
  - by apply bool_decide_eq_true in Hb.
  - by apply negb_true_iff, bool_decide_eq_false in Hb.
Qed.

Definition admissibleb `{Hasher} (ck : bytes) (sk : option bytes32) (c : cmd) (lg : ledger) : bool :=
  match c with
  | CPreview ops | CPut ops =>
      bool_decide (Exists reserved ops) ||
      (bool_decide (is_u64 (lg_version lg + 1)) && commits_apartb ck (lg_kvs ck ops lg) &&
       bool_decide (batch_map ck ops !! history_path ck = None))
  | CGetAt v _ | CProveAt v _ =>
      match lg_states lg !! v with Some st => root_apartb ck st | None => true end
  | CReopen opts => root_apartb ck (lg_cur lg) && bool_decide (o_sk (options_of opts) = sk) &&
      (negb (o_history (options_of opts)) || bool_decide (is_Some (lg_head lg)))
  | _ => true
  end.

Lemma admissibleb_sound `{Hasher} ck sk c lg : admissibleb ck sk c lg = true -> admissible ck sk c lg.
Proof.
  destruct c as [|k|v|v k|k|v k|ops|ops|before|opts]; cbn [admissibleb admissible]; try done.
  1,2: intros Hb st Hst; rewrite Hst in Hb; by apply root_apartb_sound.
  1,2: intros [Hb|[[Hu Ha]%andb_true_iff Hp]%andb_true_iff]%orb_true_iff; [left|right];
    [by apply bool_decide_eq_true in Hb|];
    split_and!; [by apply bool_decide_eq_true in Hu|by apply commits_apartb_sound|by apply bool_decide_eq_true in Hp].
  intros [[Hr Hs]%andb_true_iff Hh]%andb_true_iff. split_and!.
  - by apply root_apartb_sound.
  - by apply bool_decide_eq_true in Hs.
  - intros Ho. rewrite Ho in Hh. cbn in Hh. by apply bool_decide_eq_true in Hh.
Qed.

Fixpoint admissible_traceb `{Hasher} (key : bytes32) (sk : option bytes32) (cs : list cmd) (lg : ledger) : bool :=
  match cs with
  | [] => true
  | c :: cs' => admissibleb (b32 key) sk c lg && admissible_traceb key sk cs' (spec_step (b32 key) c lg)
  end.

Lemma admissible_traceb_sound `{Hasher} key sk cs lg :
  admissible_traceb key sk cs lg = true -> admissible_trace key sk cs lg.
Proof.
  revert lg. induction cs as [|c cs IH]; intros lg; cbn; [done|].
  intros [Ha Hc]%andb_true_iff. split; [by apply admissibleb_sound|by apply IH].
Qed.

(** Decide a closed proposition by evaluation. *)
Ltac by_compute := match goal with |- ?P => refine (bool_decide_eq_true_1 P _); vm_compute; reflexivity end.

(** Equality of closed maps, by their entry lists. *)
Lemma map_eq_compute {K A} `{Countable K} (m1 m2 : gmap K A) : map_to_list m1 = map_to_list m2 -> m1 = m2.
Proof. intros E0. apply map_to_list_inj. by rewrite E0. Qed.

(** * Stores *)

Abbreviation mstore := (Store MemBackend).

(** An encrypted, chained store. *)
Definition demo_opts : list (storeOptions -> storeOptions) := [WithStorageKey demo_sk; WithHistoryChain].
Definition demo_trace : list cmd := [
  CRoot;
  CPut [Put (str "alice") (str "1000"); Put (str "bob") (str "250")];
  CGet (str "alice");
  CPreview [Del (str "bob")];
  CPut [Del (str "bob"); Put (str "carol") []];
  CGet (str "bob");
  CGetAt 1 (str "bob");
  CProve (str "carol");
  CProveAt 1 (str "carol");
  CPut [Put (u8 0 :: str "immutable-ledger:x") []];
  CPrune 2;
  CGetAt 1 (str "bob");
  CReopen demo_opts;
  CGet (str "alice");
  CRootAt 7].

(** The batches of the repository's compatibility vectors. *)
Definition golden_ops1 : list Op := [Put (str "alice") (str "1000"); Put (str "bob") (str "250")].
Definition golden_ops2 : list Op :=
  [Put (str "carol") (str "7"); Put (str "dave") []; Put (str "alice") (str "1001")].
Definition golden_ops3 : list Op := [Del (str "bob"); Put (str "eve") (str "zzz")].

(** ** The running example: two commits on the encrypted, chained store *)

Definition demo_ops1 : list Op := golden_ops1.
Definition demo_ops2 : list Op := [Del (str "bob"); Put (str "carol") []].

Definition demo_cmds : list cmd := [CPut demo_ops1; CPut demo_ops2].
Definition demo_start : mstore := (Create NewMemBackend demo_key demo_opts).2.
Definition demo_store : mstore := (run_trace demo_key demo_cmds demo_start).2.
Definition demo_ledger : ledger := (spec_trace demo_key demo_cmds (empty_ledger true)).2.

Lemma demo_start_ok : refines demo_key (Some demo_sk) demo_start (empty_ledger true).
Proof.
  destruct (create_refines (B := MemBackend) demo_key (Some demo_sk) NewMemBackend demo_opts) as (s & E1 & Hr);
    [done|done|].
  unfold demo_start. by rewrite E1.
Qed.

Lemma demo_store_ok : refines demo_key (Some demo_sk) demo_store demo_ledger.
Proof.
  destruct (trace_refines_aux demo_key (Some demo_sk) demo_cmds demo_start (empty_ledger true) demo_start_ok)
    as (s & E1 & Hr); [apply admissible_traceb_sound; vm_compute; reflexivity|].
  unfold demo_store. by rewrite E1.
Qed.

(** The same keys and commits without encryption and chain. *)
Definition plain_start : mstore := (Create NewMemBackend demo_key []).2.
Definition plain_store : mstore := (run_trace demo_key demo_cmds plain_start).2.
Definition plain_ledger : ledger := (spec_trace demo_key demo_cmds (empty_ledger false)).2.

Lemma plain_start_ok : refines demo_key None plain_start (empty_ledger false).
Proof.
  destruct (create_refines (B := MemBackend) demo_key None NewMemBackend []) as (s & E1 & Hr); [done|done|].
  unfold plain_start. by rewrite E1.
Qed.

Lemma plain_store_ok : refines demo_key None plain_store plain_ledger.
Proof.
  destruct (trace_refines_aux demo_key None demo_cmds plain_start (empty_ledger false) plain_start_ok)
    as (s & E1 & Hr); [apply admissible_traceb_sound; vm_compute; reflexivity|].
  unfold plain_store. by rewrite E1.
Qed.

(** The same final state, reached in one commit. *)
Definition direct_cmds : list cmd := [CPut [Put (str "carol") []; Put (str "alice") (str "1000")]].
Definition direct_store : mstore := (run_trace demo_key direct_cmds plain_start).2.
Definition direct_ledger : ledger := (spec_trace demo_key direct_cmds (empty_ledger false)).2.

Lemma direct_store_ok : refines demo_key None direct_store direct_ledger.
Proof.
  destruct (trace_refines_aux demo_key None direct_cmds plain_start (empty_ledger false) plain_start_ok)
    as (s & E1 & Hr); [apply admissible_traceb_sound; vm_compute; reflexivity|].
  unfold direct_store. by rewrite E1.
Qed.

(** What the refinement relation gives at a store. *)
Lemma refines_repr {B} `{BK : Backend B} `{!BackendSpec B} key sk (s : Store B) lg :
  refines key sk s lg ->
  ∃ hist ot, repr s ot (lg_cur lg) ∧ timeline s hist ∧ hist !! s_version s = Some (ot, lg_cur lg) ∧
    lg_states lg = snd <$> hist.
Proof. intros (hist & ot & []). eauto 10. Qed.

Lemma refines_batch_pre {B} `{BK : Backend B} `{!BackendSpec B} key sk (s : Store B) lg ops :
  refines key sk s lg -> ¬ Exists reserved ops -> admissibleb (b32 key) sk (CPut ops) lg = true ->
  batch_pre s (lg_cur lg) ops.
Proof. intros Hr Hx Ha. eapply refines_pre; [done|done|by apply admissibleb_sound]. Qed.

(** A further batch on the running example. *)
Definition more_ops : list Op := [Put (str "alice") (str "7"); Del (str "carol")].

Lemma more_ops_pre : batch_pre demo_store (lg_cur demo_ledger) more_ops.
Proof. eapply refines_batch_pre; [exact demo_store_ok|by_compute|vm_compute; reflexivity]. Qed.

Lemma more_ops_change : upd_state (batch_map (s_ck demo_store) more_ops) (lg_cur demo_ledger) ≠ lg_cur demo_ledger.
Proof. rewrite (refines_ck _ _ _ _ demo_store_ok). by_compute. Qed.

Lemma demo_view (v : N) st :
  lg_states demo_ledger !! v = Some st ->
  ∃ ot, view (contents (s_backend demo_store)) (s_ck demo_store) (s_cipher demo_store) v ot st.
Proof.
  intros Hst. destruct (refines_repr _ _ _ _ demo_store_ok) as (h & ot & _ & Ht & _ & Es).
  rewrite Es, lookup_fmap in Hst. apply fmap_Some in Hst as ([ot' st'] & Hh & ->).
  exists ot'. by apply (tl_views _ _ Ht).
Qed.

(** ** Storage that fails after a number of calls *)

Record Flaky := MkFlaky { fl_mem : MemBackend; fl_budget : nat }.

Definition io_error : error := RawError "input/output error".

Definition flaky {A} (m : M MemBackend A) : M Flaky A := λ b,
  match fl_budget b with
  | O => (Err io_error, b)
  | S n => let '(o, mem) := m (fl_mem b) in (o, MkFlaky mem n)
  end.

#[export] Instance flaky_backend : Backend Flaky :=
  {| b_get k := flaky (mem_Get k); b_write ops := flaky (mem_WriteBatch ops);
     b_scan start stop limit := flaky (mem_Scan start stop limit) |}.

#[export] Instance flaky_spec : BackendSpec Flaky.
Proof.
  refine {| contents b := mb_m (fl_mem b) |}; unfold b_get, b_write, b_scan, flaky_backend, flaky.
  - intros k b o b'. destruct (fl_budget b); [intros [= <- <-]; done|].
    destruct (mem_Get k (fl_mem b)) as [o' m'] eqn:Eg. intros [= <- <-]. exact (get_spec k (fl_mem b) _ _ Eg).
  - intros ops b o b'. destruct (fl_budget b); [intros [= <- <-]; right; split; [by eexists|done]|].
    destruct (mem_WriteBatch ops (fl_mem b)) as [o' m'] eqn:Eg. intros [= <- <-]. exact (write_spec ops (fl_mem b) _ _ Eg).
  - intros start stop limit b o b'. destruct (fl_budget b); [intros [= <- <-]; done|].
    destruct (mem_Scan start stop limit (fl_mem b)) as [o' m'] eqn:Eg. intros [= <- <-].
    exact (scan_spec_law start stop limit (fl_mem b) _ _ Eg).
Defined.

(** The running example on storage with [n] calls left. *)
Definition flaky_store (n : nat) : Store Flaky :=
  let s := demo_store in
  MkStore (MkFlaky (s_backend s) n) (s_ck s) (s_cipher s) (s_ckptMAC s) (s_root s) (s_version s)
    (s_rootChild s) (cache_clear (s_cache s)) (s_snapshotPin s) (s_history s) (s_wantHistory s)
    (s_historyHead s) (s_rng s).
