(* ===== verification/SqlDemo.v ===== *)
(** A concrete SQL store: one table with a unique index on the demonstration ledger, and
    what a few sessions do with it.  The theorems on the SQL layer are instantiated
    here. *)

From S2P Require Import Prelude Errors Sha256 Hashing Node Smt Proofs Aead AesGcm Backend Cache Store Tree StoreRead Update StoreWrite Records StoreCommit StoreOpen StoreProof StoreFrame Ledger Demo.
From S2P Require Import GoNum SqlCodec SqlIndex SqlTxn SqlOverlay SqlStore SqlScan SqlScanOk SqlCommit SqlRefine SqlTable SqlEdit SqlUnique SqlSession SqlWorld SqlVerify SqlHeap.

(** ASCII case folding: the code's names are ASCII here. *)
Definition lower_ascii (c : Ascii.ascii) : Ascii.ascii :=
  let n := Ascii.N_of_ascii c in if ((65 <=? n) && (n <=? 90))%N then Ascii.ascii_of_N (n + 32) else c.
Fixpoint lower_string (s : string) : string :=
  match s with EmptyString => EmptyString | String c s' => String (lower_ascii c) (lower_string s') end.

#[export] Instance ascii_fold : CaseFold.
Proof.
  refine {| ToLower := lower_string; EqualFold a b := bool_decide (lower_string a = lower_string b) |}.
  intros s. by apply bool_decide_eq_true.
Defined.

(** [CREATE TABLE t (id BIGINT AUTO_INCREMENT PRIMARY KEY, u BIGINT, UNIQUE KEY (u))]. *)
Definition demo_def : tableDef :=
  MkTable 1 "t" [MkCol "id" T_INT64 0 0 false true; MkCol "u" T_INT64 0 0 true false] [0] "" [MkIndex 1 "u" true [1]] 1.

Definition demo_sql : SqlStore MemBackend := MkSql plain_start "db" (MkMeta 2 2 ["t"]) {[0 := demo_def]} {["t" := 0]}.

(** Ledger keys that are not rows. *)
Definition demo_other : list bytes := [HistoryKey; metaKey; autoIncKey 1].

Definition drow (id u : Z) : row := [Some (VInt64 id); Some (VInt64 u)].

(** * Deciding the side conditions *)

Definition keys_apartb (ck : bytes) (ks : list bytes) : bool := apartb (pathOf ck) ks ks.
Lemma keys_apartb_sound ck ks : keys_apartb ck ks = true -> keys_apart ck ks.
Proof. intros Hb k k' Hk Hk'. by apply (apartb_sound _ _ _ _ _ Hb). Qed.

Definition batch_preb (s : mstore) (st : gmap Hash bytes) (ops : list Op) : bool :=
  bool_decide (Forall (λ op, ¬ reserved op) ops) && bool_decide (is_u64 (s_version s + 1)) &&
  commits_apartb (s_ck s) (batch_kvs s st ops) && bool_decide (batch_map (s_ck s) ops !! history_path (s_ck s) = None).
Lemma batch_preb_sound s st ops : batch_preb s st ops = true -> batch_pre s st ops.
Proof.
  unfold batch_preb. rewrite !andb_true_iff, !bool_decide_eq_true. intros [[[? ?] ?%commits_apartb_sound] ?]. by split.
Qed.

Definition txn_preb (q : SqlStore MemBackend) (st : gmap Hash bytes) (t : storeTxn) : bool :=
  match txn_ops q t with Ok (lo, _) => batch_preb (q_led q) st lo | _ => true end.
Lemma txn_preb_sound q st t : txn_preb q st t = true -> txn_pre q st t.
Proof. unfold txn_preb, txn_pre. intros Hb lo so E0. rewrite E0 in Hb. by apply batch_preb_sound. Qed.

(** ** The empty table *)

Lemma demo_catalog id def : catalog demo_sql id = Some def -> id = 1%N ∧ def = demo_def.
Proof.
  intros Hc. pose proof (catalog_id _ _ _ Hc) as Hid. unfold catalog in Hc. destruct (table_ptr demo_sql id) as [p|] eqn:Ep; [|done].
  cbn in Hc. destruct (decide (p = 0)) as [->|Hne]; [|by rewrite lookup_singleton_ne in Hc].
  rewrite lookup_singleton_eq in Hc. injection Hc as <-. by subst.
Qed.

(** Nothing is stored outside the ledger's own records. *)
Lemma demo_no_derived k : sql_contents demo_sql !! k ≠ None -> ∀ x, head k = Some x -> x ≠ scanPrefix ∧ x ≠ secondaryPrefix.
Proof.
  intros Hk x Hx. destruct (sql_contents demo_sql !! k) as [v|] eqn:Ev; [|done]. apply elem_of_map_to_list in Ev.
  assert (Forall (λ kv, head kv.1 ≠ Some scanPrefix ∧ head kv.1 ≠ Some secondaryPrefix) (map_to_list (sql_contents demo_sql))) as Hf by by_compute.
  rewrite Forall_forall in Hf. destruct (Hf _ Ev) as [H1 H2]. cbn in H1, H2. rewrite Hx in *. split; congruence.
Qed.

Lemma demo_sql_ok : sql_ok demo_other demo_sql ∅ ∅.
Proof.
  destruct (refines_repr _ _ _ _ plain_start_ok) as (h & ot & Hr & _). split.
  - exists ot. exact Hr.
  - split.
    + intros id def [-> ->]%demo_catalog. split; [by_compute|]. split; by_compute.
    + intros id def ix id' def' ix' [-> ->]%demo_catalog [-> ->]%demo_catalog. done.
  - intros id pk r. unfold trow. by rewrite lookup_empty.
  - intros h0. rewrite lookup_empty. by intros [].
  - intros id def [-> ->]%demo_catalog idx k v Hi [s Hs]. unfold trows. rewrite lookup_empty. cbn [default].
    setoid_rewrite lookup_empty. split; [|by intros (? & ? & ? & _)]. intros Hv. exfalso.
    assert (∀ x, head k = Some x -> x ≠ scanPrefix ∧ x ≠ secondaryPrefix) as Hx by (apply demo_no_derived; by rewrite Hv).
    destruct idx as [ix|]; subst k; [by destruct (Hx secondaryPrefix eq_refl)|by destruct (Hx scanPrefix eq_refl)].
  - by_compute.
Qed.

(** ** Calls *)

#[export] Instance row_fits_dec def r : Decision (row_fits def r).
Proof. unfold row_fits. apply _. Defined.
#[export] Instance edit_fits_dec def ed : Decision (edit_fits def ed).
Proof. destruct ed; cbn; apply _. Defined.
#[export] Instance edit_valid_dec def ed rows : Decision (edit_valid def ed rows).
Proof. destruct ed; cbn; unfold new_row, seen_row; apply _. Defined.
#[export] Instance edits_valid_dec def eds rows : Decision (edits_valid def eds rows).
Proof. revert rows. induction eds as [|ed eds IH]; intros rows; cbn; apply _. Defined.

Definition call_preb (O : list bytes) (st : gmap Hash bytes) (T : database) (i : nat) (c : call) (w : World MemBackend) : bool :=
  let q := w_store w in
  match c with
  | CallBegin _ | CallRollback => true
  | CallStmt p eds =>
      match q_defs q !! p, w_txns w !! i with
      | Some def, Some t =>
          let id := td_ID def in
          bool_decide (table_ptr q id = Some p) && bool_decide (Forall (edit_fits def) eds) &&
          bool_decide (edits_valid def eds (visible (tableView (Some t) id) (trows T id))) &&
          keys_apartb (s_ck (q_led q)) (O ++ row_keys T ++ edit_keys def eds)
      | _, _ => false
      end
  | CallCommit =>
      match w_txns w !! i with
      | Some t => keys_apartb (s_ck (q_led q)) (O ++ row_keys T ++ txn_keys (tx_tables t)) && txn_preb q st t
      | None => true
      end
  end.

Lemma call_preb_sound O st T i c w : call_preb O st T i c w = true -> call_pre O st T i c w.
Proof.
  unfold call_preb, call_pre. destruct c as [ro|p eds| |]; [done| | |done].
  - destruct (q_defs (w_store w) !! p) as [def|] eqn:Ed, (w_txns w !! i) as [t|] eqn:Et; try done.
    rewrite !andb_true_iff, !bool_decide_eq_true. intros [[[Hp Hf] Hv] Ha%keys_apartb_sound]. exists (td_ID def), def, t.
    split_and!; try done. unfold catalog. by rewrite Hp.
  - destruct (w_txns w !! i) as [t|]; [|done]. rewrite andb_true_iff. intros [Ha%keys_apartb_sound Hp%txn_preb_sound] t' [= <-]. done.
Qed.

Lemma row_key_prefix k : is_row_key k -> str "sql/r/" `prefix_of` k.
Proof. intros (id & pk & ->). unfold rowKey, rowKeyPrefix. rewrite <-app_assoc. by eexists. Qed.

Lemma demo_other_rows k : k ∈ demo_other -> ¬ is_row_key k.
Proof.
  intros Hk Hr%row_key_prefix. assert (Forall (λ k, ¬ str "sql/r/" `prefix_of` k) demo_other) as Hf by by_compute.
  rewrite Forall_forall in Hf. by apply (Hf k).
Qed.

Lemma demo_def_wf : def_wf demo_def.
Proof.
  split; [done|]. intros ix ord ->%list_elem_of_singleton ->%list_elem_of_singleton. cbn. lia.
Qed.

Lemma demo_other_ok : other_keys demo_other (catalog demo_sql).
Proof.
  split; [left|apply demo_other_rows|]. intros id def [-> ->]%demo_catalog _. right; right; left.
Qed.

Definition demo_world : World MemBackend := MkWorld demo_sql ∅.

Lemma demo_world_ok : world_ok demo_other ∅ ∅ demo_world.
Proof.
  split; [apply demo_sql_ok| |apply demo_other_ok|].
  - intros id def [-> ->]%demo_catalog. apply demo_def_wf.
  - intros i t. cbn [w_txns demo_world]. by rewrite lookup_empty.
Qed.

(** ** Running calls *)

Definition next (i : nat) (c : call) (w : World MemBackend) : World MemBackend := (run_call i c w).2.
Definition open_tables (i : nat) (w : World MemBackend) : gmap N tableTxn :=
  match w_txns w !! i with Some t => tx_tables t | None => ∅ end.

(** The tables and the ledger's entries after a call that succeeds. *)
Definition next_T (i : nat) (c : call) (w : World MemBackend) (T : database) : database :=
  match c with CallCommit => apply_txn (open_tables i w) T | _ => T end.
Definition next_st (i : nat) (c : call) (w : World MemBackend) (st : gmap Hash bytes) : gmap Hash bytes :=
  match c, w_txns w !! i with
  | CallCommit, Some t => match txn_ops (w_store w) t with Ok (lo, _) => after_state (q_led (w_store w)) st lo | _ => st end
  | _, _ => st
  end.

Definition step_ok (O : list bytes) (st : gmap Hash bytes) (T : database) (i : nat) (c : call) (w : World MemBackend) : bool :=
  call_preb O st T i c w && is_ok (run_call i c w).1 && (match c with CallCommit => bool_decide (is_Some (w_txns w !! i)) | _ => true end).

Lemma next_ok O st T i c w :
  world_ok O st T w -> step_ok O st T i c w = true -> world_ok O (next_st i c w st) (next_T i c w T) (next i c w).
Proof.
  unfold step_ok, next. rewrite !andb_true_iff. intros Hw [[Hpre%call_preb_sound Hok] Hc].
  destruct (run_call i c w) as [o w'] eqn:Er. cbn [fst snd] in *. destruct c as [ro|p eds| |].
  - by destruct (begin_ok _ _ _ _ _ _ _ _ Hw Er).
  - by eapply stmt_call_ok.
  - apply bool_decide_eq_true in Hc as [t0 Ht0].
    destruct (commit_call_ok _ _ _ _ _ _ _ Hw Hpre Er) as [[[Ho|Ho] _]|(t & st' & lo & so & Ht & _ & _ & Hops & -> & Hw')]; [congruence..|].
    unfold next_st, next_T, open_tables. rewrite Ht, Hops. exact Hw'.
  - by apply (call_ok _ _ _ _ i CallRollback o w' Hw Hpre Er).
Qed.

(** A whole run. *)
Fixpoint run_ok (O : list bytes) (st : gmap Hash bytes) (T : database) (w : World MemBackend) (cs : list (nat * call)) : bool :=
  match cs with
  | [] => true
  | (i, c) :: cs' => step_ok O st T i c w && run_ok O (next_st i c w st) (next_T i c w T) (next i c w) cs'
  end.
Fixpoint run_to (w : World MemBackend) (cs : list (nat * call)) : World MemBackend :=
  match cs with [] => w | (i, c) :: cs' => run_to (next i c w) cs' end.
Fixpoint committed (w : World MemBackend) (cs : list (nat * call)) : list (gmap N tableTxn) :=
  match cs with
  | [] => []
  | (i, c) :: cs' => match commits i c w (run_call i c w).1 with Some tabs => [tabs] | None => [] end ++ committed (next i c w) cs'
  end.

Lemma run_calls O st T w cs :
  world_ok O st T w -> run_ok O st T w cs = true -> calls O T w cs (committed w cs) (run_to w cs).
Proof.
  revert st T w. induction cs as [|[i c] cs IH]; intros st T w Hw Hr; [constructor|].
  cbn [run_ok committed run_to] in *. apply andb_true_iff in Hr as [Hs Hr]. pose proof (next_ok _ _ _ _ _ _ Hw Hs) as Hw'.
  specialize (IH _ _ _ Hw' Hr).
  assert (∀ st', world_ok O st' T w -> call_pre O st' T i c w) as Hpre.
  { intros st' Hw2. rewrite (sql_state_unique _ _ _ _ _ _ (wo_sql _ _ _ _ Hw2) (wo_sql _ _ _ _ Hw)).
    apply call_preb_sound. unfold step_ok in Hs. by apply andb_true_iff in Hs as [[Hs _]%andb_true_iff _]. }
  unfold next in *. unfold step_ok in Hs. apply andb_true_iff in Hs as [[_ Hok]%andb_true_iff Hc].
  destruct (run_call i c w) as [o w'] eqn:Er. cbn [fst snd] in *. destruct (commits i c w o) as [tabs|] eqn:Ec; cbn [app].
  - eapply calls_commit; [done..|]. destruct c; try done. destruct o; try done. cbn in Ec. unfold next_T, open_tables in IH.
    destruct (w_txns w !! i); [|done]. by injection Ec as <-.
  - eapply calls_quiet; [done..|]. destruct c; try done. apply bool_decide_eq_true in Hc as [t Ht].
    destruct o; try done. cbn in Ec. by rewrite Ht in Ec.
Qed.

(** Two rows, committed by the first session. *)
Definition demo_w1 : World MemBackend := next 0 (CallBegin false) demo_world.
Definition demo_w2 : World MemBackend := next 0 (CallStmt 0 [EInsert (drow 1 10); EInsert (drow 2 20)]) demo_w1.
Definition demo_w3 : World MemBackend := next 0 CallCommit demo_w2.
Definition demo_T : database := next_T 0 CallCommit demo_w2 ∅.
Definition demo_st : gmap Hash bytes := next_st 0 CallCommit demo_w2 ∅.

Lemma demo_w2_ok : world_ok demo_other ∅ ∅ demo_w2.
Proof.
  apply (next_ok demo_other ∅ ∅ 0 (CallStmt 0 _) demo_w1); [|vm_compute; reflexivity].
  apply (next_ok demo_other ∅ ∅ 0 (CallBegin false) demo_world); [apply demo_world_ok|vm_compute; reflexivity].
Qed.

Lemma demo_w3_ok : world_ok demo_other demo_st demo_T demo_w3.
Proof. apply (next_ok demo_other ∅ ∅ 0 CallCommit demo_w2); [apply demo_w2_ok|vm_compute; reflexivity]. Qed.

(** A second session moves a row and adds one, and has not committed yet. *)
Definition demo_w4 : World MemBackend := next 1 (CallBegin false) demo_w3.
Definition demo_w5 : World MemBackend := next 1 (CallStmt 0 [EUpdate (drow 2 20) (drow 2 5); EInsert (drow 3 20)]) demo_w4.

Lemma demo_w4_ok : world_ok demo_other demo_st demo_T demo_w4.
Proof. apply (next_ok demo_other demo_st demo_T 1 (CallBegin false) demo_w3); [apply demo_w3_ok|vm_compute; reflexivity]. Qed.

Lemma demo_w5_ok : world_ok demo_other demo_st demo_T demo_w5.
Proof. apply (next_ok demo_other demo_st demo_T 1 (CallStmt 0 _) demo_w4); [apply demo_w4_ok|vm_compute; reflexivity]. Qed.

(** ** Storage that fails *)

(** The in-memory backend with a number of writes that succeed; later ones fail. *)
Record FaultyBackend := MkFaulty { fb_mem : MemBackend; fb_left : nat }.

Definition on_mem {A} (m : M MemBackend A) : M FaultyBackend A := λ b,
  let '(o, mem) := m (fb_mem b) in (o, MkFaulty mem (fb_left b)).
Definition faulty_write (ops : list BatchOp) : M FaultyBackend unit := λ b,
  match fb_left b with
  | O => (Err (RawError "disk full"), b)
  | S n => let '(o, mem) := mem_WriteBatch ops (fb_mem b) in (o, MkFaulty mem n)
  end.

#[export] Instance faulty_backend : Backend FaultyBackend := {|
  b_get k := on_mem (b_get k); b_write := faulty_write; b_scan a b l := on_mem (b_scan a b l) |}.

#[export] Instance faulty_spec : BackendSpec FaultyBackend.
Proof.
  refine {| contents b := contents (fb_mem b) |}.
  - intros k [mem n] o b'. cbn [b_get faulty_backend]. unfold on_mem. cbn [fb_mem fb_left].
    destruct (b_get k mem) as [o1 mem1] eqn:E1. intros [= <- <-]. exact (get_spec _ _ _ _ E1).
  - intros ops [mem [|n]] o b'; cbn [b_write faulty_backend]; unfold faulty_write; cbn [fb_mem fb_left].
    { intros [= <- <-]. right. by split; [eexists|]. }
    destruct (mem_WriteBatch ops mem) as [o1 mem1] eqn:E1. intros [= <- <-]. exact (write_spec ops mem o1 mem1 E1).
  - intros start stop limit [mem n] o b'. cbn [b_scan faulty_backend]. unfold on_mem. cbn [fb_mem fb_left].
    destruct (b_scan start stop limit mem) as [o1 mem1] eqn:E1. intros [= <- <-]. exact (scan_spec_law _ _ _ _ _ _ E1).
Defined.

(** The store on such storage with [n] writes to go. *)
Definition faulty_store (n : nat) (s : mstore) : Store FaultyBackend :=
  MkStore (MkFaulty (s_backend s) n) (s_ck s) (s_cipher s) (s_ckptMAC s) (s_root s) (s_version s) (s_rootChild s)
    (s_cache s) (s_snapshotPin s) (s_history s) (s_wantHistory s) (s_historyHead s) (s_rng s).
Definition faulty_sql (n : nat) (q : SqlStore MemBackend) : SqlStore FaultyBackend :=
  MkSql (faulty_store n (q_led q)) (q_dbName q) (q_meta q) (q_defs q) (q_tables q).
