(* ===== verification/SqlDdlDemo.v ===== *)
(** A concrete database: the ledger of [Demo] with one commit that stores a catalog with
    one table and a row of it.  The theorems on the catalog are instantiated here. *)

From S2P Require Import Prelude Errors Sha256 Hashing Node Smt Proofs Aead AesGcm Backend Cache Store Tree StoreRead Update StoreWrite Records StoreCommit StoreOpen StoreProof StoreFrame Ledger Demo.
From S2P Require Import GoNum SqlCodec SqlIndex SqlTxn SqlOverlay SqlStore Json SqlCatalog SqlScan SqlScanOk SqlCommit SqlRefine SqlTable SqlEdit SqlUnique SqlSession SqlRemove SqlDdl SqlIndexBuild SqlCat SqlDdlOk SqlTableDdl SqlDdlSpec SqlReopen SqlRebuild SqlDemo.

(** A numbering of the column types. *)
Definition demo_types : list qtype :=
  [T_INT8; T_INT16; T_INT24; T_INT32; T_INT64; T_UINT8; T_UINT16; T_UINT24; T_UINT32; T_UINT64; T_FLOAT32; T_FLOAT64;
   T_CHAR; T_VARCHAR; T_TEXT; T_BINARY; T_VARBINARY; T_BLOB; T_DATETIME; T_TIMESTAMP].
#[export] Instance demo_query_types : QueryTypes.
Proof.
  refine {| qcode t := match t with T_OTHER c => c | _ => Z.of_nat (default 0 (fst <$> list_find (t =.) demo_types)) end;
            qtype_of c := default (T_OTHER c) (demo_types !! Z.to_nat c) |}.
  abstract (intros t Ht; destruct t; try discriminate Ht; (split; [reflexivity|by_compute])).
Defined.

(** ** The database *)

Definition cat_row : row := drow 7 9.
Definition cat_pk : bytes := pk_of demo_def cat_row.
Definition cat_meta : catalogMeta := MkMeta 2 2 ["t"].
Definition cat_defs : gmap string tableDef := {["t" := demo_def]}.
Definition cat_tables : database := {[1%N := {[cat_pk := cat_row]}]}.
Definition cat_others : list bytes := [HistoryKey; metaKey; tableKey "t"; autoIncKey 1].

Definition cat_ops : list Op :=
  catalogOps cat_meta [demo_def] ++ [Put (rowKey 1 cat_pk) (row_payload demo_def (row_enc demo_def cat_row))].
Definition cat_cmds : list cmd := [CPut cat_ops].

(** The ledger after the commit; nothing is in the derived keyspaces yet. *)
Definition cat_led : mstore := (run_trace demo_key cat_cmds plain_start).2.
Definition cat_ledger : ledger := (spec_trace demo_key cat_cmds (empty_ledger false)).2.
Definition cat_state : gmap Hash bytes := lg_cur cat_ledger.

Lemma cat_led_ok : refines demo_key None cat_led cat_ledger.
Proof.
  destruct (trace_refines_aux demo_key None cat_cmds plain_start (empty_ledger false) plain_start_ok)
    as (s & E1 & Hr); [apply admissible_traceb_sound; vm_compute; reflexivity|].
  unfold cat_led. by rewrite E1.
Qed.

Lemma cat_ck : s_ck cat_led = b32 demo_key.
Proof. exact (refines_ck _ _ _ _ cat_led_ok). Qed.

Lemma cat_defs_lookup n def : cat_defs !! n = Some def -> n = "t" ∧ def = demo_def.
Proof. unfold cat_defs. intros [<- <-]%lookup_singleton_Some. done. Qed.

Lemma cat_rows_lookup id pk r : trow cat_tables id pk = Some r -> id = 1%N ∧ pk = cat_pk ∧ r = cat_row.
Proof.
  unfold trow, cat_tables. destruct (decide (id = 1%N)) as [->|Hne]; [|by rewrite lookup_singleton_ne].
  rewrite lookup_singleton_eq. cbn. by intros [<- <-]%lookup_singleton_Some.
Qed.

Lemma cat_wf_demo : cat_wf cat_meta cat_defs.
Proof.
  split.
  - intros n def [-> ->]%cat_defs_lookup. reflexivity.
  - by intros n def n' def' [-> ->]%cat_defs_lookup [-> ->]%cat_defs_lookup.
  - by intros n def n' def' ix ix' [-> ->]%cat_defs_lookup [-> ->]%cat_defs_lookup.
  - intros n def [-> ->]%cat_defs_lookup. by_compute.
  - intros n def [-> ->]%cat_defs_lookup. by_compute.
  - intros n def ix [-> ->]%cat_defs_lookup ->%list_elem_of_singleton. by_compute.
  - split; by_compute.
  - intros n def [-> ->]%cat_defs_lookup. apply demo_def_wf.
  - intros n. unfold cat_defs. cbn. rewrite list_elem_of_singleton. split.
    + intros ->. by eexists.
    + intros [def [<- _]%lookup_singleton_Some]. done.
  - by_compute.
Qed.

(** ** What the ledger holds *)

Lemma cat_entries :
  (cat_state !! pathOf (b32 demo_key) metaKey = Some (marshalTagged tagCatalogMeta (enc_meta cat_meta)) ∧
   cat_state !! pathOf (b32 demo_key) (tableKey "t") = Some (marshalTagged tagCatalogTable (enc_table demo_def)) ∧
   cat_state !! pathOf (b32 demo_key) (rowKey 1 cat_pk) = Some (row_payload demo_def (row_enc demo_def cat_row))) ∧
  Forall (λ kv, Exists (λ k, kv.1 = pathOf (b32 demo_key) k) (cat_others ++ row_keys cat_tables)) (map_to_list cat_state).
Proof. by_compute. Qed.

Lemma cat_meta_fits : meta_fits cat_meta.
Proof. split; by_compute. Qed.
Lemma cat_table_fits : table_fits demo_def.
Proof.
  split; try by_compute.
  - repeat constructor; by_compute.
  - repeat constructor; by_compute.
Qed.

Lemma cat_row_fits : row_fits demo_def cat_row.
Proof. by_compute. Qed.

Lemma cat_others_rows k : k ∈ cat_others -> ¬ is_row_key k.
Proof.
  intros Hk Hr%row_key_prefix. assert (Forall (λ k, ¬ str "sql/r/" `prefix_of` k) cat_others) as Hf by by_compute.
  rewrite Forall_forall in Hf. by apply (Hf k).
Qed.

Lemma cat_stored : stored_db cat_others cat_led cat_state cat_tables cat_meta cat_defs.
Proof.
  destruct (refines_repr _ _ _ _ cat_led_ok) as (h & ot & Hr & _). destruct cat_entries as ((E1 & E2 & E3) & Hall).
  split; rewrite ?cat_ck.
  - exists ot. exact Hr.
  - intros id pk r (-> & -> & ->)%cat_rows_lookup. exists "t", demo_def. split_and!; [reflexivity|reflexivity|exact cat_row_fits|exact E3].
  - intros p [v Hv]. rewrite Forall_forall in Hall. specialize (Hall (p, v) ltac:(by apply elem_of_map_to_list)).
    apply Exists_exists in Hall as (k & Hk%elem_of_app & Ek). exists k. split; [exact Ek|exact Hk].
  - exact cat_wf_demo.
  - split; [left; exact E1| |exact cat_meta_fits|].
    + intros n def [-> ->]%cat_defs_lookup. exact E2.
    + intros n def [-> ->]%cat_defs_lookup. exact cat_table_fits.
  - split; [by_compute|..| by_compute|exact cat_others_rows].
    + intros n def [-> ->]%cat_defs_lookup. by_compute.
    + intros n def [-> ->]%cat_defs_lookup. by_compute.
Qed.

(** ** The database, opened: the derived keyspaces are built *)

Lemma cat_keyed : rows_keyed cat_defs cat_tables.
Proof. intros n def pk r [-> ->]%cat_defs_lookup (_ & -> & ->)%cat_rows_lookup. vm_compute. reflexivity. Qed.

Lemma cat_plain : others_plain cat_others (s_ck cat_led) cat_state cat_defs.
Proof.
  rewrite cat_ck. intros k v n def Hk Hv [-> ->]%cat_defs_lookup _ Ht.
  assert (Forall (λ k, (cat_state !! pathOf (b32 demo_key) k) ≫= head ≠ Some tagRow) cat_others) as Hf by by_compute.
  rewrite Forall_forall in Hf. exfalso. apply (Hf k Hk). rewrite Hv. exact Ht.
Qed.

(** Nothing is stored outside the ledger's own records. *)
Lemma cat_no_derived k v : contents (s_backend cat_led) !! k = Some v -> ¬ derived k.
Proof.
  intros Hk%elem_of_map_to_list. assert (Forall (λ kv, ¬ derived kv.1) (map_to_list (contents (s_backend cat_led)))) as Hf by by_compute.
  rewrite Forall_forall in Hf. exact (Hf _ Hk).
Qed.

Lemma cat_root_apart : root_apart (b32 demo_key) cat_state.
Proof. intros _. by_compute. Qed.

Lemma cat_sound : index_sound cat_defs cat_tables (contents (s_backend cat_led)).
Proof. intros n def ix k v _ _ Hsp Hk%cat_no_derived. exfalso. exact (Hk (proj1 (space_derived _ _ _ Hsp))). Qed.
Lemma cat_fresh : index_fresh cat_meta (contents (s_backend cat_led)).
Proof.
  intros id s _ _. destruct (contents (s_backend cat_led) !! (secondarySpace id ++ s)) as [v|] eqn:Hv; [|reflexivity].
  destruct (cat_no_derived _ _ Hv). right. right. reflexivity.
Qed.

Definition cat_sql : SqlStore MemBackend := (SqlOpen 1 cat_led "db").2.

Lemma cat_opened : opened cat_others cat_led cat_state cat_tables cat_meta cat_defs cat_sql.
Proof.
  destruct (refines_repr _ _ _ _ cat_led_ok) as (h & ot & Hr & _).
  destruct (open_rebuilds cat_others cat_led ot cat_state cat_tables cat_meta cat_defs 1 "db") as (q' & E1 & _ & Hop).
  - exact cat_stored.
  - exact cat_keyed.
  - exact cat_plain.
  - exact Hr.
  - eapply view_placeholder; [exact (r_view _ _ _ Hr)|]. rewrite cat_ck. exact cat_root_apart.
  - by_compute.
  - by_compute.
  - by_compute.
  - by_compute.
  - unfold cat_sql. rewrite E1. apply Hop; [exact cat_sound|exact cat_fresh].
Qed.

(** ** What it is after opening *)

Lemma cat_db : db_ok cat_others cat_sql cat_state cat_tables.
Proof. exact (proj1 cat_opened). Qed.
Lemma cat_sql_meta : q_meta cat_sql = cat_meta.
Proof. exact (proj1 (proj2 cat_opened)). Qed.
Lemma cat_sql_defs : cat_map cat_sql = cat_defs.
Proof.
  rewrite (proj1 (proj2 (proj2 cat_opened))). unfold cat_defs. rewrite map_fmap_singleton. f_equal.
Qed.
Lemma cat_sql_ck : s_ck (q_led cat_sql) = b32 demo_key.
Proof. rewrite (sl_ck _ _ (proj2 (proj2 (proj2 cat_opened)))). exact cat_ck. Qed.

Lemma cat_durable : durable demo_key None cat_led cat_state.
Proof. destruct cat_led_ok as (hist & ot & []). split; assumption. Qed.
Lemma cat_sql_durable : durable demo_key None (q_led cat_sql) cat_state.
Proof. exact (durable_same _ _ _ _ _ (proj2 (proj2 (proj2 cat_opened))) cat_durable). Qed.

Lemma cat_apart : keys_apart (s_ck (q_led cat_sql)) (cat_others ++ row_keys cat_tables).
Proof. rewrite cat_sql_ck. apply keys_apartb_sound. vm_compute. reflexivity. Qed.

Lemma cat_rounds n def : cat_map cat_sql !! n = Some def ->
  size (trows cat_tables (td_ID def)) + N.to_nat scanChunkSize ≤ N.to_nat scanChunkSize * 2.
Proof. rewrite cat_sql_defs. intros [-> ->]%cat_defs_lookup. vm_compute. lia. Qed.

(** [CREATE INDEX v ON T (id)]. *)
Definition cat_index : ddl := DCreateIndex "T" "v" false [MkIndexCol "ID" 0].
Definition cat_index_def : tableDef := add_index (MkIndex 2 "v" false [0]) demo_def.

Lemma cat_index_spec :
  ddl_spec cat_index (q_meta cat_sql) (cat_map cat_sql) cat_tables =
  Ok (MkMeta 2 3 ["t"], {["t" := cat_index_def]}, cat_tables).
Proof. rewrite cat_sql_meta, cat_sql_defs. vm_compute. reflexivity. Qed.

Lemma cat_index_pre : ddl_pre cat_others 2 cat_sql cat_state cat_tables cat_index (MkMeta 2 3 ["t"]) {["t" := cat_index_def]}.
Proof.
  assert (∀ n def, ({["t" := cat_index_def]} : gmap string tableDef) !! n = Some def -> n = "t" ∧ def = cat_index_def) as Hl
    by (by intros n def [<- <-]%lookup_singleton_Some). split.
  - rewrite cat_sql_meta. split; by_compute.
  - split; by_compute.
  - intros n def [-> ->]%Hl. destruct cat_table_fits. split; try assumption. repeat constructor; by_compute.
  - split; [by_compute|..|by_compute|exact cat_others_rows]; intros n def [-> ->]%Hl; by_compute.
  - exact I.
  - intros def [_ ->]%Hl. apply batch_preb_sound. vm_compute. reflexivity.
Qed.
