(* ===== verification/ThmStore.v ===== *)
(** The main theorems about the store: refinement of the abstract ledger, the root
    as a commitment, atomicity, garbage marking and pruning. *)

From S2P Require Import Prelude Errors Sha256 Hashing Node Smt Proofs Aead AesGcm Backend Cache Store Tree StoreRead Update StoreWrite Records StoreCommit StoreFrame StoreOpen StoreProof Prune Ledger Demo.

Section store.
Context `{H : Hasher} `{G : GCM} `{E : Entropy} `{MR : MapRange}.
Context {B : Type} `{BK : Backend B} `{!BackendSpec B}.
Implicit Types s : Store B.

Section reliable.
Context `{!BackendReliable B} `{!GCMSpec} `{!EntropyLive}.

(** C1: The store refines the abstract versioned ledger.  From any store in
    the refinement relation, running any sequence of operations (reads and
    proofs at the head and at old versions, previews, batches, pruning,
    reopening from storage) gives exactly the replies of the abstract ledger,
    error replies included, and ends in the relation again, provided each
    step is admissible: versions do not run out and the hashes at stake in
    the step do not collide.  In particular no run ends in a panic, a
    corruption error or an exhausted fuel bound. *)
Theorem store_refines_ledger key sk cs s lg :
  refines key sk s lg -> admissible_trace key sk cs lg ->
  ∃ s', run_trace key cs s = ((spec_trace key cs lg).1, s') ∧ refines key sk s' (spec_trace key cs lg).2.
Proof. apply trace_refines_aux. Qed.

(** C2: The root commits to the whole state and to nothing else.  Two stores
    under the same commitment key have the same root exactly when they hold
    the same state, whatever histories, tree layouts, record versions and
    ciphers led there; the two states' commitment messages must not contain a
    SHA-256 collision or two values of equal commitment. *)
Theorem root_commits_state s1 s2 ot1 ot2 st1 st2 :
  repr s1 ot1 st1 -> repr s2 ot2 st2 -> s_ck s1 = s_ck s2 ->
  no_collision (spec_msgs (commitments (s_ck s1) st1)) (spec_msgs (commitments (s_ck s1) st2)) ->
  commits_apart (s_ck s1) (map_to_list st1 ++ map_to_list st2) ->
  s_root s1 = s_root s2 ↔ st1 = st2.
Proof.
  intros Hr1 Hr2 Ek Hc Ha. rewrite (repr_root _ _ _ Hr1), (repr_root _ _ _ Hr2), <-Ek.
  split; [|by intros ->]. intros Em%spec_root_binding; [|done]. apply map_eq. intros p.
  pose proof (f_equal (lookup p) Em) as Ep. rewrite !lookup_commitments in Ep.
  destruct (st1 !! p) as [v1|] eqn:E1, (st2 !! p) as [v2|] eqn:E2; cbn in Ep; try done.
  injection Ep as Ep. apply Ha in Ep as [_ ->]; [done|..]; apply elem_of_app;
    [left|right]; by apply elem_of_map_to_list.
Qed.

(** C3: A commit marks exactly the garbage it makes.  After a batch that
    changes the state, the stale marks of the new version name exactly the
    node and value records the old tree used and the new one does not, the
    marks of other versions are untouched, and every version that was
    readable before still is. *)
Theorem commit_marks_garbage s ot st ops :
  repr s ot st -> batch_pre s st ops -> upd_state (batch_map (s_ck s) ops) st ≠ st ->
  ∃ otf s', PutBatch ops s = (Ok (spec_root (commitments (s_ck s) (batch_state s st ops)), s_version s + 1)%N, s') ∧
    repr s' otf (batch_state s st ops) ∧
    (∀ w x, is_u64 w ->
       is_Some (contents (s_backend s') !! staleRecordKey w x) ↔
       is_Some (contents (s_backend s) !! staleRecordKey w x) ∨
       (w = (s_version s + 1)%N ∧ retired (s_version s + 1) [] ot otf x)) ∧
    (∀ v o stv, (v ≤ s_version s)%N ->
       view (contents (s_backend s)) (s_ck s) (s_cipher s) v o stv ->
       view (contents (s_backend s')) (s_ck s) (s_cipher s) v o stv).
Proof.
  intros Hr Hp Hne. destruct (PutBatch_ok s ot st ops Hr Hp) as [[? _]|(_ & otf & s' & E1 & Hc)]; [done|].
  exists otf, s'. rewrite E1, (committed_root _ _ _ _ _ Hc). split_and!; [done|apply Hc|apply Hc|apply Hc].
Qed.

(** C4: Pruning is safe, complete and terminates.  With one round more than
    storage has records, a prune to a version not above the current one
    returns; every retained version at or above the horizon (lowered to a
    pinned version) reads as before, the root records below it are gone, and
    so is every record marked stale at or below the horizon. *)
Theorem prune_correct s ot st hist rounds before :
  repr s ot st -> timeline s hist -> hist !! s_version s = Some (ot, st) ->
  (horizon s before ≤ s_version s)%N -> size (contents (s_backend s)) < rounds ->
  ∃ stats s', Prune rounds before s = (Ok stats, s') ∧ repr s' ot st ∧
    timeline s' (retained (horizon s before) hist) ∧
    pruned (horizon s before) (contents (s_backend s)) (contents (s_backend s')).
Proof.
  intros Hr Ht Hh Hz Hro. destruct (Prune_ok s ot st hist rounds before Hr Ht Hh Hz Hro)
    as (stats & s' & E1 & Hr' & Ht' & Hp & _). eauto 10.
Qed.
End reliable.

(** C5: A batch is atomic, whatever goes wrong.  With any storage that keeps its
    contract (its calls may fail, the records may be missing or tampered with)
    and any entropy source, a batch that does not succeed leaves the contents of
    storage and the root, version, root child and history head of the store
    unchanged. *)
Theorem batch_atomic s ops o s' :
  PutBatch ops s = (o, s') -> is_ok o = false ->
  contents (s_backend s') = contents (s_backend s) ∧ s_root s' = s_root s ∧
  s_version s' = s_version s ∧ s_rootChild s' = s_rootChild s ∧ s_historyHead s' = s_historyHead s.
Proof.
  intros E1 Ho. apply PutBatch_atomic in E1 as [[r ->]|[_ Hq]]; [done|].
  split; [apply Hq|]. by apply quiet_head in Hq as (? & ? & ? & ? & _).
Qed.

(** C6: Computing a batch writes nothing.  Whatever storage returns, a preview
    (and so the sealing of a fork) leaves the contents of storage and every
    field of the store but its cache and its entropy counter unchanged. *)
Theorem preview_writes_nothing s ops :
  contents (s_backend (PreviewBatch ops s).2) = contents (s_backend s) ∧
  s_root (PreviewBatch ops s).2 = s_root s ∧ s_version (PreviewBatch ops s).2 = s_version s ∧
  s_rootChild (PreviewBatch ops s).2 = s_rootChild s.
Proof.
  pose proof (keeps_PreviewBatch ops s) as Hq. split; [apply Hq|].
  by apply quiet_head in Hq as (? & ? & ? & _).
Qed.
End store.

(** * Instances *)

Lemma store_refines_ledger_witness :
  ∃ s', run_trace demo_key demo_trace demo_start = ((spec_trace demo_key demo_trace (empty_ledger true)).1, s').
Proof.
  destruct (store_refines_ledger demo_key (Some demo_sk) demo_trace demo_start (empty_ledger true) demo_start_ok)
    as (s' & E1 & _); [apply admissible_traceb_sound; vm_compute; reflexivity|].
  by exists s'.
Defined.

Lemma root_commits_state_witness : s_root plain_store = s_root direct_store.
Proof.
  destruct (refines_repr _ _ _ _ plain_store_ok) as (h1 & ot1 & Hr1 & _).
  destruct (refines_repr _ _ _ _ direct_store_ok) as (h2 & ot2 & Hr2 & _).
  assert (s_ck plain_store = demo_ck) as Ek by exact (refines_ck _ _ _ _ plain_store_ok).
  assert (s_ck direct_store = demo_ck) as Ek' by exact (refines_ck _ _ _ _ direct_store_ok).
  apply (root_commits_state _ _ _ _ _ _ Hr1 Hr2).
  - by rewrite Ek, Ek'.
  - rewrite Ek. apply no_collisionb_sound. vm_compute. reflexivity.
  - rewrite Ek. apply commits_apartb_sound. vm_compute. reflexivity.
  - apply map_eq_compute. by_compute.
Defined.

Lemma commit_marks_garbage_witness :
  (PutBatch more_ops demo_store).1 =
  Ok (spec_root (commitments (s_ck demo_store) (batch_state demo_store (lg_cur demo_ledger) more_ops)),
      s_version demo_store + 1)%N.
Proof.
  destruct (refines_repr _ _ _ _ demo_store_ok) as (h & ot & Hr & _).
  destruct (commit_marks_garbage demo_store ot (lg_cur demo_ledger) more_ops Hr more_ops_pre more_ops_change)
    as (otf & s' & E1 & _).
  by rewrite E1.
Defined.

Lemma prune_correct_witness :
  ∃ stats s', Prune (S (size (contents (s_backend demo_store)))) 1 demo_store = (Ok stats, s') ∧
    contents (s_backend s') !! rootRecordKey 0 = None.
Proof.
  destruct (refines_repr _ _ _ _ demo_store_ok) as (h & ot & Hr & Ht & Hh & _).
  assert (s_snapshotPin demo_store = None ∧ s_version demo_store = 2%N) as [Hp Hv].
  { destruct demo_store_ok as (h' & ot' & []). split; [done|]. rewrite rf_version. vm_compute. reflexivity. }
  destruct (prune_correct demo_store ot _ h (S (size (contents (s_backend demo_store)))) 1 Hr Ht Hh)
    as (stats & s' & E1 & _ & _ & Hpr).
  - unfold horizon. rewrite Hp, Hv. done.
  - lia.
  - exists stats, s'. split; [done|]. apply (pr_roots _ _ _ Hpr). unfold horizon. by rewrite Hp.
Defined.

(** The write of the commit is the call that fails. *)
Lemma batch_atomic_witness :
  is_ok (PutBatch more_ops (flaky_store 4)).1 = false ∧
  contents (s_backend (PutBatch more_ops (flaky_store 4)).2) = contents (s_backend (flaky_store 4)).
Proof.
  assert (is_ok (PutBatch more_ops (flaky_store 4)).1 = false) as Ho by (vm_compute; reflexivity).
  split; [exact Ho|]. destruct (PutBatch more_ops (flaky_store 4)) as [o s'] eqn:E1. cbn [fst snd] in *.
  exact (proj1 (batch_atomic (flaky_store 4) more_ops o s' E1 Ho)).
Defined.
