(* ===== verification/ThmAuth.v ===== *)
(** The main theorems about authentication: reads against storage that lies, and
    membership proofs. *)

From S2P Require Import Prelude Errors Sha256 Hashing Node Smt Proofs Aead AesGcm Backend Cache Store Tree StoreRead Update StoreWrite Records StoreCommit StoreFrame StoreOpen StoreProof Prune Ledger Tamper Absence Demo.

Section auth.
Context `{H : Hasher} `{G : GCM} `{E : Entropy} `{MR : MapRange} {B : Type} `{BK : Backend B}.
Implicit Types s : Store B.

(** C7: A value that a read returns is authentic, whatever storage answers.
    Nothing is assumed of the backend or of the cache.  If the root hash in
    memory is the root of the genuine commitments [m] and [Get] returns a value,
    then that value is the one committed to under the key, unless a node the
    walk loaded collides with a message of the genuine tree. *)
Theorem get_authentic s key m v s' :
  root_of (s_rootChild s) = spec_root m ->
  no_collision (concat (node_msgs <$> get_nodes key s)) (spec_msgs m) ->
  Get key s = (Ok (Some v), s') ->
  m !! pathOf (s_ck s) key = Some (vhOf (s_ck s) (pathOf (s_ck s) key) v).
Proof. apply walk_sound. Qed.
End auth.

(** ** Absence is not authenticated *)

Section absence.
Context `{H : Hasher} `{G : GCM} `{E : Entropy} `{MR : MapRange}.
Context {B : Type} `{BK : Backend B} `{!BackendSpec B} `{!BackendReliable B}.
Implicit Types s : Store B.

(** C8: An answer of absence is not authenticated.  Take any store [s] and any key it
    holds, the internal node over the key's leaf, and any node in which that leaf was moved
    to another slot of a range of slots it has to itself ([moves], and the slot of the key's
    path is empty).  A store [s2] with the same keys and the same root in memory, whose
    storage differs in the record of that one node, reports the key as absent, while [s]
    returns its value.  (The documentation says that a dropped key is an error, never a
    wrong answer.) *)
Theorem absence_not_authenticated s ot st key q v cs cs' vl l s2 :
  repr s ot st -> let path := pathOf (s_ck s) key in
  tree_at ot q = Some (TNode v cs) -> cs !! N.to_nat (nibble path (length q)) = Some (Some (TLeaf vl l)) -> l_path l = path ->
  length cs' = 16 -> moves 4 (ochild <$> cs) cs' -> slot cs' (nibble path (length q)) = None ->
  s_ck s2 = s_ck s -> s_rootChild s2 = s_rootChild s -> store_ok s2 ->
  contents (s_backend s2) = <[nodeRecordKey (NodeKey v q) := node_encode (NInternal cs')]> (contents (s_backend s)) ->
  (∃ value s', Get key s = (Ok (Some value), s')) ∧ ∃ s', Get key s2 = (Ok None, s').
Proof. apply hidden_key. Qed.
End absence.

(** * Membership proofs *)

Section proofs.
Context `{H : Hasher}.

(** C9: An accepted proof is right.  A proof that [Verify] accepts against the
    root of a state proves exactly what the state says of the path: present with
    that commitment, or absent.  The only assumption is that the messages hashed
    by the verification do not collide with those of the genuine tree. *)
Theorem verify_sound m path proof st :
  no_collision (verify_msgs path proof) (spec_msgs m) ->
  Verify (spec_root m) path proof = Ok st -> st = statement_of m path.
Proof. by apply Verify_sound_aux. Qed.

Context `{G : GCM} `{E : Entropy} `{MR : MapRange}.
Context {B : Type} `{BK : Backend B} `{!BackendSpec B} `{!BackendReliable B}.
Implicit Types s : Store B.

(** C10: Proofs are complete.  [Prove] always succeeds on a store and its proof
    verifies against the current root: [VerifyValue] accepts it for a value
    exactly when the commitment of that value is the stored one, and
    [VerifyAbsent] exactly when the key is absent; the proof survives its
    encoding. *)
Theorem prove_verifies s ot st key value :
  repr s ot st ->
  ∃ proof s', Prove key s = (Ok proof, s') ∧
    DecodeProof (proof_encode proof) = Ok proof ∧
    Verify (s_root s) (pathOf (s_ck s) key) proof =
      Ok (statement_of (commitments (s_ck s) st) (pathOf (s_ck s) key)) ∧
    (VerifyValue (s_root s) key value proof s).1 =
      Ok (bool_decide (vhOf (s_ck s) (pathOf (s_ck s) key) <$> st !! pathOf (s_ck s) key
                       = Some (vhOf (s_ck s) (pathOf (s_ck s) key) value))) ∧
    (VerifyAbsent (s_root s) key proof s).1 = Ok (bool_decide (st !! pathOf (s_ck s) key = None)).
Proof.
  intros Hr. destruct (Prove_ok s ot st key Hr) as (s' & E1 & R1). rewrite (repr_root _ _ _ Hr).
  set (m := commitments (s_ck s) st) in *. set (p := pathOf (s_ck s) key) in *.
  pose proof (Verify_complete_aux m p) as Hv. exists (spec_prove m p), s'. split; [done|].
  split.
  { apply DecodeProof_encode.
    change (p_Siblings (spec_prove m p)) with (reverse (smt_prove 256 0 (map_to_list m) p).2).
    rewrite length_reverse. apply smt_prove_length. }
  split; [exact Hv|]. unfold VerifyValue, VerifyAbsent. rewrite !bind_gets. fold p.
  rewrite !(bind_ok (lift _) _ s (statement_of m p) s) by (unfold lift; by rewrite Hv).
  unfold statement_of, m. rewrite lookup_commitments.
  split; destruct (st !! p) as [v|] eqn:Ep; cbn [fst fmap option_fmap option_map].
  - cbn. f_equal. apply bool_decide_ext. split; [by intros ->|by intros [= ->]].
  - done.
  - done.
  - done.
Qed.
End proofs.

(** * Instances *)

Lemma get_authentic_witness :
  commitments demo_ck (lg_cur plain_ledger) !! pathOf demo_ck (str "alice") =
  Some (vhOf demo_ck (pathOf demo_ck (str "alice")) (str "1000")).
Proof.
  assert (s_ck plain_store = demo_ck) as Ek by exact (refines_ck _ _ _ _ plain_store_ok).
  rewrite <-Ek. destruct (Get (str "alice") plain_store) as [o s'] eqn:Eg.
  apply (get_authentic plain_store (str "alice") _ _ s').
  - by_compute.
  - rewrite Ek. apply no_collisionb_sound. vm_compute. reflexivity.
  - rewrite Eg. f_equal. change o with (o, s').1. rewrite <-Eg. by_compute.
Defined.

(** A store under SHA-256 whose root node holds alice's leaf in slot 10, alone in the
    slots 10 and 11, and storage in which the root's record has the leaf in slot 11. *)
Section absence_instance.
#[local] Existing Instance sha256_hasher.

Definition honest_start : mstore := (Create NewMemBackend demo_key []).2.
Definition honest_store : mstore := (run_trace demo_key [CPut golden_ops1] honest_start).2.
Definition honest_ledger : ledger := (spec_trace demo_key [CPut golden_ops1] (empty_ledger false)).2.

Lemma honest_store_ok : refines demo_key None honest_store honest_ledger.
Proof.
  destruct (create_refines (B := MemBackend) demo_key None NewMemBackend []) as (s & E1 & Hr); [done|done|].
  destruct (trace_refines_aux demo_key None [CPut golden_ops1] s (empty_ledger false) Hr)
    as (s1 & E2 & Hr1); [apply admissible_traceb_sound; vm_compute; reflexivity|].
  unfold honest_store, honest_start. rewrite E1. cbn [snd]. by rewrite E2.
Qed.

Definition node_record (v : N) (prefix : list N) : bytes :=
  default [] (mb_m (s_backend honest_store) !! nodeRecordKey (NodeKey v prefix)).
Definition honest_slots : list (option child) :=
  match decodeNode (node_record 1 []) with Ok (NInternal cs) => cs | _ => [] end.
Definition moved_slots : list (option child) := <[11 := slot honest_slots 10]> (<[10 := None]> honest_slots).
Definition hidden_leaf : leafNode :=
  match decodeNode (node_record 1 [10%N]) with Ok (NLeaf l) => l | _ => LeafNode placeholderHash placeholderHash 0 end.
Definition lying_backend : MemBackend :=
  MkMem (<[nodeRecordKey (NodeKey (s_version honest_store) []) := node_encode (NInternal moved_slots)]> (mb_m (s_backend honest_store))) 0.
Definition misled_store : mstore := (OpenLatest lying_backend demo_key []).2.

Definition moved_child : child := default (Child 0 placeholderHash false) (slot honest_slots 10).

Lemma honest_records :
  s_rootChild honest_store ≠ None ∧
  contents (s_backend honest_store) !! nodeRecordKey (NodeKey (s_version honest_store) []) = Some (node_record 1 []) ∧
  decodeNode (node_record 1 []) = Ok (NInternal honest_slots) ∧
  honest_slots !! N.to_nat 10 = Some (Some moved_child) ∧
  contents (s_backend honest_store) !! nodeRecordKey (NodeKey (c_version moved_child) [10%N]) = Some (node_record 1 [10%N]) ∧
  decodeNode (node_record 1 [10%N]) = Ok (NLeaf hidden_leaf).
Proof. split_and!; by_compute. Qed.

Lemma honest_tree ot st :
  repr honest_store ot st ->
  ∃ cs vl, ot = Some (TNode (s_version honest_store) cs) ∧ ochild <$> cs = honest_slots ∧
    cs !! N.to_nat 10 = Some (Some (TLeaf vl hidden_leaf)).
Proof.
  intros Hr. destruct honest_records as (Hc & F1 & F2 & F3 & F4 & F5).
  exact (root_leaf honest_store ot st _ honest_slots 10 moved_child _ hidden_leaf Hr Hc F1 F2 F3 F4 F5).
Qed.

Lemma misled_store_ok : store_ok misled_store.
Proof.
  change (map_Forall (λ k e, cached_ok (mb_m (s_backend misled_store)) k (ce_node e)) (nc_m (s_cache misled_store))).
  unfold cached_ok. by_compute.
Qed.

(** The altered storage opens with the genuine root and version. *)
Lemma misled_opens :
  (OpenLatest lying_backend demo_key []).1 = Ok tt ∧ s_root misled_store = s_root honest_store ∧
  s_version misled_store = s_version honest_store ∧ s_ck misled_store = s_ck honest_store ∧
  s_rootChild misled_store = s_rootChild honest_store ∧ mb_m (s_backend misled_store) = mb_m lying_backend.
Proof. split_and!; by_compute. Qed.

Lemma moved_slots_ok :
  pathOf (s_ck honest_store) (str "alice") = l_path hidden_leaf ∧ nibble (l_path hidden_leaf) 0 = 10%N ∧
  length moved_slots = 16 ∧ moves 4 honest_slots moved_slots ∧ slot moved_slots 10 = None.
Proof. split_and!; by_compute. Qed.

Lemma absence_not_authenticated_witness :
  (OpenLatest lying_backend demo_key []).1 = Ok tt ∧ s_root misled_store = s_root honest_store ∧
  (∃ value s', Get (str "alice") honest_store = (Ok (Some value), s')) ∧
  ∃ s', Get (str "alice") misled_store = (Ok None, s').
Proof.
  destruct misled_opens as (Ho & Hroot & _ & Hck & Hrc & Hb), moved_slots_ok as (Hp & Hn & Hl & Hm & Hs).
  split; [exact Ho|]. split; [exact Hroot|].
  destruct honest_store_ok as (hist & ot & Hr). pose proof (rf_repr _ _ _ _ _ _ Hr) as Hrep.
  destruct (honest_tree _ _ Hrep) as (cs & vl & Hot & Hcs & Hleaf).
  apply (absence_not_authenticated honest_store ot (lg_cur honest_ledger) (str "alice") [] (s_version honest_store) cs moved_slots vl hidden_leaf misled_store).
  - exact Hrep.
  - rewrite Hot. exact eq_refl.
  - rewrite Hp. cbn [length]. rewrite Hn. exact Hleaf.
  - exact (eq_sym Hp).
  - exact Hl.
  - rewrite Hcs. exact Hm.
  - rewrite Hp. cbn [length]. rewrite Hn. exact Hs.
  - exact Hck.
  - exact Hrc.
  - exact misled_store_ok.
  - exact Hb.
Defined.
End absence_instance.

Definition alice_path : Hash := pathOf demo_ck (str "alice").
Definition plain_commitments : gmap Hash Hash := commitments demo_ck (lg_cur plain_ledger).

(** The proof of the running example, and what it verifies to. *)
Definition alice_proof : Proof :=
  match (Prove (str "alice") plain_store).1 with Ok p => p | _ => MkProof None [] end.
Definition alice_statement : Verified := MkVerified true (vhOf demo_ck alice_path (str "1000")).

Lemma verify_sound_witness :
  Verify (spec_root plain_commitments) alice_path alice_proof = Ok alice_statement ∧
  alice_statement = statement_of plain_commitments alice_path.
Proof.
  assert (Verify (spec_root plain_commitments) alice_path alice_proof = Ok alice_statement) as Hv by by_compute.
  split; [exact Hv|]. apply (verify_sound plain_commitments alice_path alice_proof); [|exact Hv].
  apply no_collisionb_sound. vm_compute. reflexivity.
Defined.

Lemma prove_verifies_witness :
  ∃ proof s', Prove (str "carol") demo_store = (Ok proof, s') ∧
    (VerifyAbsent (s_root demo_store) (str "carol") proof demo_store).1 = Ok false.
Proof.
  destruct (refines_repr _ _ _ _ demo_store_ok) as (h & ot & Hr & _).
  destruct (prove_verifies demo_store ot _ (str "carol") [] Hr) as (proof & s' & E1 & _ & _ & _ & E2).
  exists proof, s'. split; [exact E1|]. rewrite E2, (refines_ck _ _ _ _ demo_store_ok).
  vm_compute. reflexivity.
Defined.
