(* ===== verification/ThmHistory.v ===== *)
(** The main theorems about history: the chain audit, transition extraction, forks,
    export and restore. *)

From S2P Require Import Prelude Errors Sha256 Hashing Node Smt Proofs Aead AesGcm Backend Cache Store Tree StoreRead Update StoreWrite Records StoreCommit StoreFrame StoreOpen StoreProof Fork Prune History Diff Snapshot Ledger Demo.

Section history.
Context `{H : Hasher} `{G : GCM} `{E : Entropy} `{MR : MapRange}.
Context {B : Type} `{BK : Backend B} `{!BackendSpec B}.
Implicit Types s : Store B.

(** C11: An accepted audit pins down the past.  Let the live head be the head of
    the genuine lineage [roots].  If the audit from [from] accepts, whatever the
    root records in storage say, then the head it was given is the genuine head
    of that version and every stored root record from there up to the current
    version is the genuine root, unless two links of the chains collide. *)
Theorem history_audit_sound fuel from fromHead s s' roots :
  is_u64 (s_version s + 1) -> N.to_nat (s_version s) ≤ length roots ->
  s_historyHead s = head_at roots (s_version s) ->
  (∀ rs, stored_roots (contents (s_backend s)) from (N.to_nat (s_version s - from)) = Some rs ->
     no_collision (chain_msgs fromHead from rs)
       (chain_msgs (head_at roots from) from (take (N.to_nat (s_version s - from)) (drop (N.to_nat from) roots)))) ->
  VerifyHistory fuel from fromHead s = (Ok tt, s') ->
  fromHead = head_at roots from ∧
  ∀ v, (from ≤ v < s_version s)%N ->
    contents (s_backend s) !! rootRecordKey v = b32 <$> roots !! N.to_nat v.
Proof.
  intros Hm Hlen Hhead Hc Hv. destruct (VerifyHistory_inv _ _ _ _ _ Hm Hv) as (_ & _ & Hle & rs & Hrs & Hch).
  specialize (Hc rs Hrs). destruct (stored_roots_spec _ _ _ _ Hrs) as [Hl Hst].
  rewrite Hhead in Hch. unfold head_at in Hch.
  replace (take (N.to_nat (s_version s)) roots) with
    (take (N.to_nat from) roots ++ take (N.to_nat (s_version s - from)) (drop (N.to_nat from) roots)) in Hch.
  2: { rewrite take_take_drop. f_equal. lia. }
  rewrite chain_app, length_take, Nat.min_l in Hch by lia.
  replace (0 + N.of_nat (N.to_nat from))%N with from in Hch by lia. symmetry in Hch.
  apply chain_binding in Hch as [-> ->]; [|rewrite length_take, length_drop; lia|exact Hc].
  split; [done|]. intros v [Hv1 Hv2].
  destruct (lookup_lt_is_Some_2 roots (N.to_nat v)) as [r Hr]; [lia|]. rewrite Hr. cbn.
  replace v with (from + N.of_nat (N.to_nat v - N.to_nat from))%N by lia. apply Hst.
  rewrite lookup_take, decide_True, lookup_drop by lia.
  by replace (N.to_nat from + (N.to_nat v - N.to_nat from)) with (N.to_nat v) by lia.
Qed.

Lemma history_loop_never fuel v h s h' s' :
  is_u64 v -> history_loop fuel v (max64 - 1) h s ≠ (Ok h', s').
Proof.
  revert v h s. induction fuel as [|fuel IH]; intros v h s Hv E0; cbn [history_loop] in E0;
    rewrite decide_True in E0 by (unfold is_u64 in Hv; lia); [done|].
  inv_bind E0. by apply IH in E0; [|apply wrap64_u64].
Qed.

(** The audit never accepts at the last version.  With the version counter at
    its maximum the loop bound [v <= version] holds for every 64-bit [v]: whatever
    the number of rounds, the walk over intact records does not return, so a
    genuine lineage is never accepted. *)
Theorem history_audit_last_version fuel from fromHead s s' :
  s_version s = (max64 - 1)%N -> VerifyHistory fuel from fromHead s ≠ (Ok tt, s').
Proof.
  intros Ev. unfold VerifyHistory. rewrite !bind_gets, Ev. destruct (s_history s); [|done].
  destruct (decide _); [done|]. intros E0. inv_bind E0. eapply history_loop_never; [|exact E1]. apply wrap64_u64.
Qed.

Section reliable.
Context `{!BackendReliable B} `{!GCMSpec} `{!EntropyLive}.

(** C13: The chain invariant.  Every batch keeps the lineage of a chained store:
    the head in memory links the roots of all versions so far, and the root
    records from the first kept version on are stored; a batch that commits
    extends the lineage by the new root, one that changes nothing leaves it. *)
Theorem lineage_invariant s ot st ops from roots :
  repr s ot st -> batch_pre s st ops -> s_history s = true -> lineage s from roots ->
  ∃ r s', PutBatch ops s = (Ok r, s') ∧
    (lineage s' from roots ∨ lineage s' from (roots ++ [s_root s'])).
Proof.
  intros Hr Hp Hh Hl.
  destruct (PutBatch_ok s ot st ops Hr Hp) as [(_ & s' & E1 & R1)|(_ & otf & s' & E1 & Hc)];
    do 2 eexists; (split; [exact E1|]).
  - left. apply (lineage_reads s); [|done]. destruct R1 as (? & ? & _). done.
  - right. eapply lineage_commit; [exact Hc|done|apply Hp|done].
Qed.

(** C14: The audit is complete.  On a chained store the audit from any kept
    version and the head of that version accepts, within as many rounds as
    there are versions in between. *)
Theorem history_audit_complete fuel from0 from s roots :
  s_history s = true -> is_u64 (s_version s + 1) -> lineage s from0 roots ->
  (from0 ≤ from)%N -> (from ≤ s_version s)%N -> N.to_nat (s_version s - from) ≤ fuel ->
  ∃ s', VerifyHistory fuel from (head_at roots from) s = (Ok tt, s').
Proof. intros. edestruct VerifyHistory_ok as (s' & E1 & _); eauto. Qed.

(** C15: Transition extraction is exact.  For two retained versions, [ChangesAt]
    returns the changes between their states, and only those: a put for every
    path whose value is new or different, a deletion for every path that is
    gone, the reserved leaf excepted, each path once and in increasing order.
    Applied in order to the state of version [v - 1] they give the state of version
    [v] at every path but the reserved one. *)
Theorem changes_exact_replay s ot st v ota otb sta stb :
  repr s ot st -> (0 < v)%N -> (v ≤ s_version s)%N ->
  view (contents (s_backend s)) (s_ck s) (s_cipher s) (v - 1) ota sta ->
  view (contents (s_backend s)) (s_ck s) (s_cipher s) v otb stb ->
  root_apart (s_ck s) sta -> root_apart (s_ck s) stb ->
  no_collision (spec_msgs (commitments (s_ck s) sta)) (spec_msgs (commitments (s_ck s) stb)) ->
  commits_apart (s_ck s) (map_to_list sta ++ map_to_list stb) ->
  ∃ cs s', ChangesAt v s = (Ok cs, s') ∧ path_sorted ch_Path cs ∧
    (∀ c, c ∈ cs ↔ is_change (history_path (s_ck s)) sta stb c) ∧
    ∀ p, p ≠ history_path (s_ck s) -> replay cs sta !! p = stb !! p.
Proof.
  intros Hr Hv0 Hv Va Vb Ra Rb Hc Ha.
  destruct (ChangesAt_ok s ot st v ota otb sta stb Hr Hv0 Hv Va Vb) as (cs & s' & E1 & _ & Hs & Hcs);
    [by eapply view_placeholder|by eapply view_placeholder|done| |].
  - intros p a b Hpa Hpb Ev. apply Ha in Ev as [_ ->]; [done|..]; apply elem_of_app; [left|right];
      by apply elem_of_map_to_list.
  - exists cs, s'. split_and!; [done..|]. eapply replay_changes; [by apply path_sorted_NoDup|done].
Qed.

(** C17: A sealed fork is what its commit will be.  Sealing succeeds, returns the
    buffered writes in key order (independent of the iteration order of the
    overlay) and announces exactly the root and version that committing them
    gives, on this store and after any reads of it; the store is unchanged.  The commit
    leads to the state [fork_state] (the store's own when the overlay changes nothing),
    and a read through the fork of any key but [HistoryKey] is a read of that state.  A
    read of [HistoryKey] sees the head before the commit, which on
    a chained store is not the one the commit writes. *)
Theorem fork_correct s ot st f :
  repr s ot st -> f_rootBefore f = s_root s -> f_versionBefore f = s_version s ->
  batch_pre s st (fork_ops (f_overlay f)) ->
  (∃ sf s', Seal f s = (Ok sf, s') ∧ reads s s' ∧
     Ops sf = ((λ k, match f_overlay f !! k with Some (Some v) => Put k v | _ => Del k end) <$>
               merge_sort bytes_le (map_to_list (f_overlay f)).*1) ∧
     ∀ s2, reads s s2 -> (PutBatch (Ops sf) s2).1 = Ok (RootAfter sf, VersionAfter sf)) ∧
  (∀ s2 r s3, reads s s2 -> PutBatch (fork_ops (f_overlay f)) s2 = (Ok r, s3) ->
     ∃ ot', repr s3 ot' (fork_state s st f)) ∧
  (∀ key, paths_apart (s_ck s) (HistoryKey :: key :: (map_to_list (f_overlay f)).*1) -> key ≠ HistoryKey ->
     ∃ s', Fork_Get f key s = (Ok (fork_state s st f !! pathOf (s_ck s) key), s') ∧ reads s s') ∧
  ∃ s', Fork_Get f HistoryKey s = (Ok (st !! history_path (s_ck s)), s') ∧ reads s s'.
Proof.
  intros Hr E1 E2 Hp. split_and!.
  - destruct (Seal_ok s ot st f Hr E1 E2 Hp) as (sf & s' & Es & R & Eo & _ & _ & Hput).
    exists sf, s'. rewrite <-(fork_ops_canonical (f_overlay f)). done.
  - intros s2 r s3 R2 E3. by eapply fork_state_repr.
  - intros key Ha Hne. by apply (Fork_Get_state s ot).
  - by eapply Fork_Get_head.
Qed.

(** C19: A snapshot chunk is the next leaves.  A chunk of a retained version from
    a resume point holds the first [max] pairs of the state after that point in
    path order and says whether that was all; resuming at the last path of a
    chunk continues with exactly the rest, so consecutive chunks enumerate the
    state once. *)
Theorem snapshot_chunks s version ot st sa max :
  store_ok s -> view (contents (s_backend s)) (s_ck s) (s_cipher s) version ot st ->
  root_apart (s_ck s) st -> (0 < max)%Z ->
  ∃ leaves s', SnapshotLeaves version sa max s =
      (Ok (leaves, bool_decide (length (snapshot_of sa st) ≤ Z.to_nat max)), s') ∧ reads s s' ∧
    leaves = take (Z.to_nat max) (snapshot_of sa st) ∧
    ∀ x, last leaves = Some x ->
      ∃ s'', SnapshotLeaves version (Some (lf_Path x)) max s' =
        (Ok (take (Z.to_nat max) (drop (Z.to_nat max) (snapshot_of sa st)),
             bool_decide (length (snapshot_of sa st) - Z.to_nat max ≤ Z.to_nat max)), s'').
Proof.
  intros Ho V Hra Hmax. pose proof (view_placeholder _ _ _ _ _ _ V Hra) as Hne.
  destruct (SnapshotLeaves_ok s version ot st sa max Ho V Hne Hmax) as (s' & E1 & R1).
  do 2 eexists. split_and!; [exact E1|done|done|]. intros x Hx.
  destruct (reads_fields _ _ R1) as (F1 & F2 & _).
  destruct (SnapshotLeaves_ok s' version ot st (Some (lf_Path x)) max) as (s'' & E2 & _);
    [by eapply reads_ok|by rewrite (reads_contents _ _ R1), F1, F2|done|done|].
  exists s''. rewrite E2, (snapshot_resume sa st _ x Hx), length_drop. done.
Qed.

(** C20: An exported store restores to the same root.  Exporting the current
    version, creating a store under the same commitment key on storage without
    node records, restoring the leaves and stamping the exported version
    succeeds and gives a store with the same state, root and version. *)
Theorem export_restore s ot st b key opts max :
  repr s ot st -> s_ck s = b32 key -> root_apart (s_ck s) st -> st ≠ ∅ -> (0 < s_version s)%N ->
  commits_apart (s_ck s) (map_to_list st) -> size st ≤ Z.to_nat max ->
  (∀ nk, nk_wf nk -> contents b !! nodeRecordKey nk = None) ->
  ∃ leaves s' s1 s2 s3,
    SnapshotLeaves (s_version s) None max s = (Ok (leaves, true), s') ∧
    Create b key opts = (Ok tt, s1) ∧
    RestoreLeaves leaves s1 = (Ok (s_root s, 1%N), s2) ∧
    StampVersion (s_version s) s2 = (Ok tt, s3) ∧
    s_root s3 = s_root s ∧ s_version s3 = s_version s ∧ ∃ ot3, repr s3 ot3 st.
Proof.
  intros Hr Ek Hra Hne Hv Hap Hmax Hb. pose proof (r_view _ _ _ Hr) as V.
  pose proof (view_placeholder _ _ _ _ _ _ V Hra) as Hpl.
  assert (0 < size st) as Hsz by (apply Nat.neq_0_lt_0; by intros ?%map_size_empty_inv).
  assert (snapshot_of None st = state_leaves st) as Esn by (unfold snapshot_of; by apply filter_all).
  assert (length (state_leaves st) = size st) as Elen by (rewrite state_leaves_perm, length_fmap; apply length_map_to_list).
  destruct (SnapshotLeaves_ok s _ ot st None max (r_ok _ _ _ Hr) V Hpl) as (s' & E1 & _); [lia|].
  rewrite Esn, Elen, take_ge, bool_decide_true in E1 by lia.
  destruct (Create_ok b key opts Hb) as (s1 & E2 & Hr1 & _ & Hk1 & _ & Hv1 & _ & _ & _ & _).
  destruct Hk1 as (Ek1 & _). assert (s_ck s1 = s_ck s) as Eck by congruence.
  pose proof (restore_state_leaves st) as Est.
  destruct (RestoreLeaves_ok s1 None ∅ (state_leaves st) Hr1) as [[E0 _]|(_ & otf & s1' & s2 & E3 & Hcm & R2)].
  { by rewrite Hv1. }
  { rewrite map_to_list_empty, Eck. intros p v p' v' Hp Hp'. apply Hap; apply elem_of_map_to_list.
    - apply elem_of_batch_values in Hp. rewrite <-Est, lookup_upd_state, Hp. done.
    - apply elem_of_batch_values in Hp'. rewrite <-Est, lookup_upd_state, Hp'. done. }
  { by rewrite Est in E0. }
  rewrite Est in E3, Hcm. set (h := restored_head s1' st) in *.
  pose proof (reads_repr _ _ _ _ R2 (cm_repr _ _ _ _ _ Hcm)) as Hr2.
  assert (repr (set_historyHead h s2) otf st) as Hr2' by (by destruct Hr2).
  assert (s_version (set_historyHead h s2) = 1%N) as Hv2.
  { destruct (reads_fields _ _ R2) as (_ & _ & _ & _ & F5 & _). cbn. rewrite F5, (cm_version _ _ _ _ _ Hcm), Hv1. done. }
  assert (root_of (ochild otf) = s_root s) as Eroot.
  { rewrite (repr_root _ _ _ Hr), <-Eck, <-(cm_ck _ _ _ _ _ Hcm).
    rewrite <-(r_root _ _ _ (cm_repr _ _ _ _ _ Hcm)). apply (repr_root _ _ _ (cm_repr _ _ _ _ _ Hcm)). }
  rewrite Eroot, Hv1 in E3.
  destruct (StampVersion_ok _ _ _ (s_version s) Hr2') as (s3 & E4 & Hr3 & Ev3 & Er3 & _);
    [rewrite Hv2; lia|apply Hr|].
  exists (state_leaves st), s', s1, (set_historyHead h s2), s3. split_and!; [exact E1|done|done|done| |done|eauto].
  rewrite Er3, (r_root _ _ _ Hr2'). exact Eroot.
Qed.
End reliable.
End history.

(** * Instances *)

(** The lineage of the running example, read back from its records. *)
Definition demo_roots : list Hash :=
  Eval vm_compute in match stored_roots (contents (s_backend demo_store)) 0 3 with Some rs => rs | None => [] end.

Lemma demo_stored : stored_roots (contents (s_backend demo_store)) 0 3 = Some demo_roots.
Proof. by_compute. Qed.

Lemma demo_version : s_version demo_store = 2%N.
Proof. by_compute. Qed.

Lemma demo_history : s_history demo_store = true.
Proof. by_compute. Qed.

Lemma demo_head : s_historyHead demo_store = head_at demo_roots 2.
Proof. by_compute. Qed.

Lemma demo_lineage : lineage demo_store 0 demo_roots.
Proof.
  destruct (stored_roots_spec _ _ _ _ demo_stored) as [Hl Hr]. split; rewrite ?demo_version.
  - done.
  - by_compute.
  - exact demo_head.
  - intros v r _ Hv. specialize (Hr (N.to_nat v) r Hv). by rewrite N2Nat.id in Hr.
Qed.

Lemma history_audit_sound_witness :
  contents (s_backend demo_store) !! rootRecordKey 1 = b32 <$> demo_roots !! 1.
Proof.
  destruct (VerifyHistory 2 0 zero32 demo_store) as [o s'] eqn:Ev.
  assert (o = Ok tt) as -> by (change o with (o, s').1; rewrite <-Ev; by_compute).
  destruct (history_audit_sound 2 0 zero32 demo_store s' demo_roots) as [_ Hall].
  - by rewrite demo_version.
  - rewrite demo_version. by_compute.
  - rewrite demo_version. exact demo_head.
  - rewrite demo_version. change (N.to_nat (2 - 0)) with 2. intros rs Hrs.
    assert (rs = take 2 demo_roots) as ->.
    { apply (inj Some). rewrite <-Hrs. by_compute. }
    apply no_collisionb_sound. vm_compute. reflexivity.
  - exact Ev.
  - apply (Hall 1%N). rewrite demo_version. clear. lia.
Defined.

(** A store at the last version. *)
Definition last_store : mstore := set_history true (set_head (s_root demo_store) (max64 - 1) None demo_store).

Lemma history_audit_last_version_witness : (VerifyHistory 3 5 zero32 last_store).1 ≠ Ok tt.
Proof.
  destruct (VerifyHistory 3 5 zero32 last_store) as [o s'] eqn:Ev. cbn [fst]. intros ->.
  exact (history_audit_last_version 3 5 zero32 last_store s' eq_refl Ev).
Defined.

Lemma lineage_invariant_witness :
  ∃ r s', PutBatch more_ops demo_store = (Ok r, s') ∧
    (lineage s' 0 demo_roots ∨ lineage s' 0 (demo_roots ++ [s_root s'])).
Proof.
  destruct (refines_repr _ _ _ _ demo_store_ok) as (h & ot & Hr & _).
  exact (lineage_invariant demo_store ot _ more_ops 0 demo_roots Hr more_ops_pre demo_history demo_lineage).
Defined.

Lemma history_audit_complete_witness :
  ∃ s', VerifyHistory 1 1 (head_at demo_roots 1) demo_store = (Ok tt, s').
Proof.
  apply (history_audit_complete 1 0 1 demo_store demo_roots demo_history); rewrite ?demo_version;
    [done|exact demo_lineage|done|done|cbn; lia].
Defined.

Definition demo_state (v : N) : gmap Hash bytes := default ∅ (lg_states demo_ledger !! v).

Lemma demo_state_view (v : N) :
  bool_decide (is_Some (lg_states demo_ledger !! v)) = true ->
  ∃ ot, view (contents (s_backend demo_store)) (s_ck demo_store) (s_cipher demo_store) v ot (demo_state v).
Proof.
  intros [st Hst]%bool_decide_eq_true. unfold demo_state. rewrite Hst. by apply demo_view.
Qed.

Lemma demo_ck_eq : s_ck demo_store = demo_ck.
Proof. exact (refines_ck _ _ _ _ demo_store_ok). Qed.

Lemma changes_exact_replay_witness :
  ∃ cs s', ChangesAt 2 demo_store = (Ok cs, s') ∧
    MkChange (pathOf demo_ck (str "bob")) [] true ∈ cs ∧
    replay cs (demo_state 1) !! pathOf demo_ck (str "alice") = demo_state 2 !! pathOf demo_ck (str "alice").
Proof.
  destruct (refines_repr _ _ _ _ demo_store_ok) as (h & ot & Hr & _).
  destruct (demo_state_view 1) as [ota Va]; [vm_compute; reflexivity|].
  destruct (demo_state_view 2) as [otb Vb]; [vm_compute; reflexivity|].
  destruct (changes_exact_replay demo_store ot _ 2 ota otb (demo_state 1) (demo_state 2) Hr) as (cs & s' & E1 & _ & Hc & Hp);
    [done|by rewrite demo_version|exact Va|exact Vb|..].
  1,2: rewrite demo_ck_eq; apply root_apartb_sound; vm_compute; reflexivity.
  - rewrite demo_ck_eq. apply no_collisionb_sound. vm_compute. reflexivity.
  - rewrite demo_ck_eq. apply commits_apartb_sound. vm_compute. reflexivity.
  - exists cs, s'. split; [exact E1|]. split.
    + apply Hc. rewrite demo_ck_eq. split; [by_compute|]. cbn [ch_Deleted ch_Value ch_Path]. split_and!; by_compute.
    + apply Hp. rewrite demo_ck_eq. by_compute.
Defined.

(** A fork of the running example: one write and one delete. *)
Definition demo_fork : Fork :=
  Fork_Delete (Fork_Put (MkFork (s_root demo_store) (s_version demo_store) ∅) (str "alice") (str "7")) (str "carol").

Lemma demo_fork_pre : batch_pre demo_store (lg_cur demo_ledger) (fork_ops (f_overlay demo_fork)).
Proof. eapply refines_batch_pre; [exact demo_store_ok|by_compute|vm_compute; reflexivity]. Qed.

Definition paths_apartb (ck : bytes) (keys : list bytes) : bool := apartb (pathOf ck) keys keys.

Lemma paths_apartb_sound ck keys : paths_apartb ck keys = true -> paths_apart ck keys.
Proof. intros Hb k k'. by apply apartb_sound. Qed.

Lemma fork_correct_witness :
  (∃ sf s', Seal demo_fork demo_store = (Ok sf, s') ∧
     (PutBatch (Ops sf) demo_store).1 = Ok (RootAfter sf, VersionAfter sf)) ∧
  ∃ s', Fork_Get demo_fork (str "bob") demo_store =
    (Ok (fork_state demo_store (lg_cur demo_ledger) demo_fork !! pathOf demo_ck (str "bob")), s').
Proof.
  destruct (refines_repr _ _ _ _ demo_store_ok) as (h & ot & Hr & _).
  destruct (fork_correct demo_store ot _ demo_fork Hr eq_refl eq_refl demo_fork_pre)
    as [(sf & s' & E1 & _ & _ & Hput) (_ & Hget & _)].
  split.
  - exists sf, s'. split; [exact E1|]. exact (Hput demo_store (reads_refl demo_store)).
  - rewrite <-demo_ck_eq. destruct (Hget (str "bob")) as (s4 & Eg & _); [|by_compute|by exists s4].
    rewrite demo_ck_eq. apply paths_apartb_sound. vm_compute. reflexivity.
Defined.

Lemma demo_root_apart v : root_apartb demo_ck (demo_state v) = true -> root_apart (s_ck demo_store) (demo_state v).
Proof. rewrite demo_ck_eq. apply root_apartb_sound. Qed.

Lemma snapshot_chunks_witness :
  ∃ leaves s', SnapshotLeaves 1 None 2 demo_store = (Ok (leaves, false), s') ∧ length leaves = 2.
Proof.
  destruct (refines_repr _ _ _ _ demo_store_ok) as (h & ot & Hr & _).
  destruct (demo_state_view 1) as [ot1 V]; [vm_compute; reflexivity|].
  destruct (snapshot_chunks demo_store 1 ot1 _ None 2 (r_ok _ _ _ Hr) V) as (leaves & s' & E1 & _ & El & _);
    [apply demo_root_apart; vm_compute; reflexivity|reflexivity|].
  assert (bool_decide (length (snapshot_of None (demo_state 1)) ≤ Z.to_nat 2) = false) as Eb by by_compute.
  rewrite Eb in E1. exists leaves, s'. split; [exact E1|]. rewrite El. by_compute.
Defined.

Lemma export_restore_witness :
  ∃ leaves s' s1 s2 s3,
    SnapshotLeaves (s_version demo_store) None 10 demo_store = (Ok (leaves, true), s') ∧
    Create NewMemBackend demo_key demo_opts = (Ok tt, s1) ∧
    RestoreLeaves leaves s1 = (Ok (s_root demo_store, 1%N), s2) ∧
    StampVersion (s_version demo_store) s2 = (Ok tt, s3) ∧ s_root s3 = s_root demo_store.
Proof.
  destruct (refines_repr _ _ _ _ demo_store_ok) as (h & ot & Hr & _).
  destruct (export_restore demo_store ot _ NewMemBackend demo_key demo_opts 10 Hr demo_ck_eq)
    as (leaves & s' & s1 & s2 & s3 & E1 & E2 & E3 & E4 & E5 & _).
  - rewrite demo_ck_eq. apply root_apartb_sound. vm_compute. reflexivity.
  - intros E0%(f_equal size). revert E0. by_compute.
  - rewrite demo_version. reflexivity.
  - rewrite demo_ck_eq. apply commits_apartb_sound. vm_compute. reflexivity.
  - by_compute.
  - intros nk _. reflexivity.
  - exists leaves, s', s1, s2, s3. split_and!; assumption.
Defined.
