(* ===== verification/ThmCodec.v ===== *)
(** The main theorems about encodings and the leaf components: the node hash, node
    records, record keys, membership proofs on the wire, the node cache, the
    in-memory backend, the checkpoint record, and the compatibility vectors. *)

From S2P Require Import Prelude Errors Sha256 Hashing Node Smt Proofs Aead AesGcm Backend Pebble Cache Lru Store Tree StoreRead Update StoreWrite Records StoreCommit StoreOpen StoreProof Prune Ledger Demo.

(** * Node hashes and records *)

Section hashes.
Context `{H : Hasher}.

(** C21: The sixteen-ary tree computes the binary sparse Merkle hash.  The hash of
    every canonical radix tree, computed over slot ranges of its nodes, is the
    specification hash of its leaves at that depth: versions, the order of
    insertion and the grouping by nibble leave no trace. *)
Theorem tree_hash_is_smt pre t :
  twf pre t -> t_hash t = smt (256 - 4 * length pre) (4 * length pre) (kv <$> leaves t).
Proof. apply t_hash_smt. Qed.
End hashes.

(** C22: The node codec is a bijection.  [decodeNode] accepts exactly the encodings
    of well-formed nodes (a 64-bit value version; sixteen slots, not all empty,
    with 64-bit versions) and returns the node that was encoded; every other byte
    string, a non-canonical one included, is an error. *)
Theorem node_codec data n : decodeNode data = Ok n ↔ node_wf n ∧ data = node_encode n.
Proof.
  split.
  - intros [Hw <-]%decodeNode_inv. done.
  - intros [Hw ->]. by apply decodeNode_encode.
Qed.

(** * Record keys *)

(** The records a store writes. *)
Inductive record :=
| RNode (nk : nodeKey)
| RValue (vh : Hash) (version : N)
| RStale (since : N) (target : bytes)
| RRoot (version : N)
| RCheckpoint.

Definition record_key (r : record) : bytes :=
  match r with
  | RNode nk => nodeRecordKey nk
  | RValue vh v => valueRecordKey vh v
  | RStale w t => staleRecordKey w t
  | RRoot v => rootRecordKey v
  | RCheckpoint => checkpointRecordKey
  end.

Definition record_wf (r : record) : Prop :=
  match r with
  | RNode nk => nk_wf nk
  | RValue _ v | RStale v _ | RRoot v => is_u64 v
  | RCheckpoint => True
  end.

(** C23: Records never share a storage key.  Two records of the store with the same
    key are the same record: of the same kind, and with the same version, path
    prefix, commitment or target. *)
Theorem record_keys_injective r r' :
  record_wf r -> record_wf r' -> record_key r = record_key r' -> r = r'.
Proof.
  destruct r, r'; cbn [record_wf record_key]; intros Hw Hw' E0;
    try (exfalso; apply (f_equal (take 1)) in E0; vm_compute in E0; discriminate E0).
  - by rewrite (nodeRecordKey_inj _ _ Hw Hw' E0).
  - by destruct (valueRecordKey_inj _ _ _ _ Hw Hw' E0) as [-> ->].
  - by destruct (staleRecordKey_inj _ _ _ _ Hw Hw' E0) as [-> ->].
  - by rewrite (rootRecordKey_inj _ _ Hw Hw' E0).
  - done.
Qed.

(** * Proofs on the wire *)

(** C24: The proof codec is a bijection.  [DecodeProof] accepts exactly the
    encodings of proofs with at most 256 siblings and returns the proof that was
    encoded; truncated, oversized and trailing input is an error. *)
Theorem proof_codec data p :
  DecodeProof data = Ok p ↔ length (p_Siblings p) ≤ maxDepth ∧ data = proof_encode p.
Proof.
  split.
  - intros [Hw <-]%DecodeProof_inv. done.
  - intros [Hw ->]. by apply DecodeProof_encode.
Qed.

(** * The node cache *)

Lemma StronglySorted_take {A} (R : relation A) n l : StronglySorted R l -> StronglySorted R (take n l).
Proof.
  intros Hs. revert n. induction Hs as [|x l Hs IH Hf]; intros [|n]; cbn; [constructor..|].
  constructor; [apply IH|]. by apply Forall_take.
Qed.

Section cache.
Context `{MR : MapRange}.

(** C25: The cache is a least-recently-used cache of bounded size.  However its calls
    follow one another (fewer than 2^64 of them, so that the access tick does not wrap),
    a new cache answers every lookup as the reference list does that moves an entry to
    the front when it is looked up or inserted and drops the last one when a new key
    comes and it is full, whatever order the eviction scan meets the entries in; it holds
    the same nodes; and it never holds more of them than its capacity. *)
Theorem cache_capacity_lru calls capacity :
  (N.of_nat (length calls) < 2 ^ 64)%N ->
  let '(answers, c) := run_cache calls (newNodeCache capacity) in
  let '(expected, r) := run_lru calls (Lru capacity []) in
  answers = expected ∧ ce_node <$> nc_m c = list_to_map (lr_nodes r) ∧
  cache_len c = length (lr_nodes r) ∧
  ((0 ≤ nc_capacity c)%Z -> (Z.of_nat (cache_len c) ≤ nc_capacity c)%Z).
Proof.
  intros Hl. pose proof (run_cache_bounded calls (newNodeCache capacity) (λ Hc, Hc)) as Hb.
  destruct (run_cache_lru calls (newNodeCache capacity) (Lru capacity []) []) as [Ea [el [_ Em Hnd _ _ En]]].
  { unfold is_u64, max64. cbn. lia. }
  { split; try done; constructor. }
  destruct (run_cache calls _) as [answers c], (run_lru calls _) as [expected r]. cbn [fst snd] in *.
  rewrite Em, En. unfold cache_len. rewrite Em, list_to_map_plain, length_fmap.
  by rewrite (map_size_list_to_map (M := gmap bytes)), <-(map_size_list_to_map (M := gmap bytes) el), <-Em by done.
Qed.

(** * The in-memory backend *)

(** A scan of the in-memory backend is the sorted range.  Whatever order the
    map is iterated in, [Scan] returns the entries with [start <= key], and
    [key < end] unless the end is empty, in increasing key order, cut to the
    limit when there is one, and leaves the contents alone. *)
Lemma mem_scan_sorted_range start stop limit b :
  ∃ kvs, mem_Scan start stop limit b = (Ok kvs, b) ∧
    kvs = scan_spec (mb_m b) start stop limit ∧
    StronglySorted bytes_le (kv_Key <$> kvs) ∧
    ∀ x, x ∈ kvs -> in_range start stop (kv_Key x) ∧ mb_m b !! kv_Key x = Some (kv_Value x).
Proof.
  destruct (mem_Scan start stop limit b) as [o b'] eqn:E0.
  destruct (scan_live (B := MemBackend) start stop limit b) as (r & b2 & E1).
  assert ((o, b') = (Ok r, b2)) as [= -> ->] by (rewrite <-E0; exact E1).
  destruct (scan_spec_law (B := MemBackend) start stop limit b _ _ E1) as [_ Hr].
  specialize (Hr r eq_refl). cbn in Hr.
  assert (b2 = b) as -> by (unfold mem_Scan in E0; congruence).
  exists r. split; [done|]. split; [exact Hr|]. subst r. split.
  - unfold scan_spec. rewrite <-list_fmap_compose. change (kv_Key ∘ _) with (@id bytes). rewrite list_fmap_id.
    unfold limited. case_decide; [|apply StronglySorted_take];
      apply StronglySorted_filter, sorted_keys_sorted.
  - intros x. unfold scan_spec. rewrite list_elem_of_fmap. intros (k & -> & Hk). cbn [kv_Key kv_Value].
    assert (k ∈ filter (in_range start stop) (sorted_keys (mb_m b))) as [Hin Hs]%list_elem_of_filter.
    { revert Hk. unfold limited. case_decide; [done|]. rewrite elem_of_take. intros (i & Hi & _). by eapply list_elem_of_lookup_2. }
    split; [done|]. apply elem_of_sorted_keys in Hs as [v Hv]. by rewrite Hv.
Qed.
End cache.

(** * The Pebble adapter *)

(** C26: The Pebble adapter is a storage backend.  On a Pebble database that keeps its
    documented laws, whatever fails: a read that succeeds returns the stored value or
    its absence, a scan that succeeds returns the sorted range cut to the limit, neither
    changes what is stored, and a batch applies as a whole or fails without effect, with
    an error and never a panic.  When Pebble does not fail, every call succeeds; the
    loop over the iterator ends within one round more than there are entries. *)
Theorem pebble_refines {D W I O} `{P : Pebble D W I O} `{!PebbleSpec D W I O} (rounds : nat) (b : PebbleBackend D) :
  (∀ k o b', PebbleGet k b = (o, b') ->
     p_contents (pb_db b') = p_contents (pb_db b) ∧ ∀ r, o = Ok r -> r = p_contents (pb_db b) !! k) ∧
  (∀ ops o b', PebbleWriteBatch ops b = (o, b') ->
     (o = Ok tt ∧ p_contents (pb_db b') = apply_batch ops (p_contents (pb_db b))) ∨
     ((∃ e, o = Err e) ∧ p_contents (pb_db b') = p_contents (pb_db b))) ∧
  (∀ start stop limit o b', PebbleScan rounds start stop limit b = (o, b') ->
     p_contents (pb_db b') = p_contents (pb_db b) ∧
     ∀ r, o = Ok r -> r = scan_spec (p_contents (pb_db b)) start stop limit) ∧
  (PebbleLive D W I O -> size (p_contents (pb_db b)) < rounds ->
     (∀ k, is_ok (PebbleGet k b).1 = true) ∧ (∀ ops, (PebbleWriteBatch ops b).1 = Ok tt) ∧
     (∀ start stop limit, is_ok (PebbleScan rounds start stop limit b).1 = true)).
Proof.
  split_and!.
  - intros k o b'. exact (@get_spec _ _ (pebble_spec rounds) k b o b').
  - intros ops o b'. exact (@write_spec _ _ (pebble_spec rounds) ops b o b').
  - intros start stop limit o b'. exact (@scan_spec_law _ _ (pebble_spec rounds) start stop limit b o b').
  - intros Hlive Hn. split_and!; [intros k; apply get_alive|intros ops; apply write_alive|intros start stop limit; by apply scan_alive].
Qed.

(** The laws of Pebble can hold together: a map in memory keeps them, and a scan of it
    through the adapter finds its entries. *)
Lemma pebble_refines_witness :
  let b := MkPebble ({[str "a" := str "1"; str "b" := str "2"]} : gmap bytes bytes) true in
  (PebbleScan (P := MapPebble.map_pebble) 3 (str "a") [] 0 b).1 = Ok [MkKV (str "a") (str "1"); MkKV (str "b") (str "2")] ∧
  ∀ ops, (PebbleWriteBatch (P := MapPebble.map_pebble) ops b).1 = Ok tt.
Proof.
  set (b := MkPebble _ _). split; [vm_compute; reflexivity|].
  destruct (@pebble_refines _ _ _ _ MapPebble.map_pebble MapPebble.map_pebble_spec 3 b) as (_ & _ & _ & Hlive).
  destruct (Hlive MapPebble.map_pebble_live) as (_ & Hw & _); [vm_compute; lia|]. exact Hw.
Defined.

(** * The checkpoint record *)

Section checkpoint.
Context `{H : Hasher} `{G : GCM} `{!GCMSpec} `{E : Entropy} `{!EntropyLive} `{MR : MapRange}.
Context {B : Type} `{BK : Backend B} `{!BackendSpec B}.
Implicit Types s : Store B.

Lemma openCheckpoint_plain_inv rec r v fl s s' :
  s_cipher s = None -> openCheckpoint rec s = (Ok (r, v, fl), s') ->
  ∃ payload, rec = payload ++ b32 (hmac (s_ckptMAC s) payload) ∧
    take 40 payload = b32 r ++ be 8 v ∧
    (length payload = 40 ∧ fl = 0%N ∨ ∃ b, payload = b32 r ++ be 8 v ++ [b] ∧ fl = bn b).
Proof.
  intros Ec E0. unfold openCheckpoint in E0. inv_bind E0.
  unfold ckpt_payload in E1. rewrite !bind_gets, Ec in E1.
  destruct (decide _) as [|Hl] in E1; [done|]. cbn zeta in E1.
  destruct (decide _) as [Hm|] in E1; [|done]. apply (f_equal fst) in E1. cbn in E1.
  injection E1 as <-. set (payload := take (length rec - 32) rec) in *.
  assert (rec = payload ++ b32 (hmac (s_ckptMAC s) payload)) as Erec
    by (rewrite Hm; symmetry; apply take_drop).
  exists payload. split; [exact Erec|].
  assert (32 ≤ length rec) as Hge by (unfold HashSize in Hl; lia).
  assert (length payload = 40 ∨ length payload = 41) as Hpl.
  { unfold payload. rewrite length_take. unfold HashSize in Hl. lia. }
  inv_bind E0. rename E1 into E2. apply (f_equal fst) in E0. cbn [fst mret M_ret] in E0.
  injection E0 as <- <- <-.
  assert (take 40 payload = b32 (copy32 (take HashSize payload)) ++ be 8 (unbe (take 8 (drop HashSize payload)))) as E40.
  { unfold HashSize. rewrite b32_copy32 by (rewrite length_take; lia).
    rewrite be8_unbe by (rewrite length_take, length_drop; lia).
    rewrite take_take_drop. done. }
  split; [exact E40|]. unfold HashSize in E2 |- *. destruct Hpl as [Hpl|Hpl].
  + left. rewrite decide_True in E2 by (clear -Hpl; lia). apply (f_equal fst) in E2. cbn in E2.
    split; congruence.
  + right. rewrite decide_False, decide_True in E2 by (clear -Hpl; lia). apply (f_equal fst) in E2.
    cbn [fst mret M_ret] in E2. unfold HashSize in E40.
    destruct (drop 40 payload) as [|b [|? ?]] eqn:Ed;
      [apply (f_equal length) in Ed; rewrite length_drop in Ed; cbn in Ed; lia| |
       apply (f_equal length) in Ed; rewrite length_drop in Ed; cbn in Ed; lia].
    exists b. split.
    * rewrite app_assoc, <-E40, <-Ed. symmetry. apply take_drop.
    * assert (nth (32 + 8) payload Init.Byte.x00 = b) as <-; [|congruence].
      rewrite <-(take_drop 40 payload), Ed.
      rewrite app_nth2; rewrite length_take; [|lia]. by rewrite Nat.min_l, Nat.sub_diag by lia.
Qed.

(** C27: The checkpoint record round-trips, and a plain one carries its MAC.
    Sealing a 64-bit version always succeeds, and every store with the same keys
    opens the record to the root, the version and the chain flag that were
    sealed.  On a store without a storage key, a record that opens at all is a
    payload followed by the HMAC of that payload under the checkpoint key, and
    what it opens to is read off that payload. *)
Theorem checkpoint_roundtrip root version s :
  is_u64 version ->
  (∃ rec s', sealCheckpoint root version s = (Ok rec, s') ∧
     ∀ s2, s_cipher s2 = s_cipher s -> s_ckptMAC s2 = s_ckptMAC s ->
       openCheckpoint rec s2 = (Ok (root, version, if s_history s then 1%N else 0%N), s2)) ∧
  ∀ rec r v fl s', s_cipher s = None -> openCheckpoint rec s = (Ok (r, v, fl), s') ->
    ∃ payload, rec = payload ++ b32 (hmac (s_ckptMAC s) payload) ∧
      take 40 payload = b32 r ++ be 8 v ∧
      (length payload = 40 ∧ fl = 0%N ∨ ∃ b, payload = b32 r ++ be 8 v ++ [b] ∧ fl = bn b).
Proof.
  intros Hv. split.
  - destruct (sealCheckpoint_ok root version s Hv) as (rec & s' & E1 & _ & Hf).
    exists rec, s'. split; [done|]. intros s2 E2 E3. by apply Hf.
  - intros rec r v fl s'. apply openCheckpoint_plain_inv.
Qed.
End checkpoint.

(** * Compatibility vectors *)

Section vectors.
#[local] Existing Instance sha256_hasher.

Definition hex32 (s : string) : Hash := copy32 (hex s).

Definition goldenRoot1 : Hash := hex32 "b8720446c3642c5bd577aa53037aca191f56c501b970a27615883e6d3cf6d293".
Definition goldenRoot2 : Hash := hex32 "8a46f27b42fa87ea9d775ebbff9baa7cf2ee8a45b33b2c99793c3a53b91e8296".
Definition goldenRoot3 : Hash := hex32 "4548a48a342960e9a51d46f46c756911b4816ac3a4bf5aa442f339f6ce7696f0".
Definition goldenRoot5 : Hash := hex32 "0eae295f13c47f2efeb41cef9006d5ee1a6610d2087faaff7d061ac7c3b83a96".

Definition goldenProofAlice : bytes := hex "01a50421302d96ab9afe8354169059d230ab98180548c9184537141bd7e804a454e9503b8f1a90c290e91be34962e29eded41f9460bfe08b8814d4ee1e7cd6e0b40600bcede1d7496945e5260585210f323a882aeb792cfd43f00dea07ac46cc8da4ec740bb7f568947f5e8b69c9d94229c445daf7f1146e759d706b3362de8a4ca9126aee73418ff45f7e3bdbc747289af7f74a33089e52219ad77a680ced9563e76d85c51660c2139ce21d0f676a3a6345d443b8bc9a9ad8b4be8470204ae5fd106395ffeabe84099fa3adfdbf151b5808d3071626bc68d69bc6e5a0d111bbf32308d412ac83efc5d5aff8a9e5938b0526a73cf852106170fc12c3b52a326e46b569".
Definition goldenProofAbsent : bytes := hex "015e173bbc21ccdbb6739f7a668a1d3665311d13dccfb5e134d85813cf48a7dc96c47de7bfaa61820af849138ca1a40ff2c0a3d2535b9d953327a134ad7de7eeaf0600461d1cd5a9089e9cfbbb09e0a74771f617c1b7e5ab57c7af9d4c3a3d8d7571daa2c85481cbe22a2f0175bde912ec11eb6661aebb789d0549365be6edb0354742d1383e24a1d0e57af72344d84da7b1316925176994fa801f02d1fe333955f8f8dc0e6813984af5296376cfddf10dc6b9b4f8fe68930344edfd9272333803b0fad306b987452eb153f310ec5374890306980f09ba6478892634e89c2b7acbada032e0fce68940cce2fbd9d641c9369a2843113b0e7b26b1dc63327fc3b06607fd".

(** The roots and versions of the first three batches, and the verdicts on the two
    published proofs. *)
Definition golden_run : outcome (list (bytes * N)) * outcome bool * outcome bool :=
  let '(r, s) := mapM (M := M mstore) PutBatch [golden_ops1; golden_ops2; golden_ops3]
    (Create NewMemBackend demo_key []).2 in
  (match r with Ok rs => Ok ((λ x, (b32 x.1, x.2)) <$> rs) | Err e => Err e | Panic w => Panic w end,
   match DecodeProof goldenProofAlice with
   | Ok p => (VerifyValue goldenRoot5 (str "alice") (str "1001") p s).1
   | Err e => Err e | Panic w => Panic w end,
   match DecodeProof goldenProofAbsent with
   | Ok p => (VerifyAbsent goldenRoot5 (str "absent-key") p s).1
   | Err e => Err e | Panic w => Panic w end).

(** A check of the model against the published vectors of the Rust implementation: three
    batches on a new plain store give the first three golden roots, byte for byte,
    and the golden inclusion and absence proofs verify against the root of the
    fifth. *)
Example golden_vectors :
  golden_run =
  (Ok [(b32 goldenRoot1, 1%N); (b32 goldenRoot2, 2%N); (b32 goldenRoot3, 3%N)], Ok true, Ok true).
Proof. vm_compute. reflexivity. Qed.

End vectors.

(** * Instances *)

Definition demo_leaf : leafNode := LeafNode (pathOf demo_ck (str "alice")) (hex32 "00ff") 3.

Lemma tree_hash_is_smt_witness :
  t_hash (TLeaf 5 demo_leaf) = leafHash (l_path demo_leaf) (l_vh demo_leaf).
Proof.
  rewrite (tree_hash_is_smt [] (TLeaf 5 demo_leaf)).
  - cbn [leaves fmap list_fmap]. by rewrite smt_one.
  - constructor; [apply prefix_nil|reflexivity|reflexivity].
Defined.

Lemma record_keys_injective_witness :
  record_key (RRoot 7) ≠ record_key (RRoot 8).
Proof.
  intros E0. assert (RRoot 7 = RRoot 8) as E1; [|discriminate E1].
  apply record_keys_injective; [reflexivity|reflexivity|exact E0].
Defined.

(** A cache of two entries: looking the first one up makes the second the one evicted. *)
Definition demo_nk (v : N) : nodeKey := NodeKey v [].
Definition demo_calls : list cache_call :=
  [KPut (demo_nk 1) (NLeaf demo_leaf); KPut (demo_nk 2) (NLeaf demo_leaf); KGet (demo_nk 1);
   KPut (demo_nk 3) (NLeaf demo_leaf); KGet (demo_nk 1); KGet (demo_nk 2)].

Lemma cache_capacity_lru_witness :
  (run_cache demo_calls (newNodeCache 2)).1 =
    [None; None; Some (NLeaf demo_leaf); None; Some (NLeaf demo_leaf); None] ∧
  (Z.of_nat (cache_len (run_cache demo_calls (newNodeCache 2)).2) ≤ 2)%Z.
Proof.
  pose proof (cache_capacity_lru demo_calls 2 ltac:(reflexivity)) as Hc.
  assert ((run_lru demo_calls (Lru 2 [])).1 =
    [None; None; Some (NLeaf demo_leaf); None; Some (NLeaf demo_leaf); None]) as El by by_compute.
  assert (nc_capacity (run_cache demo_calls (newNodeCache 2)).2 = 2%Z) as Ec by by_compute.
  destruct (run_cache demo_calls (newNodeCache 2)) as [answers c], (run_lru demo_calls (Lru 2 [])) as [expected r].
  destruct Hc as (-> & _ & _ & Hb). cbn [fst snd] in *. split; [exact El|]. rewrite Ec in Hb. apply Hb. lia.
Defined.

Lemma checkpoint_roundtrip_witness :
  ∃ rec s', sealCheckpoint goldenRoot1 1 demo_start = (Ok rec, s') ∧
    openCheckpoint rec demo_start = (Ok (goldenRoot1, 1%N, 1%N), demo_start).
Proof.
  destruct (checkpoint_roundtrip (B := MemBackend) goldenRoot1 1 demo_start) as [(rec & s' & E1 & Ho) _];
    [reflexivity|].
  exists rec, s'. split; [exact E1|]. specialize (Ho demo_start eq_refl eq_refl).
  assert (s_history demo_start = true) as Eh by (vm_compute; reflexivity). rewrite Eh in Ho. exact Ho.
Defined.
