(* ===== verification/ThmSql.v ===== *)
(** The main theorems about the SQL layer: queries, statements, commits and interleaved
    sessions, unique indexes, savepoints, verified reads and the codec. *)

From S2P Require Import Prelude Errors Sha256 Hashing Node Smt Proofs Aead AesGcm Backend Cache Store Tree StoreRead Update StoreWrite Records StoreCommit StoreOpen StoreProof StoreFrame Ledger Demo.
From S2P Require Import GoNum SqlCodec SqlIndex SqlTxn SqlOverlay SqlStore SqlScan SqlScanOk SqlCommit SqlTorn SqlRefine SqlTable SqlEdit SqlUnique SqlSession SqlRelease SqlWorld SqlQuery SqlVerify SqlHeap SqlDemo.
From S2P Require Import Json SqlCatalog SqlRemove SqlDdl SqlIndexBuild SqlCat SqlDdlOk SqlDbCommit SqlTableDdl SqlDdlSpec SqlReopen SqlRebuild SqlDdlDemo.

Section torn.
Context `{H : Hasher} `{G : GCM} `{E : Entropy} `{MR : MapRange}.
Context {B : Type} `{BK : Backend B} `{!BackendSpec B}.

(** C28: What a commit leaves behind when storage fails.  On any storage that keeps its
    contract (each call may fail, records may be missing or altered), a commit that does
    not succeed either changed nothing but the cache and the entropy counter, or failed
    with an error in its second step: then the ledger has taken exactly the
    transaction's batch and is at the root and version it leads to, while the derived
    keyspaces and their version marker are as they were. *)
Theorem commit_failure txn (q : SqlStore B) o q' :
  commitTxn txn q = (o, q') -> is_ok o = false ->
  squiet q q' ∨
  (∃ er, o = Err er) ∧ ∃ lo so q1 r s,
    txn_ops q txn = Ok (lo, so) ∧ lo ≠ [] ∧ squiet q q1 ∧ PutBatch lo (q_led q1) = (Ok r, s) ∧
    contents (s_backend (q_led q')) = contents (s_backend s) ∧
    s_root (q_led q') = s_root s ∧ s_version (q_led q') = s_version s ∧ q' = set_led (q_led q') q ∧
    ∀ k, derived k -> sql_contents q' !! k = sql_contents q !! k.
Proof.
  intros Hrun Ho. destruct (commitTxn_fails _ _ _ _ Hrun Ho) as [Hq|(He & lo & so & Eo & Hne & [(q1 & r & s & F) Hd Hs])]; [by left|right].
  split; [done|]. exists lo, so, q1, r, s. naive_solver.
Qed.
End torn.

Section sql.
Context `{H : Hasher} `{G : GCM} `{E : Entropy} `{MR : MapRange} `{CF : CaseFold}.
Context `{!GCMSpec} `{!EntropyLive} {B : Type} `{BK : Backend B} `{!BackendSpec B} `{!BackendReliable B}.
Implicit Types (q : SqlStore B) (e : tableEditor B) (w : World B).

(** C29: A full scan shows a session exactly its rows.  The session has no transaction
    open, or one that no other session's commit has overtaken since it began (scans of an
    overtaken transaction can fail).  The one partition of a table, read to the end by
    session [i], then yields the rows of the table as the session's transaction leaves
    them, each once, in the order of their keys, and changes nothing but the cache.  [fuel] bounds the chunks read, [calls] the calls of [Next]; more than
    the numbers of rows are enough. *)
Theorem full_scan (O : list bytes) (st : gmap Hash bytes) (T : database) w i id def calls fuel :
  world_ok O st T w -> catalog (w_store w) id = Some def ->
  (∀ t, w_txns w !! i = Some t -> tx_baseVersion t = s_version (q_led (w_store w))) ->
  size (trows T id) < fuel -> size (session_rows T w i id) < calls ->
  ∃ p l q', Partitions def = [p] ∧
    query calls fuel (w_txns w !! i) def p (w_store w) = (Ok l.*2, q') ∧ sreads (w_store w) q' ∧
    l ≡ₚ map_to_list (session_rows T w i id) ∧ StronglySorted (λ a b, bytes_lt a.1 b.1) l.
Proof. intros Hw Hcat Hb Hf Hc. by eapply full_query. Qed.

(** C30: Commit installs a transaction's buffers or changes nothing, on storage whose calls
    succeed (C28 says what a failing write leaves).  The transaction may have been
    overtaken by other commits; one that was not has buffers based on the committed rows,
    as the statements that filled them leave it (C31, C32).  A commit that is refused
    leaves the ledger and the derived keyspaces as they were.  One that succeeds was based
    on the committed rows it replaces (no update is lost); afterwards the store holds the
    tables with the buffers applied, at the next version or, for a transaction without
    effect, at the same version and rows; on a database with its catalog the stored
    catalog stays, and what [db_ok] says of it.  A transaction that no other commit got
    ahead of does succeed. *)
Theorem commit_spec `{QT : QueryTypes} (O : list bytes) q (st : gmap Hash bytes) (T : database) txn o q' :
  sql_ok O q st T -> commit_pre O q st T txn ->
  (s_version (q_led q) = tx_baseVersion txn -> txn_based (tx_tables txn) T) ->
  commitTxn txn q = (o, q') ->
  (is_ok o = false ∧ sreads q q' ∨
   o = Ok tt ∧ txn_based (tx_tables txn) T ∧ (∃ st', sql_ok O q' st' (apply_txn (tx_tables txn) T)) ∧
   (s_version (q_led q') = s_version (q_led q) + 1 ∨
    s_version (q_led q') = s_version (q_led q) ∧ ∀ id pk, trow (apply_txn (tx_tables txn) T) id pk = trow T id pk)%N ∧
   (db_ok O q st T -> ∃ st', db_ok O q' st' (apply_txn (tx_tables txn) T))) ∧
  (s_version (q_led q) = tx_baseVersion txn -> is_ok (txn_ops q txn) = true -> o = Ok tt).
Proof.
  intros Hok Hpre Hb Hc. split.
  - destruct (commitTxn_refines _ _ _ _ _ _ _ Hok Hpre Hc Hb) as [?|(-> & ? & (lo & so & _ & ?) & ?)]; [by left|].
    right. split_and!; [done..|by eexists|done|]. intros Hdb.
    by destruct (commitTxn_db _ _ _ _ _ _ _ Hdb Hpre Hc Hb) as [[? _]|[_ ?]].
  - intros Hv Ho. destruct (so_repr _ _ _ _ Hok) as [ot Hr]. destruct (txn_ops q txn) as [ops|er|wh] eqn:Eo; try done.
    pose proof (commitTxn_runs q ot st txn ops Hr (cp_batch _ _ _ _ _ Hpre) Eo Hv) as Hrun. by rewrite Hc in Hrun.
Qed.

(** C31: A statement is all or nothing.  In a transaction that no other commit has overtaken,
    a statement that succeeds
    applies its edits in order to the rows the transaction saw, its inserted keys being
    new at their turn; one that fails leaves the transaction as it was, whatever edits had
    already been accepted.  Neither changes the store's committed data. *)
Theorem statement_spec (O : list bytes) (st : gmap Hash bytes) (T : database) def eds e t o e' :
  def_wf def -> (∀ k, k ∈ O -> ¬ is_row_key k) ->
  ed_ok O st T def e -> ed_pending e = ∅ -> ed_txn e = Some t ->
  let before := visible (tableView (Some t) (td_ID def)) (trows T (td_ID def)) in
  edits_valid def eds before ->
  keys_apart (s_ck (q_led (ed_store e))) (O ++ row_keys T ++ edit_keys def eds) ->
  statement eds e = (o, e') ->
  stays (ed_store e) (ed_store e') ∧
  match o with
  | Ok _ => ed_ok O st T def e' ∧ ed_pending e' = ∅ ∧ edits_fresh def eds before ∧
      ∃ t', ed_txn e' = Some t' ∧ txn_at (td_ID def) t t' ∧
        visible (tableView (Some t') (td_ID def)) (trows T (td_ID def)) = apply_edits def eds before
  | Err _ => ed_ok O st T def e' ∧ ed_pending e' = ∅ ∧ ed_txn e' = Some t
  | Panic _ => ed_txn e' = Some t
  end.
Proof.
  intros Hwf HO Hok Hp Ht before Hv Hap Hrun.
  destruct (statement_ok O st T def Hwf HO eds e t o e' Hok Hp Ht Hv Hap Hrun) as (Hs & _ & Hres). by split.
Qed.

(** C32: Sessions are serialised by their commits.  However the calls of any number of
    sessions interleave, the store ends up holding the tables that result from the
    committed transactions applied one after another in commit order, each based on the
    rows it replaced; and the invariant that queries, statements and commits rely on
    holds again. *)
Theorem sessions_serial (O : list bytes) (st : gmap Hash bytes) (T : database) w cs l w' :
  world_ok O st T w -> calls O T w cs l w' ->
  ∃ st' T', world_ok O st' T' w' ∧ serial T l T'.
Proof. intros Hw Hc. by eapply calls_serial. Qed.

(** C33: An insert keeps unique indexes unique, when no other row that the transaction
    touched held one of the new row's values before the transaction: if the rows the
    statement sees hold no value of a unique index twice and the insert succeeds, so do
    the rows it leaves. *)
Theorem unique_kept (O : list bytes) (st : gmap Hash bytes) (T : database) def e r pk u e' :
  def_wf def -> (∀ k, k ∈ O -> ¬ is_row_key k) -> ed_ok O st T def e ->
  encodePK def r = Ok pk -> row_fits def r ->
  keys_apart (s_ck (q_led (ed_store e))) (O ++ row_keys T ++ [rowKey (td_ID def) pk]) ->
  unique_in def (ed_view T def e) -> not_reused def e r pk ->
  Insert r e = (Ok u, e') -> unique_in def (ed_view T def e').
Proof. apply Insert_unique. Qed.

(** C34: The check of unique indexes can be passed with a value that another row holds.
    When the statement's transaction has deleted the committed row that holds a value of
    the table's unique index, or moved it to another value, [checkUnique] finds the
    committed conflict released and does not look at the pending rows: whatever rows of the
    transaction hold that value, an insert of one more row with it, under a new key, is
    accepted, and the value is held twice.  (A transaction that is not overtaken then
    commits, by C30.) *)
Theorem unique_broken (O : list bytes) (st : gmap Hash bytes) (T : database) def e r pk ix c k old k2 r2 :
  def_wf def -> (∀ k, k ∈ O -> ¬ is_row_key k) -> ed_ok O st T def e ->
  encodePK def r = Ok pk -> row_fits def r -> (∀ t, ed_txn e = Some t -> tx_readOnly t = false) ->
  keys_apart (s_ck (q_led (ed_store e))) (O ++ row_keys T ++ [rowKey (td_ID def) pk]) ->
  ed_view T def e !! pk = None ->
  ix ∈ td_Indexes def -> ix_Unique ix = true -> (∀ ix', ix' ∈ td_Indexes def -> ix_Unique ix' = true -> ix' = ix) ->
  encodeIndexCols def ix r = Ok (c, false) ->
  trows T (td_ID def) !! k = Some old -> k ≠ pk -> encodeIndexCols def ix old = Ok (c, false) ->
  (∀ new, ed_view T def e !! k = Some new -> encodeIndexCols def ix new ≠ Ok (c, false)) ->
  ed_view T def e !! k2 = Some r2 -> encodeIndexCols def ix r2 = Ok (c, false) ->
  ∃ e', Insert r e = (Ok tt, e') ∧ ed_ok O st T def e' ∧ ed_view T def e' = <[pk := r]> (ed_view T def e) ∧
    ¬ unique_in def (ed_view T def e').
Proof. intros Hwf HO. by apply Insert_released. Qed.

(** C37: An index lookup misses no row.  As for C29, the session has no transaction open or
    one that no other session's commit has overtaken.  A lookup makes one partition per
    range, in reverse order when it reads backwards; each yields, in the order of the index
    (or its reverse), rows the session sees, and every row the session sees that is stored
    under its key and matches the range in the order of SQL is among them.  The bounds of
    the ranges and the indexed values of that row are neither NaN nor -0.0: SQL takes -0.0
    to be 0.0, but its key is another one, so a lookup of 0.0 misses it.  Bounds that are
    times are within the 64-bit nanosecond count. *)
Theorem index_lookup (O : list bytes) (st : gmap Hash bytes) (T : database) w i id def idx ranges rev parts :
  world_ok O st T w -> catalog (w_store w) id = Some def ->
  (∀ t, w_txns w !! i = Some t -> tx_baseVersion t = s_version (q_led (w_store w))) ->
  index_of def idx -> Forall (Forall (λ lh, cut_wf lh.1 ∧ cut_wf lh.2)) ranges ->
  Forall (Forall (λ lh, cut_ordered lh.1 ∧ cut_ordered lh.2)) ranges ->
  LookupPartitions def idx ranges false rev = Ok parts ->
  Forall2 (λ rng p, ∀ calls fuel, size (trows T id) < fuel -> size (session_rows T w i id) < calls ->
    ∃ (l : list entry) q',
      query calls fuel (w_txns w !! i) def p (w_store w) = (Ok (maybe_reverse rev l.*2.*2), q') ∧ sreads (w_store w) q' ∧
      StronglySorted (λ a b, bytes_lt a.1 b.1) l ∧
      (∀ k pk r, (k, (pk, r)) ∈ l -> session_rows T w i id !! pk = Some r ∧ entry_at def idx r pk = Ok k) ∧
      (∀ pk r, session_rows T w i id !! pk = Some r -> encodePK def r = Ok pk -> keys_ordered def idx r ->
         matching def idx rng r -> (pk, r) ∈ l.*2))
    ranges (maybe_reverse rev parts).
Proof.
  intros Hw Hcat Hb Hi Hcuts Hord Hl. destruct (co_u64 _ (so_cat _ _ _ _ (wo_sql _ _ _ _ Hw)) _ _ Hcat) as [_ Hids].
  pose proof (lookup_parts_ok _ _ _ _ _ Hids Hi Hl) as Hps. rewrite Forall_forall in Hcuts, Hord.
  apply Forall2_same_length_lookup_2; [by eapply Forall2_length|]. intros n rng p Hr Hp calls fuel Hf Hc.
  pose proof (list_elem_of_lookup_2 _ _ _ Hr) as Hin.
  eapply lookup_query; [done..|by apply Hcuts|by apply Hord|by eapply Forall2_lookup_lr|done|done].
Qed.

(** C39: Verified reads are complete and sound.  [VerifiedGet] of a key returns the
    table's row for it, with evidence that [VerifyRow] accepts against the store's root;
    and any evidence for that key that [VerifyRow] accepts against that root carries the
    entry of the table's row, or no entry where the table has none, unless the hashes
    involved collide. *)
Theorem verified_rows (O : list bytes) (st : gmap Hash bytes) (T : database) def q table vals p pk :
  (∀ k, k ∈ O -> ¬ is_row_key k) -> sql_ok O q st T ->
  q_tables q !! ToLower table = Some p -> q_defs q !! p = Some def ->
  catalog q (td_ID def) = Some def -> length vals = length (td_PKOrds def) ->
  encode_pk_values (td_Columns def) (td_PKOrds def) vals [] = Ok pk ->
  keys_apart (s_ck (q_led q)) (O ++ row_keys T ++ [rowKey (td_ID def) pk]) ->
  let path := pathOf (s_ck (q_led q)) (rowKey (td_ID def) pk) in
  (∃ vr q', VerifiedGet table vals q = (Ok vr, q') ∧ sreads q q' ∧
     vr_Row vr = trow T (td_ID def) pk ∧ vr_Key vr = rowKey (td_ID def) pk ∧
     vr_Root vr = s_root (q_led q) ∧ vr_Version vr = s_version (q_led q) ∧
     (VerifyRow vr (s_root (q_led q)) q).1 = Ok true) ∧
  ∀ vr, no_collision (verify_msgs path (vr_Proof vr)) (spec_msgs (commitments (s_ck (q_led q)) st)) ->
    (∀ v v', vr_Value vr = Some v -> st !! path = Some v' ->
       vhOf (s_ck (q_led q)) path v = vhOf (s_ck (q_led q)) path v' -> v = v') ->
    vr_Key vr = rowKey (td_ID def) pk -> (VerifyRow vr (s_root (q_led q)) q).1 = Ok true ->
    vr_Value vr = (λ r, row_payload def (row_enc def r)) <$> trow T (td_ID def) pk.
Proof.
  intros HO Hok Ht Hd Hcat Hlen Henc Hap path. split; [by eapply VerifiedGet_ok|]. intros vr. by apply (VerifyRow_sound O st T def HO q pk vr).
Qed.
End sql.

(** * The codec *)

(** C35: Keys sort as SQL sorts their values.  The encodings of two primary keys compare
    byte by byte as the key values, converted to the kinds of their columns, compare in
    SQL, column by column: integers and floats by their numeric value, strings and bytes in
    the binary collation, times by instant.  Times are within the 64-bit nanosecond count,
    and floats are neither NaN, which SQL does not order, nor -0.0, whose key differs from
    that of 0.0 although SQL takes the two to be equal.  For all values, no key is a proper
    prefix of another, so the order does not depend on what follows the keys. *)
Theorem key_order def r1 r2 k1 k2 :
  row_wf r1 -> row_wf r2 -> encodePK def r1 = Ok k1 -> encodePK def r2 = Ok k2 ->
  ∃ cs1 cs2, pk_vals (td_Columns def) r1 (td_PKOrds def) = Some cs1 ∧ pk_vals (td_Columns def) r2 (td_PKOrds def) = Some cs2 ∧
    (keys_ordered def None r1 -> keys_ordered def None r2 -> bytes_cmp k1 k2 = sql_key_cmp cs1 cs2) ∧
    (k1 `prefix_of` k2 -> k1 = k2).
Proof.
  intros W1 W2 (cs1 & E1 & ->)%encode_pk_vals (cs2 & E2 & ->)%encode_pk_vals. exists cs1, cs2. cbn [app].
  pose proof (pk_vals_ok _ _ _ _ W1 E1) as K1. pose proof (pk_vals_ok _ _ _ _ W2 E2) as K2.
  pose proof (λ s t, keys_then_cmp cs1 cs2 s t K1 K2 (pk_vals_alike _ _ _ _ _ _ E1 E2)) as Hcmp.
  split_and!; [done..| |].
  - intros O1 O2. specialize (Hcmp [] []). rewrite !app_nil_r in Hcmp.
    rewrite Hcmp, sql_keys_cmp by eauto using pk_vals_ordered. by destruct (key_cmp cs1 cs2).
  - intros [s Hs]. specialize (Hcmp s []). rewrite app_nil_r, Hs, bytes_cmp_refl in Hcmp.
    destruct s; [by rewrite app_nil_r in Hs|]. by destruct (key_cmp cs1 cs2).
Qed.

(** C36: What rows keep of their values when stored.  A row of the Go types of its columns,
    of any times and floats, encodes, and its encoding decodes to the row with [kept]
    values: that is the row itself exactly when its times are in UTC and within the 64-bit
    nanosecond count (1677 to 2262) and its 32-bit floats are no signalling NaNs.  A time
    outside that range wraps around and comes back as another time. *)
Theorem row_roundtrip cols r :
  Forall2 typed_col cols r ->
  (∃ data, encodeRow cols r = Ok data ∧ ((Z.of_nat (length data) < 2 ^ 63)%Z -> decodeRow cols data = Ok (kept_row r))) ∧
  (kept_row r = r ↔ Forall2 fits_col cols r).
Proof. intros Hf. split; [by apply decodeRow_kept|by apply kept_row_fits]. Qed.

(** C40: Decoding is type safe.  Whatever the bytes, a row that decodes has one value per
    column, each NULL or a value of the column's Go type within its range. *)
Theorem decoded_typed cols data r : decodeRow cols data = Ok r -> Forall2 fits_col cols r.
Proof. apply decodeRow_fits. Qed.

(** * Savepoints *)

(** C38: Savepoints are a stack of tables, and returning to one restores its tables.  In the
    model with pointers, a session's statements, savepoints, rollbacks to savepoints,
    releases and dropped buffers, in any order and failures included, are answered and leave
    the tables and savepoints as the specification without pointers says, in which a
    savepoint keeps a value of the tables, a rollback restores it and drops the later
    savepoints, and a release drops it and the later ones.  So a rollback to a savepoint
    restores the tables of when it was made and leaves it on top of the earlier ones,
    whatever operations ran in between, unless they made another of its name, released it,
    or went back to or released an earlier one. *)
Theorem savepoint_restores `{MapRange} `{CaseFold} h t tabs saves name ops :
  holds h t tabs saves ->
  (let '(os, (tabs', saves')) := spec_sp_ops ops (tabs, saves) in
   ∃ h' t', run_sp_ops ops (MkTxnHeap h (Some t)) = (os, MkTxnHeap h' (Some t')) ∧ holds h' t' tabs' saves') ∧
  (leaves_savepoint name (dropSavepoint id name (sp_name <$> saves)) ops ->
   ∃ s' h' t' pre, (run_sp_ops (OpSave name :: ops) (MkTxnHeap h (Some t))).2 = s' ∧
     RollbackToSavepoint name s' = (Ok tt, MkTxnHeap h' (Some t')) ∧ holds h' t' tabs (pre ++ [MkSavepoint name tabs])).
Proof.
  intros Hh. split; [by apply sp_ops_ok|]. intros Hv. pose proof (sp_ops_ok h t tabs saves (OpSave name :: ops) Hh) as Hrun.
  set (sp := MkSavepoint name tabs). set (saves1 := dropSavepoint sp_name name saves ++ [sp]).
  destruct (lies_on_ops sp (dropSavepoint sp_name name saves) tabs saves1 ops) as [pre Hl].
  { exists []. by split. } { by rewrite dropSavepoint_names. }
  cbn [spec_sp_ops spec_sp_op] in Hrun. fold sp saves1 in Hrun. destruct (spec_sp_ops ops (tabs, saves1)) as [os [tabs2 saves2]].
  destruct Hrun as (h2 & t2 & Er & Hh2). exists (MkTxnHeap h2 (Some t2)).
  pose proof (sp_op_ok h2 t2 tabs2 saves2 (OpRollbackTo (sp_name sp)) Hh2) as Hb. rewrite (spec_returns sp pre tabs2 saves2 Hl) in Hb.
  destruct Hb as (h3 & t3 & E3 & Hh3). exists h3, t3, pre. by rewrite Er.
Qed.

(** * Examples *)

(** The table of the demonstration as the last world has it: the counter has followed
    the keys supplied. *)
Definition demo_def3 : tableDef := set_autoInc 3 demo_def.
Definition demo_def4 : tableDef := set_autoInc 4 demo_def.

Lemma demo_cat3 : catalog (w_store demo_w3) 1 = Some demo_def3.
Proof. vm_compute. reflexivity. Qed.
Lemma demo_cat5 : catalog (w_store demo_w5) 1 = Some demo_def4.
Proof. vm_compute. reflexivity. Qed.

Lemma base_of (w : World MemBackend) i v :
  tx_baseVersion <$> w_txns w !! i = Some v -> ∀ t, w_txns w !! i = Some t -> tx_baseVersion t = v.
Proof. intros Hv t Ht. rewrite Ht in Hv. by injection Hv. Qed.

Lemma demo_base : ∀ t, w_txns demo_w5 !! 1 = Some t -> tx_baseVersion t = s_version (q_led (w_store demo_w5)).
Proof. apply base_of. by_compute. Qed.

Lemma full_scan_witness :
  ∃ p l q', Partitions demo_def4 = [p] ∧
    query 5 5 (w_txns demo_w5 !! 1) demo_def4 p (w_store demo_w5) = (Ok l.*2, q') ∧ sreads (w_store demo_w5) q' ∧
    l ≡ₚ map_to_list (session_rows demo_T demo_w5 1 1) ∧ StronglySorted (λ a b, bytes_lt a.1 b.1) l.
Proof.
  apply (full_scan demo_other demo_st demo_T demo_w5 1 1 demo_def4 5 5 demo_w5_ok demo_cat5 demo_base); by_compute.
Defined.

(** A row with a time in the year 9999: it is stored, and read back as a time in 1816. *)
Definition late_col : colDef := MkCol "at" T_DATETIME 0 0 true false.
Definition late_row : row := [Some (VTime (MkTime 253402300799 0 true))].

Lemma row_roundtrip_witness :
  ∃ data, encodeRow [late_col] late_row = Ok data ∧
    decodeRow [late_col] data = Ok [Some (VTime (MkTime (-4852116233) 66277376 true))] ∧
    kept_row late_row ≠ late_row.
Proof.
  destruct (row_roundtrip [late_col] late_row) as [(data & E1 & E2) Hiff]; [by_compute|].
  exists data. split; [exact E1|]. split.
  - rewrite E2; [by_compute|]. vm_compute in E1. injection E1 as <-. by_compute.
  - intros Hk. apply Hiff in Hk. assert (bool_decide (Forall2 fits_col [late_col] late_row) = false) as Hb by (vm_compute; reflexivity).
    apply bool_decide_eq_false in Hb. exact (Hb Hk).
Defined.

Definition open_txn (i : nat) (w : World MemBackend) : storeTxn := default (MkStoreTxn 0 false ∅ []) (w_txns w !! i).

Lemma open_txn_at i (w : World MemBackend) : is_Some (w_txns w !! i) -> w_txns w !! i = Some (open_txn i w).
Proof. intros [t Ht]. unfold open_txn. by rewrite Ht. Qed.

Lemma commit_spec_witness :
  ∃ q' st', commitTxn (open_txn 1 demo_w5) (w_store demo_w5) = (Ok tt, q') ∧
    sql_ok demo_other q' st' (apply_txn (tx_tables (open_txn 1 demo_w5)) demo_T).
Proof.
  assert (w_txns demo_w5 !! 1 = Some (open_txn 1 demo_w5)) as Ht by (apply open_txn_at; by_compute).
  pose proof (wo_txns _ _ _ _ demo_w5_ok _ _ Ht) as Hto.
  assert (commit_pre demo_other (w_store demo_w5) demo_st demo_T (open_txn 1 demo_w5)) as Hpre.
  { split; [apply demo_w5_ok|by eapply txn_ok_wf|apply keys_apartb_sound|apply txn_preb_sound]; vm_compute; reflexivity. }
  destruct (commitTxn (open_txn 1 demo_w5) (w_store demo_w5)) as [o q'] eqn:Er.
  destruct (commit_spec demo_other (w_store demo_w5) demo_st demo_T _ o q' (wo_sql _ _ _ _ demo_w5_ok) Hpre (txn_ok_based _ _ _ Hto) Er)
    as [Hres Hlive].
  assert (o = Ok tt) as ->; [apply Hlive; [symmetry; by apply demo_base|vm_compute; reflexivity]|].
  destruct Hres as [[Hx _]|(_ & _ & (st' & Hs) & _)]; [discriminate Hx|]. exists q', st'. split; [reflexivity|exact Hs].
Defined.

(** The same commit on storage that fails at the second write. *)
Definition torn_start : SqlStore FaultyBackend := faulty_sql 1 (w_store demo_w5).

Lemma torn_start_fails : is_ok (commitTxn (open_txn 1 demo_w5) torn_start).1 = false.
Proof. vm_compute. reflexivity. Qed.
Lemma torn_start_version :
  s_version (q_led (commitTxn (open_txn 1 demo_w5) torn_start).2) = (s_version (q_led torn_start) + 1)%N.
Proof. vm_compute. reflexivity. Qed.

Lemma commit_failure_witness :
  ∃ er q', commitTxn (open_txn 1 demo_w5) torn_start = (Err er, q') ∧
    s_version (q_led q') = (s_version (q_led torn_start) + 1)%N ∧
    sql_contents q' !! [scanMetaKey] = sql_contents torn_start !! [scanMetaKey].
Proof.
  pose proof torn_start_version as Hv. pose proof torn_start_fails as Ho.
  destruct (commitTxn (open_txn 1 demo_w5) torn_start) as [o q'] eqn:Er. cbn [fst snd] in *.
  destruct (commit_failure _ _ _ _ Er Ho) as [[Hq _]|([er ->] & lo & so & q1 & r & s & _ & _ & _ & _ & _ & _ & _ & _ & Hd)].
  - exfalso. apply quiet_head in Hq as (_ & Hq & _). rewrite Hv in Hq. revert Hq.
    generalize (s_version (q_led torn_start)). intros n Hn. lia.
  - exists er, q'. split; [reflexivity|]. split; [exact Hv|]. apply (Hd [scanMetaKey]). right. left. reflexivity.
Defined.

Definition demo_editor : tableEditor MemBackend := newEditor (w_store demo_w4) 0 (Some (open_txn 1 demo_w4)).
Definition demo_edits : list row_edit := [EUpdate (drow 2 20) (drow 2 5); EInsert (drow 3 20)].

Lemma demo_cat4 : catalog (w_store demo_w4) 1 = Some demo_def3.
Proof. vm_compute. reflexivity. Qed.

Lemma demo_txn4 : w_txns demo_w4 !! 1 = Some (open_txn 1 demo_w4).
Proof. apply open_txn_at. by_compute. Qed.

Lemma demo_editor_ok : ed_ok demo_other demo_st demo_T demo_def3 demo_editor.
Proof.
  assert (∃ n, Some demo_def3 = Some (set_autoInc n demo_def3)) as Hn by (by exists 3%N).
  split; [apply demo_w4_ok| | |].
  - cbn [demo_editor newEditor ed_store ed_def]. assert (q_defs (w_store demo_w4) !! 0 = Some demo_def3) as -> by (vm_compute; reflexivity). done.
  - cbn [demo_editor newEditor ed_store]. change (td_ID demo_def3) with 1%N. by rewrite demo_cat4.
  - apply (to_based _ _ _ (wo_txns _ _ _ _ demo_w4_ok _ _ demo_txn4)); [|apply demo_cat4].
    eapply base_of; [|apply demo_txn4]. by_compute.
Qed.

Lemma demo_def3_wf : def_wf demo_def3.
Proof. exact (wo_defs _ _ _ _ demo_w4_ok _ _ demo_cat4). Qed.

Lemma statement_spec_witness :
  ∃ e' t', statement demo_edits demo_editor = (Ok tt, e') ∧ ed_txn e' = Some t' ∧
    visible (tableView (Some t') 1) (trows demo_T 1) =
    apply_edits demo_def3 demo_edits (visible (tableView (Some (open_txn 1 demo_w4)) 1) (trows demo_T 1)).
Proof.
  destruct (statement demo_edits demo_editor) as [o e'] eqn:Er.
  assert (is_ok o = true) as Ho by (change o with (o, e').1; rewrite <-Er; vm_compute; reflexivity).
  destruct (statement_spec demo_other demo_st demo_T demo_def3 demo_edits demo_editor (open_txn 1 demo_w4) o e') as [_ Hres].
  - exact demo_def3_wf.
  - exact demo_other_rows.
  - exact demo_editor_ok.
  - reflexivity.
  - reflexivity.
  - by_compute.
  - apply keys_apartb_sound. vm_compute. reflexivity.
  - exact Er.
  - destruct o as [[]|er|wh]; try discriminate Ho.
    destruct Hres as (_ & _ & _ & t' & Et & _ & Hv). exists e', t'. split; [reflexivity|]. split; [exact Et|exact Hv].
Defined.

(** Two sessions whose calls interleave: both open a transaction, write different rows
    and commit. *)
Definition demo_run : list (nat * call) :=
  [(1, CallBegin false); (2, CallBegin false); (1, CallStmt 0 [EUpdate (drow 2 20) (drow 2 5)]);
   (2, CallStmt 0 [EInsert (drow 3 30)]); (1, CallCommit); (2, CallCommit)].

Lemma sessions_serial_witness :
  length (committed demo_w3 demo_run) = 2 ∧
  ∃ st' T', world_ok demo_other st' T' (run_to demo_w3 demo_run) ∧ serial demo_T (committed demo_w3 demo_run) T'.
Proof.
  split; [vm_compute; reflexivity|]. apply (sessions_serial demo_other demo_st demo_T demo_w3 demo_run _ _ demo_w3_ok).
  apply (run_calls demo_other demo_st); [apply demo_w3_ok|vm_compute; reflexivity].
Defined.

Definition same_value (def : tableDef) (ix : indexDef) (r1 r2 : row) : bool :=
  match encodeIndexCols def ix r1, encodeIndexCols def ix r2 with
  | Ok (c1, false), Ok (c2, false) => bool_decide (c1 = c2)
  | _, _ => false
  end.
Definition unique_inb (def : tableDef) (rows : gmap bytes row) : bool :=
  forallb (λ ix, negb (ix_Unique ix) || forallb (λ a, forallb (λ b, negb (same_value def ix a.2 b.2) || bool_decide (a.1 = b.1))
    (map_to_list rows)) (map_to_list rows)) (td_Indexes def).

Lemma unique_inb_sound def rows : unique_inb def rows = true -> unique_in def rows.
Proof.
  unfold unique_inb. rewrite forallb_forall. intros Hb ix pk1 pk2 r1 r2 c Hix Hu H1 H2 E1 E2.
  specialize (Hb ix (proj1 (list_elem_of_In _ _) Hix)). rewrite Hu in Hb. cbn [negb orb] in Hb. rewrite forallb_forall in Hb.
  specialize (Hb (pk1, r1)). rewrite <-list_elem_of_In, elem_of_map_to_list, forallb_forall in Hb. specialize (Hb H1 (pk2, r2)).
  rewrite <-list_elem_of_In, elem_of_map_to_list in Hb. specialize (Hb H2). unfold same_value in Hb. cbn [fst snd] in Hb.
  rewrite E1, E2, bool_decide_true in Hb by done. by apply bool_decide_eq_true in Hb.
Qed.

Lemma unique_kept_witness :
  ∃ u e', Insert (drow 4 40) demo_editor = (Ok u, e') ∧ unique_in demo_def3 (ed_view demo_T demo_def3 e').
Proof.
  destruct (Insert (drow 4 40) demo_editor) as [o e'] eqn:Er.
  assert (is_ok o = true) as Ho by (change o with (o, e').1; rewrite <-Er; vm_compute; reflexivity).
  destruct o as [u|er|wh]; [|discriminate Ho..]. exists u, e'. split; [reflexivity|].
  destruct (encodePK demo_def3 (drow 4 40)) as [pk|er|wh] eqn:Epk; [|vm_compute in Epk; discriminate Epk..].
  apply (unique_kept demo_other demo_st demo_T demo_def3 demo_editor (drow 4 40) pk u e' demo_def3_wf demo_other_rows demo_editor_ok Epk).
  - by_compute.
  - apply keys_apartb_sound. vm_compute in Epk. injection Epk as <-. vm_compute. reflexivity.
  - apply unique_inb_sound. vm_compute. reflexivity.
  - intros ix c k p old _ _ _ Hp. assert (tt_rows (stmt_buffer demo_def3 (ed_txn demo_editor) (ed_pending demo_editor)) = ∅) as Hem by by_compute.
    rewrite Hem, lookup_empty in Hp. discriminate Hp.
  - exact Er.
Defined.

(** The editor of a statement in the transaction of the last world, which has moved row 2
    from the value 20 to 5 and inserted row 3 with it. *)
Definition reuse_editor : tableEditor MemBackend := newEditor (w_store demo_w5) 0 (Some (open_txn 1 demo_w5)).

Lemma reuse_editor_ok : ed_ok demo_other demo_st demo_T demo_def4 reuse_editor.
Proof.
  assert (∃ n, Some demo_def4 = Some (set_autoInc n demo_def4)) as Hn by (by exists 4%N).
  split; [apply demo_w5_ok| | |].
  - cbn [reuse_editor newEditor ed_store ed_def]. assert (q_defs (w_store demo_w5) !! 0 = Some demo_def4) as -> by (vm_compute; reflexivity). done.
  - cbn [reuse_editor newEditor ed_store]. change (td_ID demo_def4) with 1%N. by rewrite demo_cat5.
  - assert (w_txns demo_w5 !! 1 = Some (open_txn 1 demo_w5)) as Ht by (apply open_txn_at; by_compute).
    apply (to_based _ _ _ (wo_txns _ _ _ _ demo_w5_ok _ _ Ht)); [by apply demo_base|apply demo_cat5].
Qed.

(** A third row with the value is accepted, and the transaction commits. *)
Definition key_of (n : Z) : bytes := match encodePK demo_def4 (drow n 0) with Ok k => k | _ => [] end.
Definition u_index : indexDef := MkIndex 1 "u" true [1].
Definition u_value (u : Z) : bytes := match encodeIndexCols demo_def4 u_index (drow 0 u) with Ok (c, _) => c | _ => [] end.

Lemma unique_broken_witness :
  ∃ e', Insert (drow 4 20) reuse_editor = (Ok tt, e') ∧ ¬ unique_in demo_def4 (ed_view demo_T demo_def4 e').
Proof.
  destruct (unique_broken demo_other demo_st demo_T demo_def4 reuse_editor (drow 4 20) (key_of 4) u_index (u_value 20)
    (key_of 2) (drow 2 20) (key_of 3) (drow 3 20)) as (e' & Er & _ & _ & Hu);
    [..|exists e'; exact (conj Er Hu)].
  - exact (wo_defs _ _ _ _ demo_w5_ok _ _ demo_cat5).
  - exact demo_other_rows.
  - exact reuse_editor_ok.
  - by_compute.
  - by_compute.
  - intros t Ht. assert (tx_readOnly <$> ed_txn reuse_editor = Some false) as Hr by by_compute. rewrite Ht in Hr. injection Hr as Hr. exact Hr.
  - apply keys_apartb_sound. vm_compute. reflexivity.
  - by_compute.
  - left.
  - reflexivity.
  - intros ix' Hix' _. apply list_elem_of_singleton in Hix'. exact Hix'.
  - by_compute.
  - by_compute.
  - by_compute.
  - by_compute.
  - assert (ed_view demo_T demo_def4 reuse_editor !! key_of 2 = Some (drow 2 5)) as -> by by_compute. intros new [= <-]. by_compute.
  - by_compute.
  - by_compute.
Defined.

Example unique_broken_committed :
  let w := run_to demo_w5 [(1, CallStmt 0 [EInsert (drow 4 20)]); (1, CallCommit)] in
  is_ok (run_call 1 CallCommit (next 1 (CallStmt 0 [EInsert (drow 4 20)]) demo_w5)).1 = true ∧
  (query 9 9 None demo_def (fullScanPartition (scanKey (td_ID demo_def) [])) (w_store w)).1 =
    Ok [drow 1 10; drow 2 5; drow 3 20; drow 4 20].
Proof. split_and!; vm_compute; reflexivity. Qed.

Lemma index_lookup_witness :
  let ix := MkIndex 1 "u" true [1] in
  let rng := [(Below (VInt64 5), Above (VInt64 20))] in
  ∃ parts, LookupPartitions demo_def4 (Some ix) [rng] false true = Ok parts ∧ length parts = 1 ∧
  ∀ p, p ∈ parts -> ∃ (l : list entry) q',
    query 5 5 (w_txns demo_w5 !! 1) demo_def4 p (w_store demo_w5) = (Ok (reverse l.*2.*2), q') ∧
    ∀ pk r, session_rows demo_T demo_w5 1 1 !! pk = Some r -> encodePK demo_def4 r = Ok pk -> keys_ordered demo_def4 (Some ix) r ->
      matching demo_def4 (Some ix) rng r -> (pk, r) ∈ l.*2.
Proof.
  intros ix rng. destruct (LookupPartitions demo_def4 (Some ix) [rng] false true) as [parts|er|wh] eqn:El;
    [|vm_compute in El; discriminate El..].
  exists parts. pose proof (index_lookup demo_other demo_st demo_T demo_w5 1 1 demo_def4 (Some ix) [rng] true parts
    demo_w5_ok demo_cat5 demo_base ltac:(left) ltac:(repeat constructor; by_compute) ltac:(repeat constructor) El) as Hall.
  split; [reflexivity|]. split; [vm_compute in El; injection El as <-; reflexivity|].
  intros p Hp. apply (elem_of_reverse p parts) in Hp. cbn [maybe_reverse] in Hall.
  apply list_elem_of_lookup in Hp as [n Hn]. destruct (Forall2_lookup_r _ _ _ _ _ Hall Hn) as (rng' & Hr & Hq).
  destruct n; [|discriminate Hr]. injection Hr as <-.
  destruct (Hq 5 5) as (l & q' & Eq & _ & _ & _ & Hin); [by_compute..|]. exists l, q'. split; [exact Eq|exact Hin].
Defined.

Definition demo_vals : list value := [VInt64 2].

Lemma verified_rows_witness :
  ∃ vr q', VerifiedGet "T" demo_vals (w_store demo_w3) = (Ok vr, q') ∧ vr_Row vr = Some (drow 2 20) ∧
    (VerifyRow vr (s_root (q_led (w_store demo_w3))) (w_store demo_w3)).1 = Ok true ∧
    vr_Value vr = Some (row_payload demo_def3 (row_enc demo_def3 (drow 2 20))).
Proof.
  destruct (encode_pk_values (td_Columns demo_def3) (td_PKOrds demo_def3) demo_vals []) as [pk|er|wh] eqn:Epk;
    [|vm_compute in Epk; discriminate Epk..].
  assert (trow demo_T (td_ID demo_def3) pk = Some (drow 2 20)) as Hrow.
  { vm_compute in Epk. injection Epk as <-. by_compute. }
  assert (keys_apart (s_ck (q_led (w_store demo_w3))) (demo_other ++ row_keys demo_T ++ [rowKey (td_ID demo_def3) pk])) as Hap.
  { vm_compute in Epk. injection Epk as <-. apply keys_apartb_sound. vm_compute. reflexivity. }
  destruct (verified_rows demo_other demo_st demo_T demo_def3 (w_store demo_w3) "T" demo_vals 0 pk demo_other_rows (wo_sql _ _ _ _ demo_w3_ok))
    as [(vr & q' & Ev & _ & Er & Ek & _ & _ & Hv) Hsound].
  - by_compute.
  - vm_compute. reflexivity.
  - exact demo_cat3.
  - reflexivity.
  - exact Epk.
  - exact Hap.
  - exists vr, q'. rewrite Hrow in Er, Hsound. split; [exact Ev|]. split; [exact Er|]. split; [exact Hv|].
    assert ((VerifiedGet "T" demo_vals (w_store demo_w3)).1 = Ok vr) as Ev1 by (rewrite Ev; reflexivity).
    assert (vr_Value vr = demo_st !! pathOf (s_ck (q_led (w_store demo_w3))) (rowKey (td_ID demo_def3) pk)) as Hval.
    { clear -Ev1 Epk. vm_compute in Epk. injection Epk as <-. vm_compute in Ev1. injection Ev1 as <-. vm_compute. reflexivity. }
    apply (Hsound vr); [|intros v v' Hv1 Hv2 _; congruence|exact Ek|exact Hv].
    apply no_collisionb_sound. clear -Ev1 Epk. vm_compute in Epk. injection Epk as <-. vm_compute in Ev1. injection Ev1 as <-.
    vm_compute. reflexivity.
Defined.

(** Two rows keyed by a float: -1.5 sorts before 2.0. *)
Definition float_def : tableDef := MkTable 1 "f" [MkCol "x" T_FLOAT64 0 0 false false] [0] "" [] 0.
Definition float_row (bits : N) : row := [Some (VFloat64 bits)].

Lemma key_order_witness :
  ∃ k1 k2, encodePK float_def (float_row 0xBFF8000000000000) = Ok k1 ∧ encodePK float_def (float_row 0x4000000000000000) = Ok k2 ∧
    bytes_cmp k1 k2 = Lt.
Proof.
  destruct (encodePK float_def (float_row 0xBFF8000000000000)) as [k1|er|wh] eqn:E1; [|vm_compute in E1; discriminate E1..].
  destruct (encodePK float_def (float_row 0x4000000000000000)) as [k2|er|wh] eqn:E2; [|vm_compute in E2; discriminate E2..].
  exists k1, k2. split; [reflexivity|]. split; [reflexivity|].
  destruct (key_order float_def (float_row 0xBFF8000000000000) (float_row 0x4000000000000000) k1 k2) as (cs1 & cs2 & P1 & P2 & Hc & _);
    [by_compute|by_compute|exact E1|exact E2|].
  rewrite Hc; [|by_compute..]. vm_compute in P1, P2. injection P1 as <-. injection P2 as <-. vm_compute. reflexivity.
Defined.

Lemma decoded_typed_witness :
  ∃ r, decodeRow (td_Columns demo_def) (row_enc demo_def (drow 1 10)) = Ok r ∧ Forall2 fits_col (td_Columns demo_def) r.
Proof.
  exists (drow 1 10). assert (decodeRow (td_Columns demo_def) (row_enc demo_def (drow 1 10)) = Ok (drow 1 10)) as Hd by (vm_compute; reflexivity).
  split; [exact Hd|]. exact (decoded_typed _ _ _ Hd).
Defined.

(** A transaction that has written one row of table 1 makes a savepoint, overwrites the
    row, makes a second savepoint, adds another table's row, goes back to the second
    savepoint, drops the buffer of table 1, releases the second savepoint, fails to release
    one that does not exist and returns to the first. *)
Definition demo_pending (n : Z) : gmap bytes pendingRow := {[ [] := Pending [] None (Some (drow n n)) ]}.

Lemma empty_holds : holds (MkHeap ∅ ∅ 0) (MkPtxn ∅ []) ∅ [].
Proof.
  assert (∀ id k, slot (MkHeap ∅ ∅ 0) ∅ id k = None) as Hs by (intros id k; unfold slot; by rewrite lookup_empty).
  split; cbn [pt_tables pt_saves]; [intros id; rewrite !lookup_empty; constructor| | |constructor].
  - split; [intros id t; by rewrite lookup_empty|intros id k p; by rewrite Hs].
  - split; [intros id id' t; by rewrite lookup_empty|intros id k id' k' p; by rewrite Hs].
Qed.

Lemma savepoint_restores_witness :
  ∃ h t, runStatement 1 (demo_pending 1) (MkTxnHeap (MkHeap ∅ ∅ 0) (Some (MkPtxn ∅ []))) = (Ok tt, MkTxnHeap h (Some t)) ∧
  ∃ s' h' t' pre,
    (run_sp_ops [OpSave "a"; OpStatement 1 (demo_pending 2); OpSave "b"; OpStatement 2 (demo_pending 3); OpRollbackTo "B";
                 OpForget 1; OpRelease "b"; OpRelease "c"] (MkTxnHeap h (Some t))).2 = s' ∧
    RollbackToSavepoint "a" s' = (Ok tt, MkTxnHeap h' (Some t')) ∧
    holds h' t' (fold_statement 1 (demo_pending 1) ∅) (pre ++ [MkSavepoint "a" (fold_statement 1 (demo_pending 1) ∅)]).
Proof.
  destruct (runStatement_ok _ _ _ _ 1 (demo_pending 1) empty_holds) as (h & t & Er & Hh). exists h, t. split; [exact Er|].
  apply (savepoint_restores h t _ [] "a" _ Hh). cbn [leaves_savepoint]. split_and!; by_compute.
Defined.
