(* ===== verification/ThmDdl.v ===== *)
(** The theorems on the catalog of the SQL layer: its DDL refines operations on a map of
    definitions, and opening a database reads the catalog back and rebuilds stale
    keyspaces. *)

From S2P Require Import Prelude Errors Sha256 Hashing Node Smt Proofs Aead AesGcm Backend Cache Store Tree StoreRead Update StoreWrite Records StoreCommit StoreOpen StoreProof StoreFrame Ledger Demo.
From S2P Require Import GoNum SqlCodec SqlIndex SqlTxn SqlOverlay SqlStore Json SqlCatalog SqlScan SqlScanOk SqlCommit SqlRefine SqlTable SqlEdit SqlUnique SqlSession SqlRemove SqlDdl SqlIndexBuild SqlCat SqlDdlOk SqlTableDdl SqlDdlSpec SqlReopen SqlRebuild SqlDemo SqlDdlDemo.

Section catalog.
Context `{H : Hasher} `{G : GCM} `{E : Entropy} `{MR : MapRange} `{CF : CaseFold} `{QT : QueryTypes}.
Context {B : Type} `{BK : Backend B} `{!BackendSpec B} `{!BackendReliable B}.
Context `{!GCMSpec} `{!EntropyLive}.

(** C16: The DDL does what its specification says.  On a database whose ledger, catalog
    and derived keyspaces agree, CREATE, DROP, RENAME and TRUNCATE TABLE and CREATE, DROP
    and RENAME INDEX either return the error the specification names and change nothing
    but caches, or succeed with the counters, the definitions and the rows it says, and
    ledger, catalog and keyspaces agree again: a new index holds the entries of exactly
    the rows there are, a dropped table's rows and entries are gone.  Rows are removed in
    chunks; [rounds] bounds them, and one more than the rows fill is enough. *)
Theorem ddl_refines (O : list bytes) (q : SqlStore B) (st : gmap Hash bytes) (T : database) (rounds : nat) (d : ddl) :
  db_ok O q st T -> keys_apart (s_ck (q_led q)) (O ++ row_keys T) ->
  (∀ n def, cat_map q !! n = Some def ->
     size (trows T (td_ID def)) + N.to_nat scanChunkSize ≤ N.to_nat scanChunkSize * rounds) ->
  match ddl_spec d (q_meta q) (cat_map q) T with
  | Ok (m', A', T') => ddl_pre O rounds q st T d m' A' ->
      ∃ q' st', run_ddl rounds d q = (Ok tt, q') ∧ db_ok O q' st' T' ∧ q_meta q' = m' ∧ cat_map q' = A'
  | Err e => ∃ q', run_ddl rounds d q = (Err e, q') ∧ sreads q q'
  | Panic _ => False
  end.
Proof. intros Hdb Hap Hr. exact (statement_refines O q st T rounds Hdb Hap Hr d). Qed.

(** C18: A database is found again.  When the ledger of a database is opened again from
    its storage and the SQL layer on it, the catalog is the one that was stored, with the
    counters of AUTO_INCREMENT columns as last committed; the rows are the same, and the
    derived keyspaces are used as they are. *)
Theorem catalog_reopen (key : bytes32) (sk : option bytes32) (opts : list (storeOptions -> storeOptions)) (O : list bytes) (q : SqlStore B) (st : gmap Hash bytes)
    (T : database) (rounds : nat) (name : string) :
  db_ok O q st T -> durable key sk (q_led q) st -> root_apart (b32 key) st ->
  o_sk (options_of opts) = sk -> (o_history (options_of opts) = true -> s_history (q_led q) = true) ->
  ∃ led q', OpenLatest (s_backend (q_led q)) key opts = (Ok tt, led) ∧ SqlOpen rounds led name = (Ok tt, q') ∧
    db_ok O q' st T ∧ durable key sk (q_led q') st ∧ q_meta q' = q_meta q ∧
    cat_map q' = reloaded (b32 key) st <$> cat_map q ∧
    s_root (q_led q') = s_root (q_led q) ∧ s_version (q_led q') = s_version (q_led q).
Proof.
  intros Hdb [Hck Hkey Hch] Hap Hsk Hh. destruct (so_repr _ _ _ _ (db_sql _ _ _ _ Hdb)) as [ot Hr].
  assert (s_ck (q_led q) = b32 key) as Ek by apply Hkey.
  destruct (OpenLatest_ok (q_led q) ot st key sk opts) as (led & E1 & Hr' & Hc' & Hk' & Hch' & Ero & Ever & _ & _ & Ect & _); try done.
  { eapply view_placeholder; [exact (r_view _ _ _ Hr)|by rewrite Ek]. }
  assert (s_ck led = b32 key) as Ek' by apply Hk'.
  destruct (open_current O led st T (q_meta q) (cat_map q) rounds name) as (q' & E2 & Hdb' & Em & Ec & Hs).
  - eapply stored_led; [by apply stored_of_db|by exists ot|congruence].
  - rewrite Ect. exact (keyspaces_of_db _ _ _ _ Hdb).
  - rewrite Ect, Ever. exact (so_marker _ _ _ _ (db_sql _ _ _ _ Hdb)).
  - exists led, q'. rewrite Ek' in Ec. split_and!; try done; [by eapply durable_same|by rewrite (sl_root _ _ Hs)|by rewrite (sl_version _ _ Hs)].
Qed.

(** C12: Opening after a crash repairs the row keyspace.  A ledger whose derived
    keyspaces are not those of its version (the marker differs, whatever they hold) is
    opened: the row keyspace is derived anew from the leaves of the ledger and the
    entries of the indexes are added, all other index entries staying; when the index
    keyspaces held entries of rows only, the database is again as the ledger says.  A
    round removes or reads a chunk; [rounds] need only cover the larger of the two. *)
Theorem rebuild_recovers (O : list bytes) (led : Store B) (st : gmap Hash bytes) (T : database) (m : catalogMeta)
    (A : gmap string tableDef) (rounds : nat) (name : string) :
  stored_db O led st T m A -> rows_keyed A T -> others_plain O (s_ck led) st A ->
  root_apart (s_ck led) st -> is_u64 (s_version led) -> applied_of (contents (s_backend led)) ≠ s_version led ->
  length (scan_spec (contents (s_backend led)) [scanPrefix] [u8 (bn scanPrefix + 1)] 0) < N.to_nat scanChunkSize * rounds ->
  size st ≤ N.to_nat scanChunkSize * rounds ->
  ∃ q', SqlOpen rounds led name = (Ok tt, q') ∧
    (∀ k, k ≠ [scanMetaKey] ->
       (∃ v, entry_of A T k v ∧ sql_contents q' !! k = Some v) ∨
       (∀ v, ¬ entry_of A T k v) ∧
         sql_contents q' !! k = if decide ([scanPrefix] `prefix_of` k) then None else contents (s_backend led) !! k) ∧
    (index_sound A T (contents (s_backend led)) -> index_fresh m (contents (s_backend led)) ->
       db_ok O q' st T ∧ q_meta q' = m ∧ cat_map q' = reloaded (s_ck led) st <$> A ∧ same_ledger led (q_led q')).
Proof.
  intros Hs Hk Hp Ha Hu Hm Hl Hsz. destruct (sd_repr _ _ _ _ _ _ Hs) as [ot Hr].
  eapply (open_rebuilds O led ot st T m A rounds name); try done. eapply view_placeholder; [exact (r_view _ _ _ Hr)|done].
Qed.
End catalog.

(** ** Instances *)

Lemma ddl_refines_witness :
  ∃ q' st', run_ddl 2 cat_index cat_sql = (Ok tt, q') ∧ db_ok cat_others q' st' cat_tables ∧
    q_meta q' = MkMeta 2 3 ["t"] ∧ cat_map q' = {["t" := cat_index_def]}.
Proof.
  pose proof (ddl_refines cat_others cat_sql cat_state cat_tables 2 cat_index cat_db cat_apart cat_rounds) as Hd.
  rewrite cat_index_spec in Hd. exact (Hd cat_index_pre).
Defined.

Lemma catalog_reopen_witness :
  ∃ led q', OpenLatest (s_backend (q_led cat_sql)) demo_key [] = (Ok tt, led) ∧ SqlOpen 0 led "db" = (Ok tt, q') ∧
    db_ok cat_others q' cat_state cat_tables ∧ q_meta q' = cat_meta.
Proof.
  destruct (catalog_reopen demo_key None [] cat_others cat_sql cat_state cat_tables 0 "db" cat_db cat_sql_durable cat_root_apart eq_refl)
    as (led & q' & E1 & E2 & Hdb & _ & Em & _); [intros Hh; discriminate Hh|].
  exists led, q'. rewrite cat_sql_meta in Em. split_and!; assumption.
Defined.

(** The commit of [cat_led] reached the ledger and not the derived keyspaces. *)
Lemma rebuild_recovers_witness :
  ∃ q', SqlOpen 1 cat_led "db" = (Ok tt, q') ∧ db_ok cat_others q' cat_state cat_tables ∧
    sql_contents q' !! scanKey 1 cat_pk = Some [].
Proof.
  destruct (rebuild_recovers cat_others cat_led cat_state cat_tables cat_meta cat_defs 1 "db" cat_stored cat_keyed cat_plain)
    as (q' & E1 & Hb & Hop).
  - rewrite cat_ck. exact cat_root_apart.
  - by_compute.
  - by_compute.
  - by_compute.
  - by_compute.
  - exists q'. split; [exact E1|]. split; [apply Hop; [exact cat_sound|exact cat_fresh]|].
    replace q' with cat_sql by (unfold cat_sql; rewrite E1; reflexivity). vm_compute. reflexivity.
Defined.
